(* ===== verification/_CoqProject ===== *)
-Q . S2P
Prelude.v
Model.v
Book.v
BookSpec.v
BookRep.v
BookRefine.v
BookApply.v
BookWalk.v
BookFacts.v
BookTrace.v
BookFeed.v
BookProps.v
Bytes.v
Codec.v
CodecFacts.v
Fs.v
Reader.v
JournalProps.v
Registry.v
Recovery.v
RecoveryProps.v
Names.v
Disk.v
SnapStore.v
Metrics.v
MetricsProps.v
Writer.v
WriterFacts.v
WriterSafe.v
WriterProps.v
WriterLive.v
Sequencer.v
SequencerProps.v
Rounds.v
Loop.v
LoopProps.v
Typed.v
Shard.v
Engine.v
EngineProps.v
EngineStart.v
System.v
Inbox.v
SystemProps.v
SystemCut.v
Restart.v
Loadgen.v
Producers.v
Commands.v
