(* ===== verification/Prelude.v ===== *)
(** * A verified model of the matching engine

    The program is an order matching engine written in Go.  Commands (new, cancel,
    replace) enter through a sequencer (internal/ingress), which numbers them and
    routes each to the shard of its symbol.  A shard (internal/shard/loop.go)
    applies a command to the symbol's order book (internal/book), appends command
    and result to a write-ahead log (internal/journal) and replies when the log is
    on disk.  Snapshots of all books (internal/snapshot) bound the log that has to
    be replayed when the engine starts (internal/shard/engine.go,
    internal/recovery).

    ** Conventions

    A Go integer is a [Z] kept in the range of its type, with the wrap-around
    written out ([i64_add], [u64_add], ...).  Pointers are locations in a store that
    is part of the state, a map is a [gmap], a slice a list.  Code with effects is in
    the monad [GoM]: it returns a value and a state, panics (nil dereference, index
    out of range), or runs out of the fuel of a loop; every theorem that says a
    function returns excludes the last two.  [fallible A] is the result of a Go
    function that returns [(A, error)].

    ** Files

    - Prelude: machine integers, effects, errors, shared lemmas.
    - Model: internal/model/types.go, with both validators.
    - Book: internal/book/book.go, function by function, on a heap of [Order] and
      [PriceLevel] objects linked by pointers, the price slices and the level maps.
      BookSpec is the reference semantics: a book is the pair of its sides, a side a
      list of levels, best price first, a level a list of orders, oldest first
      ([Snapshot], the type the program itself uses to save a book), and a command is a
      function on it ([spec_Apply]).  BookRep relates a heap to a [Snapshot] ([repr]);
      BookRefine and BookApply prove that every operation of Book implements the
      reference; BookWalk does the same for CheckInvariants, Snapshot and
      NewFromSnapshot.  BookFacts, BookTrace and BookFeed hold the facts about the
      reference semantics, sequences of commands and event streams; BookProps has
      the properties.
    - Bytes: bytes, little-endian integers, CRC-32C.  Codec: internal/journal/codec.go,
      with the offset arithmetic and the reused buffer; CodecFacts its lemmas.
      Fs: directories, globbing, file names.  Reader: internal/journal/reader.go.
      JournalProps has the properties.
    - Registry: internal/config/config.go and internal/shard/registry.go.
    - Recovery: internal/recovery/recovery.go and recoverBooks and nextSequence of
      internal/shard/engine.go; the interface of a replayed book is the class
      [ReplayedBook] with the laws [ReplayLaws], which the order book satisfies.
      RecoveryProps has the properties.  A [history] is a sequence of logged records,
      each with the result the reference semantics gives after the ones before it; it
      is the link between running shards and recovery.
    - Names: the numbered file names and their order.  Disk: files with a synced part,
      a directory with a synced part, file operations that can fail or crash after any
      part of their work ([IO]), and what a crash leaves ([survives]).  SnapStore:
      internal/snapshot/snapshot.go on such a disk.
    - Metrics: internal/metrics/metrics.go, with IEEE 754 arithmetic and, in [HwmRace],
      the compare-and-swap loop of updateHWM; MetricsProps its properties.
    - Writer: internal/journal/writer.go; the goroutine and its clients are steps
      ([run_step], [client_step]) and [reached] interleaves them.  WriterFacts and
      WriterSafe treat the segment files, WriterProps and WriterLive the goroutine.
    - Sequencer: internal/ingress/sequencer.go, likewise; SequencerProps.
    - Loop: internal/shard/loop.go; LoopProps has its invariant for any writer, Typed
      that its records can be encoded, and Shard runs a loop against the Writer.
    - Engine: the rest of internal/shard/engine.go; EngineProps treats snapshots,
      EngineStart the start-up.
    - System: the sequencer and all shards of an engine as one step relation.  Rounds
      follows a barrier or a drain of the sequencer through the inboxes, Inbox the
      messages a shard takes; SystemProps composes the invariants of the parts.
      SystemCut treats barriers and snapshots of a running engine, Restart the end of a
      run and the next start.
    - Loadgen and Producers: cmd/loadgen, its command generator and report and its
      concurrent producers.  Commands: cmd/engine, cmd/replay and the start of
      cmd/loadgen.

    ** What the theorems show

    - Order book: the pointer program refines the reference semantics on every
      reachable book and every command (C1) and its own invariant checker always
      passes (C11); price-time priority (C6), conservation of quantity (C12),
      all-or-nothing execution (C13), the complete table of rejections (C22), what the
      events tell about the book (C23), unique trade ids (C24), snapshot round trip and
      transparency (C25, C26), priority under replace (C27, C28), how orders leave (C29,
      C30), and fill-or-kill orders that fail because a total has overflowed (C40).
    - Journal: round trip (C18), reading after a crash at any byte (C19), recognition of
      corrupted records (C20), a decoder without panics (C34), and the segment that
      blocks reading after a second start (C37).
    - Durability: an acknowledged record survives every crash (C7), the writer answers
      every append (C15) except in one race at its start (C38), and snapshots are saved
      atomically (C17).
    - Shard: the loop logs and answers what the reference semantics says, in order (C9),
      and its records fit the log (C21); [answered_commands_survive] of Shard is the
      statement of C2 for one shard.
    - Engine: with all its goroutines running in any interleaving, no answered command
      is lost by a crash, and recovery ends in a sequential history of the commands
      (C2); a snapshot taken from a held drain replaces the beginning of the logs without
      changing what recovery gives (C3); a barrier without an error means that everything
      before it is answered and durable (C4); after a shutdown without an error nothing
      is left unanswered, the logs hold exactly the sequenced commands, and the engine
      can be started again (C5).  Commands are numbered, routed and handled in order
      (C10), a new engine continues where recovery ended (C14); a cancelled shutdown
      cannot be repeated (C39).
    - Recovery: it rebuilds the live state (C8), returns on any bytes and, on logs with
      increasing numbers, succeeds exactly when every record after the snapshot replays
      with the recorded result (C16), and the stand-alone recovery agrees with it when
      the snapshot has all symbols (C36).  Records that are out of order are passed over
      unchecked ([reordered_records_are_skipped] of RecoveryProps).
    - Registry, metrics, load generator: routing partitions the symbols (C33), the
      statistics are those of the observations (C31, C32), the generated commands are
      valid and the report adds up, unless the rate is so high that no ticker can be made
      (C35).

    C2 to C5 compose what the others show of the parts: C14 gives the loop of C9 its
    increasing numbers and its books, C9 gives the writer of C7 its records, and C8 and
    C16 accept the log that C7 leaves.  C5 ends in the state in which C2 to C5 begin, so
    that they hold over any number of clean restarts.

    ** Fuel and bounds

    matchAgainst removes a resting order in every iteration but the last, so two more
    than the number of orders is enough; a level's queue is walked with as much fuel as
    there are orders; the binary search halves its interval and gets the length of
    the price slice; reading a segment consumes at least 28 bytes per record and gets
    the length of the file; completeAll gets the number of pending commands, of which
    every iteration removes one.  C1, C9, C11, C16, C25 and C34 prove these sufficient.
    The writer is followed up to segment 999999 of a shard: beyond it the names no
    longer sort by number.  A record is taken to have fewer than 2^56 events.

    ** Not modelled

    The JSON and gob encodings and the random number generator are parameters, with
    their documented laws as classes ([GobLaws], [RandLaws]) where a theorem needs
    them.  File names stand for paths; directories exist once made.  Of bytes that were
    not synced a crash leaves a beginning: damage of other kinds in the tail of a file,
    which some file systems allow, makes reading fail ([zero_tail_is_refused] of
    JournalProps) and is not part of the crash theorems.  Time is not
    modelled: an armed timer may fire and a context may end at any step, and measured
    durations are arguments.  A [select] is a choice between its ready cases.
    The ingress queue and the writer's queue have their capacities; the inboxes of the
    shards are unbounded, which only adds runs.
    What the commands print is the result of their definitions; the text itself, waiting
    for the signal, allocation failure and closing the segment file when the writer's
    goroutine ends are left out.  A failed loop and a crash end a run: C5 is about runs
    without an error, and C37 shows that after a crash that tears a segment the second
    start can fail, so no theorem promises more there. *)

(** ** Prelude: machine integers, the Go effect monad, shared lemmas *)

From stdpp Require Export prelude gmap strings sorting.
From Stdlib Require Export ZArith Lia.

#[global] Set Default Goal Selector "1".
Global Open Scope Z_scope.

(** ** Machine integers

    A Go integer of width [w] is a [Z] in the range of its type; arithmetic
    that can leave the range is written with the wrap-around of the type. *)

Definition MaxInt64 : Z := 9223372036854775807.
Definition MinInt64 : Z := -9223372036854775808.

Definition is_u8 (z : Z) : Prop := 0 <= z < 256.
Definition is_u16 (z : Z) : Prop := 0 <= z < 65536.
Definition is_u32 (z : Z) : Prop := 0 <= z < 4294967296.
Definition is_u64 (z : Z) : Prop := 0 <= z < 18446744073709551616.
Definition is_i64 (z : Z) : Prop := -9223372036854775808 <= z <= 9223372036854775807.

Definition wrap_u8 (z : Z) : Z := z mod 256.
Definition wrap_u16 (z : Z) : Z := z mod 65536.
Definition wrap_u32 (z : Z) : Z := z mod 4294967296.
Definition wrap_u64 (z : Z) : Z := z mod 18446744073709551616.
Definition wrap_i64 (z : Z) : Z :=
  (z + 9223372036854775808) mod 18446744073709551616 - 9223372036854775808.

Definition i64_add (a b : Z) : Z := wrap_i64 (a + b).
Definition i64_sub (a b : Z) : Z := wrap_i64 (a - b).
Definition u64_add (a b : Z) : Z := wrap_u64 (a + b).
Definition u64_shl (a n : Z) : Z := wrap_u64 (Z.shiftl a n).

(** [int_lia] unfolds the range predicates and the wrap-arounds, turns [mod]
    into linear equations and calls [lia]. *)
Ltac int_unfold :=
  unfold i64_add, i64_sub, u64_add, is_u8, is_u16, is_u32, is_u64, is_i64,
    wrap_u8, wrap_u16, wrap_u32, wrap_u64, wrap_i64, MaxInt64, MinInt64 in *.
Ltac int_lia := int_unfold; Z.div_mod_to_equations; lia.

(** Closes range goals on constants. *)
Ltac in_range := first [done | vm_compute; split; congruence].

Lemma wrap_i64_range z : is_i64 (wrap_i64 z).
Proof. int_lia. Qed.

Lemma wrap_i64_id z : is_i64 z -> wrap_i64 z = z.
Proof. int_lia. Qed.

Lemma wrap_u64_range z : is_u64 (wrap_u64 z).
Proof. int_lia. Qed.

Lemma wrap_u64_id z : is_u64 z -> wrap_u64 z = z.
Proof. int_lia. Qed.

Lemma i64_add_wrap a b : i64_add (wrap_i64 a) b = wrap_i64 (a + b).
Proof. int_lia. Qed.

Lemma i64_sub_wrap a b : i64_sub (wrap_i64 a) b = wrap_i64 (a - b).
Proof. int_lia. Qed.

Lemma i64_sub_id a b : is_i64 (a - b) -> i64_sub a b = a - b.
Proof. apply wrap_i64_id. Qed.

Lemma i64_add_id a b : is_i64 (a + b) -> i64_add a b = a + b.
Proof. apply wrap_i64_id. Qed.

(** ** The effect monad

    A Go function that reads and writes a state [S] returns a value and the new
    state, panics (nil dereference, index out of range), or, in the model only,
    runs out of the fuel a loop was given. *)

Inductive outcome (A : Type) : Type :=
| Ret (a : A)
| Panic
| OutOfFuel.
Arguments Ret {A} a.
Arguments Panic {A}.
Arguments OutOfFuel {A}.

(** [time.NewTicker] panics when the interval is not positive. *)
Definition NewTicker (d : Z) : outcome unit := if d <=? 0 then Panic else Ret tt.

Definition GoM (S A : Type) : Type := S -> outcome (A * S).

Definition ret {S A} (a : A) : GoM S A := fun s => Ret (a, s).
Definition panic {S A} : GoM S A := fun _ => Panic.
Definition out_of_fuel {S A} : GoM S A := fun _ => OutOfFuel.
Definition get {S} : GoM S S := fun s => Ret (s, s).
Definition put {S} (s : S) : GoM S unit := fun _ => Ret (tt, s).
Definition bind {S A B} (m : GoM S A) (k : A -> GoM S B) : GoM S B :=
  fun s => match m s with
           | Ret (a, s') => k a s'
           | Panic => Panic
           | OutOfFuel => OutOfFuel
           end.

Declare Scope go_scope.
Delimit Scope go_scope with go.
Notation "'let!' x := m 'in' k" := (bind m (fun x => k))
  (at level 10, x name, m at level 100, k at level 200) : go_scope.
Notation "'do!' m 'in' k" := (bind m (fun _ => k))
  (at level 10, m at level 100, k at level 200) : go_scope.
Open Scope go_scope.

Section Bind.
Context {S A B : Type}.
Implicit Types (m : GoM S A) (k : A -> GoM S B).

Lemma bind_Ret m k s a s' : m s = Ret (a, s') -> bind m k s = k a s'.
Proof. unfold bind. by intros ->. Qed.

Lemma bind_inv m k s r :
  bind m k s = Ret r -> exists a s', m s = Ret (a, s') /\ k a s' = Ret r.
Proof. unfold bind. destruct (m s) as [[a s']| |]; naive_solver. Qed.
End Bind.

(** The same without a state. *)
Definition obind {A B} (m : outcome A) (k : A -> outcome B) : outcome B :=
  match m with
  | Ret a => k a
  | Panic => Panic
  | OutOfFuel => OutOfFuel
  end.
Notation "'let?' x := m 'in' k" := (obind m (fun x => k))
  (at level 10, x name, m at level 100, k at level 200) : go_scope.

(** ** Errors

    An [error] value: the sentinels the code compares with, errors of the
    operating system, and errors made by
    [fmt.Errorf] with the arguments of the format; [Wrapf] is a format that ends
    in [%w]. *)
Inductive errarg : Type := ANum (n : Z) | AStr (s : string).

Inductive error : Type :=
| ErrEOF
| ErrUnexpectedEOF
| ErrNotExist
| ErrOS (op path : string)
| Errorf (format : string) (args : list errarg)
| Wrapf (format : string) (args : list errarg) (inner : error).

#[export] Instance errarg_eq_dec : EqDecision errarg.
Proof. solve_decision. Defined.
#[export] Instance error_eq_dec : EqDecision error.
Proof. solve_decision. Defined.

(** [errors.Is(err, target)] for a sentinel [target]. *)
Fixpoint errors_Is (e target : error) : bool :=
  bool_decide (e = target) ||
  match e with
  | Wrapf _ _ inner => errors_Is inner target
  | _ => false
  end.

(** A Go function that returns a value or an error, and may panic. *)
Abbreviation fallible A := (outcome (error + A)).

(** [go_step] runs the first command of a sequence of which the result is
    known, from a hypothesis or a lemma. *)
Tactic Notation "go_step" "by" tactic3(tac) :=
  erewrite bind_Ret; [|solve [tac]].
Ltac go_step := go_step by eauto.
