(* ===== verification/Model.v ===== *)
(** * Model: the command and event vocabulary (internal/model/types.go)

    The enumerations of the source are integer types ([Side], [CommandType],
    [OrderType], ... are [uint8], [RejectReason] is [uint16]), and values outside
    the named constants reach the code (a decoded WAL record, a caller of
    [Submit]); they are therefore integers here too, and [Command_Validate] is what
    separates the meaningful ones. *)

From S2P Require Import Prelude.

(** ** Enumerations *)

Definition SideBuy : Z := 1.
Definition SideSell : Z := 2.

Definition Side_String (s : Z) : string :=
  if s =? SideBuy then "BUY"
  else if s =? SideSell then "SELL"
  else "UNKNOWN".

Definition CommandNew : Z := 1.
Definition CommandCancel : Z := 2.
Definition CommandReplace : Z := 3.

Definition OrderTypeLimit : Z := 1.
Definition OrderTypeMarket : Z := 2.

Definition TIFGTC : Z := 1.
Definition TIFIOC : Z := 2.
Definition TIFFOK : Z := 3.

Definition RejectNone : Z := 0.
Definition RejectInvalidSymbol : Z := 1.
Definition RejectInvalidPrice : Z := 2.
Definition RejectInvalidQuantity : Z := 3.
Definition RejectDuplicateOrderID : Z := 4.
Definition RejectUnknownOrderID : Z := 5.
Definition RejectInvalidReplace : Z := 6.
Definition RejectWouldNotFullyFill : Z := 7.
Definition RejectInvalidOrderID : Z := 8.
Definition RejectInvalidSide : Z := 9.
Definition RejectInvalidOrderType : Z := 10.
Definition RejectInvalidTimeInForce : Z := 11.
Definition RejectInvalidCommandType : Z := 12.

Definition CancelByUser : Z := 1.
Definition CancelUnfilledRemainder : Z := 2.

Definition EventAccepted : Z := 1.
Definition EventRejected : Z := 2.
Definition EventTrade : Z := 3.
Definition EventOrderReduced : Z := 4.
Definition EventOrderRested : Z := 5.
Definition EventCanceled : Z := 6.
Definition EventReplaced : Z := 7.

(** ** Commands *)

Record Command := mkCommand {
  cmd_Seq : Z;
  cmd_Symbol : string;
  cmd_Type : Z;
  cmd_OrderID : Z;
  cmd_Side : Z;
  cmd_OrderType : Z;
  cmd_TimeInForce : Z;
  cmd_Price : Z;
  cmd_Quantity : Z;
  cmd_NewPrice : Z;
  cmd_NewLeavesQty : Z
}.

(** The integer fields hold values of their Go types. *)
Record command_typed (c : Command) : Prop := {
  ct_Seq : is_u64 (cmd_Seq c);
  ct_Type : is_u8 (cmd_Type c);
  ct_OrderID : is_u64 (cmd_OrderID c);
  ct_Side : is_u8 (cmd_Side c);
  ct_OrderType : is_u8 (cmd_OrderType c);
  ct_TimeInForce : is_u8 (cmd_TimeInForce c);
  ct_Price : is_i64 (cmd_Price c);
  ct_Quantity : is_i64 (cmd_Quantity c);
  ct_NewPrice : is_i64 (cmd_NewPrice c);
  ct_NewLeavesQty : is_i64 (cmd_NewLeavesQty c)
}.

Definition ValidationRejectReason (c : Command) : Z :=
  if String.eqb (cmd_Symbol c) "" then RejectInvalidSymbol
  else if cmd_Type c =? CommandNew then
    if cmd_OrderID c =? 0 then RejectInvalidOrderID
    else if negb (cmd_Side c =? SideBuy) && negb (cmd_Side c =? SideSell)
    then RejectInvalidSide
    else if negb (cmd_OrderType c =? OrderTypeLimit)
            && negb (cmd_OrderType c =? OrderTypeMarket)
    then RejectInvalidOrderType
    else if negb (cmd_TimeInForce c =? TIFGTC)
            && negb (cmd_TimeInForce c =? TIFIOC)
            && negb (cmd_TimeInForce c =? TIFFOK)
    then RejectInvalidTimeInForce
    else if cmd_Quantity c <=? 0 then RejectInvalidQuantity
    else if (cmd_OrderType c =? OrderTypeLimit) && (cmd_Price c <=? 0)
    then RejectInvalidPrice
    else RejectNone
  else if cmd_Type c =? CommandCancel then
    if cmd_OrderID c =? 0 then RejectInvalidOrderID
    else RejectNone
  else if cmd_Type c =? CommandReplace then
    if cmd_OrderID c =? 0 then RejectInvalidOrderID
    else if (cmd_NewLeavesQty c <=? 0) || (cmd_NewPrice c <? 0)
    then RejectInvalidReplace
    else RejectNone
  else RejectInvalidCommandType.

(** [None] is the nil error; [Some m] the error with message [m]. *)
Definition Command_Validate (c : Command) : option string :=
  if String.eqb (cmd_Symbol c) "" then Some "invalid symbol"
  else if cmd_Type c =? CommandNew then
    if cmd_OrderID c =? 0 then Some "order id is required"
    else if negb (cmd_Side c =? SideBuy) && negb (cmd_Side c =? SideSell)
    then Some "invalid side"
    else if negb (cmd_OrderType c =? OrderTypeLimit)
            && negb (cmd_OrderType c =? OrderTypeMarket)
    then Some "invalid order type"
    else if negb (cmd_TimeInForce c =? TIFGTC)
            && negb (cmd_TimeInForce c =? TIFIOC)
            && negb (cmd_TimeInForce c =? TIFFOK)
    then Some "invalid tif"
    else if cmd_Quantity c <=? 0 then Some "invalid quantity"
    else if (cmd_OrderType c =? OrderTypeLimit) && (cmd_Price c <=? 0)
    then Some "invalid price"
    else None
  else if cmd_Type c =? CommandCancel then
    if cmd_OrderID c =? 0 then Some "order id is required"
    else None
  else if cmd_Type c =? CommandReplace then
    if cmd_OrderID c =? 0 then Some "order id is required"
    else if cmd_NewLeavesQty c <=? 0 then Some "invalid replace quantity"
    else if cmd_NewPrice c <? 0 then Some "invalid replace price"
    else None
  else Some "invalid command type".

(** ** Events and results *)

Record Event := mkEvent {
  ev_Type : Z;
  ev_Reason : Z;
  ev_OrderID : Z;
  ev_MakerOrderID : Z;
  ev_TakerOrderID : Z;
  ev_TradeID : Z;
  ev_Price : Z;
  ev_Quantity : Z;
  ev_LeavesQty : Z;
  ev_CanceledQty : Z;
  ev_CancelReason : Z;
  ev_PriorityRetained : bool
}.

(** The composite literals of the source: fields left out are zero. *)
Definition ev_rejected (reason id : Z) : Event :=
  mkEvent EventRejected reason id 0 0 0 0 0 0 0 0 false.
Definition ev_accepted (id : Z) : Event :=
  mkEvent EventAccepted 0 id 0 0 0 0 0 0 0 0 false.
Definition ev_trade (tradeID maker taker price qty : Z) : Event :=
  mkEvent EventTrade 0 0 maker taker tradeID price qty 0 0 0 false.
Definition ev_reduced (id leaves : Z) : Event :=
  mkEvent EventOrderReduced 0 id 0 0 0 0 0 leaves 0 0 false.
Definition ev_rested (id price leaves : Z) : Event :=
  mkEvent EventOrderRested 0 id 0 0 0 price 0 leaves 0 0 false.
Definition ev_canceled (id qty reason : Z) : Event :=
  mkEvent EventCanceled 0 id 0 0 0 0 0 0 qty reason false.
Definition ev_replaced (id price leaves : Z) (retained : bool) : Event :=
  mkEvent EventReplaced 0 id 0 0 0 price 0 leaves 0 0 retained.

Record Result := mkResult {
  res_CommandSeq : Z;
  res_Events : list Event
}.

(** [result.Events = append(result.Events, e)]. *)
Definition emit (e : Event) (r : Result) : Result :=
  mkResult (res_CommandSeq r) (res_Events r ++ [e]).

#[export] Instance Event_eq_dec : EqDecision Event.
Proof. solve_decision. Defined.
#[export] Instance Result_eq_dec : EqDecision Result.
Proof. solve_decision. Defined.
#[export] Instance Command_eq_dec : EqDecision Command.
Proof. solve_decision. Defined.
