(* ===== verification/Book.v ===== *)
(** * Book: the order book as the code has it (internal/book/book.go)

    The book is modelled at the level of its pointers.  [*Order] and [*PriceLevel]
    values are locations of a heap, nil is [None], and every dereference goes
    through [load_order], [update_order], [load_level] or [update_level], which
    panic on nil.  Price levels are intrusive doubly linked queues of orders; a
    side keeps a map from price to level and the slice of its prices.  The two
    [*sideBook] values a book owns are named by a [sideRef]. *)

From S2P Require Import Prelude Model.

(** ** State *)

Abbreviation loc := positive (only parsing).
Abbreviation ptr := (option loc) (only parsing).

Record Order := mkOrder {
  ord_ID : Z;
  ord_Side : Z;
  ord_Price : Z;
  ord_LeavesQty : Z;
  ord_Seq : Z;
  ord_Prev : ptr;
  ord_Next : ptr;
  ord_Level : ptr
}.

Record PriceLevel := mkPriceLevel {
  lvl_Price : Z;
  lvl_TotalQty : Z;
  lvl_Head : ptr;
  lvl_Tail : ptr
}.

Record sideBook := mkSideBook {
  sb_levels : gmap Z loc;
  sb_prices : list Z;
  sb_isBid : bool
}.

Record Heap := mkHeap {
  h_orders : gmap loc Order;
  h_levels : gmap loc PriceLevel;
  h_next : loc
}.

Record Book := mkBook {
  bk_Symbol : string;
  bk_bids : sideBook;
  bk_asks : sideBook;
  bk_orders : gmap Z loc;
  bk_nextTradeSeq : Z;
  bk_heap : Heap
}.

Record OrderSnapshot := mkOrderSnapshot {
  os_ID : Z;
  os_Side : Z;
  os_Price : Z;
  os_LeavesQty : Z;
  os_Seq : Z
}.

Record PriceLevelSnapshot := mkPriceLevelSnapshot {
  pls_Price : Z;
  pls_Orders : list OrderSnapshot
}.

Record Snapshot := mkSnapshot {
  sn_Symbol : string;
  sn_NextTradeSeq : Z;
  sn_Bids : list PriceLevelSnapshot;
  sn_Asks : list PriceLevelSnapshot
}.

(** Field assignments. *)
Definition set_Prev (v : ptr) (o : Order) : Order :=
  mkOrder (ord_ID o) (ord_Side o) (ord_Price o) (ord_LeavesQty o) (ord_Seq o)
    v (ord_Next o) (ord_Level o).
Definition set_Next (v : ptr) (o : Order) : Order :=
  mkOrder (ord_ID o) (ord_Side o) (ord_Price o) (ord_LeavesQty o) (ord_Seq o)
    (ord_Prev o) v (ord_Level o).
Definition set_Level (v : ptr) (o : Order) : Order :=
  mkOrder (ord_ID o) (ord_Side o) (ord_Price o) (ord_LeavesQty o) (ord_Seq o)
    (ord_Prev o) (ord_Next o) v.
Definition set_LeavesQty (v : Z) (o : Order) : Order :=
  mkOrder (ord_ID o) (ord_Side o) (ord_Price o) v (ord_Seq o)
    (ord_Prev o) (ord_Next o) (ord_Level o).
Definition set_TotalQty (v : Z) (l : PriceLevel) : PriceLevel :=
  mkPriceLevel (lvl_Price l) v (lvl_Head l) (lvl_Tail l).
Definition set_Head (v : ptr) (l : PriceLevel) : PriceLevel :=
  mkPriceLevel (lvl_Price l) (lvl_TotalQty l) v (lvl_Tail l).
Definition set_Tail (v : ptr) (l : PriceLevel) : PriceLevel :=
  mkPriceLevel (lvl_Price l) (lvl_TotalQty l) (lvl_Head l) v.
Definition set_levels (v : gmap Z loc) (s : sideBook) : sideBook :=
  mkSideBook v (sb_prices s) (sb_isBid s).
Definition set_prices (v : list Z) (s : sideBook) : sideBook :=
  mkSideBook (sb_levels s) v (sb_isBid s).
Definition set_orders (v : gmap Z loc) (b : Book) : Book :=
  mkBook (bk_Symbol b) (bk_bids b) (bk_asks b) v (bk_nextTradeSeq b) (bk_heap b).
Definition set_nextTradeSeq (v : Z) (b : Book) : Book :=
  mkBook (bk_Symbol b) (bk_bids b) (bk_asks b) (bk_orders b) v (bk_heap b).
Definition set_heap (v : Heap) (b : Book) : Book :=
  mkBook (bk_Symbol b) (bk_bids b) (bk_asks b) (bk_orders b) (bk_nextTradeSeq b) v.

(** ** Memory *)

Abbreviation M := (GoM Book).

Definition lift {A} (o : outcome A) : M A :=
  fun b => match o with
           | Ret a => Ret (a, b)
           | Panic => Panic
           | OutOfFuel => OutOfFuel
           end.

Definition modify (f : Book -> Book) : M unit := fun b => Ret (tt, f b).

Definition load_order (p : ptr) : M Order :=
  fun b => match p with
           | Some l => match h_orders (bk_heap b) !! l with
                       | Some o => Ret (o, b)
                       | None => Panic
                       end
           | None => Panic
           end.

Definition load_level (p : ptr) : M PriceLevel :=
  fun b => match p with
           | Some l => match h_levels (bk_heap b) !! l with
                       | Some v => Ret (v, b)
                       | None => Panic
                       end
           | None => Panic
           end.

Definition heap_set_order (l : loc) (o : Order) (h : Heap) : Heap :=
  mkHeap (<[l := o]> (h_orders h)) (h_levels h) (h_next h).
Definition heap_set_level (l : loc) (v : PriceLevel) (h : Heap) : Heap :=
  mkHeap (h_orders h) (<[l := v]> (h_levels h)) (h_next h).

Definition update_order (p : ptr) (f : Order -> Order) : M unit :=
  fun b => match p with
           | Some l => match h_orders (bk_heap b) !! l with
                       | Some o => Ret (tt, set_heap (heap_set_order l (f o) (bk_heap b)) b)
                       | None => Panic
                       end
           | None => Panic
           end.

Definition update_level (p : ptr) (f : PriceLevel -> PriceLevel) : M unit :=
  fun b => match p with
           | Some l => match h_levels (bk_heap b) !! l with
                       | Some v => Ret (tt, set_heap (heap_set_level l (f v) (bk_heap b)) b)
                       | None => Panic
                       end
           | None => Panic
           end.

(** [&Order{...}] and [&PriceLevel{...}]. *)
Definition new_order (o : Order) : M ptr :=
  fun b => let h := bk_heap b in
           Ret (Some (h_next h),
                set_heap (mkHeap (<[h_next h := o]> (h_orders h)) (h_levels h)
                            (Pos.succ (h_next h))) b).
Definition new_level (v : PriceLevel) : M ptr :=
  fun b => let h := bk_heap b in
           Ret (Some (h_next h),
                set_heap (mkHeap (h_orders h) (<[h_next h := v]> (h_levels h))
                            (Pos.succ (h_next h))) b).

(** The side books a book owns. *)
Inductive sideRef : Type := refBids | refAsks.

Definition get_side (r : sideRef) (b : Book) : sideBook :=
  match r with refBids => bk_bids b | refAsks => bk_asks b end.
Definition put_side (r : sideRef) (s : sideBook) (b : Book) : Book :=
  match r with
  | refBids => mkBook (bk_Symbol b) s (bk_asks b) (bk_orders b) (bk_nextTradeSeq b) (bk_heap b)
  | refAsks => mkBook (bk_Symbol b) (bk_bids b) s (bk_orders b) (bk_nextTradeSeq b) (bk_heap b)
  end.
Definition load_side (r : sideRef) : M sideBook := fun b => Ret (get_side r b, b).
Definition update_side (r : sideRef) (f : sideBook -> sideBook) : M unit :=
  fun b => Ret (tt, put_side r (f (get_side r b)) b).

(** ** Slices *)

(** [copy(l[dst:], l[src:])]. *)
Definition slice_copy (l : list Z) (dst src : nat) : outcome (list Z) :=
  if (bool_decide (length l < dst)%nat || bool_decide (length l < src)%nat)%bool then Panic
  else let n := Nat.min (length l - dst) (length l - src) in
       Ret (take dst l ++ take n (drop src l) ++ drop (dst + n) l).

(** [l[i] = v]. *)
Definition slice_set (l : list Z) (i : nat) (v : Z) : outcome (list Z) :=
  if bool_decide (i < length l)%nat then Ret (<[i := v]> l) else Panic.

(** ** sideBook *)

Definition newSideBook (isBid : bool) : sideBook := mkSideBook ∅ [] isBid.

Definition best (r : sideRef) : M ptr :=
  let! s := load_side r in
  match sb_prices s with
  | [] => ret None
  | price :: _ => ret (sb_levels s !! price)
  end.

Fixpoint findInsertIndex_loop (fuel : nat) (s : sideBook) (price : Z) (left right : nat)
  : outcome nat :=
  match fuel with
  | O => OutOfFuel
  | S fuel' =>
      if (left <? right)%nat then
        let mid := (left + (right - left) / 2)%nat in
        match sb_prices s !! mid with
        | None => Panic
        | Some p =>
            if sb_isBid s then
              if p >? price then findInsertIndex_loop fuel' s price (mid + 1) right
              else findInsertIndex_loop fuel' s price left mid
            else
              if p <? price then findInsertIndex_loop fuel' s price (mid + 1) right
              else findInsertIndex_loop fuel' s price left mid
        end
      else Ret left
  end.

Definition findInsertIndex (s : sideBook) (price : Z) : outcome nat :=
  findInsertIndex_loop (S (length (sb_prices s))) s price 0 (length (sb_prices s)).

Definition findPriceIndex (s : sideBook) (price : Z) : outcome Z :=
  match findInsertIndex s price with
  | Ret idx =>
      if (length (sb_prices s) <=? idx)%nat then Ret (-1)
      else match sb_prices s !! idx with
           | Some p => if negb (p =? price) then Ret (-1) else Ret (Z.of_nat idx)
           | None => Panic
           end
  | Panic => Panic
  | OutOfFuel => OutOfFuel
  end.

Definition getOrCreateLevel (r : sideRef) (price : Z) : M ptr :=
  let! s := load_side r in
  match sb_levels s !! price with
  | Some level => ret (Some level)
  | None =>
      let! level := new_level (mkPriceLevel price 0 None None) in
      do! update_side r (fun s =>
            match level with
            | Some l => set_levels (<[price := l]> (sb_levels s)) s
            | None => s
            end) in
      let! s := load_side r in
      let! idx := lift (findInsertIndex s price) in
      do! update_side r (fun s => set_prices (sb_prices s ++ [0]) s) in
      let! s := load_side r in
      let! moved := lift (slice_copy (sb_prices s) (idx + 1) idx) in
      do! update_side r (set_prices moved) in
      let! s := load_side r in
      let! stored := lift (slice_set (sb_prices s) idx price) in
      do! update_side r (set_prices stored) in
      ret level
  end.

Definition removeLevelIfEmpty (r : sideRef) (level : ptr) : M unit :=
  match level with
  | None => ret tt
  | Some _ =>
      let! lv := load_level level in
      match lvl_Head lv with
      | Some _ => ret tt
      | None =>
          do! update_side r (fun s => set_levels (delete (lvl_Price lv) (sb_levels s)) s) in
          let! s := load_side r in
          let! idx := lift (findPriceIndex s (lvl_Price lv)) in
          if 0 <=? idx then
            update_side r (fun s =>
              set_prices (take (Z.to_nat idx) (sb_prices s)
                          ++ drop (Z.to_nat idx + 1) (sb_prices s)) s)
          else ret tt
      end
  end.

(** ** PriceLevel *)

Definition PriceLevel_append (l order : ptr) : M unit :=
  let! lv := load_level l in
  do! update_order order (set_Prev (lvl_Tail lv)) in
  do! update_order order (set_Next None) in
  do! update_order order (set_Level l) in
  do! (match lvl_Tail lv with
       | Some t => update_order (Some t) (set_Next order)
       | None => update_level l (set_Head order)
       end) in
  do! update_level l (set_Tail order) in
  let! o := load_order order in
  update_level l (fun lv => set_TotalQty (i64_add (lvl_TotalQty lv) (ord_LeavesQty o)) lv).

Definition PriceLevel_remove (l order : ptr) : M unit :=
  let! o := load_order order in
  do! (match ord_Prev o with
       | Some p => update_order (Some p) (set_Next (ord_Next o))
       | None => update_level l (set_Head (ord_Next o))
       end) in
  let! o := load_order order in
  do! (match ord_Next o with
       | Some n => update_order (Some n) (set_Prev (ord_Prev o))
       | None => update_level l (set_Tail (ord_Prev o))
       end) in
  let! o := load_order order in
  do! update_level l (fun lv =>
        set_TotalQty (i64_sub (lvl_TotalQty lv) (ord_LeavesQty o)) lv) in
  do! update_order order (set_Prev None) in
  do! update_order order (set_Next None) in
  update_order order (set_Level None).

(** ** Book *)

Definition Book_New (symbol : string) : Book :=
  mkBook symbol (newSideBook true) (newSideBook false) ∅ 1 (mkHeap ∅ ∅ 1%positive).

Definition side_of (side : Z) : sideRef := if side =? SideSell then refAsks else refBids.

Definition rest (order : ptr) : M unit :=
  let! o := load_order order in
  let bookSide := side_of (ord_Side o) in
  let! level := getOrCreateLevel bookSide (ord_Price o) in
  do! PriceLevel_append level order in
  let! o := load_order order in
  modify (fun b =>
    match order with
    | Some l => set_orders (<[ord_ID o := l]> (bk_orders b)) b
    | None => b
    end).

Definition min64 (a b : Z) : Z := if a <? b then a else b.

Definition nextTradeID (commandSeq : Z) : M Z :=
  fun b =>
    let id := Z.lor (u64_shl commandSeq 20)
                (Z.land (bk_nextTradeSeq b) (Z.shiftl 1 20 - 1)) in
    Ret (id, set_nextTradeSeq (u64_add (bk_nextTradeSeq b) 1) b).

Definition removeActive (order : ptr) : M unit :=
  let! o := load_order order in
  match ord_Level o with
  | None => ret tt
  | Some _ =>
      let level := ord_Level o in
      let bookSide := side_of (ord_Side o) in
      do! PriceLevel_remove level order in
      do! removeLevelIfEmpty bookSide level in
      let! o := load_order order in
      modify (fun b => set_orders (delete (ord_ID o) (bk_orders b)) b)
  end.

(** One unrolling per iteration of the loop of [matchAgainst]. *)
Fixpoint matchAgainst_loop (fuel : nat) (incoming : ptr) (opposite : sideRef)
  (priceAllowed : Z -> M bool) (result : Result) : M Result :=
  match fuel with
  | O => out_of_fuel
  | S fuel' =>
      let! inc := load_order incoming in
      if 0 <? ord_LeavesQty inc then
        let! bst := best opposite in
        match bst with
        | None => ret result
        | Some _ =>
            let! lv := load_level bst in
            let! ok := priceAllowed (lvl_Price lv) in
            if negb ok then ret result
            else
              let resting := lvl_Head lv in
              let! inc := load_order incoming in
              let! r := load_order resting in
              let tradeQty := min64 (ord_LeavesQty inc) (ord_LeavesQty r) in
              do! update_order incoming (fun o =>
                    set_LeavesQty (i64_sub (ord_LeavesQty o) tradeQty) o) in
              do! update_order resting (fun o =>
                    set_LeavesQty (i64_sub (ord_LeavesQty o) tradeQty) o) in
              let! r := load_order resting in
              do! update_level (ord_Level r) (fun l =>
                    set_TotalQty (i64_sub (lvl_TotalQty l) tradeQty) l) in
              let! tradeID := nextTradeID (res_CommandSeq result) in
              let! r := load_order resting in
              let! inc := load_order incoming in
              let result := emit (ev_trade tradeID (ord_ID r) (ord_ID inc)
                                    (ord_Price r) tradeQty) result in
              if ord_LeavesQty r =? 0 then
                do! removeActive resting in
                matchAgainst_loop fuel' incoming opposite priceAllowed result
              else
                matchAgainst_loop fuel' incoming opposite priceAllowed
                  (emit (ev_reduced (ord_ID r) (ord_LeavesQty r)) result)
        end
      else ret result
  end.

(** Every iteration but the last two removes an active order, so two more than
    their number is enough fuel. *)
Definition matchAgainst (incoming : ptr) (opposite : sideRef) (priceAllowed : Z -> M bool)
  (result : Result) : M Result :=
  let! b := get in
  matchAgainst_loop (S (S (size (bk_orders b)))) incoming opposite priceAllowed result.

Definition Book_match (incoming : ptr) (result : Result) : M Result :=
  let! o := load_order incoming in
  if ord_Side o =? SideBuy then
    matchAgainst incoming refAsks (fun bestPrice =>
      let! o := load_order incoming in
      if ord_Price o =? 0 then ret true else ret (bestPrice <=? ord_Price o)) result
  else
    matchAgainst incoming refBids (fun bestPrice =>
      let! o := load_order incoming in
      if ord_Price o =? 0 then ret true else ret (bestPrice >=? ord_Price o)) result.

Fixpoint availableQty_loop (levels : gmap Z loc) (canTake : Z -> bool) (requiredQty : Z)
  (prices : list Z) (total : Z) : M Z :=
  match prices with
  | [] => ret total
  | price :: prices' =>
      if negb (canTake price) then ret total
      else
        let! lv := load_level (levels !! price) in
        let levelQty := lvl_TotalQty lv in
        if levelQty >=? i64_sub requiredQty total then ret requiredQty
        else availableQty_loop levels canTake requiredQty prices' (i64_add total levelQty)
  end.

Definition availableQtyFor (side limitPrice orderType requiredQty : Z) : M Z :=
  if side =? SideBuy then
    let! opposite := load_side refAsks in
    availableQty_loop (sb_levels opposite)
      (fun price => if orderType =? OrderTypeMarket then true else price <=? limitPrice)
      requiredQty (sb_prices opposite) 0
  else
    let! opposite := load_side refBids in
    availableQty_loop (sb_levels opposite)
      (fun price => if orderType =? OrderTypeMarket then true else price >=? limitPrice)
      requiredQty (sb_prices opposite) 0.

Definition handleNew (cmd : Command) (result : Result) : M Result :=
  let! b := get in
  match bk_orders b !! cmd_OrderID cmd with
  | Some _ => ret (emit (ev_rejected RejectDuplicateOrderID (cmd_OrderID cmd)) result)
  | None =>
      let! wouldNotFill :=
        (if cmd_TimeInForce cmd =? TIFFOK then
           let! avail := availableQtyFor (cmd_Side cmd) (cmd_Price cmd)
                           (cmd_OrderType cmd) (cmd_Quantity cmd) in
           ret (avail <? cmd_Quantity cmd)
         else ret false) in
      if wouldNotFill then
        ret (emit (ev_rejected RejectWouldNotFullyFill (cmd_OrderID cmd)) result)
      else
        let result := emit (ev_accepted (cmd_OrderID cmd)) result in
        let! order := new_order (mkOrder (cmd_OrderID cmd) (cmd_Side cmd) (cmd_Price cmd)
                                   (cmd_Quantity cmd) (cmd_Seq cmd) None None None) in
        let! result := Book_match order result in
        let! o := load_order order in
        if ord_LeavesQty o =? 0 then ret result
        else if cmd_OrderType cmd =? OrderTypeMarket then
          ret (emit (ev_canceled (ord_ID o) (ord_LeavesQty o) CancelUnfilledRemainder) result)
        else if cmd_TimeInForce cmd =? TIFIOC then
          ret (emit (ev_canceled (ord_ID o) (ord_LeavesQty o) CancelUnfilledRemainder) result)
        else
          do! rest order in
          let! o := load_order order in
          ret (emit (ev_rested (ord_ID o) (ord_Price o) (ord_LeavesQty o)) result)
  end.

Definition handleCancel (cmd : Command) (result : Result) : M Result :=
  let! b := get in
  match bk_orders b !! cmd_OrderID cmd with
  | None => ret (emit (ev_rejected RejectUnknownOrderID (cmd_OrderID cmd)) result)
  | Some order =>
      let result := emit (ev_accepted (cmd_OrderID cmd)) result in
      let! o := load_order (Some order) in
      let canceled := ord_LeavesQty o in
      do! removeActive (Some order) in
      ret (emit (ev_canceled (cmd_OrderID cmd) canceled CancelByUser) result)
  end.

Definition handleReplace (cmd : Command) (result : Result) : M Result :=
  let! b := get in
  match bk_orders b !! cmd_OrderID cmd with
  | None => ret (emit (ev_rejected RejectUnknownOrderID (cmd_OrderID cmd)) result)
  | Some order =>
      let! o := load_order (Some order) in
      let newPrice := if cmd_NewPrice cmd >? 0 then cmd_NewPrice cmd else ord_Price o in
      if newPrice <=? 0 then
        ret (emit (ev_rejected RejectInvalidReplace (cmd_OrderID cmd)) result)
      else
        let newLeaves := cmd_NewLeavesQty cmd in
        if newLeaves <=? 0 then
          ret (emit (ev_rejected RejectInvalidReplace (cmd_OrderID cmd)) result)
        else
          let result := emit (ev_accepted (cmd_OrderID cmd)) result in
          let retainPriority :=
            (newPrice =? ord_Price o) && (newLeaves <=? ord_LeavesQty o) in
          if retainPriority then
            let reduced := i64_sub (ord_LeavesQty o) newLeaves in
            do! update_level (ord_Level o) (fun l =>
                  set_TotalQty (i64_sub (lvl_TotalQty l) reduced) l) in
            do! update_order (Some order) (set_LeavesQty newLeaves) in
            let! o := load_order (Some order) in
            let result :=
              if reduced >? 0 then emit (ev_reduced (ord_ID o) (ord_LeavesQty o)) result
              else result in
            ret (emit (ev_replaced (ord_ID o) (ord_Price o) (ord_LeavesQty o) true) result)
          else
            let side := ord_Side o in
            do! removeActive (Some order) in
            let! replaced := new_order (mkOrder (cmd_OrderID cmd) side newPrice newLeaves
                                          (cmd_Seq cmd) None None None) in
            let! result := Book_match replaced result in
            let! ro := load_order replaced in
            let! result :=
              (if 0 <? ord_LeavesQty ro then
                 do! rest replaced in
                 let! ro := load_order replaced in
                 ret (emit (ev_rested (ord_ID ro) (ord_Price ro) (ord_LeavesQty ro)) result)
               else ret result) in
            let! ro := load_order replaced in
            ret (emit (ev_replaced (cmd_OrderID cmd) newPrice (ord_LeavesQty ro) false) result)
  end.

Definition Apply (cmd : Command) : M Result :=
  let! b := get in
  let result := mkResult (cmd_Seq cmd) [] in
  if negb (String.eqb (cmd_Symbol cmd) (bk_Symbol b)) then
    ret (emit (ev_rejected RejectInvalidSymbol (cmd_OrderID cmd)) result)
  else
    match Command_Validate cmd with
    | Some _ => ret (emit (ev_rejected (ValidationRejectReason cmd) (cmd_OrderID cmd)) result)
    | None =>
        if cmd_Type cmd =? CommandNew then handleNew cmd result
        else if cmd_Type cmd =? CommandCancel then handleCancel cmd result
        else if cmd_Type cmd =? CommandReplace then handleReplace cmd result
        else ret result
    end.

(** ** CheckInvariants *)

(** [None] is "no error so far", as in the source's early returns. *)
Definition check_then (m k : M (option string)) : M (option string) :=
  let! e := m in
  match e with
  | Some _ => ret e
  | None => k
  end.

Fixpoint check_sorted (isBid : bool) (prices : list Z) : option string :=
  match prices with
  | p0 :: ((p1 :: _) as rest) =>
      if isBid && (p1 >? p0) then Some "bids are not sorted"%string
      else if negb isBid && (p1 <? p0) then Some "asks are not sorted"%string
      else check_sorted isBid rest
  | _ => None
  end.

(** The walk over the queue of a level: the error, or the sum of the quantities. *)
Fixpoint check_queue (fuel : nat) (level : ptr) (o : ptr) (qty : Z) : M (string + Z) :=
  match o with
  | None => ret (inr qty)
  | Some _ =>
      match fuel with
      | O => out_of_fuel
      | S fuel' =>
          let! ord := load_order o in
          if negb (bool_decide (ord_Level ord = level)) then
            ret (inl "order-level backref mismatch"%string)
          else if ord_LeavesQty ord <=? 0 then ret (inl "non-positive leaves"%string)
          else check_queue fuel' level (ord_Next ord) (i64_add qty (ord_LeavesQty ord))
      end
  end.

(** No queue is longer than the number of orders ever allocated. *)
Definition queue_fuel (b : Book) : nat := size (h_orders (bk_heap b)).

Definition check_level (s : sideBook) (price : Z) : M (option string) :=
  let level := sb_levels s !! price in
  match level with
  | None => ret (Some "missing level"%string)
  | Some _ =>
      let! lv := load_level level in
      match lvl_Head lv, lvl_Tail lv with
      | Some _, Some _ =>
          let! b := get in
          let! q := check_queue (queue_fuel b) level (lvl_Head lv) 0 in
          match q with
          | inl e => ret (Some e)
          | inr qty =>
              if negb (qty =? lvl_TotalQty lv) then ret (Some "total qty mismatch"%string)
              else ret None
          end
      | _, _ => ret (Some "empty level in index"%string)
      end
  end.

Fixpoint check_levels (s : sideBook) (prices : list Z) : M (option string) :=
  match prices with
  | [] => ret None
  | price :: prices' => check_then (check_level s price) (check_levels s prices')
  end.

Definition check_side (r : sideRef) : M (option string) :=
  let! s := load_side r in
  check_then (ret (check_sorted (sb_isBid s) (sb_prices s)))
    (check_levels s (sb_prices s)).

Definition CheckInvariants : M (option string) :=
  check_then (check_side refBids)
    (check_then (check_side refAsks)
      (let! bb := best refBids in
       let! ba := best refAsks in
       match bb, ba with
       | Some _, Some _ =>
           let! lb := load_level bb in
           let! la := load_level ba in
           if lvl_Price lb >=? lvl_Price la then ret (Some "crossed book detected"%string)
           else ret None
       | _, _ => ret None
       end)).

(** ** Snapshots *)

Fixpoint snapshot_queue (fuel : nat) (o : ptr) : M (list OrderSnapshot) :=
  match o with
  | None => ret []
  | Some _ =>
      match fuel with
      | O => out_of_fuel
      | S fuel' =>
          let! ord := load_order o in
          let! orders := snapshot_queue fuel' (ord_Next ord) in
          ret (mkOrderSnapshot (ord_ID ord) (ord_Side ord) (ord_Price ord)
                 (ord_LeavesQty ord) (ord_Seq ord) :: orders)
      end
  end.

Fixpoint snapshot_levels (s : sideBook) (prices : list Z) : M (list PriceLevelSnapshot) :=
  match prices with
  | [] => ret []
  | price :: prices' =>
      let! level := load_level (sb_levels s !! price) in
      let! b := get in
      let! orders := snapshot_queue (queue_fuel b) (lvl_Head level) in
      let! out := snapshot_levels s prices' in
      ret (mkPriceLevelSnapshot price orders :: out)
  end.

Definition snapshotSide (r : sideRef) : M (list PriceLevelSnapshot) :=
  let! s := load_side r in
  snapshot_levels s (sb_prices s).

Definition Book_Snapshot : M Snapshot :=
  let! b := get in
  let! bs := snapshotSide refBids in
  let! sa := snapshotSide refAsks in
  ret (mkSnapshot (bk_Symbol b) (bk_nextTradeSeq b) bs sa).

Fixpoint restoreOrders (orders : list OrderSnapshot) : M unit :=
  match orders with
  | [] => ret tt
  | ord :: orders' =>
      let! order := new_order (mkOrder (os_ID ord) (os_Side ord) (os_Price ord)
                                 (os_LeavesQty ord) (os_Seq ord) None None None) in
      do! rest order in
      restoreOrders orders'
  end.

Fixpoint restoreSide (levels : list PriceLevelSnapshot) : M unit :=
  match levels with
  | [] => ret tt
  | lvl :: levels' =>
      do! restoreOrders (pls_Orders lvl) in
      restoreSide levels'
  end.

Definition NewFromSnapshot (s : Snapshot) : outcome Book :=
  let b := set_nextTradeSeq (sn_NextTradeSeq s) (Book_New (sn_Symbol s)) in
  match bind (restoreSide (sn_Bids s)) (fun _ => restoreSide (sn_Asks s)) b with
  | Ret (_, b') => Ret b'
  | Panic => Panic
  | OutOfFuel => OutOfFuel
  end.
