(* ===== verification/BookSpec.v ===== *)
(** * BookSpec: what an order book promises, on plain lists

    The abstract state of a book is the code's own [Snapshot]: for each side the
    price levels from best to worst, for each level its orders in time priority.
    This file gives the reference meaning of every command on that state as pure
    functions ([spec_Apply]), the well-formedness of a book ([book_ok]) and the
    proof that every command preserves it.  [BookRefine] shows that the
    pointer-level code of [Book] computes exactly these functions. *)

From S2P Require Import Prelude Model Book.

(** ** Reference operations *)

(** Strictly better price: higher on the bid side, lower on the ask side. *)
Definition betterb (isBid : bool) (p q : Z) : bool := if isBid then q <? p else p <? q.
Abbreviation better isBid p q := (betterb isBid p q = true).

(** All orders of a side, best first, in time priority. *)
Definition all_orders (ls : list PriceLevelSnapshot) : list OrderSnapshot :=
  concat (map pls_Orders ls).

Definition with_leaves (q : Z) (o : OrderSnapshot) : OrderSnapshot :=
  mkOrderSnapshot (os_ID o) (os_Side o) (os_Price o) q (os_Seq o).

(** Rest an order: at the tail of its price level, which is created if needed. *)
Fixpoint level_insert (isBid : bool) (o : OrderSnapshot) (ls : list PriceLevelSnapshot)
  : list PriceLevelSnapshot :=
  match ls with
  | [] => [mkPriceLevelSnapshot (os_Price o) [o]]
  | l :: ls' =>
      if pls_Price l =? os_Price o
      then mkPriceLevelSnapshot (pls_Price l) (pls_Orders l ++ [o]) :: ls'
      else if betterb isBid (os_Price o) (pls_Price l)
      then mkPriceLevelSnapshot (os_Price o) [o] :: l :: ls'
      else l :: level_insert isBid o ls'
  end.

(** Put an order queue back at a price: an empty queue is no level. *)
Definition cons_level (p : Z) (os : list OrderSnapshot) (ls : list PriceLevelSnapshot)
  : list PriceLevelSnapshot :=
  match os with
  | [] => ls
  | _ => mkPriceLevelSnapshot p os :: ls
  end.

Definition drop_order (id : Z) (os : list OrderSnapshot) : list OrderSnapshot :=
  filter (fun o => os_ID o <> id) os.

(** Remove an order by ID; its level goes when it was the last one. *)
Definition level_remove (id : Z) (ls : list PriceLevelSnapshot) : list PriceLevelSnapshot :=
  foldr (fun l acc => cons_level (pls_Price l) (drop_order id (pls_Orders l)) acc) [] ls.

(** Change the open quantity of an order in place. *)
Definition reduce_order (id q : Z) (o : OrderSnapshot) : OrderSnapshot :=
  if os_ID o =? id then with_leaves q o else o.
Definition level_reduce (id q : Z) (ls : list PriceLevelSnapshot) : list PriceLevelSnapshot :=
  map (fun l => mkPriceLevelSnapshot (pls_Price l) (map (reduce_order id q) (pls_Orders l))) ls.

Definition find_order (id : Z) (os : list OrderSnapshot) : option OrderSnapshot :=
  List.find (fun o => os_ID o =? id) os.

Definition book_orders (s : Snapshot) : list OrderSnapshot :=
  all_orders (sn_Bids s) ++ all_orders (sn_Asks s).

(** A fill: the maker as it was before the trade, and the traded quantity. *)
Abbreviation fill := (OrderSnapshot * Z)%type.

(** Consume a queue from its head. *)
Fixpoint take_orders (qty : Z) (os : list OrderSnapshot)
  : list fill * Z * list OrderSnapshot :=
  match os with
  | [] => ([], qty, [])
  | o :: os' =>
      if qty <=? 0 then ([], qty, os)
      else if os_LeavesQty o <=? qty then
        let '(fs, q, r) := take_orders (qty - os_LeavesQty o) os' in
        ((o, os_LeavesQty o) :: fs, q, r)
      else ([(o, qty)], 0, with_leaves (os_LeavesQty o - qty) o :: os')
  end.

(** Consume a side from its best level while the price is allowed. *)
Fixpoint take_levels (allowed : Z -> bool) (qty : Z) (ls : list PriceLevelSnapshot)
  : list fill * Z * list PriceLevelSnapshot :=
  match ls with
  | [] => ([], qty, [])
  | l :: ls' =>
      if (qty <=? 0) || negb (allowed (pls_Price l)) then ([], qty, ls)
      else
        let '(fs, q, os) := take_orders qty (pls_Orders l) in
        match os with
        | [] => let '(fs', q', r) := take_levels allowed q ls' in (fs ++ fs', q', r)
        | _ => (fs, q, mkPriceLevelSnapshot (pls_Price l) os :: ls')
        end
  end.

(** The price test of [match]: price 0 takes any price. *)
Definition price_ok (side limit p : Z) : bool :=
  if limit =? 0 then true
  else if side =? SideBuy then p <=? limit else p >=? limit.

Definition trade_id (seq nts : Z) : Z :=
  Z.lor (u64_shl seq 20) (Z.land nts (Z.shiftl 1 20 - 1)).

Fixpoint fill_events (seq taker nts : Z) (fs : list fill) : list Event :=
  match fs with
  | [] => []
  | (o, q) :: fs' =>
      ev_trade (trade_id seq nts) (os_ID o) taker (os_Price o) q
      :: (if os_LeavesQty o - q =? 0 then []
          else [ev_reduced (os_ID o) (os_LeavesQty o - q)])
      ++ fill_events seq taker (u64_add nts 1) fs'
  end.

Definition set_sides (bids asks : list PriceLevelSnapshot) (s : Snapshot) : Snapshot :=
  mkSnapshot (sn_Symbol s) (sn_NextTradeSeq s) bids asks.

(** Match an incoming order: its fills, what is left of it, the book after. *)
Definition spec_match (seq id side limit qty : Z) (s : Snapshot)
  : list Event * Z * Snapshot :=
  let nts := sn_NextTradeSeq s in
  if side =? SideBuy then
    let '(fs, q, asks) := take_levels (price_ok side limit) qty (sn_Asks s) in
    (fill_events seq id nts fs, q,
     mkSnapshot (sn_Symbol s) (wrap_u64 (nts + Z.of_nat (length fs))) (sn_Bids s) asks)
  else
    let '(fs, q, bids) := take_levels (price_ok side limit) qty (sn_Bids s) in
    (fill_events seq id nts fs, q,
     mkSnapshot (sn_Symbol s) (wrap_u64 (nts + Z.of_nat (length fs))) bids (sn_Asks s)).

Definition spec_rest (o : OrderSnapshot) (s : Snapshot) : Snapshot :=
  if os_Side o =? SideSell
  then set_sides (sn_Bids s) (level_insert false o (sn_Asks s)) s
  else set_sides (level_insert true o (sn_Bids s)) (sn_Asks s) s.

Definition spec_remove (id : Z) (s : Snapshot) : Snapshot :=
  set_sides (level_remove id (sn_Bids s)) (level_remove id (sn_Asks s)) s.

Definition spec_reduce (id q : Z) (s : Snapshot) : Snapshot :=
  set_sides (level_reduce id q (sn_Bids s)) (level_reduce id q (sn_Asks s)) s.

(** The quantity of a level, as the 64-bit counter [TotalQty] holds it. *)
Definition leaves_sum (os : list OrderSnapshot) : Z :=
  foldr (fun o acc => os_LeavesQty o + acc) 0 os.
Definition level_qty (l : PriceLevelSnapshot) : Z := wrap_i64 (leaves_sum (pls_Orders l)).

Fixpoint spec_available_loop (canTake : Z -> bool) (required : Z)
  (ls : list PriceLevelSnapshot) (total : Z) : Z :=
  match ls with
  | [] => total
  | l :: ls' =>
      if negb (canTake (pls_Price l)) then total
      else if level_qty l >=? i64_sub required total then required
      else spec_available_loop canTake required ls' (i64_add total (level_qty l))
  end.

Definition can_take (side orderType limit p : Z) : bool :=
  if orderType =? OrderTypeMarket then true
  else if side =? SideBuy then p <=? limit else p >=? limit.

Definition opposite (side : Z) (s : Snapshot) : list PriceLevelSnapshot :=
  if side =? SideBuy then sn_Asks s else sn_Bids s.

Definition spec_available (side limit orderType required : Z) (s : Snapshot) : Z :=
  spec_available_loop (can_take side orderType limit) required (opposite side s) 0.

Definition spec_New (cmd : Command) (s : Snapshot) : list Event * Snapshot :=
  let id := cmd_OrderID cmd in
  match find_order id (book_orders s) with
  | Some _ => ([ev_rejected RejectDuplicateOrderID id], s)
  | None =>
      if (cmd_TimeInForce cmd =? TIFFOK)
         && (spec_available (cmd_Side cmd) (cmd_Price cmd) (cmd_OrderType cmd)
               (cmd_Quantity cmd) s <? cmd_Quantity cmd)
      then ([ev_rejected RejectWouldNotFullyFill id], s)
      else
        let '(evs, rem, s') :=
          spec_match (cmd_Seq cmd) id (cmd_Side cmd) (cmd_Price cmd) (cmd_Quantity cmd) s in
        if rem =? 0 then (ev_accepted id :: evs, s')
        else if (cmd_OrderType cmd =? OrderTypeMarket) || (cmd_TimeInForce cmd =? TIFIOC)
        then (ev_accepted id :: evs ++ [ev_canceled id rem CancelUnfilledRemainder], s')
        else
          (ev_accepted id :: evs ++ [ev_rested id (cmd_Price cmd) rem],
           spec_rest (mkOrderSnapshot id (cmd_Side cmd) (cmd_Price cmd) rem (cmd_Seq cmd)) s')
  end.

Definition spec_Cancel (cmd : Command) (s : Snapshot) : list Event * Snapshot :=
  let id := cmd_OrderID cmd in
  match find_order id (book_orders s) with
  | None => ([ev_rejected RejectUnknownOrderID id], s)
  | Some o =>
      ([ev_accepted id; ev_canceled id (os_LeavesQty o) CancelByUser], spec_remove id s)
  end.

Definition spec_Replace (cmd : Command) (s : Snapshot) : list Event * Snapshot :=
  let id := cmd_OrderID cmd in
  match find_order id (book_orders s) with
  | None => ([ev_rejected RejectUnknownOrderID id], s)
  | Some o =>
      let price := if cmd_NewPrice cmd >? 0 then cmd_NewPrice cmd else os_Price o in
      let qty := cmd_NewLeavesQty cmd in
      if (price =? os_Price o) && (qty <=? os_LeavesQty o) then
        (ev_accepted id
         :: (if os_LeavesQty o - qty >? 0 then [ev_reduced id qty] else [])
         ++ [ev_replaced id price qty true],
         spec_reduce id qty s)
      else
        let '(evs, rem, s') :=
          spec_match (cmd_Seq cmd) id (os_Side o) price qty (spec_remove id s) in
        if 0 <? rem then
          (ev_accepted id :: evs ++ [ev_rested id price rem; ev_replaced id price rem false],
           spec_rest (mkOrderSnapshot id (os_Side o) price rem (cmd_Seq cmd)) s')
        else (ev_accepted id :: evs ++ [ev_replaced id price rem false], s')
  end.

Definition spec_events (cmd : Command) (s : Snapshot) : list Event * Snapshot :=
  let id := cmd_OrderID cmd in
  if negb (String.eqb (cmd_Symbol cmd) (sn_Symbol s))
  then ([ev_rejected RejectInvalidSymbol id], s)
  else match Command_Validate cmd with
       | Some _ => ([ev_rejected (ValidationRejectReason cmd) id], s)
       | None =>
           if cmd_Type cmd =? CommandNew then spec_New cmd s
           else if cmd_Type cmd =? CommandCancel then spec_Cancel cmd s
           else spec_Replace cmd s
       end.

Definition spec_Apply (cmd : Command) (s : Snapshot) : Result * Snapshot :=
  let '(evs, s') := spec_events cmd s in (mkResult (cmd_Seq cmd) evs, s').

(** ** Well-formed books *)

Record order_ok (isBid : bool) (o : OrderSnapshot) : Prop := {
  oo_side : os_Side o = if isBid then SideBuy else SideSell;
  oo_price : 0 < os_Price o <= MaxInt64;
  oo_leaves : 0 < os_LeavesQty o <= MaxInt64;
  oo_id : is_u64 (os_ID o);
  oo_seq : is_u64 (os_Seq o)
}.

Record level_ok (isBid : bool) (l : PriceLevelSnapshot) : Prop := {
  lo_orders : Forall (order_ok isBid) (pls_Orders l);
  lo_price : Forall (fun o => os_Price o = pls_Price l) (pls_Orders l);
  lo_nonempty : pls_Orders l <> []
}.

Definition level_before (isBid : bool) (l l' : PriceLevelSnapshot) : Prop :=
  better isBid (pls_Price l) (pls_Price l').

Record side_ok (isBid : bool) (ls : list PriceLevelSnapshot) : Prop := {
  so_levels : Forall (level_ok isBid) ls;
  so_sorted : StronglySorted (level_before isBid) ls
}.

(** The structural part: both sides sorted and well-formed, no order ID twice. *)
Record core_ok (s : Snapshot) : Prop := {
  co_bids : side_ok true (sn_Bids s);
  co_asks : side_ok false (sn_Asks s);
  co_ids : NoDup (map os_ID (book_orders s));
  co_nts : is_u64 (sn_NextTradeSeq s)
}.

(** No bid reaches an ask. *)
Definition uncrossed (s : Snapshot) : Prop :=
  Forall (fun b => Forall (fun a => pls_Price b < pls_Price a) (sn_Asks s)) (sn_Bids s).

Record book_ok (s : Snapshot) : Prop := {
  bo_core : core_ok s;
  bo_uncrossed : uncrossed s
}.

(** ** Lists of levels *)

Lemma all_orders_cons l ls : all_orders (l :: ls) = pls_Orders l ++ all_orders ls.
Proof. done. Qed.

Lemma all_orders_app ls ls' : all_orders (ls ++ ls') = all_orders ls ++ all_orders ls'.
Proof. unfold all_orders. by rewrite map_app, concat_app. Qed.

Lemma all_orders_cons_level p os ls : all_orders (cons_level p os ls) = os ++ all_orders ls.
Proof. by destruct os. Qed.

Lemma side_ok_nil isBid : side_ok isBid [].
Proof. split; constructor. Qed.

Lemma side_ok_cons isBid l ls :
  side_ok isBid (l :: ls) <->
  level_ok isBid l /\ Forall (level_before isBid l) ls /\ side_ok isBid ls.
Proof.
  split.
  - intros [Hl Hs]. inversion Hl; inversion Hs; subst. done.
  - intros (? & ? & []). split; by constructor.
Qed.

Lemma betterb_trichotomy isBid p q :
  p <> q -> betterb isBid p q = false -> better isBid q p.
Proof. destruct isBid; simpl; lia. Qed.

Lemma better_irrefl isBid p : ~ better isBid p p.
Proof. destruct isBid; simpl; lia. Qed.

Lemma better_trans isBid p q r : better isBid p q -> better isBid q r -> better isBid p r.
Proof. destruct isBid; simpl; lia. Qed.

(** Facts about the prices of a side survive every operation on it. *)
Section Prices.
Context (P : Z -> Prop).
Abbreviation on_price := (Forall (fun l => P (pls_Price l))).

Lemma cons_level_prices p os ls : P p -> on_price ls -> on_price (cons_level p os ls).
Proof. destruct os; simpl; [done|]. by constructor. Qed.

Lemma level_remove_prices id ls : on_price ls -> on_price (level_remove id ls).
Proof. induction 1; simpl; [done|]. by apply cons_level_prices. Qed.

Lemma level_reduce_prices id q ls : on_price ls -> on_price (level_reduce id q ls).
Proof. induction 1; simpl; by constructor. Qed.

Lemma level_insert_prices isBid o ls :
  P (os_Price o) -> on_price ls -> on_price (level_insert isBid o ls).
Proof.
  intros Ho. induction 1 as [|l ls Hl Hls IH]; simpl; [by repeat constructor|].
  repeat case_match; repeat constructor; done.
Qed.

Lemma take_levels_prices allowed qty ls :
  on_price ls -> on_price (take_levels allowed qty ls).2.
Proof.
  intros H. revert qty. induction H as [|l ls Hl Hls IH]; intros qty; simpl; [done|].
  case_match; [by constructor|].
  destruct (take_orders qty (pls_Orders l)) as [[fs q] os].
  destruct os; simpl; [|by constructor].
  specialize (IH q). by destruct (take_levels allowed q ls) as [[??]?].
Qed.
End Prices.

(** ** Resting *)

Lemma level_insert_perm isBid o ls :
  all_orders (level_insert isBid o ls) ≡ₚ o :: all_orders ls.
Proof.
  induction ls as [|l ls IH]; simpl; [done|].
  repeat case_match; rewrite !all_orders_cons; simpl.
  - rewrite <-app_assoc. simpl. symmetry. apply Permutation_middle.
  - done.
  - rewrite IH. symmetry. apply Permutation_middle.
Qed.

Lemma level_ok_single isBid o :
  order_ok isBid o -> level_ok isBid (mkPriceLevelSnapshot (os_Price o) [o]).
Proof. intros H. split; simpl; [by apply Forall_singleton..|done]. Qed.

Lemma level_insert_ok isBid o ls :
  order_ok isBid o -> side_ok isBid ls -> side_ok isBid (level_insert isBid o ls).
Proof.
  intros Ho. induction ls as [|l ls IH]; simpl.
  - intros _. apply side_ok_cons. split_and!; [|constructor|apply side_ok_nil].
    by apply level_ok_single.
  - intros Hok. pose proof Hok as ([H1 H2 H3] & Hl & Hs)%side_ok_cons.
    case_match eqn:E; [|case_match eqn:E'].
    + apply Z.eqb_eq in E. apply side_ok_cons. split_and!; [|done|done].
      split; simpl; rewrite ?Forall_app; [| |by destruct (pls_Orders l)];
        split; auto.
    + apply side_ok_cons. split_and!; [| |done].
      * by apply level_ok_single.
      * constructor; [done|]. eapply Forall_impl; [exact Hl|].
        intros l' Hl'. unfold level_before in *. simpl in *. eauto using better_trans.
    + apply side_ok_cons. split_and!; [by split| |by apply IH].
      apply (level_insert_prices (fun p => better isBid (pls_Price l) p)); [|done].
      apply betterb_trichotomy; [|done]. apply Z.eqb_neq in E. congruence.
Qed.

(** ** Removing *)

Lemma drop_order_app id os os' : drop_order id (os ++ os') = drop_order id os ++ drop_order id os'.
Proof. apply filter_app. Qed.

Lemma drop_order_none id os : id ∉ map os_ID os -> drop_order id os = os.
Proof.
  unfold drop_order. induction os as [|o os IH]; simpl; [done|].
  rewrite not_elem_of_cons. intros [Hne Hin].
  rewrite filter_cons_True by done. f_equal. by apply IH.
Qed.

Lemma drop_order_sublist id os : drop_order id os `sublist_of` os.
Proof.
  apply sublist_filter.
Qed.

Lemma drop_order_Forall (P : OrderSnapshot -> Prop) id os :
  Forall P os -> Forall P (drop_order id os).
Proof.
  unfold drop_order. induction 1; [done|]. rewrite filter_cons. case_decide; auto.
Qed.

Lemma level_remove_orders id ls :
  all_orders (level_remove id ls) = drop_order id (all_orders ls).
Proof.
  induction ls as [|l ls IH]; [done|]. simpl.
  by rewrite all_orders_cons_level, all_orders_cons, drop_order_app, IH.
Qed.

Lemma cons_level_ok isBid p os ls :
  Forall (order_ok isBid) os -> Forall (fun o => os_Price o = p) os ->
  Forall (fun l => better isBid p (pls_Price l)) ls -> side_ok isBid ls ->
  side_ok isBid (cons_level p os ls).
Proof.
  intros. destruct os; [done|]. simpl. apply side_ok_cons. split_and!; [|done|done].
  by split.
Qed.

Lemma level_remove_ok isBid id ls : side_ok isBid ls -> side_ok isBid (level_remove id ls).
Proof.
  induction ls as [|l ls IH]; [done|].
  intros ([H1 H2 H3] & Hl & Hs)%side_ok_cons. simpl. apply cons_level_ok; [| | |auto].
  - by apply drop_order_Forall.
  - by apply drop_order_Forall.
  - by apply (level_remove_prices (fun p => better isBid (pls_Price l) p)).
Qed.

(** ** Finding *)

Lemma find_order_Some id os o : find_order id os = Some o -> o ∈ os /\ os_ID o = id.
Proof.
  intros [Hin Heq]%find_some. split; [by apply list_elem_of_In|by apply Z.eqb_eq].
Qed.

Lemma find_order_None id os : find_order id os = None <-> id ∉ map os_ID os.
Proof.
  split.
  - intros H Hin. apply list_elem_of_fmap in Hin as (o & -> & Hin%list_elem_of_In).
    pose proof (find_none _ _ H o Hin) as E. simpl in E. lia.
  - intros H. destruct (find_order id os) as [o|] eqn:E; [|done].
    apply find_order_Some in E as [Hin <-]. destruct H.
    apply list_elem_of_fmap. eauto.
Qed.

Lemma find_order_unique id os o :
  NoDup (map os_ID os) -> o ∈ os -> os_ID o = id -> find_order id os = Some o.
Proof.
  intros Hnd Hin <-. induction Hin as [o os|o o' os Hin IH]; simpl in *.
  - by rewrite Z.eqb_refl.
  - apply NoDup_cons in Hnd as [Hni Hnd]. destruct (os_ID o' =? os_ID o) eqn:E; [|auto].
    apply Z.eqb_eq in E. destruct Hni. rewrite E. apply list_elem_of_fmap. eauto.
Qed.

(** ** Reducing *)

Lemma level_reduce_orders id q ls :
  all_orders (level_reduce id q ls) = map (reduce_order id q) (all_orders ls).
Proof.
  induction ls as [|l ls IH]; [done|]. simpl.
  by rewrite !all_orders_cons, map_app, IH.
Qed.

Lemma reduce_order_ids id q os : map os_ID (map (reduce_order id q) os) = map os_ID os.
Proof.
  rewrite map_map. apply map_ext. intros o. unfold reduce_order. by case_match.
Qed.

Lemma reduce_order_ok isBid id q o :
  0 < q <= MaxInt64 -> order_ok isBid o -> order_ok isBid (reduce_order id q o).
Proof.
  intros ? Ho. unfold reduce_order. case_match; [|done].
  destruct Ho. by constructor.
Qed.

Lemma level_reduce_ok isBid id q ls :
  0 < q <= MaxInt64 -> side_ok isBid ls -> side_ok isBid (level_reduce id q ls).
Proof.
  intros Hq. induction ls as [|l ls IH]; [done|].
  intros ([H1 H2 H3] & Hl & Hs)%side_ok_cons. apply side_ok_cons. split_and!; [| |auto].
  - split; simpl.
    + apply Forall_map. eapply Forall_impl; [exact H1|].
      intros o Ho. by apply reduce_order_ok.
    + apply Forall_map. eapply Forall_impl; [exact H2|].
      intros o Ho. unfold compose, reduce_order. by case_match.
    + by destruct (pls_Orders l).
  - by apply (level_reduce_prices (fun p => better isBid (pls_Price l) p)).
Qed.

(** ** Taking *)

Definition fills_sum (fs : list fill) : Z := foldr (fun f acc => f.2 + acc) 0 fs.

Lemma fills_sum_app fs fs' : fills_sum (fs ++ fs') = fills_sum fs + fills_sum fs'.
Proof. induction fs as [|f fs IH]; simpl; lia. Qed.

Lemma leaves_sum_app os os' : leaves_sum (os ++ os') = leaves_sum os + leaves_sum os'.
Proof. induction os as [|o os IH]; simpl; lia. Qed.

Lemma leaves_sum_nonneg isBid os : Forall (order_ok isBid) os -> 0 <= leaves_sum os.
Proof. induction 1 as [|o os [] Hos IH]; simpl; lia. Qed.

(** A fill trades a positive quantity of its maker, and no more than it has. *)
Definition fill_ok (f : fill) : Prop := 0 < f.2 <= os_LeavesQty f.1.

(** What taking [qty] from a queue or side [os] leaves: [fs] the fills, [q] the
    quantity not taken and [r] the orders that remain. *)
Record taken (isBid : bool) (qty : Z) (os : list OrderSnapshot)
  (fs : list fill) (q : Z) (r : list OrderSnapshot) : Prop := {
  tk_q : 0 <= q;
  tk_sum : fills_sum fs + q = qty;
  tk_leaves : leaves_sum os = fills_sum fs + leaves_sum r;
  tk_fills : Forall fill_ok fs;
  tk_prefix : map fst fs `prefix_of` os;
  tk_ok : Forall (order_ok isBid) r;
  tk_ids : map os_ID r `sublist_of` map os_ID os
}.

Lemma taken_nothing isBid qty os :
  0 <= qty -> Forall (order_ok isBid) os -> taken isBid qty os [] qty os.
Proof. intros. constructor; simpl; [lia..|constructor|apply prefix_nil|done|done]. Qed.

Lemma take_orders_taken isBid qty os :
  Forall (order_ok isBid) os -> 0 <= qty ->
  let '(fs, q, r) := take_orders qty os in
  taken isBid qty os fs q r /\ (r = [] \/ q = 0).
Proof.
  intros Hos. revert qty. induction Hos as [|o os Ho Hos IH]; intros qty Hq; simpl.
  - split; [by apply taken_nothing|by left].
  - destruct (qty <=? 0) eqn:E; [|destruct (os_LeavesQty o <=? qty) eqn:E'].
    + split; [|right; lia]. apply taken_nothing; [done|by constructor].
    + specialize (IH (qty - os_LeavesQty o) ltac:(lia)).
      destruct (take_orders (qty - os_LeavesQty o) os) as [[fs q] r].
      destruct IH as [[] ?]. destruct Ho. split; [|done]. constructor; simpl; try lia; auto.
      * constructor; [|done]. unfold fill_ok. simpl. lia.
      * by apply prefix_cons.
      * by apply sublist_cons.
    + destruct Ho. split; [|by right]. constructor; simpl; try lia; auto.
      * constructor; [|done]. unfold fill_ok. simpl. lia.
      * apply prefix_cons, prefix_nil.
      * constructor; [|done]. constructor; simpl; auto. lia.
Qed.

Lemma take_orders_prices (P : Z -> Prop) qty os :
  Forall (fun o => P (os_Price o)) os ->
  Forall (fun o => P (os_Price o)) (take_orders qty os).2.
Proof.
  intros H. revert qty. induction H as [|o os Ho Hos IH]; intros qty; simpl; [done|].
  repeat case_match; simpl in *; simplify_eq; try by constructor.
  specialize (IH (qty - os_LeavesQty o)). by rewrite H1 in IH.
Qed.

Lemma taken_app isBid qty os1 os2 fs1 q1 fs2 q2 r2 :
  taken isBid qty os1 fs1 q1 [] -> taken isBid q1 os2 fs2 q2 r2 ->
  (q1 = 0 -> fs2 = []) -> map fst fs1 = os1 ->
  taken isBid qty (os1 ++ os2) (fs1 ++ fs2) q2 r2.
Proof.
  intros [] [] Hz Hall. simpl in *.
  constructor; rewrite ?fills_sum_app, ?leaves_sum_app, ?map_app; try lia; auto.
  - by apply Forall_app.
  - rewrite Hall. by apply prefix_app.
  - by apply sublist_inserts_l.
Qed.

(** A queue that was emptied was filled order by order. *)
Lemma take_orders_all qty os :
  (take_orders qty os).2 = [] -> map fst (take_orders qty os).1.1 = os.
Proof.
  revert qty. induction os as [|o os IH]; intros qty; simpl; [done|].
  repeat case_match; simpl in *; try done. simplify_eq.
  intros ->. f_equal. specialize (IH (qty - os_LeavesQty o)). rewrite H1 in IH. by apply IH.
Qed.

Lemma take_levels_zero allowed qty ls : qty <= 0 -> take_levels allowed qty ls = ([], qty, ls).
Proof. intros. destruct ls; simpl; [done|]. by rewrite (proj2 (Z.leb_le qty 0)) by lia. Qed.

Definition head_refused (allowed : Z -> bool) (ls : list PriceLevelSnapshot) : Prop :=
  match ls with
  | [] => True
  | l :: _ => allowed (pls_Price l) = false
  end.

Lemma side_ok_orders isBid ls : side_ok isBid ls -> Forall (order_ok isBid) (all_orders ls).
Proof.
  induction ls as [|l ls IH]; [constructor|].
  intros ([] & _ & ?)%side_ok_cons. rewrite all_orders_cons. apply Forall_app; auto.
Qed.

Lemma take_levels_taken isBid allowed qty ls :
  side_ok isBid ls -> 0 <= qty ->
  let '(fs, q, r) := take_levels allowed qty ls in
  taken isBid qty (all_orders ls) fs q (all_orders r) /\
  side_ok isBid r /\ (0 < q -> head_refused allowed r).
Proof.
  revert qty. induction ls as [|l ls IH]; intros qty Hok Hq.
  { simpl. split_and!; [by apply taken_nothing|done|done]. }
  simpl. destruct ((qty <=? 0) || negb (allowed (pls_Price l))) eqn:E.
  { split_and!; [apply taken_nothing; [done|by apply side_ok_orders]|done|].
    intros Hq'. apply orb_true_iff in E as [E|E]; simpl; [lia|].
    by apply negb_true_iff. }
  apply orb_false_iff in E as [E1 E2].
  apply side_ok_cons in Hok as ([H1 H2 H3] & Hl & Hs).
  pose proof (take_orders_taken isBid qty (pls_Orders l) H1 Hq) as HT.
  pose proof (take_orders_prices (fun p => p = pls_Price l) qty (pls_Orders l) H2) as HP.
  pose proof (take_orders_all qty (pls_Orders l)) as HA.
  destruct (take_orders qty (pls_Orders l)) as [[fs q] os]. simpl in HP, HA.
  destruct HT as [HT Hend]. destruct os as [|o os].
  - specialize (IH q Hs (tk_q _ _ _ _ _ _ HT)).
    pose proof (take_levels_zero allowed q ls) as HZ.
    destruct (take_levels allowed q ls) as [[fs' q'] r]. destruct IH as (HT' & Hr & Hh).
    split_and!; [|done|done]. rewrite all_orders_cons. eapply taken_app; eauto.
    intros ->. by specialize (HZ ltac:(lia)) as [= -> ??].
  - destruct Hend as [?| ->]; [done|]. split_and!; [|apply side_ok_cons|lia].
    + rewrite !all_orders_cons. simpl. destruct HT.
      rewrite app_comm_cons. constructor; rewrite ?leaves_sum_app, ?map_app; try lia; auto.
      * by apply prefix_app_r.
      * apply Forall_app. split; [done|]. by apply side_ok_orders.
      * by apply sublist_app.
    + split_and!; [|done|done]. split; simpl; [apply HT|done|done].
Qed.

(** ** Every command keeps a book well-formed *)

Lemma uncrossed_cond s :
  uncrossed s <->
  forall b a, b ∈ sn_Bids s -> a ∈ sn_Asks s -> pls_Price b < pls_Price a.
Proof.
  unfold uncrossed. rewrite Forall_forall. setoid_rewrite Forall_forall. firstorder.
Qed.

(** Replacing the sides by ones whose prices occurred before cannot cross the book. *)
Lemma uncrossed_prices s bids asks :
  uncrossed s ->
  (forall P : Z -> Prop, Forall (fun l => P (pls_Price l)) (sn_Bids s) ->
                         Forall (fun l => P (pls_Price l)) bids) ->
  (forall P : Z -> Prop, Forall (fun l => P (pls_Price l)) (sn_Asks s) ->
                         Forall (fun l => P (pls_Price l)) asks) ->
  Forall (fun b => Forall (fun a => pls_Price b < pls_Price a) asks) bids.
Proof.
  intros H Hb Ha. apply (Hb (fun p => Forall (fun a => p < pls_Price a) asks)).
  eapply Forall_impl; [exact H|]. intros b Hb'. by apply (Ha (fun p => pls_Price b < p)).
Qed.

Lemma book_ids_app s :
  map os_ID (book_orders s) = map os_ID (all_orders (sn_Bids s)) ++ map os_ID (all_orders (sn_Asks s)).
Proof. apply map_app. Qed.

Record match_post (side limit qty : Z) (s : Snapshot) (rem : Z) (s' : Snapshot) : Prop := {
  mp_core : core_ok s';
  mp_rem : 0 <= rem <= qty;
  mp_ids : map os_ID (book_orders s') `sublist_of` map os_ID (book_orders s);
  mp_symbol : sn_Symbol s' = sn_Symbol s;
  mp_uncrossed : uncrossed s -> uncrossed s';
  mp_head : 0 < rem -> head_refused (price_ok side limit) (opposite side s')
}.

Lemma fills_sum_nonneg fs : Forall fill_ok fs -> 0 <= fills_sum fs.
Proof. induction 1 as [|f fs [] Hf IH]; simpl; lia. Qed.

Lemma spec_match_post seq id side limit qty s :
  core_ok s -> 0 <= qty ->
  let '(evs, rem, s') := spec_match seq id side limit qty s in
  match_post side limit qty s rem s'.
Proof.
  intros [Hb Ha Hid Hn] Hq. unfold spec_match.
  destruct (side =? SideBuy) eqn:Eside.
  - pose proof (take_levels_taken false (price_ok side limit) qty _ Ha Hq) as HT.
    pose proof (fun P => take_levels_prices P (price_ok side limit) qty (sn_Asks s)) as HP.
    destruct (take_levels (price_ok side limit) qty (sn_Asks s)) as [[fs q] r].
    destruct HT as ([] & Hr & Hh). pose proof (fills_sum_nonneg fs ltac:(done)).
    assert (map os_ID (all_orders (sn_Bids s) ++ all_orders r)
              `sublist_of` map os_ID (book_orders s)) as Hsub.
    { rewrite map_app, book_ids_app. by apply sublist_app. }
    constructor; unfold opposite; rewrite ?Eside; simpl; auto; [|lia|].
    + constructor; simpl; auto using wrap_u64_range. by eapply sublist_NoDup.
    + intros Hx. by eapply uncrossed_prices.
  - pose proof (take_levels_taken true (price_ok side limit) qty _ Hb Hq) as HT.
    pose proof (fun P => take_levels_prices P (price_ok side limit) qty (sn_Bids s)) as HP.
    destruct (take_levels (price_ok side limit) qty (sn_Bids s)) as [[fs q] r].
    destruct HT as ([] & Hr & Hh). pose proof (fills_sum_nonneg fs ltac:(done)).
    assert (map os_ID (all_orders r ++ all_orders (sn_Asks s))
              `sublist_of` map os_ID (book_orders s)) as Hsub.
    { rewrite map_app, book_ids_app. by apply sublist_app. }
    constructor; unfold opposite; rewrite ?Eside; simpl; auto; [|lia|].
    + constructor; simpl; auto using wrap_u64_range. by eapply sublist_NoDup.
    + intros Hx. by eapply uncrossed_prices.
Qed.

Definition side_flag (side : Z) : bool := negb (side =? SideSell).

Lemma spec_rest_perm o s : book_orders (spec_rest o s) ≡ₚ o :: book_orders s.
Proof.
  unfold spec_rest, book_orders. case_match; simpl; rewrite level_insert_perm; [|done].
  symmetry. apply Permutation_middle.
Qed.

Lemma spec_rest_core o s :
  core_ok s -> order_ok (side_flag (os_Side o)) o -> os_ID o ∉ map os_ID (book_orders s) ->
  core_ok (spec_rest o s).
Proof.
  intros [Hb Ha Hid Hn] Ho Hni.
  assert (NoDup (map os_ID (book_orders (spec_rest o s)))) as Hnd.
  { rewrite spec_rest_perm. by apply NoDup_cons. }
  unfold spec_rest, side_flag in *. destruct (os_Side o =? SideSell);
    constructor; simpl; auto using level_insert_ok.
Qed.

(** A level that refuses the limit of an order, with the worse levels behind it,
    stays clear of a level at that limit. *)
Lemma head_refused_all isBid side limit ls :
  side_ok isBid ls -> limit <> 0 -> isBid = negb (side =? SideBuy) ->
  head_refused (price_ok side limit) ls ->
  Forall (fun l => if side =? SideBuy then limit < pls_Price l else pls_Price l < limit) ls.
Proof.
  intros Hok Hl -> Hh. destruct ls as [|l ls]; [constructor|].
  apply side_ok_cons in Hok as (_ & Hs & _). simpl in Hh. unfold price_ok in Hh.
  rewrite (proj2 (Z.eqb_neq limit 0)) in Hh by done.
  assert (if side =? SideBuy then limit < pls_Price l else pls_Price l < limit) as H0.
  { destruct (side =? SideBuy); lia. }
  constructor; [done|]. eapply Forall_impl; [exact Hs|].
  unfold level_before, betterb. intros l' Hl'. destruct (side =? SideBuy); simpl in *; lia.
Qed.

Lemma spec_rest_uncrossed o s :
  core_ok s -> uncrossed s -> order_ok (side_flag (os_Side o)) o ->
  head_refused (price_ok (os_Side o) (os_Price o)) (opposite (os_Side o) s) ->
  uncrossed (spec_rest o s).
Proof.
  intros [Hb Ha Hid Hn] Hu [Hside Hp _ _ _] Hh. unfold side_flag, opposite in *.
  unfold spec_rest, uncrossed. destruct (os_Side o =? SideSell) eqn:E; simpl in *.
  - rewrite Hside in Hh. simpl in Hh.
    pose proof (head_refused_all true SideSell (os_Price o) _ Hb ltac:(lia) eq_refl Hh) as HF.
    rewrite Forall_forall in HF |- *. intros b Hb'.
    apply (level_insert_prices (fun p => pls_Price b < p)); [by apply (HF b)|].
    unfold uncrossed in Hu. rewrite Forall_forall in Hu. by apply Hu.
  - rewrite Hside in Hh. simpl in Hh.
    pose proof (head_refused_all false SideBuy (os_Price o) _ Ha ltac:(lia) eq_refl Hh) as HF.
    by apply (level_insert_prices (fun p => Forall (fun a => p < pls_Price a) _)).
Qed.

Lemma spec_remove_orders id s : book_orders (spec_remove id s) = drop_order id (book_orders s).
Proof. unfold book_orders. simpl. by rewrite !level_remove_orders, drop_order_app. Qed.

Lemma drop_order_ids id os : map os_ID (drop_order id os) `sublist_of` map os_ID os.
Proof. apply (fmap_sublist os_ID), drop_order_sublist. Qed.

Lemma drop_order_gone id os : id ∉ map os_ID (drop_order id os).
Proof.
  intros (o & -> & Ho)%list_elem_of_fmap. unfold drop_order in Ho.
  by apply list_elem_of_filter in Ho as [? ?].
Qed.

Lemma spec_remove_ok id s : book_ok s -> book_ok (spec_remove id s).
Proof.
  intros [[Hb Ha Hid Hn] Hu]. split.
  - constructor; simpl; auto using level_remove_ok.
    rewrite spec_remove_orders. eapply sublist_NoDup; [done|]. apply drop_order_ids.
  - apply (uncrossed_prices s); [done|intros P ?; by apply (level_remove_prices P)..].
Qed.

Lemma spec_reduce_ok id q s : 0 < q <= MaxInt64 -> book_ok s -> book_ok (spec_reduce id q s).
Proof.
  intros Hq [[Hb Ha Hid Hn] Hu]. split.
  - constructor; simpl; auto using level_reduce_ok.
    unfold book_orders. simpl. rewrite !level_reduce_orders, <-map_app, reduce_order_ids. done.
  - apply (uncrossed_prices s); [done|intros P ?; by apply (level_reduce_prices P)..].
Qed.

(** What [Command_Validate] lets through. *)
Lemma Validate_New c :
  Command_Validate c = None -> cmd_Type c = CommandNew ->
  (cmd_Side c = SideBuy \/ cmd_Side c = SideSell) /\
  (cmd_OrderType c = OrderTypeLimit \/ cmd_OrderType c = OrderTypeMarket) /\
  (cmd_TimeInForce c = TIFGTC \/ cmd_TimeInForce c = TIFIOC \/ cmd_TimeInForce c = TIFFOK) /\
  0 < cmd_Quantity c /\ (cmd_OrderType c = OrderTypeLimit -> 0 < cmd_Price c).
Proof.
  unfold Command_Validate. intros H Ht. rewrite Ht in H. simpl in H.
  repeat case_match; try done. lia.
Qed.

Lemma Validate_Replace c :
  Command_Validate c = None -> cmd_Type c = CommandReplace ->
  0 < cmd_NewLeavesQty c /\ 0 <= cmd_NewPrice c.
Proof.
  unfold Command_Validate. intros H Ht. rewrite Ht in H. simpl in H.
  repeat case_match; try done. lia.
Qed.

Lemma Validate_Type c :
  Command_Validate c = None ->
  cmd_Type c = CommandNew \/ cmd_Type c = CommandCancel \/ cmd_Type c = CommandReplace.
Proof.
  unfold Command_Validate. intros H. repeat case_match; try done; lia.
Qed.

(** Matching and then resting what is left keeps the book well-formed. *)
Lemma spec_match_rest_ok seq id side limit qty s :
  book_ok s -> id ∉ map os_ID (book_orders s) ->
  side = SideBuy \/ side = SideSell -> 0 < qty <= MaxInt64 -> is_u64 id -> is_u64 seq ->
  let '(evs, rem, s') := spec_match seq id side limit qty s in
  book_ok s' /\
  (0 < limit <= MaxInt64 -> 0 < rem -> book_ok (spec_rest (mkOrderSnapshot id side limit rem seq) s')).
Proof.
  intros [Hc Hu] Hni Hside Hq Hid Hseq.
  pose proof (spec_match_post seq id side limit qty s Hc ltac:(lia)) as HP.
  destruct (spec_match seq id side limit qty s) as [[evs rem] s'].
  destruct HP as [Hc' Hr Hids Hsym Hx Hh].
  split; [by split; auto|]. intros Hlim Hrem.
  assert (order_ok (side_flag side) (mkOrderSnapshot id side limit rem seq)) as Ho.
  { constructor; simpl; try done; [|lia]. by destruct Hside as [->| ->]. }
  split.
  - apply spec_rest_core; [done|done|]. simpl. intros Hin. apply Hni.
    by eapply elem_of_sublist.
  - by apply spec_rest_uncrossed; auto.
Qed.

Lemma find_order_ok id s o :
  core_ok s -> find_order id (book_orders s) = Some o ->
  exists isBid, order_ok isBid o /\ os_ID o = id.
Proof.
  intros [Hb Ha _ _] [Hin Hid]%find_order_Some. unfold book_orders in Hin.
  apply elem_of_app in Hin as [Hin|Hin].
  - exists true. split; [|done]. pose proof (side_ok_orders _ _ Hb) as HF.
    rewrite Forall_forall in HF. auto.
  - exists false. split; [|done]. pose proof (side_ok_orders _ _ Ha) as HF.
    rewrite Forall_forall in HF. auto.
Qed.

Lemma order_ok_side isBid o :
  order_ok isBid o -> os_Side o = SideBuy \/ os_Side o = SideSell.
Proof. intros [-> _ _ _ _]. destruct isBid; auto. Qed.

Lemma spec_New_ok cmd s :
  command_typed cmd -> Command_Validate cmd = None -> cmd_Type cmd = CommandNew ->
  book_ok s -> book_ok (spec_New cmd s).2.
Proof.
  intros Ht Hv Hty Hok. destruct (Validate_New _ Hv Hty) as (Hside & Hot & Htif & Hq & Hp).
  unfold spec_New. destruct (find_order _ _) eqn:Ef; [done|].
  apply find_order_None in Ef. destruct (_ && _); [done|].
  destruct Ht. pose proof (spec_match_rest_ok (cmd_Seq cmd) (cmd_OrderID cmd) (cmd_Side cmd)
    (cmd_Price cmd) (cmd_Quantity cmd) s Hok Ef Hside ltac:(int_lia) ltac:(done) ltac:(done)) as HM.
  pose proof (spec_match_post (cmd_Seq cmd) (cmd_OrderID cmd) (cmd_Side cmd) (cmd_Price cmd)
    (cmd_Quantity cmd) s (bo_core _ Hok) ltac:(lia)) as HP.
  destruct (spec_match _ _ _ _ _ _) as [[evs rem] s']. destruct HM as [Hs' Hrest].
  destruct HP as [_ Hrem _ _ _ _].
  destruct (rem =? 0) eqn:E0; [done|]. destruct (_ || _) eqn:E1; [done|]. simpl.
  apply Hrest; [|lia]. apply orb_false_iff in E1 as [E1 _].
  destruct Hot as [Hot|Hot]; [|lia]. specialize (Hp Hot). int_lia.
Qed.

Lemma spec_Replace_ok cmd s :
  command_typed cmd -> Command_Validate cmd = None -> cmd_Type cmd = CommandReplace ->
  book_ok s -> book_ok (spec_Replace cmd s).2.
Proof.
  intros Ht Hv Hty Hok. destruct (Validate_Replace _ Hv Hty) as [Hq Hp].
  unfold spec_Replace. destruct (find_order _ _) as [o|] eqn:Ef; [|done].
  destruct (find_order_ok _ _ _ (bo_core _ Hok) Ef) as (isBid & Ho & Hid).
  pose proof (order_ok_side _ _ Ho) as Hside. destruct Ht, Ho.
  set (price := if cmd_NewPrice cmd >? 0 then cmd_NewPrice cmd else os_Price o).
  assert (0 < price <= MaxInt64) as Hprice
    by (unfold price; destruct (cmd_NewPrice cmd >? 0) eqn:?; int_lia).
  destruct (_ && _); [apply spec_reduce_ok; [int_lia|done]|].
  pose proof (spec_match_rest_ok (cmd_Seq cmd) (cmd_OrderID cmd) (os_Side o) price
    (cmd_NewLeavesQty cmd) (spec_remove (cmd_OrderID cmd) s)) as HM.
  rewrite spec_remove_orders in HM.
  specialize (HM (spec_remove_ok _ _ Hok) (drop_order_gone _ _) Hside ltac:(int_lia)
    ltac:(done) ltac:(done)).
  destruct (spec_match _ _ _ _ _ _) as [[evs rem] s']. destruct HM as [Hs' Hrest].
  destruct (0 <? rem) eqn:E; [|done]. apply Hrest; [done|lia].
Qed.

Lemma spec_Apply_ok cmd s : command_typed cmd -> book_ok s -> book_ok (spec_Apply cmd s).2.
Proof.
  intros Ht Hok. unfold spec_Apply, spec_events.
  destruct (negb _); [done|]. destruct (Command_Validate cmd) eqn:Hv; [done|].
  destruct (cmd_Type cmd =? CommandNew) eqn:E1; [|destruct (cmd_Type cmd =? CommandCancel) eqn:E2].
  - pose proof (spec_New_ok cmd s Ht Hv ltac:(lia) Hok). by destruct (spec_New cmd s).
  - unfold spec_Cancel. destruct (find_order _ _); [|done]. by apply spec_remove_ok.
  - assert (cmd_Type cmd = CommandReplace) by (destruct (Validate_Type _ Hv) as [?|[?|?]]; lia).
    pose proof (spec_Replace_ok cmd s Ht Hv ltac:(done) Hok). by destruct (spec_Replace cmd s).
Qed.
