(* ===== verification/BookRep.v ===== *)
(** * BookRep: how the pointer structure of a book represents its lists

    [level_core h g] says that the heap [h] holds, at the location of the ghost
    level [g], a price level whose doubly linked queue is exactly the orders of
    [g], with the right [Prev], [Next] and [Level] pointers and the right
    [TotalQty].  [rep b G] lifts this to the two sides of a book; [repr b s] says
    that the book [b] represents the abstract state [s].  The second half proves
    what the queue operations and the slice operations do to these structures. *)

From S2P Require Import Prelude Model Book BookSpec.

(** ** Ghost structure *)

Abbreviation gorder := (loc * OrderSnapshot)%type.

Record glevel := mkG {
  gl_loc : loc;
  gl_price : Z;
  gl_orders : list gorder
}.

Definition data_of (o : Order) : OrderSnapshot :=
  mkOrderSnapshot (ord_ID o) (ord_Side o) (ord_Price o) (ord_LeavesQty o) (ord_Seq o).

Definition mk_order (o : OrderSnapshot) (prev next level : ptr) : Order :=
  mkOrder (os_ID o) (os_Side o) (os_Price o) (os_LeavesQty o) (os_Seq o) prev next level.

Definition abs_level (g : glevel) : PriceLevelSnapshot :=
  mkPriceLevelSnapshot (gl_price g) (map snd (gl_orders g)).
Definition abs_side (gs : list glevel) : list PriceLevelSnapshot := map abs_level gs.

Definition gorders (gs : list glevel) : list gorder := concat (map gl_orders gs).
Definition olocs (os : list gorder) : list loc := map fst os.

(** ** Doubly linked segments *)

Definition first_ptr (os : list gorder) (next : ptr) : ptr :=
  match os with
  | [] => next
  | (l, _) :: _ => Some l
  end.

Fixpoint last_ptr (prev : ptr) (os : list gorder) : ptr :=
  match os with
  | [] => prev
  | (l, _) :: os' => last_ptr (Some l) os'
  end.

Fixpoint dlseg (m : gmap loc Order) (lv : loc) (prev : ptr) (os : list gorder) (next : ptr)
  : Prop :=
  match os with
  | [] => True
  | (l, o) :: os' =>
      m !! l = Some (mk_order o prev (first_ptr os' next) (Some lv)) /\
      dlseg m lv (Some l) os' next
  end.

Definition level_record (g : glevel) : PriceLevel :=
  mkPriceLevel (gl_price g) (wrap_i64 (leaves_sum (map snd (gl_orders g))))
    (first_ptr (gl_orders g) None) (last_ptr None (gl_orders g)).

Record level_core (h : Heap) (g : glevel) : Prop := {
  lc_record : h_levels h !! gl_loc g = Some (level_record g);
  lc_queue : dlseg (h_orders h) (gl_loc g) None (gl_orders g) None
}.

(** The heaps agree outside the orders [ol] and the levels [ll]. *)
Record hframe (ol ll : list loc) (h h' : Heap) : Prop := {
  hf_orders : forall l, l ∉ ol -> h_orders h' !! l = h_orders h !! l;
  hf_levels : forall l, l ∉ ll -> h_levels h' !! l = h_levels h !! l;
  hf_next : (h_next h <= h_next h')%positive
}.

Lemma first_ptr_app os1 os2 n : first_ptr (os1 ++ os2) n = first_ptr os1 (first_ptr os2 n).
Proof. by destruct os1 as [|[]]. Qed.

Lemma last_ptr_app p os1 os2 : last_ptr p (os1 ++ os2) = last_ptr (last_ptr p os1) os2.
Proof. revert p. induction os1 as [|[l o] os1 IH]; intros p; simpl; auto. Qed.

Lemma dlseg_app m lv p os1 os2 n :
  dlseg m lv p (os1 ++ os2) n <->
  dlseg m lv p os1 (first_ptr os2 n) /\ dlseg m lv (last_ptr p os1) os2 n.
Proof.
  revert p. induction os1 as [|[l o] os1 IH]; intros p; simpl; [tauto|].
  rewrite IH, first_ptr_app. tauto.
Qed.

Lemma dlseg_frame m m' lv p os n :
  (forall l, l ∈ olocs os -> m' !! l = m !! l) -> dlseg m lv p os n -> dlseg m' lv p os n.
Proof.
  revert p. induction os as [|[l o] os IH]; intros p Hm; simpl; [done|]. intros [H1 H2]. split.
  - rewrite Hm; [done|]. simpl. left.
  - apply IH; [|done]. intros l' Hl'. apply Hm. by right.
Qed.

Lemma dlseg_insert m lv p os n l x :
  l ∉ olocs os -> dlseg m lv p os n -> dlseg (<[l := x]> m) lv p os n.
Proof.
  intros Hl. apply dlseg_frame. intros l' Hl'. apply lookup_insert_ne. congruence.
Qed.

Lemma dlseg_lookup m lv p os n l o :
  dlseg m lv p os n -> (l, o) ∈ os -> exists pr nx, m !! l = Some (mk_order o pr nx (Some lv)).
Proof.
  revert p. induction os as [|[l' o'] os IH]; intros p; [by intros _ ?%not_elem_of_nil|].
  simpl. intros [H1 H2]. rewrite elem_of_cons. intros [[= -> ->]|Hin]; eauto.
Qed.

(** Relinking the last order of a segment to another successor. *)
Lemma dlseg_relink_last m lv p os l o n n' :
  l ∉ olocs os -> dlseg m lv p (os ++ [(l, o)]) n ->
  dlseg (<[l := mk_order o (last_ptr p os) n' (Some lv)]> m) lv p (os ++ [(l, o)]) n'.
Proof.
  intros Hl [H1 [H2 _]]%dlseg_app. apply dlseg_app. simpl. split_and!; [|apply lookup_insert_eq|done].
  by apply dlseg_insert.
Qed.

(** Relinking the first order of a segment to another predecessor. *)
Lemma dlseg_relink_first m lv p p' l o os n :
  l ∉ olocs os -> dlseg m lv p ((l, o) :: os) n ->
  dlseg (<[l := mk_order o p' (first_ptr os n) (Some lv)]> m) lv p' ((l, o) :: os) n.
Proof.
  intros Hl [H1 H2]. split; [apply lookup_insert_eq|]. by apply dlseg_insert.
Qed.

Lemma level_core_frame ol ll h h' g :
  hframe ol ll h h' -> gl_loc g ∉ ll -> (forall l, l ∈ olocs (gl_orders g) -> l ∉ ol) ->
  level_core h g -> level_core h' g.
Proof.
  intros [Ho Hl _] Hg Hd [Hr Hq]. split.
  - by rewrite Hl.
  - eapply dlseg_frame; [|done]. eauto.
Qed.

(** ** Running memory commands *)

Lemma load_order_ok l o b :
  h_orders (bk_heap b) !! l = Some o -> load_order (Some l) b = Ret (o, b).
Proof. simpl. by intros ->. Qed.

Lemma load_level_ok l v b :
  h_levels (bk_heap b) !! l = Some v -> load_level (Some l) b = Ret (v, b).
Proof. simpl. by intros ->. Qed.

Lemma update_order_ok l f o b :
  h_orders (bk_heap b) !! l = Some o ->
  update_order (Some l) f b = Ret (tt, set_heap (heap_set_order l (f o) (bk_heap b)) b).
Proof. simpl. by intros ->. Qed.

Lemma update_level_ok l f v b :
  h_levels (bk_heap b) !! l = Some v ->
  update_level (Some l) f b = Ret (tt, set_heap (heap_set_level l (f v) (bk_heap b)) b).
Proof. simpl. by intros ->. Qed.

Lemma set_heap_set_heap h h' b : set_heap h (set_heap h' b) = set_heap h b.
Proof. done. Qed.

Lemma set_heap_id b : set_heap (bk_heap b) b = b.
Proof. by destruct b. Qed.

Lemma bk_heap_set_heap h b : bk_heap (set_heap h b) = h.
Proof. done. Qed.

(** [mem_step] runs one memory command: the lookup it needs is found among the
    hypotheses after simplifying map updates.  [mem_last] does so for the last
    command of a sequence. *)
#[global] Arguments bind : simpl never.
#[global] Arguments load_order : simpl never.
#[global] Arguments load_level : simpl never.
#[global] Arguments update_order : simpl never.
#[global] Arguments update_level : simpl never.
#[global] Arguments set_heap : simpl never.
Ltac mem_lookup := simpl; rewrite ?bk_heap_set_heap; simpl; simplify_map_eq; first [reflexivity | eassumption | done].
Ltac mem_norm := rewrite ?set_heap_set_heap, ?bk_heap_set_heap.
Ltac mem_step :=
  first
    [ erewrite (bind_Ret (load_order _)) by (apply load_order_ok; mem_lookup)
    | erewrite (bind_Ret (load_level _)) by (apply load_level_ok; mem_lookup)
    | erewrite (bind_Ret (update_order _ _)) by (apply update_order_ok; mem_lookup)
    | erewrite (bind_Ret (update_level _ _)) by (apply update_level_ok; mem_lookup) ];
  mem_norm.
Ltac mem_last :=
  first
    [ erewrite update_order_ok by mem_lookup
    | erewrite update_level_ok by mem_lookup ];
  mem_norm.

(** [frame_solve] proves [hframe] goals between a heap and its updates. *)
Ltac frame_solve :=
  split; simpl;
  [ intros ? ?; rewrite ?lookup_insert_ne by set_solver; done
  | intros ? ?; rewrite ?lookup_insert_ne by set_solver; done
  | done || lia ].

Lemma NoDup_middle {A} (xs ys : list A) x :
  NoDup (xs ++ x :: ys) <-> (x ∉ xs) /\ (x ∉ ys) /\ NoDup (xs ++ ys).
Proof.
  rewrite <-Permutation_middle, NoDup_cons, not_elem_of_app. tauto.
Qed.

(** ** The queue operations *)

Definition gl_with (g : glevel) (os : list gorder) : glevel := mkG (gl_loc g) (gl_price g) os.

Lemma last_ptr_snoc p os l o : last_ptr p (os ++ [(l, o)]) = Some l.
Proof. by rewrite last_ptr_app. Qed.

Lemma leaves_sum_snoc os o : leaves_sum (os ++ [o]) = leaves_sum os + os_LeavesQty o.
Proof. rewrite leaves_sum_app. simpl. lia. Qed.

Lemma olocs_app os os' : olocs (os ++ os') = olocs os ++ olocs os'.
Proof. apply map_app. Qed.

Lemma append_spec b g l ord :
  level_core (bk_heap b) g -> h_orders (bk_heap b) !! l = Some ord ->
  l ∉ olocs (gl_orders g) -> NoDup (olocs (gl_orders g)) ->
  exists h', PriceLevel_append (Some (gl_loc g)) (Some l) b = Ret (tt, set_heap h' b) /\
    level_core h' (gl_with g (gl_orders g ++ [(l, data_of ord)])) /\
    hframe (l :: olocs (gl_orders g)) [gl_loc g] (bk_heap b) h'.
Proof.
  destruct g as [lv p os]. intros [Hr Hq] Hord Hl Hnd. simpl in *.
  unfold PriceLevel_append. mem_step. unfold level_record in *. simpl in *. do 3 mem_step.
  destruct os as [|[lt ot] os' _] using rev_ind.
  - simpl in *. do 3 mem_step. mem_last. eexists; split_and!; [reflexivity| |frame_solve].
    split; simpl; simplify_map_eq; [|done]. unfold level_record, set_TotalQty; simpl.
    rewrite i64_add_wrap. do 3 f_equal. lia.
  - rewrite olocs_app in *. simpl in *.
    apply not_elem_of_app in Hl as [Hl1 Hl2]. apply not_elem_of_cons in Hl2 as [Hl2 _].
    apply NoDup_app in Hnd as (_ & Hnd & _).
    assert (lt ∉ olocs os') as Hlt by (intros Hin; apply Hnd in Hin; set_solver).
    pose proof Hq as [Hq1 [Hq2 _]]%dlseg_app.
    rewrite last_ptr_snoc in *. simpl in *. do 3 mem_step. mem_last.
    eexists; split_and!; [reflexivity| |frame_solve].
    split; simpl.
    + simplify_map_eq. unfold level_record, set_TotalQty; simpl.
      rewrite i64_add_wrap, !map_app, !last_ptr_snoc, !leaves_sum_app, !first_ptr_app. simpl.
      do 3 f_equal. lia.
    + rewrite !dlseg_app. simpl. rewrite last_ptr_snoc. split_and!; simplify_map_eq; try done.
      repeat (apply dlseg_insert; [done|]). done.
Qed.

Lemma remove_spec b g o1 l o o2 :
  level_core (bk_heap b) g -> gl_orders g = o1 ++ (l, o) :: o2 ->
  NoDup (olocs (o1 ++ (l, o) :: o2)) ->
  exists h', PriceLevel_remove (Some (gl_loc g)) (Some l) b = Ret (tt, set_heap h' b) /\
    level_core h' (gl_with g (o1 ++ o2)) /\
    h_orders h' !! l = Some (mk_order o None None None) /\
    hframe (olocs (gl_orders g)) [gl_loc g] (bk_heap b) h'.
Proof.
  destruct g as [lv p os]. simpl. intros [Hr Hq] -> Hnd. simpl in *.
  pose proof Hq as [Hq1 [Hq2 Hq3]]%dlseg_app. unfold level_record in Hr. simpl in Hr.
  rewrite olocs_app in *. simpl in *. apply NoDup_middle in Hnd as (Hl1 & Hl2 & Hnd).
  unfold PriceLevel_remove.
  destruct o1 as [|[lp op] o1' _] using rev_ind; destruct o2 as [|[ln on] o2']; simpl in *.
  all: rewrite ?last_ptr_snoc, ?olocs_app in *; simpl in *.
  all: rewrite <-?app_assoc in *; simpl in *.
  all: repeat match goal with
       | H : NoDup (_ ++ _ :: _) |- _ => apply NoDup_middle in H as (? & ? & ?)
       | H : NoDup (_ :: _) |- _ => apply NoDup_cons in H as [? ?]
       | H : _ ∉ _ :: _ |- _ => apply not_elem_of_cons in H as [? ?]
       | H : _ ∉ _ ++ _ |- _ => apply not_elem_of_app in H as [? ?]
       | H : dlseg _ _ _ (_ ++ _) _ |- _ => apply dlseg_app in H as [? ?]
       | H : dlseg _ _ _ (_ :: _) _ |- _ => simpl in H
       | H : _ /\ _ |- _ => destruct H
       end.
  all: repeat (mem_step; simpl).
  all: mem_last.
  all: eexists; split_and!; [reflexivity| |by simpl; simplify_map_eq|frame_solve].
  all: split; simpl; simplify_map_eq.
  all: rewrite ?dlseg_app; simpl; unfold level_record, set_TotalQty; simpl.
  all: rewrite ?i64_sub_wrap, ?map_app, ?leaves_sum_app, ?last_ptr_app, ?first_ptr_app; simpl.
  all: try (do 3 f_equal; lia).
  all: split_and?; simplify_map_eq; try done.
  all: repeat (apply dlseg_insert; [done|]); done.
Qed.

(** ** The sorted price slice *)

(** The linear reference of the binary search: how many prices are better. *)
Fixpoint insert_pos (isBid : bool) (price : Z) (ps : list Z) : nat :=
  match ps with
  | [] => 0
  | p :: ps' => if betterb isBid p price then S (insert_pos isBid price ps') else 0
  end.

Abbreviation prices_sorted isBid ps := (StronglySorted (fun p q => better isBid p q) ps).

Lemma prices_sorted_lookup isBid ps i j p q :
  prices_sorted isBid ps -> (i < j)%nat -> ps !! i = Some p -> ps !! j = Some q -> better isBid p q.
Proof.
  intros Hs. revert i j. induction Hs as [|x ps Hs IH Hall]; intros i j Hij Hi Hj; [done|].
  destruct j as [|j]; [lia|]. destruct i as [|i]; simpl in *; simplify_eq.
  - rewrite Forall_forall in Hall. apply Hall. by eapply list_elem_of_lookup_2.
  - eapply (IH i j); eauto. lia.
Qed.

Lemma insert_pos_unique isBid price ps n :
  (n <= length ps)%nat ->
  (forall i p, (i < n)%nat -> ps !! i = Some p -> better isBid p price) ->
  (forall i p, (n <= i)%nat -> ps !! i = Some p -> betterb isBid p price = false) ->
  insert_pos isBid price ps = n.
Proof.
  revert n. induction ps as [|p ps IH]; intros n Hn Hlo Hhi; simpl in *; [lia|].
  destruct n as [|n].
  - by rewrite (Hhi 0%nat p) by (done || lia).
  - rewrite (Hlo 0%nat p) by (done || lia). f_equal. apply IH; [lia|..].
    + intros i q Hi. apply (Hlo (S i)). lia.
    + intros i q Hi. apply (Hhi (S i)). lia.
Qed.

Lemma findInsertIndex_loop_ok s price fuel lo hi :
  prices_sorted (sb_isBid s) (sb_prices s) ->
  (hi - lo < fuel)%nat -> (lo <= hi <= length (sb_prices s))%nat ->
  (forall i p, (i < lo)%nat -> sb_prices s !! i = Some p -> better (sb_isBid s) p price) ->
  (forall i p, (hi <= i)%nat -> sb_prices s !! i = Some p -> betterb (sb_isBid s) p price = false) ->
  findInsertIndex_loop fuel s price lo hi = Ret (insert_pos (sb_isBid s) price (sb_prices s)).
Proof.
  intros Hs. revert lo hi. induction fuel as [|fuel IH]; intros lo hi Hf Hb Hlo Hhi; [lia|].
  cbn [findInsertIndex_loop]. destruct (Nat.ltb_spec lo hi) as [Hlt|Hge].
  - set (mid := (lo + (hi - lo) / 2)%nat).
    assert (lo <= mid < hi)%nat as Hmid.
    { unfold mid. pose proof (Nat.div_lt (hi - lo) 2 ltac:(lia) ltac:(lia)). lia. }
    destruct (lookup_lt_is_Some_2 (sb_prices s) mid) as [p Hp]; [lia|]. rewrite Hp.
    assert (better (sb_isBid s) p price ->
            findInsertIndex_loop fuel s price (mid + 1) hi
              = Ret (insert_pos (sb_isBid s) price (sb_prices s))) as Hup.
    { intros Hbt. apply IH; [lia|lia| |done]. intros i q Hi Hq.
      destruct (decide (i = mid)) as [->|Hne]; [congruence|].
      eapply better_trans; [|exact Hbt]. eapply prices_sorted_lookup; [done| |done|done]. lia. }
    assert (betterb (sb_isBid s) p price = false ->
            findInsertIndex_loop fuel s price lo mid
              = Ret (insert_pos (sb_isBid s) price (sb_prices s))) as Hdown.
    { intros Hnb. apply IH; [lia|lia|done|]. intros i q Hi Hq.
      destruct (decide (i = mid)) as [->|Hne]; [congruence|].
      destruct (betterb (sb_isBid s) q price) eqn:E; [|done].
      assert (better (sb_isBid s) p q) as Hpq
        by (eapply prices_sorted_lookup; [done| |done|done]; lia).
      pose proof (better_trans _ _ _ _ Hpq E). congruence. }
    unfold betterb in *. destruct (sb_isBid s).
    + destruct (p >? price) eqn:E; [apply Hup|apply Hdown]; lia.
    + destruct (p <? price) eqn:E; [apply Hup|apply Hdown]; done.
  - f_equal. symmetry. apply insert_pos_unique; [lia|done|]. intros i p Hi. apply Hhi. lia.
Qed.

Lemma findInsertIndex_ok s price :
  prices_sorted (sb_isBid s) (sb_prices s) ->
  findInsertIndex s price = Ret (insert_pos (sb_isBid s) price (sb_prices s)).
Proof.
  intros Hs. unfold findInsertIndex.
  apply findInsertIndex_loop_ok; [done|lia|lia|lia|].
  intros i p Hi Hp%lookup_lt_Some. lia.
Qed.

Lemma insert_pos_le isBid price ps : (insert_pos isBid price ps <= length ps)%nat.
Proof. induction ps; simpl; [lia|]. case_match; lia. Qed.

Lemma insert_pos_app isBid price ps1 ps2 :
  Forall (fun p => better isBid p price) ps1 ->
  insert_pos isBid price (ps1 ++ ps2) = (length ps1 + insert_pos isBid price ps2)%nat.
Proof. induction 1 as [|p ps1 Hp H IH]; simpl; [done|]. by rewrite Hp, IH. Qed.

Lemma insert_pos_here isBid price ps : insert_pos isBid price (price :: ps) = 0%nat.
Proof.
  simpl. destruct (betterb isBid price price) eqn:E; [|done]. by apply better_irrefl in E.
Qed.

Lemma findPriceIndex_ok s ps1 price ps2 :
  prices_sorted (sb_isBid s) (sb_prices s) -> sb_prices s = ps1 ++ price :: ps2 ->
  findPriceIndex s price = Ret (Z.of_nat (length ps1)).
Proof.
  intros Hs E. unfold findPriceIndex. rewrite findInsertIndex_ok, E by done.
  rewrite insert_pos_app, insert_pos_here, Nat.add_0_r, length_app.
  - rewrite (proj2 (Nat.leb_gt _ _)) by (simpl; lia).
    rewrite lookup_app_r, Nat.sub_diag by lia. simpl. by rewrite Z.eqb_refl.
  - rewrite E in Hs. apply Forall_forall. intros p Hp.
    eapply (StronglySorted_app_1_elem_of (fun p q => better (sb_isBid s) p q));
      [exact Hs|done|left].
Qed.

(** Making room with [append] and [copy] and storing the price inserts it. *)
Lemma slice_insert ps i price :
  (i <= length ps)%nat ->
  slice_copy (ps ++ [0]) (i + 1) i = Ret (take (i + 1) (ps ++ [0]) ++ drop i ps) /\
  slice_set (take (i + 1) (ps ++ [0]) ++ drop i ps) i price = Ret (take i ps ++ price :: drop i ps).
Proof.
  intros Hi. assert (length (take i ps) = i) as Hlen by (rewrite length_take; lia).
  split.
  - unfold slice_copy. rewrite length_app. simpl.
    rewrite !bool_decide_eq_false_2 by lia. simpl.
    replace (Nat.min (length ps + 1 - (i + 1)) (length ps + 1 - i)) with (length ps - i)%nat by lia.
    rewrite (drop_ge (ps ++ [0]) (i + 1 + (length ps - i))%nat) by (rewrite length_app; simpl; lia).
    rewrite app_nil_r, drop_app_le, (take_app_le (drop i ps)) by (rewrite ?length_drop; lia).
    by rewrite (take_ge (drop i ps)) by (rewrite length_drop; lia).
  - unfold slice_set. rewrite bool_decide_eq_true_2.
    + f_equal. destruct (decide (i = length ps)) as [->|Hne].
      * rewrite take_ge, drop_ge, app_nil_r, insert_app_r_alt by (rewrite ?length_app; simpl; lia).
        by rewrite Nat.sub_diag, take_ge.
      * destruct (lookup_lt_is_Some_2 ps i) as [p Hp]; [lia|].
        rewrite take_app_le by lia.
        replace (i + 1)%nat with (S i) by lia. rewrite (take_S_r _ _ p) by done.
        rewrite <-app_assoc, insert_app_r_alt by lia. by rewrite Hlen, Nat.sub_diag.
    + rewrite !length_app, length_take, length_app, length_drop. simpl. lia.
Qed.

(** ** Books *)

#[export] Instance sideRef_eq_dec : EqDecision sideRef.
Proof. solve_decision. Defined.

Definition is_bid (r : sideRef) : bool := match r with refBids => true | refAsks => false end.
Definition other (r : sideRef) : sideRef := match r with refBids => refAsks | refAsks => refBids end.

Abbreviation ghost := (sideRef -> list glevel).
Definition ghost_set (G : ghost) (r : sideRef) (gs : list glevel) : ghost :=
  fun r' => if decide (r = r') then gs else G r'.

Definition keys (gs : list glevel) : list (Z * loc) := map (fun g => (gl_price g, gl_loc g)) gs.
Definition idlocs (os : list gorder) : list (Z * loc) := map (fun x => (os_ID x.2, x.1)) os.
Definition oids (os : list gorder) : list Z := map (fun x => os_ID x.2) os.

(** The orders of a level belong to its side and price, and there is one. *)
Record level_shape (r : sideRef) (g : glevel) : Prop := {
  ls_side : Forall (fun x => side_of (os_Side x.2) = r) (gl_orders g);
  ls_price : Forall (fun x => os_Price x.2 = gl_price g) (gl_orders g);
  ls_nonempty : gl_orders g <> []
}.

(** The two sides of a ghost book, [r] first. *)
Definition both (G : ghost) (r : sideRef) : list glevel := G r ++ G (other r).

Record rep (b : Book) (G : ghost) : Prop := {
  rp_flag : forall r, sb_isBid (get_side r b) = is_bid r;
  rp_prices : forall r, sb_prices (get_side r b) = map gl_price (G r);
  rp_levels : forall r p l, sb_levels (get_side r b) !! p = Some l <-> (p, l) ∈ keys (G r);
  rp_sorted : forall r, prices_sorted (is_bid r) (map gl_price (G r));
  rp_core : forall r, Forall (level_core (bk_heap b)) (G r);
  rp_shape : forall r, Forall (level_shape r) (G r);
  rp_orders : forall r id l, bk_orders b !! id = Some l <-> (id, l) ∈ idlocs (gorders (both G r));
  rp_ids : forall r, NoDup (oids (gorders (both G r)));
  rp_olocs : forall r, NoDup (olocs (gorders (both G r)));
  rp_llocs : forall r, NoDup (map gl_loc (both G r));
  rp_ofresh : forall r, Forall (fun l => l < h_next (bk_heap b))%positive (olocs (gorders (both G r)));
  rp_lfresh : forall r, Forall (fun l => l < h_next (bk_heap b))%positive (map gl_loc (both G r))
}.

Definition abs_book (b : Book) (G : ghost) : Snapshot :=
  mkSnapshot (bk_Symbol b) (bk_nextTradeSeq b) (abs_side (G refBids)) (abs_side (G refAsks)).

(** [b] represents the abstract book [s]. *)
Definition repr (b : Book) (s : Snapshot) : Prop :=
  exists G, rep b G /\ abs_book b G = s /\ core_ok s.

Lemma gorders_app gs gs' : gorders (gs ++ gs') = gorders gs ++ gorders gs'.
Proof. unfold gorders. by rewrite map_app, concat_app. Qed.

Lemma gorders_cons g gs : gorders (g :: gs) = gl_orders g ++ gorders gs.
Proof. done. Qed.

Lemma both_swap G r : both G (other r) ≡ₚ both G r.
Proof. unfold both. destruct r; simpl; apply Permutation_app_comm. Qed.

Lemma gorders_perm gs gs' : gs ≡ₚ gs' -> gorders gs ≡ₚ gorders gs'.
Proof. intros H. unfold gorders. induction H; simpl; [done| | |by etrans].
  - by f_equiv.
  - rewrite !app_assoc. f_equiv. apply Permutation_app_comm.
Qed.

(** A fact about all levels that does not depend on their order holds for both
    presentations of the book once it holds for one. *)
Lemma both_any (P : list glevel -> Prop) (G : ghost) r :
  (forall gs gs', gs ≡ₚ gs' -> P gs -> P gs') -> P (both G r) -> forall r', P (both G r').
Proof.
  intros HP H r'. destruct r, r'; try done; (eapply HP; [|exact H]).
  - symmetry. apply (both_swap G refBids).
  - symmetry. apply (both_swap G refAsks).
Qed.

Lemma ghost_set_eq G r gs : ghost_set G r gs r = gs.
Proof. unfold ghost_set. by rewrite decide_True. Qed.
Lemma ghost_set_other G r gs : ghost_set G r gs (other r) = G (other r).
Proof. unfold ghost_set. rewrite decide_False; [done|]. by destruct r. Qed.

Lemma side_cases r r' : r' = r \/ r' = other r.
Proof. destruct r, r'; auto. Qed.

Lemma both_set G r gs : both (ghost_set G r gs) r = gs ++ G (other r).
Proof. unfold both. by rewrite ghost_set_eq, ghost_set_other. Qed.

(** Replacing one side of a represented book. *)
Lemma rep_set b b' G r gs ol ll :
  rep b G ->
  get_side (other r) b' = get_side (other r) b ->
  sb_isBid (get_side r b') = is_bid r ->
  sb_prices (get_side r b') = map gl_price gs ->
  (forall p l, sb_levels (get_side r b') !! p = Some l <-> (p, l) ∈ keys gs) ->
  prices_sorted (is_bid r) (map gl_price gs) ->
  hframe ol ll (bk_heap b) (bk_heap b') ->
  Forall (fun g => (gl_loc g ∉ ll) /\ (forall l, l ∈ olocs (gl_orders g) -> l ∉ ol)) (G (other r)) ->
  Forall (level_core (bk_heap b')) gs ->
  Forall (level_shape r) gs ->
  (forall id l, bk_orders b' !! id = Some l <-> (id, l) ∈ idlocs (gorders (gs ++ G (other r)))) ->
  NoDup (oids (gorders (gs ++ G (other r)))) ->
  NoDup (olocs (gorders (gs ++ G (other r)))) ->
  NoDup (map gl_loc (gs ++ G (other r))) ->
  Forall (fun l => l < h_next (bk_heap b'))%positive (olocs (gorders gs)) ->
  Forall (fun l => l < h_next (bk_heap b'))%positive (map gl_loc gs) ->
  rep b' (ghost_set G r gs).
Proof.
  intros R Hother Hflag Hprices Hlevels Hsorted Hframe Hsep Hcore Hshape Hord Hids Hol Hll Hof Hlf.
  assert (forall (P : sideRef -> list glevel -> Prop),
            P r gs -> P (other r) (G (other r)) -> forall r', P r' (ghost_set G r gs r')) as Hcases.
  { intros P H1 H2 r'. destruct (side_cases r r') as [->| ->];
      by rewrite ?ghost_set_eq, ?ghost_set_other. }
  constructor.
  - intros r'. destruct (side_cases r r') as [->| ->]; [done|]. rewrite Hother. apply R.
  - apply (Hcases (fun r' gs' => sb_prices (get_side r' b') = map gl_price gs')); [done|].
    rewrite Hother. apply R.
  - apply (Hcases (fun r' gs' => forall p l, sb_levels (get_side r' b') !! p = Some l <-> (p, l) ∈ keys gs'));
      [done|]. rewrite Hother. apply R.
  - apply (Hcases (fun r' gs' => prices_sorted (is_bid r') (map gl_price gs'))); [done|]. apply R.
  - apply (Hcases (fun r' gs' => Forall (level_core (bk_heap b')) gs')); [done|].
    pose proof (rp_core _ _ R (other r)) as HF. rewrite Forall_forall in HF, Hsep |- *.
    intros g Hg. destruct (Hsep g Hg). by eapply level_core_frame; eauto.
  - apply (Hcases (fun r' gs' => Forall (level_shape r') gs')); [done|]. apply R.
  - apply (both_any (fun all => forall id l, bk_orders b' !! id = Some l <-> (id, l) ∈ idlocs (gorders all)) _ r).
    + intros ?? Hp HP id l. rewrite HP. unfold idlocs. by rewrite (gorders_perm _ _ Hp).
    + by rewrite both_set.
  - apply (both_any (fun all => NoDup (oids (gorders all))) _ r); [|by rewrite both_set].
    intros ?? Hp. unfold oids. by rewrite (gorders_perm _ _ Hp).
  - apply (both_any (fun all => NoDup (olocs (gorders all))) _ r); [|by rewrite both_set].
    intros ?? Hp. unfold olocs. by rewrite (gorders_perm _ _ Hp).
  - apply (both_any (fun all => NoDup (map gl_loc all)) _ r); [|by rewrite both_set].
    intros ?? Hp. by rewrite Hp.
  - apply (both_any (fun all => Forall _ (olocs (gorders all))) _ r).
    + intros ?? Hp. unfold olocs. by rewrite (gorders_perm _ _ Hp).
    + rewrite both_set, gorders_app, olocs_app. apply Forall_app. split; [done|].
      pose proof (rp_ofresh _ _ R (other r)) as HF. unfold both in HF.
      rewrite gorders_app, olocs_app in HF. apply Forall_app in HF as [HF _].
      eapply Forall_impl; [exact HF|]. simpl. intros l Hl. pose proof (hf_next _ _ _ _ Hframe). lia.
  - apply (both_any (fun all => Forall _ (map gl_loc all)) _ r).
    + intros ?? Hp. by rewrite Hp.
    + rewrite both_set, map_app. apply Forall_app. split; [done|].
      pose proof (rp_lfresh _ _ R (other r)) as HF. unfold both in HF.
      rewrite map_app in HF. apply Forall_app in HF as [HF _].
      eapply Forall_impl; [exact HF|]. simpl. intros l Hl. pose proof (hf_next _ _ _ _ Hframe). lia.
Qed.
