(* ===== verification/BookRefine.v ===== *)
(** * BookRefine: the code of the book computes the specification

    Every operation of [Book] is shown to run without panic or loss of fuel on a
    represented book and to have the effect the specification gives it.  The
    theorem [Apply_repr] is the refinement for whole commands. *)

From S2P Require Import Prelude Model Book BookSpec BookRep.

#[global] Arguments removeLevelIfEmpty : simpl never.
#[global] Arguments PriceLevel_append : simpl never.
#[global] Arguments PriceLevel_remove : simpl never.
#[global] Arguments getOrCreateLevel : simpl never.
#[global] Arguments removeActive : simpl never.
#[global] Arguments rest : simpl never.

(** ** Focusing on one level or one order *)

(** The levels in [gs] are disjoint from the level [g]. *)
Definition apart (g : glevel) (gs : list glevel) : Prop :=
  Forall (fun g' => (gl_loc g' ∉ [gl_loc g]) /\
                    (forall l, l ∈ olocs (gl_orders g') -> l ∉ olocs (gl_orders g))) gs.

Lemma olocs_gorders_elem g gs l :
  g ∈ gs -> l ∈ olocs (gl_orders g) -> l ∈ olocs (gorders gs).
Proof.
  intros (gs1 & gs2 & ->)%list_elem_of_split Hl.
  rewrite gorders_app, gorders_cons, !olocs_app, !elem_of_app. auto.
Qed.

Lemma rep_focus b G r g1 g g2 :
  rep b G -> G r = g1 ++ g :: g2 ->
  level_core (bk_heap b) g /\ level_shape r g /\ NoDup (olocs (gl_orders g)) /\
  apart g (g1 ++ g2 ++ G (other r)).
Proof.
  intros R E. pose proof (rp_core _ _ R r) as Hc. pose proof (rp_shape _ _ R r) as Hs.
  pose proof (rp_olocs _ _ R r) as Ho. pose proof (rp_llocs _ _ R r) as Hl.
  unfold both in *. rewrite E in *. rewrite <-app_assoc in Ho, Hl. simpl in Ho, Hl.
  apply Forall_app in Hc as [_ Hc]. apply Forall_app in Hs as [_ Hs].
  apply Forall_cons in Hc as [Hc _]. apply Forall_cons in Hs as [Hs _].
  assert (NoDup (olocs (gl_orders g ++ gorders (g1 ++ g2 ++ G (other r))))) as Ho'.
  { rewrite <-gorders_cons. unfold olocs in *.
    rewrite (gorders_perm (g :: _) (g1 ++ g :: g2 ++ G (other r))); [done|].
    apply Permutation_middle. }
  rewrite olocs_app in Ho'. apply NoDup_app in Ho' as (Hn & Hd & _).
  rewrite map_app in Hl. simpl in Hl. apply NoDup_middle in Hl as (Hl1 & Hl2 & _).
  split_and!; [done|done|done|]. apply Forall_forall. intros g' Hg'. split.
  - rewrite list_elem_of_singleton. intros Heq.
    assert (gl_loc g ∈ map gl_loc (g1 ++ g2 ++ G (other r))) as Hin.
    { rewrite <-Heq. apply list_elem_of_fmap. eauto. }
    rewrite map_app, elem_of_app in Hin. tauto.
  - intros l Hl' Hl''. apply (Hd l Hl''). by eapply olocs_gorders_elem.
Qed.

Lemma apart_cores b h' g ol gs :
  apart g gs -> hframe (ol ++ olocs (gl_orders g)) [gl_loc g] (bk_heap b) h' ->
  Forall (fun g' => forall l, l ∈ ol -> l ∉ olocs (gl_orders g')) gs ->
  Forall (level_core (bk_heap b)) gs -> Forall (level_core h') gs.
Proof.
  unfold apart. intros Ha Hf Hol Hc. rewrite Forall_forall in *. intros g' Hg'.
  destruct (Ha g' Hg') as [H1 H2].
  eapply level_core_frame; [exact Hf|done| |by apply Hc].
  intros l Hl Hin. apply elem_of_app in Hin as [Hin|Hin]; [by eapply Hol|by eapply H2].
Qed.

Lemma sorted_middle isBid (ps1 ps2 : list Z) p :
  prices_sorted isBid (ps1 ++ p :: ps2) -> prices_sorted isBid (ps1 ++ ps2).
Proof.
  rewrite !StronglySorted_app. intros (H1 & H2 & H3). apply StronglySorted_cons in H3 as [_ H3].
  split_and!; [|done|done]. intros x y Hx Hy. apply H1; [done|by right].
Qed.

Lemma sorted_notin isBid (ps1 ps2 : list Z) p :
  prices_sorted isBid (ps1 ++ p :: ps2) -> p ∉ ps1 ++ ps2.
Proof.
  intros H. apply StronglySorted_app in H as (H1 & _ & H3).
  apply StronglySorted_cons in H3 as [H3 _]. rewrite Forall_forall in H3.
  intros [Hp|Hp]%elem_of_app.
  - eapply better_irrefl, (H1 p p Hp). left.
  - by eapply better_irrefl, H3.
Qed.

(** ** removeActive *)

(** A level with the queue [os]; none when it is empty. *)
Definition gcons (g : glevel) (os : list gorder) : list glevel :=
  match os with
  | [] => []
  | _ => [gl_with g os]
  end.

Lemma gorders_gcons g os : gorders (gcons g os) = os.
Proof. destruct os; simpl; [done|]. unfold gorders. simpl. by rewrite app_nil_r. Qed.

Lemma gcons_Forall (P : glevel -> Prop) g os :
  (os <> [] -> P (gl_with g os)) -> Forall P (gcons g os).
Proof. destruct os; simpl; [constructor|]. intros H. constructor; [by apply H|constructor]. Qed.

Lemma gcons_keys g os pl : pl ∈ keys (gcons g os) -> pl = (gl_price g, gl_loc g).
Proof. destruct os; simpl; [by intros ?%not_elem_of_nil|]. by intros ->%list_elem_of_singleton. Qed.

Definition remove_side (s : sideBook) (p : Z) (i : nat) (empty : bool) : sideBook :=
  if empty then mkSideBook (delete p (sb_levels s)) (take i (sb_prices s) ++ drop (i + 1) (sb_prices s)) (sb_isBid s)
  else s.

Lemma get_put_side r s b : get_side r (put_side r s b) = s.
Proof. by destruct r. Qed.
Lemma get_put_other r s b : get_side (other r) (put_side r s b) = get_side (other r) b.
Proof. by destruct r. Qed.
Lemma put_put_side r s s' b : put_side r s (put_side r s' b) = put_side r s b.
Proof. by destruct r. Qed.
Lemma put_side_heap r s b : bk_heap (put_side r s b) = bk_heap b.
Proof. by destruct r. Qed.
Lemma get_side_set_heap r h b : get_side r (set_heap h b) = get_side r b.
Proof. by destruct r. Qed.
Lemma put_side_id r b : put_side r (get_side r b) b = b.
Proof. destruct b; by destruct r. Qed.

Lemma removeLevelIfEmpty_spec b r g ps1 ps2 :
  h_levels (bk_heap b) !! gl_loc g = Some (level_record g) ->
  sb_isBid (get_side r b) = is_bid r ->
  prices_sorted (is_bid r) (sb_prices (get_side r b)) ->
  sb_prices (get_side r b) = ps1 ++ gl_price g :: ps2 ->
  removeLevelIfEmpty r (Some (gl_loc g)) b =
  Ret (tt, put_side r (remove_side (get_side r b) (gl_price g) (length ps1)
                         (match gl_orders g with [] => true | _ => false end)) b).
Proof.
  intros Hr Hflag Hs Hp. unfold removeLevelIfEmpty.
  erewrite (bind_Ret (load_level _)) by (by apply load_level_ok).
  unfold level_record. simpl. destruct (gl_orders g) as [|[l o] os]; simpl.
  - erewrite (bind_Ret (update_side _ _)) by reflexivity.
    erewrite (bind_Ret (load_side _)) by reflexivity. rewrite get_put_side.
    erewrite (bind_Ret (lift _)).
    2:{ rewrite (findPriceIndex_ok _ ps1 (gl_price g) ps2); [reflexivity| |done].
        simpl. by rewrite Hflag. }
    rewrite (proj2 (Z.leb_le _ _)) by lia. unfold update_side.
    rewrite get_put_side, put_put_side, Nat2Z.id. done.
  - by rewrite put_side_id.
Qed.

Lemma take_drop_middle (ps1 ps2 : list Z) p :
  take (length ps1) (ps1 ++ p :: ps2) ++ drop (length ps1 + 1) (ps1 ++ p :: ps2) = ps1 ++ ps2.
Proof. by rewrite take_app_length, drop_app_add. Qed.

(** The map of a side loses exactly the key of a removed level. *)
Lemma keys_remove (m : gmap Z loc) g1 g g2 isBid :
  prices_sorted isBid (map gl_price (g1 ++ g :: g2)) ->
  (forall p l, m !! p = Some l <-> (p, l) ∈ keys (g1 ++ g :: g2)) ->
  forall p l, delete (gl_price g) m !! p = Some l <-> (p, l) ∈ keys (g1 ++ g2).
Proof.
  intros Hs Hm p l. rewrite map_app in Hs. simpl in Hs. apply sorted_notin in Hs.
  unfold keys in *. rewrite lookup_delete_Some, Hm, !map_app. simpl.
  rewrite !elem_of_app, elem_of_cons. split.
  - intros [Hne [H|[[= -> ->]|H]]]; auto. done.
  - intros H. split; [|tauto]. intros <-. apply Hs. rewrite <-map_app.
    rewrite <-elem_of_app, <-map_app in H.
    apply list_elem_of_fmap in H as (g' & [= ? ?] & Hg'). apply list_elem_of_fmap. eauto.
Qed.

(** The order index loses exactly the ID of a removed order. *)
Lemma idlocs_remove (m : gmap Z loc) A l o B :
  NoDup (oids (A ++ (l, o) :: B)) ->
  (forall id l', m !! id = Some l' <-> (id, l') ∈ idlocs (A ++ (l, o) :: B)) ->
  forall id l', delete (os_ID o) m !! id = Some l' <-> (id, l') ∈ idlocs (A ++ B).
Proof.
  unfold oids, idlocs. intros Hn Hm id l'. rewrite lookup_delete_Some, Hm, !map_app. simpl.
  rewrite map_app in Hn. simpl in Hn. apply NoDup_middle in Hn as (Hn1 & Hn2 & _).
  rewrite !elem_of_app, elem_of_cons. split.
  - intros [Hne [H|[[= -> ->]|H]]]; auto. done.
  - intros H. split; [|tauto]. intros <-.
    destruct H as [H|H]; apply list_elem_of_fmap in H as ([lx ox] & [= Hid ->] & Hx);
      [apply Hn1|apply Hn2]; apply list_elem_of_fmap; exists (lx, ox); done.
Qed.

(** What an operation on the side [r] leaves alone. *)
Record same_rest (b b' : Book) : Prop := {
  sr_symbol : bk_Symbol b' = bk_Symbol b;
  sr_nts : bk_nextTradeSeq b' = bk_nextTradeSeq b
}.

Lemma keys_gl_with g1 g g2 os : keys (g1 ++ gl_with g os :: g2) = keys (g1 ++ g :: g2).
Proof. unfold keys. by rewrite !map_app. Qed.

Lemma prices_gl_with g1 g g2 os :
  map gl_price (g1 ++ gl_with g os :: g2) = map gl_price (g1 ++ g :: g2).
Proof. by rewrite !map_app. Qed.

(** The side after [remove_side] is the one of the ghost levels left. *)
Lemma remove_side_spec b G r g1 g g2 os :
  rep b G -> G r = g1 ++ g :: g2 ->
  let s := remove_side (get_side r b) (gl_price g) (length (map gl_price g1))
             (match os with [] => true | _ => false end) in
  sb_isBid s = is_bid r /\
  sb_prices s = map gl_price (g1 ++ gcons g os ++ g2) /\
  (forall p l, sb_levels s !! p = Some l <-> (p, l) ∈ keys (g1 ++ gcons g os ++ g2)) /\
  prices_sorted (is_bid r) (map gl_price (g1 ++ gcons g os ++ g2)).
Proof.
  intros R E. pose proof (rp_flag _ _ R r) as Hf. pose proof (rp_prices _ _ R r) as Hp.
  pose proof (rp_levels _ _ R r) as Hl. pose proof (rp_sorted _ _ R r) as Hs. rewrite E in *.
  destruct os as [|x os]; simpl.
  - split_and!; [done| |by eapply keys_remove|].
    + rewrite Hp, !map_app. apply take_drop_middle.
    + rewrite map_app in *. simpl in Hs. by eapply sorted_middle.
  - rewrite keys_gl_with, prices_gl_with. done.
Qed.

(** Replacing the queue of one level by [os]. *)
Lemma rep_level b b' G r g1 g g2 os ol :
  rep b G -> G r = g1 ++ g :: g2 ->
  get_side r b' = remove_side (get_side r b) (gl_price g) (length (map gl_price g1))
                    (match os with [] => true | _ => false end) ->
  get_side (other r) b' = get_side (other r) b ->
  hframe (ol ++ olocs (gl_orders g)) [gl_loc g] (bk_heap b) (bk_heap b') ->
  (forall l, l ∈ ol -> l ∉ olocs (gorders (both G r))) ->
  level_core (bk_heap b') (gl_with g os) ->
  Forall (fun x => side_of (os_Side x.2) = r /\ os_Price x.2 = gl_price g) os ->
  (forall id l, bk_orders b' !! id = Some l <->
     (id, l) ∈ idlocs (gorders g1 ++ os ++ gorders g2 ++ gorders (G (other r)))) ->
  NoDup (oids (gorders g1 ++ os ++ gorders g2 ++ gorders (G (other r)))) ->
  NoDup (olocs (gorders g1 ++ os ++ gorders g2 ++ gorders (G (other r)))) ->
  Forall (fun l => l < h_next (bk_heap b'))%positive (olocs os) ->
  rep b' (ghost_set G r (g1 ++ gcons g os ++ g2)).
Proof.
  intros R E Hside Hother Hf Hol Hc Hos Hord Hids Hlocs Hfr.
  destruct (rep_focus _ _ _ _ _ _ R E) as (Hc0 & Hsh & Hnd & Hap).
  destruct (remove_side_spec _ _ _ _ _ _ os R E) as (Sf & Sp & Sl & Ss).
  rewrite <-Hside in Sf, Sp, Sl. clear Hside.
  assert (gorders ((g1 ++ gcons g os ++ g2) ++ G (other r))
          = gorders g1 ++ os ++ gorders g2 ++ gorders (G (other r))) as Eg.
  { by rewrite !gorders_app, gorders_gcons, <-!app_assoc. }
  assert (Forall (fun g' => forall l, l ∈ ol -> l ∉ olocs (gl_orders g')) (g1 ++ g2 ++ G (other r))) as Hol'.
  { apply Forall_forall. intros g' Hg' l Hl Hin. apply (Hol l Hl).
    eapply (olocs_gorders_elem g'); [|done]. unfold both. rewrite E. set_solver. }
  pose proof (rp_core _ _ R r) as Hcr. pose proof (rp_shape _ _ R r) as Hsr. rewrite E in Hcr, Hsr.
  apply Forall_app in Hcr as [Hcr1 [_ Hcr2]%Forall_cons].
  apply Forall_app in Hsr as [Hsr1 [_ Hsr2]%Forall_cons].
  pose proof (apart_cores b _ g ol (g1 ++ g2 ++ G (other r)) Hap Hf Hol') as Hcores.
  rewrite !Forall_app in Hcores.
  destruct (Hcores (conj Hcr1 (conj Hcr2 (rp_core _ _ R (other r))))) as (Hcr1' & Hcr2' & _).
  pose proof (rp_ofresh _ _ R r) as Hof. pose proof (rp_lfresh _ _ R r) as Hlf.
  pose proof (rp_llocs _ _ R r) as Hll. unfold both in Hof, Hlf, Hll.
  rewrite E in Hof, Hlf, Hll. rewrite !gorders_app, gorders_cons, !olocs_app, !Forall_app in Hof.
  rewrite !map_app, !Forall_app in Hlf. simpl in Hlf. rewrite Forall_cons in Hlf.
  pose proof (hf_next _ _ _ _ Hf) as Hn.
  assert (forall ls, Forall (fun l => l < h_next (bk_heap b))%positive ls ->
                     Forall (fun l => l < h_next (bk_heap b'))%positive ls) as Hmono.
  { intros ls HF. eapply Forall_impl; [exact HF|]. simpl. lia. }
  eapply rep_set; [exact R|exact Hother|exact Sf|exact Sp|exact Sl|exact Ss|exact Hf|..].
  - unfold apart in Hap. rewrite !Forall_app in Hap, Hol'. destruct Hap as (_ & _ & Hap).
    destruct Hol' as (_ & _ & Hol'). rewrite Forall_forall in Hap, Hol' |- *.
    intros g' Hg'. destruct (Hap g' Hg') as [H1 H2]. split; [done|].
    intros l Hl [Hin|Hin]%elem_of_app; [by eapply Hol'|by eapply H2].
  - rewrite !Forall_app. split_and!; [done| |done]. by apply gcons_Forall.
  - rewrite !Forall_app. split_and!; [done| |done]. apply gcons_Forall. intros Hne.
    rewrite Forall_and in Hos. destruct Hos. by constructor.
  - by rewrite Eg.
  - by rewrite Eg.
  - by rewrite Eg.
  - eapply sublist_NoDup; [exact Hll|]. rewrite !map_app, <-!app_assoc. simpl.
    apply sublist_app; [done|]. destruct os; simpl; [by apply sublist_cons|done].
  - rewrite !gorders_app, gorders_gcons, !olocs_app, !Forall_app. naive_solver.
  - rewrite !map_app, !Forall_app. split_and!; [naive_solver| |naive_solver].
    destruct os; simpl; [constructor|]. constructor; [|constructor]. simpl. lia.
Qed.

(** The book after an order left the level [g], which keeps the orders [os]. *)
Definition removed_book (b : Book) (r : sideRef) (g1 : list glevel) (g : glevel) (os : list gorder) (id : Z) (h' : Heap) : Book :=
  set_orders (delete id (bk_orders b))
    (put_side r (remove_side (get_side r b) (gl_price g) (length (map gl_price g1)) match os with [] => true | _ => false end)
      (set_heap h' b)).

Lemma removed_book_heap b r g1 g os id h' : bk_heap (removed_book b r g1 g os id h') = h'.
Proof. by destruct r. Qed.

Lemma removeActive_run b G r g1 g g2 os l o pr nx h' :
  rep b G -> G r = g1 ++ g :: g2 -> side_of (os_Side o) = r ->
  h_orders (bk_heap b) !! l = Some (mk_order o pr nx (Some (gl_loc g))) ->
  PriceLevel_remove (Some (gl_loc g)) (Some l) b = Ret (tt, set_heap h' b) ->
  level_core h' (gl_with g os) -> h_orders h' !! l = Some (mk_order o None None None) ->
  removeActive (Some l) b = Ret (tt, removed_book b r g1 g os (os_ID o) h').
Proof.
  intros R E Hside Hl Hrun Hc' Hl'.
  unfold removeActive. erewrite (bind_Ret (load_order _)) by (by apply load_order_ok). simpl.
  rewrite Hside. erewrite (bind_Ret (PriceLevel_remove _ _)) by exact Hrun.
  erewrite (bind_Ret (removeLevelIfEmpty _ _)).
  2:{ apply (removeLevelIfEmpty_spec _ r (gl_with g os) (map gl_price g1) (map gl_price g2)).
      - apply Hc'.
      - rewrite get_side_set_heap. apply R.
      - rewrite get_side_set_heap, (rp_prices _ _ R). apply R.
      - rewrite get_side_set_heap, (rp_prices _ _ R), E, map_app. done. }
  erewrite (bind_Ret (load_order _)).
  2:{ apply load_order_ok. rewrite put_side_heap. exact Hl'. }
  rewrite get_side_set_heap. unfold removed_book. destruct r; done.
Qed.

Lemma removeActive_spec b G r g1 g g2 o1 l o o2 :
  rep b G -> G r = g1 ++ g :: g2 -> gl_orders g = o1 ++ (l, o) :: o2 ->
  exists b', removeActive (Some l) b = Ret (tt, b') /\
    rep b' (ghost_set G r (g1 ++ gcons g (o1 ++ o2) ++ g2)) /\
    same_rest b b' /\
    h_orders (bk_heap b') !! l = Some (mk_order o None None None) /\
    hframe (olocs (gl_orders g)) [gl_loc g] (bk_heap b) (bk_heap b').
Proof.
  intros R E Eo. destruct (rep_focus _ _ _ _ _ _ R E) as (Hc & Hsh & Hnd & Hap).
  destruct (dlseg_lookup _ _ _ _ _ l o (lc_queue _ _ Hc)) as (pr & nx & Hl).
  { rewrite Eo. apply elem_of_app. right. left. }
  assert (side_of (os_Side o) = r) as Hside.
  { pose proof (ls_side _ _ Hsh) as HF. rewrite Eo in HF. by apply Forall_elt in HF. }
  rewrite Eo in Hnd.
  destruct (remove_spec b g o1 l o o2 Hc Eo Hnd) as (h' & Hrun & Hc' & Hl' & Hf).
  destruct (remove_side_spec _ _ _ _ _ _ (o1 ++ o2) R E) as (Sf & Sp & Sl & Ss).
  set (b' := removed_book b r g1 g (o1 ++ o2) (os_ID o) h').
  assert (bk_heap b' = h') as Hheap by apply removed_book_heap.
  exists b'. split; [by eapply removeActive_run|].
  rewrite Hheap. split_and!; [|by destruct r|done|done].
  pose proof (rp_olocs _ _ R r) as Ho. pose proof (rp_ids _ _ R r) as Hi.
  pose proof (rp_orders _ _ R r) as Hm. pose proof (rp_ofresh _ _ R r) as Hof.
  assert (gorders (both G r) = (gorders g1 ++ o1) ++ (l, o) :: o2 ++ gorders g2 ++ gorders (G (other r))) as Eall.
  { unfold both. rewrite E, !gorders_app, gorders_cons, Eo, <-!app_assoc. done. }
  rewrite Eall in *.
  assert (gorders g1 ++ (o1 ++ o2) ++ gorders g2 ++ gorders (G (other r))
          = (gorders g1 ++ o1) ++ o2 ++ gorders g2 ++ gorders (G (other r))) as Enew
    by by rewrite <-!app_assoc.
  eapply (rep_level b _ G r g1 g g2 (o1 ++ o2) []); rewrite ?Hheap, ?Enew.
  - exact R.
  - exact E.
  - by destruct r.
  - by destruct r.
  - done.
  - by intros ? ?%not_elem_of_nil.
  - done.
  - rewrite Forall_and. destruct Hsh as [H1 H2 _]. rewrite Eo in H1, H2.
    rewrite !Forall_app, !Forall_cons in H1, H2. rewrite !Forall_app. tauto.
  - replace (bk_orders _) with (delete (os_ID o) (bk_orders b)) by by destruct r.
    by apply (idlocs_remove _ _ l).
  - unfold oids in *. rewrite map_app in Hi |- *. simpl in Hi. by apply NoDup_middle in Hi as (_ & _ & ?).
  - unfold olocs in *. rewrite map_app in Ho |- *. simpl in Ho. by apply NoDup_middle in Ho as (_ & _ & ?).
  - unfold olocs in *. rewrite !map_app, !Forall_app in Hof. simpl in Hof.
    rewrite Forall_cons, !map_app, !Forall_app in Hof. rewrite map_app, Forall_app.
    pose proof (hf_next _ _ _ _ Hf). destruct Hof as ([_ F1] & _ & F2 & _).
    split; (eapply Forall_impl; [eassumption|]); simpl; lia.
Qed.

(** ** The abstract effect of ghost updates *)

Lemma all_orders_abs gs : all_orders (abs_side gs) = map snd (gorders gs).
Proof.
  induction gs as [|g gs IH]; [done|]. simpl.
  by rewrite all_orders_cons, gorders_cons, map_app, IH.
Qed.

Lemma abs_side_app gs gs' : abs_side (gs ++ gs') = abs_side gs ++ abs_side gs'.
Proof. apply map_app. Qed.

Lemma oids_snd os : oids os = map os_ID (map snd os).
Proof. unfold oids. by rewrite map_map. Qed.

Lemma level_remove_app id ls ls' :
  level_remove id (ls ++ ls') = level_remove id ls ++ level_remove id ls'.
Proof.
  induction ls as [|l ls IH]; simpl; [done|]. rewrite IH.
  by destruct (drop_order id (pls_Orders l)).
Qed.

Lemma level_remove_notin id gs r :
  id ∉ oids (gorders gs) -> Forall (level_shape r) gs ->
  level_remove id (abs_side gs) = abs_side gs.
Proof.
  intros Hni. induction 1 as [|g gs [_ _ Hg] Hgs IH]; [done|]. simpl.
  unfold oids in *. rewrite gorders_cons, map_app, not_elem_of_app in Hni. destruct Hni as [H1 H2].
  rewrite IH by done. rewrite drop_order_none by (by rewrite map_map).
  unfold abs_level. by destruct (gl_orders g).
Qed.

Lemma level_reduce_notin id q gs :
  id ∉ oids (gorders gs) -> level_reduce id q (abs_side gs) = abs_side gs.
Proof.
  induction gs as [|g gs IH]; intros Hni; [done|]. simpl.
  unfold oids in *. rewrite gorders_cons, map_app, not_elem_of_app in Hni. destruct Hni as [H1 H2].
  rewrite IH by done. f_equal. unfold abs_level. simpl. f_equal.
  rewrite <-(map_id (map snd (gl_orders g))) at 2. apply map_ext_in. intros o Ho.
  unfold reduce_order. rewrite (proj2 (Z.eqb_neq _ _)); [done|]. intros <-. apply H1.
  apply in_map_iff in Ho as (x & <- & Hx). apply list_elem_of_In, in_map_iff. eauto.
Qed.

(** The IDs around a focused order are different from its own. *)
Lemma focus_ids b G r g1 g g2 o1 l o o2 :
  rep b G -> G r = g1 ++ g :: g2 -> gl_orders g = o1 ++ (l, o) :: o2 ->
  (os_ID o ∉ oids (gorders g1)) /\ (os_ID o ∉ oids o1) /\ (os_ID o ∉ oids o2) /\
  (os_ID o ∉ oids (gorders g2)) /\ (os_ID o ∉ oids (gorders (G (other r)))).
Proof.
  intros R E Eo. pose proof (rp_ids _ _ R r) as Hi. unfold both, oids in *.
  rewrite E, !gorders_app, gorders_cons, Eo, <-!app_assoc in Hi. simpl in Hi.
  rewrite !map_app in Hi. simpl in Hi. rewrite (app_assoc (map _ (gorders g1))) in Hi.
  apply NoDup_middle in Hi as (H1 & H2 & _). rewrite !map_app, !not_elem_of_app in *. tauto.
Qed.

Lemma abs_remove b G r g1 g g2 o1 l o o2 :
  rep b G -> G r = g1 ++ g :: g2 -> gl_orders g = o1 ++ (l, o) :: o2 ->
  abs_side (g1 ++ gcons g (o1 ++ o2) ++ g2) = level_remove (os_ID o) (abs_side (G r)).
Proof.
  intros R E Eo. destruct (focus_ids _ _ _ _ _ _ _ _ _ _ R E Eo) as (H1 & H2 & H3 & H4 & _).
  pose proof (rp_shape _ _ R r) as Hs. rewrite E in Hs |- *.
  apply Forall_app in Hs as [Hs1 [_ Hs2]%Forall_cons].
  rewrite !abs_side_app, level_remove_app. simpl.
  rewrite (level_remove_notin _ g1 r), (level_remove_notin _ g2 r) by done.
  f_equal. rewrite Eo, map_app. simpl. rewrite oids_snd in H2, H3.
  rewrite drop_order_app. unfold drop_order at 2. rewrite filter_cons_False by auto.
  fold (drop_order (os_ID o) (map snd o2)). rewrite !drop_order_none, <-map_app by done.
  by destruct (o1 ++ o2).
Qed.

Lemma abs_remove_other b G r g1 g g2 o1 l o o2 :
  rep b G -> G r = g1 ++ g :: g2 -> gl_orders g = o1 ++ (l, o) :: o2 ->
  level_remove (os_ID o) (abs_side (G (other r))) = abs_side (G (other r)).
Proof.
  intros R E Eo. destruct (focus_ids _ _ _ _ _ _ _ _ _ _ R E Eo) as (_ & _ & _ & _ & H5).
  eapply level_remove_notin; [done|]. apply R.
Qed.

Lemma map_reduce_notin id q os :
  id ∉ oids os -> map (reduce_order id q) (map snd os) = map snd os.
Proof.
  unfold oids. intros H. rewrite map_map. apply map_ext_in. intros x Hx. unfold reduce_order.
  rewrite (proj2 (Z.eqb_neq _ _)); [done|]. intros <-. apply H.
  apply list_elem_of_In, in_map_iff. eauto.
Qed.

Lemma abs_reduce b G r g1 g g2 o1 l o o2 q :
  rep b G -> G r = g1 ++ g :: g2 -> gl_orders g = o1 ++ (l, o) :: o2 ->
  abs_side (g1 ++ gcons g (o1 ++ (l, with_leaves q o) :: o2) ++ g2)
  = level_reduce (os_ID o) q (abs_side (G r)).
Proof.
  intros R E Eo. destruct (focus_ids _ _ _ _ _ _ _ _ _ _ R E Eo) as (H1 & H2 & H3 & H4 & _).
  rewrite E, !abs_side_app. unfold level_reduce. rewrite map_app. simpl.
  fold (level_reduce (os_ID o) q (abs_side g1)). fold (level_reduce (os_ID o) q (abs_side g2)).
  rewrite (level_reduce_notin _ _ g1), (level_reduce_notin _ _ g2) by done.
  f_equal. rewrite Eo, !map_app. simpl. rewrite !map_reduce_notin by done.
  unfold reduce_order. rewrite Z.eqb_refl.
  destruct (o1 ++ (l, with_leaves q o) :: o2) eqn:E'; [by destruct o1|]. simpl.
  rewrite <-E'. unfold abs_level, gl_with. simpl. by rewrite map_app.
Qed.

Lemma abs_reduce_other b G r g1 g g2 o1 l o o2 q :
  rep b G -> G r = g1 ++ g :: g2 -> gl_orders g = o1 ++ (l, o) :: o2 ->
  level_reduce (os_ID o) q (abs_side (G (other r))) = abs_side (G (other r)).
Proof.
  intros R E Eo. destruct (focus_ids _ _ _ _ _ _ _ _ _ _ R E Eo) as (_ & _ & _ & _ & H5).
  by apply level_reduce_notin.
Qed.

(** ** rest *)

Lemma split_levels isBid price gs :
  prices_sorted isBid (map gl_price gs) ->
  exists g1 g2, gs = g1 ++ g2 /\ Forall (fun g => better isBid (gl_price g) price) g1 /\
    ((exists g g2', g2 = g :: g2' /\ gl_price g = price) \/
     Forall (fun g => better isBid price (gl_price g)) g2).
Proof.
  induction gs as [|g gs IH]; intros Hs.
  - exists [], []. split_and!; [done|constructor|right; constructor].
  - simpl in Hs. apply StronglySorted_cons in Hs as [Hall Hs].
    destruct (decide (gl_price g = price)) as [Heq|Hne].
    { exists [], (g :: gs). split_and!; [done|constructor|left; eauto]. }
    destruct (betterb isBid (gl_price g) price) eqn:Hb.
    + destruct (IH Hs) as (g1 & g2 & -> & H1 & H2). exists (g :: g1), g2.
      split_and!; [done|by constructor|done].
    + exists [], (g :: gs). split_and!; [done|constructor|right].
      assert (better isBid price (gl_price g)) as Hbt by (by apply betterb_trichotomy).
      constructor; [done|]. rewrite Forall_forall in Hall. apply Forall_forall. intros g' Hg'.
      eapply better_trans; [exact Hbt|]. apply Hall. apply list_elem_of_fmap. eauto.
Qed.

Lemma level_insert_app isBid o ls1 ls2 :
  Forall (fun l => better isBid (pls_Price l) (os_Price o)) ls1 ->
  level_insert isBid o (ls1 ++ ls2) = ls1 ++ level_insert isBid o ls2.
Proof.
  induction 1 as [|l ls1 Hl H IH]; [done|]. simpl.
  destruct (pls_Price l =? os_Price o) eqn:E.
  { apply Z.eqb_eq in E. rewrite E in Hl. by apply better_irrefl in Hl. }
  destruct (betterb isBid (os_Price o) (pls_Price l)) eqn:E'; [|by rewrite IH].
  exfalso. eapply better_irrefl, better_trans; [exact Hl|exact E'].
Qed.

Lemma abs_side_Forall (P : Z -> Prop) gs :
  Forall (fun g => P (gl_price g)) gs -> Forall (fun l => P (pls_Price l)) (abs_side gs).
Proof. induction 1; simpl; by constructor. Qed.

Lemma abs_insert_existing isBid g1 g g2 l o :
  Forall (fun g => better isBid (gl_price g) (os_Price o)) g1 -> gl_price g = os_Price o ->
  abs_side (g1 ++ gcons g (gl_orders g ++ [(l, o)]) ++ g2)
  = level_insert isBid o (abs_side (g1 ++ g :: g2)).
Proof.
  intros H1 Hp. rewrite !abs_side_app, level_insert_app.
  2:{ by apply (abs_side_Forall (fun p => better isBid p (os_Price o))). }
  f_equal. simpl. rewrite Hp, Z.eqb_refl.
  destruct (gl_orders g ++ [(l, o)]) eqn:E; [by destruct (gl_orders g)|].
  simpl. rewrite <-E. unfold abs_level, gl_with. simpl. by rewrite map_app, Hp.
Qed.

Lemma abs_insert_new isBid g1 g2 lv l o :
  Forall (fun g => better isBid (gl_price g) (os_Price o)) g1 ->
  Forall (fun g => better isBid (os_Price o) (gl_price g)) g2 ->
  abs_side (g1 ++ mkG lv (os_Price o) [(l, o)] :: g2)
  = level_insert isBid o (abs_side (g1 ++ g2)).
Proof.
  intros H1 H2. rewrite !abs_side_app, level_insert_app.
  2:{ by apply (abs_side_Forall (fun p => better isBid p (os_Price o))). }
  f_equal. destruct H2 as [|g g2 Hg H2]; [done|]. simpl. rewrite Hg.
  destruct (gl_price g =? os_Price o) eqn:E; [|done].
  apply Z.eqb_eq in E. rewrite E in Hg. by apply better_irrefl in Hg.
Qed.

Definition new_level_heap (price : Z) (h : Heap) : Heap :=
  mkHeap (h_orders h) (<[h_next h := mkPriceLevel price 0 None None]> (h_levels h))
    (Pos.succ (h_next h)).

Definition insert_side (price : Z) (lv : loc) (s : sideBook) : sideBook :=
  let i := insert_pos (sb_isBid s) price (sb_prices s) in
  mkSideBook (<[price := lv]> (sb_levels s))
    (take i (sb_prices s) ++ price :: drop i (sb_prices s)) (sb_isBid s).

Lemma getOrCreateLevel_new b r price :
  sb_levels (get_side r b) !! price = None ->
  prices_sorted (sb_isBid (get_side r b)) (sb_prices (get_side r b)) ->
  getOrCreateLevel r price b =
  Ret (Some (h_next (bk_heap b)),
       put_side r (insert_side price (h_next (bk_heap b)) (get_side r b))
         (set_heap (new_level_heap price (bk_heap b)) b)).
Proof.
  intros Hnone Hs. unfold getOrCreateLevel.
  erewrite (bind_Ret (load_side _)) by reflexivity. rewrite Hnone.
  erewrite (bind_Ret (new_level _)) by reflexivity.
  erewrite (bind_Ret (update_side _ _)) by reflexivity.
  erewrite (bind_Ret (load_side _)) by reflexivity. rewrite get_put_side, get_side_set_heap.
  erewrite (bind_Ret (lift _)) by (rewrite findInsertIndex_ok by done; reflexivity).
  erewrite (bind_Ret (update_side _ _)) by reflexivity.
  erewrite (bind_Ret (load_side _)) by reflexivity. rewrite !get_put_side, put_put_side. simpl.
  set (i := insert_pos _ _ _).
  destruct (slice_insert (sb_prices (get_side r b)) i price) as [E1 E2].
  { apply insert_pos_le. }
  erewrite (bind_Ret (lift _)) by (rewrite E1; reflexivity).
  erewrite (bind_Ret (update_side _ _)) by reflexivity.
  erewrite (bind_Ret (load_side _)) by reflexivity. rewrite !get_put_side, put_put_side. simpl.
  erewrite (bind_Ret (lift _)) by (rewrite E2; reflexivity).
  erewrite (bind_Ret (update_side _ _)) by reflexivity.
  by rewrite get_put_side, put_put_side.
Qed.

Lemma getOrCreateLevel_existing b r price lv :
  sb_levels (get_side r b) !! price = Some lv -> getOrCreateLevel r price b = Ret (Some lv, b).
Proof.
  intros H. unfold getOrCreateLevel. erewrite (bind_Ret (load_side _)) by reflexivity.
  by rewrite H.
Qed.

Lemma data_of_mk_order o p n lv : data_of (mk_order o p n lv) = o.
Proof. by destruct o. Qed.

Lemma level_core_last h g os l o :
  level_core h (gl_with g (os ++ [(l, o)])) ->
  exists pr nx, h_orders h !! l = Some (mk_order o pr nx (Some (gl_loc g))).
Proof.
  intros [_ Hq]. eapply dlseg_lookup; [exact Hq|]. simpl. apply elem_of_app. right. left.
Qed.

(** The index after adding an order. *)
Lemma idlocs_add (m : gmap Z loc) A l o B :
  os_ID o ∉ oids (A ++ B) ->
  (forall id l', m !! id = Some l' <-> (id, l') ∈ idlocs (A ++ B)) ->
  forall id l', <[os_ID o := l]> m !! id = Some l' <-> (id, l') ∈ idlocs (A ++ (l, o) :: B).
Proof.
  unfold oids, idlocs. intros Hni Hm id l'. rewrite lookup_insert_Some, Hm, !map_app. simpl.
  rewrite !elem_of_app, elem_of_cons. split.
  - intros [[<- <-]|[Hne H]]; tauto.
  - intros H. destruct (decide (os_ID o = id)) as [<-|Hne].
    + left. split; [done|]. destruct H as [H|[[= ?]|H]]; [exfalso|done|exfalso]; apply Hni;
        apply list_elem_of_fmap in H as (x & [= Hid _] & Hx); apply list_elem_of_fmap;
        exists x; rewrite elem_of_app; auto.
    + right. split; [done|]. destruct H as [H|[[= ? ?]|H]]; auto. congruence.
Qed.

(** What [rest] achieves for the order [o] at [l] on side [r]. *)
Record rest_post (b b' : Book) (G : ghost) (r : sideRef) (l : loc) (o : OrderSnapshot)
  (gs : list glevel) : Prop := {
  rest_rep : rep b' (ghost_set G r gs);
  rest_abs : abs_side gs = level_insert (is_bid r) o (abs_side (G r));
  rest_same : same_rest b b';
  rest_data : exists ord, h_orders (bk_heap b') !! l = Some ord /\ data_of ord = o
}.

(** What [rest] needs: the order is allocated, not in the book, and its ID is new. *)
Record rest_pre (b : Book) (G : ghost) (r : sideRef) (l : loc) (o : OrderSnapshot) : Prop := {
  rpre_side : side_of (os_Side o) = r;
  rpre_data : exists ord, h_orders (bk_heap b) !! l = Some ord /\ data_of ord = o;
  rpre_loc : l ∉ olocs (gorders (both G r));
  rpre_fresh : (l < h_next (bk_heap b))%positive;
  rpre_id : os_ID o ∉ oids (gorders (both G r))
}.

(** The run of [rest] once the level is there. *)
Lemma rest_run b b1 r l o ord g os h' :
  h_orders (bk_heap b) !! l = Some ord -> data_of ord = o -> side_of (os_Side o) = r ->
  getOrCreateLevel r (os_Price o) b = Ret (Some (gl_loc g), b1) ->
  PriceLevel_append (Some (gl_loc g)) (Some l) b1 = Ret (tt, set_heap h' b1) ->
  level_core h' (gl_with g (os ++ [(l, o)])) ->
  rest (Some l) b = Ret (tt, set_orders (<[os_ID o := l]> (bk_orders b1)) (set_heap h' b1)).
Proof.
  intros Hl <- <- Hget Happ Hc. unfold rest.
  erewrite (bind_Ret (load_order _)) by (by apply load_order_ok).
  erewrite (bind_Ret (getOrCreateLevel _ _)) by exact Hget.
  erewrite (bind_Ret (PriceLevel_append _ _)) by exact Happ.
  destruct (level_core_last _ _ _ _ _ Hc) as (pr & nx & Hl').
  erewrite (bind_Ret (load_order _)) by (apply load_order_ok; exact Hl').
  done.
Qed.

Lemma rest_existing b G r l o g1 g g2 :
  rep b G -> rest_pre b G r l o -> G r = g1 ++ g :: g2 -> gl_price g = os_Price o ->
  Forall (fun g => better (is_bid r) (gl_price g) (os_Price o)) g1 ->
  exists b' gs, rest (Some l) b = Ret (tt, b') /\ rest_post b b' G r l o gs.
Proof.
  intros R [Hside (ord & Hl & Hd) Hloc Hfr Hid] E Hp Hbt.
  destruct (rep_focus _ _ _ _ _ _ R E) as (Hc & Hsh & Hnd & Hap).
  assert (gorders (both G r) = (gorders g1 ++ gl_orders g) ++ gorders g2 ++ gorders (G (other r))) as Eall.
  { unfold both. by rewrite E, !gorders_app, gorders_cons, <-!app_assoc. }
  assert (gorders g1 ++ (gl_orders g ++ [(l, o)]) ++ gorders g2 ++ gorders (G (other r))
          = (gorders g1 ++ gl_orders g) ++ (l, o) :: gorders g2 ++ gorders (G (other r))) as Enew.
  { by rewrite <-!app_assoc. }
  destruct (append_spec b g l ord Hc Hl) as (h' & Hrun & Hc' & Hf); [|done|].
  { rewrite Eall, !olocs_app, !not_elem_of_app in Hloc. tauto. }
  rewrite Hd in Hc'.
  assert (sb_levels (get_side r b) !! os_Price o = Some (gl_loc g)) as Hlv.
  { apply (rp_levels _ _ R). rewrite E. unfold keys. rewrite map_app, elem_of_app. right.
    simpl. rewrite <-Hp. left. }
  eexists _, (g1 ++ gcons g (gl_orders g ++ [(l, o)]) ++ g2). split.
  { eapply rest_run; [done|done|done|by apply getOrCreateLevel_existing|exact Hrun|exact Hc']. }
  set (b' := set_orders _ _). assert (bk_heap b' = h') as Hheap by done.
  pose proof (hf_next _ _ _ _ Hf) as Hn.
  split; [| |done|].
  - eapply (rep_level b b' G r g1 g g2 _ [l] R E); rewrite ?Hheap, ?Enew.
    + destruct (gl_orders g); by destruct r.
    + by destruct r.
    + exact Hf.
    + by intros ? ->%list_elem_of_singleton.
    + exact Hc'.
    + destruct Hsh. apply Forall_app. rewrite Forall_and. split; [done|].
      apply Forall_singleton. by rewrite Hp.
    + apply idlocs_add; [by rewrite <-Eall|]. rewrite <-Eall. apply R.
    + pose proof (rp_ids _ _ R r) as Hi. rewrite Eall in Hi, Hid.
      unfold oids in *. rewrite map_app in *. simpl. apply NoDup_middle.
      rewrite not_elem_of_app in Hid. tauto.
    + pose proof (rp_olocs _ _ R r) as Ho. rewrite Eall in Ho, Hloc.
      unfold olocs in *. rewrite map_app in *. simpl. apply NoDup_middle.
      rewrite not_elem_of_app in Hloc. tauto.
    + pose proof (rp_ofresh _ _ R r) as Hof. rewrite Eall, !olocs_app, !Forall_app in Hof.
      rewrite olocs_app, Forall_app. split; [|apply Forall_singleton; simpl; lia].
      destruct Hof as ([_ Hof] & _). eapply Forall_impl; [exact Hof|]. simpl. lia.
  - rewrite E. by apply abs_insert_existing.
  - destruct (level_core_last _ _ _ _ _ Hc') as (pr & nx & Hl').
    eexists. rewrite Hheap. split; [exact Hl'|apply data_of_mk_order].
Qed.

Lemma hframe_trans ol ll ol' ll' h1 h2 h3 :
  hframe ol ll h1 h2 -> hframe ol' ll' h2 h3 -> hframe (ol ++ ol') (ll ++ ll') h1 h3.
Proof.
  intros [A1 A2 A3] [B1 B2 B3]. split; [| |lia];
    intros l Hl; rewrite not_elem_of_app in Hl; destruct Hl.
  - by rewrite B1, A1.
  - by rewrite B2, A2.
Qed.

Lemma new_level_hframe price h : hframe [] [h_next h] h (new_level_heap price h).
Proof.
  split; simpl; [done| |lia]. intros l Hl. apply lookup_insert_ne. set_solver.
Qed.

Lemma insert_pos_split isBid price g1 g2 :
  Forall (fun g => better isBid (gl_price g) price) g1 ->
  Forall (fun g => better isBid price (gl_price g)) g2 ->
  insert_pos isBid price (map gl_price (g1 ++ g2)) = length g1.
Proof.
  intros H1 H2. rewrite map_app, insert_pos_app by (by apply Forall_map).
  rewrite length_map. destruct H2 as [|g g2 Hg _]; simpl; [lia|].
  destruct (betterb isBid (gl_price g) price) eqn:E; [|lia].
  exfalso. eapply better_irrefl, better_trans; [exact E|exact Hg].
Qed.

(** The side after a new level went in is the one of the ghost levels. *)
Lemma insert_side_spec b G r g1 g2 price lv os :
  rep b G -> G r = g1 ++ g2 ->
  Forall (fun g => better (is_bid r) (gl_price g) price) g1 ->
  Forall (fun g => better (is_bid r) price (gl_price g)) g2 ->
  let s := insert_side price lv (get_side r b) in
  let gs := g1 ++ mkG lv price os :: g2 in
  sb_isBid s = is_bid r /\ sb_prices s = map gl_price gs /\
  (forall p l, sb_levels s !! p = Some l <-> (p, l) ∈ keys gs) /\
  prices_sorted (is_bid r) (map gl_price gs) /\
  sb_levels (get_side r b) !! price = None.
Proof.
  intros R E H1 H2. simpl.
  assert (sb_levels (get_side r b) !! price = None) as Hnone.
  { apply eq_None_not_Some. intros [l Hl]. apply (rp_levels _ _ R) in Hl.
    apply list_elem_of_fmap in Hl as (g & [= Hp _] & Hg). rewrite E in Hg.
    rewrite Forall_forall in H1, H2. apply elem_of_app in Hg as [Hg|Hg].
    - specialize (H1 g Hg). simpl in H1. rewrite <-Hp in H1. by apply better_irrefl in H1.
    - specialize (H2 g Hg). simpl in H2. rewrite <-Hp in H2. by apply better_irrefl in H2. }
  pose proof (rp_sorted _ _ R r) as Hs. rewrite E in Hs.
  rewrite (rp_prices _ _ R), (rp_flag _ _ R), E, insert_pos_split by done.
  split_and!; [done| | | |done].
  - rewrite !map_app. simpl. rewrite take_app_le, drop_app_le by (by rewrite length_map).
    by rewrite take_ge, drop_ge by (by rewrite length_map).
  - intros p l. pose proof (rp_levels _ _ R r p l) as Hl. rewrite E in Hl.
    unfold keys in *. rewrite !map_app in *. simpl.
    rewrite lookup_insert_Some, Hl, !elem_of_app, elem_of_cons.
    split; [naive_solver|]. intros H. destruct (decide (price = p)) as [<-|Hne].
    + left. split; [done|]. destruct H as [H|[[= ?]|H]]; [|done|]; exfalso;
        rewrite Hnone in Hl; destruct Hl as [_ Hl]; by discriminate Hl; apply elem_of_app; auto.
    + right. split; [done|]. destruct H as [H|[[= ??]|H]]; auto. congruence.
  - rewrite !map_app in *. simpl. apply StronglySorted_app in Hs as (Hs1 & Hs2 & Hs3).
    apply StronglySorted_app. split_and!; [|done|].
    + intros x y Hx [->|Hy]%elem_of_cons; [|by apply Hs1].
      apply list_elem_of_fmap in Hx as (g & -> & Hg). rewrite Forall_forall in H1. by apply H1.
    + apply StronglySorted_cons. split; [by apply Forall_map|done].
Qed.

(** The book with a new level for one order is represented. *)
Lemma rest_new_rep b b' G r l o g1 g2 lv h' :
  rep b G -> l ∉ olocs (gorders (both G r)) -> (l < h_next (bk_heap b))%positive ->
  os_ID o ∉ oids (gorders (both G r)) -> side_of (os_Side o) = r ->
  G r = g1 ++ g2 -> lv = h_next (bk_heap b) -> bk_heap b' = h' -> (lv < h_next h')%positive ->
  get_side (other r) b' = get_side (other r) b ->
  bk_orders b' = <[os_ID o := l]> (bk_orders b) ->
  sb_isBid (get_side r b') = is_bid r ->
  sb_prices (get_side r b') = map gl_price (g1 ++ mkG lv (os_Price o) [(l, o)] :: g2) ->
  (forall p l', sb_levels (get_side r b') !! p = Some l' <->
                (p, l') ∈ keys (g1 ++ mkG lv (os_Price o) [(l, o)] :: g2)) ->
  prices_sorted (is_bid r) (map gl_price (g1 ++ mkG lv (os_Price o) [(l, o)] :: g2)) ->
  hframe [l] [lv; lv] (bk_heap b) h' ->
  level_core h' (mkG lv (os_Price o) [(l, o)]) ->
  rep b' (ghost_set G r (g1 ++ mkG lv (os_Price o) [(l, o)] :: g2)).
Proof.
  intros R Hloc Hfr Hid Hside E -> <- Hn Hother Hord Sf Sp Sl Ss Hf Hc.
  set (lv := h_next (bk_heap b)) in *. set (g := mkG lv (os_Price o) [(l, o)]) in *.
  pose proof (rp_lfresh _ _ R r) as Hlf. pose proof (rp_ofresh _ _ R r) as Hof.
  pose proof (rp_llocs _ _ R r) as Hll. pose proof (rp_olocs _ _ R r) as Hol.
  pose proof (rp_ids _ _ R r) as Hi.
  assert (gorders (both G r) = gorders g1 ++ gorders g2 ++ gorders (G (other r))) as Eall.
  { unfold both. by rewrite E, !gorders_app, <-app_assoc. }
  assert (gorders ((g1 ++ g :: g2) ++ G (other r))
          = gorders g1 ++ (l, o) :: gorders g2 ++ gorders (G (other r))) as Enew.
  { by rewrite !gorders_app, gorders_cons, <-!app_assoc. }
  assert (forall g', g' ∈ both G r -> (gl_loc g' ∉ [lv; lv]) /\
            (forall l', l' ∈ olocs (gl_orders g') -> l' ∉ [l])) as Hsep.
  { intros g' Hg'. split.
    - assert (gl_loc g' < lv)%positive as Hlt.
      { rewrite Forall_forall in Hlf. apply Hlf, list_elem_of_fmap. eauto. }
      intros Hin. rewrite !elem_of_cons, elem_of_nil in Hin. lia.
    - intros l' Hl' ->%list_elem_of_singleton. apply Hloc. by eapply olocs_gorders_elem. }
  eapply rep_set; [exact R|exact Hother|exact Sf|exact Sp|exact Sl|exact Ss|exact Hf|..];
    rewrite ?Enew, ?Hord.
  - apply Forall_forall. intros g' Hg'. apply Hsep. unfold both. set_solver.
  - assert (Forall (level_core (bk_heap b')) (g1 ++ g2)) as HF.
    { pose proof (rp_core _ _ R r) as HF. rewrite E in HF. rewrite Forall_forall in HF |- *.
      intros g' Hg'. destruct (Hsep g') as [A B]; [unfold both; rewrite E; set_solver|].
      by eapply level_core_frame; [exact Hf|done|done|apply HF]. }
    rewrite Forall_app, Forall_cons in *. naive_solver.
  - pose proof (rp_shape _ _ R r) as HF. rewrite E in HF. rewrite Forall_app, Forall_cons in *.
    split_and!; [naive_solver| |naive_solver]. split; [by apply Forall_singleton..|done].
  - apply idlocs_add; rewrite <-Eall; [done|apply R].
  - rewrite Eall in Hi, Hid. unfold oids in *. rewrite map_app in *. simpl.
    apply NoDup_middle. rewrite not_elem_of_app in Hid. tauto.
  - rewrite Eall in Hol, Hloc. unfold olocs in *. rewrite map_app in *. simpl.
    apply NoDup_middle. rewrite not_elem_of_app in Hloc. tauto.
  - unfold both in Hll, Hlf. rewrite E, <-app_assoc, map_app in Hll, Hlf.
    rewrite <-app_assoc, map_app. simpl. apply NoDup_middle. rewrite Forall_app in Hlf.
    rewrite !Forall_forall in Hlf.
    split_and!; [| |done]; intros Hin; apply Hlf in Hin; simpl in Hin; unfold lv in Hin; lia.
  - rewrite Eall, !olocs_app, !Forall_app in Hof.
    rewrite gorders_app, gorders_cons, !olocs_app, !Forall_app. pose proof (hf_next _ _ _ _ Hf).
    destruct Hof as (F1 & F2 & _). split_and!.
    + eapply Forall_impl; [exact F1|]. simpl. lia.
    + apply Forall_singleton. simpl. lia.
    + eapply Forall_impl; [exact F2|]. simpl. lia.
  - unfold both in Hlf. rewrite E, !map_app, !Forall_app in Hlf. destruct Hlf as ([F1 F2] & _).
    pose proof (hf_next _ _ _ _ Hf). rewrite map_app, Forall_app. simpl. rewrite Forall_cons.
    split_and!; [|done|]; (eapply Forall_impl; [eassumption|]); simpl; lia.
Qed.

Lemma rest_new b G r l o g1 g2 :
  rep b G -> rest_pre b G r l o -> G r = g1 ++ g2 ->
  Forall (fun g => better (is_bid r) (gl_price g) (os_Price o)) g1 ->
  Forall (fun g => better (is_bid r) (os_Price o) (gl_price g)) g2 ->
  exists b' gs, rest (Some l) b = Ret (tt, b') /\ rest_post b b' G r l o gs.
Proof.
  intros R [Hside (ord & Hl & Hd) Hloc Hfr Hid] E H1 H2.
  set (lv := h_next (bk_heap b)).
  destruct (insert_side_spec _ _ _ _ _ _ lv [(l, o)] R E H1 H2) as (Sf & Sp & Sl & Ss & Hnone).
  pose proof (getOrCreateLevel_new b r (os_Price o) Hnone) as Hget.
  rewrite (rp_flag _ _ R), (rp_prices _ _ R) in Hget. specialize (Hget (rp_sorted _ _ R r)).
  fold lv in Hget. set (b1 := put_side r _ _) in Hget.
  set (g := mkG lv (os_Price o) []).
  assert (level_core (bk_heap b1) g) as Hc.
  { unfold b1. rewrite put_side_heap. split; simpl; [|done]. apply lookup_insert_eq. }
  destruct (append_spec b1 g l ord Hc) as (h' & Hrun & Hc' & Hf);
    [unfold b1; by rewrite put_side_heap|by apply not_elem_of_nil|constructor|].
  rewrite Hd in Hc'. assert (bk_heap b1 = new_level_heap (os_Price o) (bk_heap b)) as Eb1
    by (unfold b1; by rewrite put_side_heap).
  rewrite Eb1 in Hf. pose proof (hframe_trans _ _ _ _ _ _ _ (new_level_hframe _ _) Hf) as Hf'.
  simpl in Hf'. fold lv in Hf'.
  eexists _, (g1 ++ mkG lv (os_Price o) [(l, o)] :: g2). split.
  { eapply (rest_run b b1 r l o ord g []); [done|done|done|exact Hget|exact Hrun|exact Hc']. }
  set (b' := set_orders _ _). assert (bk_heap b' = h') as Hheap by (by destruct r).
  pose proof (hf_next _ _ _ _ Hf) as Hn. simpl in Hn. fold lv in Hn.
  destruct (level_core_last _ _ [] _ _ Hc') as (pr & nx & Hl').
  split; [|rewrite E; by apply abs_insert_new|by destruct r|].
  - assert (get_side r b' = insert_side (os_Price o) lv (get_side r b)) as Es by by destruct r.
    rewrite <-Es in Sf, Sp, Sl.
    eapply (rest_new_rep b b' G r l o g1 g2 lv h'); try done; [lia|by destruct r..].
  - eexists. rewrite Hheap. split; [exact Hl'|apply data_of_mk_order].
Qed.

Lemma rest_spec b G r l o :
  rep b G -> rest_pre b G r l o ->
  exists b' gs, rest (Some l) b = Ret (tt, b') /\ rest_post b b' G r l o gs.
Proof.
  intros R Hpre. destruct (split_levels (is_bid r) (os_Price o) (G r) (rp_sorted _ _ R r))
    as (g1 & g2 & E & H1 & [(g & g2' & -> & Hp)|H2]).
  - by eapply rest_existing.
  - by eapply rest_new.
Qed.

(** ** Frames and in-place changes *)

Lemma rep_ext b G G' : (forall r, G r = G' r) -> rep b G -> rep b G'.
Proof.
  intros E R. assert (forall r, both G r = both G' r) as Eb.
  { intros r. unfold both. by rewrite !E. }
  constructor; intros r; rewrite <-?E, <-?Eb; apply R.
Qed.

Lemma olocs_both G r r' l : l ∈ olocs (gorders (both G r)) -> l ∈ olocs (gorders (both G r')).
Proof.
  intros H. apply (both_any (fun gs => l ∈ olocs (gorders gs)) G r); [|done].
  intros gs gs' Hp. unfold olocs. by rewrite (gorders_perm _ _ Hp).
Qed.

(** Orders outside the book and the trade counter can change freely. *)
Lemma rep_frame b b' G r ol :
  rep b G -> (forall r, get_side r b' = get_side r b) -> bk_orders b' = bk_orders b ->
  hframe ol [] (bk_heap b) (bk_heap b') ->
  (forall l, l ∈ ol -> l ∉ olocs (gorders (both G r))) -> rep b' G.
Proof.
  intros R Hs Ho Hf Hol. pose proof (hf_next _ _ _ _ Hf) as Hn.
  constructor; intros r'; rewrite ?Hs, ?Ho; try apply R.
  - pose proof (rp_core _ _ R r') as HF. rewrite Forall_forall in HF |- *. intros g Hg.
    eapply level_core_frame; [exact Hf|by apply not_elem_of_nil| |by apply HF].
    intros l Hl Hin. apply (Hol l Hin). apply (olocs_both G r').
    eapply olocs_gorders_elem; [|done]. unfold both. set_solver.
  - eapply Forall_impl; [apply R|]. simpl. lia.
  - eapply Forall_impl; [apply R|]. simpl. lia.
Qed.

Lemma dlseg_leaves m lv p o1 l o o2 n ord q :
  NoDup (olocs (o1 ++ (l, o) :: o2)) -> dlseg m lv p (o1 ++ (l, o) :: o2) n ->
  m !! l = Some ord ->
  dlseg (<[l := set_LeavesQty q ord]> m) lv p (o1 ++ (l, with_leaves q o) :: o2) n.
Proof.
  rewrite olocs_app. simpl. intros (H1 & H2 & _)%NoDup_middle [Hq1 [Hl Hq2]]%dlseg_app Ho.
  rewrite Ho in Hl. injection Hl as ->.
  apply dlseg_app. simpl. split_and!.
  - by apply dlseg_insert.
  - apply lookup_insert_eq.
  - by apply dlseg_insert.
Qed.

(** The heap after an order's quantity, and the total of its level, were changed. *)
Definition leaves_heap (lv l : loc) (ord : Order) (v : PriceLevel) (q : Z) (h : Heap) : Heap :=
  mkHeap (<[l := set_LeavesQty q ord]> (h_orders h)) (<[lv := v]> (h_levels h)) (h_next h).

Lemma rep_leaves b b' G r g1 g g2 o1 l o o2 ord v q d :
  rep b G -> G r = g1 ++ g :: g2 -> gl_orders g = o1 ++ (l, o) :: o2 ->
  h_orders (bk_heap b) !! l = Some ord ->
  v = set_TotalQty (i64_sub (lvl_TotalQty (level_record g)) d) (level_record g) ->
  d = os_LeavesQty o - q ->
  bk_heap b' = leaves_heap (gl_loc g) l ord v q (bk_heap b) ->
  (forall r, get_side r b' = get_side r b) -> bk_orders b' = bk_orders b ->
  rep b' (ghost_set G r (g1 ++ gcons g (o1 ++ (l, with_leaves q o) :: o2) ++ g2)).
Proof.
  intros R E Eo Hl -> -> Hheap Hs Ho.
  destruct (rep_focus _ _ _ _ _ _ R E) as ([Hr Hq] & [Hs1 Hs2 _] & Hnd & Hap).
  rewrite Eo in Hq, Hnd, Hs1, Hs2.
  assert (forall A B, oids (A ++ (o1 ++ (l, with_leaves q o) :: o2) ++ B)
                      = oids (A ++ (o1 ++ (l, o) :: o2) ++ B)) as E1.
  { intros A B. unfold oids. by rewrite !map_app. }
  assert (forall A B, olocs (A ++ (o1 ++ (l, with_leaves q o) :: o2) ++ B)
                      = olocs (A ++ (o1 ++ (l, o) :: o2) ++ B)) as E2.
  { intros A B. unfold olocs. by rewrite !map_app. }
  assert (gorders g1 ++ (o1 ++ (l, o) :: o2) ++ gorders g2 ++ gorders (G (other r))
          = gorders (both G r)) as Eall.
  { unfold both. by rewrite E, !gorders_app, gorders_cons, Eo, <-!app_assoc. }
  eapply (rep_level b b' G r g1 g g2 _ [] R E); rewrite ?Hs, ?Ho, ?Hheap, ?E1, ?E2, ?Eall;
    try apply R.
  - by destruct o1.
  - done.
  - rewrite Eo, olocs_app. simpl. split; simpl; [| |lia]; intros l' Hl'; apply lookup_insert_ne.
    + intros ->. apply Hl', elem_of_app. right. left.
    + intros <-. apply Hl'. left.
  - by intros ? ?%not_elem_of_nil.
  - split; simpl; [|by eapply dlseg_leaves]. rewrite lookup_insert_eq. unfold level_record, set_TotalQty. simpl.
    rewrite Eo, i64_sub_wrap, !first_ptr_app, !last_ptr_app, !map_app, !leaves_sum_app. simpl.
    do 3 f_equal. lia.
  - rewrite Forall_app, Forall_cons in *. rewrite !Forall_and. simpl. tauto.
  - unfold idlocs. rewrite !map_app. simpl. intros id l'. rewrite (rp_orders _ _ R r).
    rewrite <-Eall. unfold idlocs. by rewrite !map_app.
  - pose proof (rp_ofresh _ _ R r) as HF. rewrite <-Eall, !olocs_app, !Forall_app in HF.
    rewrite olocs_app, Forall_app. simpl in *. tauto.
Qed.
