(* ===== verification/BookApply.v ===== *)
(** * BookApply: matching and whole commands refine the specification

    The matching loop against a represented side performs exactly the fills of
    [take_levels]; the handlers and [Apply] follow.  The last part treats the
    read-only walks ([CheckInvariants], [Snapshot]) and [NewFromSnapshot]. *)

From S2P Require Import Prelude Model Book BookSpec BookRep BookRefine.

#[global] Arguments gorders : simpl never.
#[global] Arguments olocs : simpl never.

(** ** One order at a time *)

Lemma take_levels_full allowed qty p o os ls :
  0 < qty -> allowed p = true -> os_LeavesQty o <= qty ->
  take_levels allowed qty (mkPriceLevelSnapshot p (o :: os) :: ls) =
  let '(fs, q, r) := take_levels allowed (qty - os_LeavesQty o) (cons_level p os ls) in
  ((o, os_LeavesQty o) :: fs, q, r).
Proof.
  intros Hq Ha Ho. simpl. rewrite Ha, (proj2 (Z.leb_gt qty 0)), (proj2 (Z.leb_le _ _)) by lia.
  simpl. destruct os as [|o' os]; simpl; [done|].
  destruct (qty - os_LeavesQty o <=? 0); simpl; [done|]. rewrite Ha. simpl.
  destruct (os_LeavesQty o' <=? _); simpl; [|done].
  destruct (take_orders _ _) as [[fs q] r]. destruct r; [|done].
  by destruct (take_levels _ _ _) as [[??]?].
Qed.

Lemma take_levels_partial allowed qty p o os ls :
  0 < qty -> allowed p = true -> qty < os_LeavesQty o ->
  take_levels allowed qty (mkPriceLevelSnapshot p (o :: os) :: ls) =
  ([(o, qty)], 0, mkPriceLevelSnapshot p (with_leaves (os_LeavesQty o - qty) o :: os) :: ls).
Proof.
  intros Hq Ha Ho. simpl. rewrite Ha, (proj2 (Z.leb_gt qty 0)), (proj2 (Z.leb_gt _ qty)) by lia.
  done.
Qed.

(** The incoming order at [li] is allocated outside the book. *)
Record outside (b : Book) (G : ghost) (li : loc) (inc : Order) : Prop := {
  out_data : h_orders (bk_heap b) !! li = Some inc;
  out_loc : forall r, li ∉ olocs (gorders (both G r));
  out_fresh : (li < h_next (bk_heap b))%positive
}.

(** [priceAllowed] decides by the price only, as long as the incoming order
    keeps its own. *)
Definition decides (allowedM : Z -> M bool) (allowed : Z -> bool) (li : loc) (price : Z) : Prop :=
  forall b inc p, h_orders (bk_heap b) !! li = Some inc -> ord_Price inc = price ->
    allowedM p b = Ret (allowed p, b).

(** The state after the two quantities and the level total were reduced and the
    trade ID was drawn. *)
Definition traded (b : Book) (li l lv : loc) (inc ord : Order) (v : PriceLevel) (t : Z) : Book :=
  set_nextTradeSeq (u64_add (bk_nextTradeSeq b) 1)
    (set_heap (leaves_heap lv l ord (set_TotalQty (i64_sub (lvl_TotalQty v) t) v)
                 (ord_LeavesQty ord - t)
                 (heap_set_order li (set_LeavesQty (ord_LeavesQty inc - t) inc) (bk_heap b))) b).

Lemma best_run b G r g gs :
  rep b G -> G r = g :: gs -> best r b = Ret (Some (gl_loc g), b).
Proof.
  intros R E. unfold best. erewrite (bind_Ret (load_side _)) by reflexivity.
  rewrite (rp_prices _ _ R), E. simpl. unfold ret. do 2 f_equal.
  apply (rp_levels _ _ R). rewrite E. left.
Qed.

Lemma best_empty b G r : rep b G -> G r = [] -> best r b = Ret (None, b).
Proof.
  intros R E. unfold best. erewrite (bind_Ret (load_side _)) by reflexivity.
  by rewrite (rp_prices _ _ R), E.
Qed.

Lemma min64_min a b : min64 a b = Z.min a b.
Proof. unfold min64. destruct (a <? b) eqn:E; lia. Qed.

(** One iteration of the loop, up to the disposal of the resting order. *)
Lemma match_iteration fuel b G r li inc allowedM allowed result g gs l o os :
  rep b G -> outside b G li inc -> decides allowedM allowed li (ord_Price inc) ->
  G r = g :: gs -> gl_orders g = (l, o) :: os -> os_Price o = gl_price g ->
  0 < ord_LeavesQty inc <= MaxInt64 -> 0 < os_LeavesQty o <= MaxInt64 ->
  allowed (gl_price g) = true ->
  let t := Z.min (ord_LeavesQty inc) (os_LeavesQty o) in
  let ord := mk_order o None (first_ptr os None) (Some (gl_loc g)) in
  let b1 := traded b li l (gl_loc g) inc ord (level_record g) t in
  let result1 := emit (ev_trade (trade_id (res_CommandSeq result) (bk_nextTradeSeq b))
                         (os_ID o) (ord_ID inc) (os_Price o) t) result in
  matchAgainst_loop (S fuel) (Some li) r allowedM result b =
  (if os_LeavesQty o - t =? 0 then
     bind (removeActive (Some l)) (fun _ => matchAgainst_loop fuel (Some li) r allowedM result1)
   else matchAgainst_loop fuel (Some li) r allowedM
          (emit (ev_reduced (os_ID o) (os_LeavesQty o - t)) result1)) b1.
Proof.
  intros R [Hli Hout Hfr] Hdec E Eo Hp Hq Ho Hal t ord b1 result1.
  destruct (rep_focus b G r [] g gs R E) as ([Hr Hqu] & _ & _ & _).
  rewrite Eo in Hqu. destruct Hqu as [Hl _].
  assert (li <> l) as Hne.
  { intros ->. apply (Hout r). unfold both. rewrite E. simpl. rewrite gorders_cons, Eo. left. }
  cbn [matchAgainst_loop]. erewrite (bind_Ret (load_order _)) by (by apply load_order_ok).
  rewrite (proj2 (Z.ltb_lt _ _)) by lia.
  erewrite (bind_Ret (best _)) by (by eapply best_run). cbv iota.
  erewrite (bind_Ret (load_level _)) by (by apply load_level_ok).
  erewrite (bind_Ret (allowedM _)) by (by eapply Hdec).
  unfold level_record. rewrite Eo. cbn [lvl_Price lvl_Head first_ptr]. rewrite Hal. cbn [negb]. cbv iota.
  do 2 mem_step. rewrite min64_min. simpl ord_LeavesQty. fold t.
  do 4 mem_step. rewrite !(i64_sub_id (ord_LeavesQty _)) by (unfold t; simpl; int_lia).
  erewrite (bind_Ret (nextTradeID _)) by reflexivity.
  erewrite (bind_Ret (load_order (Some l))) by (apply load_order_ok; simpl; apply lookup_insert_eq).
  erewrite (bind_Ret (load_order (Some li)))
    by (apply load_order_ok; simpl; rewrite lookup_insert_ne, lookup_insert_eq by done; reflexivity).
  cbn [ord_LeavesQty set_LeavesQty mk_order ord_ID ord_Price].
  destruct (os_LeavesQty o - t =? 0); reflexivity.
Qed.

(** After the iteration the book is represented with the reduced resting order. *)
Lemma traded_rep b G r li inc g gs l o os t :
  rep b G -> outside b G li inc -> G r = g :: gs -> gl_orders g = (l, o) :: os ->
  let ord := mk_order o None (first_ptr os None) (Some (gl_loc g)) in
  let b1 := traded b li l (gl_loc g) inc ord (level_record g) t in
  let G1 := ghost_set G r (gcons g ((l, with_leaves (os_LeavesQty o - t) o) :: os) ++ gs) in
  rep b1 G1 /\ outside b1 G1 li (set_LeavesQty (ord_LeavesQty inc - t) inc).
Proof.
  intros R [Hli Hout Hfr] E Eo ord b1 G1.
  destruct (rep_focus b G r [] g gs R E) as ([Hr Hqu] & _ & _ & _).
  rewrite Eo in Hqu. destruct Hqu as [Hl _].
  assert (li <> l) as Hne.
  { intros ->. apply (Hout r). unfold both. rewrite E. simpl. rewrite gorders_cons, Eo. left. }
  set (b0 := set_heap (heap_set_order li (set_LeavesQty (ord_LeavesQty inc - t) inc) (bk_heap b)) b).
  assert (rep b0 G) as R0.
  { eapply (rep_frame b b0 G r [li] R); [by intros []|done| |].
    - split; simpl; [|done|done]. intros l' Hl'. apply lookup_insert_ne. set_solver.
    - intros l' ->%list_elem_of_singleton. apply Hout. }
  split.
  - eapply (rep_leaves b0 b1 G r [] g gs [] l o os ord _ _ t R0 E Eo);
      [simpl; by rewrite lookup_insert_ne|reflexivity|lia|reflexivity|by intros []|done].
  - split; [| |done].
    + simpl. rewrite lookup_insert_ne, lookup_insert_eq by done. done.
    + intros r' Hin. apply (Hout r). apply (olocs_both _ r' r) in Hin. unfold G1 in Hin.
      rewrite both_set in Hin. unfold both. rewrite E. simpl in *.
      rewrite !gorders_cons, !olocs_app in *. rewrite Eo. done.
Qed.


(** ** The loop *)

Lemma ghost_set_twice G r gs gs' r' :
  ghost_set (ghost_set G r gs) r gs' r' = ghost_set G r gs' r'.
Proof. unfold ghost_set. by case_decide. Qed.

Lemma ghost_set_same G r r' : ghost_set G r (G r) r' = G r'.
Proof. unfold ghost_set. case_decide; by subst. Qed.

Lemma outside_ext b G G' li inc :
  (forall r, G r = G' r) -> outside b G li inc -> outside b G' li inc.
Proof.
  intros E [H1 H2 H3]. split; [done| |done]. intros r. specialize (H2 r). unfold both in *.
  by rewrite <-!E.
Qed.

Lemma set_LeavesQty_id o : set_LeavesQty (ord_LeavesQty o) o = o.
Proof. by destruct o. Qed.

(** What the loop leaves behind, for the fills, remainder and levels of [take_levels]. *)
Record loop_post (b b' : Book) (G : ghost) (r : sideRef) (li : loc) (inc : Order)
  (fs : list fill) (q : Z) (ls : list PriceLevelSnapshot) (gs : list glevel) : Prop := {
  lp_rep : rep b' (ghost_set G r gs);
  lp_out : outside b' (ghost_set G r gs) li (set_LeavesQty q inc);
  lp_abs : abs_side gs = ls;
  lp_symbol : bk_Symbol b' = bk_Symbol b;
  lp_nts : bk_nextTradeSeq b' = wrap_u64 (bk_nextTradeSeq b + Z.of_nat (length fs))
}.

Lemma loop_post_nothing b G r li inc :
  rep b G -> outside b G li inc -> is_u64 (bk_nextTradeSeq b) ->
  loop_post b b G r li inc [] (ord_LeavesQty inc) (abs_side (G r)) (G r).
Proof.
  intros R Hout Hn. rewrite <-(set_LeavesQty_id inc) in Hout. split; try done.
  - eapply rep_ext; [|exact R]. intros r'. by rewrite ghost_set_same.
  - eapply outside_ext; [|exact Hout]. intros r'. by rewrite ghost_set_same.
  - simpl. by rewrite Z.add_0_r, wrap_u64_id.
Qed.

Definition add_events (evs : list Event) (r : Result) : Result :=
  mkResult (res_CommandSeq r) (res_Events r ++ evs).

Lemma add_events_nil r : add_events [] r = r.
Proof. unfold add_events. rewrite app_nil_r. by destruct r. Qed.

Lemma emit_add e r : emit e r = add_events [e] r.
Proof. done. Qed.

Lemma add_events_add e1 e2 r : add_events e2 (add_events e1 r) = add_events (e1 ++ e2) r.
Proof. unfold add_events. simpl. by rewrite app_assoc. Qed.

Lemma loop_filled fuel li r allowedM result b inc :
  h_orders (bk_heap b) !! li = Some inc -> ord_LeavesQty inc <= 0 ->
  matchAgainst_loop (S fuel) (Some li) r allowedM result b = Ret (result, b).
Proof.
  intros Hli Hq. cbn [matchAgainst_loop].
  erewrite (bind_Ret (load_order _)) by (by apply load_order_ok).
  by rewrite (proj2 (Z.ltb_ge _ _)).
Qed.

(** A fully consumed resting order: the state after [removeActive]. *)
Lemma traded_removed b G r li inc g gs l o os :
  rep b G -> outside b G li inc -> G r = g :: gs -> gl_orders g = (l, o) :: os ->
  let t := os_LeavesQty o in
  let ord := mk_order o None (first_ptr os None) (Some (gl_loc g)) in
  let b1 := traded b li l (gl_loc g) inc ord (level_record g) t in
  exists b2, removeActive (Some l) b1 = Ret (tt, b2) /\ same_rest b1 b2 /\
    rep b2 (ghost_set G r (gcons g os ++ gs)) /\
    outside b2 (ghost_set G r (gcons g os ++ gs)) li (set_LeavesQty (ord_LeavesQty inc - t) inc).
Proof.
  intros R Hout E Eo t ord b1.
  destruct (traded_rep b G r li inc g gs l o os t R Hout E Eo) as [R1 [Hli1 Hout1 Hfr1]].
  fold ord b1 in R1, Hli1, Hout1, Hfr1.
  set (G1 := ghost_set G r _) in R1, Hout1.
  set (g' := gl_with g ((l, with_leaves (os_LeavesQty o - t) o) :: os)).
  assert (G1 r = [] ++ g' :: gs) as E1 by (unfold G1; by rewrite ghost_set_eq).
  destruct (removeActive_spec b1 G1 r [] g' gs [] l _ os R1 E1 eq_refl) as (b2 & Hrun & R2 & Hsame & _ & Hf).
  exists b2. split; [done|]. split; [done|].
  assert (gcons g' ([] ++ os) = gcons g os) as Eg by (by destruct os). rewrite Eg in R2.
  split.
  - eapply rep_ext; [|exact R2]. intros r'. apply ghost_set_twice.
  - split.
    + rewrite (hf_orders _ _ _ _ Hf); [done|]. intros Hin. apply (Hout1 r).
      unfold both. rewrite E1. eapply (olocs_gorders_elem g'); [|done]. set_solver.
    + intros r' Hin. apply (Hout1 r). apply (olocs_both _ r' r) in Hin. rewrite both_set in Hin.
      unfold both. rewrite E1. unfold G1. rewrite ghost_set_other. simpl in *.
      rewrite gorders_cons. rewrite <-app_assoc, gorders_app, gorders_gcons in Hin.
      rewrite !olocs_app, elem_of_app in Hin. rewrite !olocs_app, elem_of_app.
      destruct Hin as [Hin|Hin]; [left; by right|by right].
    + pose proof (hf_next _ _ _ _ Hf). lia.
Qed.

Lemma u64_add_count n k :
  wrap_u64 (u64_add n 1 + Z.of_nat k) = wrap_u64 (n + Z.of_nat (S k)).
Proof. int_lia. Qed.

Lemma abs_side_gcons g os gs :
  abs_side (gcons g os ++ gs) = cons_level (gl_price g) (map snd os) (abs_side gs).
Proof. by destruct os. Qed.

(** The loop ends at an empty side, and at a price that is not allowed. *)
Lemma loop_empty fuel b G r li inc allowedM result :
  rep b G -> outside b G li inc -> 0 < ord_LeavesQty inc -> G r = [] ->
  matchAgainst_loop (S fuel) (Some li) r allowedM result b = Ret (result, b).
Proof.
  intros R Hout Hq E. cbn [matchAgainst_loop]. erewrite (bind_Ret (load_order _)) by (apply load_order_ok, Hout).
  rewrite (proj2 (Z.ltb_lt _ _)) by lia. by erewrite (bind_Ret (best _)) by (by eapply best_empty).
Qed.

Lemma loop_refused fuel b G r li inc allowedM allowed result g gs :
  rep b G -> outside b G li inc -> decides allowedM allowed li (ord_Price inc) -> 0 < ord_LeavesQty inc ->
  G r = g :: gs -> allowed (gl_price g) = false ->
  matchAgainst_loop (S fuel) (Some li) r allowedM result b = Ret (result, b).
Proof.
  intros R Hout Hdec Hq E Hal. destruct (rep_focus b G r [] g gs R E) as (Hc & _ & _ & _).
  cbn [matchAgainst_loop]. erewrite (bind_Ret (load_order _)) by (apply load_order_ok, Hout).
  rewrite (proj2 (Z.ltb_lt _ _)) by lia.
  erewrite (bind_Ret (best _)) by (by eapply best_run). cbv iota.
  erewrite (bind_Ret (load_level _)) by (apply load_level_ok, Hc).
  erewrite (bind_Ret (allowedM _)) by (by eapply Hdec; [apply Hout|]).
  simpl. by rewrite Hal.
Qed.

(** The rest of the loop after one complete fill. *)
Lemma loop_post_fill b b1 b2 b' G r li inc q1 f fs q ls gs1 gs :
  bk_Symbol b1 = bk_Symbol b -> bk_nextTradeSeq b1 = u64_add (bk_nextTradeSeq b) 1 -> same_rest b1 b2 ->
  loop_post b2 b' (ghost_set G r gs1) r li (set_LeavesQty q1 inc) fs q ls gs ->
  loop_post b b' G r li inc (f :: fs) q ls gs.
Proof.
  intros Es En [Hsym Hnts] [P1 P2 P3 P4 P5]. split.
  - eapply rep_ext; [|exact P1]. intros r'. apply ghost_set_twice.
  - eapply outside_ext; [|exact P2]. intros r'. apply ghost_set_twice.
  - done.
  - by rewrite P4, Hsym.
  - rewrite P5, Hnts, En. apply u64_add_count.
Qed.

Lemma matchAgainst_loop_ok fuel b G r li inc allowedM allowed result :
  rep b G -> outside b G li inc -> decides allowedM allowed li (ord_Price inc) ->
  side_ok (is_bid r) (abs_side (G r)) -> 0 <= ord_LeavesQty inc <= MaxInt64 ->
  is_u64 (bk_nextTradeSeq b) -> (length (gorders (G r)) + 1 < fuel)%nat ->
  let '(fs, q, ls) := take_levels allowed (ord_LeavesQty inc) (abs_side (G r)) in
  exists b' gs,
    matchAgainst_loop fuel (Some li) r allowedM result b =
    Ret (add_events (fill_events (res_CommandSeq result) (ord_ID inc) (bk_nextTradeSeq b) fs) result, b') /\
    loop_post b b' G r li inc fs q ls gs.
Proof.
  revert b G inc result. induction fuel as [|fuel IH]; intros b G inc result R Hout Hdec Hok Hq Hn Hfuel; [lia|].
  destruct (decide (ord_LeavesQty inc = 0)) as [Hz|Hnz].
  { rewrite take_levels_zero by lia. exists b, (G r).
    split; [|by apply loop_post_nothing]. rewrite add_events_nil.
    eapply loop_filled; [apply Hout|lia]. }
  destruct (G r) as [|g gs] eqn:E.
  { simpl. exists b, []. rewrite add_events_nil. split.
    - eapply loop_empty; [done|done|lia|done].
    - pose proof (loop_post_nothing b G r li inc R Hout Hn) as HP. by rewrite E in HP. }
  destruct (rep_focus b G r [] g gs R E) as (_ & [_ Hshp Hne] & _ & _).
  destruct (gl_orders g) as [|[l o] os] eqn:Eo; [done|].
  simpl in Hok. unfold abs_level in Hok. rewrite Eo in Hok.
  pose proof Hok as ([Hlo Hlp _] & Hbef & Hoks)%side_ok_cons. simpl in Hlo, Hlp.
  apply Forall_cons in Hlo as [Ho Hlo]. apply Forall_cons in Hlp as [Hp Hlp].
  apply Forall_cons in Hshp as [Hpg _]. simpl in Hpg.
  simpl abs_side. unfold abs_level at 1. rewrite Eo. simpl map.
  destruct (allowed (gl_price g)) eqn:Hal.
  2:{ simpl take_levels. rewrite Hal, orb_true_r. exists b, (G r). rewrite add_events_nil. split.
      - eapply loop_refused; [done|done|done|lia|done|done].
      - pose proof (loop_post_nothing b G r li inc R Hout Hn) as HP. rewrite E in HP at 1.
        simpl in HP. unfold abs_level in HP at 1. by rewrite Eo in HP. }
  pose proof (match_iteration fuel b G r li inc allowedM allowed result g gs l o os R Hout Hdec E Eo Hpg
    ltac:(lia) (oo_leaves _ _ Ho) Hal) as Hiter. cbv zeta in Hiter. rewrite Hiter. clear Hiter.
  set (ord := mk_order o None _ _). destruct (decide (os_LeavesQty o <= ord_LeavesQty inc)) as [Hfull|Hpart].
  - rewrite Z.min_r, Z.sub_diag, Z.eqb_refl by lia.
    rewrite take_levels_full by (done || lia).
    destruct (traded_removed b G r li inc g gs l o os R Hout E Eo) as (b2 & Hrun & Hsame & R2 & Hout2).
    erewrite (bind_Ret (removeActive _)) by exact Hrun.
    set (result1 := emit _ _). set (G2 := ghost_set G r (gcons g os ++ gs)) in *.
    assert (G2 r = gcons g os ++ gs) as E2 by (unfold G2; apply ghost_set_eq).
    specialize (IH b2 G2 _ result1 R2 Hout2 Hdec). rewrite E2, abs_side_gcons in IH.
    destruct (Hsame) as [_ Hnts]. rewrite Hnts in IH. simpl ord_LeavesQty in IH. simpl bk_nextTradeSeq in IH.
    pose proof (oo_leaves _ _ Ho) as Hol.
    specialize (IH ltac:(by apply cons_level_ok) ltac:(lia) ltac:(int_lia)).
    destruct (take_levels allowed _ _) as [[fs q] ls].
    destruct IH as (b' & gs' & Hrun' & HP).
    { rewrite gorders_app, gorders_gcons, length_app. rewrite gorders_cons, Eo, length_app in Hfuel.
      simpl in Hfuel. lia. }
    exists b', gs'. split.
    { rewrite Hrun'. unfold result1. rewrite emit_add, add_events_add. simpl. by rewrite Z.sub_diag. }
    eapply loop_post_fill; [| |exact Hsame|exact HP]; done.
  - rewrite Z.min_l by lia. rewrite (proj2 (Z.eqb_neq _ _)) by lia.
    rewrite take_levels_partial by (done || lia).
    destruct (traded_rep b G r li inc g gs l o os (ord_LeavesQty inc) R Hout E Eo) as [R1 Hout1].
    fold ord in R1, Hout1. destruct fuel as [|fuel]; [lia|].
    rewrite (loop_filled _ _ _ _ _ _ _ (out_data _ _ _ _ Hout1)) by (simpl; lia).
    rewrite Z.sub_diag in Hout1. eexists _, _. split.
    { rewrite !emit_add, !add_events_add. simpl. rewrite (proj2 (Z.eqb_neq _ _)) by lia. reflexivity. }
    split; [exact R1|exact Hout1|done|done|simpl; int_lia].
Qed.

(** ** match *)

Lemma rep_size b G r : rep b G -> (length (gorders (G r)) <= size (bk_orders b))%nat.
Proof.
  intros R. rewrite <-size_dom, <-(length_map (fun x => os_ID x.2)).
  pose proof (rp_ids _ _ R r) as Hn. unfold both, oids in Hn. rewrite gorders_app, map_app in Hn.
  apply NoDup_app in Hn as (Hn & _ & _).
  rewrite <-(size_list_to_set (C := gset Z)) by exact Hn.
  apply subseteq_size. intros id Hid. apply elem_of_list_to_set in Hid.
  apply list_elem_of_fmap in Hid as ([l o] & -> & Hin). apply elem_of_dom. exists l.
  apply (rp_orders _ _ R r). apply list_elem_of_fmap. exists (l, o). split; [done|].
  unfold both. rewrite gorders_app. apply elem_of_app. by left.
Qed.

Lemma matchAgainst_ok b G r li inc allowedM allowed result :
  rep b G -> outside b G li inc -> decides allowedM allowed li (ord_Price inc) ->
  side_ok (is_bid r) (abs_side (G r)) -> 0 <= ord_LeavesQty inc <= MaxInt64 ->
  is_u64 (bk_nextTradeSeq b) ->
  let '(fs, q, ls) := take_levels allowed (ord_LeavesQty inc) (abs_side (G r)) in
  exists b' gs,
    matchAgainst (Some li) r allowedM result b =
    Ret (add_events (fill_events (res_CommandSeq result) (ord_ID inc) (bk_nextTradeSeq b) fs) result, b') /\
    loop_post b b' G r li inc fs q ls gs.
Proof.
  intros R Hout Hdec Hok Hq Hn. unfold matchAgainst.
  erewrite (bind_Ret get) by reflexivity. apply matchAgainst_loop_ok; try done.
  pose proof (rep_size _ _ r R). lia.
Qed.

Lemma Book_match_ok b G li inc result :
  rep b G -> outside b G li inc -> core_ok (abs_book b G) ->
  0 <= ord_LeavesQty inc <= MaxInt64 ->
  let '(evs, q, s') := spec_match (res_CommandSeq result) (ord_ID inc) (ord_Side inc)
                         (ord_Price inc) (ord_LeavesQty inc) (abs_book b G) in
  exists b' G', Book_match (Some li) result b = Ret (add_events evs result, b') /\
    rep b' G' /\ abs_book b' G' = s' /\ outside b' G' li (set_LeavesQty q inc).
Proof.
  intros R Hout [Hb Ha _ Hn] Hq. simpl in Hb, Ha, Hn. unfold spec_match, Book_match.
  erewrite (bind_Ret (load_order _)) by (apply load_order_ok, Hout).
  destruct (ord_Side inc =? SideBuy) eqn:Es; simpl.
  - set (al := fun _ => bind _ _).
    assert (decides al (price_ok (ord_Side inc) (ord_Price inc)) li (ord_Price inc)) as Hdec.
    { intros b0 inc0 p Hl Hp. unfold al, price_ok.
      erewrite (bind_Ret (load_order _)) by (by apply load_order_ok).
      rewrite Hp, Es. by destruct (ord_Price inc =? 0). }
    pose proof (matchAgainst_ok b G refAsks li inc al _ result R Hout Hdec Ha Hq Hn) as HM.
    destruct (take_levels _ _ _) as [[fs q] ls]. destruct HM as (b' & gs & Hrun & [P1 P2 P3 P4 P5]).
    exists b', (ghost_set G refAsks gs). split_and!; [exact Hrun|done| |done].
    unfold abs_book. simpl. by rewrite P4, P5, <-P3.
  - set (al := fun _ => bind _ _).
    assert (decides al (price_ok (ord_Side inc) (ord_Price inc)) li (ord_Price inc)) as Hdec.
    { intros b0 inc0 p Hl Hp. unfold al, price_ok.
      erewrite (bind_Ret (load_order _)) by (by apply load_order_ok).
      rewrite Hp, Es. by destruct (ord_Price inc =? 0). }
    pose proof (matchAgainst_ok b G refBids li inc al _ result R Hout Hdec Hb Hq Hn) as HM.
    destruct (take_levels _ _ _) as [[fs q] ls]. destruct HM as (b' & gs & Hrun & [P1 P2 P3 P4 P5]).
    exists b', (ghost_set G refBids gs). split_and!; [exact Hrun|done| |done].
    unfold abs_book. simpl. by rewrite P4, P5, <-P3.
Qed.

(** ** availableQtyFor *)

Lemma availableQty_loop_ok b (m : gmap Z loc) canTake required gs total :
  Forall (fun g => m !! gl_price g = Some (gl_loc g) /\ level_core (bk_heap b) g) gs ->
  availableQty_loop m canTake required (map gl_price gs) total b =
  Ret (spec_available_loop canTake required (abs_side gs) total, b).
Proof.
  intros H. revert total. induction H as [|g gs [Hm Hc] Hgs IH]; intros total; simpl; [done|].
  destruct (canTake (gl_price g)); simpl; [|done].
  rewrite Hm. erewrite (bind_Ret (load_level _)) by (apply load_level_ok, Hc).
  change (lvl_TotalQty (level_record g)) with (level_qty (abs_level g)).
  destruct (level_qty (abs_level g) >=? i64_sub required total); [done|]. apply IH.
Qed.

Lemma rep_indexed b G r :
  rep b G ->
  Forall (fun g => sb_levels (get_side r b) !! gl_price g = Some (gl_loc g) /\
                   level_core (bk_heap b) g) (G r).
Proof.
  intros R. apply Forall_forall. intros g Hg. split.
  - apply (rp_levels _ _ R). apply list_elem_of_fmap. eauto.
  - pose proof (rp_core _ _ R r) as HF. rewrite Forall_forall in HF. by apply HF.
Qed.

Lemma spec_available_loop_ext f f' required ls total :
  (forall p, f p = f' p) -> spec_available_loop f required ls total = spec_available_loop f' required ls total.
Proof.
  intros E. revert total. induction ls as [|l ls IH]; intros total; simpl; [done|].
  rewrite E. by rewrite IH.
Qed.

Lemma availableQtyFor_ok b G side limit otype required :
  rep b G ->
  availableQtyFor side limit otype required b =
  Ret (spec_available side limit otype required (abs_book b G), b).
Proof.
  intros R. unfold availableQtyFor, spec_available, opposite.
  destruct (side =? SideBuy) eqn:Es.
  - erewrite (bind_Ret (load_side _)) by reflexivity. rewrite (rp_prices _ _ R).
    rewrite availableQty_loop_ok by (by apply rep_indexed). do 2 f_equal.
    apply spec_available_loop_ext. intros p. unfold can_take. by rewrite Es.
  - erewrite (bind_Ret (load_side _)) by reflexivity. rewrite (rp_prices _ _ R).
    rewrite availableQty_loop_ok by (by apply rep_indexed). do 2 f_equal.
    apply spec_available_loop_ext. intros p. unfold can_take. by rewrite Es.
Qed.

(** ** The order index *)

Lemma gorders_elem x gs :
  x ∈ gorders gs -> exists g1 g g2 o1 o2, gs = g1 ++ g :: g2 /\ gl_orders g = o1 ++ x :: o2.
Proof.
  intros Hx. unfold gorders in Hx. apply list_elem_of_In, in_concat in Hx as (os & Hos & Hx).
  apply in_map_iff in Hos as (g & <- & Hg). apply in_split in Hg as (g1 & g2 & ->).
  apply in_split in Hx as (o1 & o2 & Ho). eauto 10.
Qed.

Lemma book_orders_abs b G :
  book_orders (abs_book b G) = map snd (gorders (both G refBids)).
Proof. unfold book_orders, both. simpl. by rewrite !all_orders_abs, gorders_app, map_app. Qed.

(** An active order, located. *)
Record located (b : Book) (G : ghost) (id : Z) (l : loc) (r : sideRef)
  (g1 : list glevel) (g : glevel) (g2 : list glevel)
  (o1 : list gorder) (o : OrderSnapshot) (o2 : list gorder) : Prop := {
  loc_side : G r = g1 ++ g :: g2;
  loc_queue : gl_orders g = o1 ++ (l, o) :: o2;
  loc_id : os_ID o = id;
  loc_find : find_order id (book_orders (abs_book b G)) = Some o
}.

Lemma orders_find b G id :
  rep b G ->
  match bk_orders b !! id with
  | Some l => exists r g1 g g2 o1 o o2, located b G id l r g1 g g2 o1 o o2
  | None => find_order id (book_orders (abs_book b G)) = None
  end.
Proof.
  intros R. pose proof (rp_orders _ _ R refBids id) as Ho. rewrite book_orders_abs.
  destruct (bk_orders b !! id) as [l|].
  - specialize (Ho l) as [Ho _]. specialize (Ho eq_refl).
    apply list_elem_of_fmap in Ho as ([l' o] & [= -> ->] & Hin).
    assert (find_order (os_ID o) (map snd (gorders (both G refBids))) = Some o) as Hf.
    { apply find_order_unique; [|by apply list_elem_of_fmap; exists (l', o)|done].
      rewrite map_map. apply (rp_ids _ _ R). }
    assert (exists r, (l', o) ∈ gorders (G r)) as [r Hr].
    { unfold both in Hin. rewrite gorders_app in Hin.
      apply elem_of_app in Hin as [?|?]; [by exists refBids|by exists refAsks]. }
    apply gorders_elem in Hr as (g1 & g & g2 & o1 & o2 & E & Eo).
    exists r, g1, g, g2, o1, o, o2. split; [done|done|done|]. by rewrite book_orders_abs.
  - apply find_order_None. rewrite map_map. intros Hin.
    apply list_elem_of_fmap in Hin as ([l o] & -> & Hin). specialize (Ho l) as [_ Ho].
    discriminate Ho. apply list_elem_of_fmap. exists (l, o). done.
Qed.

Lemma located_order b G id l r g1 g g2 o1 o o2 :
  rep b G -> located b G id l r g1 g g2 o1 o o2 ->
  exists pr nx, h_orders (bk_heap b) !! l = Some (mk_order o pr nx (Some (gl_loc g))).
Proof.
  intros R [E Eo _ _]. destruct (rep_focus _ _ _ _ _ _ R E) as ([_ Hq] & _).
  eapply dlseg_lookup; [exact Hq|]. rewrite Eo. apply elem_of_app. right. left.
Qed.

(** ** The building blocks on abstract books *)

Lemma removeActive_abs b G id l r g1 g g2 o1 o o2 :
  rep b G -> located b G id l r g1 g g2 o1 o o2 ->
  exists b' G', removeActive (Some l) b = Ret (tt, b') /\ rep b' G' /\
    abs_book b' G' = spec_remove id (abs_book b G).
Proof.
  intros R [E Eo <- _].
  destruct (removeActive_spec _ _ _ _ _ _ _ _ _ _ R E Eo) as (b' & Hrun & R' & [Hs Hn] & _ & _).
  eexists b', _. split_and!; [exact Hrun|exact R'|].
  pose proof (abs_remove _ _ _ _ _ _ _ _ _ _ R E Eo) as HA.
  pose proof (abs_remove_other _ _ _ _ _ _ _ _ _ _ R E Eo) as HO.
  unfold abs_book, spec_remove, set_sides. simpl. rewrite Hs, Hn.
  destruct r; unfold ghost_set; simpl in *; by rewrite HA, HO.
Qed.

Lemma rest_abs_book b G li inc :
  rep b G -> outside b G li inc ->
  os_ID (data_of inc) ∉ map os_ID (book_orders (abs_book b G)) ->
  exists b' G', rest (Some li) b = Ret (tt, b') /\ rep b' G' /\
    abs_book b' G' = spec_rest (data_of inc) (abs_book b G) /\
    exists ord, h_orders (bk_heap b') !! li = Some ord /\ data_of ord = data_of inc.
Proof.
  intros R [Hli Hout Hfr] Hid. set (o := data_of inc) in *. set (r := side_of (os_Side o)).
  assert (rest_pre b G r li o) as Hpre.
  { split; [done|eauto|apply Hout|done|]. rewrite book_orders_abs in Hid.
    intros Hin. apply Hid. rewrite <-oids_snd.
    apply (both_any (fun gs => os_ID o ∈ oids (gorders gs)) G r); [|done].
    intros gs gs' Hp. unfold oids. by rewrite (gorders_perm _ _ Hp). }
  destruct (rest_spec b G r li o R Hpre) as (b' & gs & Hrun & [P1 P2 [Hs Hn] P4]).
  eexists b', _. split_and!; [exact Hrun|exact P1| |done].
  unfold abs_book, spec_rest, set_sides. rewrite Hs, Hn. unfold r, side_of in *.
  destruct (os_Side o =? SideSell); unfold ghost_set; simpl in *; by rewrite P2.
Qed.

Lemma new_order_abs b G ord :
  rep b G ->
  exists b' li, new_order ord b = Ret (Some li, b') /\ rep b' G /\ outside b' G li ord /\
    abs_book b' G = abs_book b G.
Proof.
  intros R. set (li := h_next (bk_heap b)). eexists _, li. split; [reflexivity|].
  assert (forall r, li ∉ olocs (gorders (both G r))) as Hni.
  { intros r Hin. pose proof (rp_ofresh _ _ R r) as HF. rewrite Forall_forall in HF.
    apply HF in Hin. unfold li in Hin. lia. }
  split_and!; [| |done].
  - eapply (rep_frame b _ G refBids [li] R); [by intros []|done| |].
    + split; simpl; [|done|lia]. intros l Hl. apply lookup_insert_ne. set_solver.
    + intros l ->%list_elem_of_singleton. apply Hni.
  - split; simpl; [apply lookup_insert_eq|done|]. unfold li. lia.
Qed.

Lemma data_of_set_LeavesQty q o : data_of (set_LeavesQty q o) = with_leaves q (data_of o).
Proof. done. Qed.

(** ** The handlers *)

(** [m] computes the events and book of [f] from any book that represents [s]. *)
Definition refines (m : Result -> M Result) (f : Snapshot -> list Event * Snapshot)
  (seq : Z) (s : Snapshot) : Prop :=
  forall b G evs, rep b G -> abs_book b G = s ->
  exists b' G', m (mkResult seq evs) b = Ret (mkResult seq (evs ++ (f s).1), b') /\
    rep b' G' /\ abs_book b' G' = (f s).2.

Lemma handleNew_refines cmd s :
  command_typed cmd -> book_ok s -> Command_Validate cmd = None -> cmd_Type cmd = CommandNew ->
  refines (handleNew cmd) (spec_New cmd) (cmd_Seq cmd) s.
Proof.
  intros Ht [Hcore _] Hv Hty b G evs R Habs. pose proof (orders_find b G (cmd_OrderID cmd) R) as Hfind.
  destruct (Validate_New _ Hv Hty) as (Hside & Hot & Htif & Hq & Hp).
  unfold handleNew, spec_New. erewrite (bind_Ret get) by reflexivity. rewrite Habs in Hfind.
  destruct (bk_orders b !! cmd_OrderID cmd) as [l|].
  { destruct Hfind as (r & g1 & g & g2 & o1 & o & o2 & [_ _ _ Hf]). rewrite Habs in Hf. rewrite Hf.
    by exists b, G. }
  rewrite Hfind.
  set (wnf := (cmd_TimeInForce cmd =? TIFFOK) && _).
  erewrite (bind_Ret _ _ _ wnf b).
  2:{ unfold wnf. destruct (cmd_TimeInForce cmd =? TIFFOK); [|done].
      erewrite (bind_Ret (availableQtyFor _ _ _ _)) by (by apply availableQtyFor_ok).
      by rewrite Habs. }
  destruct wnf; [by exists b, G|].
  destruct (new_order_abs b G (mkOrder (cmd_OrderID cmd) (cmd_Side cmd) (cmd_Price cmd)
    (cmd_Quantity cmd) (cmd_Seq cmd) None None None) R) as (b1 & li & Hnew & R1 & Hout & Habs1).
  erewrite (bind_Ret (new_order _)) by exact Hnew. rewrite <-Habs1 in Habs.
  set (res := emit _ _). set (inc := mkOrder _ _ _ _ _ _ _ _) in *.
  pose proof (Book_match_ok b1 G li inc res R1 Hout) as HM. rewrite Habs in HM.
  specialize (HM Hcore). simpl in HM. destruct Ht. specialize (HM ltac:(int_lia)).
  pose proof (spec_match_post (cmd_Seq cmd) (cmd_OrderID cmd) (cmd_Side cmd) (cmd_Price cmd)
    (cmd_Quantity cmd) s Hcore ltac:(lia)) as HP.
  destruct (spec_match _ _ _ _ _ _) as [[mevs rem] s']. destruct HP as [_ Hrem Hids _ _ _].
  destruct HM as (b2 & G2 & Hrun & R2 & Habs2 & Hout2).
  erewrite (bind_Ret (Book_match _ _)) by exact Hrun.
  erewrite (bind_Ret (load_order _)) by (apply load_order_ok, Hout2).
  cbn [ord_LeavesQty set_LeavesQty ord_ID ord_Price].
  assert (add_events mevs res = mkResult (cmd_Seq cmd) (evs ++ ev_accepted (cmd_OrderID cmd) :: mevs)) as Hres.
  { unfold res, add_events, emit. simpl. by rewrite <-app_assoc. }
  rewrite Hres. destruct (rem =? 0); [by exists b2, G2|].
  destruct (cmd_OrderType cmd =? OrderTypeMarket); simpl orb; cbv iota.
  { exists b2, G2. split_and!; [|done|done]. unfold emit, ret. simpl. by rewrite <-app_assoc. }
  destruct (cmd_TimeInForce cmd =? TIFIOC).
  { exists b2, G2. split_and!; [|done|done]. unfold emit, ret. simpl. by rewrite <-app_assoc. }
  destruct (rest_abs_book b2 G2 li _ R2 Hout2) as (b3 & G3 & Hrest & R3 & Habs3 & ord & Hord & Hd).
  { rewrite Habs2. intros Hin. apply find_order_None in Hfind. apply Hfind. by eapply elem_of_sublist. }
  erewrite (bind_Ret (rest _)) by exact Hrest.
  erewrite (bind_Ret (load_order _)) by (by apply load_order_ok).
  rewrite Habs2 in Habs3. unfold data_of in Hd. injection Hd as -> _ -> -> _.
  exists b3, G3. split_and!; [|done|done]. unfold emit, ret. simpl. by rewrite <-app_assoc.
Qed.

Lemma handleCancel_refines cmd s :
  refines (handleCancel cmd) (spec_Cancel cmd) (cmd_Seq cmd) s.
Proof.
  intros b G evs R Habs. pose proof (orders_find b G (cmd_OrderID cmd) R) as Hfind.
  unfold handleCancel, spec_Cancel. erewrite (bind_Ret get) by reflexivity.
  destruct (bk_orders b !! cmd_OrderID cmd) as [l|].
  - destruct Hfind as (r & g1 & g & g2 & o1 & o & o2 & HL).
    destruct (located_order _ _ _ _ _ _ _ _ _ _ _ R HL) as (pr & nx & Hl).
    destruct (removeActive_abs _ _ _ _ _ _ _ _ _ _ _ R HL) as (b' & G' & Hrun & R' & Habs').
    rewrite <-Habs, (loc_find _ _ _ _ _ _ _ _ _ _ _ HL).
    erewrite (bind_Ret (load_order _)) by (by apply load_order_ok).
    erewrite (bind_Ret (removeActive _)) by exact Hrun.
    exists b', G'. split_and!; [|done|done]. unfold emit, ret. simpl. by rewrite <-app_assoc.
  - rewrite <-Habs, Hfind. by exists b, G.
Qed.

(** Reducing an order in place: the total of its level goes down by the same amount. *)
Lemma reduce_abs b G id l r g1 g g2 o1 o o2 q :
  rep b G -> located b G id l r g1 g g2 o1 o o2 ->
  0 < q <= os_LeavesQty o -> os_LeavesQty o <= MaxInt64 ->
  exists pr nx b' G',
    let ord := mk_order o pr nx (Some (gl_loc g)) in
    h_orders (bk_heap b) !! l = Some ord /\
    (forall A (k : M A),
       bind (update_level (ord_Level ord) (fun v =>
               set_TotalQty (i64_sub (lvl_TotalQty v) (os_LeavesQty o - q)) v))
         (fun _ => bind (update_order (Some l) (set_LeavesQty q)) (fun _ => k)) b = k b') /\
    h_orders (bk_heap b') !! l = Some (set_LeavesQty q ord) /\
    rep b' G' /\ abs_book b' G' = spec_reduce id q (abs_book b G).
Proof.
  intros R HL Hq Hmax. destruct (located_order _ _ _ _ _ _ _ _ _ _ _ R HL) as (pr & nx & Hl).
  destruct HL as [E Eo <- _]. destruct (rep_focus _ _ _ _ _ _ R E) as ([Hr _] & _ & _ & _).
  set (ord := mk_order o pr nx (Some (gl_loc g))) in *.
  set (v := set_TotalQty (i64_sub (lvl_TotalQty (level_record g)) (os_LeavesQty o - q)) (level_record g)).
  set (b' := set_heap (leaves_heap (gl_loc g) l ord v q (bk_heap b)) b).
  exists pr, nx, b', (ghost_set G r (g1 ++ gcons g (o1 ++ (l, with_leaves q o) :: o2) ++ g2)).
  split_and!; [done| |apply lookup_insert_eq| |].
  - intros A k. simpl ord_Level.
    erewrite (bind_Ret (update_level _ _)) by (by apply update_level_ok). mem_norm.
    erewrite (bind_Ret (update_order _ _)) by (by apply update_order_ok). done.
  - eapply (rep_leaves b b' G r g1 g g2 o1 l o o2 ord v q _ R E Eo Hl eq_refl eq_refl); [done|by intros []|done].
  - pose proof (abs_reduce _ _ _ _ _ _ _ _ _ _ q R E Eo) as HA.
    pose proof (abs_reduce_other _ _ _ _ _ _ _ _ _ _ q R E Eo) as HO.
    unfold abs_book, spec_reduce, set_sides, ghost_set. destruct r; simpl in *; by rewrite HA, HO.
Qed.

(** The second half of a replace that loses its priority: match, then rest. *)
Lemma replace_requeue cmd s side price b G evs :
  rep b G -> abs_book b G = s -> core_ok s ->
  cmd_OrderID cmd ∉ map os_ID (book_orders s) ->
  0 < cmd_NewLeavesQty cmd <= MaxInt64 ->
  exists b' G',
    (let! replaced := new_order (mkOrder (cmd_OrderID cmd) side price (cmd_NewLeavesQty cmd)
                                   (cmd_Seq cmd) None None None) in
     let! result := Book_match replaced (mkResult (cmd_Seq cmd) evs) in
     let! ro := load_order replaced in
     let! result :=
       (if 0 <? ord_LeavesQty ro then
          do! rest replaced in
          let! ro := load_order replaced in
          ret (emit (ev_rested (ord_ID ro) (ord_Price ro) (ord_LeavesQty ro)) result)
        else ret result) in
     let! ro := load_order replaced in
     ret (emit (ev_replaced (cmd_OrderID cmd) price (ord_LeavesQty ro) false) result)) b =
    (let '(mevs, rem, s') := spec_match (cmd_Seq cmd) (cmd_OrderID cmd) side price
                               (cmd_NewLeavesQty cmd) s in
     Ret (mkResult (cmd_Seq cmd)
            (evs ++ mevs ++ (if 0 <? rem then [ev_rested (cmd_OrderID cmd) price rem] else [])
             ++ [ev_replaced (cmd_OrderID cmd) price rem false]), b')) /\
    rep b' G' /\
    abs_book b' G' =
    (let '(mevs, rem, s') := spec_match (cmd_Seq cmd) (cmd_OrderID cmd) side price
                               (cmd_NewLeavesQty cmd) s in
     if 0 <? rem then spec_rest (mkOrderSnapshot (cmd_OrderID cmd) side price rem (cmd_Seq cmd)) s'
     else s').
Proof.
  intros R Habs Hcore Hni Hq.
  destruct (new_order_abs b G (mkOrder (cmd_OrderID cmd) side price
    (cmd_NewLeavesQty cmd) (cmd_Seq cmd) None None None) R) as (b1 & li & Hnew & R1 & Hout & Habs1).
  erewrite (bind_Ret (new_order _)) by exact Hnew. rewrite <-Habs1 in Habs.
  set (res := mkResult _ _). set (inc := mkOrder _ _ _ _ _ _ _ _) in *.
  pose proof (Book_match_ok b1 G li inc res R1 Hout) as HM. rewrite Habs in HM.
  specialize (HM Hcore). simpl in HM. specialize (HM ltac:(lia)).
  pose proof (spec_match_post (cmd_Seq cmd) (cmd_OrderID cmd) side price
    (cmd_NewLeavesQty cmd) s Hcore ltac:(lia)) as HP.
  destruct (spec_match _ _ _ _ _ _) as [[mevs rem] s']. destruct HP as [_ Hrem Hids _ _ _].
  destruct HM as (b2 & G2 & Hrun & R2 & Habs2 & Hout2).
  erewrite (bind_Ret (Book_match _ _)) by exact Hrun.
  erewrite (bind_Ret (load_order _)) by (apply load_order_ok, Hout2).
  cbn [ord_LeavesQty set_LeavesQty]. destruct (0 <? rem).
  - destruct (rest_abs_book b2 G2 li _ R2 Hout2) as (b3 & G3 & Hrest & R3 & Habs3 & ord & Hord & Hd).
    { rewrite Habs2. intros Hin. apply Hni. by eapply elem_of_sublist. }
    exists b3, G3. rewrite Habs2 in Habs3. split_and!; [|done|done].
    erewrite bind_Ret.
    2:{ erewrite (bind_Ret (rest _)) by exact Hrest.
        erewrite (bind_Ret (load_order _)) by (by apply load_order_ok). reflexivity. }
    erewrite (bind_Ret (load_order _)) by (by apply load_order_ok).
    unfold data_of in Hd. injection Hd as -> _ -> -> _.
    unfold emit, add_events, ret. simpl. by rewrite <-!app_assoc.
  - exists b2, G2. split_and!; [|done|done].
    erewrite (bind_Ret (ret _)) by reflexivity.
    erewrite (bind_Ret (load_order _)) by (apply load_order_ok, Hout2).
    unfold emit, add_events, ret. simpl. by rewrite <-!app_assoc.
Qed.

Lemma handleReplace_refines cmd s :
  command_typed cmd -> book_ok s -> Command_Validate cmd = None -> cmd_Type cmd = CommandReplace ->
  refines (handleReplace cmd) (spec_Replace cmd) (cmd_Seq cmd) s.
Proof.
  intros Ht Hok Hv Hty b G evs R Habs. pose proof (orders_find b G (cmd_OrderID cmd) R) as Hfind.
  destruct (Validate_Replace _ Hv Hty) as [Hq Hp].
  unfold handleReplace, spec_Replace. erewrite (bind_Ret get) by reflexivity.
  destruct (bk_orders b !! cmd_OrderID cmd) as [l|]; [|rewrite <-Habs, Hfind; by exists b, G].
  destruct Hfind as (r & g1 & g & g2 & o1 & o & o2 & HL).
  pose proof (loc_find _ _ _ _ _ _ _ _ _ _ _ HL) as Hf. rewrite Habs in Hf. rewrite Hf.
  destruct (find_order_ok _ _ _ (bo_core _ Hok) Hf) as (isBid & [_ Hop Hol _ _] & _).
  destruct (located_order _ _ _ _ _ _ _ _ _ _ _ R HL) as (pr & nx & Hl).
  erewrite (bind_Ret (load_order _)) by (by apply load_order_ok).
  cbn [ord_Price mk_order ord_LeavesQty ord_Side ord_Level ord_ID].
  set (price := if cmd_NewPrice cmd >? 0 then cmd_NewPrice cmd else os_Price o).
  assert (0 < price) as Hprice by (unfold price; destruct (cmd_NewPrice cmd >? 0) eqn:?; lia).
  rewrite (proj2 (Z.leb_gt price 0)), (proj2 (Z.leb_gt (cmd_NewLeavesQty cmd) 0)) by lia.
  destruct Ht. destruct ((price =? os_Price o) && (cmd_NewLeavesQty cmd <=? os_LeavesQty o)) eqn:Eret.
  - apply andb_true_iff in Eret as [Ep%Z.eqb_eq El%Z.leb_le].
    destruct (reduce_abs _ _ _ _ _ _ _ _ _ _ _ (cmd_NewLeavesQty cmd) R HL ltac:(lia) ltac:(lia))
      as (pr' & nx' & b' & G' & Hl2 & Hrun & Hl' & R' & Habs').
    rewrite i64_sub_id by int_lia. setoid_rewrite Hrun.
    erewrite (bind_Ret (load_order _)) by (by apply load_order_ok). exists b', G'.
    rewrite Habs in Habs'. split_and!; [|done|done].
    pose proof (loc_id _ _ _ _ _ _ _ _ _ _ _ HL) as Hid. simpl. rewrite Hid, Ep.
    unfold emit, ret. destruct (os_LeavesQty o - cmd_NewLeavesQty cmd >? 0); simpl; by rewrite <-!app_assoc.
  - destruct (removeActive_abs _ _ _ _ _ _ _ _ _ _ _ R HL) as (b1 & G1 & Hrem & R1 & Habs1).
    erewrite (bind_Ret (removeActive _)) by exact Hrem. rewrite Habs in Habs1.
    destruct (replace_requeue cmd _ (os_Side o) price b1 G1 (evs ++ [ev_accepted (cmd_OrderID cmd)])
      R1 Habs1) as (b' & G' & Hrun & R' & Habs').
    { by apply spec_remove_ok. }
    { rewrite spec_remove_orders. apply drop_order_gone. }
    { int_lia. }
    exists b', G'. unfold emit at 1. simpl res_CommandSeq. simpl res_Events. rewrite Hrun.
    destruct (spec_match _ _ _ _ _ _) as [[mevs rem] s'].
    destruct (0 <? rem); simpl in *; rewrite <-!app_assoc; done.
Qed.

(** ** Whole commands *)

Lemma Apply_repr cmd b s :
  command_typed cmd -> repr b s -> book_ok s ->
  exists b', Apply cmd b = Ret ((spec_Apply cmd s).1, b') /\ repr b' (spec_Apply cmd s).2.
Proof.
  intros Ht (G & R & Habs & _) Hok. pose proof (spec_Apply_ok cmd s Ht Hok) as Hok'.
  assert (exists b' G', Apply cmd b = Ret (mkResult (cmd_Seq cmd) (spec_events cmd s).1, b') /\
            rep b' G' /\ abs_book b' G' = (spec_events cmd s).2) as (b' & G' & Hrun & R' & Habs').
  { unfold Apply, spec_events. erewrite (bind_Ret get) by reflexivity.
    replace (bk_Symbol b) with (sn_Symbol s) by by rewrite <-Habs.
    destruct (negb _); [by exists b, G|].
    destruct (Command_Validate cmd) eqn:Hv; [by exists b, G|].
    destruct (cmd_Type cmd =? CommandNew) eqn:E1.
    { apply Z.eqb_eq in E1. by apply (handleNew_refines cmd s Ht Hok Hv E1 b G []). }
    destruct (cmd_Type cmd =? CommandCancel) eqn:E2.
    { by apply (handleCancel_refines cmd s b G []). }
    assert (cmd_Type cmd = CommandReplace) as E3 by (destruct (Validate_Type _ Hv) as [?|[?|?]]; lia).
    rewrite (proj2 (Z.eqb_eq _ _) E3). by apply (handleReplace_refines cmd s Ht Hok Hv E3 b G []). }
  unfold spec_Apply in *. destruct (spec_events cmd s) as [evs s']. simpl in *.
  exists b'. split; [done|]. exists G'. split_and!; [done|done|apply Hok'].
Qed.
