(* ===== verification/BookWalk.v ===== *)
(** * BookWalk: the read-only walks and the snapshot round trip

    [CheckInvariants] accepts every book that represents a well-formed state,
    [Snapshot] reads that state back, and [NewFromSnapshot] rebuilds a book that
    represents the snapshot it was given. *)

From S2P Require Import Prelude Model Book BookSpec BookRep BookRefine BookApply.

(** ** The empty book *)

Definition empty_snapshot (symbol : string) (nts : Z) : Snapshot := mkSnapshot symbol nts [] [].

Lemma empty_book_ok symbol nts : is_u64 nts -> book_ok (empty_snapshot symbol nts).
Proof.
  intros Hn. split; [|constructor]. constructor; simpl; [apply side_ok_nil..|constructor|done].
Qed.

Lemma empty_rep symbol nts :
  rep (set_nextTradeSeq nts (Book_New symbol)) (fun _ => []).
Proof.
  constructor; intros r; try by constructor.
  - by destruct r.
  - by destruct r.
  - intros p l. destruct r; simpl; rewrite lookup_empty; split; by inversion 1.
  - intros p l. simpl; rewrite lookup_empty; split; by inversion 1.
Qed.

Lemma Book_New_repr symbol : repr (Book_New symbol) (empty_snapshot symbol 1).
Proof.
  exists (fun _ => []). split_and!; [apply (empty_rep symbol 1)|done|].
  by apply empty_book_ok.
Qed.

(** ** Fuel of the queue walks *)

Lemma dlseg_dom m lv p os n l : dlseg m lv p os n -> l ∈ olocs os -> is_Some (m !! l).
Proof.
  intros H Hl. apply list_elem_of_fmap in Hl as ([l' o] & -> & Hin).
  destruct (dlseg_lookup _ _ _ _ _ _ _ H Hin) as (pr & nx & E). simpl. eauto.
Qed.

Lemma queue_fuel_enough b G r g :
  rep b G -> g ∈ G r -> (length (gl_orders g) <= queue_fuel b)%nat.
Proof.
  intros R Hg. apply list_elem_of_split in Hg as (g1 & g2 & E).
  destruct (rep_focus _ _ _ _ _ _ R E) as ([_ Hq] & _ & Hnd & _).
  unfold queue_fuel. rewrite <-size_dom, <-(length_map fst).
  rewrite <-(size_list_to_set (C := gset positive)) by exact Hnd.
  apply subseteq_size. intros l Hl. apply elem_of_list_to_set in Hl.
  apply elem_of_dom. by eapply dlseg_dom.
Qed.

(** ** CheckInvariants *)

Lemma check_sorted_ok isBid ps : prices_sorted isBid ps -> check_sorted isBid ps = None.
Proof.
  induction 1 as [|p ps Hs IH Hall]; [done|]. destruct ps as [|q ps]; [done|]. cbn [check_sorted].
  apply Forall_cons in Hall as [Hpq _]. unfold betterb in Hpq.
  destruct isBid; simpl; case_match; try lia; done.
Qed.

Lemma check_queue_ok b lv os p fuel qty :
  dlseg (h_orders (bk_heap b)) lv p os None -> Forall (fun x => 0 < os_LeavesQty x.2) os ->
  (length os <= fuel)%nat ->
  check_queue fuel (Some lv) (first_ptr os None) (wrap_i64 qty) b =
  Ret (inr (wrap_i64 (qty + leaves_sum (map snd os))), b).
Proof.
  intros Hd Hpos. revert p fuel qty Hd. induction Hpos as [|[l o] os Ho Hos IH]; intros p fuel qty Hd Hf.
  { simpl. destruct fuel; simpl; by rewrite Z.add_0_r. }
  destruct fuel as [|fuel]; simpl in Hf; [lia|]. destruct Hd as [Hl Hd]. cbn [check_queue first_ptr].
  erewrite (bind_Ret (load_order _)) by (by apply load_order_ok).
  simpl. rewrite bool_decide_eq_true_2 by done. simpl in *.
  rewrite (proj2 (Z.leb_gt _ _)) by lia. rewrite i64_add_wrap, (IH (Some l)) by (done || lia).
  do 4 f_equal. lia.
Qed.

Lemma level_leaves isBid g :
  level_ok isBid (abs_level g) -> Forall (fun x => 0 < os_LeavesQty x.2) (gl_orders g).
Proof.
  intros [Hl _ _]. simpl in Hl. apply (proj1 (Forall_map _ _ _)) in Hl.
  eapply Forall_impl; [exact Hl|]. intros x []. lia.
Qed.

Lemma level_ends os : os <> [] -> is_Some (first_ptr os None) /\ is_Some (last_ptr None os).
Proof.
  destruct os as [|[l o] os] using rev_ind; [done|]. intros _.
  rewrite last_ptr_snoc, first_ptr_app. simpl. split; [|done]. destruct os as [|[]]; done.
Qed.

Lemma check_level_ok b G r g :
  rep b G -> g ∈ G r -> level_ok (is_bid r) (abs_level g) ->
  check_level (get_side r b) (gl_price g) b = Ret (None, b).
Proof.
  intros R Hg Hok. pose proof (queue_fuel_enough _ _ _ _ R Hg) as Hf.
  pose proof (rep_indexed b G r R) as HI. rewrite Forall_forall in HI.
  destruct (HI g Hg) as [Hix [Hr Hq]].
  pose proof (lo_nonempty _ _ Hok) as Hne. unfold check_level. rewrite Hix.
  erewrite (bind_Ret (load_level _)) by (by apply load_level_ok). simpl.
  destruct (level_ends (gl_orders g)) as [[h Hh] [t Ht]].
  { intros E. apply Hne. simpl. by rewrite E. }
  rewrite Hh, Ht, <-Hh. erewrite (bind_Ret get) by reflexivity.
  pose proof (check_queue_ok b (gl_loc g) (gl_orders g) None (queue_fuel b) 0 Hq
    (level_leaves _ _ Hok) Hf) as Hrun.
  erewrite (bind_Ret (check_queue _ _ _ _)) by exact Hrun. simpl. by rewrite Z.eqb_refl.
Qed.

Lemma check_levels_ok b G r gs :
  rep b G -> (forall g, g ∈ gs -> g ∈ G r) -> Forall (level_ok (is_bid r)) (abs_side gs) ->
  check_levels (get_side r b) (map gl_price gs) b = Ret (None, b).
Proof.
  intros R. induction gs as [|g gs IH]; intros Hin Hok; [done|].
  simpl in Hok. apply Forall_cons in Hok as [Hg Hok]. simpl. unfold check_then.
  erewrite bind_Ret by (eapply check_level_ok; [done|apply Hin; left|done]).
  apply IH; [|done]. intros g' Hg'. apply Hin. by right.
Qed.

Lemma check_side_ok b G r :
  rep b G -> side_ok (is_bid r) (abs_side (G r)) -> check_side r b = Ret (None, b).
Proof.
  intros R [Hok _]. unfold check_side. erewrite (bind_Ret (load_side _)) by reflexivity.
  unfold check_then. rewrite (rp_flag _ _ R), (rp_prices _ _ R), check_sorted_ok by apply R.
  erewrite (bind_Ret (ret _)) by reflexivity. by eapply check_levels_ok.
Qed.

Lemma CheckInvariants_repr b s :
  repr b s -> uncrossed s -> CheckInvariants b = Ret (None, b).
Proof.
  intros (G & R & <- & [Hb Ha _ _]) Hu. unfold CheckInvariants, check_then.
  erewrite (bind_Ret (check_side refBids)) by (by eapply check_side_ok). cbv beta iota.
  erewrite (bind_Ret (check_side refAsks)) by (by eapply check_side_ok). cbv beta iota.
  unfold uncrossed in Hu. simpl in Hu.
  destruct (G refBids) as [|gb gbs] eqn:Eb.
  { erewrite (bind_Ret (best refBids)) by (by eapply best_empty).
    destruct (G refAsks) as [|ga gas] eqn:Ea.
    - by erewrite (bind_Ret (best refAsks)) by (by eapply best_empty).
    - by erewrite (bind_Ret (best refAsks)) by (by eapply best_run). }
  erewrite (bind_Ret (best refBids)) by (by eapply best_run).
  destruct (G refAsks) as [|ga gas] eqn:Ea.
  { by erewrite (bind_Ret (best refAsks)) by (by eapply best_empty). }
  erewrite (bind_Ret (best refAsks)) by (by eapply best_run).
  destruct (rep_focus _ _ _ [] _ _ R Eb) as ([Hrb _] & _).
  destruct (rep_focus _ _ _ [] _ _ R Ea) as ([Hra _] & _).
  erewrite (bind_Ret (load_level _)) by (by apply load_level_ok).
  erewrite (bind_Ret (load_level _)) by (by apply load_level_ok). simpl.
  apply Forall_cons in Hu as [[Hlt _]%Forall_cons _]. simpl in Hlt.
  case_match; [lia|done].
Qed.

(** ** Snapshot *)

Lemma snapshot_queue_ok b lv os p fuel :
  dlseg (h_orders (bk_heap b)) lv p os None -> (length os <= fuel)%nat ->
  snapshot_queue fuel (first_ptr os None) b = Ret (map snd os, b).
Proof.
  revert p fuel. induction os as [|[l o] os IH]; intros p fuel Hd Hf.
  { by destruct fuel. }
  destruct fuel as [|fuel]; simpl in Hf; [lia|]. destruct Hd as [Hl Hd]. cbn [snapshot_queue first_ptr].
  erewrite (bind_Ret (load_order _)) by (by apply load_order_ok). cbn [ord_Next mk_order].
  erewrite (bind_Ret (snapshot_queue _ _)) by (apply (IH (Some l)); [done|lia]).
  unfold ret. simpl. by destruct o.
Qed.

Lemma snapshot_levels_ok b G r gs :
  rep b G -> (forall g, g ∈ gs -> g ∈ G r) ->
  snapshot_levels (get_side r b) (map gl_price gs) b = Ret (abs_side gs, b).
Proof.
  intros R. induction gs as [|g gs IH]; intros Hin; [done|]. simpl.
  pose proof (rep_indexed b G r R) as HI. rewrite Forall_forall in HI.
  destruct (HI g (Hin g ltac:(left))) as [Hix [Hr Hq]]. rewrite Hix.
  erewrite (bind_Ret (load_level _)) by (by apply load_level_ok).
  erewrite (bind_Ret get) by reflexivity.
  erewrite (bind_Ret (snapshot_queue _ _))
    by (eapply snapshot_queue_ok; [done|eapply queue_fuel_enough; [done|apply Hin; left]]).
  erewrite (bind_Ret (snapshot_levels _ _)) by (apply IH; intros g' ?; apply Hin; by right).
  done.
Qed.

Lemma Book_Snapshot_repr b s : repr b s -> Book_Snapshot b = Ret (s, b).
Proof.
  intros (G & R & <- & _). unfold Book_Snapshot. erewrite (bind_Ret get) by reflexivity.
  assert (forall r, snapshotSide r b = Ret (abs_side (G r), b)) as HS.
  { intros r. unfold snapshotSide. erewrite (bind_Ret (load_side _)) by reflexivity.
    rewrite (rp_prices _ _ R). by eapply snapshot_levels_ok. }
  erewrite (bind_Ret (snapshotSide refBids)) by apply HS.
  by erewrite (bind_Ret (snapshotSide refAsks)) by apply HS.
Qed.

(** ** NewFromSnapshot *)

(** Resting the orders one after another, on the abstract book. *)
Definition rest_all (os : list OrderSnapshot) (s : Snapshot) : Snapshot :=
  fold_left (fun s o => spec_rest o s) os s.

Lemma restoreOrders_ok os b G :
  rep b G -> NoDup (map os_ID (os ++ book_orders (abs_book b G))) ->
  exists b' G', restoreOrders os b = Ret (tt, b') /\ rep b' G' /\
    abs_book b' G' = rest_all os (abs_book b G).
Proof.
  revert b G. induction os as [|o os IH]; intros b G R Hnd; [by exists b, G|].
  simpl in Hnd. apply NoDup_cons in Hnd as [Hni Hnd].
  destruct (new_order_abs b G (mk_order o None None None) R) as (b1 & li & Hnew & R1 & Hout & Habs1).
  simpl. erewrite (bind_Ret (new_order _)) by exact Hnew.
  destruct (rest_abs_book b1 G li _ R1 Hout) as (b2 & G2 & Hrest & R2 & Habs2 & _).
  { rewrite data_of_mk_order, Habs1. intros Hin. apply Hni. rewrite map_app. apply elem_of_app. auto. }
  erewrite (bind_Ret (rest _)) by exact Hrest. rewrite data_of_mk_order, Habs1 in Habs2.
  rewrite <-Habs2. apply IH; [done|]. rewrite Habs2, map_app, spec_rest_perm. simpl.
  rewrite <-Permutation_middle, <-map_app. by apply NoDup_cons.
Qed.

Lemma rest_all_perm os s : book_orders (rest_all os s) ≡ₚ os ++ book_orders s.
Proof.
  revert s. induction os as [|o os IH]; intros s; [done|]. simpl. rewrite IH, spec_rest_perm.
  symmetry. apply Permutation_middle.
Qed.

Lemma restoreSide_ok ls b G :
  rep b G -> NoDup (map os_ID (all_orders ls ++ book_orders (abs_book b G))) ->
  exists b' G', restoreSide ls b = Ret (tt, b') /\ rep b' G' /\
    abs_book b' G' = rest_all (all_orders ls) (abs_book b G).
Proof.
  revert b G. induction ls as [|l ls IH]; intros b G R Hnd; [by exists b, G|].
  rewrite all_orders_cons in *. unfold rest_all. rewrite fold_left_app. fold (rest_all (pls_Orders l) (abs_book b G)).
  destruct (restoreOrders_ok (pls_Orders l) b G R) as (b1 & G1 & Hrun & R1 & Habs1).
  { eapply sublist_NoDup; [exact Hnd|]. apply (fmap_sublist os_ID). rewrite <-app_assoc.
    apply sublist_app; [done|]. by apply sublist_inserts_l. }
  simpl. erewrite (bind_Ret (restoreOrders _)) by exact Hrun. rewrite <-Habs1.
  apply IH; [done|]. rewrite Habs1, map_app, rest_all_perm, <-map_app.
  eapply NoDup_Permutation_proper; [|exact Hnd]. apply Permutation_map. rewrite <-app_assoc.
  rewrite !(app_assoc _ _ (book_orders _)). by rewrite (Permutation_app_comm (all_orders ls)).
Qed.

Lemma level_insert_same isBid o acc p pre :
  Forall (fun l => better isBid (pls_Price l) p) acc -> os_Price o = p ->
  level_insert isBid o (acc ++ [mkPriceLevelSnapshot p pre])
  = acc ++ [mkPriceLevelSnapshot p (pre ++ [o])].
Proof.
  intros Ha <-. rewrite level_insert_app by done. simpl. by rewrite Z.eqb_refl.
Qed.

Lemma level_insert_queue isBid os acc p pre :
  Forall (fun l => better isBid (pls_Price l) p) acc -> Forall (fun o => os_Price o = p) os ->
  fold_left (fun ls o => level_insert isBid o ls) os (acc ++ [mkPriceLevelSnapshot p pre])
  = acc ++ [mkPriceLevelSnapshot p (pre ++ os)].
Proof.
  intros Ha Hos. revert pre. induction Hos as [|o os Ho Hos IH]; intros pre; simpl.
  - by rewrite app_nil_r.
  - rewrite level_insert_same by done. rewrite IH. by rewrite <-app_assoc.
Qed.

(** Resting the orders of a side level by level, best level first, rebuilds it. *)
Lemma level_insert_side isBid ls acc :
  side_ok isBid ls ->
  Forall (fun l => Forall (fun l' => better isBid (pls_Price l) (pls_Price l')) ls) acc ->
  fold_left (fun ls o => level_insert isBid o ls) (all_orders ls) acc = acc ++ ls.
Proof.
  revert acc. induction ls as [|l ls IH]; intros acc Hok Hacc; [by rewrite app_nil_r|].
  apply side_ok_cons in Hok as ([_ Hp Hne] & Hl & Hs).
  assert (Forall (fun l' => better isBid (pls_Price l') (pls_Price l)) acc) as Ha.
  { eapply Forall_impl; [exact Hacc|]. intros l' H'. by apply Forall_cons in H' as [? _]. }
  rewrite all_orders_cons, fold_left_app. destruct l as [p os]. simpl in *.
  destruct Hp as [|o os Ho Hos]; [done|]. simpl.
  assert (level_insert isBid o acc = acc ++ [mkPriceLevelSnapshot p [o]]) as E1.
  { rewrite <-(app_nil_r acc) at 1. subst p. by rewrite level_insert_app. }
  rewrite E1, level_insert_queue by done. simpl. rewrite IH; [by rewrite <-app_assoc|done|].
  apply Forall_app. split; [|by repeat constructor].
  eapply Forall_impl; [exact Hacc|]. intros l' H'. by apply Forall_cons in H' as [_ ?].
Qed.

Lemma rest_all_bids os s :
  Forall (order_ok true) os ->
  rest_all os s = set_sides (fold_left (fun ls o => level_insert true o ls) os (sn_Bids s)) (sn_Asks s) s.
Proof.
  intros H. revert s. induction H as [|o os [Ho] Hos IH]; intros s; [by destruct s|].
  simpl. rewrite IH. unfold spec_rest. by rewrite Ho.
Qed.

Lemma rest_all_asks os s :
  Forall (order_ok false) os ->
  rest_all os s = set_sides (sn_Bids s) (fold_left (fun ls o => level_insert false o ls) os (sn_Asks s)) s.
Proof.
  intros H. revert s. induction H as [|o os [Ho] Hos IH]; intros s; [by destruct s|].
  simpl. rewrite IH. unfold spec_rest. by rewrite Ho.
Qed.

Lemma NewFromSnapshot_repr s :
  core_ok s -> exists b, NewFromSnapshot s = Ret b /\ repr b s.
Proof.
  intros Hc. pose proof Hc as [Hb Ha Hid Hn]. unfold NewFromSnapshot.
  set (b0 := set_nextTradeSeq _ _). pose proof (empty_rep (sn_Symbol s) (sn_NextTradeSeq s)) as R0.
  fold b0 in R0. set (s0 := empty_snapshot (sn_Symbol s) (sn_NextTradeSeq s)).
  assert (abs_book b0 (fun _ => []) = s0) as Habs0 by done.
  destruct (restoreSide_ok (sn_Bids s) b0 _ R0) as (b1 & G1 & Hrun1 & R1 & Habs1).
  { rewrite Habs0. unfold book_orders in *. simpl. rewrite app_nil_r.
    eapply sublist_NoDup; [exact Hid|]. apply (fmap_sublist os_ID). by apply sublist_inserts_r. }
  erewrite (bind_Ret (restoreSide _)) by exact Hrun1.
  rewrite Habs0, rest_all_bids, level_insert_side in Habs1
    by (done || by apply side_ok_orders || constructor). simpl in Habs1.
  destruct (restoreSide_ok (sn_Asks s) b1 G1 R1) as (b2 & G2 & Hrun2 & R2 & Habs2).
  { rewrite Habs1. unfold book_orders in *. simpl. rewrite app_nil_r.
    eapply NoDup_Permutation_proper; [|exact Hid]. apply Permutation_map, Permutation_app_comm. }
  rewrite Hrun2. exists b2. split; [done|]. exists G2. split_and!; [done| |done].
  rewrite Habs2, Habs1, rest_all_asks, level_insert_side by (done || by apply side_ok_orders || constructor).
  by destruct s.
Qed.
