(* ===== verification/BookFacts.v ===== *)
(** * BookFacts: what the specification of a book guarantees

    Facts about [spec_Apply] that the properties of the code follow from: how a
    side is consumed (price-time priority, quantity), what the events of a
    command add up to, when fill-or-kill orders are taken. *)

From S2P Require Import Prelude Model Book BookSpec.

(** ** Reading events *)

Definition is_type (t : Z) (e : Event) : bool := ev_Type e =? t.

Definition sum_of (f : Event -> Z) (evs : list Event) : Z := foldr (fun e acc => f e + acc) 0 evs.

(** Quantity traded, canceled and rested according to the events. *)
Definition traded_qty (evs : list Event) : Z :=
  sum_of (fun e => if is_type EventTrade e then ev_Quantity e else 0) evs.
Definition canceled_qty (evs : list Event) : Z :=
  sum_of (fun e => if is_type EventCanceled e then ev_CanceledQty e else 0) evs.
Definition rested_qty (evs : list Event) : Z :=
  sum_of (fun e => if is_type EventOrderRested e then ev_LeavesQty e else 0) evs.

(** The trade events, in order. *)
Definition trades (evs : list Event) : list Event := filter (fun e => ev_Type e = EventTrade) evs.

Definition trade_ids (evs : list Event) : list Z := map ev_TradeID (trades evs).

(** The open quantity of a side. *)
Definition side_qty (ls : list PriceLevelSnapshot) : Z := leaves_sum (all_orders ls).

Lemma sum_of_app f evs evs' : sum_of f (evs ++ evs') = sum_of f evs + sum_of f evs'.
Proof. induction evs as [|e evs IH]; simpl; lia. Qed.

Lemma trades_app evs evs' : trades (evs ++ evs') = trades evs ++ trades evs'.
Proof. apply filter_app. Qed.

Lemma leaves_sum_perm os os' : os ≡ₚ os' -> leaves_sum os = leaves_sum os'.
Proof. induction 1; simpl; lia. Qed.

(** ** The events of a list of fills *)

(** The trade event of a fill. *)
Definition fill_trade (seq taker nts : Z) (f : fill) : Event :=
  ev_trade (trade_id seq nts) (os_ID f.1) taker (os_Price f.1) f.2.

(** The [k]-th fill after trade counter [nts] uses counter [nts + k]. *)
Definition nts_at (nts : Z) (k : nat) : Z := wrap_u64 (nts + Z.of_nat k).

Lemma fill_events_cons seq taker nts f fs :
  fill_events seq taker nts (f :: fs) =
  fill_trade seq taker nts f
  :: (if os_LeavesQty f.1 - f.2 =? 0 then [] else [ev_reduced (os_ID f.1) (os_LeavesQty f.1 - f.2)])
  ++ fill_events seq taker (u64_add nts 1) fs.
Proof. by destruct f. Qed.

Lemma trades_fill_events seq taker nts fs :
  is_u64 nts ->
  trades (fill_events seq taker nts fs) =
  imap (fun k f => fill_trade seq taker (nts_at nts k) f) fs.
Proof.
  revert nts. induction fs as [|f fs IH]; intros nts Hn; [done|].
  rewrite fill_events_cons. unfold trades. rewrite filter_cons_True by done. simpl. f_equal.
  - unfold nts_at. by rewrite Z.add_0_r, wrap_u64_id.
  - assert (trades (if os_LeavesQty f.1 - f.2 =? 0 then []
                    else [ev_reduced (os_ID f.1) (os_LeavesQty f.1 - f.2)]) = []) as E
      by (by case_match).
    change (filter ?P ?l) with (trades l). rewrite trades_app, E, IH by apply wrap_u64_range.
    simpl. apply imap_ext. intros k g _. simpl. f_equal. unfold nts_at. int_lia.
Qed.

Lemma fill_events_sums seq taker nts fs :
  traded_qty (fill_events seq taker nts fs) = fills_sum fs /\
  canceled_qty (fill_events seq taker nts fs) = 0 /\
  rested_qty (fill_events seq taker nts fs) = 0.
Proof.
  revert nts. induction fs as [|f fs IH]; intros nts; [done|].
  destruct (IH (u64_add nts 1)) as (H1 & H2 & H3).
  rewrite fill_events_cons. unfold traded_qty, canceled_qty, rested_qty in *. simpl.
  rewrite !sum_of_app, H1, H2, H3. case_match; simpl; lia.
Qed.

Lemma fill_events_types seq taker nts fs :
  Forall (fun e => ev_Type e = EventTrade \/ ev_Type e = EventOrderReduced)
    (fill_events seq taker nts fs).
Proof.
  revert nts. induction fs as [|f fs IH]; intros nts; [constructor|].
  rewrite fill_events_cons. constructor; [by left|]. apply Forall_app. split; [|done].
  case_match; constructor; [by right|constructor].
Qed.

(** ** Price-time priority *)

(** All fills but the last take everything the maker has. *)
Fixpoint full_but_last (fs : list fill) : Prop :=
  match fs with
  | [] => True
  | [_] => True
  | f :: fs' => f.2 = os_LeavesQty f.1 /\ full_but_last fs'
  end.

Lemma full_but_last_cons f fs :
  f.2 = os_LeavesQty f.1 -> full_but_last fs -> full_but_last (f :: fs).
Proof. destruct fs; simpl; auto. Qed.

Lemma full_but_last_app fs fs' :
  Forall (fun f => f.2 = os_LeavesQty f.1) fs -> full_but_last fs' -> full_but_last (fs ++ fs').
Proof. induction 1; simpl; [done|]. intros H'. apply full_but_last_cons; auto. Qed.

Lemma take_orders_full qty os :
  full_but_last (take_orders qty os).1.1 /\
  ((take_orders qty os).2 = [] -> Forall (fun f => f.2 = os_LeavesQty f.1) (take_orders qty os).1.1).
Proof.
  revert qty. induction os as [|o os IH]; intros qty; simpl; [by split; [|constructor]|].
  case_match; [done|]. case_match; [|done].
  specialize (IH (qty - os_LeavesQty o)). destruct (take_orders _ os) as [[fs q] r].
  simpl in *. destruct IH as [IH1 IH2]. split; [by apply (full_but_last_cons (o, os_LeavesQty o))|].
  intros Hr. constructor; [done|]. auto.
Qed.

Lemma take_levels_full_but_last allowed qty ls :
  full_but_last (take_levels allowed qty ls).1.1.
Proof.
  revert qty. induction ls as [|l ls IH]; intros qty; simpl; [done|]. case_match; [done|].
  destruct (take_orders_full qty (pls_Orders l)) as [H1 H2].
  destruct (take_orders qty (pls_Orders l)) as [[fs q] os]. simpl in *. destruct os; [|done].
  specialize (IH q). destruct (take_levels allowed q ls) as [[fs' q'] r]. simpl in *.
  apply full_but_last_app; auto.
Qed.

Lemma take_orders_sublist qty os : map fst (take_orders qty os).1.1 `prefix_of` os.
Proof.
  revert qty. induction os as [|o os IH]; intros qty; simpl; [done|].
  case_match; [apply prefix_nil|]. case_match; [|apply prefix_cons, prefix_nil].
  specialize (IH (qty - os_LeavesQty o)). destruct (take_orders _ os) as [[fs q] r].
  simpl in *. by apply prefix_cons.
Qed.

(** Every maker's price is allowed. *)
Lemma take_levels_allowed isBid allowed qty ls :
  Forall (level_ok isBid) ls ->
  Forall (fun f => allowed (os_Price f.1) = true) (take_levels allowed qty ls).1.1.
Proof.
  intros H. revert qty. induction H as [|l ls [_ Hp _] Hls IH]; intros qty; simpl; [constructor|].
  case_match eqn:E; [constructor|]. apply orb_false_iff in E as [_ E%negb_false_iff].
  pose proof (take_orders_sublist qty (pls_Orders l)) as [k Hk].
  destruct (take_orders qty (pls_Orders l)) as [[fs q] os]. simpl in *.
  assert (Forall (fun f => allowed (os_Price f.1) = true) fs) as Hfs.
  { rewrite Hk in Hp. apply Forall_app in Hp as [Hp _]. apply (proj1 (Forall_map _ _ _)) in Hp.
    eapply Forall_impl; [exact Hp|]. simpl. by intros f ->. }
  destruct os; [|done]. specialize (IH q). destruct (take_levels allowed q ls) as [[fs' q'] r].
  simpl in *. by apply Forall_app.
Qed.

(** ** Matching as a list of fills *)

Definition put_opposite (side : Z) (ls : list PriceLevelSnapshot) (nts : Z) (s : Snapshot) : Snapshot :=
  if side =? SideBuy then mkSnapshot (sn_Symbol s) nts (sn_Bids s) ls
  else mkSnapshot (sn_Symbol s) nts ls (sn_Asks s).

Definition own_side (side : Z) (s : Snapshot) : list PriceLevelSnapshot :=
  if side =? SideBuy then sn_Bids s else sn_Asks s.

(** [fs] are the fills of an order of [qty] with limit [limit], best price first
    and first come first served within a price; [rem] is what is left of it. *)
Record priority_fills (side limit qty : Z) (s : Snapshot) (fs : list fill) (rem : Z) : Prop := {
  pf_prefix : map fst fs `prefix_of` all_orders (opposite side s);
  pf_full : full_but_last fs;
  pf_ok : Forall fill_ok fs;
  pf_price : Forall (fun f => price_ok side limit (os_Price f.1) = true) fs;
  pf_sum : fills_sum fs + rem = qty;
  pf_rem : 0 <= rem
}.

Definition opp_flag (side : Z) : bool := negb (side =? SideBuy).

Lemma opposite_ok side s : core_ok s -> side_ok (opp_flag side) (opposite side s).
Proof. intros [Hb Ha _ _]. unfold opp_flag, opposite. by destruct (side =? SideBuy). Qed.

Lemma spec_match_eq seq id side limit qty s :
  spec_match seq id side limit qty s =
  let '(fs, rem, ls) := take_levels (price_ok side limit) qty (opposite side s) in
  (fill_events seq id (sn_NextTradeSeq s) fs, rem,
   put_opposite side ls (nts_at (sn_NextTradeSeq s) (length fs)) s).
Proof.
  unfold spec_match, opposite, put_opposite, nts_at. destruct (side =? SideBuy); by case_match.
Qed.

(** Everything [spec_match] does, in one place. *)
Record matched (side limit qty : Z) (s : Snapshot) (fs : list fill) (rem : Z) (ls : list PriceLevelSnapshot)
  : Prop := {
  mt_fills : priority_fills side limit qty s fs rem;
  mt_ok : side_ok (opp_flag side) ls;
  mt_qty : side_qty (opposite side s) = fills_sum fs + side_qty ls;
  mt_refused : 0 < rem -> head_refused (price_ok side limit) ls;
  mt_ids : map os_ID (all_orders ls) `sublist_of` map os_ID (all_orders (opposite side s))
}.

Lemma spec_match_matched side limit qty s :
  core_ok s -> 0 <= qty ->
  let '(fs, rem, ls) := take_levels (price_ok side limit) qty (opposite side s) in
  matched side limit qty s fs rem ls.
Proof.
  intros Hc Hq. pose proof (opposite_ok side s Hc) as Hok.
  pose proof (take_levels_taken _ (price_ok side limit) qty _ Hok Hq) as HT.
  pose proof (take_levels_full_but_last (price_ok side limit) qty (opposite side s)) as HF.
  pose proof (take_levels_allowed _ (price_ok side limit) qty _ (so_levels _ _ Hok)) as HA.
  destruct (take_levels _ _ _) as [[fs q] r]. destruct HT as ([] & Hr & Hh).
  split; try done.
Qed.

(** ** Fill or kill *)

(** What an order can take from the opposite side. *)
Definition fillable (allowed : Z -> bool) (ls : list PriceLevelSnapshot) : Z :=
  leaves_sum (filter (fun o => allowed (os_Price o) = true) (all_orders ls)).

(** The allowed prices of a side are its best ones. *)
Definition downward (isBid : bool) (allowed : Z -> bool) : Prop :=
  forall p q, better isBid p q -> allowed q = true -> allowed p = true.

Lemma price_ok_downward side limit : downward (opp_flag side) (price_ok side limit).
Proof.
  intros p q. unfold opp_flag, price_ok, betterb.
  destruct (limit =? 0), (side =? SideBuy); simpl; lia || done.
Qed.

Lemma can_take_downward side otype limit : downward (opp_flag side) (can_take side otype limit).
Proof.
  intros p q. unfold opp_flag, can_take, betterb.
  destruct (otype =? OrderTypeMarket), (side =? SideBuy); simpl; lia || done.
Qed.

Lemma filter_all {A} (P : A -> Prop) `{forall x, Decision (P x)} l : Forall P l -> filter P l = l.
Proof. induction 1; [done|]. rewrite filter_cons_True by done. by f_equal. Qed.

Lemma filter_none {A} (P : A -> Prop) `{forall x, Decision (P x)} l :
  Forall (fun x => ~ P x) l -> filter P l = [].
Proof. induction 1; [done|]. by rewrite filter_cons_False. Qed.

Lemma level_price_all isBid (P : Z -> Prop) ls :
  Forall (level_ok isBid) ls -> Forall (fun l => P (pls_Price l)) ls ->
  Forall (fun o => P (os_Price o)) (all_orders ls).
Proof.
  induction 1 as [|l ls [_ Hp _] Hls IH]; intros HP; [constructor|].
  apply Forall_cons in HP as [H1 H2]. rewrite all_orders_cons. apply Forall_app. split; [|auto].
  eapply Forall_impl; [exact Hp|]. simpl. by intros o ->.
Qed.

Lemma fillable_refused isBid allowed l ls :
  side_ok isBid (l :: ls) -> downward isBid allowed -> allowed (pls_Price l) = false ->
  fillable allowed (l :: ls) = 0.
Proof.
  intros Hok Hd Hr. unfold fillable. rewrite filter_none; [done|].
  apply (level_price_all isBid (fun p => ~ allowed p = true)); [apply Hok|].
  apply side_ok_cons in Hok as (_ & Hl & _). constructor; [congruence|].
  eapply Forall_impl; [exact Hl|]. intros l' Hl' Ha. rewrite (Hd _ _ Hl' Ha) in Hr. done.
Qed.

Lemma fillable_allowed isBid allowed l ls :
  level_ok isBid l -> allowed (pls_Price l) = true ->
  fillable allowed (l :: ls) = leaves_sum (pls_Orders l) + fillable allowed ls.
Proof.
  intros [_ Hp _] Ha. unfold fillable. rewrite all_orders_cons, filter_app, leaves_sum_app.
  rewrite filter_all; [done|]. eapply Forall_impl; [exact Hp|]. simpl. by intros o ->.
Qed.

Lemma side_qty_nonneg isBid ls : side_ok isBid ls -> 0 <= side_qty ls.
Proof. intros H. eapply leaves_sum_nonneg. by apply side_ok_orders. Qed.

Lemma fillable_nonneg isBid allowed ls : side_ok isBid ls -> 0 <= fillable allowed ls.
Proof.
  intros H%side_ok_orders. unfold fillable. apply (leaves_sum_nonneg isBid).
  rewrite Forall_forall in *. intros o [_ Ho]%list_elem_of_filter. auto.
Qed.

(** The availability scan is exact as long as the side's quantity fits in 64 bits. *)
Lemma spec_available_exact isBid allowed required ls total :
  side_ok isBid ls -> downward isBid allowed -> 0 <= total -> total < required <= MaxInt64 ->
  total + side_qty ls <= MaxInt64 ->
  (spec_available_loop allowed required ls total <? required)
  = (total + fillable allowed ls <? required).
Proof.
  revert total. induction ls as [|l ls IH]; intros total Hok Hd Ht Hr Hs.
  { unfold fillable. simpl. by rewrite Z.add_0_r. }
  pose proof Hok as (Hl & _ & Hls)%side_ok_cons. simpl.
  pose proof (leaves_sum_nonneg _ _ (lo_orders _ _ Hl)) as Hpos.
  pose proof (side_qty_nonneg _ _ Hls) as Hpos'. pose proof (fillable_nonneg _ allowed _ Hls) as Hfp.
  unfold side_qty in Hs, Hpos'. rewrite all_orders_cons, leaves_sum_app in Hs.
  destruct (allowed (pls_Price l)) eqn:Ha; simpl.
  - rewrite (fillable_allowed isBid) by done. unfold level_qty.
    rewrite wrap_i64_id by int_lia. rewrite i64_sub_id, i64_add_id by int_lia.
    destruct (_ >=? _) eqn:E.
    + rewrite Z.ltb_irrefl. symmetry. apply Z.ltb_ge. lia.
    + rewrite IH by (done || unfold side_qty; lia). f_equal. lia.
  - rewrite (fillable_refused isBid) by done. by rewrite Z.add_0_r.
Qed.

(** Matching takes whatever is fillable, up to the quantity asked for. *)
Lemma take_orders_sum qty os isBid :
  Forall (order_ok isBid) os -> 0 <= qty ->
  fills_sum (take_orders qty os).1.1 = Z.min qty (leaves_sum os).
Proof.
  intros H Hq. pose proof (take_orders_taken isBid qty os H Hq) as HT.
  destruct (take_orders qty os) as [[fs q] r]. destruct HT as [HT He].
  pose proof (leaves_sum_nonneg _ _ (tk_ok _ _ _ _ _ _ HT)). destruct HT as [? ? ? _ _ _ _]. simpl in *. destruct He as [->| ->]; simpl in *; lia.
Qed.

Lemma take_levels_sum isBid allowed qty ls :
  side_ok isBid ls -> downward isBid allowed -> 0 <= qty ->
  fills_sum (take_levels allowed qty ls).1.1 = Z.min qty (fillable allowed ls).
Proof.
  intros Hok Hd. revert qty. induction ls as [|l ls IH]; intros qty Hq.
  { unfold fillable. simpl. lia. }
  pose proof Hok as (Hl & _ & Hls)%side_ok_cons. simpl.
  pose proof (fillable_nonneg _ allowed _ Hok) as Hf0. pose proof (fillable_nonneg _ allowed _ Hls) as Hf.
  destruct (qty <=? 0) eqn:E; [simpl; lia|]. destruct (allowed (pls_Price l)) eqn:Ha; simpl.
  - rewrite (fillable_allowed isBid) by done.
    pose proof (take_orders_taken isBid qty (pls_Orders l) (lo_orders _ _ Hl) Hq) as HT.
    pose proof (take_orders_sum qty (pls_Orders l) isBid (lo_orders _ _ Hl) Hq) as HS.
    destruct (take_orders qty (pls_Orders l)) as [[fs q] os]. destruct HT as [[Hq0 ? ? _ _ _ _] He]. simpl in *.
    destruct os as [|o os].
    + specialize (IH Hls q Hq0). destruct (take_levels allowed q ls) as [[fs' q'] r].
      simpl in *. rewrite fills_sum_app. lia.
    + destruct He as [?| ->]; [done|]. simpl. lia.
  - rewrite (fillable_refused isBid) by done. simpl. lia.
Qed.
