(* ===== verification/BookTrace.v ===== *)
(** * BookTrace: reachable books and their steps

    [reachable b] holds of the books the program can build: a new one, one
    reached by applying a command, one restored from the snapshot of a reachable
    one.  [book_step cmd s res s'] is a whole command seen through snapshots: a
    reachable book with snapshot [s] answers [cmd] with [res] and then has
    snapshot [s'].  The lemmas turn a step into the specification's step, and
    give the case analysis of each command on abstract books. *)

From S2P Require Import Prelude Model Book BookSpec BookRep BookApply BookWalk BookFacts.

(** ** Reachable books *)

Inductive reachable : Book -> Prop :=
| reach_new symbol : reachable (Book_New symbol)
| reach_apply b cmd res b' :
    reachable b -> command_typed cmd -> Apply cmd b = Ret (res, b') -> reachable b'
| reach_restore b s b1 b' :
    reachable b -> Book_Snapshot b = Ret (s, b1) -> NewFromSnapshot s = Ret b' -> reachable b'.

(** The commands of a shard's stream, applied one after the other. *)
Fixpoint apply_all (cmds : list Command) : M (list Result) :=
  match cmds with
  | [] => ret []
  | cmd :: cmds' =>
      let! r := Apply cmd in
      let! rs := apply_all cmds' in
      ret (r :: rs)
  end.

Definition book_step (cmd : Command) (s : Snapshot) (res : Result) (s' : Snapshot) : Prop :=
  exists b b', reachable b /\ Book_Snapshot b = Ret (s, b) /\ command_typed cmd /\
    Apply cmd b = Ret (res, b') /\ Book_Snapshot b' = Ret (s', b').

Lemma reachable_repr b : reachable b -> exists s, repr b s /\ book_ok s.
Proof.
  induction 1 as [symbol|b cmd res b' _ (s & Hr & Hok) Ht Hrun|b s1 b1 b' _ (s & Hr & Hok) Hs Hn].
  - exists (empty_snapshot symbol 1). split; [apply Book_New_repr|]. by apply empty_book_ok.
  - destruct (Apply_repr cmd b s Ht Hr Hok) as (b2 & Hrun2 & Hr2). rewrite Hrun in Hrun2.
    simplify_eq. eexists. split; [done|]. by apply spec_Apply_ok.
  - rewrite (Book_Snapshot_repr b s Hr) in Hs. simplify_eq.
    destruct (NewFromSnapshot_repr s1 (bo_core _ Hok)) as (b2 & Hn2 & Hr2).
    rewrite Hn in Hn2. simplify_eq. by exists s1.
Qed.

Lemma reachable_snapshot b s b1 :
  reachable b -> Book_Snapshot b = Ret (s, b1) -> b1 = b /\ repr b s /\ book_ok s.
Proof.
  intros (s0 & Hr & Hok)%reachable_repr Hs. rewrite (Book_Snapshot_repr b s0 Hr) in Hs.
  by simplify_eq.
Qed.

Lemma apply_all_reachable cmds b rs b' :
  reachable b -> Forall command_typed cmds -> apply_all cmds b = Ret (rs, b') -> reachable b'.
Proof.
  intros Hb Ht. revert b rs Hb. induction Ht as [|cmd cmds Hc Hcs IH]; intros b rs Hb Hrun.
  { unfold apply_all, ret in Hrun. by simplify_eq. }
  simpl in Hrun. apply bind_inv in Hrun as (r & b1 & H1 & Hrun).
  apply bind_inv in Hrun as (rs' & b2 & H2 & Hrun). unfold ret in Hrun. simplify_eq.
  eapply IH; [|exact H2]. by eapply reach_apply.
Qed.

Lemma repr_apply b s cmd res b' :
  repr b s -> book_ok s -> command_typed cmd -> Apply cmd b = Ret (res, b') ->
  res = (spec_Apply cmd s).1 /\ repr b' (spec_Apply cmd s).2.
Proof.
  intros Hr Hok Ht Hrun. destruct (Apply_repr cmd b s Ht Hr Hok) as (b2 & Hrun2 & Hr2).
  rewrite Hrun in Hrun2. by simplify_eq.
Qed.

(** A step of the code is the step of the specification. *)
Lemma book_step_spec cmd s res s' :
  book_step cmd s res s' ->
  book_ok s /\ command_typed cmd /\ res_Events res = (spec_events cmd s).1 /\
  res_CommandSeq res = cmd_Seq cmd /\ s' = (spec_events cmd s).2.
Proof.
  intros (b & b' & Hb & Hs & Ht & Hrun & Hs').
  destruct (reachable_snapshot _ _ _ Hb Hs) as (_ & Hr & Hok).
  destruct (repr_apply _ _ _ _ _ Hr Hok Ht Hrun) as [-> Hr'].
  rewrite (Book_Snapshot_repr _ _ Hr') in Hs'. unfold spec_Apply in *.
  destruct (spec_events cmd s) as [evs s2]. by simplify_eq.
Qed.

(** Applying a list of commands on abstract books. *)
Fixpoint spec_all (cmds : list Command) (s : Snapshot) : list Result * Snapshot :=
  match cmds with
  | [] => ([], s)
  | cmd :: cmds' =>
      let '(r, s1) := spec_Apply cmd s in
      let '(rs, s2) := spec_all cmds' s1 in
      (r :: rs, s2)
  end.

Lemma apply_all_repr cmds b s :
  repr b s -> book_ok s -> Forall command_typed cmds ->
  exists b', apply_all cmds b = Ret ((spec_all cmds s).1, b') /\
    repr b' (spec_all cmds s).2 /\ book_ok (spec_all cmds s).2.
Proof.
  intros Hr Hok Ht. revert b s Hr Hok. induction Ht as [|cmd cmds Hc Hcs IH]; intros b s Hr Hok.
  { by exists b. }
  destruct (Apply_repr cmd b s Hc Hr Hok) as (b1 & Hrun1 & Hr1).
  pose proof (spec_Apply_ok cmd s Hc Hok) as Hok1. simpl.
  destruct (spec_Apply cmd s) as [r s1]. simpl in *.
  destruct (IH b1 s1 Hr1 Hok1) as (b2 & Hrun2 & Hr2 & Hok2).
  erewrite (bind_Ret (Apply _)) by exact Hrun1. erewrite (bind_Ret (apply_all _)) by exact Hrun2.
  destruct (spec_all cmds s1) as [rs s2]. by exists b2.
Qed.

(** ** The outcomes of a command *)

(** What becomes of the rest of a new order. *)
Inductive new_end (cmd : Command) (rem : Z) (s : Snapshot) : list Event -> Snapshot -> Prop :=
| new_filled : rem = 0 -> new_end cmd rem s [] s
| new_dropped :
    0 < rem -> cmd_OrderType cmd = OrderTypeMarket \/ cmd_TimeInForce cmd = TIFIOC ->
    new_end cmd rem s [ev_canceled (cmd_OrderID cmd) rem CancelUnfilledRemainder] s
| new_rested :
    0 < rem -> cmd_OrderType cmd = OrderTypeLimit -> cmd_TimeInForce cmd <> TIFIOC ->
    0 < cmd_Price cmd ->
    new_end cmd rem s [ev_rested (cmd_OrderID cmd) (cmd_Price cmd) rem]
      (spec_rest (mkOrderSnapshot (cmd_OrderID cmd) (cmd_Side cmd) (cmd_Price cmd) rem (cmd_Seq cmd)) s).

Definition after_match (side : Z) (fs : list fill) (ls : list PriceLevelSnapshot) (s : Snapshot) : Snapshot :=
  put_opposite side ls (nts_at (sn_NextTradeSeq s) (length fs)) s.

Definition match_events (seq id : Z) (fs : list fill) (s : Snapshot) : list Event :=
  fill_events seq id (sn_NextTradeSeq s) fs.

Inductive new_outcome (cmd : Command) (s : Snapshot) : list Event -> Snapshot -> Prop :=
| new_duplicate o :
    find_order (cmd_OrderID cmd) (book_orders s) = Some o ->
    new_outcome cmd s [ev_rejected RejectDuplicateOrderID (cmd_OrderID cmd)] s
| new_unfillable :
    find_order (cmd_OrderID cmd) (book_orders s) = None -> cmd_TimeInForce cmd = TIFFOK ->
    spec_available (cmd_Side cmd) (cmd_Price cmd) (cmd_OrderType cmd) (cmd_Quantity cmd) s
      < cmd_Quantity cmd ->
    new_outcome cmd s [ev_rejected RejectWouldNotFullyFill (cmd_OrderID cmd)] s
| new_accepted fs rem ls tail s' :
    find_order (cmd_OrderID cmd) (book_orders s) = None ->
    (cmd_TimeInForce cmd = TIFFOK -> cmd_Quantity cmd <=
       spec_available (cmd_Side cmd) (cmd_Price cmd) (cmd_OrderType cmd) (cmd_Quantity cmd) s) ->
    take_levels (price_ok (cmd_Side cmd) (cmd_Price cmd)) (cmd_Quantity cmd)
      (opposite (cmd_Side cmd) s) = (fs, rem, ls) ->
    matched (cmd_Side cmd) (cmd_Price cmd) (cmd_Quantity cmd) s fs rem ls ->
    new_end cmd rem (after_match (cmd_Side cmd) fs ls s) tail s' ->
    new_outcome cmd s
      (ev_accepted (cmd_OrderID cmd) :: match_events (cmd_Seq cmd) (cmd_OrderID cmd) fs s ++ tail) s'.

Lemma spec_New_outcome cmd s :
  book_ok s -> Command_Validate cmd = None -> cmd_Type cmd = CommandNew ->
  new_outcome cmd s (spec_New cmd s).1 (spec_New cmd s).2.
Proof.
  intros Hok Hv Hty. destruct (Validate_New _ Hv Hty) as (Hside & Hot & Htif & Hq & Hp).
  unfold spec_New. destruct (find_order _ _) as [o|] eqn:Ef; [by eapply new_duplicate|].
  rewrite spec_match_eq.
  pose proof (spec_match_matched (cmd_Side cmd) (cmd_Price cmd) (cmd_Quantity cmd) s
    (bo_core _ Hok) ltac:(lia)) as HM.
  destruct (_ && _) eqn:Efok.
  { apply andb_true_iff in Efok as [E1%Z.eqb_eq E2%Z.ltb_lt]. by apply new_unfillable. }
  destruct (take_levels _ _ _) as [[fs rem] ls] eqn:Et.
  assert (cmd_TimeInForce cmd = TIFFOK -> cmd_Quantity cmd <=
    spec_available (cmd_Side cmd) (cmd_Price cmd) (cmd_OrderType cmd) (cmd_Quantity cmd) s) as Hfok.
  { intros E. rewrite E in Efok. simpl in Efok. by apply Z.ltb_ge in Efok. }
  pose proof (pf_rem _ _ _ _ _ _ (mt_fills _ _ _ _ _ _ _ HM)) as Hrem.
  destruct (rem =? 0) eqn:E0.
  { simpl. rewrite <-(app_nil_r (fill_events _ _ _ _)). eapply new_accepted; eauto. constructor. lia. }
  destruct (_ || _) eqn:E1; simpl; eapply new_accepted; eauto.
  - apply orb_true_iff in E1. constructor; [lia|]. lia.
  - apply orb_false_iff in E1 as [E1 E2]. constructor; [lia|lia|lia|]. apply Hp. lia.
Qed.

Inductive replace_outcome (cmd : Command) (s : Snapshot) : list Event -> Snapshot -> Prop :=
| replace_unknown :
    find_order (cmd_OrderID cmd) (book_orders s) = None ->
    replace_outcome cmd s [ev_rejected RejectUnknownOrderID (cmd_OrderID cmd)] s
| replace_in_place o :
    find_order (cmd_OrderID cmd) (book_orders s) = Some o ->
    cmd_NewPrice cmd = 0 \/ cmd_NewPrice cmd = os_Price o ->
    0 < cmd_NewLeavesQty cmd <= os_LeavesQty o ->
    replace_outcome cmd s
      (ev_accepted (cmd_OrderID cmd)
       :: (if os_LeavesQty o - cmd_NewLeavesQty cmd >? 0
           then [ev_reduced (cmd_OrderID cmd) (cmd_NewLeavesQty cmd)] else [])
       ++ [ev_replaced (cmd_OrderID cmd) (os_Price o) (cmd_NewLeavesQty cmd) true])
      (spec_reduce (cmd_OrderID cmd) (cmd_NewLeavesQty cmd) s)
| replace_requeued o price fs rem ls :
    find_order (cmd_OrderID cmd) (book_orders s) = Some o ->
    price = (if cmd_NewPrice cmd >? 0 then cmd_NewPrice cmd else os_Price o) ->
    price <> os_Price o \/ os_LeavesQty o < cmd_NewLeavesQty cmd ->
    take_levels (price_ok (os_Side o) price) (cmd_NewLeavesQty cmd)
      (opposite (os_Side o) (spec_remove (cmd_OrderID cmd) s)) = (fs, rem, ls) ->
    matched (os_Side o) price (cmd_NewLeavesQty cmd) (spec_remove (cmd_OrderID cmd) s) fs rem ls ->
    let s1 := after_match (os_Side o) fs ls (spec_remove (cmd_OrderID cmd) s) in
    replace_outcome cmd s
      (ev_accepted (cmd_OrderID cmd)
       :: match_events (cmd_Seq cmd) (cmd_OrderID cmd) fs s
       ++ (if 0 <? rem then [ev_rested (cmd_OrderID cmd) price rem] else [])
       ++ [ev_replaced (cmd_OrderID cmd) price rem false])
      (if 0 <? rem
       then spec_rest (mkOrderSnapshot (cmd_OrderID cmd) (os_Side o) price rem (cmd_Seq cmd)) s1
       else s1).

Lemma spec_Replace_outcome cmd s :
  book_ok s -> Command_Validate cmd = None -> cmd_Type cmd = CommandReplace ->
  replace_outcome cmd s (spec_Replace cmd s).1 (spec_Replace cmd s).2.
Proof.
  intros Hok Hv Hty. destruct (Validate_Replace _ Hv Hty) as [Hq Hp].
  unfold spec_Replace. destruct (find_order _ _) as [o|] eqn:Ef; [|by apply replace_unknown].
  destruct (find_order_ok _ _ _ (bo_core _ Hok) Ef) as (isBid & Ho & Hid).
  set (price := if cmd_NewPrice cmd >? 0 then cmd_NewPrice cmd else os_Price o).
  destruct (_ && _) eqn:E.
  { apply andb_true_iff in E as [E1%Z.eqb_eq E2%Z.leb_le]. rewrite E1. simpl.
    apply replace_in_place; [done| |lia]. unfold price in E1.
    destruct (cmd_NewPrice cmd >? 0) eqn:Ep; [by right|left; lia]. }
  rewrite spec_match_eq. pose proof (spec_match_matched (os_Side o) price (cmd_NewLeavesQty cmd)
    (spec_remove (cmd_OrderID cmd) s)) as HM.
  specialize (HM (bo_core _ (spec_remove_ok _ _ Hok)) ltac:(lia)).
  destruct (take_levels _ _ _) as [[fs rem] ls] eqn:Et.
  pose proof (replace_requeued cmd s o price fs rem ls Ef eq_refl) as HR.
  specialize (HR ltac:(apply andb_false_iff in E as [E|E]; lia) Et HM). simpl in HR.
  destruct (0 <? rem); simpl in *; by rewrite <-?app_assoc in HR.
Qed.

(** Every step, by cases. *)
Inductive step_outcome (cmd : Command) (s : Snapshot) : list Event -> Snapshot -> Prop :=
| step_symbol :
    cmd_Symbol cmd <> sn_Symbol s ->
    step_outcome cmd s [ev_rejected RejectInvalidSymbol (cmd_OrderID cmd)] s
| step_invalid m :
    cmd_Symbol cmd = sn_Symbol s -> Command_Validate cmd = Some m ->
    step_outcome cmd s [ev_rejected (ValidationRejectReason cmd) (cmd_OrderID cmd)] s
| step_new evs s' :
    cmd_Symbol cmd = sn_Symbol s -> Command_Validate cmd = None -> cmd_Type cmd = CommandNew ->
    new_outcome cmd s evs s' -> step_outcome cmd s evs s'
| step_cancel_unknown :
    cmd_Symbol cmd = sn_Symbol s -> Command_Validate cmd = None -> cmd_Type cmd = CommandCancel ->
    find_order (cmd_OrderID cmd) (book_orders s) = None ->
    step_outcome cmd s [ev_rejected RejectUnknownOrderID (cmd_OrderID cmd)] s
| step_cancel o :
    cmd_Symbol cmd = sn_Symbol s -> Command_Validate cmd = None -> cmd_Type cmd = CommandCancel ->
    find_order (cmd_OrderID cmd) (book_orders s) = Some o ->
    step_outcome cmd s
      [ev_accepted (cmd_OrderID cmd); ev_canceled (cmd_OrderID cmd) (os_LeavesQty o) CancelByUser]
      (spec_remove (cmd_OrderID cmd) s)
| step_replace evs s' :
    cmd_Symbol cmd = sn_Symbol s -> Command_Validate cmd = None -> cmd_Type cmd = CommandReplace ->
    replace_outcome cmd s evs s' -> step_outcome cmd s evs s'.

Lemma spec_events_outcome cmd s :
  book_ok s -> step_outcome cmd s (spec_events cmd s).1 (spec_events cmd s).2.
Proof.
  intros Hok. unfold spec_events. destruct (String.eqb _ _) eqn:Es; simpl.
  2:{ apply step_symbol. by apply String.eqb_neq. }
  apply String.eqb_eq in Es. destruct (Command_Validate cmd) as [m|] eqn:Hv.
  { by eapply step_invalid. }
  destruct (cmd_Type cmd =? CommandNew) eqn:E1.
  { apply step_new; [done|done|lia|]. apply spec_New_outcome; [done|done|lia]. }
  destruct (cmd_Type cmd =? CommandCancel) eqn:E2.
  { unfold spec_Cancel. destruct (find_order _ _) as [o|] eqn:Ef.
    - apply step_cancel; [done|done|lia|done].
    - apply step_cancel_unknown; [done|done|lia|done]. }
  assert (cmd_Type cmd = CommandReplace) by (destruct (Validate_Type _ Hv) as [?|[?|?]]; lia).
  apply step_replace; [done|done|done|]. by apply spec_Replace_outcome.
Qed.

Lemma book_step_outcome cmd s res s' :
  book_step cmd s res s' ->
  book_ok s /\ command_typed cmd /\ step_outcome cmd s (res_Events res) s'.
Proof.
  intros (Hok & Ht & Hev & _ & Hs')%book_step_spec. split_and!; [done|done|].
  subst s'. rewrite Hev. by apply spec_events_outcome.
Qed.
