(* ===== verification/BookFeed.v ===== *)
(** * BookFeed: trade identifiers and the event feed

    The lemmas behind two promises to consumers of the events: trade IDs do not
    repeat, and the events alone are enough to follow the open quantity of every
    order. *)

From S2P Require Import Prelude Model Book BookSpec BookApply BookWalk BookFacts BookTrace.

(** ** Trade identifiers *)

Lemma trade_id_value seq n :
  0 <= seq < 2 ^ 44 -> trade_id seq n = seq * 2 ^ 20 + n mod 2 ^ 20.
Proof.
  intros Hs. unfold trade_id, u64_shl.
  rewrite Z.shiftl_mul_pow2 by lia. rewrite wrap_u64_id by (unfold is_u64; lia).
  replace (Z.shiftl 1 20 - 1) with (Z.ones 20) by done. rewrite Z.land_ones by lia.
  pose proof (Z.add_lor_land (seq * 2 ^ 20) (n mod 2 ^ 20)) as E.
  assert (Z.land (seq * 2 ^ 20) (n mod 2 ^ 20) = 0) as E0; [|lia].
  apply Z.bits_inj'. intros i Hi. rewrite Z.land_spec, Z.bits_0.
  rewrite Z.mul_pow2_bits by lia. destruct (decide (i < 20)).
  - by rewrite Z.testbit_neg_r by lia.
  - rewrite Z.mod_pow2_bits_high by lia. apply andb_false_r.
Qed.

(** The trades of any step: consecutive trade counters, one per fill. *)
Definition step_trades (seq id nts : Z) (fs : list fill) : list Event :=
  imap (fun k f => fill_trade seq id (nts_at nts k) f) fs.

Lemma trades_none evs : Forall (fun e => ev_Type e <> EventTrade) evs -> trades evs = [].
Proof. apply filter_none. Qed.

Lemma trades_cons_other e evs : ev_Type e <> EventTrade -> trades (e :: evs) = trades evs.
Proof. intros. unfold trades. by rewrite filter_cons_False. Qed.

(** Closes [Forall] over an explicit list. *)
Ltac each := repeat case_match; repeat first [apply Forall_nil_2; done | apply Forall_cons_2; [done|]].

Lemma step_outcome_trades cmd s evs s' :
  is_u64 (sn_NextTradeSeq s) -> step_outcome cmd s evs s' ->
  exists fs, trades evs = step_trades (cmd_Seq cmd) (cmd_OrderID cmd) (sn_NextTradeSeq s) fs.
Proof.
  intros Hn [H|m H1 H2|evs' s1 H1 H2 H3 Hout|H1 H2 H3 H4|o H1 H2 H3 H4|evs' s1 H1 H2 H3 Hout];
    try (by exists []); unfold step_trades.
  - destruct Hout as [o Hf|Hf Ht Ha|fs rem ls tail s2 Hf Hfok Htk Hm He]; try by exists [].
    exists fs. rewrite trades_cons_other by done. rewrite trades_app. unfold match_events.
    rewrite trades_fill_events, (trades_none tail), app_nil_r by (done || destruct He; each).
    done.
  - destruct Hout as [Hf|o Hf Hp Hq|o price fs rem ls Hf Hp Hl Htk Hm s2]; try by exists [].
    + exists []. rewrite trades_none; [done|]. constructor; [done|]. apply Forall_app. split; each.
    + exists fs. rewrite trades_cons_other by done. rewrite trades_app. unfold match_events.
      rewrite trades_fill_events by done. rewrite (trades_none (_ ++ _)); [by rewrite app_nil_r|].
      apply Forall_app. split; each.
Qed.

Lemma step_trade_ids seq id nts fs k i :
  map ev_TradeID (step_trades seq id nts fs) !! k = Some i ->
  (k < length fs)%nat /\ i = trade_id seq (nts_at nts k).
Proof.
  unfold step_trades. intros H. apply list_lookup_fmap_Some in H as (e & -> & H).
  apply list_lookup_imap_Some in H as (f & Hf & ->). apply lookup_lt_Some in Hf. done.
Qed.

Lemma length_step_trades seq id nts fs : length (step_trades seq id nts fs) = length fs.
Proof. apply length_imap. Qed.

(** Up to 2^20 trades of one command have different IDs. *)
Lemma step_trade_ids_NoDup seq id nts fs :
  0 <= seq < 2 ^ 44 -> Z.of_nat (length fs) <= 2 ^ 20 ->
  NoDup (map ev_TradeID (step_trades seq id nts fs)).
Proof.
  intros Hs Hl. apply NoDup_alt. intros j k i Hj Hk.
  apply step_trade_ids in Hj as [Hj ->]. apply step_trade_ids in Hk as [Hk E].
  rewrite !trade_id_value in E by done. unfold nts_at, wrap_u64 in E.
  assert ((nts + Z.of_nat j) mod 18446744073709551616 mod 2 ^ 20
          = (nts + Z.of_nat k) mod 18446744073709551616 mod 2 ^ 20) as E' by lia.
  rewrite !Z.mod_mod_divide in E' by (by exists (2 ^ 44)).
  assert (Z.of_nat j = Z.of_nat k); [|lia].
  revert E' Hj Hk Hl. change (2 ^ 20) with 1048576. intros. Z.div_mod_to_equations. lia.
Qed.

(** The upper bits of a trade ID are the sequence number of its command. *)
Lemma step_trade_ids_seq seq id nts fs i :
  0 <= seq < 2 ^ 44 -> i ∈ map ev_TradeID (step_trades seq id nts fs) -> i / 2 ^ 20 = seq.
Proof.
  intros Hs Hi. apply list_elem_of_lookup in Hi as [k Hk]. apply step_trade_ids in Hk as [_ ->].
  rewrite trade_id_value by done. pose proof (Z.mod_pos_bound (nts_at nts k) (2 ^ 20) ltac:(lia)).
  rewrite Z.div_add_l, Z.div_small by lia. lia.
Qed.

Lemma spec_Apply_outcome cmd s :
  book_ok s -> step_outcome cmd s (res_Events (spec_Apply cmd s).1) (spec_Apply cmd s).2.
Proof.
  intros Hok. assert (step_outcome cmd s (spec_events cmd s).1 (spec_events cmd s).2) as H.
  { by apply spec_events_outcome. }
  unfold spec_Apply. by destruct (spec_events cmd s).
Qed.

Lemma trade_ids_all cmds s :
  book_ok s -> Forall command_typed cmds ->
  StronglySorted Z.lt (map cmd_Seq cmds) -> Forall (fun c => cmd_Seq c < 2 ^ 44) cmds ->
  Forall (fun r => Z.of_nat (length (trade_ids (res_Events r))) <= 2 ^ 20) (spec_all cmds s).1 ->
  NoDup (concat (map (fun r => trade_ids (res_Events r)) (spec_all cmds s).1)) /\
  Forall (fun i => exists c, c ∈ cmds /\ i / 2 ^ 20 = cmd_Seq c)
    (concat (map (fun r => trade_ids (res_Events r)) (spec_all cmds s).1)).
Proof.
  intros Hok Ht. revert s Hok. induction Ht as [|cmd cmds Hc Hcs IH]; intros s Hok Hsort Hlt Hcnt.
  { simpl. split; constructor. }
  simpl in Hsort. apply StronglySorted_inv in Hsort as [Hsort Hall].
  apply Forall_cons in Hlt as [Hlt Hlts].
  pose proof (spec_Apply_outcome cmd s Hok) as Hout. pose proof (spec_Apply_ok cmd s Hc Hok) as Hok1.
  destruct (step_outcome_trades _ _ _ _ (co_nts _ (bo_core _ Hok)) Hout) as [fs Hfs].
  simpl in *. destruct (spec_Apply cmd s) as [r s1]. simpl in *.
  destruct (spec_all cmds s1) as [rs s2] eqn:Ers. simpl in *. apply Forall_cons in Hcnt as [Hcnt Hcnts].
  specialize (IH s1 Hok1 Hsort Hlts). rewrite Ers in IH. destruct (IH Hcnts) as [IH1 IH2].
  assert (0 <= cmd_Seq cmd < 2 ^ 44) as Hseq by (destruct Hc; unfold is_u64 in *; lia).
  unfold trade_ids at 1 3. rewrite Hfs. split.
  - apply NoDup_app. split_and!; [| |done].
    + apply step_trade_ids_NoDup; [done|]. unfold trade_ids in Hcnt. rewrite Hfs in Hcnt.
      by rewrite length_map, length_step_trades in Hcnt.
    + intros i Hi Hi'. apply step_trade_ids_seq in Hi; [|done].
      rewrite Forall_forall in IH2. destruct (IH2 _ Hi') as (c & Hin & E).
      rewrite Forall_map, Forall_forall in Hall. specialize (Hall c Hin). simpl in Hall. lia.
  - apply Forall_app. split.
    + apply Forall_forall. intros i Hi. exists cmd. split; [left|]. by eapply step_trade_ids_seq.
    + eapply Forall_impl; [exact IH2|]. intros i (c & Hin & E). exists c. split; [by right|done].
Qed.

(** ** What remains after the fills *)

Fixpoint rest_of (fs : list fill) (os : list OrderSnapshot) : list OrderSnapshot :=
  match fs, os with
  | f :: fs', o :: os' =>
      if f.2 =? os_LeavesQty o then rest_of fs' os'
      else with_leaves (os_LeavesQty o - f.2) o :: os'
  | _, _ => os
  end.

Lemma take_orders_rest isBid qty os :
  Forall (order_ok isBid) os -> (take_orders qty os).2 = rest_of (take_orders qty os).1.1 os.
Proof.
  intros H. revert qty. induction H as [|o os Ho Hos IH]; intros qty; simpl; [done|].
  destruct (qty <=? 0) eqn:E0; [done|]. destruct (os_LeavesQty o <=? qty) eqn:E.
  - specialize (IH (qty - os_LeavesQty o)). destruct (take_orders _ os) as [[fs q] r]. simpl in *.
    by rewrite Z.eqb_refl.
  - simpl. rewrite (proj2 (Z.eqb_neq _ _)); [done|]. lia.
Qed.

Lemma rest_of_app_full fs os os' fs' :
  map fst fs = os -> Forall (fun f => f.2 = os_LeavesQty f.1) fs ->
  rest_of (fs ++ fs') (os ++ os') = rest_of fs' os'.
Proof.
  intros <-. induction 1 as [|f fs Hf Hfs IH]; simpl; [done|].
  by rewrite (proj2 (Z.eqb_eq _ _) Hf).
Qed.

Lemma rest_of_app_left fs os os' :
  rest_of fs os <> [] -> map fst fs `prefix_of` os -> rest_of fs (os ++ os') = rest_of fs os ++ os'.
Proof.
  revert os. induction fs as [|f fs IH]; intros os; simpl; [by destruct os|].
  destruct os as [|o os]; simpl; [done|]. intros H Hp. case_match; [|done].
  apply IH; [done|]. by apply prefix_cons_inv_2 in Hp.
Qed.

Lemma take_levels_rest isBid allowed qty ls :
  side_ok isBid ls ->
  all_orders (take_levels allowed qty ls).2 = rest_of (take_levels allowed qty ls).1.1 (all_orders ls).
Proof.
  intros Hok. revert qty. induction ls as [|l ls IH]; intros qty; [done|]. simpl.
  apply side_ok_cons in Hok as (Hl & _ & Hls). case_match; [done|].
  pose proof (take_orders_rest isBid qty _ (lo_orders _ _ Hl)) as HR.
  pose proof (take_orders_all qty (pls_Orders l)) as HA.
  destruct (take_orders_full qty (pls_Orders l)) as [_ HF].
  pose proof (take_orders_sublist qty (pls_Orders l)) as HP.
  destruct (take_orders qty (pls_Orders l)) as [[fs q] os]. simpl in *. destruct os as [|o os].
  - specialize (IH Hls q). destruct (take_levels allowed q ls) as [[fs' q'] r]. simpl in *.
    rewrite IH, all_orders_cons. by rewrite rest_of_app_full by auto.
  - cbn [fst snd]. rewrite !all_orders_cons. cbn [pls_Orders]. rewrite rest_of_app_left; rewrite <-?HR; done.
Qed.

(** ** The feed *)

(** The open quantities a consumer knows of. *)
Definition quantities (os : list OrderSnapshot) : gmap Z Z :=
  list_to_map (map (fun o => (os_ID o, os_LeavesQty o)) os).

Definition feed_event (v : gmap Z Z) (e : Event) : gmap Z Z :=
  if ev_Type e =? EventTrade then
    match v !! ev_MakerOrderID e with
    | Some q => if q - ev_Quantity e =? 0 then delete (ev_MakerOrderID e) v
                else <[ev_MakerOrderID e := q - ev_Quantity e]> v
    | None => v
    end
  else if (ev_Type e =? EventOrderReduced) || (ev_Type e =? EventOrderRested)
  then <[ev_OrderID e := ev_LeavesQty e]> v
  else if ev_Type e =? EventCanceled then delete (ev_OrderID e) v
  else if ev_Type e =? EventReplaced then
    if ev_LeavesQty e =? 0 then delete (ev_OrderID e) v
    else <[ev_OrderID e := ev_LeavesQty e]> v
  else v.

Definition feed (v : gmap Z Z) (evs : list Event) : gmap Z Z := fold_left feed_event evs v.

Lemma feed_app v evs evs' : feed v (evs ++ evs') = feed (feed v evs) evs'.
Proof. apply fold_left_app. Qed.

Lemma quantities_perm os os' :
  NoDup (map os_ID os) -> os ≡ₚ os' -> quantities os = quantities os'.
Proof.
  intros Hn Hp. apply list_to_map_proper; [|by apply Permutation_map].
  by rewrite <-list_fmap_compose.
Qed.

Lemma quantities_cons o os : quantities (o :: os) = <[os_ID o := os_LeavesQty o]> (quantities os).
Proof. done. Qed.

Lemma quantities_None id os : id ∉ map os_ID os -> quantities os !! id = None.
Proof.
  intros H. apply not_elem_of_list_to_map. by rewrite <-list_fmap_compose.
Qed.

Lemma quantities_drop id os : quantities (drop_order id os) = delete id (quantities os).
Proof.
  induction os as [|o os IH]; [symmetry; apply delete_empty|]. unfold drop_order.
  rewrite filter_cons. fold (drop_order id os). case_decide as E.
  - rewrite !quantities_cons, IH. by rewrite delete_insert_ne by congruence.
  - rewrite quantities_cons, IH. destruct (decide (os_ID o = id)) as [->|Hne]; [|by destruct E].
    by rewrite delete_insert_eq.
Qed.

Lemma quantities_reduce id q os :
  id ∈ map os_ID os -> quantities (map (reduce_order id q) os) = <[id := q]> (quantities os).
Proof.
  induction os as [|o os IH]; simpl; [by intros ?%not_elem_of_nil|].
  change (map (reduce_order id q) (o :: os)) with (reduce_order id q o :: map (reduce_order id q) os).
  rewrite !quantities_cons. unfold reduce_order at 1 2.
  destruct (decide (id ∈ map os_ID os)) as [Hin|Hni].
  - intros _. rewrite IH by done. destruct (os_ID o =? id) eqn:E; simpl.
    + apply Z.eqb_eq in E as ->. by rewrite !insert_insert_eq.
    + rewrite insert_insert_ne by lia. done.
  - intros [->|?]%elem_of_cons; [|done]. rewrite Z.eqb_refl. simpl. rewrite insert_insert_eq.
    f_equal. f_equal. rewrite <-(map_id os) at 2. apply map_ext_in. intros o' Ho'. unfold reduce_order.
    rewrite (proj2 (Z.eqb_neq _ _)); [done|]. intros E. apply Hni. rewrite <-E.
    apply list_elem_of_fmap. exists o'. split; [done|]. by apply list_elem_of_In.
Qed.

(** The events of the fills turn the makers into what remains of them. *)
Lemma feed_fills seq id nts fs os X :
  NoDup (map os_ID (os ++ X)) -> map fst fs `prefix_of` os -> full_but_last fs -> Forall fill_ok fs ->
  feed (quantities (os ++ X)) (fill_events seq id nts fs) = quantities (rest_of fs os ++ X).
Proof.
  revert os nts. induction fs as [|f fs IH]; intros os nts Hn Hp Hf Hok; [by destruct os|].
  destruct os as [|o os]; [by destruct Hp as [? [=]]|]. simpl in Hp.
  destruct f as [fo q]. simpl in *. pose proof (prefix_cons_inv_1 _ _ _ _ Hp) as ->.
  apply prefix_cons_inv_2 in Hp. apply NoDup_cons in Hn as [Hni Hn].
  apply Forall_cons in Hok as [Hq Hok]. unfold fill_ok in Hq. simpl in Hq.
  assert (quantities (o :: os ++ X) !! os_ID o = Some (os_LeavesQty o)) as Hl
    by (rewrite quantities_cons; apply lookup_insert_eq).
  cbn [feed_event]. unfold feed_event at 1. simpl. rewrite Hl.
  destruct (q =? os_LeavesQty o) eqn:E.
  - apply Z.eqb_eq in E as ->. rewrite Z.sub_diag. simpl.
    rewrite quantities_cons, delete_insert_id by (by apply quantities_None).
    apply IH; [done|done| |done]. destruct fs; [done|]. apply Hf.
  - rewrite (proj2 (Z.eqb_neq _ 0)) by lia. destruct fs as [|f' fs]; [|simpl in Hf; lia].
    simpl. unfold feed_event. simpl. rewrite !quantities_cons. simpl. by rewrite !insert_insert_eq.
Qed.

(** ** The two sides of a book, seen from an order *)

Lemma book_orders_sides side s :
  book_orders s ≡ₚ all_orders (opposite side s) ++ all_orders (own_side side s).
Proof.
  unfold book_orders, opposite, own_side. destruct (side =? SideBuy); [|done].
  apply Permutation_app_comm.
Qed.

Lemma opposite_after side fs ls s : opposite side (after_match side fs ls s) = ls.
Proof. unfold opposite, after_match, put_opposite. by destruct (side =? SideBuy). Qed.

Lemma own_after side fs ls s : own_side side (after_match side fs ls s) = own_side side s.
Proof. unfold own_side, after_match, put_opposite. by destruct (side =? SideBuy). Qed.

Lemma rest_sides o s :
  os_Side o = SideBuy \/ os_Side o = SideSell ->
  opposite (os_Side o) (spec_rest o s) = opposite (os_Side o) s /\
  own_side (os_Side o) (spec_rest o s) = level_insert (side_flag (os_Side o)) o (own_side (os_Side o) s).
Proof. unfold opposite, own_side, spec_rest, side_flag. by intros [->| ->]. Qed.

(** A rested order is the last of its level. *)
Lemma level_insert_last isBid o ls :
  exists l, l ∈ level_insert isBid o ls /\ pls_Price l = os_Price o /\ last (pls_Orders l) = Some o.
Proof.
  induction ls as [|l ls (l' & H1 & H2 & H3)]; simpl.
  { eexists. split; [left|done]. }
  destruct (pls_Price l =? os_Price o) eqn:E.
  { eexists. split; [left|]. simpl. rewrite last_snoc. apply Z.eqb_eq in E. done. }
  destruct (betterb isBid _ _); [eexists; split; [left|done]|].
  exists l'. split; [by right|done].
Qed.

(** The orders after matching are those of the opposite side that remain. *)
Lemma after_match_orders side limit qty s fs rem ls :
  core_ok s -> take_levels (price_ok side limit) qty (opposite side s) = (fs, rem, ls) ->
  book_orders (after_match side fs ls s)
  ≡ₚ rest_of fs (all_orders (opposite side s)) ++ all_orders (own_side side s).
Proof.
  intros Hc Ht. rewrite (book_orders_sides side), opposite_after, own_after.
  pose proof (take_levels_rest _ (price_ok side limit) qty _ (opposite_ok side s Hc)) as HR.
  rewrite Ht in HR. simpl in HR. by rewrite HR.
Qed.

Lemma feed_match seq id side limit qty s fs rem ls o :
  core_ok s -> take_levels (price_ok side limit) qty (opposite side s) = (fs, rem, ls) ->
  matched side limit qty s fs rem ls -> NoDup (map os_ID (book_orders (after_match side fs ls s))) ->
  feed (quantities (book_orders s)) (match_events seq id fs s)
    = quantities (book_orders (after_match side fs ls s)) /\
  (os_ID o ∉ map os_ID (book_orders s) ->
   feed (quantities (o :: book_orders s)) (match_events seq id fs s)
     = quantities (o :: book_orders (after_match side fs ls s))).
Proof.
  intros Hc Ht Hm Hnd'. pose proof (co_ids _ Hc) as Hnd. unfold match_events.
  pose proof (after_match_orders _ _ _ _ _ _ _ Hc Ht) as Hafter.
  destruct (mt_fills _ _ _ _ _ _ _ Hm) as [Hp Hf Hok _ _ _].
  pose proof (book_orders_sides side s) as Hs.
  assert (forall P : list OrderSnapshot, NoDup (map os_ID (P ++ book_orders s)) ->
    NoDup (map os_ID (P ++ book_orders (after_match side fs ls s))) ->
    feed (quantities (P ++ book_orders s)) (fill_events seq id (sn_NextTradeSeq s) fs)
    = quantities (P ++ book_orders (after_match side fs ls s))) as HP.
  { intros P HnP HnP'.
    assert (P ++ book_orders s ≡ₚ all_orders (opposite side s) ++ P ++ all_orders (own_side side s)) as HpP.
    { rewrite Hs. rewrite !app_assoc. by rewrite (Permutation_app_comm P). }
    rewrite (quantities_perm _ _ HnP HpP). rewrite feed_fills; [|by rewrite <-HpP|done..].
    symmetry. apply quantities_perm; [done|]. rewrite Hafter, !app_assoc.
    by rewrite (Permutation_app_comm P). }
  split; [by apply (HP [])|]. intros Hni. apply (HP [o]); simpl; apply NoDup_cons; [done|].
  split; [|done]. intros Hin. apply Hni.
  rewrite Hafter in Hin. rewrite Hs, map_app in *. apply elem_of_app in Hin. apply elem_of_app.
  destruct Hin as [Hin|Hin]; [left|by right].
  pose proof (take_levels_rest _ (price_ok side limit) qty _ (opposite_ok side s Hc)) as HR.
  rewrite Ht in HR. simpl in HR. rewrite <-HR in Hin. eapply elem_of_sublist; [exact Hin|apply Hm].
Qed.

Lemma spec_rest_quantities o s :
  NoDup (map os_ID (book_orders (spec_rest o s))) ->
  quantities (book_orders (spec_rest o s)) = <[os_ID o := os_LeavesQty o]> (quantities (book_orders s)).
Proof. intros Hn. by rewrite (quantities_perm _ _ Hn (spec_rest_perm o s)). Qed.

Lemma matched_ids side limit qty s fs rem ls :
  core_ok s -> matched side limit qty s fs rem ls ->
  forall id, id ∈ map os_ID (book_orders (after_match side fs ls s)) -> id ∈ map os_ID (book_orders s).
Proof.
  intros Hc Hm id. rewrite !(book_orders_sides side), opposite_after, own_after, !map_app, !elem_of_app.
  intros [H|H]; [left|by right]. eapply elem_of_sublist; [exact H|apply Hm].
Qed.

Lemma matched_NoDup side limit qty s fs rem ls :
  core_ok s -> matched side limit qty s fs rem ls ->
  NoDup (map os_ID (book_orders (after_match side fs ls s))).
Proof.
  intros Hc Hm. pose proof (co_ids _ Hc) as Hn.
  rewrite (book_orders_sides side), map_app in Hn |- *. rewrite opposite_after, own_after.
  eapply sublist_NoDup; [exact Hn|]. apply sublist_app; [apply Hm|done].
Qed.

Lemma find_order_split id s o :
  core_ok s -> find_order id (book_orders s) = Some o ->
  book_orders s ≡ₚ o :: book_orders (spec_remove id s).
Proof.
  intros Hc Hf. pose proof (co_ids _ Hc) as Hn. rewrite spec_remove_orders.
  apply find_order_Some in Hf as [Hin <-].
  apply list_elem_of_split in Hin as (o1 & o2 & E). rewrite E in *. clear E.
  rewrite map_app in Hn. simpl in Hn. apply NoDup_app in Hn as (_ & Hd & Hn2%NoDup_cons).
  rewrite drop_order_app. unfold drop_order at 2. rewrite filter_cons_False by (intros H; by apply H).
  fold (drop_order (os_ID o) o2). rewrite !drop_order_none; [|apply Hn2|].
  - symmetry. apply Permutation_middle.
  - intros Hin. apply (Hd _ Hin). left.
Qed.

Lemma feed_step cmd s evs s' :
  book_ok s -> step_outcome cmd s evs s' ->
  feed (quantities (book_orders s)) evs = quantities (book_orders s').
Proof.
  intros [Hc _] [H|m H1 H2|evs' s1 H1 H2 H3 Hout|H1 H2 H3 H4|o H1 H2 H3 H4|evs' s1 H1 H2 H3 Hout];
    try done.
  - destruct Hout as [o Hf|Hf Ht Ha|fs rem ls tail s2 Hf Hfok Htk Hm He]; try done.
    apply find_order_None in Hf. pose proof (matched_NoDup _ _ _ _ _ _ _ Hc Hm) as Hnd.
    destruct (feed_match (cmd_Seq cmd) (cmd_OrderID cmd) _ _ _ _ _ _ _
      (mkOrderSnapshot 0 0 0 0 0) Hc Htk Hm Hnd) as [HF _].
    change (feed ?v (?e :: ?l)) with (feed (feed_event v e) l). rewrite feed_app.
    change (feed_event ?v (ev_accepted _)) with v. rewrite HF.
    destruct He as [He|He He'|Hr Hl Hi Hp]; [done| |].
    + unfold feed. simpl. unfold feed_event. simpl. apply delete_id, quantities_None.
      intros Hin. apply Hf. by eapply matched_ids.
    + unfold feed. simpl. rewrite spec_rest_quantities; [done|]. rewrite spec_rest_perm. simpl.
      apply NoDup_cons. split; [|done]. intros Hin. apply Hf. by eapply matched_ids.
  - rewrite spec_remove_orders, quantities_drop. done.
  - destruct Hout as [Hf|o Hf Hp Hq|o price fs rem ls Hf Hp Hl Htk Hm s2]; try done.
    + assert (cmd_OrderID cmd ∈ map os_ID (book_orders s)) as Hin.
      { apply find_order_Some in Hf as [Hin <-]. by apply list_elem_of_fmap_2. }
      assert (quantities (book_orders (spec_reduce (cmd_OrderID cmd) (cmd_NewLeavesQty cmd) s))
              = <[cmd_OrderID cmd := cmd_NewLeavesQty cmd]> (quantities (book_orders s))) as ->.
      { rewrite <-quantities_reduce by done. unfold book_orders. simpl.
        by rewrite !level_reduce_orders, map_app. }
      unfold feed. simpl. destruct (_ >? 0); simpl; unfold feed_event; simpl;
        rewrite (proj2 (Z.eqb_neq _ 0)) by lia; by rewrite ?insert_insert_eq.
    + pose proof (find_order_split _ _ _ Hc Hf) as Hperm.
      pose proof (find_order_Some _ _ _ Hf) as [_ Hid].
      set (sr := spec_remove (cmd_OrderID cmd) s) in *.
      assert (os_ID o ∉ map os_ID (book_orders sr)) as Hni.
      { unfold sr. rewrite spec_remove_orders, Hid. apply drop_order_gone. }
      assert (core_ok sr) as Hcr.
      { destruct Hc as [Hb Ha Hi Hn]. constructor; simpl; auto using level_remove_ok.
        unfold sr. rewrite spec_remove_orders. eapply sublist_NoDup; [done|apply drop_order_ids]. }
      pose proof (matched_NoDup _ _ _ _ _ _ _ Hcr Hm) as Hnd.
      destruct (feed_match (cmd_Seq cmd) (cmd_OrderID cmd) _ _ _ _ _ _ _ o Hcr Htk Hm Hnd) as [_ HF].
      specialize (HF Hni). rewrite (quantities_perm _ _ (co_ids _ Hc) Hperm).
      change (feed ?v (?e :: ?l)) with (feed (feed_event v e) l). rewrite feed_app.
      change (feed_event ?v (ev_accepted _)) with v.
      change (match_events _ _ fs s) with (match_events (cmd_Seq cmd) (cmd_OrderID cmd) fs sr).
      rewrite HF, quantities_cons, Hid. fold s2 in Hnd |- *.
      assert (cmd_OrderID cmd ∉ map os_ID (book_orders s2)) as Hni2.
      { rewrite <-Hid. intros Hin. apply Hni. by eapply matched_ids. }
      pose proof (pf_rem _ _ _ _ _ _ (mt_fills _ _ _ _ _ _ _ Hm)) as Hrem.
      destruct (0 <? rem) eqn:E0; unfold feed; simpl; unfold feed_event; simpl.
      * rewrite (proj2 (Z.eqb_neq _ 0)) by lia. rewrite !insert_insert_eq.
        rewrite spec_rest_quantities; [done|]. rewrite spec_rest_perm. simpl. by apply NoDup_cons.
      * rewrite (proj2 (Z.eqb_eq _ 0)) by lia. apply delete_insert_id. by apply quantities_None.
Qed.
