(* ===== verification/BookProps.v ===== *)
(** * BookProps: the properties of the order book

    Each theorem is about the code of [Book] run on reachable books; the proofs
    apply the refinement of [BookApply] and the facts of [BookFacts], [BookTrace]
    and [BookFeed].  The witnesses run the same code on a small session. *)

From S2P Require Import Prelude Model Book BookSpec BookRep BookApply BookWalk BookFacts BookTrace BookFeed.

(** ** A concrete session *)

Definition cmd_new (seq id side otype tif price qty : Z) : Command :=
  mkCommand seq "X" CommandNew id side otype tif price qty 0 0.
Definition cmd_cancel (seq id : Z) : Command :=
  mkCommand seq "X" CommandCancel id 0 0 0 0 0 0 0.
Definition cmd_replace (seq id price qty : Z) : Command :=
  mkCommand seq "X" CommandReplace id 0 0 0 0 0 price qty.

(** Two asks at 100, one at 101, one bid at 99. *)
Definition session : list Command :=
  [cmd_new 1 10 SideSell OrderTypeLimit TIFGTC 100 5;
   cmd_new 2 11 SideSell OrderTypeLimit TIFGTC 100 7;
   cmd_new 3 12 SideSell OrderTypeLimit TIFGTC 101 9;
   cmd_new 4 13 SideBuy OrderTypeLimit TIFGTC 99 4].

Definition run_session (cmds : list Command) : Book :=
  match apply_all cmds (Book_New "X") with
  | Ret (_, b) => b
  | _ => Book_New "X"
  end.

Definition snap (b : Book) : Snapshot :=
  match Book_Snapshot b with
  | Ret (s, _) => s
  | _ => empty_snapshot "" 0
  end.

Definition answer (cmd : Command) (b : Book) : Result * Book :=
  match Apply cmd b with
  | Ret r => r
  | _ => (mkResult 0 [], b)
  end.

Definition session_book : Book := run_session session.

Ltac typed := constructor; vm_compute; split; congruence.

Lemma session_typed : Forall command_typed session.
Proof. repeat constructor; vm_compute; congruence. Qed.

Lemma session_reachable : reachable session_book.
Proof.
  eapply (apply_all_reachable session (Book_New "X"));
    [apply reach_new|apply session_typed|vm_compute; reflexivity].
Qed.

(** A command on the session's book is a step. *)
Lemma session_step cmd :
  command_typed cmd ->
  Apply cmd session_book = Ret (answer cmd session_book) ->
  Book_Snapshot session_book = Ret (snap session_book, session_book) ->
  Book_Snapshot (answer cmd session_book).2
    = Ret (snap (answer cmd session_book).2, (answer cmd session_book).2) ->
  book_step cmd (snap session_book) (answer cmd session_book).1 (snap (answer cmd session_book).2).
Proof.
  intros Ht Hrun Hs Hs'. exists session_book, (answer cmd session_book).2.
  split_and!; [apply session_reachable|done|done| |done]. rewrite Hrun. by destruct (answer _ _).
Qed.

Ltac session_step := apply session_step; [typed|vm_compute; reflexivity..].

(** ** Refinement and invariants *)

(** C1. The pointer-level [Apply] implements the reference semantics: on every
    reachable book and every command it returns (no nil dereference, no index out
    of range, the matching loop ends), the result it returns is the one the list
    specification [spec_Apply] computes from the book's snapshot, and the snapshot
    afterwards is the specification's next state. *)
Theorem apply_refines_spec b cmd :
  reachable b -> command_typed cmd ->
  exists s b', Book_Snapshot b = Ret (s, b) /\
    Apply cmd b = Ret ((spec_Apply cmd s).1, b') /\
    Book_Snapshot b' = Ret ((spec_Apply cmd s).2, b').
Proof.
  intros (s & Hr & Hok)%reachable_repr Ht.
  destruct (Apply_repr cmd b s Ht Hr Hok) as (b' & Hrun & Hr').
  exists s, b'. split_and!; [by apply Book_Snapshot_repr|done|by apply Book_Snapshot_repr].
Qed.

Lemma apply_refines_spec_witness :
  exists s b', Book_Snapshot session_book = Ret (s, session_book) /\
    Apply (cmd_new 5 14 SideBuy OrderTypeLimit TIFGTC 100 8) session_book
      = Ret ((spec_Apply (cmd_new 5 14 SideBuy OrderTypeLimit TIFGTC 100 8) s).1, b') /\
    Book_Snapshot b' = Ret ((spec_Apply (cmd_new 5 14 SideBuy OrderTypeLimit TIFGTC 100 8) s).2, b').
Proof. apply (apply_refines_spec session_book); [apply session_reachable|typed]. Defined.

(** C11. Whatever sequence of commands a reachable book receives, every command is
    answered and the code's own [CheckInvariants] reports no error afterwards:
    prices sorted, no empty level, back references and totals consistent, book
    not crossed. *)
Theorem invariants_always_hold b cmds :
  reachable b -> Forall command_typed cmds ->
  exists rs b', apply_all cmds b = Ret (rs, b') /\ length rs = length cmds /\
    CheckInvariants b' = Ret (None, b').
Proof.
  intros (s & Hr & Hok)%reachable_repr Ht.
  destruct (apply_all_repr cmds b s Hr Hok Ht) as (b' & Hrun & Hr' & [_ Hu]).
  exists (spec_all cmds s).1, b'. split_and!; [done| |by eapply CheckInvariants_repr].
  clear. revert s. induction cmds as [|c cmds IH]; intros s; [done|]. simpl.
  destruct (spec_Apply c s) as [r s1]. specialize (IH s1). destruct (spec_all cmds s1). simpl in *. lia.
Qed.

Lemma invariants_always_hold_witness :
  exists rs b', apply_all session (Book_New "X") = Ret (rs, b') /\ length rs = length session /\
    CheckInvariants b' = Ret (None, b').
Proof. apply (invariants_always_hold (Book_New "X") session); [apply reach_new|apply session_typed]. Defined.

(** ** Matching *)

Lemma accepted_new cmd s evs s' :
  step_outcome cmd s evs s' -> cmd_Type cmd = CommandNew ->
  ev_accepted (cmd_OrderID cmd) ∈ evs ->
  Command_Validate cmd = None /\
  exists fs rem ls tail,
    find_order (cmd_OrderID cmd) (book_orders s) = None /\
    (cmd_TimeInForce cmd = TIFFOK -> cmd_Quantity cmd <=
       spec_available (cmd_Side cmd) (cmd_Price cmd) (cmd_OrderType cmd) (cmd_Quantity cmd) s) /\
    evs = ev_accepted (cmd_OrderID cmd) :: match_events (cmd_Seq cmd) (cmd_OrderID cmd) fs s ++ tail /\
    take_levels (price_ok (cmd_Side cmd) (cmd_Price cmd)) (cmd_Quantity cmd)
      (opposite (cmd_Side cmd) s) = (fs, rem, ls) /\
    matched (cmd_Side cmd) (cmd_Price cmd) (cmd_Quantity cmd) s fs rem ls /\
    new_end cmd rem (after_match (cmd_Side cmd) fs ls s) tail s'.
Proof.
  intros Hout Hty Hin.
  destruct Hout as [H|m H1 H2|evs' s1 H1 H2 H3 Hout|H1 H2 H3 H4|o H1 H2 H3 H4|evs' s1 H1 H2 H3 Hout];
    try by (rewrite list_elem_of_singleton in Hin).
  - destruct Hout as [o Hf|Hf Ht Ha|fs rem ls tail s2 Hf Hfok Htk Hm He];
      try by (rewrite list_elem_of_singleton in Hin).
    split; [done|]. by exists fs, rem, ls, tail.
  - rewrite Hty in H3. done.
  - rewrite Hty in H3. done.
Qed.

(** The opposite side after a new order: what remains of it after the fills. *)
Lemma new_end_opposite cmd rem s tail s' :
  new_end cmd rem s tail s' -> cmd_Side cmd = SideBuy \/ cmd_Side cmd = SideSell ->
  opposite (cmd_Side cmd) s' = opposite (cmd_Side cmd) s.
Proof.
  intros [?|??|????] Hs; [done|done|].
  set (o := mkOrderSnapshot _ _ _ _ _). change (cmd_Side cmd) with (os_Side o). by apply rest_sides.
Qed.

(** C6. Price-time priority.  The trades of an accepted new order are exactly the
    fills of a prefix of the opposite side, taken from the best price to the worst
    and first come first served within a price; every maker but the last is
    filled completely, every trade is at the maker's price and within the taker's
    limit, and the opposite side afterwards is what the fills leave of it.  If
    something of the order is left, no price it may trade at is. *)
Theorem price_time_priority cmd s res s' :
  book_step cmd s res s' -> cmd_Type cmd = CommandNew ->
  ev_accepted (cmd_OrderID cmd) ∈ res_Events res ->
  exists fs rem,
    priority_fills (cmd_Side cmd) (cmd_Price cmd) (cmd_Quantity cmd) s fs rem /\
    trades (res_Events res)
      = step_trades (cmd_Seq cmd) (cmd_OrderID cmd) (sn_NextTradeSeq s) fs /\
    all_orders (opposite (cmd_Side cmd) s') = rest_of fs (all_orders (opposite (cmd_Side cmd) s)) /\
    (0 < rem -> head_refused (price_ok (cmd_Side cmd) (cmd_Price cmd)) (opposite (cmd_Side cmd) s')).
Proof.
  intros (Hok & Ht & Hout)%book_step_outcome Hty Hin.
  destruct (accepted_new _ _ _ _ Hout Hty Hin) as (Hv & fs & rem & ls & tail & _ & _ & Hev & Htk & Hm & He).
  destruct (Validate_New _ Hv Hty) as (Hside & _).
  exists fs, rem. rewrite (new_end_opposite _ _ _ _ _ He Hside), opposite_after.
  split_and!; [apply Hm| | |apply Hm].
  - rewrite Hev, trades_cons_other by done. rewrite trades_app. unfold match_events.
    rewrite trades_fill_events by apply Hok.
    rewrite (trades_none tail), app_nil_r by (destruct He; each). done.
  - pose proof (take_levels_rest _ (price_ok (cmd_Side cmd) (cmd_Price cmd)) (cmd_Quantity cmd) _
      (opposite_ok (cmd_Side cmd) s (bo_core _ Hok))) as HR. by rewrite Htk in HR.
Qed.

Definition taker : Command := cmd_new 5 14 SideBuy OrderTypeLimit TIFGTC 100 8.

(** The taker fills order 10 completely, then 3 of order 11. *)
Lemma price_time_priority_witness :
  trades (res_Events (answer taker session_book).1)
    = [ev_trade (5 * 2 ^ 20 + 1) 10 14 100 5; ev_trade (5 * 2 ^ 20 + 2) 11 14 100 3] /\
  exists fs rem,
    priority_fills SideBuy 100 8 (snap session_book) fs rem /\
    trades (res_Events (answer taker session_book).1)
      = step_trades 5 14 (sn_NextTradeSeq (snap session_book)) fs.
Proof.
  split; [vm_compute; reflexivity|].
  destruct (price_time_priority taker (snap session_book) (answer taker session_book).1
              (snap (answer taker session_book).2)) as (fs & rem & H1 & H2 & _).
  - session_step.
  - reflexivity.
  - vm_compute. left.
  - exists fs, rem. split; [exact H1|exact H2].
Defined.

(** C12. Conservation of quantity.  What an accepted new order trades, has canceled
    and rests adds up to its quantity; the opposite side loses exactly what was
    traded and the order's own side gains exactly what was rested. *)
Theorem new_conserves_quantity cmd s res s' :
  book_step cmd s res s' -> cmd_Type cmd = CommandNew ->
  ev_accepted (cmd_OrderID cmd) ∈ res_Events res ->
  traded_qty (res_Events res) + canceled_qty (res_Events res) + rested_qty (res_Events res)
    = cmd_Quantity cmd /\
  side_qty (opposite (cmd_Side cmd) s)
    = side_qty (opposite (cmd_Side cmd) s') + traded_qty (res_Events res) /\
  side_qty (own_side (cmd_Side cmd) s')
    = side_qty (own_side (cmd_Side cmd) s) + rested_qty (res_Events res).
Proof.
  intros (Hok & Ht & Hout)%book_step_outcome Hty Hin.
  destruct (accepted_new _ _ _ _ Hout Hty Hin) as (Hv & fs & rem & ls & tail & _ & _ & Hev & Htk & Hm & He).
  destruct (Validate_New _ Hv Hty) as (Hside & _).
  rewrite Hev, (new_end_opposite _ _ _ _ _ He Hside), opposite_after. clear Hev Hin Hout.
  destruct (fill_events_sums (cmd_Seq cmd) (cmd_OrderID cmd) (sn_NextTradeSeq s) fs) as (E1 & E2 & E3).
  pose proof (pf_sum _ _ _ _ _ _ (mt_fills _ _ _ _ _ _ _ Hm)).
  pose proof (mt_qty _ _ _ _ _ _ _ Hm).
  unfold traded_qty, canceled_qty, rested_qty, match_events in *. simpl. rewrite !sum_of_app, E1, E2, E3.
  destruct He as [He|He He'|Hr Hl Hi Hp]; simpl; rewrite ?own_after; try lia.
  split_and!; [lia|lia|]. set (o := mkOrderSnapshot _ _ _ _ _).
  destruct (rest_sides o (after_match (cmd_Side cmd) fs ls s) Hside) as [_ HR].
  change (os_Side o) with (cmd_Side cmd) in HR. rewrite HR, own_after.
  unfold side_qty. rewrite (leaves_sum_perm _ _ (level_insert_perm _ _ _)). simpl. lia.
Qed.

Lemma new_conserves_quantity_witness :
  traded_qty (res_Events (answer taker session_book).1)
  + canceled_qty (res_Events (answer taker session_book).1)
  + rested_qty (res_Events (answer taker session_book).1) = 8.
Proof.
  apply (new_conserves_quantity taker (snap session_book) (answer taker session_book).1
           (snap (answer taker session_book).2)); [session_step|reflexivity|vm_compute; left].
Defined.

(** ** Fill or kill *)

(** What a new order could trade right now. *)
Definition fillable_now (cmd : Command) (s : Snapshot) : Z :=
  fillable (price_ok (cmd_Side cmd) (cmd_Price cmd)) (opposite (cmd_Side cmd) s).

(** The availability check and matching take the same prices. *)
Lemma can_take_price_ok cmd p :
  Command_Validate cmd = None -> cmd_Type cmd = CommandNew -> (cmd_OrderType cmd = OrderTypeMarket -> cmd_Price cmd = 0) ->
  can_take (cmd_Side cmd) (cmd_OrderType cmd) (cmd_Price cmd) p = price_ok (cmd_Side cmd) (cmd_Price cmd) p.
Proof.
  intros Hv Hty Hmk. destruct (Validate_New _ Hv Hty) as (_ & Hot & _ & Hq & Hp).
  unfold can_take, price_ok. destruct Hot as [Hot|Hot]; rewrite Hot; simpl.
  - rewrite (proj2 (Z.eqb_neq (cmd_Price cmd) 0)); [done|]. specialize (Hp Hot). lia.
  - by rewrite (Hmk Hot).
Qed.

Lemma available_exact cmd s :
  core_ok s -> command_typed cmd -> Command_Validate cmd = None -> cmd_Type cmd = CommandNew ->
  (cmd_OrderType cmd = OrderTypeMarket -> cmd_Price cmd = 0) ->
  side_qty (opposite (cmd_Side cmd) s) <= MaxInt64 ->
  (spec_available (cmd_Side cmd) (cmd_Price cmd) (cmd_OrderType cmd) (cmd_Quantity cmd) s
     <? cmd_Quantity cmd) = (fillable_now cmd s <? cmd_Quantity cmd).
Proof.
  intros Hc Ht Hv Hty Hmk Hs. destruct (Validate_New _ Hv Hty) as (_ & _ & _ & Hq & _).
  unfold spec_available, fillable_now.
  rewrite (spec_available_loop_ext _ (price_ok (cmd_Side cmd) (cmd_Price cmd))) by (intros p; by apply can_take_price_ok).
  destruct Ht. rewrite (spec_available_exact (opp_flag (cmd_Side cmd))); [by rewrite Z.add_0_l|..].
  - by apply opposite_ok.
  - apply price_ok_downward.
  - lia.
  - int_lia.
  - lia.
Qed.

(** C13. Fill or kill is all or nothing.  For a fill-or-kill order (a market order
    with no price, and an opposite side whose quantity fits in 64 bits): if it is
    accepted, it is filled completely, nothing of it is canceled or rested; it is
    refused for lack of quantity only when what it could trade is less than what
    it asks for, and then the book is unchanged. *)
Theorem fok_all_or_nothing cmd s res s' :
  book_step cmd s res s' -> cmd_Type cmd = CommandNew -> cmd_TimeInForce cmd = TIFFOK ->
  (cmd_OrderType cmd = OrderTypeMarket -> cmd_Price cmd = 0) ->
  side_qty (opposite (cmd_Side cmd) s) <= MaxInt64 ->
  (ev_accepted (cmd_OrderID cmd) ∈ res_Events res ->
     traded_qty (res_Events res) = cmd_Quantity cmd /\
     canceled_qty (res_Events res) = 0 /\ rested_qty (res_Events res) = 0) /\
  (ev_rejected RejectWouldNotFullyFill (cmd_OrderID cmd) ∈ res_Events res ->
     fillable_now cmd s < cmd_Quantity cmd /\ s' = s).
Proof.
  intros (Hok & Ht & Hout)%book_step_outcome Hty Hfok Hmk Hs. split.
  - intros Hin.
    destruct (accepted_new _ _ _ _ Hout Hty Hin) as (Hv & fs & rem & ls & tail & _ & Hav & Hev & Htk & Hm & He).
    pose proof (available_exact cmd s (bo_core _ Hok) Ht Hv Hty Hmk Hs) as HE.
    rewrite (proj2 (Z.ltb_ge _ _)) in HE by auto. symmetry in HE. apply Z.ltb_ge in HE.
    destruct (Validate_New _ Hv Hty) as (_ & _ & _ & Hq & _).
    pose proof (take_levels_sum (opp_flag (cmd_Side cmd)) (price_ok (cmd_Side cmd) (cmd_Price cmd))
      (cmd_Quantity cmd) _ (opposite_ok (cmd_Side cmd) s (bo_core _ Hok)) (price_ok_downward _ _) ltac:(lia)) as HS.
    rewrite Htk in HS. simpl in HS. unfold fillable_now in HE.
    pose proof (pf_sum _ _ _ _ _ _ (mt_fills _ _ _ _ _ _ _ Hm)).
    destruct He as [He|He He'|Hr Hl Hi Hp]; [|lia|lia].
    destruct (fill_events_sums (cmd_Seq cmd) (cmd_OrderID cmd) (sn_NextTradeSeq s) fs) as (E1 & E2 & E3).
    rewrite Hev. unfold traded_qty, canceled_qty, rested_qty, match_events in *. simpl.
    rewrite !app_nil_r, E1, E2, E3. lia.
  - intros Hin. destruct Hout as [H|m H1 H2|evs' s1 H1 H2 H3 Hout|H1 H2 H3 H4|o H1 H2 H3 H4|evs' s1 H1 H2 H3 Hout];
      try (rewrite Hty in H3; done); try by (rewrite list_elem_of_singleton in Hin).
    + rewrite list_elem_of_singleton in Hin. exfalso. revert Hin. unfold ValidationRejectReason.
      repeat case_match; discriminate.
    + destruct Hout as [o Hf|Hf Htf Ha|fs rem ls tail s2 Hf Hav Htk Hm He];
        try by (rewrite list_elem_of_singleton in Hin).
      * split; [|done]. apply Z.ltb_lt. rewrite <-available_exact by (done || apply Hok). by apply Z.ltb_lt.
      * exfalso. apply elem_of_cons in Hin as [Hin|Hin]; [done|]. unfold match_events in Hin.
        apply elem_of_app in Hin as [Hin|Hin].
        -- pose proof (fill_events_types (cmd_Seq cmd) (cmd_OrderID cmd) (sn_NextTradeSeq s) fs) as HF.
           rewrite Forall_forall in HF. destruct (HF _ Hin); done.
        -- destruct He; [by apply not_elem_of_nil in Hin|by rewrite list_elem_of_singleton in Hin..].
Qed.

Definition fok_ok : Command := cmd_new 5 14 SideBuy OrderTypeLimit TIFFOK 101 13.

Lemma fok_all_or_nothing_witness : traded_qty (res_Events (answer fok_ok session_book).1) = 13.
Proof.
  apply (fok_all_or_nothing fok_ok (snap session_book) (answer fok_ok session_book).1
           (snap (answer fok_ok session_book).2));
    [session_step|reflexivity|reflexivity|discriminate|vm_compute; discriminate|vm_compute; left].
Defined.

(** ** Rejections *)

Lemma Validate_reason cmd :
  Command_Validate cmd = None <-> ValidationRejectReason cmd = RejectNone.
Proof.
  unfold Command_Validate, ValidationRejectReason. split; intros H; revert H;
    repeat (case_match; simpl; try done); try lia.
Qed.

(** The reason a command is refused for, [RejectNone] if it is not. *)
Definition reject_reason (cmd : Command) (s : Snapshot) : Z :=
  let known := bool_decide (cmd_OrderID cmd ∈ map os_ID (book_orders s)) in
  if negb (String.eqb (cmd_Symbol cmd) (sn_Symbol s)) then RejectInvalidSymbol
  else if negb (ValidationRejectReason cmd =? RejectNone) then ValidationRejectReason cmd
  else if cmd_Type cmd =? CommandNew then
    if known then RejectDuplicateOrderID
    else if (cmd_TimeInForce cmd =? TIFFOK)
            && (spec_available (cmd_Side cmd) (cmd_Price cmd) (cmd_OrderType cmd)
                  (cmd_Quantity cmd) s <? cmd_Quantity cmd)
    then RejectWouldNotFullyFill else RejectNone
  else if known then RejectNone else RejectUnknownOrderID.

Definition rejected_with (cmd : Command) (reason : Z) (s : Snapshot) (evs : list Event) (s' : Snapshot) : Prop :=
  reason <> RejectNone /\ evs = [ev_rejected reason (cmd_OrderID cmd)] /\ s' = s.
Definition accepted_with (cmd : Command) (evs : list Event) : Prop :=
  exists tail, evs = ev_accepted (cmd_OrderID cmd) :: tail /\
    Forall (fun e => ev_Type e <> EventRejected) tail.

Lemma find_known id s o :
  find_order id (book_orders s) = Some o -> bool_decide (id ∈ map os_ID (book_orders s)) = true.
Proof.
  intros [Hin <-]%find_order_Some. apply bool_decide_eq_true_2. by apply list_elem_of_fmap_2.
Qed.

Lemma find_unknown id s :
  find_order id (book_orders s) = None -> bool_decide (id ∈ map os_ID (book_orders s)) = false.
Proof. intros H%find_order_None. by apply bool_decide_eq_false_2. Qed.

Lemma fill_events_not_rejected seq id nts fs :
  Forall (fun e => ev_Type e <> EventRejected) (fill_events seq id nts fs).
Proof.
  eapply Forall_impl; [apply fill_events_types|]. simpl. intros e [->| ->]; discriminate.
Qed.

Lemma outcome_reason cmd s evs s' :
  step_outcome cmd s evs s' ->
  rejected_with cmd (reject_reason cmd s) s evs s' \/
  reject_reason cmd s = RejectNone /\ accepted_with cmd evs.
Proof.
  assert (forall sym, cmd_Symbol cmd = sym -> String.eqb (cmd_Symbol cmd) sym = true) as Hsym
    by (intros ? ->; apply String.eqb_refl).
  assert (Command_Validate cmd = None -> (ValidationRejectReason cmd =? RejectNone) = true) as Hval
    by (intros ?%Validate_reason; lia).
  unfold reject_reason. intros [H|m H1 H2|evs' s1 H1 H2 H3 Hout|H1 H2 H3 H4|o H1 H2 H3 H4|evs' s1 H1 H2 H3 Hout].
  - left. by rewrite (proj2 (String.eqb_neq _ _) H).
  - left. assert ((ValidationRejectReason cmd =? RejectNone) = false) as E.
    { apply Z.eqb_neq. intros E%Validate_reason. congruence. }
    rewrite (Hsym _ H1), E. simpl. split; [by apply Z.eqb_neq|done].
  - rewrite (Hsym _ H1), (Hval H2), H3. simpl.
    destruct Hout as [o Hf|Hf Htf Ha|fs rem ls tail s2 Hf Hav Htk Hm He].
    + left. by rewrite (find_known _ _ _ Hf).
    + left. rewrite (find_unknown _ _ Hf), Htf. simpl. by rewrite (proj2 (Z.ltb_lt _ _) Ha).
    + right. rewrite (find_unknown _ _ Hf). split.
      * destruct (cmd_TimeInForce cmd =? TIFFOK) eqn:E; [|done]. simpl.
        rewrite (proj2 (Z.ltb_ge _ _)); [done|]. apply Hav. lia.
      * eexists. split; [done|]. apply Forall_app. split; [apply fill_events_not_rejected|].
        destruct He; each.
  - left. rewrite (Hsym _ H1), (Hval H2), H3. simpl. by rewrite (find_unknown _ _ H4).
  - right. rewrite (Hsym _ H1), (Hval H2), H3. simpl. rewrite (find_known _ _ _ H4). split; [done|].
    eexists. split; [done|]. each.
  - rewrite (Hsym _ H1), (Hval H2), H3. simpl.
    destruct Hout as [Hf|o Hf Hp Hq|o price fs rem ls Hf Hp Hl Htk Hm s2].
    + left. by rewrite (find_unknown _ _ Hf).
    + right. rewrite (find_known _ _ _ Hf). split; [done|]. eexists. split; [done|].
      apply Forall_app. split; each.
    + right. rewrite (find_known _ _ _ Hf). split; [done|]. eexists. split; [done|].
      apply Forall_app. split; [apply fill_events_not_rejected|]. apply Forall_app. split; each.
Qed.

(** C22. The decision table of rejections.  A command is refused exactly when
    [reject_reason] names a reason (wrong symbol, failed validation, duplicate or
    unknown order ID, fill-or-kill that cannot be filled); the answer is then that
    single rejection and the book does not change.  Otherwise the first event is
    the acceptance and no rejection follows. *)
Theorem rejection_table cmd s res s' :
  book_step cmd s res s' ->
  (reject_reason cmd s <> RejectNone ->
     res_Events res = [ev_rejected (reject_reason cmd s) (cmd_OrderID cmd)] /\ s' = s) /\
  (reject_reason cmd s = RejectNone ->
     exists tail, res_Events res = ev_accepted (cmd_OrderID cmd) :: tail /\
       Forall (fun e => ev_Type e <> EventRejected) tail).
Proof.
  intros (Hok & Ht & Hout)%book_step_outcome.
  destruct (outcome_reason _ _ _ _ Hout) as [(H1 & H2 & H3)|[H1 H2]]; split; intros; done.
Qed.

Definition duplicate : Command := cmd_new 5 13 SideBuy OrderTypeLimit TIFGTC 100 8.

Lemma rejection_table_witness :
  reject_reason duplicate (snap session_book) = RejectDuplicateOrderID /\
  res_Events (answer duplicate session_book).1
    = [ev_rejected (reject_reason duplicate (snap session_book)) 13] /\
  snap (answer duplicate session_book).2 = snap session_book.
Proof.
  split; [vm_compute; reflexivity|].
  refine (proj1 (rejection_table duplicate (snap session_book) (answer duplicate session_book).1
                   (snap (answer duplicate session_book).2) _) _);
    [session_step|vm_compute; discriminate].
Defined.

(** ** Snapshots *)

(** C25. Snapshot round trip.  Restoring a well-formed snapshot succeeds, and the
    restored book has that snapshot again, with every level, queue position,
    quantity, sequence number and the trade counter. *)
Theorem snapshot_roundtrip s :
  book_ok s -> exists b, NewFromSnapshot s = Ret b /\ Book_Snapshot b = Ret (s, b) /\
    CheckInvariants b = Ret (None, b).
Proof.
  intros [Hc Hu]. destruct (NewFromSnapshot_repr s Hc) as (b & Hn & Hr). exists b.
  split_and!; [done|by apply Book_Snapshot_repr|by eapply CheckInvariants_repr].
Qed.

Lemma session_snap_ok : book_ok (snap session_book).
Proof.
  destruct (reachable_repr _ session_reachable) as (s & Hr & Hok).
  unfold snap. by rewrite (Book_Snapshot_repr _ _ Hr).
Qed.

Lemma snapshot_roundtrip_witness :
  exists b, NewFromSnapshot (snap session_book) = Ret b /\
    Book_Snapshot b = Ret (snap session_book, b) /\ CheckInvariants b = Ret (None, b).
Proof. apply (snapshot_roundtrip (snap session_book)). apply session_snap_ok. Defined.

(** C26. A restored book is indistinguishable from the one it was taken from: a
    reachable book can be snapshotted and restored at any point, and any sequence
    of commands is then answered with the same results and leads to books with
    equal snapshots. *)
Theorem restore_is_transparent b cmds :
  reachable b -> Forall command_typed cmds ->
  exists s b2 rs b' b2',
    Book_Snapshot b = Ret (s, b) /\ NewFromSnapshot s = Ret b2 /\
    apply_all cmds b = Ret (rs, b') /\ apply_all cmds b2 = Ret (rs, b2') /\
    exists s', Book_Snapshot b' = Ret (s', b') /\ Book_Snapshot b2' = Ret (s', b2').
Proof.
  intros (s & Hr & Hok)%reachable_repr Ht.
  destruct (NewFromSnapshot_repr s (bo_core _ Hok)) as (b2 & Hn & Hr2).
  destruct (apply_all_repr cmds b s Hr Hok Ht) as (b' & Hrun & Hr' & _).
  destruct (apply_all_repr cmds b2 s Hr2 Hok Ht) as (b2' & Hrun2 & Hr2' & _).
  exists s, b2, (spec_all cmds s).1, b', b2'. split_and!; [by apply Book_Snapshot_repr|done..|].
  exists (spec_all cmds s).2. split; by apply Book_Snapshot_repr.
Qed.

Lemma restore_is_transparent_witness :
  exists s b2 rs b' b2',
    Book_Snapshot session_book = Ret (s, session_book) /\ NewFromSnapshot s = Ret b2 /\
    apply_all [taker] session_book = Ret (rs, b') /\ apply_all [taker] b2 = Ret (rs, b2') /\
    exists s', Book_Snapshot b' = Ret (s', b') /\ Book_Snapshot b2' = Ret (s', b2').
Proof.
  apply (restore_is_transparent session_book [taker]);
    [apply session_reachable|constructor; [typed|constructor]].
Defined.

(** ** Trade identifiers *)

(** C24. Trade IDs are unique.  Over any sequence of commands with increasing
    sequence numbers below 2^44, none of which trades more than 2^20 times, no
    trade ID occurs twice. *)
Theorem trade_ids_unique b cmds rs b' :
  reachable b -> Forall command_typed cmds -> apply_all cmds b = Ret (rs, b') ->
  StronglySorted Z.lt (map cmd_Seq cmds) -> Forall (fun c => cmd_Seq c < 2 ^ 44) cmds ->
  Forall (fun r => Z.of_nat (length (trade_ids (res_Events r))) <= 2 ^ 20) rs ->
  NoDup (concat (map (fun r => trade_ids (res_Events r)) rs)).
Proof.
  intros (s & Hr & Hok)%reachable_repr Ht Hrun Hsort Hlt Hcnt.
  destruct (apply_all_repr cmds b s Hr Hok Ht) as (b2 & Hrun2 & _). rewrite Hrun in Hrun2.
  simplify_eq. by apply (trade_ids_all cmds s).
Qed.

Definition crossing : list Command :=
  [taker; cmd_new 6 15 SideBuy OrderTypeMarket TIFIOC 0 20].

Lemma trade_ids_unique_witness :
  exists rs b', apply_all crossing session_book = Ret (rs, b') /\
    concat (map (fun r => trade_ids (res_Events r)) rs)
      = [5 * 2 ^ 20 + 1; 5 * 2 ^ 20 + 2; 6 * 2 ^ 20 + 3; 6 * 2 ^ 20 + 4] /\
    NoDup (concat (map (fun r => trade_ids (res_Events r)) rs)).
Proof.
  eexists _, _. split; [vm_compute; reflexivity|]. split; [vm_compute; reflexivity|].
  eapply (trade_ids_unique session_book crossing); [apply session_reachable| |vm_compute; reflexivity|..].
  - repeat (apply Forall_cons_2; [typed|]). apply Forall_nil_2.
  - vm_compute. repeat constructor.
  - repeat constructor.
  - repeat (apply Forall_cons_2; [vm_compute; discriminate|]). apply Forall_nil_2.
Defined.

(** ** Replacing *)

Lemma accepted_replace cmd s evs s' :
  step_outcome cmd s evs s' -> cmd_Type cmd = CommandReplace ->
  ev_accepted (cmd_OrderID cmd) ∈ evs ->
  replace_outcome cmd s evs s' /\
  exists o, find_order (cmd_OrderID cmd) (book_orders s) = Some o.
Proof.
  intros Hout Hty Hin.
  destruct Hout as [H|m H1 H2|evs' s1 H1 H2 H3 Hout|H1 H2 H3 H4|o H1 H2 H3 H4|evs' s1 H1 H2 H3 Hout];
    try by (rewrite list_elem_of_singleton in Hin).
  - rewrite Hty in H3. done.
  - rewrite Hty in H3. done.
  - split; [done|]. destruct Hout; eauto. by rewrite list_elem_of_singleton in Hin.
Qed.

(** The price a replace asks for: zero keeps the old one. *)
Definition replace_price (cmd : Command) (o : OrderSnapshot) : Z :=
  if cmd_NewPrice cmd >? 0 then cmd_NewPrice cmd else os_Price o.

(** C27. A replace that keeps the price and does not raise the quantity keeps its
    priority: it trades nothing, it is reported as retained, every level and queue
    keeps its orders in the same positions, and only the open quantity of that
    order changes. *)
Theorem replace_retains_priority cmd s res s' o :
  book_step cmd s res s' -> cmd_Type cmd = CommandReplace ->
  ev_accepted (cmd_OrderID cmd) ∈ res_Events res ->
  find_order (cmd_OrderID cmd) (book_orders s) = Some o ->
  replace_price cmd o = os_Price o -> cmd_NewLeavesQty cmd <= os_LeavesQty o ->
  last (res_Events res)
    = Some (ev_replaced (cmd_OrderID cmd) (os_Price o) (cmd_NewLeavesQty cmd) true) /\
  trades (res_Events res) = [] /\
  s' = spec_reduce (cmd_OrderID cmd) (cmd_NewLeavesQty cmd) s /\
  map os_ID (book_orders s') = map os_ID (book_orders s) /\
  map os_Seq (book_orders s') = map os_Seq (book_orders s).
Proof.
  intros (Hok & Ht & Hout)%book_step_outcome Hty Hin Hf Hp Hq.
  destruct (accepted_replace _ _ _ _ Hout Hty Hin) as [Hr _]. clear Hin Hout.
  destruct Hr as [Hf'|o' Hf' Hp' Hq'|o' price fs rem ls Hf' Hp' Hl Htk Hm s2].
  - congruence.
  - rewrite Hf in Hf'. simplify_eq. split_and!; [|repeat case_match; done|done|..].
    + rewrite app_comm_cons. apply last_snoc.
    + unfold book_orders. simpl. rewrite !level_reduce_orders, <-map_app. apply reduce_order_ids.
    + unfold book_orders. simpl. rewrite !level_reduce_orders, <-map_app, map_map.
      apply map_ext. intros x. unfold reduce_order. by case_match.
  - rewrite Hf in Hf'. simplify_eq. unfold replace_price in *. lia.
Qed.

Definition shrink : Command := cmd_replace 5 10 0 2.

Lemma replace_retains_priority_witness :
  last (res_Events (answer shrink session_book).1) = Some (ev_replaced 10 100 2 true).
Proof.
  refine (proj1 (replace_retains_priority shrink (snap session_book) (answer shrink session_book).1
                   (snap (answer shrink session_book).2) (mkOrderSnapshot 10 SideSell 100 5 1)
                   _ _ _ _ _ _));
    [session_step|reflexivity|vm_compute; left|vm_compute; reflexivity|reflexivity|vm_compute; discriminate].
Defined.

Lemma spec_rest_tail o s :
  os_Side o = SideBuy \/ os_Side o = SideSell ->
  exists l, l ∈ own_side (os_Side o) (spec_rest o s) /\ pls_Price l = os_Price o /\
    last (pls_Orders l) = Some o.
Proof. intros Hs. destruct (rest_sides o s Hs) as [_ ->]. apply level_insert_last. Qed.

(** C28. A replace that changes the price or raises the quantity gives up its
    place: the order leaves the book, matches the opposite side as a new order
    would, and what is left of it rests at the tail of its new level with the
    sequence number of the replace; nothing of it remains if it was filled. *)
Theorem replace_requeues cmd s res s' o :
  book_step cmd s res s' -> cmd_Type cmd = CommandReplace ->
  ev_accepted (cmd_OrderID cmd) ∈ res_Events res ->
  find_order (cmd_OrderID cmd) (book_orders s) = Some o ->
  replace_price cmd o <> os_Price o \/ os_LeavesQty o < cmd_NewLeavesQty cmd ->
  exists fs rem,
    priority_fills (os_Side o) (replace_price cmd o) (cmd_NewLeavesQty cmd)
      (spec_remove (cmd_OrderID cmd) s) fs rem /\
    trades (res_Events res)
      = step_trades (cmd_Seq cmd) (cmd_OrderID cmd) (sn_NextTradeSeq s) fs /\
    last (res_Events res) = Some (ev_replaced (cmd_OrderID cmd) (replace_price cmd o) rem false) /\
    (0 < rem -> exists l, l ∈ own_side (os_Side o) s' /\ pls_Price l = replace_price cmd o /\
       last (pls_Orders l) = Some (mkOrderSnapshot (cmd_OrderID cmd) (os_Side o)
                                     (replace_price cmd o) rem (cmd_Seq cmd))) /\
    (rem = 0 -> cmd_OrderID cmd ∉ map os_ID (book_orders s')).
Proof.
  intros (Hok & Ht & Hout)%book_step_outcome Hty Hin Hf Hp.
  destruct (accepted_replace _ _ _ _ Hout Hty Hin) as [Hr _]. clear Hin Hout.
  destruct Hr as [Hf'|o' Hf' Hp' Hq'|o' price fs rem ls Hf' Hp' Hl Htk Hm s2]; rewrite Hf in Hf'; simplify_eq.
  - exfalso. unfold replace_price in Hp.
    destruct (find_order_ok _ _ _ (bo_core _ Hok) Hf) as (? & [_ ? _ _ _] & _).
    destruct (cmd_NewPrice cmd >? 0) eqn:?; lia.
  - destruct (find_order_ok _ _ _ (bo_core _ Hok) Hf) as (? & Ho%order_ok_side & _).
    exists fs, rem. split_and!.
    + apply Hm.
    + rewrite trades_cons_other, trades_app by done. unfold match_events.
      rewrite trades_fill_events by apply Hok. rewrite (trades_none (_ ++ _)); [by rewrite app_nil_r|].
      apply Forall_app. split; each.
    + rewrite app_comm_cons, app_assoc. apply last_snoc.
    + intros Hr. rewrite (proj2 (Z.ltb_lt _ _) Hr).
      by apply (spec_rest_tail (mkOrderSnapshot _ (os_Side o') _ _ _) s2).
    + intros ->. simpl. intros Hin.
      eapply (matched_ids _ _ _ _ _ _ _ (bo_core _ (spec_remove_ok _ _ Hok)) Hm) in Hin.
      rewrite spec_remove_orders in Hin. by apply drop_order_gone in Hin.
Qed.

Definition move : Command := cmd_replace 5 13 100 20.

Lemma replace_requeues_witness :
  exists fs rem,
    priority_fills SideBuy 100 20 (spec_remove 13 (snap session_book)) fs rem /\
    last (res_Events (answer move session_book).1) = Some (ev_replaced 13 100 rem false).
Proof.
  destruct (replace_requeues move (snap session_book) (answer move session_book).1
              (snap (answer move session_book).2) (mkOrderSnapshot 13 SideBuy 99 4 4))
    as (fs & rem & H1 & _ & H3 & _).
  - session_step.
  - reflexivity.
  - vm_compute. left.
  - vm_compute. reflexivity.
  - left. discriminate.
  - exists fs, rem. split; [exact H1|exact H3].
Defined.

(** Time priority of resting orders.  Whenever a command reports that an order
    rested, the order is the last of its price level on its side of the book, with
    the reported price and quantity and the sequence number of the command. *)
Theorem rested_at_tail cmd s res s' id price leaves :
  book_step cmd s res s' -> ev_rested id price leaves ∈ res_Events res ->
  exists side l, l ∈ own_side side s' /\ pls_Price l = price /\
    last (pls_Orders l) = Some (mkOrderSnapshot id side price leaves (cmd_Seq cmd)).
Proof.
  intros (Hok & Ht & Hout)%book_step_outcome Hin.
  assert (forall seq i nts fs, ~ ev_rested id price leaves ∈ fill_events seq i nts fs) as Hfills.
  { intros seq i nts fs Hi. pose proof (fill_events_types seq i nts fs) as HF.
    rewrite Forall_forall in HF. destruct (HF _ Hi); done. }
  destruct Hout as [H|m H1 H2|evs' s1 H1 H2 H3 Hout|H1 H2 H3 H4|o H1 H2 H3 H4|evs' s1 H1 H2 H3 Hout];
    try by (rewrite list_elem_of_singleton in Hin).
  - destruct Hout as [o Hf|Hf Htf Ha|fs rem ls tail s2 Hf Hav Htk Hm He];
      try by (rewrite list_elem_of_singleton in Hin).
    destruct (Validate_New _ H2 H3) as (Hside & _).
    apply elem_of_cons in Hin as [Hin|Hin]; [done|]. apply elem_of_app in Hin as [Hin|Hin];
      [by apply Hfills in Hin|].
    destruct He as [He|He He'|Hr Hl Hi Hp];
      [by apply not_elem_of_nil in Hin|by rewrite list_elem_of_singleton in Hin|].
    rewrite list_elem_of_singleton in Hin. injection Hin as -> -> ->.
    exists (cmd_Side cmd). by apply (spec_rest_tail (mkOrderSnapshot _ (cmd_Side cmd) _ _ _)).
  - rewrite !elem_of_cons in Hin. destruct Hin as [?|[?|?%not_elem_of_nil]]; done.
  - destruct Hout as [Hf|o Hf Hp Hq|o pr fs rem ls Hf Hp Hl Htk Hm s2];
      [by rewrite list_elem_of_singleton in Hin|..].
    + exfalso. rewrite elem_of_cons, elem_of_app, list_elem_of_singleton in Hin.
      destruct Hin as [?|[Hin|?]]; [done| |done].
      case_match; [by rewrite list_elem_of_singleton in Hin|by apply not_elem_of_nil in Hin].
    + destruct (find_order_ok _ _ _ (bo_core _ Hok) Hf) as (? & Ho%order_ok_side & _).
      rewrite elem_of_cons, !elem_of_app, list_elem_of_singleton in Hin.
      destruct Hin as [?|[Hin|[Hin|?]]]; [done|by apply Hfills in Hin| |done].
      destruct (0 <? rem); [|by apply not_elem_of_nil in Hin].
      rewrite list_elem_of_singleton in Hin. injection Hin as -> -> ->.
      exists (os_Side o). by apply (spec_rest_tail (mkOrderSnapshot _ (os_Side o) _ _ _) s2).
Qed.

Definition joiner : Command := cmd_new 5 14 SideSell OrderTypeLimit TIFGTC 100 6.

Lemma rested_at_tail_witness :
  exists side l, l ∈ own_side side (snap (answer joiner session_book).2) /\ pls_Price l = 100 /\
    last (pls_Orders l) = Some (mkOrderSnapshot 14 side 100 6 5).
Proof.
  apply (rested_at_tail joiner (snap session_book) (answer joiner session_book).1
           (snap (answer joiner session_book).2) 14 100 6); [session_step|vm_compute; right; left].
Defined.

(** ** Canceling, immediate orders *)

(** C29. A cancel removes exactly the order it names: it reports the open quantity
    the order had, every other order keeps its place in its queue, and no order
    with that ID is left. *)
Theorem cancel_removes_exactly cmd s res s' :
  book_step cmd s res s' -> cmd_Type cmd = CommandCancel ->
  ev_accepted (cmd_OrderID cmd) ∈ res_Events res ->
  exists o, find_order (cmd_OrderID cmd) (book_orders s) = Some o /\
    res_Events res = [ev_accepted (cmd_OrderID cmd);
                      ev_canceled (cmd_OrderID cmd) (os_LeavesQty o) CancelByUser] /\
    all_orders (sn_Bids s') = drop_order (cmd_OrderID cmd) (all_orders (sn_Bids s)) /\
    all_orders (sn_Asks s') = drop_order (cmd_OrderID cmd) (all_orders (sn_Asks s)) /\
    (cmd_OrderID cmd ∉ map os_ID (book_orders s')) /\
    book_orders s ≡ₚ o :: book_orders s'.
Proof.
  intros (Hok & Ht & Hout)%book_step_outcome Hty Hin.
  destruct Hout as [H|m H1 H2|evs' s1 H1 H2 H3 Hout|H1 H2 H3 H4|o H1 H2 H3 H4|evs' s1 H1 H2 H3 Hout];
    try by (rewrite list_elem_of_singleton in Hin).
  1: { by rewrite Hty in H3. }
  2: { by rewrite Hty in H3. }
  exists o. split_and!; [done|done|apply level_remove_orders..| |].
  - rewrite spec_remove_orders. apply drop_order_gone.
  - apply find_order_split; [apply Hok|done].
Qed.

Lemma cancel_removes_exactly_witness :
  exists o, find_order 11 (book_orders (snap session_book)) = Some o /\
    res_Events (answer (cmd_cancel 5 11) session_book).1
      = [ev_accepted 11; ev_canceled 11 (os_LeavesQty o) CancelByUser].
Proof.
  destruct (cancel_removes_exactly (cmd_cancel 5 11) (snap session_book)
              (answer (cmd_cancel 5 11) session_book).1 (snap (answer (cmd_cancel 5 11) session_book).2))
    as (o & H1 & H2 & _).
  - session_step.
  - reflexivity.
  - vm_compute. left.
  - exists o. split; [exact H1|exact H2].
Defined.

(** C30. Market and immediate-or-cancel orders never rest: once accepted, nothing
    of them is in the book, and what they did not trade is reported canceled. *)
Theorem immediate_never_rests cmd s res s' :
  book_step cmd s res s' -> cmd_Type cmd = CommandNew ->
  cmd_OrderType cmd = OrderTypeMarket \/ cmd_TimeInForce cmd = TIFIOC ->
  ev_accepted (cmd_OrderID cmd) ∈ res_Events res ->
  (cmd_OrderID cmd ∉ map os_ID (book_orders s')) /\
  own_side (cmd_Side cmd) s' = own_side (cmd_Side cmd) s /\
  traded_qty (res_Events res) + canceled_qty (res_Events res) = cmd_Quantity cmd.
Proof.
  intros (Hok & Ht & Hout)%book_step_outcome Hty Himm Hin.
  destruct (accepted_new _ _ _ _ Hout Hty Hin) as (Hv & fs & rem & ls & tail & Hf & _ & Hev & Htk & Hm & He).
  apply find_order_None in Hf.
  destruct (fill_events_sums (cmd_Seq cmd) (cmd_OrderID cmd) (sn_NextTradeSeq s) fs) as (E1 & E2 & E3).
  pose proof (pf_sum _ _ _ _ _ _ (mt_fills _ _ _ _ _ _ _ Hm)).
  assert (cmd_OrderID cmd ∉ map os_ID (book_orders (after_match (cmd_Side cmd) fs ls s))) as Hni.
  { intros Hi. apply Hf. eapply matched_ids; [apply Hok|exact Hm|done]. }
  rewrite Hev. unfold traded_qty, canceled_qty, match_events in *. simpl. rewrite !sum_of_app, E1, E2.
  destruct He as [He|He He'|Hr Hl Hi Hp]; simpl.
  - split_and!; [done|apply own_after|lia].
  - split_and!; [done|apply own_after|lia].
  - destruct Himm as [Himm|Himm]; [|done]. by rewrite Hl in Himm.
Qed.

Definition sweep : Command := cmd_new 5 15 SideBuy OrderTypeMarket TIFIOC 0 30.

Lemma immediate_never_rests_witness :
  15 ∉ map os_ID (book_orders (snap (answer sweep session_book).2)).
Proof.
  refine (proj1 (immediate_never_rests sweep (snap session_book) (answer sweep session_book).1
                   (snap (answer sweep session_book).2) _ _ _ _));
    [session_step|reflexivity|left; reflexivity|vm_compute; left].
Defined.

(** ** The event feed *)

(** C23. The events are a complete feed: a consumer that starts from the open
    quantities of a book and only reads the events of a command (subtracting
    trades from their makers, following reductions, rests, cancels and replaces)
    ends with exactly the open quantities of the book after the command. *)
Theorem events_track_book cmd s res s' :
  book_step cmd s res s' ->
  feed (quantities (book_orders s)) (res_Events res) = quantities (book_orders s').
Proof. intros (Hok & Ht & Hout)%book_step_outcome. by eapply feed_step. Qed.

Lemma events_track_book_witness :
  feed (quantities (book_orders (snap session_book))) (res_Events (answer move session_book).1)
  = quantities (book_orders (snap (answer move session_book).2)).
Proof.
  apply (events_track_book move (snap session_book) (answer move session_book).1
           (snap (answer move session_book).2)).
  session_step.
Defined.

(** ** The price index *)

(** The binary searches over the price slice agree with the linear reference:
    on a sorted side [findInsertIndex] returns the number of strictly better
    prices, and [findPriceIndex] returns the position of a price that is there and
    -1 for one that is not. *)
Theorem price_search_correct s price :
  prices_sorted (sb_isBid s) (sb_prices s) ->
  findInsertIndex s price = Ret (insert_pos (sb_isBid s) price (sb_prices s)) /\
  (price ∉ sb_prices s -> findPriceIndex s price = Ret (-1)) /\
  (forall i, sb_prices s !! i = Some price -> findPriceIndex s price = Ret (Z.of_nat i)).
Proof.
  intros Hs. split; [by apply findInsertIndex_ok|]. split.
  - intros Hni. unfold findPriceIndex. rewrite findInsertIndex_ok by done. case_match eqn:E; [done|].
    apply Nat.leb_gt in E. destruct (lookup_lt_is_Some_2 _ _ E) as [p Hp]. rewrite Hp.
    destruct (p =? price) eqn:Ep; [|done]. apply Z.eqb_eq in Ep as ->.
    by apply list_elem_of_lookup_2 in Hp.
  - intros i Hi.
    assert (length (take i (sb_prices s)) = i) as Hlen.
    { rewrite length_take. apply lookup_lt_Some in Hi. lia. }
    rewrite (findPriceIndex_ok s (take i (sb_prices s)) price (drop (S i) (sb_prices s)));
      [by rewrite Hlen|done|by rewrite take_drop_middle].
Qed.

Lemma price_search_correct_witness :
  findInsertIndex (mkSideBook ∅ [105; 103; 99] true) 103
  = Ret (insert_pos true 103 [105; 103; 99]).
Proof.
  apply (price_search_correct (mkSideBook ∅ [105; 103; 99] true) 103). vm_compute. repeat constructor.
Defined.

(** ** Where fill or kill is not all or nothing *)

(** A market order that carries a price breaks fill or kill: validation lets it
    through, the availability check ignores its price because it is a market
    order, but matching obeys the price because it is not zero.  A reachable book
    accepts such a fill-or-kill order and fills none of it. *)
Theorem fok_market_with_price_not_filled :
  exists b cmd res b', reachable b /\ command_typed cmd /\ Command_Validate cmd = None /\
    cmd_TimeInForce cmd = TIFFOK /\ cmd_OrderType cmd = OrderTypeMarket /\
    Apply cmd b = Ret (res, b') /\
    ev_accepted (cmd_OrderID cmd) ∈ res_Events res /\
    traded_qty (res_Events res) = 0 /\ canceled_qty (res_Events res) = cmd_Quantity cmd /\
    0 < cmd_Quantity cmd.
Proof.
  exists session_book, (cmd_new 5 14 SideBuy OrderTypeMarket TIFFOK 50 5),
    (answer (cmd_new 5 14 SideBuy OrderTypeMarket TIFFOK 50 5) session_book).1,
    (answer (cmd_new 5 14 SideBuy OrderTypeMarket TIFFOK 50 5) session_book).2.
  split_and!; [apply session_reachable|typed|..|vm_compute; left| | |]; vm_compute; reflexivity.
Qed.

(** Against one level the availability check compares the 64-bit total of the level. *)
Lemma available_one_level canTake required l ls :
  is_i64 required -> canTake (pls_Price l) = true -> Forall (fun l' => canTake (pls_Price l') = false) ls ->
  (spec_available_loop canTake required (l :: ls) 0 <? required) = (level_qty l <? required).
Proof.
  intros Hr Hl Hls. cbn [spec_available_loop]. rewrite Hl. cbn [negb]. rewrite i64_sub_id by int_lia. rewrite Z.sub_0_r.
  destruct (level_qty l >=? required) eqn:E; [destruct (level_qty l <? required) eqn:E'; lia|].
  assert (i64_add 0 (level_qty l) = level_qty l) as -> by (unfold level_qty; int_lia).
  destruct Hls as [|l' ls Hl' _]; [done|]. cbn [spec_available_loop]. by rewrite Hl'.
Qed.

(** C40. A level whose total wraps around blocks fill or kill.  The total of a level is a
    64-bit integer; when the orders of a level add up to 2^63 or more (and less than 2^64),
    it is negative.  Then a valid fill-or-kill order of any quantity that can trade with
    this level only is refused for lack of quantity, although the level holds more than
    any order can ask for; the book does not change. *)
Theorem fok_refused_after_overflow cmd s res s' l ls :
  book_step cmd s res s' -> cmd_Type cmd = CommandNew -> cmd_TimeInForce cmd = TIFFOK ->
  (cmd_OrderType cmd = OrderTypeMarket -> cmd_Price cmd = 0) ->
  cmd_Symbol cmd = sn_Symbol s -> Command_Validate cmd = None -> cmd_OrderID cmd ∉ map os_ID (book_orders s) ->
  opposite (cmd_Side cmd) s = l :: ls -> price_ok (cmd_Side cmd) (cmd_Price cmd) (pls_Price l) = true ->
  Forall (fun l' => price_ok (cmd_Side cmd) (cmd_Price cmd) (pls_Price l') = false) ls ->
  9223372036854775808 <= leaves_sum (pls_Orders l) < 18446744073709551616 ->
  res_Events res = [ev_rejected RejectWouldNotFullyFill (cmd_OrderID cmd)] /\ s' = s /\
  cmd_Quantity cmd <= fillable_now cmd s.
Proof.
  intros (Hok & Ht & Hout)%book_step_outcome Hty Htif Hmk Hsym Hv Hid Hopp Hl Hls Hsum.
  destruct (Validate_New _ Hv Hty) as (_ & _ & _ & Hq & _). pose proof (proj1 (Validate_reason cmd) Hv) as Hvr.
  assert (is_i64 (cmd_Quantity cmd)) as Hqi by by destruct Ht.
  assert (reject_reason cmd s = RejectWouldNotFullyFill) as Hre.
  { unfold reject_reason. rewrite Hsym, String.eqb_refl, Hvr, Hty, Htif, (bool_decide_eq_false_2 _ Hid). simpl.
    unfold spec_available. rewrite (spec_available_loop_ext _ (price_ok (cmd_Side cmd) (cmd_Price cmd))) by (intros p; by apply can_take_price_ok).
    rewrite Hopp, available_one_level by done. rewrite (proj2 (Z.ltb_lt _ _)); [done|]. unfold level_qty. int_lia. }
  destruct (outcome_reason _ _ _ _ Hout) as [(_ & H2 & H3)|[H1 _]]; [|by rewrite Hre in H1].
  rewrite Hre in H2. split_and!; [done|done|]. unfold fillable_now.
  pose proof (opposite_ok (cmd_Side cmd) s (bo_core _ Hok)) as Hs. rewrite Hopp in Hs |- *.
  pose proof Hs as (Hlv & _ & Hlss)%side_ok_cons. rewrite (fillable_allowed _ _ _ _ Hlv Hl).
  pose proof (fillable_nonneg _ (price_ok (cmd_Side cmd) (cmd_Price cmd)) _ Hlss). int_lia.
Qed.

(** Two resting sells of the largest quantity at one price, a third at a higher price, and
    a buy of a single unit. *)
Definition wrapped_cmds : list Command :=
  [cmd_new 1 10 SideSell OrderTypeLimit TIFGTC 100 MaxInt64; cmd_new 2 11 SideSell OrderTypeLimit TIFGTC 100 MaxInt64;
   cmd_new 3 12 SideSell OrderTypeLimit TIFGTC 105 7].
Definition wrapped_book : Book := run_session wrapped_cmds.
Definition fok_one : Command := cmd_new 4 13 SideBuy OrderTypeLimit TIFFOK 100 1.

Lemma fok_refused_after_overflow_witness :
  res_Events (answer fok_one wrapped_book).1 = [ev_rejected RejectWouldNotFullyFill 13] /\
  snap (answer fok_one wrapped_book).2 = snap wrapped_book /\ 1 <= fillable_now fok_one (snap wrapped_book).
Proof.
  eapply (fok_refused_after_overflow fok_one (snap wrapped_book) (answer fok_one wrapped_book).1 (snap (answer fok_one wrapped_book).2));
    [|reflexivity|reflexivity|discriminate|vm_compute; reflexivity|vm_compute; reflexivity| |vm_compute; reflexivity
     |vm_compute; reflexivity|vm_compute; repeat constructor|vm_compute; split; congruence].
  - exists wrapped_book, (answer fok_one wrapped_book).2. split_and!; [|vm_compute; reflexivity|typed|vm_compute; reflexivity..].
    eapply (apply_all_reachable wrapped_cmds (Book_New "X")); [apply reach_new| |vm_compute; reflexivity].
    repeat (apply Forall_cons_2; [typed|]). apply Forall_nil_2.
  - apply (bool_decide_eq_false_1 _). vm_compute. reflexivity.
Defined.

(** The two validators agree: [Validate] accepts a command exactly when
    [ValidationRejectReason] has no reason to reject it, so a command refused by
    validation always carries a reason. *)
Theorem validators_agree cmd :
  Command_Validate cmd = None <-> ValidationRejectReason cmd = RejectNone.
Proof. apply Validate_reason. Qed.
