(* ===== verification/Bytes.v ===== *)
(** * Bytes: byte strings, little-endian integers and CRC-32C

    What the journal uses of the Go libraries [encoding/binary], [hash/crc32]
    (Castagnoli table) and [bytes]: bytes are integers in [0, 256), a byte slice
    is a list of them, a Go string is the list of its bytes. *)

From S2P Require Import Prelude.

(** ** Bytes and strings *)

Definition bytes_ok (l : list Z) : Prop := Forall is_u8 l.

Definition byte_of_ascii (a : Ascii.ascii) : Z := Z.of_N (Ascii.N_of_ascii a).
Definition ascii_of_byte (b : Z) : Ascii.ascii := Ascii.ascii_of_N (Z.to_N b).

(** [[]byte(s)] and [string(b)]. *)
Fixpoint bytes_of_string (s : string) : list Z :=
  match s with
  | EmptyString => []
  | String a s' => byte_of_ascii a :: bytes_of_string s'
  end.
Fixpoint string_of_bytes (l : list Z) : string :=
  match l with
  | [] => EmptyString
  | b :: l' => String (ascii_of_byte b) (string_of_bytes l')
  end.

(** [len(s)]. *)
Definition string_len (s : string) : nat := length (bytes_of_string s).

Lemma byte_of_ascii_ok a : is_u8 (byte_of_ascii a).
Proof. pose proof (Ascii.N_ascii_bounded a). unfold is_u8, byte_of_ascii. lia. Qed.

Lemma bytes_of_string_ok s : bytes_ok (bytes_of_string s).
Proof. induction s; simpl; constructor; auto using byte_of_ascii_ok. Qed.

Lemma string_bytes s : string_of_bytes (bytes_of_string s) = s.
Proof.
  induction s as [|a s IH]; simpl; [done|]. rewrite IH. f_equal.
  unfold ascii_of_byte, byte_of_ascii. by rewrite N2Z.id, Ascii.ascii_N_embedding.
Qed.

Lemma bytes_string l : bytes_ok l -> bytes_of_string (string_of_bytes l) = l.
Proof.
  induction 1 as [|b l Hb Hl IH]; simpl; [done|]. rewrite IH. f_equal.
  unfold ascii_of_byte, byte_of_ascii, is_u8 in *. rewrite Ascii.N_ascii_embedding by lia. lia.
Qed.

(** ** Little-endian integers *)

(** The [n] low bytes of [z], least significant first. *)
Fixpoint le (n : nat) (z : Z) : list Z :=
  match n with
  | O => []
  | S n' => z mod 256 :: le n' (z / 256)
  end.

Fixpoint le_value (l : list Z) : Z :=
  match l with
  | [] => 0
  | b :: l' => b + 256 * le_value l'
  end.

Lemma le_length n z : length (le n z) = n.
Proof. revert z. induction n as [|n IH]; intros z; simpl; auto. Qed.

Lemma le_bytes_ok n z : bytes_ok (le n z).
Proof.
  revert z. induction n as [|n IH]; intros z; simpl; constructor; [|apply IH].
  unfold is_u8. apply Z.mod_pos_bound. lia.
Qed.

Lemma le_value_le n z : le_value (le n z) = z mod 256 ^ Z.of_nat n.
Proof.
  revert z. induction n as [|n IH]; intros z; [simpl; by rewrite Z.mod_1_r|].
  cbn [le le_value]. rewrite IH. rewrite Nat2Z.inj_succ, Z.pow_succ_r by lia.
  rewrite Z.rem_mul_r by (try apply Z.pow_nonzero; lia). lia.
Qed.

Lemma le_value_range l : bytes_ok l -> 0 <= le_value l < 256 ^ Z.of_nat (length l).
Proof.
  induction 1 as [|b l Hb Hl IH]; [simpl; lia|]. cbn [le_value length].
  rewrite Nat2Z.inj_succ, Z.pow_succ_r by lia. unfold is_u8 in Hb. lia.
Qed.

Lemma le_value_inj l l' :
  bytes_ok l -> bytes_ok l' -> length l = length l' -> le_value l = le_value l' -> l = l'.
Proof.
  intros H. revert l'. induction H as [|b l Hb Hl IH]; intros l' Hl' Hlen E.
  { by destruct l'. }
  destruct l' as [|b' l']; [done|]. apply Forall_cons in Hl' as [Hb' Hl']. simpl in *.
  unfold is_u8 in *. assert (b = b') as -> by lia. f_equal. apply IH; auto; lia.
Qed.

(** ** CRC-32C *)

(** One bit of the reflected polynomial division. *)
Definition crc_poly : Z := 0x82F63B78.
Definition crc_bit (c : Z) : Z :=
  if Z.odd c then Z.lxor (Z.shiftr c 1) crc_poly else Z.shiftr c 1.

(** An entry of the table [crc32.MakeTable] builds. *)
Definition crc_bits8 (c : Z) : Z :=
  crc_bit (crc_bit (crc_bit (crc_bit (crc_bit (crc_bit (crc_bit (crc_bit c))))))).

Definition crc_byte (c b : Z) : Z :=
  Z.lxor (crc_bits8 (Z.land (Z.lxor c b) 255)) (Z.shiftr c 8).

Definition crc_all (c : Z) (l : list Z) : Z := fold_left crc_byte l c.

(** [crc32.Checksum(data, crcTable)]. *)
Definition crc32c (l : list Z) : Z := Z.lxor (crc_all 0xFFFFFFFF l) 0xFFFFFFFF.

Lemma crc_check_value : crc32c (bytes_of_string "123456789") = 0xE3069283.
Proof. vm_compute. reflexivity. Qed.

(** *** A change of one byte always changes the checksum *)

Lemma lxor_u32 x y : is_u32 x -> is_u32 y -> is_u32 (Z.lxor x y).
Proof.
  unfold is_u32. intros Hx Hy. assert (0 <= Z.lxor x y) by (apply Z.lxor_nonneg; lia).
  split; [done|]. destruct (decide (Z.lxor x y = 0)) as [->|Hne]; [lia|].
  change 4294967296 with (2 ^ 32) in *. apply Z.log2_lt_pow2; [lia|].
  pose proof (Z.log2_lxor x y ltac:(lia) ltac:(lia)) as HL.
  assert (forall z, 0 <= z < 2 ^ 32 -> Z.log2 z < 32) as Hlog.
  { intros z Hz. destruct (decide (z = 0)) as [->|]; [done|]. apply Z.log2_lt_pow2; lia. }
  pose proof (Hlog x). pose proof (Hlog y). lia.
Qed.

Lemma shiftr_u32 x n : 0 <= n -> is_u32 x -> is_u32 (Z.shiftr x n).
Proof.
  unfold is_u32. intros Hn Hx. rewrite Z.shiftr_div_pow2 by done.
  pose proof (Z.pow_pos_nonneg 2 n ltac:(lia) Hn). split; [apply Z.div_pos; lia|].
  apply Z.le_lt_trans with x; [|lia]. apply Z.div_le_upper_bound; nia.
Qed.

Lemma crc_bit_range c : is_u32 c -> is_u32 (crc_bit c).
Proof.
  intros Hc. unfold crc_bit. destruct (Z.odd c); [apply lxor_u32; [|by vm_compute]|]; by apply shiftr_u32.
Qed.

(** The table entries are distinguished by their top byte. *)
Lemma crc_table_top :
  NoDup (map (fun i => Z.shiftr (crc_bits8 (Z.of_nat i)) 24) (seq 0 256)).
Proof.
  assert (forall l : list Z, bool_decide (NoDup l) = true -> NoDup l) as H
    by (intros l; apply bool_decide_eq_true_1).
  apply H. vm_compute. reflexivity.
Qed.

Lemma crc_bits8_top i j :
  is_u8 i -> is_u8 j ->
  Z.shiftr (crc_bits8 i) 24 = Z.shiftr (crc_bits8 j) 24 -> i = j.
Proof.
  unfold is_u8. intros Hi Hj E.
  assert (Z.to_nat i = Z.to_nat j); [|lia].
  apply (NoDup_lookup _ (Z.to_nat i) (Z.to_nat j) (Z.shiftr (crc_bits8 i) 24) crc_table_top).
  - rewrite list_lookup_fmap, lookup_seq_lt by lia. simpl. by rewrite Z2Nat.id by lia.
  - rewrite list_lookup_fmap, lookup_seq_lt by lia. simpl. rewrite Z2Nat.id by lia. by rewrite E.
Qed.

Lemma low_byte_ok x : 0 <= x -> is_u8 (Z.land x 255).
Proof.
  intros H. change 255 with (Z.ones 8). rewrite Z.land_ones by lia. unfold is_u8.
  pose proof (Z.mod_pos_bound x (2 ^ 8)). lia.
Qed.

Lemma shiftr_byte_zero b : is_u8 b -> Z.shiftr b 8 = 0.
Proof. unfold is_u8. intros H. rewrite Z.shiftr_div_pow2 by lia. apply Z.div_small. lia. Qed.

Lemma shiftr_8_24 c : is_u32 c -> Z.shiftr (Z.shiftr c 8) 24 = 0.
Proof.
  unfold is_u32. intros H. rewrite Z.shiftr_shiftr by lia. rewrite Z.shiftr_div_pow2 by lia.
  apply Z.div_small. lia.
Qed.

(** The state splits into its low byte and the rest. *)
Lemma split_low_byte c : c = Z.lor (Z.shiftl (Z.shiftr c 8) 8) (Z.land c 255).
Proof.
  apply Z.bits_inj'. intros n Hn. change 255 with (Z.ones 8).
  rewrite Z.lor_spec, Z.land_spec. destruct (decide (n < 8)).
  - rewrite Z.shiftl_spec_low, Z.ones_spec_low by lia. simpl. by rewrite andb_true_r.
  - rewrite Z.shiftl_spec, Z.shiftr_spec, Z.ones_spec_high by lia. rewrite andb_false_r, orb_false_r.
    f_equal. lia.
Qed.

Lemma low_byte_xor x y : Z.land (Z.lxor x y) 255 = Z.lxor (Z.land x 255) (Z.land y 255).
Proof.
  apply Z.bits_inj'. intros n Hn. rewrite !Z.land_spec, !Z.lxor_spec, !Z.land_spec.
  by destruct (Z.testbit x n), (Z.testbit y n), (Z.testbit 255 n).
Qed.

Lemma lxor_cancel_r x y z : Z.lxor x z = Z.lxor y z -> x = y.
Proof.
  assert (forall u, Z.lxor (Z.lxor u z) z = u) as H.
  { intros u. by rewrite Z.lxor_assoc, Z.lxor_nilpotent, Z.lxor_0_r. }
  intros E. by rewrite <-(H x), E, H.
Qed.

Lemma lxor_cancel_l x y z : Z.lxor z x = Z.lxor z y -> x = y.
Proof. rewrite !(Z.lxor_comm z). apply lxor_cancel_r. Qed.

Lemma crc_bits8_range c : is_u32 c -> is_u32 (crc_bits8 c).
Proof. intros. unfold crc_bits8. by repeat apply crc_bit_range. Qed.

Lemma low_byte_id b : is_u8 b -> Z.land b 255 = b.
Proof.
  unfold is_u8. intros H. change 255 with (Z.ones 8). rewrite Z.land_ones by lia.
  apply Z.mod_small. lia.
Qed.

Lemma crc_byte_inj_byte c b b' :
  is_u32 c -> is_u8 b -> is_u8 b' -> crc_byte c b = crc_byte c b' -> b = b'.
Proof.
  intros Hc Hb Hb' E. unfold crc_byte in E. apply lxor_cancel_r in E.
  assert (0 <= Z.lxor c b) as H1 by (apply Z.lxor_nonneg; unfold is_u32, is_u8 in *; lia).
  assert (0 <= Z.lxor c b') as H2 by (apply Z.lxor_nonneg; unfold is_u32, is_u8 in *; lia).
  apply (f_equal (fun x => Z.shiftr x 24)), crc_bits8_top in E; [|by apply low_byte_ok..].
  rewrite !low_byte_xor in E. apply lxor_cancel_l in E. by rewrite !low_byte_id in E.
Qed.

Lemma crc_byte_inj_state c c' b :
  is_u32 c -> is_u32 c' -> is_u8 b -> crc_byte c b = crc_byte c' b -> c = c'.
Proof.
  intros Hc Hc' Hb E. unfold crc_byte in E.
  assert (0 <= Z.lxor c b) as H1 by (apply Z.lxor_nonneg; unfold is_u32, is_u8 in *; lia).
  assert (0 <= Z.lxor c' b) as H2 by (apply Z.lxor_nonneg; unfold is_u32, is_u8 in *; lia).
  pose proof (f_equal (fun x => Z.shiftr x 24) E) as Et. simpl in Et.
  rewrite !Z.shiftr_lxor, !shiftr_8_24, !Z.lxor_0_r in Et by done.
  apply crc_bits8_top in Et; [|by apply low_byte_ok..]. rewrite Et in E. apply lxor_cancel_l in E.
  rewrite !low_byte_xor in Et. apply lxor_cancel_r in Et.
  by rewrite (split_low_byte c), (split_low_byte c'), E, Et.
Qed.

Lemma crc_byte_range c b : is_u32 c -> is_u8 b -> is_u32 (crc_byte c b).
Proof.
  intros Hc Hb. unfold crc_byte. apply lxor_u32; [|by apply shiftr_u32]. apply crc_bits8_range.
  assert (is_u8 (Z.land (Z.lxor c b) 255)); [|unfold is_u32, is_u8 in *; lia].
  apply low_byte_ok, Z.lxor_nonneg. unfold is_u32, is_u8 in *. lia.
Qed.

Lemma crc_all_range c l : is_u32 c -> bytes_ok l -> is_u32 (crc_all c l).
Proof.
  intros Hc Hl. revert c Hc. induction Hl as [|b l Hb Hl IH]; intros c Hc; simpl; [done|].
  apply IH. by apply crc_byte_range.
Qed.

Lemma crc_all_inj c c' l :
  is_u32 c -> is_u32 c' -> bytes_ok l -> crc_all c l = crc_all c' l -> c = c'.
Proof.
  intros Hc Hc' Hl. revert c c' Hc Hc'. induction Hl as [|b l Hb Hl IH]; intros c c' Hc Hc' E; [done|].
  simpl in E. apply IH in E; [|by apply crc_byte_range..]. by eapply crc_byte_inj_state.
Qed.

(** Two messages that differ in exactly one byte have different checksums. *)
Lemma crc32c_one_byte l1 b b' l2 :
  bytes_ok l1 -> is_u8 b -> is_u8 b' -> bytes_ok l2 ->
  crc32c (l1 ++ b :: l2) = crc32c (l1 ++ b' :: l2) -> b = b'.
Proof.
  intros H1 Hb Hb' H2 E. unfold crc32c in E. apply lxor_cancel_r in E.
  unfold crc_all in E. rewrite !fold_left_app in E. simpl in E.
  assert (is_u32 (crc_all 0xFFFFFFFF l1)) as Hs by (by apply crc_all_range).
  apply crc_all_inj in E; [|by apply crc_byte_range..|done]. by eapply crc_byte_inj_byte.
Qed.

Lemma crc32c_range l : bytes_ok l -> is_u32 (crc32c l).
Proof. intros Hl. apply lxor_u32; [by apply crc_all_range|by vm_compute]. Qed.
