(* ===== verification/Codec.v ===== *)
(** * Codec: the binary format of the write-ahead log (internal/journal/codec.go)

    Encoding writes into a byte buffer at a moving offset and decoding reads from
    one; every slice expression and index is checked, and a failed check is a
    panic.  The model checks against the length of a slice where Go checks against
    its capacity, which only makes the absence of panics a stronger statement. *)

From S2P Require Import Prelude Model Bytes.

Definition segmentMagic : Z := 0x53474C57.
Definition recordMagic : Z := 0x52434C57.
Definition schemaVersion : Z := 1.
Definition recordTypeExec : Z := 1.

Record Record_ := mkRecord {
  rec_ShardID : Z;
  rec_CommandSeq : Z;
  rec_Command : Command;
  rec_Result : Result
}.

Record SegmentHeader := mkSegmentHeader {
  sh_EngineID : string;
  sh_ShardID : Z;
  sh_ShardCount : Z
}.

(** ** Segment headers *)

Definition EncodeSegmentHeader (h : SegmentHeader) : error + list Z :=
  if Z.of_nat (string_len (sh_EngineID h)) >? 0xffff then inl (Errorf "engine id too long" [])
  else inr (le 4 segmentMagic ++ le 2 schemaVersion ++ le 2 (sh_ShardCount h)
            ++ le 2 (sh_ShardID h) ++ le 2 (wrap_u16 (Z.of_nat (string_len (sh_EngineID h))))
            ++ bytes_of_string (sh_EngineID h)).

(** [io.ReadFull] on a [bytes.Reader] that still holds [r]: no byte read is EOF, some
    but not all is an unexpected EOF. *)
Definition readFull (r : list Z) (n : nat) : error + (list Z * list Z) :=
  if (n =? 0)%nat then inr ([], r)
  else if (length r =? 0)%nat then inl ErrEOF
  else if (length r <? n)%nat then inl ErrUnexpectedEOF
  else inr (take n r, drop n r).

Definition DecodeSegmentHeader (data : list Z) : error + (SegmentHeader * nat) :=
  match readFull data 4 with
  | inl err => inl err
  | inr (magic, r) =>
  if negb (le_value magic =? segmentMagic) then inl (Errorf "invalid segment magic" [])
  else match readFull r 2 with
  | inl err => inl err
  | inr (version, r) =>
  if negb (le_value version =? schemaVersion)
  then inl (Errorf "unsupported schema version: %d" [ANum (le_value version)])
  else match readFull r 2 with
  | inl err => inl err
  | inr (shardCount, r) =>
  match readFull r 2 with
  | inl err => inl err
  | inr (shardID, r) =>
  match readFull r 2 with
  | inl err => inl err
  | inr (engineIDLen, r) =>
  match readFull r (Z.to_nat (le_value engineIDLen)) with
  | inl err => inl err
  | inr (engineID, r) =>
      let consumed := (length data - length r)%nat in
      inr (mkSegmentHeader (string_of_bytes engineID) (le_value shardID) (le_value shardCount),
           consumed)
  end end end end end end.

(** ** Encoding records *)

Definition payloadFixedSize : Z := 58.
Definition eventEncodedSize : Z := 69.

Definition payloadSize (rec : Record_) : error + Z :=
  if Z.of_nat (string_len (cmd_Symbol (rec_Command rec))) >? 0xffff
  then inl (Errorf "symbol too long" [])
  else
    let payloadLen :=
      u64_add (u64_add payloadFixedSize (Z.of_nat (string_len (cmd_Symbol (rec_Command rec)))))
        (wrap_u64 (Z.of_nat (length (res_Events (rec_Result rec))) * eventEncodedSize)) in
    if payloadLen >? 4294967295 then inl (Errorf "record payload too large" [])
    else inr payloadLen.

(** [buf[off:off+len(bs)] = bs]. *)
Definition write_at (buf : list Z) (off : nat) (bs : list Z) : list Z :=
  take off buf ++ bs ++ drop (off + length bs) buf.

(** The closures of [encodePayload] share a buffer and an offset. *)
Abbreviation Enc := (GoM (list Z * nat)).

Definition put_bytes (bs : list Z) : Enc unit :=
  fun st => let '(buf, offset) := st in
    if (offset + length bs <=? length buf)%nat
    then Ret (tt, (write_at buf offset bs, (offset + length bs)%nat))
    else Panic.

Definition putUint8 (value : Z) : Enc unit := put_bytes (le 1 value).
Definition putUint16 (value : Z) : Enc unit := put_bytes (le 2 value).
Definition putUint32 (value : Z) : Enc unit := put_bytes (le 4 value).
Definition putUint64 (value : Z) : Enc unit := put_bytes (le 8 value).

(** [offset += copy(buf[offset:], s)]. *)
Definition put_copy (s : string) : Enc unit :=
  fun st => let '(buf, offset) := st in
    if (offset <=? length buf)%nat then
      let n := Nat.min (length buf - offset) (string_len s) in
      Ret (tt, (write_at buf offset (take n (bytes_of_string s)), (offset + n)%nat))
    else Panic.

Definition encodeEvent (event : Event) : Enc unit :=
  do! putUint8 (ev_Type event) in
  do! putUint16 (ev_Reason event) in
  do! putUint64 (ev_OrderID event) in
  do! putUint64 (ev_MakerOrderID event) in
  do! putUint64 (ev_TakerOrderID event) in
  do! putUint64 (ev_TradeID event) in
  do! putUint64 (wrap_u64 (ev_Price event)) in
  do! putUint64 (wrap_u64 (ev_Quantity event)) in
  do! putUint64 (wrap_u64 (ev_LeavesQty event)) in
  do! putUint64 (wrap_u64 (ev_CanceledQty event)) in
  do! putUint8 (ev_CancelReason event) in
  if ev_PriorityRetained event then putUint8 1 else putUint8 0.

Fixpoint encodeEvents (events : list Event) : Enc unit :=
  match events with
  | [] => ret tt
  | event :: events' => do! encodeEvent event in encodeEvents events'
  end.

Definition encodePayload (rec : Record_) : Enc unit :=
  let cmd := rec_Command rec in
  do! putUint16 (wrap_u16 (Z.of_nat (string_len (cmd_Symbol cmd)))) in
  do! put_copy (cmd_Symbol cmd) in
  do! putUint8 (cmd_Type cmd) in
  do! putUint64 (cmd_OrderID cmd) in
  do! putUint8 (cmd_Side cmd) in
  do! putUint8 (cmd_OrderType cmd) in
  do! putUint8 (cmd_TimeInForce cmd) in
  do! putUint64 (wrap_u64 (cmd_Price cmd)) in
  do! putUint64 (wrap_u64 (cmd_Quantity cmd)) in
  do! putUint64 (wrap_u64 (cmd_NewPrice cmd)) in
  do! putUint64 (wrap_u64 (cmd_NewLeavesQty cmd)) in
  do! putUint64 (res_CommandSeq (rec_Result rec)) in
  do! putUint32 (wrap_u32 (Z.of_nat (length (res_Events (rec_Result rec))))) in
  encodeEvents (res_Events (rec_Result rec)).

(** A byte slice: its elements, and what its array holds beyond them up to the
    capacity. *)
Record slice := mkSlice {
  sl_bytes : list Z;
  sl_spare : list Z
}.

(** Writes into [buf], the part of the array that belongs to the frame. *)
Definition put_at (off : nat) (bs : list Z) : GoM (list Z) unit :=
  fun buf => if (off + length bs <=? length buf)%nat then Ret (tt, write_at buf off bs) else Panic.

(** [encodePayload(buf[lo:hi], rec)]. *)
Definition encode_into (lo hi : nat) (rec : Record_) : GoM (list Z) unit :=
  fun buf =>
    if ((lo <=? hi) && (hi <=? length buf))%nat then
      match encodePayload rec (take (hi - lo) (drop lo buf), 0%nat) with
      | Ret (_, (sub, _)) => Ret (tt, write_at buf lo sub)
      | Panic => Panic
      | OutOfFuel => OutOfFuel
      end
    else Panic.

Definition headerLen : nat := 24.

Definition encode_frame (payloadLen : nat) (rec : Record_) : GoM (list Z) unit :=
  let frameLen := (headerLen + payloadLen + 4)%nat in
  do! put_at 0 (le 4 recordMagic) in
  do! put_at 4 (le 2 schemaVersion) in
  do! put_at 6 [recordTypeExec] in
  do! put_at 7 [0] in
  do! put_at 8 (le 4 (wrap_u32 (Z.of_nat payloadLen))) in
  do! put_at 12 (le 2 (rec_ShardID rec)) in
  do! put_at 14 (le 2 0) in
  do! put_at 16 (le 8 (rec_CommandSeq rec)) in
  do! encode_into headerLen (headerLen + payloadLen) rec in
  let! buf := get in
  put_at (frameLen - 4) (le 4 (crc32c (take (frameLen - 4) buf))).

(** [dst] grows in place when its capacity allows it, and is copied to a larger
    array otherwise; what that array holds beyond the new length is [grown]. *)
Definition appendEncodedRecord (grown : list Z) (dst : slice) (rec : Record_)
  : outcome (slice * option error) :=
  match payloadSize rec with
  | inl err => Ret (dst, Some err)
  | inr payloadLen =>
      let frameLen := (headerLen + Z.to_nat payloadLen + 4)%nat in
      let '(buf, spare) :=
        if (frameLen <=? length (sl_spare dst))%nat
        then (take frameLen (sl_spare dst), drop frameLen (sl_spare dst))
        else (replicate frameLen 0, grown) in
      match encode_frame (Z.to_nat payloadLen) rec buf with
      | Ret (_, buf') => Ret (mkSlice (sl_bytes dst ++ buf') spare, None)
      | Panic => Panic
      | OutOfFuel => OutOfFuel
      end
  end.

Definition EncodeRecord (grown : list Z) (rec : Record_) : outcome (slice * option error) :=
  appendEncodedRecord grown (mkSlice [] []) rec.

(** ** Decoding records *)

(** [data[lo:hi]]. *)
Definition subslice (data : list Z) (lo hi : nat) : outcome (list Z) :=
  if ((lo <=? hi) && (hi <=? length data))%nat then Ret (take (hi - lo) (drop lo data)) else Panic.

(** [binary.LittleEndian.UintN(data[lo:hi])]. *)
Definition uint_at (data : list Z) (lo hi : nat) : outcome Z :=
  let? bs := subslice data lo hi in Ret (le_value bs).

(** The closures of [decodePayload] share the payload and an offset. *)
Abbreviation Dec := (GoM nat).

Definition readUint (payload : list Z) (n : nat) : Dec Z :=
  fun offset =>
    match uint_at payload offset (offset + n) with
    | Ret value => Ret (value, (offset + n)%nat)
    | Panic => Panic
    | OutOfFuel => OutOfFuel
    end.
Definition readUint8 (payload : list Z) : Dec Z := readUint payload 1.
Definition readUint16 (payload : list Z) : Dec Z := readUint payload 2.
Definition readUint32 (payload : list Z) : Dec Z := readUint payload 4.
Definition readUint64 (payload : list Z) : Dec Z := readUint payload 8.
Definition readInt64 (payload : list Z) : Dec Z :=
  let! v := readUint64 payload in ret (wrap_i64 v).
Definition readString (payload : list Z) (n : nat) : Dec string :=
  fun offset =>
    match subslice payload offset (offset + n) with
    | Ret bs => Ret (string_of_bytes bs, (offset + n)%nat)
    | Panic => Panic
    | OutOfFuel => OutOfFuel
    end.

Definition decodeEvent (payload : list Z) : Dec Event :=
  let! type := readUint8 payload in
  let! reason := readUint16 payload in
  let! orderID := readUint64 payload in
  let! makerOrderID := readUint64 payload in
  let! takerOrderID := readUint64 payload in
  let! tradeID := readUint64 payload in
  let! price := readInt64 payload in
  let! quantity := readInt64 payload in
  let! leavesQty := readInt64 payload in
  let! canceledQty := readInt64 payload in
  let! cancelReason := readUint8 payload in
  let! retained := readUint8 payload in
  ret (mkEvent type reason orderID makerOrderID takerOrderID tradeID price quantity
         leavesQty canceledQty cancelReason (retained =? 1)).

Fixpoint decodeEvents (payload : list Z) (n : nat) : Dec (list Event) :=
  match n with
  | O => ret []
  | S n' =>
      let! event := decodeEvent payload in
      let! events := decodeEvents payload n' in
      ret (event :: events)
  end.

Definition decodeBody (payload : list Z) (symbolLen : nat) (rec : Record_) : Dec (error + Record_) :=
  let! symbol := readString payload symbolLen in
  let! type := readUint8 payload in
  let! orderID := readUint64 payload in
  let! side := readUint8 payload in
  let! orderType := readUint8 payload in
  let! timeInForce := readUint8 payload in
  let! price := readInt64 payload in
  let! quantity := readInt64 payload in
  let! newPrice := readInt64 payload in
  let! newLeavesQty := readInt64 payload in
  let! commandSeq := readUint64 payload in
  let! eventCount := readUint32 payload in
  let! offset := get in
  let eventsSize := wrap_u64 (eventCount * eventEncodedSize) in
  let remaining := Z.of_nat (length payload - offset) in
  if eventsSize >? remaining then ret (inl ErrUnexpectedEOF)
  else if eventsSize <? remaining
  then ret (inl (Errorf "unexpected payload tail: %d" [ANum (remaining - eventsSize)]))
  else
    let! events := decodeEvents payload (Z.to_nat eventCount) in
    ret (inr (mkRecord (rec_ShardID rec) (rec_CommandSeq rec)
                (mkCommand (rec_CommandSeq rec) symbol type orderID side orderType timeInForce
                   price quantity newPrice newLeavesQty)
                (mkResult commandSeq events))).

Definition decodePayload (payload : list Z) (rec : Record_) : fallible Record_ :=
  if (length payload <? 2)%nat then Ret (inl ErrUnexpectedEOF)
  else
    let? symbolLen := uint_at payload 0 2 in
    if Z.of_nat (length payload) <? payloadFixedSize + symbolLen then Ret (inl ErrUnexpectedEOF)
    else match decodeBody payload (Z.to_nat symbolLen) rec 2%nat with
         | Ret (r, _) => Ret r
         | Panic => Panic
         | OutOfFuel => OutOfFuel
         end.

Definition zero_command : Command := mkCommand 0 "" 0 0 0 0 0 0 0 0 0.

Definition DecodeRecord (data : list Z) : fallible (Record_ * nat) :=
  if (length data <? headerLen)%nat then Ret (inl ErrUnexpectedEOF)
  else
    let? magic := uint_at data 0 4 in
    if negb (magic =? recordMagic) then Ret (inl (Errorf "invalid record magic" []))
    else
      let? version := uint_at data 4 6 in
      if negb (version =? schemaVersion)
      then Ret (inl (Errorf "unsupported schema version: %d" [ANum version]))
      else
        let? recType := uint_at data 6 7 in
        if negb (recType =? recordTypeExec)
        then Ret (inl (Errorf "unsupported record type: %d" [ANum recType]))
        else
          let? payloadLen := uint_at data 8 12 in
          let required64 := u64_add (u64_add (Z.of_nat headerLen) payloadLen) 4 in
          if required64 >? Z.of_nat (length data) then Ret (inl ErrUnexpectedEOF)
          else
            let required := Z.to_nat required64 in
            let? frame := subslice data 0 required in
            let? want := uint_at frame (required - 4) (length frame) in
            let? body := subslice frame 0 (required - 4) in
            if negb (crc32c body =? want) then Ret (inl (Errorf "checksum mismatch" []))
            else
              let? shardID := uint_at data 12 14 in
              let? commandSeq := uint_at data 16 24 in
              let rec := mkRecord shardID commandSeq zero_command (mkResult 0 []) in
              let? payload := subslice frame headerLen (required - 4) in
              let? r := decodePayload payload rec in
              match r with
              | inl err => Ret (inl err)
              | inr rec' => Ret (inr (rec', required))
              end.
