(* ===== verification/CodecFacts.v ===== *)
(** * CodecFacts: what the encoder writes and what the decoder reads

    [emits m bs] says that the encoding step [m] appends exactly the bytes [bs];
    [reads m bs a] that the decoding step [m] turns exactly these bytes into [a];
    [consumes m n P] that [m] reads [n] bytes of any payload without a panic.  The
    encoder and the decoder are sequences of such steps. *)

From S2P Require Import Prelude Model Bytes Codec.

#[global] Arguments le : simpl never.

(** ** Well-typed records *)

Record event_typed (e : Event) : Prop := {
  et_Type : is_u8 (ev_Type e);
  et_Reason : is_u16 (ev_Reason e);
  et_OrderID : is_u64 (ev_OrderID e);
  et_Maker : is_u64 (ev_MakerOrderID e);
  et_Taker : is_u64 (ev_TakerOrderID e);
  et_TradeID : is_u64 (ev_TradeID e);
  et_Price : is_i64 (ev_Price e);
  et_Quantity : is_i64 (ev_Quantity e);
  et_Leaves : is_i64 (ev_LeavesQty e);
  et_Canceled : is_i64 (ev_CanceledQty e);
  et_CancelReason : is_u8 (ev_CancelReason e)
}.

Record record_typed (r : Record_) : Prop := {
  rt_ShardID : is_u16 (rec_ShardID r);
  rt_Seq : is_u64 (rec_CommandSeq r);
  rt_Command : command_typed (rec_Command r);
  rt_CommandSeq : cmd_Seq (rec_Command r) = rec_CommandSeq r;
  rt_ResultSeq : is_u64 (res_CommandSeq (rec_Result r));
  rt_Events : Forall event_typed (res_Events (rec_Result r))
}.

(** The payload fits the 32-bit length field and the symbol its 16-bit one. *)
Definition record_size (r : Record_) : Z :=
  payloadFixedSize + Z.of_nat (string_len (cmd_Symbol (rec_Command r)))
  + Z.of_nat (length (res_Events (rec_Result r))) * eventEncodedSize.
Definition record_fits (r : Record_) : Prop :=
  Z.of_nat (string_len (cmd_Symbol (rec_Command r))) <= 65535 /\ record_size r <= 4294967295.

(** ** The bytes of a record *)

Definition event_bytes (e : Event) : list Z :=
  le 1 (ev_Type e) ++ le 2 (ev_Reason e) ++ le 8 (ev_OrderID e) ++ le 8 (ev_MakerOrderID e)
  ++ le 8 (ev_TakerOrderID e) ++ le 8 (ev_TradeID e) ++ le 8 (wrap_u64 (ev_Price e))
  ++ le 8 (wrap_u64 (ev_Quantity e)) ++ le 8 (wrap_u64 (ev_LeavesQty e))
  ++ le 8 (wrap_u64 (ev_CanceledQty e)) ++ le 1 (ev_CancelReason e)
  ++ le 1 (if ev_PriorityRetained e then 1 else 0).

Definition events_bytes (es : list Event) : list Z := concat (map event_bytes es).

Definition payload_body (r : Record_) : list Z :=
  let c := rec_Command r in
  bytes_of_string (cmd_Symbol c)
  ++ le 1 (cmd_Type c) ++ le 8 (cmd_OrderID c) ++ le 1 (cmd_Side c) ++ le 1 (cmd_OrderType c)
  ++ le 1 (cmd_TimeInForce c) ++ le 8 (wrap_u64 (cmd_Price c)) ++ le 8 (wrap_u64 (cmd_Quantity c))
  ++ le 8 (wrap_u64 (cmd_NewPrice c)) ++ le 8 (wrap_u64 (cmd_NewLeavesQty c))
  ++ le 8 (res_CommandSeq (rec_Result r))
  ++ le 4 (wrap_u32 (Z.of_nat (length (res_Events (rec_Result r)))))
  ++ events_bytes (res_Events (rec_Result r)).

Definition payload_bytes (r : Record_) : list Z :=
  le 2 (wrap_u16 (Z.of_nat (string_len (cmd_Symbol (rec_Command r))))) ++ payload_body r.

Definition header_bytes (payloadLen : Z) (r : Record_) : list Z :=
  le 4 recordMagic ++ le 2 schemaVersion ++ [recordTypeExec] ++ [0]
  ++ le 4 (wrap_u32 payloadLen) ++ le 2 (rec_ShardID r) ++ le 2 0 ++ le 8 (rec_CommandSeq r).

Definition body_bytes (r : Record_) : list Z := header_bytes (record_size r) r ++ payload_bytes r.

Definition frame_bytes (r : Record_) : list Z := body_bytes r ++ le 4 (crc32c (body_bytes r)).

Lemma event_bytes_length e : length (event_bytes e) = 69%nat.
Proof. unfold event_bytes. rewrite !length_app, !le_length. done. Qed.

Lemma events_bytes_length es : length (events_bytes es) = (69 * length es)%nat.
Proof.
  unfold events_bytes. induction es as [|e es IH]; [done|]. cbn [map concat length].
  rewrite length_app, IH, event_bytes_length. lia.
Qed.

Lemma payload_bytes_length r : Z.of_nat (length (payload_bytes r)) = record_size r.
Proof.
  unfold payload_bytes, payload_body, record_size, payloadFixedSize, eventEncodedSize.
  rewrite !length_app, !le_length, events_bytes_length. unfold string_len. lia.
Qed.

Lemma header_bytes_length n r : length (header_bytes n r) = 24%nat.
Proof. unfold header_bytes. rewrite !length_app, !le_length. done. Qed.

Lemma frame_bytes_length r : Z.of_nat (length (frame_bytes r)) = record_size r + 28.
Proof.
  unfold frame_bytes, body_bytes. rewrite !length_app, header_bytes_length, le_length.
  pose proof (payload_bytes_length r). lia.
Qed.

Lemma bytes_ok_app l l' : bytes_ok l -> bytes_ok l' -> bytes_ok (l ++ l').
Proof. intros. by apply Forall_app. Qed.

Lemma bytes_ok_concat ls : Forall bytes_ok ls -> bytes_ok (concat ls).
Proof. induction 1; simpl; [constructor|by apply bytes_ok_app]. Qed.

Create HintDb bytes.
#[export] Hint Resolve le_bytes_ok bytes_of_string_ok bytes_ok_app : bytes.

Lemma events_bytes_ok es : bytes_ok (events_bytes es).
Proof.
  unfold events_bytes. apply bytes_ok_concat, Forall_map, Forall_true. intros e.
  unfold compose, event_bytes. auto 20 with bytes.
Qed.
#[export] Hint Resolve events_bytes_ok : bytes.

Lemma body_bytes_ok r : bytes_ok (body_bytes r).
Proof.
  assert (bytes_ok [recordTypeExec] /\ bytes_ok [0]) as [H1 H2]
    by (split; repeat constructor; by vm_compute).
  unfold body_bytes, header_bytes, payload_bytes, payload_body. auto 30 with bytes.
Qed.

(** ** Encoding *)

Definition emits (m : Enc unit) (bs : list Z) : Prop :=
  forall d r, (length bs <= length r)%nat ->
    m (d ++ r, length d) = Ret (tt, (d ++ bs ++ drop (length bs) r, (length d + length bs)%nat)).

Lemma write_at_app d r bs :
  (length bs <= length r)%nat -> write_at (d ++ r) (length d) bs = d ++ bs ++ drop (length bs) r.
Proof.
  intros H. unfold write_at. rewrite take_app_length.
  rewrite drop_app_add'; done.
Qed.

Lemma emits_put bs : emits (put_bytes bs) bs.
Proof.
  intros d r H. unfold put_bytes. rewrite (proj2 (Nat.leb_le _ _)) by (rewrite length_app; lia).
  by rewrite write_at_app.
Qed.

Lemma emits_copy s : emits (put_copy s) (bytes_of_string s).
Proof.
  intros d r H. unfold put_copy. rewrite (proj2 (Nat.leb_le _ _)) by (rewrite length_app; lia).
  fold (string_len s) in *. rewrite length_app, Nat.min_r by lia.
  rewrite take_ge by (unfold string_len; lia). by rewrite write_at_app.
Qed.

Lemma emits_bind m k bs bs' :
  emits m bs -> emits k bs' -> emits (bind m (fun _ => k)) (bs ++ bs').
Proof.
  intros Hm Hk d r H. rewrite length_app in H.
  erewrite bind_Ret by (apply Hm; lia).
  assert ((length d + length bs)%nat = length (d ++ bs)) as -> by (by rewrite length_app).
  rewrite app_assoc. rewrite Hk by (rewrite length_drop; lia).
  rewrite drop_drop, <-!app_assoc, !length_app. do 3 f_equal. lia.
Qed.

Lemma emits_ret : emits (ret tt) [].
Proof. intros d r _. unfold ret. simpl. by rewrite drop_0, Nat.add_0_r. Qed.

Ltac emit_all := repeat (first [apply emits_bind; [first [apply emits_put|apply emits_copy]|]]).

Lemma emits_event e : emits (encodeEvent e) (event_bytes e).
Proof.
  unfold encodeEvent, event_bytes, putUint8, putUint16, putUint64. emit_all.
  destruct (ev_PriorityRetained e); apply emits_put.
Qed.

Lemma emits_events es : emits (encodeEvents es) (events_bytes es).
Proof.
  induction es as [|e es IH]; [apply emits_ret|]. apply emits_bind; [apply emits_event|apply IH].
Qed.

Lemma emits_payload r : emits (encodePayload r) (payload_bytes r).
Proof.
  unfold encodePayload, payload_bytes, payload_body, putUint8, putUint16, putUint32, putUint64.
  emit_all. apply emits_events.
Qed.

(** The same for the fixed offsets of the frame: [put_at] at the end of what was
    written so far. *)
Definition fills (m : GoM (list Z) unit) (d bs : list Z) : Prop :=
  forall r, (length bs <= length r)%nat -> m (d ++ r) = Ret (tt, d ++ bs ++ drop (length bs) r).

Lemma fills_put_at d bs off : off = length d -> fills (put_at off bs) d bs.
Proof.
  intros -> r H. unfold put_at. rewrite (proj2 (Nat.leb_le _ _)) by (rewrite length_app; lia).
  by rewrite write_at_app.
Qed.

Lemma fills_bind m k d bs bs' :
  fills m d bs -> fills k (d ++ bs) bs' -> fills (bind m (fun _ => k)) d (bs ++ bs').
Proof.
  intros Hm Hk r H. rewrite length_app in H. erewrite bind_Ret by (apply Hm; lia).
  rewrite app_assoc, Hk by (rewrite length_drop; lia).
  rewrite drop_drop, <-!app_assoc, length_app. do 3 f_equal.
Qed.

Lemma fills_payload d rec lo hi :
  lo = length d -> hi = (lo + length (payload_bytes rec))%nat ->
  fills (encode_into lo hi rec) d (payload_bytes rec).
Proof.
  intros -> -> r H. unfold encode_into.
  rewrite (proj2 (Nat.leb_le (length d) _)) by lia.
  rewrite (proj2 (Nat.leb_le _ (length (d ++ r)))) by (rewrite length_app; lia). cbn [andb].
  rewrite drop_app_length.
  replace (length d + length (payload_bytes rec) - length d)%nat with (length (payload_bytes rec)) by lia.
  pose proof (emits_payload rec [] (take (length (payload_bytes rec)) r)) as HE.
  rewrite !app_nil_l in HE. change (length []) with 0%nat in HE.
  rewrite HE by (rewrite length_take; lia).
  rewrite drop_ge by (rewrite length_take; lia). rewrite app_nil_r. by rewrite write_at_app.
Qed.

(** Everything [encode_frame] writes before the checksum. *)
Definition encode_body (payloadLen : nat) (rec : Record_) : GoM (list Z) unit :=
  do! put_at 0 (le 4 recordMagic) in
  do! put_at 4 (le 2 schemaVersion) in
  do! put_at 6 [recordTypeExec] in
  do! put_at 7 [0] in
  do! put_at 8 (le 4 (wrap_u32 (Z.of_nat payloadLen))) in
  do! put_at 12 (le 2 (rec_ShardID rec)) in
  do! put_at 14 (le 2 0) in
  do! put_at 16 (le 8 (rec_CommandSeq rec)) in
  encode_into headerLen (headerLen + payloadLen) rec.

Lemma encode_frame_split n rec buf :
  encode_frame n rec buf =
  bind (encode_body n rec) (fun _ buf =>
    put_at (headerLen + n + 4 - 4) (le 4 (crc32c (take (headerLen + n + 4 - 4) buf))) buf) buf.
Proof. unfold encode_frame, encode_body, bind, get. by repeat case_match. Qed.

Lemma fills_body r : fills (encode_body (length (payload_bytes r)) r) [] (body_bytes r).
Proof.
  unfold encode_body, body_bytes, header_bytes. rewrite <-(payload_bytes_length r), <-!app_assoc.
  repeat (apply fills_bind; [apply fills_put_at; rewrite ?length_app, ?le_length; reflexivity|]).
  apply fills_payload; [rewrite !length_app, !le_length; reflexivity|done].
Qed.

Lemma encode_frame_ok r buf :
  Z.of_nat (length buf) = record_size r + 28 ->
  encode_frame (Z.to_nat (record_size r)) r buf = Ret (tt, frame_bytes r).
Proof.
  intros Hlen. pose proof (payload_bytes_length r) as Hp.
  replace (Z.to_nat (record_size r)) with (length (payload_bytes r)) by lia.
  rewrite encode_frame_split.
  assert (length (body_bytes r) = (24 + length (payload_bytes r))%nat) as Hb.
  { unfold body_bytes. by rewrite length_app, header_bytes_length. }
  pose proof (fills_body r buf) as HF. rewrite !app_nil_l, Hb in HF.
  rewrite (bind_Ret _ _ _ _ _ (HF ltac:(lia))). clear HF.
  set (tl := drop _ buf). assert (length tl = 4%nat) as Htl by (unfold tl; rewrite length_drop; lia).
  replace (headerLen + length (payload_bytes r) + 4 - 4)%nat with (length (body_bytes r))
    by (rewrite Hb; unfold headerLen; lia).
  rewrite take_app_length, (fills_put_at (body_bytes r) _ _ eq_refl tl) by (rewrite le_length; lia).
  rewrite drop_ge by (rewrite le_length; lia). by rewrite app_nil_r.
Qed.

Lemma payloadSize_ok r : record_fits r -> payloadSize r = inr (record_size r).
Proof.
  intros [H1 H2]. unfold payloadSize. destruct (_ >? _) eqn:E; [lia|]. cbv zeta.
  assert (u64_add (u64_add payloadFixedSize (Z.of_nat (string_len (cmd_Symbol (rec_Command r)))))
    (wrap_u64 (Z.of_nat (length (res_Events (rec_Result r))) * eventEncodedSize)) = record_size r) as ->.
  { unfold record_size, payloadFixedSize, eventEncodedSize in *. int_lia. }
  case_match eqn:E'; [lia|reflexivity].
Qed.

Lemma appendEncodedRecord_ok grown dst r :
  record_fits r -> exists spare,
  appendEncodedRecord grown dst r = Ret (mkSlice (sl_bytes dst ++ frame_bytes r) spare, None).
Proof.
  intros Hf. unfold appendEncodedRecord. rewrite payloadSize_ok by done.
  assert (0 <= record_size r) by (unfold record_size, payloadFixedSize, eventEncodedSize; lia).
  destruct (_ <=? _)%nat eqn:E.
  - apply Nat.leb_le in E. rewrite encode_frame_ok; [by eexists|]. rewrite length_take. unfold headerLen in *. lia.
  - rewrite encode_frame_ok; [by eexists|]. rewrite length_replicate. unfold headerLen. lia.
Qed.

(** ** Decoding what was encoded *)

(** [m], run on any payload that holds [bs] at the offset, returns [a] after [bs]. *)
Definition reads {A} (m : list Z -> Dec A) (bs : list Z) (a : A) : Prop :=
  forall d r, m (d ++ bs ++ r) (length d) = Ret (a, (length d + length bs)%nat).

Lemma subslice_middle d bs r :
  subslice (d ++ bs ++ r) (length d) (length d + length bs) = Ret bs.
Proof.
  unfold subslice. rewrite (proj2 (Nat.leb_le (length d) _)) by lia.
  rewrite (proj2 (Nat.leb_le _ (length (d ++ bs ++ r)))) by (rewrite !length_app; lia). cbn [andb].
  rewrite drop_app_length. replace (length d + length bs - length d)%nat with (length bs) by lia.
  by rewrite take_app_length.
Qed.

Lemma reads_uint n z :
  reads (fun p => readUint p n) (le n z) (z mod 256 ^ Z.of_nat n).
Proof.
  intros d r. unfold readUint, uint_at. pose proof (subslice_middle d (le n z) r) as H.
  rewrite le_length in *. rewrite H. simpl. by rewrite le_value_le.
Qed.

Lemma reads_bind {A B} (m : list Z -> Dec A) (k : A -> list Z -> Dec B) bs bs' a b :
  reads m bs a -> reads (k a) bs' b -> reads (fun p => bind (m p) (fun x => k x p)) (bs ++ bs') b.
Proof.
  intros Hm Hk d r. rewrite <-app_assoc. erewrite bind_Ret by apply Hm.
  specialize (Hk (d ++ bs) r). rewrite <-app_assoc, length_app in Hk. rewrite Hk, length_app.
  do 2 f_equal. lia.
Qed.

Lemma reads_ret {A} (a : A) : reads (fun _ => ret a) [] a.
Proof. intros d r. unfold ret. by rewrite Nat.add_0_r. Qed.

Lemma reads_last {A B} (m : list Z -> Dec A) (k : A -> B) bs a :
  reads m bs a -> reads (fun p => bind (m p) (fun x => ret (k x))) bs (k a).
Proof.
  intros Hm. rewrite <-(app_nil_r bs). eapply (reads_bind m (fun x _ => ret (k x))); [done|].
  apply reads_ret.
Qed.

Lemma reads_u8 z : is_u8 z -> reads readUint8 (le 1 z) z.
Proof.
  intros Hz. pose proof (reads_uint 1 z) as H. change (256 ^ Z.of_nat 1) with 256 in H.
  rewrite Z.mod_small in H by exact Hz. exact H.
Qed.
Lemma reads_u16 z : is_u16 z -> reads readUint16 (le 2 z) z.
Proof.
  intros Hz. pose proof (reads_uint 2 z) as H. change (256 ^ Z.of_nat 2) with 65536 in H.
  rewrite Z.mod_small in H by exact Hz. exact H.
Qed.
Lemma reads_u32 z : is_u32 z -> reads readUint32 (le 4 z) z.
Proof.
  intros Hz. pose proof (reads_uint 4 z) as H. change (256 ^ Z.of_nat 4) with 4294967296 in H.
  rewrite Z.mod_small in H by exact Hz. exact H.
Qed.
Lemma reads_u64 z : is_u64 z -> reads readUint64 (le 8 z) z.
Proof.
  intros Hz. pose proof (reads_uint 8 z) as H. change (256 ^ Z.of_nat 8) with 18446744073709551616 in H.
  rewrite Z.mod_small in H by exact Hz. exact H.
Qed.

(** [int64(uint64(z))] is [z]. *)
Lemma wrap_i64_u64 z : is_i64 z -> wrap_i64 (wrap_u64 z) = z.
Proof. int_lia. Qed.

Lemma reads_i64 z : is_i64 z -> reads readInt64 (le 8 (wrap_u64 z)) z.
Proof.
  intros Hz. rewrite <-(wrap_i64_u64 z Hz) at 2.
  apply (reads_last readUint64 wrap_i64), reads_u64, wrap_u64_range.
Qed.

Lemma reads_string s : reads (fun p => readString p (string_len s)) (bytes_of_string s) s.
Proof.
  intros d r. unfold readString. pose proof (subslice_middle d (bytes_of_string s) r) as H.
  fold (string_len s) in *. rewrite H. by rewrite string_bytes.
Qed.

(** [read_step] matches the next field of the decoder with its bytes. *)
Ltac read_field :=
  first [apply reads_u8 | apply reads_u16 | apply reads_u32 | apply reads_u64 | apply reads_i64
        | apply reads_string]; try done.
Ltac read_step :=
  match goal with
  | |- reads (fun p => bind (@?m p) (@?k p)) (?bs ++ ?bs') ?b =>
      eapply (reads_bind m (fun x p => k p x)); [read_field|cbv beta]
  end.

Lemma reads_event e : event_typed e -> reads decodeEvent (event_bytes e) e.
Proof.
  intros []. unfold decodeEvent, event_bytes. repeat read_step.
  set (fl := if ev_PriorityRetained e then 1 else 0).
  assert (is_u8 fl) as Hfl by (unfold fl; destruct (ev_PriorityRetained e); by vm_compute).
  pose proof (reads_last readUint8 (fun retained => mkEvent (ev_Type e) (ev_Reason e) (ev_OrderID e)
    (ev_MakerOrderID e) (ev_TakerOrderID e) (ev_TradeID e) (ev_Price e) (ev_Quantity e)
    (ev_LeavesQty e) (ev_CanceledQty e) (ev_CancelReason e) (retained =? 1)) _ _ (reads_u8 fl Hfl)) as H.
  assert ((fl =? 1) = ev_PriorityRetained e) as E by (unfold fl; by destruct (ev_PriorityRetained e)).
  simpl in H. rewrite E in H. by destruct e.
Qed.

Lemma reads_events es :
  Forall event_typed es -> reads (fun p => decodeEvents p (length es)) (events_bytes es) es.
Proof.
  induction 1 as [|e es He Hes IH]; [apply reads_ret|]. unfold events_bytes. cbn [length decodeEvents map concat].
  eapply (reads_bind decodeEvent (fun x p => bind (decodeEvents p (length es)) (fun l => ret (x :: l))));
    [by apply reads_event|].
  by apply (reads_last (fun p => decodeEvents p (length es)) (fun l => e :: l)).
Qed.

(** The same at the end of the payload, where the decoder looks at its length. *)
Definition reads_end {A} (m : list Z -> Dec A) (bs : list Z) (a : A) : Prop :=
  forall d, m (d ++ bs) (length d) = Ret (a, (length d + length bs)%nat).

Lemma reads_end_bind {A B} (m : list Z -> Dec A) (k : A -> list Z -> Dec B) bs bs' a b :
  reads m bs a -> reads_end (k a) bs' b ->
  reads_end (fun p => bind (m p) (fun x => k x p)) (bs ++ bs') b.
Proof.
  intros Hm Hk d. erewrite bind_Ret by apply Hm.
  specialize (Hk (d ++ bs)). rewrite <-app_assoc, length_app in Hk. rewrite Hk, length_app.
  do 2 f_equal. lia.
Qed.

Ltac read_step_end :=
  match goal with
  | |- reads_end (fun p => bind (@?m p) (@?k p)) (?bs ++ ?bs') ?b =>
      eapply (reads_end_bind m (fun x p => k p x)); [read_field|cbv beta]
  end.

Lemma reads_body r rec :
  record_typed r -> record_fits r ->
  rec_ShardID rec = rec_ShardID r -> rec_CommandSeq rec = rec_CommandSeq r ->
  reads_end (fun p => decodeBody p (string_len (cmd_Symbol (rec_Command r))) rec)
    (payload_body r) (inr r).
Proof.
  intros [Hsh Hseq [] Hcs Hrs Hev] [_ Hfit] E1 E2.
  unfold record_size, payloadFixedSize, eventEncodedSize in Hfit.
  set (n := Z.of_nat (length (res_Events (rec_Result r)))) in *.
  unfold decodeBody, payload_body. repeat read_step_end.
  { unfold wrap_u32, is_u32. by apply Z.mod_pos_bound. }
  set (es := res_Events (rec_Result r)) in *. change (Z.of_nat (length es)) with n.
  replace (wrap_u32 n) with n by (unfold wrap_u32; rewrite Z.mod_small; lia).
  intros d. erewrite (bind_Ret get) by reflexivity. unfold eventEncodedSize.
  rewrite length_app, events_bytes_length.
  replace (wrap_u64 (n * 69)) with (n * 69) by int_lia.
  replace (Z.of_nat (length d + 69 * length es - length d)) with (n * 69) by lia.
  destruct (_ >? _) eqn:Eg; [lia|]. destruct (_ <? _) eqn:El; [lia|].
  rewrite E1, E2. replace (Z.to_nat n) with (length es) by lia.
  pose proof (reads_last _ (fun events => inr (A := error) (mkRecord (rec_ShardID r) (rec_CommandSeq r)
    (mkCommand (rec_CommandSeq r) (cmd_Symbol (rec_Command r)) (cmd_Type (rec_Command r))
       (cmd_OrderID (rec_Command r)) (cmd_Side (rec_Command r)) (cmd_OrderType (rec_Command r))
       (cmd_TimeInForce (rec_Command r)) (cmd_Price (rec_Command r)) (cmd_Quantity (rec_Command r))
       (cmd_NewPrice (rec_Command r)) (cmd_NewLeavesQty (rec_Command r)))
    (mkResult (res_CommandSeq (rec_Result r)) events))) _ _ (reads_events es Hev)) as H.
  specialize (H d []). rewrite app_nil_r, events_bytes_length in H. cbv beta in H. rewrite H.
  do 3 f_equal. destruct r as [sh sq c [rs evs]]. simpl in *. rewrite <-Hcs. by destruct c.
Qed.

(** ** The frame around the payload *)

Definition field (data : list Z) (lo n : nat) : Z := le_value (take n (drop lo data)).

Lemma uint_at_field data lo hi :
  (lo <= hi <= length data)%nat -> uint_at data lo hi = Ret (field data lo (hi - lo)).
Proof.
  intros H. unfold uint_at, subslice, field.
  rewrite (proj2 (Nat.leb_le lo _)), (proj2 (Nat.leb_le hi _)) by lia. done.
Qed.

Lemma subslice_ok data lo hi :
  (lo <= hi <= length data)%nat -> subslice data lo hi = Ret (take (hi - lo) (drop lo data)).
Proof.
  intros H. unfold subslice. by rewrite (proj2 (Nat.leb_le lo _)), (proj2 (Nat.leb_le hi _)) by lia.
Qed.

Lemma field_range data lo n : bytes_ok data -> 0 <= field data lo n < 256 ^ Z.of_nat n.
Proof.
  intros H. unfold field. pose proof (le_value_range (take n (drop lo data))) as Hr.
  assert (bytes_ok (take n (drop lo data))) as Hb by (by apply Forall_take, Forall_drop).
  specialize (Hr Hb). assert (256 ^ Z.of_nat (length (take n (drop lo data))) <= 256 ^ Z.of_nat n).
  { apply Z.pow_le_mono_r; [lia|]. rewrite length_take. lia. }
  lia.
Qed.

Lemma sub_take {A} (l : list A) m n k :
  (m + n <= k)%nat -> take n (drop m (take k l)) = take n (drop m l).
Proof. intros H. rewrite !take_drop_commute, take_take. by rewrite Nat.min_l. Qed.

(** The header checks that come before the length is used. *)
Definition header_check (data : list Z) : option error :=
  if negb (field data 0 4 =? recordMagic) then Some (Errorf "invalid record magic" [])
  else if negb (field data 4 2 =? schemaVersion)
  then Some (Errorf "unsupported schema version: %d" [ANum (field data 4 2)])
  else if negb (field data 6 1 =? recordTypeExec)
  then Some (Errorf "unsupported record type: %d" [ANum (field data 6 1)])
  else None.

Definition frame_len (data : list Z) : nat := (28 + Z.to_nat (field data 8 4))%nat.
Definition frame_payload (data : list Z) : list Z :=
  take (Z.to_nat (field data 8 4)) (drop 24 data).
Definition frame_record (data : list Z) : Record_ :=
  mkRecord (field data 12 2) (field data 16 8) zero_command (mkResult 0 []).

(** [DecodeRecord] with all its slice expressions evaluated. *)
Lemma DecodeRecord_eq data :
  bytes_ok data ->
  DecodeRecord data =
  if (length data <? 24)%nat then Ret (inl ErrUnexpectedEOF)
  else match header_check data with
  | Some e => Ret (inl e)
  | None =>
      if (length data <? frame_len data)%nat then Ret (inl ErrUnexpectedEOF)
      else if negb (crc32c (take (frame_len data - 4) data) =? field data (frame_len data - 4) 4)
      then Ret (inl (Errorf "checksum mismatch" []))
      else let? r := decodePayload (frame_payload data) (frame_record data) in
           match r with
           | inl err => Ret (inl err)
           | inr rec' => Ret (inr (rec', frame_len data))
           end
  end.
Proof.
  intros Hb. unfold DecodeRecord, header_check, headerLen. destruct (Nat.ltb_spec (length data) 24) as [|Hlen]; [done|].
  rewrite !uint_at_field by lia. cbn [obind Nat.sub].
  destruct (negb (field data 0 4 =? _)); [done|]. destruct (negb (field data 4 2 =? _)); [done|].
  destruct (negb (field data 6 1 =? _)); [done|]. pose proof (field_range data 8 4 Hb) as Hr.
  change (256 ^ Z.of_nat 4) with 4294967296 in Hr.
  set (pl := field data 8 4) in *.
  assert (u64_add (u64_add (Z.of_nat 24) pl) 4 = 28 + pl) as -> by int_lia.
  assert (Z.to_nat (28 + pl) = frame_len data) as E by (unfold frame_len; fold pl; lia). rewrite E.
  assert (28 <= frame_len data)%nat as H28 by (unfold frame_len; lia).
  destruct (Nat.ltb_spec (length data) (frame_len data)) as [Hs|Hs].
  { destruct (_ >? _) eqn:Eg; [reflexivity|]. lia. }
  destruct (_ >? _) eqn:Eg; [lia|]. rewrite subslice_ok by lia. cbn [obind].
  rewrite ?drop_0, ?Nat.sub_0_r. set (frame := take (frame_len data) data).
  assert (length frame = frame_len data) as Hf by (unfold frame; rewrite length_take; lia).
  rewrite uint_at_field, !subslice_ok by lia. cbn [obind].
  rewrite ?drop_0, ?Nat.sub_0_r, Hf. replace (frame_len data - (frame_len data - 4))%nat with 4%nat by lia.
  assert (take (frame_len data - 4) frame = take (frame_len data - 4) data) as ->.
  { unfold frame. rewrite take_take. f_equal. lia. }
  assert (field frame (frame_len data - 4) 4 = field data (frame_len data - 4) 4) as ->.
  { unfold field, frame. rewrite sub_take by lia. done. }
  destruct (negb _); [done|]. rewrite ?uint_at_field by lia. cbn [obind].
  assert (take (frame_len data - 4 - 24) (drop 24 frame) = frame_payload data) as ->.
  { unfold frame_payload, frame. rewrite sub_take by lia. f_equal. unfold frame_len. fold pl. lia. }
  done.
Qed.

Lemma field_at data d n z rest off :
  data = d ++ le n z ++ rest -> off = length d -> field data off n = z mod 256 ^ Z.of_nat n.
Proof.
  intros -> ->. unfold field. rewrite drop_app_length.
  rewrite take_app_le by (rewrite le_length; lia). rewrite take_ge by (rewrite le_length; lia).
  apply le_value_le.
Qed.

(** The fields of an encoded header, whatever follows it. *)
Record header_fields (n : Z) (r : Record_) (data : list Z) : Prop := {
  hf_check : header_check data = None;
  hf_len : field data 8 4 = n;
  hf_shard : field data 12 2 = rec_ShardID r;
  hf_seq : field data 16 8 = rec_CommandSeq r
}.

Lemma header_bytes_fields n r X :
  0 <= n <= 4294967295 -> is_u16 (rec_ShardID r) -> is_u64 (rec_CommandSeq r) ->
  header_fields n r (header_bytes n r ++ X).
Proof.
  intros Hn Hs Hq. unfold header_bytes. rewrite <-!app_assoc. set (tail := le 8 _ ++ X).
  assert (forall d k z Y off, (le 4 recordMagic ++ le 2 schemaVersion ++ [recordTypeExec] ++ [0]
      ++ le 4 (wrap_u32 n) ++ le 2 (rec_ShardID r) ++ le 2 0 ++ tail) = d ++ le k z ++ Y ->
    off = length d -> field (le 4 recordMagic ++ le 2 schemaVersion ++ [recordTypeExec] ++ [0]
      ++ le 4 (wrap_u32 n) ++ le 2 (rec_ShardID r) ++ le 2 0 ++ tail) off k = z mod 256 ^ Z.of_nat k) as H
    by (intros; by eapply field_at).
  split.
  - unfold header_check. rewrite (H [] 4%nat recordMagic _ 0%nat eq_refl eq_refl).
    rewrite (H (le 4 recordMagic) 2%nat schemaVersion _ 4%nat eq_refl eq_refl).
    rewrite (H (le 4 recordMagic ++ le 2 schemaVersion) 1%nat recordTypeExec _ 6%nat eq_refl eq_refl).
    reflexivity.
  - rewrite (H (le 4 recordMagic ++ le 2 schemaVersion ++ [recordTypeExec] ++ [0]) 4%nat (wrap_u32 n)
      _ 8%nat eq_refl eq_refl). change (256 ^ Z.of_nat 4) with 4294967296. unfold wrap_u32.
    rewrite Z.mod_mod by lia. apply Z.mod_small. lia.
  - rewrite (H (le 4 recordMagic ++ le 2 schemaVersion ++ [recordTypeExec] ++ [0] ++ le 4 (wrap_u32 n))
      2%nat (rec_ShardID r) _ 12%nat eq_refl eq_refl). by apply Z.mod_small.
  - rewrite (H (le 4 recordMagic ++ le 2 schemaVersion ++ [recordTypeExec] ++ [0] ++ le 4 (wrap_u32 n)
      ++ le 2 (rec_ShardID r) ++ le 2 0) 8%nat (rec_CommandSeq r) _ 16%nat eq_refl eq_refl).
    by apply Z.mod_small.
Qed.

Lemma record_size_bounds r : record_fits r -> 58 <= record_size r <= 4294967295.
Proof. intros [_ H]. unfold record_size, payloadFixedSize, eventEncodedSize in *. lia. Qed.

Lemma frame_header r rest :
  record_typed r -> record_fits r -> header_fields (record_size r) r (frame_bytes r ++ rest).
Proof.
  intros [Hs Hq _ _ _ _] Hf. pose proof (record_size_bounds r Hf). unfold frame_bytes, body_bytes.
  rewrite <-!app_assoc. apply header_bytes_fields; [lia|done|done].
Qed.

Lemma frame_len_frame r rest :
  record_typed r -> record_fits r -> frame_len (frame_bytes r ++ rest) = length (frame_bytes r).
Proof.
  intros Ht Hf. pose proof (frame_bytes_length r). pose proof (record_size_bounds r Hf).
  unfold frame_len. rewrite (hf_len _ _ _ (frame_header r rest Ht Hf)). lia.
Qed.

Lemma body_bytes_length r : length (body_bytes r) = (length (frame_bytes r) - 4)%nat.
Proof. unfold frame_bytes. rewrite length_app, le_length. lia. Qed.

Lemma frame_bytes_ok r : bytes_ok (frame_bytes r).
Proof. unfold frame_bytes. apply bytes_ok_app; [apply body_bytes_ok|apply le_bytes_ok]. Qed.

(** The checksum field holds the checksum of what precedes it. *)
Lemma frame_checksum r rest :
  take (length (frame_bytes r) - 4) (frame_bytes r ++ rest) = body_bytes r /\
  field (frame_bytes r ++ rest) (length (frame_bytes r) - 4) 4 = crc32c (body_bytes r).
Proof.
  rewrite <-body_bytes_length. unfold frame_bytes. rewrite <-!app_assoc. split.
  - by rewrite take_app_length.
  - erewrite field_at; [|reflexivity|done]. change (256 ^ Z.of_nat 4) with 4294967296.
    apply Z.mod_small. apply crc32c_range, body_bytes_ok.
Qed.

Lemma frame_payload_frame r rest :
  record_typed r -> record_fits r -> frame_payload (frame_bytes r ++ rest) = payload_bytes r.
Proof.
  intros Ht Hf. unfold frame_payload. rewrite (hf_len _ _ _ (frame_header r rest Ht Hf)).
  pose proof (payload_bytes_length r). unfold frame_bytes, body_bytes. rewrite <-!app_assoc.
  rewrite drop_app_length' by (by rewrite header_bytes_length). rewrite take_app_length'; [done|]. lia.
Qed.

Lemma decodePayload_bytes r rec :
  record_typed r -> record_fits r ->
  rec_ShardID rec = rec_ShardID r -> rec_CommandSeq rec = rec_CommandSeq r ->
  decodePayload (payload_bytes r) rec = Ret (inr r).
Proof.
  intros Ht Hf E1 E2. pose proof (payload_bytes_length r) as Hl. pose proof (record_size_bounds r Hf).
  unfold decodePayload. rewrite (proj2 (Nat.ltb_ge _ _)) by lia.
  rewrite uint_at_field by lia. cbn [obind].
  erewrite (field_at _ [] 2 _ (payload_body r)); [|reflexivity|done].
  destruct Hf as [Hsym Hfit]. set (n := string_len (cmd_Symbol (rec_Command r))) in *.
  change (256 ^ Z.of_nat 2) with 65536.
  replace (wrap_u16 (Z.of_nat n) mod 65536) with (Z.of_nat n) by (unfold wrap_u16; Z.div_mod_to_equations; lia).
  destruct (_ <? _) eqn:E.
  { unfold record_size, payloadFixedSize, eventEncodedSize in *. fold n in Hl. lia. }
  rewrite Nat2Z.id. pose proof (reads_body r rec Ht (conj Hsym Hfit) E1 E2) as HR.
  specialize (HR (le 2 (wrap_u16 (Z.of_nat n)))). rewrite le_length in HR.
  unfold payload_bytes. fold n. fold n in HR. by rewrite HR.
Qed.

(** ** Round trip, truncation, corruption *)

Lemma decode_frame r rest :
  record_typed r -> record_fits r -> bytes_ok rest ->
  DecodeRecord (frame_bytes r ++ rest) = Ret (inr (r, length (frame_bytes r))).
Proof.
  intros Ht Hf Hr. pose proof (frame_bytes_length r) as Hl. pose proof (record_size_bounds r Hf).
  pose proof (frame_header r rest Ht Hf) as [Hc _ Hs Hq].
  rewrite DecodeRecord_eq by (apply bytes_ok_app; [apply frame_bytes_ok|done]).
  rewrite (proj2 (Nat.ltb_ge _ _)) by (rewrite length_app; lia).
  rewrite Hc, frame_len_frame by done. rewrite (proj2 (Nat.ltb_ge _ _)) by (rewrite length_app; lia).
  destruct (frame_checksum r rest) as [-> ->]. rewrite Z.eqb_refl. cbn [negb].
  rewrite frame_payload_frame by done. rewrite decodePayload_bytes; [done|done|done|..].
  - done.
  - done.
Qed.

(** Every strict prefix of a frame is an incomplete record. *)
Lemma decode_truncated r k :
  record_typed r -> record_fits r -> (k < length (frame_bytes r))%nat ->
  DecodeRecord (take k (frame_bytes r)) = Ret (inl ErrUnexpectedEOF).
Proof.
  intros Ht Hf Hk.
  rewrite DecodeRecord_eq by (apply Forall_take, frame_bytes_ok).
  rewrite length_take, Nat.min_l by lia. destruct (Nat.ltb_spec k 24) as [|H24]; [done|].
  pose proof (frame_header r [] Ht Hf) as [Hc Hl _ _]. rewrite app_nil_r in *.
  assert (forall lo n, (lo + n <= 24)%nat -> field (take k (frame_bytes r)) lo n = field (frame_bytes r) lo n) as HF.
  { intros lo n Hn. unfold field. rewrite sub_take by lia. done. }
  unfold header_check in *. rewrite !HF by lia. rewrite Hc.
  assert (frame_len (take k (frame_bytes r)) = frame_len (frame_bytes r)) as ->.
  { unfold frame_len. by rewrite HF by lia. }
  pose proof (frame_len_frame r [] Ht Hf) as E. rewrite app_nil_r in E.
  by rewrite E, (proj2 (Nat.ltb_lt _ _)) by lia.
Qed.

(** A decoder result that is an error. *)
Definition is_error {A} (r : fallible A) : Prop := exists e, r = Ret (inl e).

Lemma decode_bad_checksum data :
  bytes_ok data -> (frame_len data <= length data)%nat ->
  crc32c (take (frame_len data - 4) data) <> field data (frame_len data - 4) 4 ->
  is_error (DecodeRecord data).
Proof.
  intros Hb Hl Hc. rewrite DecodeRecord_eq by done. unfold is_error.
  destruct (length data <? 24)%nat; [eauto|]. destruct (header_check data); [eauto|].
  rewrite (proj2 (Nat.ltb_ge _ _)) by done.
  rewrite (proj2 (Z.eqb_neq _ _)) by done. simpl. eauto.
Qed.

(** Positions away from a changed byte read the same. *)
Lemma field_insert data i b lo n :
  (i < lo \/ lo + n <= i)%nat -> field (<[i := b]> data) lo n = field data lo n.
Proof.
  intros H. unfold field. f_equal. destruct H as [H|H].
  - by rewrite drop_insert_lt by lia.
  - rewrite !take_drop_commute. by rewrite take_insert_ge by lia.
Qed.

Lemma field_inj data data' lo n :
  bytes_ok data -> bytes_ok data' -> length data = length data' ->
  field data lo n = field data' lo n -> take n (drop lo data) = take n (drop lo data').
Proof.
  intros H H' Hl. unfold field. apply le_value_inj.
  - by apply Forall_take, Forall_drop.
  - by apply Forall_take, Forall_drop.
  - rewrite !length_take, !length_drop. lia.
Qed.

(** A frame in which one byte outside the length field was changed is refused. *)
Lemma decode_corrupted r rest i b b' :
  record_typed r -> record_fits r -> bytes_ok rest ->
  frame_bytes r !! i = Some b -> is_u8 b' -> b' <> b -> (i < 8 \/ 12 <= i)%nat ->
  is_error (DecodeRecord (<[i := b']> (frame_bytes r ++ rest))).
Proof.
  intros Ht Hf Hr Hi Hb' Hne Hpos. set (data := frame_bytes r ++ rest).
  pose proof (frame_bytes_length r) as Hl. pose proof (record_size_bounds r Hf).
  pose proof (lookup_lt_Some _ _ _ Hi) as Hilt.
  assert (bytes_ok data) as Hd by (apply bytes_ok_app; [apply frame_bytes_ok|done]).
  assert (data !! i = Some b) as Hdi by (unfold data; by rewrite lookup_app_l).
  assert (frame_len (<[i := b']> data) = length (frame_bytes r)) as Efl.
  { unfold frame_len. rewrite field_insert by lia. fold (frame_len data). by apply frame_len_frame. }
  destruct (frame_checksum r rest) as [Ebody Ecrc]. fold data in Ebody, Ecrc.
  apply decode_bad_checksum.
  { by apply Forall_insert. }
  { rewrite Efl, length_insert. unfold data. rewrite length_app. lia. }
  rewrite Efl. set (m := (length (frame_bytes r) - 4)%nat) in *.
  destruct (decide (i < m)%nat) as [Him|Him].
  - rewrite field_insert, Ecrc by lia. rewrite take_insert_lt, Ebody by lia.
    assert (body_bytes r !! i = Some b) as Hbi.
    { rewrite <-Ebody. by rewrite lookup_take_lt. }
    rewrite insert_take_drop by (by apply lookup_lt_Some in Hbi).
    pose proof (body_bytes_ok r) as Hbok.
    rewrite <-(take_drop_middle _ _ _ Hbi) at 3. intros E.
    apply crc32c_one_byte in E; [done|..].
    + by apply Forall_take.
    + done.
    + by eapply (Forall_lookup_1 is_u8).
    + by apply Forall_drop.
  - rewrite take_insert_ge, Ebody, <-Ecrc by lia. intros E.
    apply field_inj in E; [|done|by apply Forall_insert|by rewrite length_insert].
    assert (take 4 (drop m data) !! (i - m)%nat = Some b) as E1.
    { rewrite lookup_take_lt, lookup_drop by lia. by replace (m + (i - m))%nat with i by lia. }
    rewrite E, lookup_take_lt, lookup_drop in E1 by lia.
    replace (m + (i - m))%nat with i in E1 by lia.
    rewrite list_lookup_insert_eq in E1 by (unfold data; rewrite length_app; lia). congruence.
Qed.

(** ** Arbitrary input *)

(** [m] reads [n] bytes of the payload [p] without a panic, and its value is [P]. *)
Definition consumes {A} (p : list Z) (m : Dec A) (n : nat) (P : A -> Prop) : Prop :=
  forall off, (off + n <= length p)%nat -> exists a, m off = Ret (a, (off + n)%nat) /\ P a.

Lemma consumes_bind {A B} p (m : Dec A) (k : A -> Dec B) n n' P Q :
  consumes p m n P -> (forall a, P a -> consumes p (k a) n' Q) ->
  consumes p (bind m k) (n + n') Q.
Proof.
  intros Hm Hk off Hoff. destruct (Hm off) as (a & Ha & HP); [lia|].
  destruct (Hk a HP (off + n)%nat) as (b & Hb & HQ); [lia|].
  exists b. erewrite bind_Ret by exact Ha. rewrite Hb. split; [do 2 f_equal; lia|done].
Qed.

Lemma consumes_ret {A} p (a : A) (P : A -> Prop) : P a -> consumes p (ret a) 0 P.
Proof. intros H off _. exists a. unfold ret. by rewrite Nat.add_0_r. Qed.

Lemma consumes_uint p n :
  bytes_ok p -> consumes p (readUint p n) n (fun z => 0 <= z < 256 ^ Z.of_nat n).
Proof.
  intros Hp off Hoff. unfold readUint. rewrite uint_at_field by lia.
  eexists. split; [done|]. replace (off + n - off)%nat with n by lia. by apply field_range.
Qed.

Lemma consumes_i64 p : bytes_ok p -> consumes p (readInt64 p) 8 is_i64.
Proof.
  intros Hp. change 8%nat with (8 + 0)%nat. eapply consumes_bind; [by apply consumes_uint|].
  intros z _. apply consumes_ret, wrap_i64_range.
Qed.

Lemma consumes_string p n : consumes p (readString p n) n (fun s => True).
Proof.
  intros off Hoff. unfold readString. rewrite subslice_ok by lia. by eexists.
Qed.

Ltac consume_step Hp x H :=
  eapply consumes_bind;
  [ first [apply (consumes_uint _ _ Hp) | apply (consumes_i64 _ Hp) | apply consumes_string]
  | cbv beta; intros x H ].

Lemma consumes_event p : bytes_ok p -> consumes p (decodeEvent p) 69 event_typed.
Proof.
  intros Hp. unfold decodeEvent.
  change 69%nat with (1 + (2 + (8 + (8 + (8 + (8 + (8 + (8 + (8 + (8 + (1 + (1 + 0))))))))))))%nat.
  consume_step Hp a1 H1. consume_step Hp a2 H2. consume_step Hp a3 H3. consume_step Hp a4 H4.
  consume_step Hp a5 H5. consume_step Hp a6 H6. consume_step Hp a7 H7. consume_step Hp a8 H8.
  consume_step Hp a9 H9. consume_step Hp a10 H10. consume_step Hp a11 H11. consume_step Hp a12 H12.
  apply consumes_ret. by constructor.
Qed.

Lemma consumes_events p n :
  bytes_ok p -> consumes p (decodeEvents p n) (n * 69) (Forall event_typed).
Proof.
  intros Hp. induction n as [|n IH]; [by apply consumes_ret|].
  eapply (consumes_bind p _ _ 69 (n * 69)); [by apply consumes_event|]. intros e He.
  rewrite <-(Nat.add_0_r (n * 69)). eapply consumes_bind; [exact IH|]. intros es Hes.
  apply consumes_ret. by constructor.
Qed.

(** What the decoder may return for the header fields [rec]. *)
Definition decoded_ok (rec : Record_) (r : error + Record_) : Prop :=
  match r with
  | inl _ => True
  | inr rec' => record_typed rec' /\ rec_ShardID rec' = rec_ShardID rec /\
                rec_CommandSeq rec' = rec_CommandSeq rec
  end.

Lemma decodeBody_total p n rec :
  bytes_ok p -> is_u16 (rec_ShardID rec) -> is_u64 (rec_CommandSeq rec) -> (58 + n <= length p)%nat ->
  exists r off, decodeBody p n rec 2%nat = Ret (r, off) /\ decoded_ok rec r.
Proof.
  intros Hp Hsh Hseq Hn.
  assert (forall A (m : Dec A) (k : A -> Dec (error + Record_)) w P off,
    consumes p m w P -> (off + w <= length p)%nat ->
    (forall a, P a -> exists r off', k a (off + w)%nat = Ret (r, off') /\ decoded_ok rec r) ->
    exists r off', bind m k off = Ret (r, off') /\ decoded_ok rec r) as step.
  { intros A m k w P off Hm Ho Hk. destruct (Hm off Ho) as (a & Ha & HP).
    destruct (Hk a HP) as (r & off' & Hr & Hok). exists r, off'. by erewrite bind_Ret by exact Ha. }
  unfold decodeBody. eapply step; [apply consumes_string|lia|]. intros sym _.
  do 11 (eapply step;
    [first [apply (consumes_uint _ _ Hp) | apply (consumes_i64 _ Hp)]|lia|intros ? ?]).
  erewrite (bind_Ret get) by reflexivity.
  set (off := (2 + n + 1 + 8 + 1 + 1 + 1 + 8 + 8 + 8 + 8 + 8 + 4)%nat). cbv beta in *.
  match goal with |- context [wrap_u64 (?c * eventEncodedSize)] => set (cnt := c) in * end.
  assert (0 <= cnt < 4294967296) as Hcnt by done.
  unfold eventEncodedSize. replace (wrap_u64 (cnt * 69)) with (cnt * 69) by int_lia.
  destruct (_ >? _) eqn:Eg; [by eexists _, _|]. destruct (_ <? _) eqn:El; [by eexists _, _|].
  assert (off + Z.to_nat cnt * 69 <= length p)%nat as Hfit.
  { clear - Eg Hn Hcnt. clearbody cnt. unfold off in *. clear off.
    rewrite Z.gtb_ltb, Z.ltb_ge in Eg. lia. }
  eapply step; [by apply consumes_events|exact Hfit|]. intros es Hes.
  eexists _, _. split; [reflexivity|]. split; [|done]. constructor; simpl; try done.
Qed.

Lemma decodePayload_total p rec :
  bytes_ok p -> is_u16 (rec_ShardID rec) -> is_u64 (rec_CommandSeq rec) ->
  exists r, decodePayload p rec = Ret r /\ decoded_ok rec r.
Proof.
  intros Hp Hsh Hseq. unfold decodePayload. destruct (Nat.ltb_spec (length p) 2); [by eexists|].
  rewrite uint_at_field by lia. cbn [obind].
  pose proof (field_range p 0 (2 - 0) Hp) as Hr. set (n := field p 0 (2 - 0)) in *.
  destruct (_ <? _) eqn:E; [by eexists|]. unfold payloadFixedSize in E.
  destruct (decodeBody_total p (Z.to_nat n) rec Hp Hsh Hseq) as (r & off & -> & Hok); [lia|].
  by exists r.
Qed.

Lemma DecodeRecord_total data :
  bytes_ok data ->
  exists r, DecodeRecord data = Ret r /\
    match r with
    | inl _ => True
    | inr (rec, n) => record_typed rec /\ (28 <= n <= length data)%nat
    end.
Proof.
  intros Hb. rewrite DecodeRecord_eq by done.
  destruct (Nat.ltb_spec (length data) 24); [by eexists|]. destruct (header_check data); [by eexists|].
  destruct (Nat.ltb_spec (length data) (frame_len data)); [by eexists|].
  destruct (negb _); [by eexists|].
  assert (bytes_ok (frame_payload data)) as Hp by (by apply Forall_take, Forall_drop).
  destruct (decodePayload_total (frame_payload data) (frame_record data) Hp) as (r & -> & Hok).
  { pose proof (field_range data 12 2 Hb). done. }
  { pose proof (field_range data 16 8 Hb). done. }
  cbn [obind]. destruct r as [e|rec]; [by eexists|]. eexists. split; [done|].
  destruct Hok as [Hok _]. split; [done|]. unfold frame_len in *. lia.
Qed.
