(* ===== verification/Fs.v ===== *)
(** * Fs: directories, file names and globbing

    What the journal and the snapshot store use of the packages [os],
    [path/filepath], [fmt] and [sort]: a directory maps base names to file
    contents, [filepath.Glob] with a pattern [prefix*suffix] selects names, and
    [sort.Strings] orders them bytewise.  The directory part of a path is left
    out: every path the code builds is in one directory. *)

From stdpp Require Import pretty.
From S2P Require Import Prelude Bytes.

(** A file that cannot be read has no content. *)
Abbreviation dir := (gmap string (option (list Z))).

(** [fmt.Sprintf("%0<w>d", n)]. *)
Fixpoint zeros (n : nat) : string :=
  match n with
  | O => ""
  | S n' => ("0" +:+ zeros n')%string
  end.
Definition pad (w : nat) (n : Z) : string :=
  let s := pretty n in (zeros (w - String.length s) +:+ s)%string.

(** Does [name] match [prefix*suffix]?  The star stands for any characters. *)
Definition glob_match (prefix suffix name : string) : bool :=
  String.prefix prefix name
  && (String.length prefix + String.length suffix <=? String.length name)%nat
  && String.eqb (String.substring (String.length name - String.length suffix)
                   (String.length suffix) name) suffix.

Definition string_le (a b : string) : Prop := String.leb a b = true.
#[export] Instance string_le_dec a b : Decision (string_le a b).
Proof. unfold string_le. apply _. Defined.

(** [filepath.Glob] followed by [sort.Strings]. *)
Definition glob_sorted (d : dir) (prefix suffix : string) : list string :=
  merge_sort string_le (filter (fun n => glob_match prefix suffix n = true) (map fst (map_to_list d))).

(** [os.ReadFile]. *)
Definition ReadFile (d : dir) (name : string) : error + list Z :=
  match d !! name with
  | Some (Some data) => inr data
  | Some None => inl (ErrOS "read" name)
  | None => inl ErrNotExist
  end.

(** ** Facts *)

#[export] Instance string_le_total : Total string_le.
Proof. intros a b. apply String.leb_total. Qed.

Lemma glob_sorted_perm d prefix suffix :
  glob_sorted d prefix suffix ≡ₚ
  filter (fun n => glob_match prefix suffix n = true) (map fst (map_to_list d)).
Proof. apply merge_sort_Permutation. Qed.

Lemma glob_sorted_sorted d prefix suffix : Sorted string_le (glob_sorted d prefix suffix).
Proof. apply Sorted_merge_sort, _. Qed.

Lemma glob_sorted_elem d prefix suffix n :
  n ∈ glob_sorted d prefix suffix <-> glob_match prefix suffix n = true /\ is_Some (d !! n).
Proof.
  rewrite glob_sorted_perm, list_elem_of_filter, list_elem_of_fmap. split.
  - intros [H ([k v] & -> & Hin)]. split; [done|]. apply elem_of_map_to_list in Hin. eauto.
  - intros [H [v Hv]]. split; [done|]. exists (n, v). split; [done|]. by apply elem_of_map_to_list.
Qed.

Lemma glob_sorted_NoDup d prefix suffix : NoDup (glob_sorted d prefix suffix).
Proof. rewrite glob_sorted_perm. apply NoDup_filter, NoDup_fst_map_to_list. Qed.
