(* ===== verification/Reader.v ===== *)
(** * Reader: reading the segments of a shard (internal/journal/reader.go) *)

From S2P Require Import Prelude Model Bytes Codec CodecFacts Fs.

(** The loop over the records of a segment: [data] is the whole file, [offset]
    the position of the next record. *)
Fixpoint readSegment_loop (fuel : nat) (path : string) (data : list Z) (offset : nat)
  (expectedShardID : Z) (allowTruncatedTail : bool) (records : list Record_)
  : fallible (list Record_) :=
  match fuel with
  | O => OutOfFuel
  | S fuel' =>
      if (offset <? length data)%nat then
        let? r := DecodeRecord (drop offset data) in
        match r with
        | inl err =>
            if allowTruncatedTail
               && (bool_decide (err = ErrUnexpectedEOF) || bool_decide (err = ErrEOF))
            then Ret (inr records)
            else Ret (inl (Wrapf "decode record %s offset %d: %w"
                             [AStr path; ANum (Z.of_nat offset)] err))
        | inr (rec, consumed) =>
            if negb (rec_ShardID rec =? expectedShardID)
            then Ret (inl (Errorf "record shard mismatch at %s offset %d"
                             [AStr path; ANum (Z.of_nat offset)]))
            else readSegment_loop fuel' path data (offset + consumed) expectedShardID
                   allowTruncatedTail (records ++ [rec])
        end
      else Ret (inr records)
  end.

Definition readSegment (d : dir) (path expectedEngineID : string)
  (expectedShardID expectedShardCount : Z) (validateMetadata allowTruncatedTail : bool)
  : fallible (list Record_) :=
  match ReadFile d path with
  | inl err => Ret (inl err)
  | inr data =>
      match DecodeSegmentHeader data with
      | inl err =>
          if allowTruncatedTail && (errors_Is err ErrUnexpectedEOF || errors_Is err ErrEOF)
          then Ret (inr [])
          else Ret (inl (Wrapf "decode segment header %s: %w" [AStr path] err))
      | inr (header, offset) =>
          if negb (sh_ShardID header =? expectedShardID)
          then Ret (inl (Errorf "segment shard mismatch: got %d want %d"
                           [ANum (sh_ShardID header); ANum expectedShardID]))
          else if validateMetadata && negb (String.eqb (sh_EngineID header) expectedEngineID)
          then Ret (inl (Errorf "segment engine id mismatch: got %q want %q"
                           [AStr (sh_EngineID header); AStr expectedEngineID]))
          else if validateMetadata && negb (sh_ShardCount header =? expectedShardCount)
          then Ret (inl (Errorf "segment shard count mismatch: got %d want %d"
                           [ANum (sh_ShardCount header); ANum expectedShardCount]))
          else readSegment_loop (S (length data)) path data offset expectedShardID
                 allowTruncatedTail []
      end
  end.

Definition shard_prefix (shardID : Z) : string := ("shard-" +:+ pad 2 shardID +:+ "-")%string.

(** The loop over the files; the last one may end in an incomplete record. *)
Fixpoint readFiles (d : dir) (engineID : string) (shardID shardCount : Z)
  (validateMetadata : bool) (files : list string) (out : list Record_)
  : fallible (list Record_) :=
  match files with
  | [] => Ret (inr out)
  | path :: files' =>
      let isLast := match files' with [] => true | _ => false end in
      let? r := readSegment d path engineID (wrap_u16 shardID) (wrap_u16 shardCount)
                  validateMetadata isLast in
      match r with
      | inl err => Ret (inl err)
      | inr records => readFiles d engineID shardID shardCount validateMetadata files' (out ++ records)
      end
  end.

Definition readShardRecords (d : dir) (engineID : string) (shardID shardCount : Z)
  (validateMetadata : bool) : fallible (list Record_) :=
  readFiles d engineID shardID shardCount validateMetadata
    (glob_sorted d (shard_prefix shardID) ".wal") [].

Definition ReadShardRecords (d : dir) (shardID : Z) : fallible (list Record_) :=
  readShardRecords d "" shardID 0 false.

Definition ReadShardRecordsForEngine (d : dir) (engineID : string) (shardID shardCount : Z)
  : fallible (list Record_) :=
  readShardRecords d engineID shardID shardCount true.

(** ** Segments as the writer produces them *)

Record header_ok (h : SegmentHeader) : Prop := {
  ho_engine : Z.of_nat (string_len (sh_EngineID h)) <= 65535;
  ho_shard : is_u16 (sh_ShardID h);
  ho_count : is_u16 (sh_ShardCount h)
}.

Definition segment_header_bytes (h : SegmentHeader) : list Z :=
  le 4 segmentMagic ++ le 2 schemaVersion ++ le 2 (sh_ShardCount h)
  ++ le 2 (sh_ShardID h) ++ le 2 (wrap_u16 (Z.of_nat (string_len (sh_EngineID h))))
  ++ bytes_of_string (sh_EngineID h).

Lemma segment_header_bytes_ok h : bytes_ok (segment_header_bytes h).
Proof. unfold segment_header_bytes. auto 20 with bytes. Qed.

Lemma EncodeSegmentHeader_ok h :
  header_ok h -> EncodeSegmentHeader h = inr (segment_header_bytes h).
Proof. intros [H _ _]. unfold EncodeSegmentHeader. case_match eqn:E; [lia|done]. Qed.

Definition frames (rs : list Record_) : list Z := concat (map frame_bytes rs).
Definition segment_bytes (h : SegmentHeader) (rs : list Record_) : list Z :=
  segment_header_bytes h ++ frames rs.

(** A record the writer of shard [id] can have written. *)
Record writable (id : Z) (r : Record_) : Prop := {
  wr_typed : record_typed r;
  wr_fits : record_fits r;
  wr_shard : rec_ShardID r = id
}.

(** The records that are complete in the first [k] bytes of their frames. *)
Fixpoint complete (k : nat) (rs : list Record_) : list Record_ :=
  match rs with
  | [] => []
  | r :: rs' =>
      if (length (frame_bytes r) <=? k)%nat
      then r :: complete (k - length (frame_bytes r)) rs'
      else []
  end.

(** ** Headers *)

Definition eof_error (e : error) : Prop := e = ErrEOF \/ e = ErrUnexpectedEOF.

Lemma readFull_take k b X :
  b <> [] ->
  readFull (take k (b ++ X)) (length b) =
  if (k <? length b)%nat
  then inl (if (k =? 0)%nat then ErrEOF else ErrUnexpectedEOF)
  else inr (b, take (k - length b) X).
Proof.
  intros Hb. unfold readFull. destruct (length b =? 0)%nat eqn:E0.
  { apply Nat.eqb_eq, nil_length_inv in E0. done. }
  apply Nat.eqb_neq in E0. destruct (Nat.ltb_spec k (length b)) as [H|H].
  - rewrite take_app_le by lia. rewrite length_take, Nat.min_l by lia.
    destruct (k =? 0)%nat; [done|]. by rewrite (proj2 (Nat.ltb_lt _ _)) by lia.
  - rewrite take_app_ge by lia. rewrite !length_app.
    rewrite (proj2 (Nat.eqb_neq _ _)), (proj2 (Nat.ltb_ge _ _)) by lia.
    by rewrite take_app_length, drop_app_length.
Qed.

Lemma le_nonempty n z : le (S n) z <> [].
Proof. done. Qed.

(** Decoding a header prefix: the header once it is complete, an EOF before. *)
Lemma DecodeSegmentHeader_take h k X :
  header_ok h ->
  (if (length (segment_header_bytes h) <=? k)%nat
   then DecodeSegmentHeader (take k (segment_header_bytes h ++ X))
          = inr (h, length (segment_header_bytes h))
   else exists e, DecodeSegmentHeader (take k (segment_header_bytes h ++ X)) = inl e /\ eof_error e).
Proof.
  intros [He Hs Hc]. set (eng := bytes_of_string (sh_EngineID h)).
  set (len := wrap_u16 (Z.of_nat (string_len (sh_EngineID h)))).
  assert (Z.of_nat (length eng) = len) as Hlen.
  { unfold len, wrap_u16. rewrite Z.mod_small; [done|]. lia. }
  assert (length (segment_header_bytes h) = (12 + length eng)%nat) as Htot.
  { unfold segment_header_bytes. rewrite !length_app, !le_length. unfold eng. lia. }
  rewrite Htot. unfold DecodeSegmentHeader, segment_header_bytes.
  fold len eng. rewrite <-!app_assoc.
  assert (forall j n z Y, readFull (take j (le (S n) z ++ Y)) (S n) =
    if (j <? S n)%nat then inl (if (j =? 0)%nat then ErrEOF else ErrUnexpectedEOF)
    else inr (le (S n) z, take (j - S n) Y)) as HR.
  { intros j n z Y. pose proof (readFull_take j (le (S n) z) Y (le_nonempty n z)) as H.
    by rewrite le_length in H. }
  assert (forall j : nat, eof_error (if (j =? 0)%nat then ErrEOF else ErrUnexpectedEOF)) as HE.
  { intros j. destruct (j =? 0)%nat; [by left|by right]. }
  match goal with |- context [take k ?a] =>
    assert (length (take k a) = Nat.min k (12 + length eng + length X)) as Hall
      by (rewrite length_take, !length_app, !le_length; lia)
  end.
  rewrite (HR k 3%nat). destruct (Nat.ltb_spec k 4).
  { rewrite (proj2 (Nat.leb_gt _ _)) by lia. eauto. }
  rewrite le_value_le. change (segmentMagic mod 256 ^ Z.of_nat 4) with segmentMagic.
  rewrite Z.eqb_refl. cbn [negb]. rewrite (HR _ 1%nat). destruct (Nat.ltb_spec (k - 4) 2).
  { rewrite (proj2 (Nat.leb_gt _ _)) by lia. eauto. }
  rewrite le_value_le. change (schemaVersion mod 256 ^ Z.of_nat 2) with schemaVersion.
  rewrite Z.eqb_refl. cbn [negb]. rewrite (HR _ 1%nat). destruct (Nat.ltb_spec (k - 4 - 2) 2).
  { rewrite (proj2 (Nat.leb_gt _ _)) by lia. eauto. }
  rewrite (HR _ 1%nat). destruct (Nat.ltb_spec (k - 4 - 2 - 2) 2).
  { rewrite (proj2 (Nat.leb_gt _ _)) by lia. eauto. }
  rewrite (HR _ 1%nat). destruct (Nat.ltb_spec (k - 4 - 2 - 2 - 2) 2).
  { rewrite (proj2 (Nat.leb_gt _ _)) by lia. eauto. }
  rewrite !le_value_le. change (256 ^ Z.of_nat 2) with 65536.
  replace (Z.to_nat (len mod 65536)) with (length eng)
    by (rewrite Z.mod_small; [lia|]; split; [lia|]; unfold len, wrap_u16; Z.div_mod_to_equations; lia).
  rewrite !(Z.mod_small (sh_ShardID h)), !(Z.mod_small (sh_ShardCount h)) by done.
  set (j := (k - 4 - 2 - 2 - 2 - 2)%nat).
  assert (readFull (take j (eng ++ X)) (length eng) =
    if (j <? length eng)%nat then inl (if (j =? 0)%nat then ErrEOF else ErrUnexpectedEOF)
    else inr (eng, take (j - length eng) X)) as ->.
  { destruct (decide (eng = [])) as [->|Hne]; [|by apply readFull_take]. simpl. by rewrite Nat.sub_0_r. }
  destruct (Nat.ltb_spec j (length eng)).
  { rewrite (proj2 (Nat.leb_gt _ _)) by (unfold j in *; lia). eauto. }
  rewrite (proj2 (Nat.leb_le _ _)) by (unfold j in *; lia).
  unfold eng at 1. rewrite string_bytes. rewrite Hall, length_take.
  destruct h as [he hs hc]. simpl. do 2 f_equal. unfold j. lia.
Qed.

(** ** Records *)

Lemma frames_cons r rs : frames (r :: rs) = frame_bytes r ++ frames rs.
Proof. done. Qed.

Lemma frames_app rs rs' : frames (rs ++ rs') = frames rs ++ frames rs'.
Proof. unfold frames. by rewrite map_app, concat_app. Qed.

Lemma frames_ok rs : bytes_ok (frames rs).
Proof.
  apply bytes_ok_concat, Forall_map, Forall_true. intros r. apply frame_bytes_ok.
Qed.

Lemma frame_bytes_pos r : (28 <= length (frame_bytes r))%nat.
Proof.
  pose proof (frame_bytes_length r). unfold record_size, payloadFixedSize, eventEncodedSize in *. lia.
Qed.

Lemma complete_all k rs : (length (frames rs) <= k)%nat -> complete k rs = rs.
Proof.
  revert k. induction rs as [|r rs IH]; intros k H; [done|]. rewrite frames_cons, length_app in H. cbn [complete].
  rewrite (proj2 (Nat.leb_le _ _)) by lia. f_equal. apply IH. lia.
Qed.

Lemma complete_prefix k rs : complete k rs `prefix_of` rs.
Proof.
  revert k. induction rs as [|r rs IH]; intros k; [done|]. cbn [complete].
  case_match; [by apply prefix_cons|apply prefix_nil].
Qed.

(** The bytes that are complete records, and whether anything follows them. *)
Lemma complete_length k rs : (length (frames (complete k rs)) <= k)%nat.
Proof.
  revert k. induction rs as [|r rs IH]; intros k; cbn [complete]; [unfold frames; simpl; lia|].
  destruct (Nat.leb_spec (length (frame_bytes r)) k); [|unfold frames; simpl; lia].
  rewrite frames_cons, length_app. specialize (IH (k - length (frame_bytes r))%nat). lia.
Qed.

(** The record loop on the first [k] bytes of the frames: the complete records,
    unless an incomplete one is not tolerated. *)
Lemma readSegment_loop_ok path d rs k id allow acc fuel :
  bytes_ok d -> Forall (writable id) rs -> (k <= length (frames rs))%nat -> (k < fuel)%nat ->
  readSegment_loop fuel path (d ++ take k (frames rs)) (length d) id allow acc =
  if allow || (length (frames (complete k rs)) =? k)%nat
  then Ret (inr (acc ++ complete k rs))
  else Ret (inl (Wrapf "decode record %s offset %d: %w"
                   [AStr path; ANum (Z.of_nat (length d + length (frames (complete k rs))))]
                   ErrUnexpectedEOF)).
Proof.
  intros Hd Hrs. revert d k acc fuel Hd. induction Hrs as [|r rs Hr Hrs IH]; intros d k acc fuel Hd Hk Hf.
  { unfold frames in *. simpl in *. assert (k = 0)%nat as -> by lia. destruct fuel as [|fuel]; [lia|]. simpl.
    rewrite !app_nil_r, Nat.ltb_irrefl. by rewrite orb_true_r. }
  destruct Hr as [Ht Hfit Hid]. rewrite frames_cons in *. rewrite length_app in Hk.
  pose proof (frame_bytes_pos r) as Hpos. destruct fuel as [|fuel]; [lia|]. cbn [complete readSegment_loop].
  rewrite drop_app_length, length_app. destruct (Nat.leb_spec (length (frame_bytes r)) k) as [Hfull|Hpart].
  - rewrite take_app_ge by lia. set (X := take _ (frames rs)).
    assert (bytes_ok X) as HX by (by apply Forall_take, frames_ok).
    rewrite length_app, (proj2 (Nat.ltb_lt _ _)) by lia.
    rewrite decode_frame by done. cbn [obind]. rewrite Hid, Z.eqb_refl. cbn [negb].
    specialize (IH (d ++ frame_bytes r) (k - length (frame_bytes r))%nat (acc ++ [r]) fuel).
    rewrite length_app, <-app_assoc in IH. unfold X. rewrite IH; [|by apply bytes_ok_app; [|apply frame_bytes_ok]|lia|lia].
    rewrite frames_cons, length_app.
    assert ((length (frames (complete (k - length (frame_bytes r)) rs)) =? k - length (frame_bytes r))%nat
      = (length (frame_bytes r) + length (frames (complete (k - length (frame_bytes r)) rs)) =? k)%nat) as ->.
    { destruct (Nat.eqb_spec (length (frames (complete (k - length (frame_bytes r)) rs))) (k - length (frame_bytes r)));
        symmetry; [apply Nat.eqb_eq|apply Nat.eqb_neq]; lia. }
    rewrite <-app_assoc, Nat.add_assoc. done.
  - rewrite take_app_le by lia. rewrite length_take, Nat.min_l by lia. change (frames []) with (@nil Z).
    rewrite app_nil_r, Nat.add_0_r. destruct k as [|k].
    { rewrite Nat.add_0_r, Nat.ltb_irrefl. by rewrite orb_true_r. }
    rewrite (proj2 (Nat.ltb_lt _ _)) by lia. rewrite decode_truncated by done. cbn [obind].
    rewrite bool_decide_eq_true_2 by done. simpl. rewrite orb_false_r, andb_true_r. done.
Qed.

(** A segment file cut after [k] bytes. *)
Lemma readSegment_cut d path h rs k eng validate allow :
  header_ok h -> Forall (writable (sh_ShardID h)) rs ->
  d !! path = Some (Some (take k (segment_bytes h rs))) ->
  (length (segment_header_bytes h) <= k <= length (segment_bytes h rs))%nat ->
  (validate = true -> eng = sh_EngineID h) ->
  allow = true \/ length (frames (complete (k - length (segment_header_bytes h)) rs))
                  = (k - length (segment_header_bytes h))%nat ->
  readSegment d path eng (sh_ShardID h) (sh_ShardCount h) validate allow
  = Ret (inr (complete (k - length (segment_header_bytes h)) rs)).
Proof.
  intros Hh Hrs Hd Hk Hv Hal. unfold readSegment, ReadFile. rewrite Hd.
  pose proof (DecodeSegmentHeader_take h k (frames rs) Hh) as HD.
  fold (segment_bytes h rs) in HD. rewrite (proj2 (Nat.leb_le _ _)) in HD by lia. rewrite HD.
  rewrite Z.eqb_refl. cbn [negb].
  assert ((validate && negb (String.eqb (sh_EngineID h) eng))%bool = false) as ->.
  { destruct validate; [|done]. rewrite Hv by done. by rewrite String.eqb_refl. }
  rewrite Z.eqb_refl, andb_false_r. unfold segment_bytes in *. rewrite length_app in Hk.
  rewrite take_app_ge by lia.
  pose proof (segment_header_bytes_ok h) as Hhb.
  rewrite readSegment_loop_ok by (done || rewrite ?length_app, ?length_take; lia).
  destruct Hal as [->|E]; [done|]. rewrite E, Nat.eqb_refl, orb_true_r. done.
Qed.

Lemma readSegment_short d path h rs k eng validate :
  header_ok h -> d !! path = Some (Some (take k (segment_bytes h rs))) ->
  (k < length (segment_header_bytes h))%nat ->
  readSegment d path eng (sh_ShardID h) (sh_ShardCount h) validate true = Ret (inr []).
Proof.
  intros Hh Hd Hk. unfold readSegment, ReadFile. rewrite Hd.
  pose proof (DecodeSegmentHeader_take h k (frames rs) Hh) as HD.
  fold (segment_bytes h rs) in HD. rewrite (proj2 (Nat.leb_gt _ _)) in HD by lia.
  destruct HD as (e & -> & [->| ->]); done.
Qed.

(** A segment that ends inside a record is an error when it is not the last. *)
Lemma readSegment_torn d path h rs k eng validate :
  header_ok h -> Forall (writable (sh_ShardID h)) rs ->
  d !! path = Some (Some (take k (segment_bytes h rs))) ->
  (length (segment_header_bytes h) <= k <= length (segment_bytes h rs))%nat ->
  (validate = true -> eng = sh_EngineID h) ->
  length (frames (complete (k - length (segment_header_bytes h)) rs))
    <> (k - length (segment_header_bytes h))%nat ->
  exists e, readSegment d path eng (sh_ShardID h) (sh_ShardCount h) validate false = Ret (inl e).
Proof.
  intros Hh Hrs Hd Hk Hv Hal. unfold readSegment, ReadFile. rewrite Hd.
  pose proof (DecodeSegmentHeader_take h k (frames rs) Hh) as HD.
  fold (segment_bytes h rs) in HD. rewrite (proj2 (Nat.leb_le _ _)) in HD by lia. rewrite HD.
  rewrite Z.eqb_refl. cbn [negb].
  assert ((validate && negb (String.eqb (sh_EngineID h) eng))%bool = false) as ->.
  { destruct validate; [|done]. rewrite Hv by done. by rewrite String.eqb_refl. }
  rewrite Z.eqb_refl, andb_false_r. unfold segment_bytes in *. rewrite length_app in Hk.
  rewrite take_app_ge by lia.
  pose proof (segment_header_bytes_ok h) as Hhb.
  rewrite readSegment_loop_ok by (done || rewrite ?length_app, ?length_take; lia).
  rewrite (proj2 (Nat.eqb_neq _ _)) by done. simpl. eauto.
Qed.

(** ** All the segments of a shard *)

(** [path] holds a complete segment with records [rs]. *)
Definition holds (d : dir) (h : SegmentHeader) (seg : string * list Record_) : Prop :=
  d !! seg.1 = Some (Some (segment_bytes h seg.2)) /\ Forall (writable (sh_ShardID h)) seg.2.

Lemma complete_zero rs : complete 0 rs = [].
Proof.
  destruct rs as [|r rs]; [done|]. cbn [complete]. pose proof (frame_bytes_pos r).
  by rewrite (proj2 (Nat.leb_gt _ _)) by lia.
Qed.

Lemma readSegment_whole d h seg allow :
  header_ok h -> holds d h seg ->
  readSegment d seg.1 (sh_EngineID h) (sh_ShardID h) (sh_ShardCount h) true allow = Ret (inr seg.2).
Proof.
  intros Hh [Hd Hrs]. pose proof (readSegment_cut d seg.1 h seg.2 (length (segment_bytes h seg.2))
    (sh_EngineID h) true allow Hh Hrs) as H. rewrite take_ge in H by lia.
  assert (length (segment_bytes h seg.2) - length (segment_header_bytes h) = length (frames seg.2))%nat as E.
  { unfold segment_bytes. rewrite length_app. lia. }
  rewrite E, complete_all in H by lia. apply H; [done| |done|by right].
  unfold segment_bytes. rewrite length_app. lia.
Qed.

(** The last segment of a crashed writer: any prefix of what it wrote. *)
Lemma readSegment_last d h path rs k :
  header_ok h -> Forall (writable (sh_ShardID h)) rs ->
  d !! path = Some (Some (take k (segment_bytes h rs))) -> (k <= length (segment_bytes h rs))%nat ->
  readSegment d path (sh_EngineID h) (sh_ShardID h) (sh_ShardCount h) true true
  = Ret (inr (complete (k - length (segment_header_bytes h)) rs)).
Proof.
  intros Hh Hrs Hd Hk. destruct (decide (k < length (segment_header_bytes h))%nat).
  - erewrite readSegment_short by done. by replace (k - _)%nat with 0%nat by lia; rewrite complete_zero.
  - apply readSegment_cut; try done; [lia|by left].
Qed.

Lemma u16_id z : is_u16 z -> wrap_u16 z = z.
Proof. intros H. apply Z.mod_small. exact H. Qed.

Lemma readFiles_step d h seg f fs out :
  header_ok h -> holds d h seg ->
  readFiles d (sh_EngineID h) (sh_ShardID h) (sh_ShardCount h) true (seg.1 :: f :: fs) out
  = readFiles d (sh_EngineID h) (sh_ShardID h) (sh_ShardCount h) true (f :: fs) (out ++ seg.2).
Proof.
  intros Hh Hseg. cbn [readFiles]. rewrite !u16_id by apply Hh.
  by rewrite (readSegment_whole _ _ seg) by done.
Qed.

Lemma readFiles_ok d h segs path rs k out :
  header_ok h -> Forall (holds d h) segs -> Forall (writable (sh_ShardID h)) rs ->
  d !! path = Some (Some (take k (segment_bytes h rs))) -> (k <= length (segment_bytes h rs))%nat ->
  readFiles d (sh_EngineID h) (sh_ShardID h) (sh_ShardCount h) true (map fst segs ++ [path]) out
  = Ret (inr (out ++ concat (map snd segs) ++ complete (k - length (segment_header_bytes h)) rs)).
Proof.
  intros Hh Hsegs Hrs Hd Hk. revert out. induction Hsegs as [|seg segs Hseg Hsegs IH]; intros out.
  - simpl. rewrite !u16_id by apply Hh. by rewrite (readSegment_last d h path rs k) by done.
  - simpl map. simpl app. destruct (map fst segs ++ [path]) as [|f fs] eqn:E; [by destruct segs|].
    rewrite readFiles_step by done. rewrite IH. simpl. by rewrite <-!app_assoc.
Qed.

Lemma readFiles_torn d h segs path next files rs k out :
  header_ok h -> Forall (holds d h) segs -> Forall (writable (sh_ShardID h)) rs ->
  d !! path = Some (Some (take k (segment_bytes h rs))) ->
  (length (segment_header_bytes h) <= k <= length (segment_bytes h rs))%nat ->
  length (frames (complete (k - length (segment_header_bytes h)) rs))
    <> (k - length (segment_header_bytes h))%nat ->
  exists e, readFiles d (sh_EngineID h) (sh_ShardID h) (sh_ShardCount h) true
              (map fst segs ++ path :: next :: files) out = Ret (inl e).
Proof.
  intros Hh Hsegs Hrs Hd Hk Htorn. revert out. induction Hsegs as [|seg segs Hseg Hsegs IH]; intros out.
  - cbn [map app readFiles]. rewrite !u16_id by apply Hh.
    destruct (readSegment_torn d path h rs k (sh_EngineID h) true Hh Hrs Hd Hk ltac:(done) Htorn) as [e ->].
    by exists e.
  - simpl map. simpl app. destruct (map fst segs ++ path :: next :: files) as [|f fs] eqn:E; [by destruct segs|].
    rewrite readFiles_step by done. apply IH.
Qed.

(** ** Arbitrary directories *)

Definition dir_ok (d : dir) : Prop := forall name data, d !! name = Some (Some data) -> bytes_ok data.

(** A reader result: it returned, and its records are well typed. *)
Definition read_ok (r : fallible (list Record_)) : Prop :=
  exists x, r = Ret x /\ forall rs, x = inr rs -> Forall record_typed rs.

Lemma read_ok_error e : read_ok (Ret (inl e)).
Proof. by exists (inl e). Qed.

Lemma read_ok_ret rs : Forall record_typed rs -> read_ok (Ret (inr rs)).
Proof. intros H. exists (inr rs). split; [done|]. by intros ? [= ->]. Qed.

Lemma readSegment_loop_total fuel path data offset id allow acc :
  bytes_ok data -> Forall record_typed acc -> (length data - offset < fuel)%nat ->
  read_ok (readSegment_loop fuel path data offset id allow acc).
Proof.
  intros Hd. revert offset acc. induction fuel as [|fuel IH]; intros offset acc Hacc Hf; [lia|].
  cbn [readSegment_loop]. destruct (Nat.ltb_spec offset (length data)); [|by apply read_ok_ret].
  destruct (DecodeRecord_total (drop offset data)) as (r & -> & Hr); [by apply Forall_drop|].
  cbn [obind]. destruct r as [e|[rec n]].
  - case_match; [by apply read_ok_ret|apply read_ok_error].
  - destruct Hr as [Ht Hn]. case_match; [apply read_ok_error|]. apply IH.
    + apply Forall_app. split; [done|]. by constructor.
    + rewrite length_drop in Hn. lia.
Qed.

Lemma readSegment_total d path eng id cnt validate allow :
  dir_ok d -> read_ok (readSegment d path eng id cnt validate allow).
Proof.
  intros Hd. unfold readSegment, ReadFile.
  destruct (d !! path) as [[data|]|] eqn:E; try apply read_ok_error.
  destruct (DecodeSegmentHeader data) as [e|[h off]].
  - case_match; [by apply read_ok_ret|apply read_ok_error].
  - repeat (case_match; [apply read_ok_error|]). apply readSegment_loop_total; [by eapply Hd|done|lia].
Qed.

Lemma readFiles_total d eng id cnt validate files out :
  dir_ok d -> Forall record_typed out -> read_ok (readFiles d eng id cnt validate files out).
Proof.
  intros Hd. revert out. induction files as [|path files IH]; intros out Hout; [by apply read_ok_ret|].
  cbn [readFiles].
  destruct (readSegment_total d path eng (wrap_u16 id) (wrap_u16 cnt) validate
              (match files with [] => true | _ => false end) Hd) as (x & -> & Hx).
  cbn [obind]. destruct x as [e|rs]; [apply read_ok_error|]. apply IH. apply Forall_app. auto.
Qed.

Lemma ReadShardRecordsForEngine_total d eng id cnt :
  dir_ok d -> read_ok (ReadShardRecordsForEngine d eng id cnt).
Proof. intros Hd. by apply readFiles_total. Qed.
