(* ===== verification/JournalProps.v ===== *)
(** * JournalProps: the properties of the write-ahead log format and its reader *)

From S2P Require Import Prelude Model Bytes Codec CodecFacts Fs Reader.

(** ** Sample data *)

Definition sample_record (seq : Z) : Record_ :=
  mkRecord 3 seq (mkCommand seq "AAPL" CommandNew 7 SideBuy OrderTypeLimit TIFGTC 100 (-5) 0 0)
    (mkResult seq [ev_accepted 7; ev_trade 99 1 7 100 5; ev_replaced 7 100 2 true]).

Lemma sample_typed seq : is_u64 seq -> record_typed (sample_record seq).
Proof.
  intros H. constructor; simpl; try in_range.
  repeat (apply Forall_cons_2; [constructor; simpl; in_range|]). apply Forall_nil_2.
Qed.

Lemma sample_fits seq : record_fits (sample_record seq).
Proof. split; vm_compute; discriminate. Qed.

Definition sample_header : SegmentHeader := mkSegmentHeader "engine-1" 3 4.

Lemma sample_header_ok : header_ok sample_header.
Proof. split; vm_compute; [discriminate|split; [discriminate|reflexivity]..]. Qed.

Lemma sample_writable seq : is_u64 seq -> writable 3 (sample_record seq).
Proof. intros H. split; [by apply sample_typed|apply sample_fits|done]. Qed.

(** ** Records *)

(** C18. Encode/decode round trip.  Every well-typed record that fits the length
    fields is encoded without a panic, whatever stale bytes the reused buffer
    holds; the slice grows by one frame, and decoding that frame, followed by any
    other bytes, gives the record back and the length of the frame. *)
Theorem record_roundtrip grown dst r rest :
  record_typed r -> record_fits r -> bytes_ok rest ->
  exists frame spare,
    appendEncodedRecord grown dst r = Ret (mkSlice (sl_bytes dst ++ frame) spare, None) /\
    DecodeRecord (frame ++ rest) = Ret (inr (r, length frame)).
Proof.
  intros Ht Hf Hr. destruct (appendEncodedRecord_ok grown dst r Hf) as [spare E].
  exists (frame_bytes r), spare. split; [done|]. by apply decode_frame.
Qed.

Lemma record_roundtrip_witness :
  exists frame spare,
    appendEncodedRecord [] (mkSlice [1; 2] (replicate 400 255)) (sample_record 9)
      = Ret (mkSlice ([1; 2] ++ frame) spare, None) /\
    DecodeRecord (frame ++ [0; 7]) = Ret (inr (sample_record 9, length frame)).
Proof.
  apply (record_roundtrip [] (mkSlice [1; 2] (replicate 400 255)) (sample_record 9) [0; 7]).
  - by apply sample_typed.
  - apply sample_fits.
  - repeat constructor; done.
Defined.

(** Torn writes are recognised.  Every strict prefix of an encoded record, cut
    at any byte, decodes to the error the reader takes for an incomplete tail. *)
Theorem truncated_record_is_incomplete grown r k :
  record_typed r -> record_fits r ->
  exists frame spare, EncodeRecord grown r = Ret (mkSlice frame spare, None) /\
    ((k < length frame)%nat -> DecodeRecord (take k frame) = Ret (inl ErrUnexpectedEOF)).
Proof.
  intros Ht Hf. destruct (appendEncodedRecord_ok grown (mkSlice [] []) r Hf) as [spare E].
  exists (frame_bytes r), spare. split; [exact E|]. intros Hk. by apply decode_truncated.
Qed.

Lemma truncated_record_is_incomplete_witness :
  exists frame spare, EncodeRecord [] (sample_record 9) = Ret (mkSlice frame spare, None) /\
    ((100 < length frame)%nat -> DecodeRecord (take 100 frame) = Ret (inl ErrUnexpectedEOF)).
Proof.
  apply (truncated_record_is_incomplete [] (sample_record 9) 100); [by apply sample_typed|apply sample_fits].
Defined.

(** C20. Corruption is detected.  Changing any one byte of an encoded record outside
    its length field (magic, version, type, reserved bytes, shard, sequence,
    payload or checksum) to any other value makes decoding fail, whatever follows. *)
Theorem corrupted_record_is_refused grown r :
  record_typed r -> record_fits r ->
  exists frame spare, EncodeRecord grown r = Ret (mkSlice frame spare, None) /\
    forall i b b' rest, frame !! i = Some b -> (i < 8 \/ 12 <= i)%nat -> is_u8 b' -> b' <> b -> bytes_ok rest ->
      exists e, DecodeRecord (<[i := b']> (frame ++ rest)) = Ret (inl e).
Proof.
  intros Ht Hf. destruct (appendEncodedRecord_ok grown (mkSlice [] []) r Hf) as [spare E].
  exists (frame_bytes r), spare. split; [exact E|]. intros i b b' rest Hl Hi Hb Hne Hr. by eapply decode_corrupted.
Qed.

(** The order type in the sample is 1; with 0 in its place the record is refused. *)
Lemma corrupted_record_is_refused_witness :
  exists frame spare, EncodeRecord [] (sample_record 9) = Ret (mkSlice frame spare, None) /\
    frame !! 40%nat = Some 1 /\ exists e, DecodeRecord (<[40%nat := 0]> frame) = Ret (inl e).
Proof.
  destruct (corrupted_record_is_refused [] (sample_record 9)) as (frame & spare & E & Hbad);
    [by apply sample_typed|apply sample_fits|].
  assert (frame !! 40%nat = Some 1) as H40.
  { vm_compute in E. injection E as <- _. reflexivity. }
  exists frame, spare. split; [exact E|]. split; [exact H40|]. clear E.
  specialize (Hbad 40%nat 1 0 [] H40 ltac:(right; lia) ltac:(done) ltac:(done) (Forall_nil_2 _)).
  rewrite app_nil_r in Hbad. exact Hbad.
Defined.

(** Zero bytes where a record should begin, as a file system can leave them that extends a
    file before it writes the data, are no incomplete tail: the reader stops with an error.
    (The disk of Disk leaves a beginning of what was written.) *)
Lemma zero_tail_is_refused n rest :
  (24 <= n)%nat -> DecodeRecord (replicate n 0 ++ rest) = Ret (inl (Errorf "invalid record magic" [])).
Proof. intros Hn. replace n with (24 + (n - 24))%nat by lia. reflexivity. Qed.

(** C34. The decoder is total.  On arbitrary bytes [DecodeRecord] returns: it never
    indexes or slices out of range.  A record it returns is well typed, carries
    its sequence number in the command too, and accounts for at least 28 bytes,
    so reading a segment makes progress. *)
Theorem decoder_never_panics data :
  bytes_ok data ->
  exists r, DecodeRecord data = Ret r /\
    match r with
    | inl _ => True
    | inr (rec, n) => record_typed rec /\ (28 <= n <= length data)%nat
    end.
Proof. apply DecodeRecord_total. Qed.

(** On garbage it reports an error, on a frame of 28 bytes or more it gives a record. *)
Lemma decoder_never_panics_witness :
  (exists e, DecodeRecord (replicate 60 255) = Ret (inl e)) /\
  exists rec n, DecodeRecord (frame_bytes (sample_record 9)) = Ret (inr (rec, n)) /\ record_typed rec /\
    (28 <= n <= length (frame_bytes (sample_record 9)))%nat.
Proof.
  split.
  - destruct (decoder_never_panics (replicate 60 255)) as ([e|[rec n]] & E & _); [by apply Forall_replicate|by exists e|].
    vm_compute in E. discriminate E.
  - destruct (decoder_never_panics (frame_bytes (sample_record 9))) as ([e|[rec n]] & E & H); [apply frame_bytes_ok| |].
    + vm_compute in E. discriminate E.
    + exists rec, n. split; [exact E|exact H].
Defined.

(** ** Segments *)

(** C19. Reading after a crash.  If the files of a shard are complete segments and a
    last one that was cut anywhere (inside its header, inside a record, at a
    record boundary or not at all), [ReadShardRecordsForEngine] returns, in order,
    all records of the complete segments and exactly the complete records of the
    last one. *)
Theorem wal_read_after_crash d h segs path rs k :
  header_ok h -> Forall (holds d h) segs -> Forall (writable (sh_ShardID h)) rs ->
  glob_sorted d (shard_prefix (sh_ShardID h)) ".wal" = map fst segs ++ [path] ->
  d !! path = Some (Some (take k (segment_bytes h rs))) -> (k <= length (segment_bytes h rs))%nat ->
  ReadShardRecordsForEngine d (sh_EngineID h) (sh_ShardID h) (sh_ShardCount h)
  = Ret (inr (concat (map snd segs) ++ complete (k - length (segment_header_bytes h)) rs)).
Proof.
  intros Hh Hsegs Hrs Hg Hd Hk. unfold ReadShardRecordsForEngine, readShardRecords. rewrite Hg.
  by apply (readFiles_ok d h segs path rs k []).
Qed.

Definition seg_a : string := "shard-03-000000.wal".
Definition seg_b : string := "shard-03-000001.wal".

(** A complete segment and one cut inside its second record. *)
Definition crashed_dir : dir :=
  {[ seg_a := Some (segment_bytes sample_header [sample_record 1]);
     seg_b := Some (take 300 (segment_bytes sample_header [sample_record 2; sample_record 3])) ]}.

Lemma crashed_dir_files : glob_sorted crashed_dir (shard_prefix 3) ".wal" = [seg_a; seg_b].
Proof. vm_compute. reflexivity. Qed.

Lemma holds_seg_a : holds crashed_dir sample_header (seg_a, [sample_record 1]).
Proof.
  split; [vm_compute; reflexivity|]. constructor; [by apply sample_writable|constructor].
Qed.

Lemma sample_writables seqs :
  Forall is_u64 seqs -> Forall (writable 3) (map sample_record seqs).
Proof. induction 1; simpl; constructor; auto using sample_writable. Qed.

Lemma wal_read_after_crash_witness :
  ReadShardRecordsForEngine crashed_dir "engine-1" 3 4
  = Ret (inr ([sample_record 1]
              ++ complete (300 - length (segment_header_bytes sample_header))
                   [sample_record 2; sample_record 3])).
Proof.
  apply (wal_read_after_crash crashed_dir sample_header [(seg_a, [sample_record 1])] seg_b
           [sample_record 2; sample_record 3] 300).
  - apply sample_header_ok.
  - constructor; [apply holds_seg_a|constructor].
  - apply (sample_writables [2; 3]). repeat constructor; done.
  - apply crashed_dir_files.
  - vm_compute. reflexivity.
  - vm_compute. lia.
Defined.

(** C37. A torn tail is only tolerated in the last segment: as soon as another
    segment follows the one that was cut inside a record (which is what a restart
    creates), reading the shard fails. *)
Theorem torn_segment_blocks_reading d h segs path next files rs k :
  header_ok h -> Forall (holds d h) segs -> Forall (writable (sh_ShardID h)) rs ->
  glob_sorted d (shard_prefix (sh_ShardID h)) ".wal" = map fst segs ++ path :: next :: files ->
  d !! path = Some (Some (take k (segment_bytes h rs))) ->
  (length (segment_header_bytes h) <= k <= length (segment_bytes h rs))%nat ->
  length (frames (complete (k - length (segment_header_bytes h)) rs))
    <> (k - length (segment_header_bytes h))%nat ->
  exists e, ReadShardRecordsForEngine d (sh_EngineID h) (sh_ShardID h) (sh_ShardCount h) = Ret (inl e).
Proof.
  intros Hh Hsegs Hrs Hg Hd Hk Ht. unfold ReadShardRecordsForEngine, readShardRecords. rewrite Hg.
  by apply (readFiles_torn d h segs path next files rs k []).
Qed.

(** The crashed directory after a restart that opened a third segment. *)
Definition restarted_dir : dir :=
  <["shard-03-000002.wal" := Some (segment_bytes sample_header [])]> crashed_dir.

Lemma torn_segment_blocks_reading_witness :
  exists e, ReadShardRecordsForEngine restarted_dir "engine-1" 3 4 = Ret (inl e).
Proof.
  apply (torn_segment_blocks_reading restarted_dir sample_header [(seg_a, [sample_record 1])] seg_b
           "shard-03-000002.wal" [] [sample_record 2; sample_record 3] 300).
  - apply sample_header_ok.
  - constructor; [|constructor]. split; [vm_compute; reflexivity|].
    constructor; [by apply sample_writable|constructor].
  - apply (sample_writables [2; 3]). repeat constructor; done.
  - vm_compute. reflexivity.
  - vm_compute. reflexivity.
  - vm_compute. lia.
  - vm_compute. discriminate.
Defined.
