(* ===== verification/Registry.v ===== *)
(** * Registry: configuration and symbol routing (internal/config/config.go,
    internal/shard/registry.go) *)

From S2P Require Import Prelude Bytes Fs.

(** ** Configuration *)

Record Config := mkConfig {
  cfg_EngineID : string;
  cfg_Symbols : list string;
  cfg_ShardCount : Z;
  cfg_IngressQueueSize : Z;
  cfg_ShardQueueSize : Z;
  cfg_WALDir : string;
  cfg_SnapshotDir : string;
  cfg_MaxBatchCommands : Z;
  cfg_MaxBatchBytes : Z;
  cfg_MaxBatchDelayMicros : Z;
  cfg_EnableMetrics : bool;
  cfg_MetricsReportMillis : Z
}.

(** The loop over the symbols, with the set of the ones seen. *)
Fixpoint validateSymbols (seen : gset string) (symbols : list string) : option error :=
  match symbols with
  | [] => None
  | s :: symbols' =>
      if String.eqb s "" then Some (Errorf "symbols cannot contain empty values" [])
      else if bool_decide (s ∈ seen) then Some (Errorf "duplicate symbol: %s" [AStr s])
      else validateSymbols ({[ s ]} ∪ seen) symbols'
  end.

Definition Config_Validate (c : Config) : option error :=
  if String.eqb (cfg_EngineID c) "" then Some (Errorf "engine_id is required" [])
  else if (length (cfg_Symbols c) =? 0)%nat then Some (Errorf "at least one symbol is required" [])
  else if cfg_ShardCount c <=? 0 then Some (Errorf "shard_count must be positive" [])
  else if (cfg_IngressQueueSize c <=? 0) || (cfg_ShardQueueSize c <=? 0)
  then Some (Errorf "queue sizes must be positive" [])
  else if (cfg_MaxBatchCommands c <=? 0) || (cfg_MaxBatchBytes c <=? 0)
          || (cfg_MaxBatchDelayMicros c <=? 0)
  then Some (Errorf "batch thresholds must be positive" [])
  else if String.eqb (cfg_WALDir c) "" || String.eqb (cfg_SnapshotDir c) ""
  then Some (Errorf "wal_dir and snapshot_dir are required" [])
  else if cfg_MetricsReportMillis c <? 0
  then Some (Errorf "metrics_report_millis cannot be negative" [])
  else validateSymbols ∅ (cfg_Symbols c).

(** [Load]: [decode] stands for the JSON decoder with unknown fields disallowed. *)
Definition Config_Load (decode : list Z -> error + Config) (d : dir) (path : string)
  : error + Config :=
  match ReadFile d path with
  | inl err => inl err
  | inr data =>
      match decode data with
      | inl err => inl err
      | inr cfg =>
          match Config_Validate cfg with
          | Some err => inl err
          | None => inr cfg
          end
      end
  end.

(** ** Routing *)

(** [fnv.New32a]. *)
Definition fnv_step (h b : Z) : Z := wrap_u32 (Z.lxor h b * 16777619).
Definition fnv32a (l : list Z) : Z := fold_left fnv_step l 2166136261.

(** [h.Sum32() % uint32(shardCount)]: the division panics when [uint32(shardCount)] is 0. *)
Definition stableShardID (symbol : string) (shardCount : Z) : outcome Z :=
  if wrap_u32 shardCount =? 0 then Panic
  else Ret (fnv32a (bytes_of_string symbol) mod wrap_u32 shardCount).

Record SymbolRegistry := mkSymbolRegistry {
  reg_shardCount : Z;
  reg_bySymbol : gmap string Z;
  reg_symbolsByShard : gmap Z (list string)
}.

Fixpoint register (symbols : list string) (registry : SymbolRegistry) : fallible SymbolRegistry :=
  match symbols with
  | [] => Ret (inr registry)
  | symbol :: symbols' =>
      if String.eqb symbol "" then Ret (inl (Errorf "symbol cannot be empty" []))
      else match reg_bySymbol registry !! symbol with
      | Some _ => Ret (inl (Errorf "duplicate symbol: %s" [AStr symbol]))
      | None =>
          let? shardID := stableShardID symbol (reg_shardCount registry) in
          register symbols'
            (mkSymbolRegistry (reg_shardCount registry)
               (<[symbol := shardID]> (reg_bySymbol registry))
               (<[shardID := default [] (reg_symbolsByShard registry !! shardID) ++ [symbol]]>
                  (reg_symbolsByShard registry)))
      end
  end.

Definition NewSymbolRegistry (symbols : list string) (shardCount : Z) : fallible SymbolRegistry :=
  if shardCount <=? 0 then Ret (inl (Errorf "shard count must be positive" []))
  else if (length symbols =? 0)%nat then Ret (inl (Errorf "symbols cannot be empty" []))
  else register symbols (mkSymbolRegistry shardCount ∅ ∅).

Definition ShardFor (r : SymbolRegistry) (symbol : string) : option Z := reg_bySymbol r !! symbol.
Definition ShardCount (r : SymbolRegistry) : Z := reg_shardCount r.
Definition SymbolsForShard (r : SymbolRegistry) (shardID : Z) : list string :=
  default [] (reg_symbolsByShard r !! shardID).

(** ** What a registry holds *)

Definition shard_of (count : Z) (symbol : string) : Z := fnv32a (bytes_of_string symbol) mod count.

Record registry_ok (count : Z) (symbols : list string) (r : SymbolRegistry) : Prop := {
  ro_count : reg_shardCount r = count;
  ro_for : forall s, ShardFor r s = if bool_decide (s ∈ symbols) then Some (shard_of count s) else None;
  ro_shards : forall id, SymbolsForShard r id = filter (fun s => shard_of count s = id) symbols
}.

Definition small_count (count : Z) : Prop := 0 < count < 4294967296.

Lemma stableShardID_ok count s : small_count count -> stableShardID s count = Ret (shard_of count s).
Proof.
  intros H. unfold stableShardID, shard_of, wrap_u32. unfold small_count in H.
  rewrite Z.mod_small by lia. by rewrite (proj2 (Z.eqb_neq count 0)) by lia.
Qed.

Lemma shard_of_range count s : small_count count -> 0 <= shard_of count s < count.
Proof. intros []. unfold shard_of. apply Z.mod_pos_bound. lia. Qed.

Lemma registry_ok_empty count : registry_ok count [] (mkSymbolRegistry count ∅ ∅).
Proof.
  split; [done|..].
  - intros s. rewrite bool_decide_eq_false_2 by apply not_elem_of_nil. apply lookup_empty.
  - intros id. unfold SymbolsForShard. simpl. by rewrite lookup_empty.
Qed.

Lemma registry_ok_add count symbols r s :
  small_count count -> registry_ok count symbols r ->
  registry_ok count (symbols ++ [s])
    (mkSymbolRegistry (reg_shardCount r) (<[s := shard_of count s]> (reg_bySymbol r))
       (<[shard_of count s := default [] (reg_symbolsByShard r !! shard_of count s) ++ [s]]>
          (reg_symbolsByShard r))).
Proof.
  intros Hc [H1 H2 H3]. split; simpl; [done|..].
  - intros s'. unfold ShardFor in *. simpl. destruct (decide (s' = s)) as [->|Hne].
    + rewrite lookup_insert_eq, bool_decide_eq_true_2; [done|]. apply elem_of_app. right. left.
    + rewrite lookup_insert_ne, H2 by done.
      assert (s' ∈ symbols <-> s' ∈ symbols ++ [s]) as Hiff.
      { rewrite elem_of_app, list_elem_of_singleton. tauto. }
      by rewrite (bool_decide_ext _ _ Hiff).
  - intros id. unfold SymbolsForShard in *. simpl. rewrite filter_app.
    destruct (decide (shard_of count s = id)) as [<-|Hne].
    + rewrite lookup_insert_eq. simpl. rewrite H3. by rewrite filter_cons_True.
    + rewrite lookup_insert_ne, H3 by done. rewrite filter_cons_False by done. by rewrite app_nil_r.
Qed.

(** A list of symbols the registry takes: none empty, none twice. *)
Definition symbols_ok (symbols : list string) : Prop :=
  NoDup symbols /\ Forall (fun s => s <> ""%string) symbols.

#[export] Instance symbols_ok_dec symbols : Decision (symbols_ok symbols).
Proof. unfold symbols_ok. apply _. Defined.

Lemma register_ok count symbols done r :
  small_count count -> registry_ok count done r -> symbols_ok (done ++ symbols) ->
  exists r', register symbols r = Ret (inr r') /\ registry_ok count (done ++ symbols) r'.
Proof.
  intros Hc. revert done r. induction symbols as [|s symbols IH]; intros done r Hr [Hnd Hne].
  { exists r. by rewrite app_nil_r. }
  apply Forall_app in Hne as [Hne1 Hne2]. apply Forall_cons in Hne2 as [Hs Hne2]. simpl.
  rewrite (proj2 (String.eqb_neq _ _) Hs).
  pose proof (ro_for _ _ _ Hr s) as Hf. unfold ShardFor in Hf.
  rewrite bool_decide_eq_false_2 in Hf.
  2:{ intros Hin. apply NoDup_app in Hnd as (_ & Hd & _). apply (Hd _ Hin). left. }
  rewrite Hf, (ro_count _ _ _ Hr), stableShardID_ok by done. simpl.
  destruct (IH (done ++ [s]) _ (registry_ok_add _ _ _ s Hc Hr)) as (r' & Hrun & Hr').
  { rewrite <-app_assoc. split; [done|]. apply Forall_app. split; [done|]. by constructor. }
  exists r'. rewrite (ro_count _ _ _ Hr) in Hrun. rewrite <-app_assoc in Hr'. done.
Qed.

Lemma register_bad count symbols done r :
  small_count count -> registry_ok count done r -> symbols_ok done -> ~ symbols_ok (done ++ symbols) ->
  exists e, register symbols r = Ret (inl e).
Proof.
  intros Hc. revert done r. induction symbols as [|s symbols IH]; intros done r Hr Hok Hbad.
  { by rewrite app_nil_r in Hbad. }
  simpl. destruct (String.eqb_spec s "") as [->|Hs]; [by eexists|].
  pose proof (ro_for _ _ _ Hr s) as Hf. unfold ShardFor in Hf. case_bool_decide as Hin.
  { rewrite Hf. by eexists. }
  rewrite Hf, (ro_count _ _ _ Hr), stableShardID_ok by done. simpl.
  pose proof (registry_ok_add _ _ _ s Hc Hr) as Hr'. rewrite (ro_count _ _ _ Hr) in Hr'.
  apply (IH (done ++ [s])); [done|..].
  - destruct Hok as [Hnd Hne]. split.
    + apply NoDup_app. split_and!; [done| |apply NoDup_singleton].
      intros x Hx ->%list_elem_of_singleton. done.
    + apply Forall_app. split; [done|]. by constructor.
  - by rewrite <-app_assoc.
Qed.

Lemma NewSymbolRegistry_ok symbols count :
  small_count count -> symbols <> [] -> symbols_ok symbols ->
  exists r, NewSymbolRegistry symbols count = Ret (inr r) /\ registry_ok count symbols r.
Proof.
  intros Hc Hne Hok. unfold NewSymbolRegistry. pose proof Hc as [H1 _].
  rewrite (proj2 (Z.leb_gt count 0)) by lia. rewrite (proj2 (Nat.eqb_neq _ _)) by (by destruct symbols).
  apply (register_ok count symbols []); [done|apply registry_ok_empty|done].
Qed.

Lemma NewSymbolRegistry_error symbols count :
  small_count count -> symbols = [] \/ ~ symbols_ok symbols ->
  exists e, NewSymbolRegistry symbols count = Ret (inl e).
Proof.
  intros Hc Hbad. unfold NewSymbolRegistry. pose proof Hc as [H1 _].
  rewrite (proj2 (Z.leb_gt count 0)) by lia. destruct (length symbols =? 0)%nat eqn:E; [by eexists|].
  destruct Hbad as [->|Hbad]; [done|].
  apply (register_bad count symbols []); [done|apply registry_ok_empty| |done]. split; constructor.
Qed.

Lemma NewSymbolRegistry_built symbols count r :
  small_count count -> NewSymbolRegistry symbols count = Ret (inr r) -> registry_ok count symbols r.
Proof.
  intros Hc Hr. destruct (decide (symbols = [])) as [->|Hne].
  { destruct (NewSymbolRegistry_error [] count Hc) as [e He]; [by left|congruence]. }
  destruct (decide (symbols_ok symbols)) as [Hok|Hbad].
  - destruct (NewSymbolRegistry_ok _ _ Hc Hne Hok) as (r' & Hr' & H). congruence.
  - destruct (NewSymbolRegistry_error symbols count Hc) as [e He]; [by right|congruence].
Qed.

(** ** What validation accepts *)

Lemma validateSymbols_ok seen symbols :
  validateSymbols seen symbols = None <->
  symbols_ok symbols /\ Forall (fun s => s ∉ seen) symbols.
Proof.
  unfold symbols_ok. revert seen. induction symbols as [|s symbols IH]; intros seen; simpl.
  { split; [intros _|done]. split_and!; constructor. }
  destruct (String.eqb_spec s "") as [->|Hs].
  { split; [done|]. intros [[_ H] _]. by apply Forall_cons in H as [H _]. }
  case_bool_decide as Hin.
  { split; [done|]. intros [_ H]. by apply Forall_cons in H as [H _]. }
  rewrite IH, NoDup_cons, !Forall_cons, !Forall_forall. split.
  - intros [[H1 H2] H3]. split_and!; try done.
    + intros Hi. apply (H3 s Hi). set_solver.
    + intros x Hx. specialize (H3 x Hx). set_solver.
  - intros [[[H1 H2] [_ H3]] [_ H4]]. split_and!; try done. intros x Hx.
    specialize (H4 x Hx). assert (x <> s) by (by intros ->). set_solver.
Qed.

Lemma Config_Validate_symbols c :
  Config_Validate c = None -> 0 < cfg_ShardCount c /\ cfg_Symbols c <> [] /\ symbols_ok (cfg_Symbols c).
Proof.
  unfold Config_Validate. intros H. repeat (case_match; [done|]).
  split_and!; [lia|by destruct (cfg_Symbols c)|]. by apply validateSymbols_ok in H as [H _].
Qed.

(** ** Properties *)

(** C33. Routing is total, stable and partitions the symbols.  For a positive shard
    count below 2^32 and distinct non-empty symbols the registry is built; a
    registered symbol has the shard its FNV-1a hash gives (a number that depends
    on the symbol and the count only), within range, an unregistered one has
    none, and the symbols of a shard are exactly the registered symbols routed to
    it, in order.  Any other list of symbols is refused with an error. *)
Theorem registry_routes symbols count :
  0 < count < 4294967296 ->
  (symbols <> [] /\ symbols_ok symbols ->
     exists r, NewSymbolRegistry symbols count = Ret (inr r) /\
       (forall s, ShardFor r s = if bool_decide (s ∈ symbols) then Some (shard_of count s) else None) /\
       (forall s, 0 <= shard_of count s < count) /\
       (forall id, SymbolsForShard r id = filter (fun s => shard_of count s = id) symbols)) /\
  (symbols = [] \/ ~ symbols_ok symbols -> exists e, NewSymbolRegistry symbols count = Ret (inl e)).
Proof.
  intros Hc. split.
  - intros [Hne Hok]. destruct (NewSymbolRegistry_ok symbols count Hc Hne Hok) as (r & Hr & [H1 H2 H3]).
    exists r. split_and!; [done|done|intros s; by apply shard_of_range|done].
  - by apply NewSymbolRegistry_error.
Qed.

Definition sample_symbols : list string := ["AAPL"; "MSFT"; "GOOG"]%string.

Lemma registry_routes_witness :
  exists r, NewSymbolRegistry sample_symbols 4 = Ret (inr r) /\
    ShardFor r "MSFT" = Some (shard_of 4 "MSFT") /\ ShardFor r "TSLA" = None.
Proof.
  destruct (proj1 (registry_routes sample_symbols 4 ltac:(lia))) as (r & Hr & Hf & _).
  - split; [discriminate|]. split.
    + apply (bool_decide_unpack _). vm_compute. reflexivity.
    + repeat constructor; discriminate.
  - exists r. split; [exact Hr|]. split; rewrite Hf; vm_compute; reflexivity.
Defined.

(** A configuration that passes validation can be routed: with fewer than 2^32
    shards the registry is always built from its symbols. *)
Theorem valid_config_builds_registry decode d path cfg :
  Config_Load decode d path = inr cfg -> cfg_ShardCount cfg < 4294967296 ->
  exists r, NewSymbolRegistry (cfg_Symbols cfg) (cfg_ShardCount cfg) = Ret (inr r) /\
    forall s, s ∈ cfg_Symbols cfg -> exists id, ShardFor r s = Some id /\ 0 <= id < cfg_ShardCount cfg.
Proof.
  unfold Config_Load. intros H Hlt. repeat (case_match; try done). simplify_eq.
  match goal with H : Config_Validate _ = None |- _ =>
    destruct (Config_Validate_symbols _ H) as (Hc & Hne & Hok) end.
  destruct (NewSymbolRegistry_ok _ (cfg_ShardCount cfg) ltac:(done) Hne Hok) as (r & Hr & [_ Hfor _]).
  exists r. split; [done|]. intros s Hs. exists (shard_of (cfg_ShardCount cfg) s).
  rewrite Hfor, bool_decide_eq_true_2 by done. split; [done|]. by apply shard_of_range.
Qed.

Definition sample_config : Config :=
  mkConfig "engine-1" sample_symbols 4 1024 512 "wal" "snap" 128 65536 100 false 0.

Lemma valid_config_builds_registry_witness :
  exists r, NewSymbolRegistry sample_symbols 4 = Ret (inr r) /\
    forall s, s ∈ sample_symbols -> exists id, ShardFor r s = Some id /\ 0 <= id < 4.
Proof.
  apply (valid_config_builds_registry (fun _ => inr sample_config) {[ "c"%string := Some [] ]} "c" sample_config);
    [vm_compute; reflexivity|vm_compute; reflexivity].
Defined.

(** Shard counts are reduced to 32 bits before the division: a configuration
    with 2^32 shards passes validation, and building its registry divides by
    zero. *)
Theorem huge_shard_count_panics :
  exists cfg, Config_Validate cfg = None /\ cfg_ShardCount cfg = 4294967296 /\
    NewSymbolRegistry (cfg_Symbols cfg) (cfg_ShardCount cfg) = Panic.
Proof.
  exists (mkConfig "engine-1" sample_symbols 4294967296 1024 512 "wal" "snap" 128 65536 100 false 0).
  split_and!; vm_compute; reflexivity.
Qed.
