(* ===== verification/Recovery.v ===== *)
(** * Recovery: rebuilding the books from a snapshot and the log
    (internal/recovery/recovery.go, [recoverBooks] and [nextSequence] of
    internal/shard/engine.go)

    Recovery is written against the interface of a replayed book, a Go interface
    in the source and the class [ReplayedBook] here; [ReplayLaws] states what its
    implementations promise, and the order book discharges it. *)

From S2P Require Import Prelude Model Book BookSpec BookRep BookApply BookWalk.
From S2P Require Import Bytes Codec CodecFacts Fs Reader Registry.

(** ** Snapshots of an engine (type of internal/snapshot/snapshot.go) *)

Record EngineSnapshot := mkEngineSnapshot {
  es_EngineID : string;
  es_ShardCount : Z;
  es_LastAppliedByShard : list Z;
  es_Books : list Snapshot
}.

(** ** Comparing results *)

Definition equal_event (ae be : Event) : bool :=
  negb (negb (ev_Type ae =? ev_Type be) || negb (ev_Reason ae =? ev_Reason be)
        || negb (ev_OrderID ae =? ev_OrderID be)
        || negb (ev_MakerOrderID ae =? ev_MakerOrderID be)
        || negb (ev_TakerOrderID ae =? ev_TakerOrderID be)
        || negb (ev_TradeID ae =? ev_TradeID be) || negb (ev_Price ae =? ev_Price be)
        || negb (ev_Quantity ae =? ev_Quantity be) || negb (ev_LeavesQty ae =? ev_LeavesQty be)
        || negb (ev_CanceledQty ae =? ev_CanceledQty be)
        || negb (ev_CancelReason ae =? ev_CancelReason be)
        || negb (Bool.eqb (ev_PriorityRetained ae) (ev_PriorityRetained be))).

Fixpoint equal_events (a b : list Event) : bool :=
  match a, b with
  | ae :: a', be :: b' => if equal_event ae be then equal_events a' b' else false
  | _, _ => true
  end.

Definition EqualResults (a b : Result) : bool :=
  if negb (res_CommandSeq a =? res_CommandSeq b) then false
  else if negb (length (res_Events a) =? length (res_Events b))%nat then false
  else equal_events (res_Events a) (res_Events b).

Lemma equal_event_eq a b : equal_event a b = true <-> a = b.
Proof.
  unfold equal_event. rewrite negb_true_iff, !orb_false_iff, !negb_false_iff, !Z.eqb_eq, eqb_true_iff.
  destruct a, b; simpl. split; [intros; destruct_and!; by subst|by intros [= ]; subst].
Qed.

Lemma EqualResults_eq a b : EqualResults a b = true <-> a = b.
Proof.
  destruct a as [sa ea], b as [sb eb]. unfold EqualResults. simpl.
  destruct (sa =? sb) eqn:Es; simpl; [|split; [done|intros [= -> ->]; lia]].
  apply Z.eqb_eq in Es as ->. transitivity (ea = eb); [|split; [by intros ->|by intros [= ->]]].
  revert eb. induction ea as [|a ea IH]; intros [|b eb]; simpl; try done.
  specialize (IH eb). destruct (length ea =? length eb)%nat eqn:El; simpl in *.
  - destruct (equal_event a b) eqn:Ee.
    + apply equal_event_eq in Ee as ->. rewrite IH. split; [by intros ->|by intros [= ->]].
    + split; [done|]. intros [= -> ->]. by rewrite (proj2 (equal_event_eq b b)) in Ee.
  - split; [done|]. intros [= -> ->]. by rewrite Nat.eqb_refl in El.
Qed.

(** ** The interface of a replayed book *)

Class ReplayedBook (B : Type) := {
  rb_Apply : Command -> B -> outcome (Result * B)
}.

(** An implementation answers commands as the reference semantics does. *)
Class ReplayLaws (B : Type) `{ReplayedBook B} (factory : Snapshot -> outcome B) := {
  rb_state : B -> Snapshot -> Prop;
  rb_make : forall s, book_ok s -> exists b, factory s = Ret b /\ rb_state b s;
  rb_step : forall b s cmd, rb_state b s -> book_ok s -> command_typed cmd ->
    exists b', rb_Apply cmd b = Ret ((spec_Apply cmd s).1, b') /\ rb_state b' (spec_Apply cmd s).2
}.

#[export] Instance Book_replayed : ReplayedBook Book := {| rb_Apply := Apply |}.

#[export] Instance Book_laws : ReplayLaws Book NewFromSnapshot := {|
  rb_state := repr;
  rb_make := fun s Hok => NewFromSnapshot_repr s (bo_core s Hok);
  rb_step := fun b s cmd Hr Hok Ht => Apply_repr cmd b s Ht Hr Hok
|}.

(** ** RecoverFromSnapshotAndWAL *)

Record RecoverResult := mkRecoverResult {
  rr_SnapshotPath : string;
  rr_LastSeqByShard : list Z
}.

Section RecoverFromSnapshotAndWAL.
Context {B : Type} `{ReplayedBook B} (factory : Snapshot -> outcome B).

(** The loop over the records of a shard. *)
Fixpoint replayRecords (records : list Record_) (lastSeq : Z) (books : gmap string B)
  : fallible (Z * gmap string B) :=
  match records with
  | [] => Ret (inr (lastSeq, books))
  | rec :: records' =>
      if rec_CommandSeq rec <=? lastSeq then replayRecords records' lastSeq books
      else
        let symbol := cmd_Symbol (rec_Command rec) in
        let? found := (match books !! symbol with
                       | Some b => Ret (b, books)
                       | None =>
                           let? b := factory (mkSnapshot symbol 0 [] []) in
                           Ret (b, <[symbol := b]> books)
                       end) in
        let '(bookForSymbol, books1) := found in
        let? applied := rb_Apply (rec_Command rec) bookForSymbol in
        let '(computed, b') := applied in
        if negb (EqualResults computed (rec_Result rec))
        then Ret (inl (Errorf "replay mismatch on seq %d" [ANum (rec_CommandSeq rec)]))
        else replayRecords records'
               (if rec_CommandSeq rec >? lastSeq then rec_CommandSeq rec else lastSeq)
               (<[symbol := b']> books1)
  end.

(** The loop over the shards, [n] of them left, [shardID] the next one. *)
Fixpoint replayShards (wal : dir) (engineID : string) (shardCount : Z) (n : nat) (shardID : Z)
  (lasts : list Z) (books : gmap string B) : fallible (list Z) :=
  match n with
  | O => Ret (inr lasts)
  | S n' =>
      let? r := ReadShardRecordsForEngine wal engineID shardID shardCount in
      match r with
      | inl err => Ret (inl err)
      | inr records =>
          match lasts !! Z.to_nat shardID with
          | None => Panic
          | Some lastSeq =>
              let? r := replayRecords records lastSeq books in
              match r with
              | inl err => Ret (inl err)
              | inr (lastSeq', books') =>
                  replayShards wal engineID shardCount n' (shardID + 1)
                    (<[Z.to_nat shardID := lastSeq']> lasts) books'
              end
          end
      end
  end.

Fixpoint makeBooks (snaps : list Snapshot) (books : gmap string B) : outcome (gmap string B) :=
  match snaps with
  | [] => Ret books
  | s :: snaps' =>
      let? b := factory s in
      makeBooks snaps' (<[sn_Symbol s := b]> books)
  end.

(** [latest] is the result of [snapshot.LoadLatest]. *)
Definition RecoverFromSnapshotAndWAL (latest : error + (EngineSnapshot * string)) (wal : dir)
  (engineID : string) (shardCount : Z) : fallible RecoverResult :=
  match latest with
  | inl err => Ret (inl err)
  | inr (snap, path) =>
      if negb (String.eqb (es_EngineID snap) engineID)
      then Ret (inl (Errorf "engine id mismatch" []))
      else if negb (es_ShardCount snap =? shardCount)
      then Ret (inl (Errorf "shard count mismatch" []))
      else
        let? books := makeBooks (es_Books snap) ∅ in
        let? r := replayShards wal engineID shardCount (Z.to_nat shardCount) 0
                    (es_LastAppliedByShard snap) books in
        match r with
        | inl err => Ret (inl err)
        | inr lasts => Ret (inr (mkRecoverResult path lasts))
        end
  end.
End RecoverFromSnapshotAndWAL.

(** ** recoverBooks *)

(** The loop over the records of a shard in [recoverBooks]: [last] is
    [lastAppliedByShard[shardID]]. *)
Fixpoint recoverRecords (shardID : Z) (records : list Record_) (prevSeq last : Z)
  (books : gmap string Book) : fallible (Z * gmap string Book) :=
  match records with
  | [] => Ret (inr (last, books))
  | rec :: records' =>
      if rec_CommandSeq rec <=? last then recoverRecords shardID records' prevSeq last books
      else if rec_CommandSeq rec <=? prevSeq
      then Ret (inl (Errorf "non-monotonic sequence in shard %d: prev=%d cur=%d"
                       [ANum shardID; ANum prevSeq; ANum (rec_CommandSeq rec)]))
      else
        let prevSeq' := rec_CommandSeq rec in
        match books !! cmd_Symbol (rec_Command rec) with
        | None => Ret (inl (Errorf "wal contains unknown symbol: %s"
                              [AStr (cmd_Symbol (rec_Command rec))]))
        | Some bookForSymbol =>
            let? applied := Apply (rec_Command rec) bookForSymbol in
            let '(computed, b') := applied in
            if negb (EqualResults computed (rec_Result rec))
            then Ret (inl (Errorf "replay mismatch on shard %d seq %d"
                             [ANum shardID; ANum (rec_CommandSeq rec)]))
            else recoverRecords shardID records' prevSeq' (rec_CommandSeq rec)
                   (<[cmd_Symbol (rec_Command rec) := b']> books)
        end
  end.

Fixpoint recoverShards (cfg : Config) (wal : dir) (n : nat) (shardID : Z)
  (lasts : list Z) (books : gmap string Book) : fallible (list Z * gmap string Book) :=
  match n with
  | O => Ret (inr (lasts, books))
  | S n' =>
      let? r := ReadShardRecordsForEngine wal (cfg_EngineID cfg) shardID (cfg_ShardCount cfg) in
      match r with
      | inl err => Ret (inl err)
      | inr records =>
          match lasts !! Z.to_nat shardID with
          | None => Panic
          | Some last =>
              let? r := recoverRecords shardID records last last books in
              match r with
              | inl err => Ret (inl err)
              | inr (last', books') =>
                  recoverShards cfg wal n' (shardID + 1) (<[Z.to_nat shardID := last']> lasts) books'
              end
          end
      end
  end.

Fixpoint restoredBooks (registry : SymbolRegistry) (snaps : list Snapshot)
  (restored : gmap string Snapshot) : error + gmap string Snapshot :=
  match snaps with
  | [] => inr restored
  | bs :: snaps' =>
      match ShardFor registry (sn_Symbol bs) with
      | None => inl (Errorf "snapshot contains unknown symbol: %s" [AStr (sn_Symbol bs)])
      | Some _ => restoredBooks registry snaps' (<[sn_Symbol bs := bs]> restored)
      end
  end.

(** [os.IsNotExist], which does not look inside wrapped errors. *)
Definition os_IsNotExist (err : error) : bool := bool_decide (err = ErrNotExist).

(** What the snapshot, if there is one, contributes. *)
Definition loadSnapshot (cfg : Config) (registry : SymbolRegistry)
  (latest : error + (EngineSnapshot * string)) : error + (gmap string Snapshot * list Z) :=
  let zeros := replicate (Z.to_nat (cfg_ShardCount cfg)) 0 in
  match latest with
  | inl err => if negb (os_IsNotExist err) then inl err else inr (∅, zeros)
  | inr (snap, _) =>
      if negb (String.eqb (es_EngineID snap) (cfg_EngineID cfg))
      then inl (Errorf "snapshot engine id mismatch" [])
      else if negb (es_ShardCount snap =? cfg_ShardCount cfg)
      then inl (Errorf "snapshot shard count mismatch" [])
      else if negb (Z.of_nat (length (es_LastAppliedByShard snap)) =? cfg_ShardCount cfg)
      then inl (Errorf "snapshot shard watermark length mismatch" [])
      else match restoredBooks registry (es_Books snap) ∅ with
           | inl err => inl err
           | inr restored => inr (restored, es_LastAppliedByShard snap)
           end
  end.

Fixpoint openBooks (restored : gmap string Snapshot) (symbols : list string)
  (books : gmap string Book) : outcome (gmap string Book) :=
  match symbols with
  | [] => Ret books
  | sym :: symbols' =>
      let? b := (match restored !! sym with
                 | Some bs => NewFromSnapshot bs
                 | None => Ret (Book_New sym)
                 end) in
      openBooks restored symbols' (<[sym := b]> books)
  end.

(** [out[sym] = b.Snapshot()] for every book of the map. *)
Fixpoint snapshotBooks (books : list (string * Book)) : outcome (gmap string Snapshot) :=
  match books with
  | [] => Ret ∅
  | (sym, b) :: books' =>
      let? r := Book_Snapshot b in
      let? out := snapshotBooks books' in
      Ret (<[sym := r.1]> out)
  end.

Definition recoverBooks (cfg : Config) (registry : SymbolRegistry)
  (latest : error + (EngineSnapshot * string)) (wal : dir)
  : fallible (gmap string Snapshot * list Z) :=
  match loadSnapshot cfg registry latest with
  | inl err => Ret (inl err)
  | inr (restored, lasts) =>
      let? books := openBooks restored (cfg_Symbols cfg) ∅ in
      let? r := recoverShards cfg wal (Z.to_nat (cfg_ShardCount cfg)) 0 lasts books in
      match r with
      | inl err => Ret (inl err)
      | inr (lasts', books') =>
          let? out := snapshotBooks (map_to_list books') in
          Ret (inr (out, lasts'))
      end
  end.

(** [nextSequence]. *)
Definition nextSequence (lastAppliedByShard : list Z) : Z :=
  u64_add (fold_left (fun maxSequence sequence =>
             if sequence >? maxSequence then sequence else maxSequence) lastAppliedByShard 0) 1.
