(* ===== verification/RecoveryProps.v ===== *)
(** * RecoveryProps: what recovery guarantees

    [history P last A recs last' A'] is what replaying a shard's log means: from the
    books [A] and the watermark [last], a record whose number is above the running
    watermark belongs to the shard's symbols (those in [P]), carries the result the
    reference semantics gives and moves the watermark; any other record is passed over,
    with whatever result it has, as the code does; this leads to [A'].  In a log with
    increasing numbers only records the snapshot covers are passed over, and a history
    is an [exact_replay] of the others. *)

From S2P Require Import Prelude Model Book BookSpec BookRep BookApply BookWalk.
From S2P Require Import BookTrace Bytes Codec CodecFacts Fs Reader Registry Recovery.

(** ** Histories *)

Abbreviation state := (gmap string Snapshot).

Inductive history (P : string -> Prop) : Z -> state -> list Record_ -> Z -> state -> Prop :=
| hist_done last A : history P last A [] last A
| hist_old last A rec recs last' A' :
    rec_CommandSeq rec <= last -> history P last A recs last' A' ->
    history P last A (rec :: recs) last' A'
| hist_new last A rec recs last' A' s :
    last < rec_CommandSeq rec -> P (cmd_Symbol (rec_Command rec)) ->
    A !! cmd_Symbol (rec_Command rec) = Some s ->
    rec_Result rec = (spec_Apply (rec_Command rec) s).1 ->
    history P (rec_CommandSeq rec)
      (<[cmd_Symbol (rec_Command rec) := (spec_Apply (rec_Command rec) s).2]> A) recs last' A' ->
    history P last A (rec :: recs) last' A'.

(** A history only looks at and changes the books of its own shard. *)
Lemma history_local P last A recs last' A' A1 :
  history P last A recs last' A' -> (forall sym, P sym -> A1 !! sym = A !! sym) ->
  exists A1', history P last A1 recs last' A1' /\
    (forall sym, P sym -> A1' !! sym = A' !! sym) /\
    (forall sym, ~ P sym -> A1' !! sym = A1 !! sym).
Proof.
  intros H. revert A1. induction H as [last A|last A rec recs last' A' Hle H IH
    |last A rec recs last' A' s Hlt HP Hs Hr H IH]; intros A1 Hag.
  - exists A1. split_and!; [constructor|done|done].
  - destruct (IH A1 Hag) as (A1' & H1 & H2 & H3). exists A1'. split_and!; [by constructor|done|done].
  - set (sym := cmd_Symbol (rec_Command rec)) in *.
    destruct (IH (<[sym := (spec_Apply (rec_Command rec) s).2]> A1)) as (A1' & H1 & H2 & H3).
    { intros sym' HP'. destruct (decide (sym' = sym)) as [->|Hne]; [by rewrite !lookup_insert_eq|].
      rewrite !lookup_insert_ne by done. auto. }
    exists A1'. split_and!; [|done|].
    + eapply hist_new; [done|done| |exact Hr|exact H1]. fold sym. rewrite Hag; done.
    + intros sym' HP'. rewrite H3 by done. rewrite lookup_insert_ne; [done|]. by intros ->.
Qed.

(** ** Replaying the records of a shard *)

Definition book_for (b : Book) (s : Snapshot) : Prop := repr b s /\ book_ok s.

(** Every book of the map represents the book of the state. *)
Definition books_rep (books : gmap string Book) (A : state) : Prop :=
  forall sym, option_Forall2 book_for (books !! sym) (A !! sym).

Lemma books_rep_insert books A sym b s :
  books_rep books A -> book_for b s -> books_rep (<[sym := b]> books) (<[sym := s]> A).
Proof.
  intros H Hb sym'. destruct (decide (sym' = sym)) as [->|Hne].
  - rewrite !lookup_insert_eq. by constructor.
  - rewrite !lookup_insert_ne by done. apply H.
Qed.

Definition non_monotonic (e : error) : Prop :=
  exists args, e = Errorf "non-monotonic sequence in shard %d: prev=%d cur=%d" args.

(** Any symbol: what the code checks is only that the symbol has a book. *)
Definition any (sym : string) : Prop := True.

Lemma history_any P last A recs last' A' :
  history P last A recs last' A' -> history any last A recs last' A'.
Proof. induction 1; [constructor|by apply hist_old|by eapply hist_new]. Qed.

Lemma history_det P last A recs l1 A1 l2 A2 :
  history P last A recs l1 A1 -> history P last A recs l2 A2 -> l1 = l2 /\ A1 = A2.
Proof.
  intros H. revert l2 A2. induction H as [last A|last A rec recs last' A' Hle H IH
    |last A rec recs last' A' s Hlt HP Hs Hr H IH]; intros l2 A2 H2; inversion H2; subst; try lia; auto.
  rewrite Hs in *. simplify_eq. auto.
Qed.

(** The record loop either follows a history or stops with an error. *)
Lemma recoverRecords_spec id recs last books A :
  books_rep books A -> Forall record_typed recs ->
  (exists last' A' books', history any last A recs last' A' /\
     recoverRecords id recs last last books = Ret (inr (last', books')) /\ books_rep books' A') \/
  (exists e, recoverRecords id recs last last books = Ret (inl e) /\ ~ non_monotonic e /\
     forall last' A', ~ history any last A recs last' A').
Proof.
  intros Hb Ht. revert last books A Hb. induction Ht as [|rec recs Hr Hrs IH]; intros last books A Hb.
  { left. exists last, A, books. split_and!; [constructor|done|done]. }
  cbn [recoverRecords]. destruct (Z.leb_spec (rec_CommandSeq rec) last) as [Hle|Hlt].
  { destruct (IH last books A Hb) as [(last' & A' & books' & H1 & H2 & H3)|(e & H1 & H2 & H3)].
    - left. exists last', A', books'. split_and!; [by constructor|done|done].
    - right. exists e. split_and!; [done|done|]. intros last' A' H. inversion H; subst; [by eapply H3|lia]. }
  pose proof (Hb (cmd_Symbol (rec_Command rec))) as Hsym.
  destruct (books !! cmd_Symbol (rec_Command rec)) as [b|]; inversion Hsym as [? s [Hrep Hok] E1 E2|E1 E2]; subst.
  2:{ right. eexists. split_and!; [reflexivity|by intros [? ?]|]. intros last' A' H.
      inversion H; subst; [lia|]. congruence. }
  destruct (Apply_repr _ b s (rt_Command _ Hr) Hrep Hok) as (b' & -> & Hrep'). cbn [obind].
  pose proof (spec_Apply_ok _ s (rt_Command _ Hr) Hok) as Hok'.
  destruct (EqualResults _ _) eqn:Eq; cbn [negb].
  - apply EqualResults_eq in Eq.
    destruct (IH (rec_CommandSeq rec) _ _ (books_rep_insert _ _ (cmd_Symbol (rec_Command rec)) _ _ Hb
      (conj Hrep' Hok'))) as [(last' & A' & books' & H1 & H2 & H3)|(e & H1 & H2 & H3)].
    + left. exists last', A', books'. split_and!; [by eapply hist_new|done|done].
    + right. exists e. split_and!; [done|done|]. intros last' A' H. inversion H; subst; [lia|].
      match goal with H : A !! _ = Some ?s' |- _ => assert (s' = s) as -> by congruence end. by eapply H3.
  - right. eexists. split_and!; [reflexivity|by intros [? ?]|]. intros last' A' H.
    inversion H; subst; [lia|].
    match goal with H : A !! _ = Some ?s' |- _ => assert (s' = s) as -> by congruence end.
    assert (EqualResults (spec_Apply (rec_Command rec) s).1 (rec_Result rec) = true)
      by (by apply EqualResults_eq). congruence.
Qed.

(** ** Opening and closing the books *)

(** The books before replay: the snapshot's, or new ones. *)
Definition initial (restored : state) (symbols : list string) : state :=
  fold_left (fun A sym => <[sym := default (empty_snapshot sym 1) (restored !! sym)]> A) symbols ∅.

Lemma openBooks_ok restored symbols books A :
  map_Forall (fun _ s => book_ok s) restored -> books_rep books A ->
  exists books', openBooks restored symbols books = Ret books' /\
    books_rep books' (fold_left (fun A sym =>
      <[sym := default (empty_snapshot sym 1) (restored !! sym)]> A) symbols A).
Proof.
  intros Hok. revert books A. induction symbols as [|sym symbols IH]; intros books A Hb; [by exists books|].
  cbn [openBooks fold_left]. destruct (restored !! sym) as [s|] eqn:E; cbn [obind default from_option].
  - pose proof (Hok _ _ E) as Hs. simpl in Hs.
    destruct (NewFromSnapshot_repr s (bo_core _ Hs)) as (b & -> & Hr). cbn [obind].
    apply IH. by apply books_rep_insert.
  - apply IH. apply books_rep_insert; [done|]. split; [apply Book_New_repr|]. by apply empty_book_ok.
Qed.

Lemma books_rep_empty : books_rep ∅ ∅.
Proof. intros sym. rewrite !lookup_empty. constructor. Qed.

Lemma snapshotBooks_ok (l : list (string * Book)) (A : state) :
  Forall (fun p => exists s, A !! p.1 = Some s /\ repr p.2 s) l ->
  exists out, snapshotBooks l = Ret out /\
    forall sym, out !! sym = if bool_decide (sym ∈ l.*1) then A !! sym else None.
Proof.
  induction 1 as [|[sym b] l (s & HA & Hr) Hl (out & Hrun & Hout)].
  { exists ∅. split; [done|]. intros sym. by rewrite lookup_empty. }
  cbn [snapshotBooks]. rewrite (Book_Snapshot_repr b s Hr). cbn [obind]. rewrite Hrun. cbn [obind].
  eexists. split; [done|]. intros sym'. simpl in *. destruct (decide (sym' = sym)) as [->|Hne].
  - rewrite lookup_insert_eq, bool_decide_eq_true_2 by left. done.
  - rewrite lookup_insert_ne, Hout by done.
    assert (sym' ∈ l.*1 <-> sym' ∈ sym :: l.*1) as Hiff by (rewrite elem_of_cons; naive_solver).
    by rewrite (bool_decide_ext _ _ Hiff).
Qed.

(** The snapshots of all books are the state they represent. *)
Lemma snapshotBooks_state books A :
  books_rep books A -> snapshotBooks (map_to_list books) = Ret A.
Proof.
  intros Hb. destruct (snapshotBooks_ok (map_to_list books) A) as (out & -> & Hout).
  { apply Forall_forall. intros [sym b] Hin%elem_of_map_to_list. specialize (Hb sym). simpl.
    rewrite Hin in Hb. inversion Hb as [? s [Hr _] E1 E2|]; subst. eauto. }
  f_equal. apply map_eq. intros sym. rewrite Hout. case_bool_decide as Hin; [done|].
  specialize (Hb sym). destruct (books !! sym) as [b|] eqn:E; inversion Hb; [|done].
  destruct Hin. apply list_elem_of_fmap. exists (sym, b). split; [done|]. by apply elem_of_map_to_list.
Qed.

(** ** All shards *)

Section Shards.
Context (cfg : Config) (wal : dir) (recs : Z -> list Record_).
Context (Hread : forall id, 0 <= id < cfg_ShardCount cfg ->
  ReadShardRecordsForEngine wal (cfg_EngineID cfg) id (cfg_ShardCount cfg) = Ret (inr (recs id))).
Context (Htyped : forall id, 0 <= id < cfg_ShardCount cfg -> Forall record_typed (recs id)).

(** The symbols of each shard, its final watermark and its final books, when every
    shard is replayed on its own from the books [A0] and watermarks [lasts0]. *)
Context (owns : Z -> string -> Prop) (L : Z -> Z) (F : Z -> state) (A0 : state) (lasts0 : list Z).
Context (Hdisj : forall i j sym, owns i sym -> owns j sym -> i = j).
Context (Hhist : forall id, 0 <= id < cfg_ShardCount cfg -> exists last,
  lasts0 !! Z.to_nat id = Some last /\ history (owns id) last A0 (recs id) (L id) (F id)).

(** Shards below [id] are done, the others as they were. *)
Record progress (id : Z) (lasts : list Z) (A : state) : Prop := {
  pg_length : length lasts = length lasts0;
  pg_done : forall j, 0 <= j < id -> lasts !! Z.to_nat j = Some (L j) /\
              forall sym, owns j sym -> A !! sym = F j !! sym;
  pg_todo : forall j, id <= j -> lasts !! Z.to_nat j = lasts0 !! Z.to_nat j /\
              forall sym, owns j sym -> A !! sym = A0 !! sym;
  pg_other : forall sym, (forall j, 0 <= j < cfg_ShardCount cfg -> ~ owns j sym) -> A !! sym = A0 !! sym
}.

Lemma progress_step id lasts A last A1 :
  0 <= id < cfg_ShardCount cfg -> progress id lasts A -> lasts0 !! Z.to_nat id = Some last ->
  (forall sym, owns id sym -> A1 !! sym = F id !! sym) ->
  (forall sym, ~ owns id sym -> A1 !! sym = A !! sym) ->
  progress (id + 1) (<[Z.to_nat id := L id]> lasts) A1.
Proof.
  intros Hid [Hl Hd Ht Ho] Hlast Hown Hother. apply lookup_lt_Some in Hlast.
  split.
  - by rewrite length_insert.
  - intros j Hj. destruct (decide (j = id)) as [->|Hne].
    + rewrite list_lookup_insert_eq by lia. auto.
    + rewrite list_lookup_insert_ne by lia. destruct (Hd j) as [H1 H2]; [lia|]. split; [done|].
      intros sym Hs. rewrite Hother; [auto|]. intros Hs'. by specialize (Hdisj _ _ _ Hs Hs').
  - intros j Hj. rewrite list_lookup_insert_ne by lia. destruct (Ht j) as [H1 H2]; [lia|].
    split; [done|]. intros sym Hs. rewrite Hother; [auto|]. intros Hs'.
    specialize (Hdisj _ _ _ Hs Hs'). lia.
  - intros sym Hs. rewrite Hother by auto. auto.
Qed.

Lemma recoverShards_complete n id lasts books A :
  0 <= id -> id + Z.of_nat n = cfg_ShardCount cfg -> progress id lasts A -> books_rep books A ->
  exists lasts' books' A', recoverShards cfg wal n id lasts books = Ret (inr (lasts', books')) /\
    books_rep books' A' /\ progress (cfg_ShardCount cfg) lasts' A'.
Proof.
  revert id lasts books A. induction n as [|n IH]; intros id lasts books A Hid Hn Hp Hb.
  { exists lasts, books, A. replace id with (cfg_ShardCount cfg) in Hp by lia. done. }
  assert (0 <= id < cfg_ShardCount cfg) as Hr by lia. cbn [recoverShards].
  rewrite Hread by done. cbn [obind]. destruct (Hhist id Hr) as (last & Hlast & Hh).
  destruct (pg_todo _ _ _ Hp id ltac:(lia)) as [El Hag]. rewrite El, Hlast.
  destruct (history_local _ _ _ _ _ _ A Hh Hag) as (A1 & Hh1 & Hown & Hother).
  destruct (recoverRecords_spec id (recs id) last books A Hb (Htyped id Hr))
    as [(last' & A1' & books1 & Hh2 & Hrun & Hb1)|(e & _ & _ & Hno)].
  2:{ destruct (Hno (L id) A1). by apply (history_any (owns id)). }
  destruct (history_det _ _ _ _ _ _ _ _ Hh2 (history_any _ _ _ _ _ _ Hh1)) as [-> ->].
  rewrite Hrun. cbn [obind]. eapply IH; [lia|lia| |exact Hb1]. by eapply progress_step.
Qed.
End Shards.

(** [replays n id lasts A lasts' A']: the logs of the [n] shards from [id] on can be
    read and, one after the other, have histories that lead from [A] to [A']. *)
Inductive replays (cfg : Config) (wal : dir) : nat -> Z -> list Z -> state -> list Z -> state -> Prop :=
| rp_done id lasts A : replays cfg wal 0 id lasts A lasts A
| rp_shard n id lasts A recs last last' A1 lasts' A' :
    ReadShardRecordsForEngine wal (cfg_EngineID cfg) id (cfg_ShardCount cfg) = Ret (inr recs) ->
    lasts !! Z.to_nat id = Some last -> history any last A recs last' A1 ->
    replays cfg wal n (id + 1) (<[Z.to_nat id := last']> lasts) A1 lasts' A' ->
    replays cfg wal (S n) id lasts A lasts' A'.

(** Two reads of the same log give the same records, and two histories of them end alike. *)
Ltac same_records :=
  repeat match goal with
  | H1 : ?x = Ret (inr ?a), H2 : ?x = Ret (inr ?b) |- _ =>
      assert (b = a) as -> by congruence; clear H2
  | H1 : ?x = Some ?a, H2 : ?x = Some ?b |- _ => assert (b = a) as -> by congruence; clear H2
  end.
Ltac same_history :=
  same_records;
  match goal with
  | H1 : history ?P ?l ?A ?r ?a ?b, H2 : history ?P ?l ?A ?r ?c ?d |- _ =>
      destruct (history_det _ _ _ _ _ _ _ _ H1 H2) as [? ?]; subst
  end.

Lemma replays_det cfg wal n id lasts A l1 A1 l2 A2 :
  replays cfg wal n id lasts A l1 A1 -> replays cfg wal n id lasts A l2 A2 -> l1 = l2 /\ A1 = A2.
Proof.
  intros H. revert l2 A2. induction H as [|n id lasts A recs last last' A1' lasts' A' Hr Hl Hh H IH];
    intros l2 A2 H2; inversion H2; subst; [done|].
  same_history. auto.
Qed.

(** Replaying the shards returns: the final state when there is one, else an error. *)
Lemma recoverShards_spec cfg wal n id lasts books A :
  dir_ok wal -> 0 <= id -> (Z.to_nat id + n <= length lasts)%nat -> books_rep books A ->
  (exists lasts' A' books', replays cfg wal n id lasts A lasts' A' /\
     recoverShards cfg wal n id lasts books = Ret (inr (lasts', books')) /\ books_rep books' A') \/
  (exists e, recoverShards cfg wal n id lasts books = Ret (inl e) /\
     forall lasts' A', ~ replays cfg wal n id lasts A lasts' A').
Proof.
  intros Hd. revert id lasts books A. induction n as [|n IH]; intros id lasts books A Hid Hn Hb.
  { left. exists lasts, A, books. split_and!; [constructor|done|done]. }
  cbn [recoverShards].
  destruct (ReadShardRecordsForEngine_total wal (cfg_EngineID cfg) id (cfg_ShardCount cfg) Hd) as (x & Ex & Hx).
  rewrite Ex. cbn [obind]. destruct x as [e|recs].
  { right. exists e. split; [done|]. intros lasts' A' H. inversion H. congruence. }
  destruct (lookup_lt_is_Some_2 lasts (Z.to_nat id)) as [last El]; [lia|]. rewrite El.
  destruct (recoverRecords_spec id recs last books A Hb (Hx recs eq_refl))
    as [(last' & A1 & books1 & Hh & -> & Hb1)|(e & -> & _ & Hno)]; cbn [obind].
  2:{ right. exists e. split; [done|]. intros lasts' A' H. inversion H; subst. same_records. by eapply Hno. }
  destruct (IH (id + 1) (<[Z.to_nat id := last']> lasts) books1 A1)
    as [(lasts' & A' & books' & Hrp & -> & Hb')|(e & -> & Hno)]; [lia|rewrite length_insert; lia|done|..].
  - left. exists lasts', A', books'. split_and!; [by eapply rp_shard|done|done].
  - right. exists e. split; [done|]. intros lasts' A' H. inversion H; subst. same_history. by eapply Hno.
Qed.

(** ** Logs in order *)

(** Every record has the result the reference semantics gives after the ones before. *)
Inductive exact_replay : state -> list Record_ -> state -> Prop :=
| er_done A : exact_replay A [] A
| er_record A rec recs A' s :
    A !! cmd_Symbol (rec_Command rec) = Some s -> rec_Result rec = (spec_Apply (rec_Command rec) s).1 ->
    exact_replay (<[cmd_Symbol (rec_Command rec) := (spec_Apply (rec_Command rec) s).2]> A) recs A' ->
    exact_replay A (rec :: recs) A'.

Definition increasing (recs : list Record_) : Prop := StronglySorted Z.lt (map rec_CommandSeq recs).
(** The records a snapshot with watermark [last] does not cover, and the highest number. *)
Definition newer (last : Z) (recs : list Record_) : list Record_ := filter (fun r => last < rec_CommandSeq r) recs.
Definition top (last : Z) (recs : list Record_) : Z := fold_left (fun m r => Z.max m (rec_CommandSeq r)) recs last.

Lemma newer_all last recs : Forall (fun r => last < rec_CommandSeq r) recs -> newer last recs = recs.
Proof. unfold newer. induction 1 as [|r recs Hr _ IH]; [done|]. by rewrite filter_cons_True, IH. Qed.

Lemma increasing_above rec recs last :
  increasing (rec :: recs) -> last <= rec_CommandSeq rec -> Forall (fun r => last < rec_CommandSeq r) recs.
Proof.
  intros [_ Hall]%StronglySorted_inv Hle. apply (proj1 (Forall_fmap rec_CommandSeq _ _)) in Hall.
  eapply Forall_impl; [exact Hall|]. cbn. lia.
Qed.

Lemma history_increasing last A recs last' A' :
  increasing recs -> history any last A recs last' A' <-> exact_replay A (newer last recs) A' /\ last' = top last recs.
Proof.
  revert last A. induction recs as [|rec recs IH]; intros last A Hi.
  { split; [intros H; inversion H; subst; split; [constructor|done]|intros [H ->]; inversion H; subst; constructor]. }
  assert (increasing recs) as Hi' by by apply StronglySorted_inv in Hi as [? _].
  cbn [top fold_left]. fold (top (Z.max last (rec_CommandSeq rec)) recs). destruct (Z.le_gt_cases (rec_CommandSeq rec) last) as [Hle|Hlt].
  - unfold newer. rewrite filter_cons_False, Z.max_l by lia. rewrite <-(IH last A Hi'). split; [|by apply hist_old].
    intros H. inversion H; subst; [done|lia].
  - pose proof (increasing_above _ _ last Hi ltac:(lia)) as Hall. unfold newer. rewrite filter_cons_True, Z.max_r by lia. fold (newer last recs).
    rewrite (newer_all _ _ Hall). pose proof (newer_all _ _ (increasing_above _ _ _ Hi (Z.le_refl _))) as Hn. split.
    + intros H. inversion H as [| |? ? ? ? ? ? ? ? ? ? ? Hh]; subst; [lia|]. apply IH in Hh as [Hx ->]; [|done]. rewrite Hn in Hx. split; [by eapply er_record|done].
    + intros [H ->]. inversion H; subst. eapply hist_new; [lia|done|done|done|]. apply IH; [done|]. by rewrite Hn.
Qed.

(** The logs of the [n] shards from [id] on can be read and, one after the other, their
    records above the watermarks replay exactly. *)
Inductive exact_replays (cfg : Config) (wal : dir) : nat -> Z -> list Z -> state -> list Z -> state -> Prop :=
| ers_done id lasts A : exact_replays cfg wal 0 id lasts A lasts A
| ers_shard n id lasts A recs last A1 lasts' A' :
    ReadShardRecordsForEngine wal (cfg_EngineID cfg) id (cfg_ShardCount cfg) = Ret (inr recs) ->
    lasts !! Z.to_nat id = Some last -> exact_replay A (newer last recs) A1 ->
    exact_replays cfg wal n (id + 1) (<[Z.to_nat id := top last recs]> lasts) A1 lasts' A' ->
    exact_replays cfg wal (S n) id lasts A lasts' A'.

(** The numbers in every log that can be read increase. *)
Definition logs_increase (cfg : Config) (wal : dir) : Prop :=
  forall id recs, 0 <= id < cfg_ShardCount cfg ->
    ReadShardRecordsForEngine wal (cfg_EngineID cfg) id (cfg_ShardCount cfg) = Ret (inr recs) -> increasing recs.

Lemma replays_exact cfg wal n id lasts A lasts' A' :
  logs_increase cfg wal -> 0 <= id -> id + Z.of_nat n <= cfg_ShardCount cfg ->
  replays cfg wal n id lasts A lasts' A' <-> exact_replays cfg wal n id lasts A lasts' A'.
Proof.
  intros Hlogs. revert id lasts A. induction n as [|n IH]; intros id lasts A Hid Hn.
  { split; intros H; inversion H; subst; constructor. }
  split; intros H; inversion H as [|? ? ? ? recs]; subst.
  - assert (increasing recs) as Hi by (apply (Hlogs id); [lia|done]).
    match goal with Hh : history _ _ _ _ _ _ |- _ => apply (history_increasing _ _ _ _ _ Hi) in Hh as [Hx ->] end.
    eapply ers_shard; [done|done|exact Hx|]. apply IH; [lia|lia|done].
  - assert (increasing recs) as Hi by (apply (Hlogs id); [lia|done]).
    eapply rp_shard; [done|done|by apply history_increasing|]. apply IH; [lia|lia|done].
Qed.

(** ** Facts of [recoverBooks] *)

Lemma registry_shards cfg r sym id :
  small_count (cfg_ShardCount cfg) ->
  NewSymbolRegistry (cfg_Symbols cfg) (cfg_ShardCount cfg) = Ret (inr r) ->
  ShardFor r sym = Some id -> 0 <= id < cfg_ShardCount cfg /\ sym ∈ cfg_Symbols cfg.
Proof.
  intros Hc Hr Hs. destruct (NewSymbolRegistry_built _ _ _ Hc Hr) as [_ Hf _].
  rewrite Hf in Hs. case_bool_decide; [|done]. injection Hs as <-. split; [by apply shard_of_range|done].
Qed.

Lemma loadSnapshot_length cfg r latest restored lasts :
  0 <= cfg_ShardCount cfg -> loadSnapshot cfg r latest = inr (restored, lasts) ->
  length lasts = Z.to_nat (cfg_ShardCount cfg).
Proof.
  unfold loadSnapshot. intros Hc H. repeat case_match; simplify_eq; [by rewrite length_replicate|].
  repeat match goal with H : negb _ = false |- _ => apply negb_false_iff in H end. lia.
Qed.

(** The snapshot is well formed: its books are books a run can have produced. *)
Definition snapshot_ok (latest : error + (EngineSnapshot * string)) : Prop :=
  match latest with
  | inl _ => True
  | inr (snap, _) => Forall book_ok (es_Books snap)
  end.

Lemma restoredBooks_ok r snaps acc restored :
  Forall book_ok snaps -> map_Forall (fun _ s => book_ok s) acc ->
  restoredBooks r snaps acc = inr restored -> map_Forall (fun _ s => book_ok s) restored.
Proof.
  intros H. revert acc. induction H as [|s snaps Hs Hss IH]; intros acc Hacc; cbn [restoredBooks].
  { by intros [= <-]. }
  destruct (ShardFor r (sn_Symbol s)); [|done]. apply IH. by apply map_Forall_insert_2.
Qed.

Lemma loadSnapshot_ok cfg r latest restored lasts :
  snapshot_ok latest -> loadSnapshot cfg r latest = inr (restored, lasts) ->
  map_Forall (fun _ s => book_ok s) restored.
Proof.
  unfold loadSnapshot, snapshot_ok. intros Hs H. repeat case_match; simplify_eq; [apply map_Forall_empty|].
  eapply restoredBooks_ok; [exact Hs|apply map_Forall_empty|done].
Qed.

(** [recoverBooks] returns, with books exactly when there is a replay. *)
Lemma recoverBooks_spec cfg r latest wal :
  0 < cfg_ShardCount cfg -> snapshot_ok latest -> dir_ok wal ->
  exists res, recoverBooks cfg r latest wal = Ret res /\
    forall out lasts', res = inr (out, lasts') <->
      exists restored lasts, loadSnapshot cfg r latest = inr (restored, lasts) /\
        replays cfg wal (Z.to_nat (cfg_ShardCount cfg)) 0 lasts
          (initial restored (cfg_Symbols cfg)) lasts' out.
Proof.
  intros Hc Hs Hd. unfold recoverBooks. destruct (loadSnapshot cfg r latest) as [e|[restored lasts]] eqn:Hl.
  { eexists. split; [done|]. intros out lasts'. split; [done|]. by intros (? & ? & ? & _). }
  destruct (openBooks_ok restored (cfg_Symbols cfg) ∅ ∅ (loadSnapshot_ok _ _ _ _ _ Hs Hl) books_rep_empty)
    as (books & -> & Hb). cbn [obind].
  pose proof (loadSnapshot_length _ _ _ _ _ (Z.lt_le_incl _ _ Hc) Hl) as Hlen.
  destruct (recoverShards_spec cfg wal (Z.to_nat (cfg_ShardCount cfg)) 0 lasts books
    (initial restored (cfg_Symbols cfg)) Hd) as [(lasts1 & A1 & books1 & Hrp & -> & Hb1)|(e & -> & Hno)];
    [lia|lia|done|..]; cbn [obind].
  - rewrite (snapshotBooks_state _ _ Hb1). cbn [obind]. eexists. split; [done|]. intros out lasts'. split.
    + intros [= <- <-]. eauto.
    + intros (restored' & lasts0 & [= <- <-] & Hrp').
      by destruct (replays_det _ _ _ _ _ _ _ _ _ _ Hrp Hrp') as [-> ->].
  - eexists. split; [done|]. intros out lasts'. split; [done|].
    intros (restored' & lasts0 & [= <- <-] & Hrp'). by destruct (Hno _ _ Hrp').
Qed.

Lemma recoverBooks_inv cfg r latest wal out lasts' :
  0 < cfg_ShardCount cfg -> snapshot_ok latest -> dir_ok wal ->
  recoverBooks cfg r latest wal = Ret (inr (out, lasts')) ->
  exists restored lasts, loadSnapshot cfg r latest = inr (restored, lasts) /\
    replays cfg wal (Z.to_nat (cfg_ShardCount cfg)) 0 lasts (initial restored (cfg_Symbols cfg)) lasts' out.
Proof.
  intros Hc Hs Hd Hrun. destruct (recoverBooks_spec cfg r latest wal Hc Hs Hd) as (res & E & H).
  apply H. congruence.
Qed.

(** ** Replay through the interface of a replayed book *)

Section Standalone.
Context {B : Type} `{ReplayedBook B} {factory : Snapshot -> outcome B} `{!ReplayLaws B factory}.

(** Every book of the state has an implementation in the map. *)
Definition implements (books : gmap string B) (A : state) : Prop :=
  forall sym s, A !! sym = Some s -> exists b, books !! sym = Some b /\ rb_state b s /\ book_ok s.

Lemma implements_insert books A sym b s :
  implements books A -> rb_state b s -> book_ok s -> implements (<[sym := b]> books) (<[sym := s]> A).
Proof.
  intros Hi Hb Hok sym' s'. destruct (decide (sym' = sym)) as [->|Hne].
  - rewrite !lookup_insert_eq. intros [= <-]. eauto.
  - rewrite !lookup_insert_ne by done. apply Hi.
Qed.

Lemma replayRecords_history P recs last A last' A' books :
  history P last A recs last' A' -> Forall record_typed recs -> implements books A ->
  exists books', replayRecords factory recs last books = Ret (inr (last', books')) /\ implements books' A'.
Proof.
  intros Hh. revert books. induction Hh as [last A|last A rec recs last' A' Hle Hh IH
    |last A rec recs last' A' s Hlt HP Hs Hr Hh IH]; intros books Ht Hi.
  - by exists books.
  - apply Forall_cons in Ht as [_ Ht]. cbn [replayRecords]. rewrite (proj2 (Z.leb_le _ _) Hle). auto.
  - apply Forall_cons in Ht as [Hrec Ht]. cbn [replayRecords]. rewrite (proj2 (Z.leb_gt _ _) Hlt).
    destruct (Hi _ _ Hs) as (b & -> & Hb & Hok). cbn [obind].
    destruct (rb_step b s _ Hb Hok (rt_Command _ Hrec)) as (b' & -> & Hb'). cbn [obind].
    rewrite (proj2 (EqualResults_eq _ _)) by done. cbn [negb]. rewrite Z.gtb_ltb, (proj2 (Z.ltb_lt _ _) Hlt).
    apply IH; [done|]. apply implements_insert; [done..|]. by apply spec_Apply_ok; [apply rt_Command|].
Qed.

Lemma replayShards_replays cfg wal n id lasts A lasts' A' books :
  dir_ok wal -> replays cfg wal n id lasts A lasts' A' -> implements books A ->
  replayShards factory wal (cfg_EngineID cfg) (cfg_ShardCount cfg) n id lasts books = Ret (inr lasts').
Proof.
  intros Hd Hrp. revert books. induction Hrp as [id lasts A|n id lasts A recs last last' A1 lasts' A' Hr Hl Hh Hrp IH];
    intros books Hi; cbn [replayShards]; [done|]. rewrite Hr. cbn [obind]. rewrite Hl.
  destruct (ReadShardRecordsForEngine_total wal (cfg_EngineID cfg) id (cfg_ShardCount cfg) Hd) as (x & Ex & Hx).
  destruct (replayRecords_history _ _ _ _ _ _ books Hh (Hx recs ltac:(congruence)) Hi) as (books' & -> & Hi').
  cbn [obind]. auto.
Qed.

(** Opening the snapshot's books yields at least those [recoverBooks] opens. *)
Lemma makeBooks_restored r snaps acc books restored :
  Forall book_ok snaps -> implements books acc -> restoredBooks r snaps acc = inr restored ->
  exists books', makeBooks factory snaps books = Ret books' /\ implements books' restored.
Proof.
  intros Hok. revert acc books. induction Hok as [|s snaps Hs Hss IH]; intros acc books Hi; cbn [restoredBooks makeBooks].
  { intros [= <-]. eauto. }
  destruct (ShardFor r (sn_Symbol s)); [|done]. destruct (rb_make s Hs) as (b & -> & Hb). cbn [obind].
  apply IH. by apply implements_insert.
Qed.
End Standalone.

Lemma restoredBooks_dom r snaps acc restored sym :
  restoredBooks r snaps acc = inr restored -> sym ∈ map sn_Symbol snaps \/ is_Some (acc !! sym) ->
  is_Some (restored !! sym).
Proof.
  revert acc. induction snaps as [|s snaps IH]; intros acc; cbn [restoredBooks].
  { intros [= <-] [H|H]; [by apply not_elem_of_nil in H|done]. }
  destruct (ShardFor r (sn_Symbol s)); [|done]. intros Hr Hin. apply (IH _ Hr).
  destruct (decide (sym = sn_Symbol s)) as [->|Hne]; [right; by rewrite lookup_insert_eq|].
  rewrite lookup_insert_ne by done. simpl in Hin. rewrite elem_of_cons in Hin. naive_solver.
Qed.

Lemma initial_lookup (restored : state) symbols (A : state) sym s :
  (forall x, x ∈ symbols -> is_Some (restored !! x)) ->
  (forall x t, A !! x = Some t -> restored !! x = Some t) ->
  fold_left (fun A sym => <[sym := default (empty_snapshot sym 1) (restored !! sym)]> A) symbols A !! sym = Some s ->
  restored !! sym = Some s.
Proof.
  revert A. induction symbols as [|x symbols IH]; intros A Hin HA; cbn [fold_left]; [apply HA|].
  apply IH; [intros y Hy; apply Hin; by right|]. intros y t. destruct (decide (y = x)) as [->|Hne].
  - rewrite lookup_insert_eq. intros [= <-]. destruct (Hin x) as [s' ->]; [by left|]. done.
  - rewrite lookup_insert_ne by done. apply HA.
Qed.

(** Recovery of a whole engine follows the histories of its shards. *)
Lemma recoverBooks_complete cfg r latest wal (restored : state) (lasts : list Z) recs
  (L : Z -> Z) (F : Z -> state) :
  0 < cfg_ShardCount cfg < 4294967296 ->
  NewSymbolRegistry (cfg_Symbols cfg) (cfg_ShardCount cfg) = Ret (inr r) ->
  snapshot_ok latest -> dir_ok wal ->
  loadSnapshot cfg r latest = inr (restored, lasts) ->
  (forall id, 0 <= id < cfg_ShardCount cfg ->
     ReadShardRecordsForEngine wal (cfg_EngineID cfg) id (cfg_ShardCount cfg) = Ret (inr (recs id))) ->
  (forall id, 0 <= id < cfg_ShardCount cfg -> exists last, lasts !! Z.to_nat id = Some last /\
     history (fun sym => ShardFor r sym = Some id) last (initial restored (cfg_Symbols cfg))
       (recs id) (L id) (F id)) ->
  exists out lasts', recoverBooks cfg r latest wal = Ret (inr (out, lasts')) /\
    (forall sym id, ShardFor r sym = Some id -> out !! sym = F id !! sym) /\
    (forall id, 0 <= id < cfg_ShardCount cfg -> lasts' !! Z.to_nat id = Some (L id)).
Proof.
  intros Hc Hreg Hs Hd Hl Hread Hhist. unfold recoverBooks. rewrite Hl.
  destruct (openBooks_ok restored (cfg_Symbols cfg) ∅ ∅ (loadSnapshot_ok _ _ _ _ _ Hs Hl) books_rep_empty)
    as (books & -> & Hb). cbn [obind].
  assert (forall id, 0 <= id < cfg_ShardCount cfg -> Forall record_typed (recs id)) as Htyped.
  { intros id Hid. destruct (ReadShardRecordsForEngine_total wal (cfg_EngineID cfg) id (cfg_ShardCount cfg) Hd)
      as (x & Ex & Hx). apply Hx. specialize (Hread id Hid). congruence. }
  destruct (recoverShards_complete cfg wal recs Hread Htyped (fun id sym => ShardFor r sym = Some id) L F
    (initial restored (cfg_Symbols cfg)) lasts ltac:(congruence) Hhist (Z.to_nat (cfg_ShardCount cfg)) 0
    lasts books (initial restored (cfg_Symbols cfg))) as (lasts' & books' & A' & -> & Hb' & Hp);
    [lia|lia|by split; intros; [done|lia|done|done]|done|]. cbn [obind].
  rewrite (snapshotBooks_state _ _ Hb'). cbn [obind]. exists A', lasts'. split_and!; [done|..].
  - intros sym id Hsym. destruct (registry_shards _ _ _ _ Hc Hreg Hsym) as [Hid _].
    by apply (pg_done _ _ _ _ _ _ _ _ _ Hp id Hid).
  - intros id Hid. by apply (pg_done _ _ _ _ _ _ _ _ _ Hp id Hid).
Qed.

(** ** Properties *)

(** C8. Recovery restores the live state.  Suppose the snapshot gives the books
    [restored] and the watermarks [lasts], and the log of every shard is what a
    run from there writes: after its watermark, increasing sequence numbers, the
    shard's own symbols, and for each command the result of the reference
    semantics ([history], ending in watermark [L id] and books [F id]).  Then
    [recoverBooks] succeeds, every configured symbol has exactly the book of its
    shard's run, and every watermark is the last sequence number of its log. *)
Theorem recovery_restores_live_state cfg r latest wal (restored : state) (lasts : list Z) recs
  (L : Z -> Z) (F : Z -> state) :
  0 < cfg_ShardCount cfg < 4294967296 ->
  NewSymbolRegistry (cfg_Symbols cfg) (cfg_ShardCount cfg) = Ret (inr r) ->
  snapshot_ok latest -> dir_ok wal ->
  loadSnapshot cfg r latest = inr (restored, lasts) ->
  (forall id, 0 <= id < cfg_ShardCount cfg ->
     ReadShardRecordsForEngine wal (cfg_EngineID cfg) id (cfg_ShardCount cfg) = Ret (inr (recs id))) ->
  (forall id, 0 <= id < cfg_ShardCount cfg -> exists last, lasts !! Z.to_nat id = Some last /\
     history (fun sym => ShardFor r sym = Some id) last (initial restored (cfg_Symbols cfg))
       (recs id) (L id) (F id)) ->
  exists out lasts', recoverBooks cfg r latest wal = Ret (inr (out, lasts')) /\
    (forall sym id, ShardFor r sym = Some id -> out !! sym = F id !! sym) /\
    (forall id, 0 <= id < cfg_ShardCount cfg -> lasts' !! Z.to_nat id = Some (L id)).
Proof. apply recoverBooks_complete. Qed.

(** A crashed engine: two shards, a snapshot, and a log with commands before and
    after the snapshot's watermarks. *)
Definition demo_cfg : Config :=
  mkConfig "engine-1" ["AAPL"; "BTCUSD"]%string 2 1024 512 "wal" "snap" 128 65536 100 false 0.
Definition demo_cmd (seq : Z) (sym : string) (id : Z) (side price qty : Z) : Command :=
  mkCommand seq sym CommandNew id side OrderTypeLimit TIFGTC price qty 0 0.

(** The record of a command applied to the book [s]. *)
Definition live_record (shard : Z) (cmd : Command) (s : Snapshot) : Record_ :=
  mkRecord shard (cmd_Seq cmd) cmd (spec_Apply cmd s).1.

Definition log_registry : SymbolRegistry :=
  match NewSymbolRegistry ["AAPL"; "BTCUSD"]%string 2 with Ret (inr r) => r | _ => mkSymbolRegistry 2 ∅ ∅ end.
Lemma log_registry_built : NewSymbolRegistry ["AAPL"; "BTCUSD"]%string 2 = Ret (inr log_registry).
Proof. vm_compute. reflexivity. Qed.

Definition aapl0 : Snapshot := empty_snapshot "AAPL" 1.
Definition c1 : Command := demo_cmd 1 "AAPL" 7 SideBuy 100 5.
Definition aapl1 : Snapshot := Eval vm_compute in (spec_Apply c1 aapl0).2.
Definition c3 : Command := demo_cmd 3 "AAPL" 9 SideSell 99 2.
Definition aapl3 : Snapshot := Eval vm_compute in (spec_Apply c3 aapl1).2.
Definition btc0 : Snapshot := empty_snapshot "BTCUSD" 1.
Definition c2 : Command := demo_cmd 2 "BTCUSD" 8 SideSell 50 4.
Definition btc2 : Snapshot := Eval vm_compute in (spec_Apply c2 btc0).2.

Definition aapl_shard : Z := Eval vm_compute in shard_of 2 "AAPL".
Definition btc_shard : Z := Eval vm_compute in shard_of 2 "BTCUSD".
Definition demo_recs (id : Z) : list Record_ :=
  if id =? aapl_shard then [live_record aapl_shard c1 aapl0; live_record aapl_shard c3 aapl1]
  else if id =? btc_shard then [live_record btc_shard c2 btc0] else [].
Definition demo_wal : dir :=
  {[ "shard-00-000000.wal"%string := Some (segment_bytes (mkSegmentHeader "engine-1" 0 2) (demo_recs 0));
     "shard-01-000000.wal"%string := Some (segment_bytes (mkSegmentHeader "engine-1" 1 2) (demo_recs 1)) ]}.
Definition demo_lasts : list Z := <[Z.to_nat aapl_shard := 1]> [0; 0].
Definition demo_snapshot : error + (EngineSnapshot * string) :=
  inr (mkEngineSnapshot "engine-1" 2 demo_lasts [aapl1; btc0], "snapshot-00000000000000000001.snap"%string).

Lemma dir_ok_insert d name data : bytes_ok data -> dir_ok d -> dir_ok (<[name := Some data]> d).
Proof.
  intros Hb Hd n x. destruct (decide (n = name)) as [->|Hne]; [rewrite lookup_insert_eq; by intros [= <-]|].
  rewrite lookup_insert_ne by done. apply Hd.
Qed.

Lemma demo_wal_ok : dir_ok demo_wal.
Proof.
  apply dir_ok_insert; [|apply dir_ok_insert; [|intros n x; by rewrite lookup_empty]];
    apply bytes_ok_app; auto using segment_header_bytes_ok, frames_ok with bytes.
Qed.

Lemma demo_snapshot_ok : snapshot_ok demo_snapshot.
Proof.
  assert (forall c s, command_typed c -> book_ok s -> book_ok (spec_Apply c s).2) as Hstep
    by (intros; by apply spec_Apply_ok).
  constructor; [|constructor; [by apply empty_book_ok|constructor]].
  apply (Hstep c1 aapl0); [constructor; in_range|by apply empty_book_ok].
Qed.

Lemma recovery_restores_live_state_witness :
  exists r out lasts', NewSymbolRegistry ["AAPL"; "BTCUSD"]%string 2 = Ret (inr r) /\
    recoverBooks demo_cfg r demo_snapshot demo_wal = Ret (inr (out, lasts')) /\
    out !! "AAPL"%string = Some aapl3 /\ out !! "BTCUSD"%string = Some btc2 /\ lasts' !! 1%nat = Some 3.
Proof.
  exists log_registry. set (F := fun id : Z => if id =? 0 then {[ "BTCUSD"%string := btc2; "AAPL"%string := aapl1 ]}
                      else {[ "BTCUSD"%string := btc0; "AAPL"%string := aapl3 ]} : state).
  destruct (recovery_restores_live_state demo_cfg log_registry demo_snapshot demo_wal
    {[ "AAPL"%string := aapl1; "BTCUSD"%string := btc0 ]} demo_lasts demo_recs
    (fun id => if id =? 0 then 2 else 3) F ltac:(vm_compute; split; reflexivity) log_registry_built demo_snapshot_ok demo_wal_ok)
    as (out & lasts' & Hrun & Hout & Hlasts).
  - vm_compute. reflexivity.
  - intros id Hid. assert (id = 0 \/ id = 1) as [->| ->] by (simpl in Hid; lia); vm_compute; reflexivity.
  - intros id Hid. assert (id = 0 \/ id = 1) as [->| ->] by (simpl in Hid; lia).
    + exists 0. split; [vm_compute; reflexivity|].
      eapply hist_new; [done|vm_compute; reflexivity..|]. vm_compute. apply hist_done.
    + exists 1. split; [vm_compute; reflexivity|].
      eapply hist_old; [done|]. eapply hist_new; [done|vm_compute; reflexivity..|]. vm_compute. apply hist_done.
  - exists out, lasts'. split_and!; [exact log_registry_built|exact Hrun| | |apply (Hlasts 1); vm_compute; split; congruence].
    + rewrite (Hout "AAPL"%string 1); vm_compute; reflexivity.
    + rewrite (Hout "BTCUSD"%string 0); vm_compute; reflexivity.
Defined.

(** C16. Recovery is total and checks every result.  Whatever bytes the log holds,
    [recoverBooks] returns.  When the sequence numbers of each log increase - a log that a
    run has written - it returns books and watermarks exactly if the snapshot is accepted,
    the logs of all shards can be read, and every record above the watermark of the
    snapshot is for a known symbol and carries the result the reference semantics
    computes at its place; the books are then those of this computation and the
    watermarks the highest numbers.  (A record that is out of order is not recognised,
    see [reordered_records_are_skipped].) *)
Theorem recovery_exact cfg r latest wal :
  0 < cfg_ShardCount cfg -> snapshot_ok latest -> dir_ok wal ->
  exists res, recoverBooks cfg r latest wal = Ret res /\
    (logs_increase cfg wal -> forall out lasts', res = inr (out, lasts') <->
      exists restored lasts, loadSnapshot cfg r latest = inr (restored, lasts) /\
        exact_replays cfg wal (Z.to_nat (cfg_ShardCount cfg)) 0 lasts
          (initial restored (cfg_Symbols cfg)) lasts' out).
Proof.
  intros Hc Hs Hd. destruct (recoverBooks_spec cfg r latest wal Hc Hs Hd) as (res & Hrun & Hres).
  exists res. split; [done|]. intros Hlogs out lasts'. rewrite Hres.
  by setoid_rewrite <-(replays_exact cfg wal (Z.to_nat (cfg_ShardCount cfg)) 0 _ _ _ _ Hlogs ltac:(lia) ltac:(lia)).
Qed.

(** The same log with a tampered quantity in a result. *)
Definition tampered_wal : dir :=
  <["shard-00-000000.wal"%string := Some (segment_bytes (mkSegmentHeader "engine-1" 0 2)
      [mkRecord 0 2 c2 (mkResult 2 [ev_accepted 8; ev_rested 8 50 5])])]> demo_wal.

Lemma tampered_wal_ok : dir_ok tampered_wal.
Proof.
  apply dir_ok_insert; [|apply demo_wal_ok].
  apply bytes_ok_app; auto using segment_header_bytes_ok, frames_ok with bytes.
Qed.

Lemma demo_logs_increase : logs_increase demo_cfg demo_wal /\ logs_increase demo_cfg tampered_wal.
Proof.
  split; intros id recs Hid Hread; (assert (id = 0 \/ id = 1) as [-> | ->] by (simpl in Hid; lia));
    vm_compute in Hread; injection Hread as <-; vm_compute; repeat constructor.
Qed.

(** The log is accepted with its result, and refused with the other one. *)
Lemma recovery_exact_witness :
  (exists r out lasts', recoverBooks demo_cfg r (inl ErrNotExist) demo_wal = Ret (inr (out, lasts')) /\ lasts' = [2; 3]) /\
  exists e, recoverBooks demo_cfg log_registry (inl ErrNotExist) tampered_wal = Ret (inl e).
Proof.
  destruct demo_logs_increase as [Hl1 Hl2]. split.
  - exists log_registry.
    destruct (recovery_exact demo_cfg log_registry (inl ErrNotExist) demo_wal) as (res & Hrun & Hres);
      [done|done|apply demo_wal_ok|].
    eexists _, [2; 3]. split; [|done]. rewrite Hrun. f_equal. apply (Hres Hl1). eexists _, _. split; [vm_compute; reflexivity|].
    eapply ers_shard; [vm_compute; reflexivity|vm_compute; reflexivity| |].
    + eapply er_record; [vm_compute; reflexivity..|apply er_done].
    + eapply ers_shard; [vm_compute; reflexivity|vm_compute; reflexivity| |vm_compute; apply ers_done].
      eapply er_record; [vm_compute; reflexivity..|]. eapply er_record; [vm_compute; reflexivity..|apply er_done].
  - destruct (recovery_exact demo_cfg log_registry (inl ErrNotExist) tampered_wal) as (res & Hrun & Hres);
      [done|done|apply tampered_wal_ok|].
    destruct res as [e|[out lasts']]; [by exists e|]. exfalso.
    destruct (proj1 (Hres Hl2 out lasts') eq_refl) as (restored & lasts & Hload & Hrp). vm_compute in Hload. injection Hload as <- <-.
    inversion Hrp as [|? ? ? ? recs last ? ? ? Hread Hlast Hx _]; subst. vm_compute in Hread. injection Hread as <-.
    vm_compute in Hlast. injection Hlast as <-. vm_compute in Hx. inversion Hx as [|? ? ? ? ? Hs Hr]; subst.
    vm_compute in Hs. injection Hs as <-. vm_compute in Hr. discriminate Hr.
Defined.

(** The ordering check of [recoverBooks] is dead code.  Replaying a shard never
    reports a non-monotonic sequence: a record whose number is not greater than
    the one before it is taken for one the snapshot covers and is skipped, so
    the log replays as if the record were not there. *)
Theorem reordered_records_are_skipped id recs r1 r2 last books :
  (forall e, recoverRecords id recs last last books = Ret (inl e) -> ~ non_monotonic e) /\
  (last < rec_CommandSeq r1 -> rec_CommandSeq r2 <= rec_CommandSeq r1 ->
   recoverRecords id (r1 :: r2 :: recs) last last books = recoverRecords id (r1 :: recs) last last books).
Proof.
  split.
  - revert last books. induction recs as [|rec recs IH]; intros last books e; cbn [recoverRecords]; [done|].
    destruct (Z.leb_spec (rec_CommandSeq rec) last); [apply IH|].
    destruct (books !! _) as [b|]; [|by intros [= <-] [? ?]].
    destruct (Apply (rec_Command rec) b) as [[res b']| |]; cbn [obind]; [|done..].
    case_match; [by intros [= <-] [? ?]|apply IH].
  - intros H1 H2. cbn [recoverRecords]. rewrite (proj2 (Z.leb_gt _ _) H1).
    destruct (books !! _) as [b|]; [|done].
    destruct (Apply (rec_Command r1) b) as [[res b']| |]; cbn [obind]; [|done..].
    case_match; [done|]. by rewrite (proj2 (Z.leb_le _ _) H2).
Qed.

(** Of two records in the wrong order the second is dropped silently. *)
Definition reordered : list Record_ :=
  [live_record 1 (demo_cmd 3 "AAPL" 7 SideBuy 100 5) aapl0; live_record 1 (demo_cmd 2 "AAPL" 8 SideBuy 100 5) aapl0].

Lemma reordered_records_are_skipped_witness :
  recoverRecords 1 reordered 0 0 {[ "AAPL"%string := Book_New "AAPL" ]}
  = recoverRecords 1 (take 1 reordered) 0 0 {[ "AAPL"%string := Book_New "AAPL" ]}.
Proof.
  apply (proj2 (reordered_records_are_skipped 1 [] (live_record 1 (demo_cmd 3 "AAPL" 7 SideBuy 100 5) aapl0)
    (live_record 1 (demo_cmd 2 "AAPL" 8 SideBuy 100 5) aapl0) 0 {[ "AAPL"%string := Book_New "AAPL" ]}));
    vm_compute; congruence.
Defined.

(** The stand-alone recovery refuses logs the engine writes.  For a symbol that
    is in the log but not in the snapshot [RecoverFromSnapshotAndWAL] starts from
    a book whose trade counter is 0, where the engine's new books start at 1, so
    the first trade gets another id; on the log of a run from empty books the
    engine's own recovery succeeds and the stand-alone one reports a mismatch. *)
Theorem standalone_recovery_rejects_engine_log :
  exists wal r out lasts snap,
    NewSymbolRegistry (cfg_Symbols demo_cfg) (cfg_ShardCount demo_cfg) = Ret (inr r) /\
    recoverBooks demo_cfg r (inr (snap, ""%string)) wal = Ret (inr (out, lasts)) /\
    RecoverFromSnapshotAndWAL NewFromSnapshot (inr (snap, ""%string)) wal
      (cfg_EngineID demo_cfg) (cfg_ShardCount demo_cfg)
    = Ret (inl (Errorf "replay mismatch on seq %d" [ANum 3])).
Proof.
  exists demo_wal, log_registry. eexists _, _, (mkEngineSnapshot "engine-1" 2 [0; 0] []).
  split; [exact log_registry_built|]. split; vm_compute; reflexivity.
Qed.

(** C36. Behind its interface the stand-alone recovery agrees with the engine's.  If
    the snapshot has a book for every configured symbol and the engine's recovery
    succeeds, then [RecoverFromSnapshotAndWAL], with any implementation of a
    replayed book that satisfies the interface's laws, succeeds too and returns
    the same watermarks. *)
Theorem standalone_recovery_agrees {B} `{ReplayedBook B} (factory : Snapshot -> outcome B)
  `{!ReplayLaws B factory} cfg r snap path wal out lasts :
  0 < cfg_ShardCount cfg -> Forall book_ok (es_Books snap) -> dir_ok wal ->
  (forall sym, sym ∈ cfg_Symbols cfg -> sym ∈ map sn_Symbol (es_Books snap)) ->
  recoverBooks cfg r (inr (snap, path)) wal = Ret (inr (out, lasts)) ->
  RecoverFromSnapshotAndWAL factory (inr (snap, path)) wal (cfg_EngineID cfg) (cfg_ShardCount cfg)
  = Ret (inr (mkRecoverResult path lasts)).
Proof.
  intros Hc Hs Hd Hsym Hrun.
  destruct (recoverBooks_inv cfg r (inr (snap, path)) wal out lasts Hc Hs Hd Hrun)
    as (restored & lasts0 & Hl & Hrp).
  unfold RecoverFromSnapshotAndWAL. unfold loadSnapshot in Hl.
  repeat (case_match; [done|]). simplify_eq.
  destruct (makeBooks_restored r (es_Books snap) ∅ ∅ restored Hs) as (books & -> & Hi);
    [by intros ? ?; rewrite lookup_empty|done|]. cbn [obind].
  erewrite replayShards_replays; [cbn [obind]; reflexivity|done|exact Hrp|].
  intros sym s Hlk. apply Hi. eapply initial_lookup; [| |exact Hlk].
  - intros x Hx. eapply restoredBooks_dom; [done|]. left. auto.
  - intros x t. by rewrite lookup_empty.
Qed.

Definition full_snapshot : EngineSnapshot := mkEngineSnapshot "engine-1" 2 demo_lasts [aapl1; btc0].

Lemma full_recovered :
  exists r out, recoverBooks demo_cfg r (inr (full_snapshot, "s"%string)) demo_wal = Ret (inr (out, [2; 3])).
Proof.
  exists log_registry. eexists. vm_compute. reflexivity.
Qed.

Lemma standalone_recovery_agrees_witness :
  RecoverFromSnapshotAndWAL NewFromSnapshot (inr (full_snapshot, "s"%string)) demo_wal "engine-1" 2
  = Ret (inr (mkRecoverResult "s" [2; 3])).
Proof.
  destruct full_recovered as (r & out & Hrun).
  apply (standalone_recovery_agrees NewFromSnapshot demo_cfg r full_snapshot "s" demo_wal out [2; 3]).
  - reflexivity.
  - apply demo_snapshot_ok.
  - apply demo_wal_ok.
  - intros sym. apply (fun x => x).
  - exact Hrun.
Defined.
