(* ===== verification/Names.v ===== *)
(** * Names: zero-padded numbers in file names sort by value

    Segment and snapshot files carry a zero-padded number, and the program orders
    the files by sorting their names as strings.  As long as the number fits the
    width, that is the order of the numbers. *)

From stdpp Require Import pretty.
From S2P Require Import Prelude Fs.

(** ** Comparing strings *)

Lemma compare_app a b c d :
  String.length a = String.length b ->
  String.compare (a +:+ c) (b +:+ d) =
  match String.compare a b with Eq => String.compare c d | r => r end.
Proof.
  revert b. induction a as [|x a IH]; intros [|y b] H; try done. simpl in *.
  destruct (Ascii.compare x y); [apply IH; lia|done|done].
Qed.

Lemma compare_refl a : String.compare a a = Eq.
Proof. pose proof (String.compare_antisym a a) as H. by destruct (String.compare a a). Qed.

Lemma length_sapp a b : String.length (a +:+ b) = (String.length a + String.length b)%nat.
Proof. induction a as [|x a IH]; simpl; [done|by rewrite IH]. Qed.

Lemma sapp_assoc a b c : ((a +:+ b) +:+ c)%string = (a +:+ (b +:+ c))%string.
Proof. induction a as [|x a IH]; [done|]. exact (f_equal (String x) IH). Qed.

Lemma sapp_nil a : (a +:+ "")%string = a.
Proof. induction a as [|x a IH]; [done|]. exact (f_equal (String x) IH). Qed.

#[export] Instance string_le_trans : Transitive string_le.
Proof.
  unfold string_le, String.leb. intros a. induction a as [|x a IH]; intros b c.
  { by destruct c. }
  destruct b as [|y b]; simpl; [done|]. unfold Ascii.compare at 1.
  destruct c as [|z c]; simpl; [by destruct (N.compare _ _)|]. unfold Ascii.compare.
  destruct (N.compare_spec (Ascii.N_of_ascii x) (Ascii.N_of_ascii y)) as [->|Hxy|Hxy]; [|intros _|done].
  - destruct (N.compare _ _); [apply IH|done|done].
  - destruct (N.compare_spec (Ascii.N_of_ascii y) (Ascii.N_of_ascii z)) as [<-|Hyz|Hyz]; [..|done].
    + by rewrite (proj2 (N.compare_lt_iff _ _) Hxy).
    + by rewrite (proj2 (N.compare_lt_iff _ _) (N.lt_trans _ _ _ Hxy Hyz)).
Qed.

#[export] Instance string_le_antisymm : AntiSymm (=) string_le.
Proof.
  intros a b Ha Hb. unfold string_le, String.leb in *. rewrite String.compare_antisym in Hb.
  destruct (String.compare a b) eqn:E; [by apply String.compare_eq_iff|done|done].
Qed.

Lemma string_le_refl a : string_le a a.
Proof. unfold string_le, String.leb. by rewrite compare_refl. Qed.

(** ** Decimal digits *)

(** The last [w] decimal digits of [n]. *)
Fixpoint digits (w : nat) (n : N) : string :=
  match w with
  | O => ""
  | S w' => (digits w' (n `div` 10) +:+ String (pretty_N_char (n `mod` 10)) "")%string
  end.

Lemma digits_length w n : String.length (digits w n) = w.
Proof. revert n. induction w as [|w IH]; intros n; [done|]. simpl. rewrite length_sapp, IH. simpl. lia. Qed.

Lemma zeros_snoc w : (zeros w +:+ "0")%string = zeros (S w).
Proof. induction w as [|w IH]; [done|]. cbn [zeros]. by rewrite sapp_assoc, IH. Qed.

Lemma digits_zero w : digits w 0 = zeros w.
Proof.
  induction w as [|w IH]; [done|]. cbn [digits]. change (0 `div` 10)%N with 0%N. rewrite IH. apply zeros_snoc.
Qed.

Lemma pretty_go_app x s : pretty_N_go x s = (pretty_N_go x "" +:+ s)%string.
Proof.
  revert s. induction (N.lt_wf_0 x) as [x _ IH]; intros s.
  destruct (decide (x = 0)%N) as [->|Hx]; [done|]. assert (0 < x)%N as Hpos by lia.
  rewrite !(pretty_N_go_step x) by done. rewrite (IH _ (N.div_lt x 10 Hpos eq_refl) (String _ s)).
  rewrite (IH _ (N.div_lt x 10 Hpos eq_refl) (String _ "")). by rewrite sapp_assoc.
Qed.

Lemma zeros_digits w x :
  (x < 10 ^ N.of_nat w)%N -> (zeros (w - String.length (pretty_N_go x "")) +:+ pretty_N_go x "")%string = digits w x /\
    (String.length (pretty_N_go x "") <= w)%nat.
Proof.
  revert x. induction w as [|w IH]; intros x Hx.
  { replace x with 0%N by (change (10 ^ N.of_nat 0)%N with 1%N in Hx; lia). done. }
  destruct (decide (x = 0)%N) as [->|Hne].
  { rewrite digits_zero, pretty_N_go_0. change (String.length "") with 0%nat.
    rewrite sapp_nil, Nat.sub_0_r. split; [done|lia]. }
  assert (x `div` 10 < 10 ^ N.of_nat w)%N as Hd.
  { apply N.Div0.div_lt_upper_bound. rewrite Nat2N.inj_succ, N.pow_succ_r' in Hx. lia. }
  destruct (IH _ Hd) as [H1 H2]. rewrite pretty_N_go_step by lia. rewrite pretty_go_app.
  rewrite length_sapp. cbn [String.length digits]. rewrite <-H1, sapp_assoc.
  split; [|lia]. do 2 f_equal. lia.
Qed.

Lemma pad_digits w n : (0 < w)%nat -> 0 <= n < 10 ^ Z.of_nat w -> pad w n = digits w (Z.to_N n).
Proof.
  intros Hw Hn. unfold pad. destruct n as [|p|p]; [|..|lia].
  - change (pretty 0%Z) with "0"%string. rewrite digits_zero. destruct w as [|w]; [lia|].
    change (String.length "0") with 1%nat. rewrite <-zeros_snoc. do 2 f_equal. lia.
  - change (pretty (Zpos p)) with (pretty_N_go (Npos p) ""). apply zeros_digits.
    cbn [Z.to_N]. apply N2Z.inj_lt. rewrite N2Z.inj_pow, nat_N_Z. simpl. lia.
Qed.

Lemma char_compare a b :
  (a < 10)%N -> (b < 10)%N -> Ascii.compare (pretty_N_char a) (pretty_N_char b) = (a ?= b)%N.
Proof.
  intros Ha Hb. assert (forall x, (x < 10)%N -> Ascii.N_of_ascii (pretty_N_char x) = (48 + x)%N) as H.
  { intros x Hx. assert (x = 0 \/ x = 1 \/ x = 2 \/ x = 3 \/ x = 4 \/ x = 5 \/ x = 6 \/ x = 7 \/ x = 8 \/ x = 9)%N
      as Hc by lia. destruct_or! Hc; by subst. }
  unfold Ascii.compare. rewrite !H by done. rewrite <-!N2Z.inj_compare, !N2Z.inj_add. apply Z.add_compare_mono_l.
Qed.

Lemma digits_compare w a b :
  (a < 10 ^ N.of_nat w)%N -> (b < 10 ^ N.of_nat w)%N ->
  String.compare (digits w a) (digits w b) = (a ?= b)%N.
Proof.
  revert a b. induction w as [|w IH]; intros a b Ha Hb.
  { change (10 ^ N.of_nat 0)%N with 1%N in *. replace a with 0%N by lia. by replace b with 0%N by lia. }
  rewrite Nat2N.inj_succ, N.pow_succ_r' in Ha, Hb. cbn [digits].
  rewrite compare_app by (by rewrite !digits_length).
  rewrite IH by (apply N.Div0.div_lt_upper_bound; lia).
  pose proof (N.div_mod a 10 ltac:(done)) as Ea. pose proof (N.div_mod b 10 ltac:(done)) as Eb.
  pose proof (N.mod_lt a 10 ltac:(done)). pose proof (N.mod_lt b 10 ltac:(done)).
  clear IH Ha Hb. set (qa := (a `div` 10)%N) in *. set (qb := (b `div` 10)%N) in *.
  set (ra := (a `mod` 10)%N) in *. set (rb := (b `mod` 10)%N) in *. clearbody qa qb ra rb.
  destruct (N.compare_spec qa qb) as [E|E|E].
  - cbn [String.compare]. rewrite char_compare by done.
    destruct (N.compare_spec ra rb); symmetry;
      [apply N.compare_eq_iff|apply N.compare_lt_iff|apply N.compare_gt_iff]; lia.
  - symmetry. apply N.compare_lt_iff. lia.
  - symmetry. apply N.compare_gt_iff. lia.
Qed.

(** Padded numbers that fit the width have its length and compare like the numbers. *)
Lemma pad_length w n : (0 < w)%nat -> 0 <= n < 10 ^ Z.of_nat w -> String.length (pad w n) = w.
Proof. intros Hw Hn. by rewrite pad_digits, digits_length. Qed.

Lemma pad_compare w a b :
  (0 < w)%nat -> 0 <= a < 10 ^ Z.of_nat w -> 0 <= b < 10 ^ Z.of_nat w ->
  String.compare (pad w a) (pad w b) = (a ?= b).
Proof.
  intros Hw Ha Hb. rewrite !pad_digits by done.
  assert (forall n, 0 <= n < 10 ^ Z.of_nat w -> (Z.to_N n < 10 ^ N.of_nat w)%N) as Hlt.
  { intros n Hn. apply N2Z.inj_lt. rewrite Z2N.id, N2Z.inj_pow, nat_N_Z by lia. simpl. lia. }
  rewrite digits_compare by auto. apply Z2N.inj_compare; lia.
Qed.

(** A padded number between two fixed strings. *)
Definition numbered (prefix : string) (w : nat) (n : Z) (suffix : string) : string :=
  (prefix +:+ pad w n +:+ suffix)%string.

Lemma numbered_compare prefix w a b suffix :
  (0 < w)%nat -> 0 <= a < 10 ^ Z.of_nat w -> 0 <= b < 10 ^ Z.of_nat w ->
  String.compare (numbered prefix w a suffix) (numbered prefix w b suffix) = (a ?= b).
Proof.
  intros Hw Ha Hb. unfold numbered. rewrite compare_app, compare_refl by done.
  rewrite compare_app by (by rewrite !pad_length). rewrite pad_compare, compare_refl by done.
  by destruct (a ?= b).
Qed.

Lemma numbered_le prefix w a b suffix :
  (0 < w)%nat -> 0 <= a -> a <= b -> b < 10 ^ Z.of_nat w ->
  string_le (numbered prefix w a suffix) (numbered prefix w b suffix).
Proof.
  intros Hw Ha Hab Hb. unfold string_le, String.leb. rewrite numbered_compare by lia.
  destruct (Z.compare_spec a b); [done|done|lia].
Qed.

Lemma numbered_inj prefix w a b suffix :
  (0 < w)%nat -> 0 <= a < 10 ^ Z.of_nat w -> 0 <= b < 10 ^ Z.of_nat w ->
  numbered prefix w a suffix = numbered prefix w b suffix -> a = b.
Proof.
  intros Hw Ha Hb E. apply Z.compare_eq_iff. rewrite <-(numbered_compare prefix w a b suffix) by done.
  rewrite E. apply compare_refl.
Qed.

(** ** Which names a pattern selects *)

Lemma prefix_sapp p x : String.prefix p (p +:+ x) = true.
Proof.
  induction p as [|c p IH]; [by destruct x|]. change (String c p +:+ x) with (String c (p +:+ x)).
  cbn [String.prefix]. by destruct (Ascii.ascii_dec c c).
Qed.

Lemma substring_sapp a b i n : String.substring (String.length a + i) n (a +:+ b) = String.substring i n b.
Proof. induction a as [|c a IH]; [done|]. exact IH. Qed.

Lemma substring_all b : String.substring 0 (String.length b) b = b.
Proof. induction b as [|c b IH]; [done|]. cbn [String.length String.substring]. by rewrite IH. Qed.

Lemma glob_match_mid prefix mid suffix : glob_match prefix suffix (prefix +:+ mid +:+ suffix) = true.
Proof.
  unfold glob_match. rewrite prefix_sapp, !length_sapp.
  rewrite (proj2 (Nat.leb_le _ _)) by lia. rewrite <-sapp_assoc.
  replace (_ - _)%nat with (String.length (prefix +:+ mid) + 0)%nat by (rewrite length_sapp; lia).
  rewrite substring_sapp, substring_all. by rewrite String.eqb_refl.
Qed.

Lemma glob_match_numbered prefix w n suffix : glob_match prefix suffix (numbered prefix w n suffix) = true.
Proof. apply glob_match_mid. Qed.

(** A name with another ending is not selected. *)
Lemma glob_match_ending prefix suffix x ending :
  String.length ending = String.length suffix -> ending <> suffix ->
  glob_match prefix suffix (x +:+ ending) = false.
Proof.
  intros Hl Hne. unfold glob_match. rewrite length_sapp, Hl.
  replace (String.length x + String.length suffix - String.length suffix)%nat
    with (String.length x + 0)%nat by lia.
  rewrite substring_sapp, <-Hl, substring_all. rewrite (proj2 (String.eqb_neq _ _) Hne).
  by rewrite andb_false_r.
Qed.

(** Directories that agree on the selected names list the same files. *)
Lemma glob_sorted_ext d1 d2 prefix suffix :
  (forall n, glob_match prefix suffix n = true -> is_Some (d1 !! n) <-> is_Some (d2 !! n)) ->
  glob_sorted d1 prefix suffix = glob_sorted d2 prefix suffix.
Proof.
  intros H. apply (StronglySorted_unique string_le); [apply Sorted_StronglySorted, glob_sorted_sorted; apply _..|].
  apply NoDup_Permutation; [apply glob_sorted_NoDup..|]. intros n. rewrite !glob_sorted_elem. naive_solver.
Qed.

(** A sorted, duplicate-free list of exactly the selected names is the listing. *)
Lemma glob_sorted_unique d prefix suffix l :
  StronglySorted string_le l -> NoDup l ->
  (forall n, n ∈ l <-> glob_match prefix suffix n = true /\ is_Some (d !! n)) ->
  glob_sorted d prefix suffix = l.
Proof.
  intros Hs Hnd H. apply (StronglySorted_unique string_le);
    [apply Sorted_StronglySorted, glob_sorted_sorted; apply _|done|].
  apply NoDup_Permutation; [apply glob_sorted_NoDup|done|]. intros n. by rewrite glob_sorted_elem, H.
Qed.

(** The last file of a listing is its greatest name. *)
Lemma glob_sorted_last d prefix suffix n :
  last (glob_sorted d prefix suffix) = Some n <->
  glob_match prefix suffix n = true /\ is_Some (d !! n) /\
  forall m, glob_match prefix suffix m = true -> is_Some (d !! m) -> string_le m n.
Proof.
  pose proof (Sorted_StronglySorted _ _ (glob_sorted_sorted d prefix suffix)) as Hs.
  pose proof (glob_sorted_elem d prefix suffix) as Hin. set (l := glob_sorted d prefix suffix) in *.
  assert (forall x m, last l = Some x -> m ∈ l -> string_le m x) as Hmax.
  { intros x m (l' & Hl)%last_Some Hm. rewrite Hl in Hs, Hm. apply elem_of_app in Hm as [Hm|Hm].
    - eapply StronglySorted_app_1_elem_of; [exact Hs|done|by left].
    - apply list_elem_of_singleton in Hm as ->. apply string_le_refl. }
  split.
  - intros Hl. assert (n ∈ l) as Hn by (by apply last_Some_elem_of). apply Hin in Hn as [H1 H2].
    split_and!; [done|done|]. intros m Hm1 Hm2. apply (Hmax n m Hl). by apply Hin.
  - intros (H1 & H2 & H3). assert (n ∈ l) as Hn by (by apply Hin). destruct (last l) as [x|] eqn:E.
    + f_equal. apply (anti_symm string_le); [|by apply Hmax]. apply last_Some_elem_of in E.
      apply Hin in E as [Hx1 Hx2]. by apply H3.
    + apply last_None in E. rewrite E in Hn. by apply not_elem_of_nil in Hn.
Qed.
