(* ===== verification/Disk.v ===== *)
(** * Disk: file operations that can fail, and what a crash leaves behind

    What the snapshot store and the log writer use of package [os].  A file is an
    inode with its bytes and the number of bytes known to be on disk; a directory
    has the entries processes see and the entries known to be on disk.  [Sync]
    makes bytes durable and syncing the directory makes entries durable; a crash
    keeps every durable byte and entry, of the other entries any, and of the bytes
    appended to a file after the last sync any beginning.  This is what the program
    relies on - a cut tail is the damage its reader tolerates - and more than every file
    system promises: one that lets the size of a file grow before its data, or writes
    blocks out of order, can leave other bytes there, and then reading stops with an error.

    A program is run with a list of faults, one per operation: the operation
    succeeds, fails having done some of its work, or the machine crashes in it. *)

From S2P Require Import Prelude Bytes Fs.

(** ** State *)

Record inode := mkInode { ino_data : list Z; ino_synced : nat }.

Record disk := mkDisk {
  dk_inodes : list inode;
  dk_names : gmap string nat;
  dk_durable : gmap string nat
}.

(** The directory as processes see it. *)
Definition view (dk : disk) : dir :=
  (fun i => ino_data <$> dk_inodes dk !! i) <$> dk_names dk.

(** [d] is a directory that can be found after a crash: of every name the current
    or the durable entry, of every file the synced bytes and a beginning of the rest. *)
Definition survives (dk : disk) (d : dir) : Prop :=
  forall n, exists e, (e = dk_names dk !! n \/ e = dk_durable dk !! n) /\
    match e with
    | None => d !! n = None
    | Some i => exists ino k, dk_inodes dk !! i = Some ino /\ (ino_synced ino <= k)%nat /\
                  d !! n = Some (Some (take k (ino_data ino)))
    end.

(** ** Programs *)

Inductive fault := Fine | Fails (n : nat) | Crashes (n : nat).

Inductive io_result (A : Type) :=
| Done (r : error + A) (dk : disk) (faults : list fault)
| Crashed (dk : disk).
Arguments Done {A}.
Arguments Crashed {A}.

Definition IO (A : Type) : Type := disk -> list fault -> io_result A.

Definition io_ret {A} (a : A) : IO A := fun dk fs => Done (inr a) dk fs.
Definition io_err {A} (e : error) : IO A := fun dk fs => Done (inl e) dk fs.

(** An error is returned at once, as [if err != nil { return err }] does. *)
Definition io_bind {A B} (m : IO A) (k : A -> IO B) : IO B :=
  fun dk fs => match m dk fs with
               | Done (inr a) dk' fs' => k a dk' fs'
               | Done (inl e) dk' fs' => Done (inl e) dk' fs'
               | Crashed dk' => Crashed dk'
               end.

(** On an error of [m] run [c], ignore its result and return the error. *)
Definition io_cleanup {A B} (m : IO A) (c : IO B) : IO A :=
  fun dk fs => match m dk fs with
               | Done (inl e) dk' fs' =>
                   match c dk' fs' with
                   | Done _ dk'' fs'' => Done (inl e) dk'' fs''
                   | Crashed dk'' => Crashed dk''
                   end
               | r => r
               end.

Notation "'let@' x := m 'in' k" := (io_bind m (fun x => k))
  (at level 10, x name, m at level 100, k at level 200) : go_scope.
Notation "'do@' m 'in' k" := (io_bind m (fun _ => k))
  (at level 10, m at level 100, k at level 200) : go_scope.

(** ** Operations *)

(** [full] is the operation, [part n] what it may have done when it fails. *)
Definition io_op {A} (name path : string) (full : disk -> error + (A * disk))
  (part : nat -> disk -> disk) : IO A :=
  fun dk fs =>
    match fs with
    | Fails n :: fs' => Done (inl (ErrOS name path)) (part n dk) fs'
    | Crashes n :: _ => Crashed (part n dk)
    | _ => match full dk with
           | inl e => Done (inl e) dk (tail fs)
           | inr (a, dk') => Done (inr a) dk' (tail fs)
           end
    end.

Definition no_part (n : nat) (dk : disk) : disk := dk.
Definition or_all {A} (full : disk -> error + (A * disk)) (n : nat) (dk : disk) : disk :=
  match n, full dk with
  | S _, inr (_, dk') => dk'
  | _, _ => dk
  end.

Definition MkdirAll (dir : string) : IO unit := io_op "mkdir" dir (fun dk => inr (tt, dk)) no_part.

Definition set_inode (i : nat) (ino : inode) (dk : disk) : disk :=
  mkDisk (<[i := ino]> (dk_inodes dk)) (dk_names dk) (dk_durable dk).

Definition create (name : string) (dk : disk) : nat * disk :=
  (length (dk_inodes dk),
   mkDisk (dk_inodes dk ++ [mkInode [] 0]) (<[name := length (dk_inodes dk)]> (dk_names dk)) (dk_durable dk)).

(** [os.OpenFile] with [O_CREATE|O_TRUNC|O_WRONLY]: the result is the open file. *)
Definition open_trunc (name : string) (dk : disk) : error + (nat * disk) :=
  match dk_names dk !! name with
  | Some i => inr (i, set_inode i (mkInode [] 0) dk)
  | None => inr (create name dk)
  end.
Definition OpenTrunc (name : string) : IO nat := io_op "open" name (open_trunc name) (or_all (open_trunc name)).

(** [os.OpenFile] with [O_CREATE|O_EXCL|O_WRONLY]. *)
Definition open_excl (name : string) (dk : disk) : error + (nat * disk) :=
  match dk_names dk !! name with
  | Some _ => inl (ErrOS "open" name)
  | None => inr (create name dk)
  end.
Definition OpenExcl (name : string) : IO nat := io_op "open" name (open_excl name) (or_all (open_excl name)).

(** [File.Write] at the end of the file; a short write is an error. *)
Definition append_bytes (f : nat) (bs : list Z) (dk : disk) : disk :=
  match dk_inodes dk !! f with
  | Some ino => set_inode f (mkInode (ino_data ino ++ bs) (ino_synced ino)) dk
  | None => dk
  end.
Definition Write (f : nat) (bs : list Z) : IO nat :=
  io_op "write" "" (fun dk => inr (length bs, append_bytes f bs dk))
    (fun n dk => append_bytes f (take n bs) dk).

Definition sync_file (f : nat) (dk : disk) : disk :=
  match dk_inodes dk !! f with
  | Some ino => set_inode f (mkInode (ino_data ino) (length (ino_data ino))) dk
  | None => dk
  end.
Definition Sync (f : nat) : IO unit := io_op "sync" "" (fun dk => inr (tt, sync_file f dk)) no_part.

Definition Close (f : nat) : IO unit := io_op "close" "" (fun dk => inr (tt, dk)) no_part.

Definition rename (from to : string) (dk : disk) : error + (unit * disk) :=
  match dk_names dk !! from with
  | None => inl ErrNotExist
  | Some i => inr (tt, mkDisk (dk_inodes dk) (<[to := i]> (delete from (dk_names dk))) (dk_durable dk))
  end.
Definition Rename (from to : string) : IO unit := io_op "rename" from (rename from to) (or_all (rename from to)).

(** Open the directory, sync it, close it. *)
Definition sync_dir (dk : disk) : disk := mkDisk (dk_inodes dk) (dk_names dk) (dk_names dk).
Definition OpenDir (dir : string) : IO unit := io_op "open" dir (fun dk => inr (tt, dk)) no_part.
Definition SyncDir (dir : string) : IO unit :=
  do@ OpenDir dir in
  io_op "sync" dir (fun dk => inr (tt, sync_dir dk)) no_part.

(** ** Crash reasoning

    [io_safe P Q m dk]: run from [dk] with any faults, [m] returns with [Q], or fails
    or crashes in a state with [P]. *)

Definition io_safe {A} (P : disk -> Prop) (Q : A -> disk -> Prop) (m : IO A) (dk : disk) : Prop :=
  forall fs, match m dk fs with
             | Done (inr a) dk' _ => Q a dk'
             | Done (inl _) dk' _ => P dk'
             | Crashed dk' => P dk'
             end.

Section Safe.
Context {A : Type} (P : disk -> Prop).

Lemma io_safe_ret (Q : A -> disk -> Prop) a dk : Q a dk -> io_safe P Q (io_ret a) dk.
Proof. by intros H fs. Qed.

Lemma io_safe_err (Q : A -> disk -> Prop) e dk : P dk -> io_safe P Q (io_err e) dk.
Proof. by intros H fs. Qed.

Lemma io_safe_mono (P' : disk -> Prop) (Q Q' : A -> disk -> Prop) m dk :
  io_safe P' Q' m dk -> (forall dk', P' dk' -> P dk') -> (forall a dk', Q' a dk' -> Q a dk') -> io_safe P Q m dk.
Proof. intros Hm HP HQ fs. specialize (Hm fs). destruct (m dk fs) as [[e|a] dk' fs'|dk']; auto. Qed.

Lemma io_safe_bind {B} (R : B -> disk -> Prop) (Q : A -> disk -> Prop) m k dk :
  io_safe P R m dk -> (forall b dk', R b dk' -> io_safe P Q (k b) dk') -> io_safe P Q (io_bind m k) dk.
Proof.
  intros Hm Hk fs. unfold io_bind. specialize (Hm fs).
  destruct (m dk fs) as [[e|b] dk' fs'|dk']; [done|by apply Hk|done].
Qed.

Lemma io_safe_cleanup {B} (Q : A -> disk -> Prop) m (c : IO B) dk :
  io_safe P Q m dk -> (forall dk', P dk' -> io_safe P (fun _ => P) c dk') -> io_safe P Q (io_cleanup m c) dk.
Proof.
  intros Hm Hc fs. unfold io_cleanup. specialize (Hm fs).
  destruct (m dk fs) as [[e|a] dk' fs'|dk']; [|done|done]. specialize (Hc dk' Hm fs').
  by destruct (c dk' fs') as [[e'|b] dk'' fs''|dk''].
Qed.

Lemma io_safe_op (Q : A -> disk -> Prop) name path full part dk :
  (forall n, P (part n dk)) ->
  match full dk with inl _ => P dk | inr (a, dk') => Q a dk' end ->
  io_safe P Q (io_op name path full part) dk.
Proof.
  intros Hp Hf fs. unfold io_op.
  destruct fs as [|[|n|n] fs]; [destruct (full dk) as [e|[a dk']]; done|destruct (full dk) as [e|[a dk']]; done|apply Hp..].
Qed.

Lemma or_all_cases (full : disk -> error + (A * disk)) n dk (R : disk -> Prop) :
  R dk -> (forall a dk', full dk = inr (a, dk') -> R dk') -> R (or_all full n dk).
Proof. intros H1 H2. unfold or_all. destruct n; [done|]. destruct (full dk) as [e|[a dk']] eqn:E; eauto. Qed.
End Safe.

(** Operations without an effect keep whatever held. *)
Lemma io_safe_noop P (Q : unit -> disk -> Prop) name path dk :
  P dk -> Q tt dk -> io_safe P Q (io_op name path (fun dk => inr (tt, dk)) no_part) dk.
Proof. intros HP HQ. by apply io_safe_op. Qed.

(** Nothing is required, nothing is promised. *)
Lemma io_safe_any {A} (m : IO A) dk : io_safe (fun _ => True) (fun _ _ => True) m dk.
Proof. intros fs. by destruct (m dk fs) as [[]|]. Qed.
