(* ===== verification/SnapStore.v ===== *)
(** * SnapStore: saving and loading snapshots (internal/snapshot/snapshot.go)

    A snapshot is written to a temporary file, synced, renamed and the directory
    synced; loading takes the file with the greatest name.  The gob encoder of the
    standard library is a parameter. *)

From S2P Require Import Prelude Model Book Bytes Fs Names Disk Recovery.

Definition snapshotMagic : Z := 0x53504E31.
Definition snapshotVersion : Z := 1.

Record filePayload := mkFilePayload {
  fp_Magic : Z;
  fp_Version : Z;
  fp_Data : EngineSnapshot;
  fp_CRC32C : Z
}.

(** [gob.NewEncoder(&buf).Encode(payload)] and [gob.NewDecoder(r).Decode(&payload)]. *)
Class GobCodec := {
  gob_Encode : filePayload -> error + list Z;
  gob_Decode : list Z -> error + filePayload
}.

(** Gob decodes what it has encoded (empty slices and absent ones are not told apart). *)
Class GobLaws `{GobCodec} := {
  gob_roundtrip : forall p bs, gob_Encode p = inr bs -> gob_Decode bs = inr p
}.

Section Store.
Context `{GobCodec}.

Definition encodeWithoutCRC (payload : filePayload) : error + list Z :=
  gob_Encode (mkFilePayload (fp_Magic payload) (fp_Version payload) (fp_Data payload) 0).
Definition encodeWithCRC (payload : filePayload) : error + list Z := gob_Encode payload.
Definition decodeWithCRC (data : list Z) : error + filePayload := gob_Decode data.

Definition maxSeq (seqs : list Z) : Z :=
  fold_left (fun m s => if s >? m then s else m) seqs 0.

(** [fmt.Sprintf("snapshot-%020d.snap", seq)]. *)
Definition snapshot_name (seq : Z) : string := numbered "snapshot-" 20 seq ".snap".

Definition syncDir (dir : string) : IO unit := SyncDir dir.

Definition lift {A} (r : error + A) : IO A :=
  match r with inl e => io_err e | inr a => io_ret a end.

(** The result is the name of the file; [dir] only names the directory in errors. *)
Definition SaveAtomically (dir : string) (s : EngineSnapshot) : IO string :=
  do@ MkdirAll dir in
  let name := snapshot_name (maxSeq (es_LastAppliedByShard s)) in
  let tmp := (name +:+ ".tmp")%string in
  let payload := mkFilePayload snapshotMagic snapshotVersion s 0 in
  let@ crcBytes := lift (encodeWithoutCRC payload) in
  let payload := mkFilePayload snapshotMagic snapshotVersion s (crc32c crcBytes) in
  let@ allBytes := lift (encodeWithCRC payload) in
  let@ f := OpenTrunc tmp in
  do@ io_cleanup (Write f allBytes) (Close f) in
  do@ io_cleanup (Sync f) (Close f) in
  do@ Close f in
  do@ Rename tmp name in
  do@ syncDir dir in
  io_ret name.

Definition LoadLatest (d : dir) : error + (EngineSnapshot * string) :=
  let files := glob_sorted d "snapshot-" ".snap" in
  match last files with
  | None => inl ErrNotExist
  | Some latest =>
      match ReadFile d latest with
      | inl err => inl err
      | inr data =>
          match decodeWithCRC data with
          | inl err => inl err
          | inr payload =>
              if negb (fp_Magic payload =? snapshotMagic)
              then inl (Errorf "invalid snapshot magic" [])
              else if negb (fp_Version payload =? snapshotVersion)
              then inl (Errorf "unsupported snapshot version: %d" [ANum (fp_Version payload)])
              else match encodeWithoutCRC payload with
              | inl err => inl err
              | inr crcBytes =>
                  let want := crc32c crcBytes in
                  if negb (want =? fp_CRC32C payload)
                  then inl (Errorf "snapshot checksum mismatch" [])
                  else inr (fp_Data payload, latest)
              end
          end
      end
  end.
End Store.

(** ** Snapshot files *)

Definition is_snap (n : string) : Prop := glob_match "snapshot-" ".snap" n = true.

Lemma is_snap_name seq : is_snap (snapshot_name seq).
Proof. apply glob_match_numbered. Qed.

Lemma tmp_not_snap seq : ~ is_snap (snapshot_name seq +:+ ".tmp")%string.
Proof.
  unfold is_snap, snapshot_name, numbered. 
  change ".snap"%string with (".sna" +:+ "p")%string at 2. rewrite !sapp_assoc.
  change ("p" +:+ ".tmp")%string with "p.tmp"%string. rewrite <-!sapp_assoc.
  by rewrite glob_match_ending.
Qed.

Section StoreFacts.
Context `{GobLaws}.

(** The bytes [SaveAtomically] writes for [s]. *)
Definition saved_bytes (s : EngineSnapshot) (bs : list Z) : Prop :=
  exists crc, encodeWithoutCRC (mkFilePayload snapshotMagic snapshotVersion s 0) = inr crc /\
    encodeWithCRC (mkFilePayload snapshotMagic snapshotVersion s (crc32c crc)) = inr bs.

(** If the greatest name holds these bytes, loading gives the snapshot. *)
Lemma LoadLatest_saved d s bs n :
  saved_bytes s bs -> last (glob_sorted d "snapshot-" ".snap") = Some n -> d !! n = Some (Some bs) ->
  LoadLatest d = inr (s, n).
Proof.
  intros (crc & Hc & Hb) Hl Hd. unfold LoadLatest, ReadFile, decodeWithCRC. rewrite Hl, Hd.
  rewrite (gob_roundtrip _ _ Hb). cbn [fp_Magic fp_Version fp_Data fp_CRC32C].
  rewrite !Z.eqb_refl. cbn [negb]. unfold encodeWithoutCRC in *. cbn [fp_Magic fp_Version fp_Data] in *.
  rewrite Hc, Z.eqb_refl. done.
Qed.

(** Loading depends on the snapshot files only. *)
Lemma LoadLatest_ext d1 d2 :
  (forall n, is_snap n -> d1 !! n = d2 !! n) -> LoadLatest d1 = LoadLatest d2.
Proof.
  intros Heq. unfold LoadLatest.
  rewrite (glob_sorted_ext d1 d2) by (intros n Hn; by rewrite Heq).
  destruct (last _) as [n|] eqn:E; [|done]. apply glob_sorted_last in E as (Hn & _ & _).
  unfold ReadFile. by rewrite (Heq n Hn).
Qed.

(** One more snapshot file: loading gives it or what it gave before. *)
Lemma LoadLatest_add d1 d2 s bs name :
  saved_bytes s bs -> is_snap name -> d1 !! name = Some (Some bs) ->
  (forall n, is_snap n -> n <> name -> d1 !! n = d2 !! n) ->
  LoadLatest d1 = LoadLatest d2 \/ LoadLatest d1 = inr (s, name).
Proof.
  intros Hs Hsnap Hd Heq. destruct (last (glob_sorted d1 "snapshot-" ".snap")) as [m|] eqn:E1.
  2:{ apply last_None in E1. assert (name ∈ glob_sorted d1 "snapshot-" ".snap") as Hin
        by (apply glob_sorted_elem; eauto). rewrite E1 in Hin. by apply not_elem_of_nil in Hin. }
  destruct (decide (m = name)) as [->|Hne]; [right; by eapply LoadLatest_saved|].
  left. pose proof E1 as (Hm & Hsome & Hmax)%glob_sorted_last.
  assert (last (glob_sorted d2 "snapshot-" ".snap") = Some m) as E2.
  { apply glob_sorted_last. split_and!; [done|by rewrite <-Heq|]. intros x Hx Hsx.
    destruct (decide (x = name)) as [->|Hx2]; [apply Hmax; eauto|]. apply Hmax; [done|]. by rewrite Heq. }
  unfold LoadLatest. rewrite E1, E2. unfold ReadFile. by rewrite Heq.
Qed.
End StoreFacts.

(** ** Crash safety of saving *)

(** The snapshot files of [dk] are completely on disk. *)
Definition settled (dk : disk) : Prop :=
  forall n, is_snap n -> dk_durable dk !! n = dk_names dk !! n /\
    forall i, dk_names dk !! n = Some i ->
      exists data, dk_inodes dk !! i = Some (mkInode data (length data)).

(** A temporary file left by an earlier run shares its inode with no snapshot. *)
Definition unshared (dk : disk) (tmp : string) : Prop :=
  forall i, dk_names dk !! tmp = Some i -> is_Some (dk_inodes dk !! i) /\
    forall n, is_snap n -> dk_names dk !! n <> Some i.

Section Saving.
Context `{GobLaws} (dk0 : disk) (s : EngineSnapshot) (bs : list Z).
Let name := snapshot_name (maxSeq (es_LastAppliedByShard s)).
Let tmp := (name +:+ ".tmp")%string.
Context (Hsettled : settled dk0) (Hunshared : unshared dk0 tmp) (Hbytes : saved_bytes s bs).

(** The file [n] is as it was. *)
Definition untouched (dk : disk) (n : string) : Prop :=
  dk_names dk !! n = dk_names dk0 !! n /\ dk_durable dk !! n = dk_names dk0 !! n /\
  forall i, dk_names dk0 !! n = Some i -> dk_inodes dk !! i = dk_inodes dk0 !! i.

Definition before_rename (dk : disk) : Prop := forall n, is_snap n -> untouched dk n.

(** The new file is in place, in inode [f]; its entry may not be on disk yet. *)
Record after_rename (f : nat) (dk : disk) : Prop := {
  ar_others : forall n, is_snap n -> n <> name -> untouched dk n;
  ar_name : dk_names dk !! name = Some f;
  ar_inode : dk_inodes dk !! f = Some (mkInode bs (length bs));
  ar_old : forall i, dk_names dk0 !! name = Some i -> dk_inodes dk !! i = dk_inodes dk0 !! i;
  ar_durable : dk_durable dk !! name = dk_names dk0 !! name \/ dk_durable dk !! name = Some f
}.

(** What a crash or an error can leave. *)
Definition recoverable (dk : disk) : Prop := before_rename dk \/ exists f, after_rename f dk.

(** The temporary file is open as [f], with content [data]. *)
Record writing (f : nat) (ino : inode) (dk : disk) : Prop := {
  wt_before : before_rename dk;
  wt_tmp : dk_names dk !! tmp = Some f;
  wt_inode : dk_inodes dk !! f = Some ino;
  wt_private : forall n, is_snap n -> dk_names dk0 !! n <> Some f
}.

Lemma snap_not_tmp n : is_snap n -> n <> tmp.
Proof. intros Hn ->. by apply (tmp_not_snap (maxSeq (es_LastAppliedByShard s))). Qed.

Lemma owned_lt n i : is_snap n -> dk_names dk0 !! n = Some i -> (i < length (dk_inodes dk0))%nat.
Proof. intros Hn Hi. destruct (Hsettled n Hn) as [_ Hs]. destruct (Hs i Hi) as [d Hd]. by apply lookup_lt_Some in Hd. Qed.

Lemma writing_set f ino ino' dk : writing f ino dk -> writing f ino' (set_inode f ino' dk).
Proof.
  intros [Hb Ht Hi Hp]. split; simpl; [|done| |done].
  - intros n Hn. destruct (Hb n Hn) as (H1 & H2 & H3). split_and!; [done|done|]. intros i Hi'. simpl.
    rewrite list_lookup_insert_ne; [by apply H3|]. intros <-. by apply (Hp n Hn).
  - apply list_lookup_insert_eq. by apply lookup_lt_Some in Hi.
Qed.

Lemma open_trunc_writing dk f dk' :
  dk = dk0 -> open_trunc tmp dk = inr (f, dk') -> writing f (mkInode [] 0) dk'.
Proof.
  assert (forall n, is_snap n -> untouched dk0 n) as Hu0.
  { intros n Hn. destruct (Hsettled n Hn) as [H1 H2]. by split_and!. }
  intros ->. unfold open_trunc. destruct (dk_names dk0 !! tmp) as [i|] eqn:Et; intros [= <- <-].
  - destruct (Hunshared i Et) as [[ino Ei] Hp]. by apply (writing_set i ino).
  - split; simpl; [|by rewrite lookup_insert_eq|by rewrite lookup_app_r, Nat.sub_diag by lia|].
    + intros n Hn. destruct (Hu0 n Hn) as (H1 & H2 & H3). split_and!; simpl; [|done|].
      * rewrite lookup_insert_ne; [done|]. intros E. by apply (snap_not_tmp n Hn).
      * intros i Hi. by rewrite lookup_app_l by (by eapply owned_lt).
    + intros n Hn Hi. apply (owned_lt n) in Hi; [lia|done].
Qed.

Lemma append_writing f data k more dk :
  writing f (mkInode data k) dk -> writing f (mkInode (data ++ more) k) (append_bytes f more dk).
Proof. intros Hw. unfold append_bytes. rewrite (wt_inode _ _ _ Hw). by eapply writing_set. Qed.

Lemma sync_writing f data k dk :
  writing f (mkInode data k) dk -> writing f (mkInode data (length data)) (sync_file f dk).
Proof. intros Hw. unfold sync_file. rewrite (wt_inode _ _ _ Hw). by eapply writing_set. Qed.

Lemma rename_after f dk :
  writing f (mkInode bs (length bs)) dk ->
  exists dk', rename tmp name dk = inr (tt, dk') /\ after_rename f dk'.
Proof.
  intros [Hb Ht Hi Hp]. unfold rename. rewrite Ht. eexists. split; [done|]. split; simpl.
  - intros n Hn Hne. destruct (Hb n Hn) as (H1 & H2 & H3). split_and!; simpl; [|done|done].
    rewrite lookup_insert_ne, lookup_delete_ne; [done|intros E; by apply (snap_not_tmp n Hn)|done].
  - by rewrite lookup_insert_eq.
  - done.
  - apply (Hb name), is_snap_name.
  - left. apply (Hb name), is_snap_name.
Qed.

Lemma sync_dir_after f dk :
  after_rename f dk -> after_rename f (sync_dir dk) /\ dk_durable (sync_dir dk) !! name = Some f.
Proof.
  intros [Ho Hn Hi Hold Hd]. split; [|done]. split; simpl; [|done..|by right].
  intros n Hs Hne. destruct (Ho n Hs Hne) as (H1 & H2 & H3). by split_and!.
Qed.

Lemma writing_recoverable f ino dk : writing f ino dk -> recoverable dk.
Proof. intros Hw. left. apply Hw. Qed.

Lemma close_safe f dk : recoverable dk -> io_safe recoverable (fun _ => recoverable) (Close f) dk.
Proof. intros Hr. by apply io_safe_noop. Qed.

(** Writing the temporary file, whatever follows. *)
Lemma write_tmp_safe {A} (Q : A -> disk -> Prop) (k : nat -> IO A) :
  recoverable dk0 ->
  (forall f dk, writing f (mkInode bs (length bs)) dk -> io_safe recoverable Q (k f) dk) ->
  io_safe recoverable Q
    (let@ f := OpenTrunc tmp in
     do@ io_cleanup (Write f bs) (Close f) in
     do@ io_cleanup (Sync f) (Close f) in
     do@ Close f in k f) dk0.
Proof.
  intros Hinit Hk. eapply (io_safe_bind _ (fun f dk => writing f (mkInode [] 0) dk)).
  { apply io_safe_op.
    - intros n. apply or_all_cases; [done|]. intros f dk' E. eapply writing_recoverable. by eapply open_trunc_writing.
    - destruct (open_trunc _ dk0) as [e|[f dk']] eqn:E; [done|]. by eapply open_trunc_writing. }
  intros f dk1 Hw1. eapply (io_safe_bind _ (fun _ dk => writing f (mkInode bs 0) dk)).
  { apply io_safe_cleanup; [|apply close_safe]. apply io_safe_op.
    - intros n. eapply writing_recoverable. by eapply (append_writing f []).
    - by eapply (append_writing f []). }
  intros _ dk2 Hw2. eapply (io_safe_bind _ (fun _ dk => writing f (mkInode bs (length bs)) dk)).
  { apply io_safe_cleanup; [|apply close_safe]. apply io_safe_op; [intros n; by eapply writing_recoverable|].
    by eapply sync_writing. }
  intros _ dk3 Hw3. eapply (io_safe_bind _ (fun _ dk => dk = dk3));
    [apply io_safe_noop; [by eapply writing_recoverable|done]|]. intros _ dk ->. by apply Hk.
Qed.

(** Renaming the file and syncing the directory. *)
Lemma publish_safe d f dk :
  writing f (mkInode bs (length bs)) dk ->
  io_safe recoverable (fun n dk => n = name /\ after_rename f dk /\ dk_durable dk !! name = Some f)
    (do@ Rename tmp name in do@ syncDir d in io_ret name) dk.
Proof.
  intros Hw. destruct (rename_after f dk Hw) as (dk4 & Hr & Ha).
  eapply (io_safe_bind _ (fun _ dk => dk = dk4)).
  { apply io_safe_op; [|by rewrite Hr]. intros k. apply or_all_cases; [by eapply writing_recoverable|].
    intros [] dk' E. rewrite Hr in E. injection E as <-. right. by exists f. }
  intros _ ? ->. eapply (io_safe_bind _ (fun _ dk => after_rename f dk /\ dk_durable dk !! name = Some f)).
  { eapply (io_safe_bind _ (fun _ dk => dk = dk4)); [apply io_safe_noop; [right; by exists f|done]|].
    intros _ ? ->. apply io_safe_op; [intros k; right; by exists f|]. by apply sync_dir_after. }
  intros _ dk5 [Ha5 Hd5]. by apply io_safe_ret.
Qed.

(** Saving from [dk0]: at every fault the disk is recoverable, and on success the
    new snapshot is durable. *)
Lemma SaveAtomically_safe d :
  io_safe recoverable (fun n dk => n = name /\ exists f, after_rename f dk /\ dk_durable dk !! name = Some f)
    (SaveAtomically d s) dk0.
Proof.
  destruct Hbytes as (crc & Hc & Hb).
  assert (recoverable dk0) as Hinit.
  { left. intros n Hn. destruct (Hsettled n Hn) as [H1 H2]. by split_and!. }
  unfold SaveAtomically. eapply io_safe_bind; [by apply io_safe_noop with (Q := fun _ dk => dk = dk0)|].
  intros _ dk ->. cbv zeta. rewrite Hc.
  eapply io_safe_bind; [apply (io_safe_ret _ (fun x dk => x = crc /\ dk = dk0)); done|]. intros ? dk [-> ->].
  rewrite Hb. eapply io_safe_bind; [apply (io_safe_ret _ (fun x dk => x = bs /\ dk = dk0)); done|].
  intros ? dk [-> ->]. apply write_tmp_safe; [done|]. intros f dk Hw fs.
  pose proof (publish_safe d f dk Hw fs) as Hp. fold name tmp. destruct (io_bind _ _ dk fs) as [[e|n] dk' fs'|dk'];
    [done| |done]. destruct Hp as (-> & Ha & Hd). split; [done|]. by exists f.
Qed.

(** ** What is loaded after a crash *)

Lemma untouched_survives dk d n : is_snap n -> untouched dk n -> survives dk d -> d !! n = view dk0 !! n.
Proof.
  intros Hn (H1 & H2 & H3) Hs. destruct (Hs n) as (e & He & Hd). destruct (Hsettled n Hn) as [_ Hfull].
  assert (e = dk_names dk0 !! n) as -> by (destruct He as [->| ->]; done).
  unfold view. rewrite lookup_fmap. destruct (dk_names dk0 !! n) as [i|] eqn:Ei; simpl; [|done].
  destruct Hd as (ino & k & Hino & Hk & ->). rewrite H3 in Hino by done.
  destruct (Hfull i eq_refl) as [data Hdata]. rewrite Hdata in *. injection Hino as <-. simpl in *.
  by rewrite take_ge.
Qed.

Lemma recoverable_loads dk d :
  recoverable dk -> survives dk d -> LoadLatest d = LoadLatest (view dk0) \/ LoadLatest d = inr (s, name).
Proof.
  intros [Hb|[f Ha]] Hs.
  { left. apply LoadLatest_ext. intros n Hn. by apply (untouched_survives dk); [|apply Hb|]. }
  assert (forall n, is_snap n -> n <> name -> d !! n = view dk0 !! n) as Hoth.
  { intros n Hn Hne. apply (untouched_survives dk); [done|by apply (ar_others f)|done]. }
  destruct (Hs name) as (e & He & Hd).
  assert (e = Some f \/ e = dk_names dk0 !! name) as [->| ->].
  { destruct He as [->| ->]; [left; apply (ar_name _ _ Ha)|].
    destruct (ar_durable _ _ Ha) as [->| ->]; [by right|by left]. }
  - destruct Hd as (ino & k & Hino & Hk & Hdk). rewrite (ar_inode _ _ Ha) in Hino. injection Hino as <-.
    simpl in *. rewrite take_ge in Hdk by done.
    by apply (LoadLatest_add d (view dk0) s bs); [|apply is_snap_name| |].
  - left. apply LoadLatest_ext. intros n Hn. destruct (decide (n = name)) as [->|Hne]; [|by apply Hoth].
    unfold view. rewrite lookup_fmap. destruct (dk_names dk0 !! name) as [i|] eqn:Ei; simpl; [|done].
    destruct Hd as (ino & k & Hino & Hk & ->). rewrite (ar_old _ _ Ha) in Hino by done.
    destruct (Hsettled name Hn) as [_ Hfull]. destruct (Hfull i Ei) as [data Hdata]. rewrite Hdata in *.
    injection Hino as <-. simpl in *. by rewrite take_ge.
Qed.

Lemma durable_loads f dk d :
  after_rename f dk -> dk_durable dk !! name = Some f -> survives dk d ->
  (forall n, is_snap n -> is_Some (dk_names dk0 !! n) -> string_le n name) ->
  LoadLatest d = inr (s, name).
Proof.
  intros Ha Hdur Hs Hle. destruct (Hs name) as (e & He & Hd).
  assert (e = Some f) as -> by (destruct He as [->| ->]; [apply (ar_name _ _ Ha)|done]).
  destruct Hd as (ino & k & Hino & Hk & Hdk). rewrite (ar_inode _ _ Ha) in Hino. injection Hino as <-.
  simpl in *. rewrite take_ge in Hdk by done. eapply LoadLatest_saved; [done| |done].
  apply glob_sorted_last. split_and!; [apply is_snap_name|eauto|]. intros m Hm Hsome.
  destruct (decide (m = name)) as [->|Hne]; [apply string_le_refl|]. apply Hle; [done|].
  rewrite (untouched_survives dk d m Hm (ar_others _ _ Ha m Hm Hne) Hs) in Hsome.
  unfold view in Hsome. rewrite lookup_fmap in Hsome. by apply fmap_is_Some in Hsome.
Qed.
End Saving.

Lemma fold_max l m :
  (forall s, s ∈ l -> s <= fold_left (fun m s => if s >? m then s else m) l m) /\
  m <= fold_left (fun m s => if s >? m then s else m) l m /\
  (fold_left (fun m s => if s >? m then s else m) l m ∈ m :: l).
Proof.
  revert m. induction l as [|x l IH]; intros m; cbn [fold_left].
  { split_and!; [by intros s ?%not_elem_of_nil|lia|by left]. }
  destruct (IH (if x >? m then x else m)) as (H1 & H2 & H3). destruct (Z.gtb_spec x m); split_and!.
  - intros s [->|Hs]%elem_of_cons; [lia|auto].
  - lia.
  - apply elem_of_cons in H3 as [->|H3]; [right; left|]. right. by right.
  - intros s [->|Hs]%elem_of_cons; [lia|auto].
  - lia.
  - apply elem_of_cons in H3 as [->|H3]; [left|]. right. by right.
Qed.

Lemma maxSeq_range l : Forall is_u64 l -> is_u64 (maxSeq l).
Proof.
  intros Hl. destruct (fold_max l 0) as (_ & H2 & H3). fold (maxSeq l) in *.
  apply elem_of_cons in H3 as [->|H3]; [done|]. by eapply Forall_forall in H3.
Qed.

(** ** Properties *)

(** C17. Saving a snapshot is atomic and durable.  Let the snapshots on the disk be
    complete, and let [SaveAtomically] run with any faults.  However it ends
    (success, error of any operation after any part of its work, crash), a later
    crash that keeps what was synced and any beginning of the rest leaves a directory from which
    [LoadLatest] gives what it would have given before, or the new snapshot; and
    once [SaveAtomically] has returned its path, it gives the new snapshot,
    provided the existing files have no greater sequence number. *)
Theorem snapshot_save_crash_safe `{GobLaws} dk s bs dir faults :
  settled dk -> unshared dk (snapshot_name (maxSeq (es_LastAppliedByShard s)) +:+ ".tmp")%string ->
  saved_bytes s bs -> Forall is_u64 (es_LastAppliedByShard s) ->
  match SaveAtomically dir s dk faults with
  | Done (inr path) dk' _ =>
      path = snapshot_name (maxSeq (es_LastAppliedByShard s)) /\
      forall d, survives dk' d ->
        (LoadLatest d = LoadLatest (view dk) \/ LoadLatest d = inr (s, path)) /\
        ((forall n, is_snap n -> is_Some (dk_names dk !! n) ->
            exists k, n = snapshot_name k /\ 0 <= k <= maxSeq (es_LastAppliedByShard s)) ->
         LoadLatest d = inr (s, path))
  | Done (inl _) dk' _ | Crashed dk' =>
      forall d, survives dk' d ->
        LoadLatest d = LoadLatest (view dk) \/
        LoadLatest d = inr (s, snapshot_name (maxSeq (es_LastAppliedByShard s)))
  end.
Proof.
  intros Hset Hun Hb Hu. pose proof (maxSeq_range _ Hu) as Hmax.
  pose proof (SaveAtomically_safe dk s bs Hset Hun Hb dir faults) as Hsafe.
  destruct (SaveAtomically dir s dk faults) as [[e|path] dk' fs|dk'].
  - intros d Hd. by eapply recoverable_loads.
  - destruct Hsafe as [-> (f & Ha & Hdur)]. split; [done|]. intros d Hd. split.
    + eapply recoverable_loads; [done..| |done]. right. by exists f.
    + intros Hk. eapply durable_loads; [done..|]. intros n Hn Hs. destruct (Hk n Hn Hs) as (k & -> & Hr).
      apply numbered_le; [lia|lia|lia|]. unfold is_u64 in Hmax. change (10 ^ Z.of_nat 20) with 100000000000000000000. lia.
  - intros d Hd. by eapply recoverable_loads.
Qed.

(** A gob codec for one snapshot, an old snapshot on the disk, and a crash while the
    directory is synced. *)
Definition snap7 : EngineSnapshot := mkEngineSnapshot "e" 1 [7] [].

Definition demo_gob : GobCodec := {|
  gob_Encode p :=
    match fp_Data p with
    | mkEngineSnapshot _ _ [7] [] =>
        if bool_decide (fp_Magic p = snapshotMagic /\ fp_Version p = snapshotVersion /\
             es_EngineID (fp_Data p) = "e"%string /\ es_ShardCount (fp_Data p) = 1)
        then inr [fp_CRC32C p] else inl (Errorf "unsupported" [])
    | _ => inl (Errorf "unsupported" [])
    end;
  gob_Decode bs :=
    match bs with
    | [c] => inr (mkFilePayload snapshotMagic snapshotVersion snap7 c)
    | _ => inl ErrUnexpectedEOF
    end
|}.

Lemma demo_gob_laws : @GobLaws demo_gob.
Proof.
  split. intros [m v [e c l b] crc] bs. simpl. intros Henc. repeat case_match; simplify_eq.
  match goal with Hd : bool_decide _ = true |- _ => apply bool_decide_eq_true in Hd as (-> & -> & -> & ->) end.
  done.
Qed.

Definition demo_disk : disk :=
  mkDisk [mkInode [5] 1] {[ snapshot_name 3 := 0%nat ]} {[ snapshot_name 3 := 0%nat ]}.

Lemma snapshot_save_crash_safe_witness :
  exists dk', @SaveAtomically demo_gob "snap" snap7 demo_disk
                [Fine; Fine; Fine; Fine; Fine; Fine; Fine; Crashes 0] = Crashed dk' /\
    forall d, survives dk' d ->
      @LoadLatest demo_gob d = @LoadLatest demo_gob (view demo_disk) \/
      @LoadLatest demo_gob d = inr (snap7, snapshot_name 7).
Proof.
  pose proof (@snapshot_save_crash_safe demo_gob demo_gob_laws demo_disk snap7
    [crc32c [0]] "snap"%string [Fine; Fine; Fine; Fine; Fine; Fine; Fine; Crashes 0]) as Hs.
  eexists. split; [vm_compute; reflexivity|]. apply Hs.
  - intros n Hn. split; [reflexivity|]. intros i Hi. exists [5]. unfold demo_disk in Hi. cbn [dk_names] in Hi.
    apply lookup_singleton_Some in Hi as [_ <-]. reflexivity.
  - intros i Hi. vm_compute in Hi. discriminate Hi.
  - exists [0]. split; vm_compute; reflexivity.
  - repeat constructor; vm_compute; congruence.
Defined.
