(* ===== verification/Metrics.v ===== *)
(** * Metrics: counters, high-water marks and latency windows (internal/metrics)

    The components report observations to a sink; the collector keeps counters,
    high-water marks, and for latencies a ring buffer with the last 2048 values, of
    which it reports percentiles.  Floating point numbers are those of the standard
    library's [SpecFloat], in double precision.  Other components record what they
    report as a list of [observation]s. *)

From Stdlib Require Import SpecFloat.
From S2P Require Import Prelude Model.

(** ** The sink interface *)

(** One constructor per method. *)
Inductive observation :=
| ObserveSubmitLatency (d : Z)
| IncAccepted
| IncRejected
| IncBackpressure
| ObserveShardQueueDepth (depth : Z)
| ObserveIngressQueueDepth (depth : Z)
| ObserveWALBatch (commands bytes : Z)
| ObserveWALSyncLatency (d : Z)
| ObserveSnapshotPause (d : Z).

Class Sink (S : Type) := observe : observation -> S -> S.

Inductive NoopSink := noopSink.
#[export] Instance noop_sink : Sink NoopSink := fun _ s => s.

(** ** Double precision *)

Definition f64_mul : spec_float -> spec_float -> spec_float := SFmul 53 1024.
Definition f64_div : spec_float -> spec_float -> spec_float := SFdiv 53 1024.
(** [float64(n)]. *)
Definition f64_of_int (n : Z) : spec_float := binary_normalize 53 1024 n 0 false.
(** [int(f)] of a finite number: towards zero. *)
Definition int_of_f64 (f : spec_float) : Z :=
  match f with
  | S754_finite s m e =>
      let v := if e <? 0 then Z.pos m / 2 ^ (- e) else Z.pos m * 2 ^ e in
      if s then - v else v
  | _ => 0
  end.
(** The constant [n/100], correctly rounded. *)
Definition f64_percent (n : Z) : spec_float := f64_div (f64_of_int n) (f64_of_int 100).

(** ** Reservoirs *)

Definition slotCount : nat := 2048.

Record reservoir := mkReservoir { rv_count : Z; rv_next : Z; rv_slots : list Z }.
Definition empty_reservoir : reservoir := mkReservoir 0 0 (replicate slotCount 0).

Definition slot_of (n : Z) : nat := Z.to_nat (n mod Z.of_nat slotCount).

Definition reservoir_add (v : Z) (r : reservoir) : reservoir :=
  mkReservoir (u64_add (rv_count r) 1) (u64_add (rv_next r) 1) (<[slot_of (rv_next r) := v]> (rv_slots r)).

Record reservoirSnapshot := mkReservoirSnapshot { rs_count : Z; rs_values : list Z }.

Definition reservoir_snapshot (r : reservoir) : reservoirSnapshot :=
  let limit := if rv_count r <? Z.of_nat slotCount then rv_count r else Z.of_nat slotCount in
  let start := wrap_u64 (rv_next r - limit) in
  mkReservoirSnapshot (rv_count r)
    (map (fun i => default 0 (rv_slots r !! slot_of (u64_add start (Z.of_nat i)))) (seq 0 (Z.to_nat limit))).

(** ** Durations *)

(** A [time.Duration] is a number of nanoseconds. *)
Definition durationToMicros (d : Z) : Z := if d <=? 0 then 0 else Z.quot d 1000.
Definition microsToMillis (us : Z) : spec_float := f64_div (f64_of_int us) (f64_of_int 1000).

(** [sort.Slice] of integers: the sorted list is unique. *)
Definition sorted_values (values : list Z) : list Z := merge_sort Z.le values.

Definition percentile_index (n : Z) (q : spec_float) : Z :=
  let idx := int_of_f64 (f64_mul (f64_of_int (n - 1)) q) in
  let idx := if idx <? 0 then 0 else idx in
  if idx >=? n then n - 1 else idx.

Definition percentileMicros (values : list Z) (q : spec_float) : outcome Z :=
  match values with
  | [] => Ret 0
  | _ =>
      let values := sorted_values values in
      match values !! Z.to_nat (percentile_index (Z.of_nat (length values)) q) with
      | Some v => Ret v
      | None => Panic
      end
  end.

(** ** The collector *)

Record Collector := mkCollector {
  cl_accepted : Z;
  cl_rejected : Z;
  cl_backpressure : Z;
  cl_ingressHWM : Z;
  cl_shardHWM : Z;
  cl_walBatches : Z;
  cl_walBatchCommandsSum : Z;
  cl_walBatchBytesSum : Z;
  cl_submits : reservoir;
  cl_walSync : reservoir;
  cl_snapshots : reservoir
}.

Definition NewCollector : Collector :=
  mkCollector 0 0 0 0 0 0 0 0 empty_reservoir empty_reservoir empty_reservoir.

(** [updateHWM] without interference; [HwmRace] below has the loop with it. *)
Definition updateHWM (current value : Z) : Z := if value <=? current then current else value.
Definition at_least_zero (n : Z) : Z := if n <? 0 then 0 else n.

#[export] Instance collector_sink : Sink Collector := fun o c =>
  let '(mkCollector acc rej bp ing shd bat cmds byts sub syn snp) := c in
  match o with
  | ObserveSubmitLatency d => mkCollector acc rej bp ing shd bat cmds byts (reservoir_add (durationToMicros d) sub) syn snp
  | IncAccepted => mkCollector (u64_add acc 1) rej bp ing shd bat cmds byts sub syn snp
  | IncRejected => mkCollector acc (u64_add rej 1) bp ing shd bat cmds byts sub syn snp
  | IncBackpressure => mkCollector acc rej (u64_add bp 1) ing shd bat cmds byts sub syn snp
  | ObserveShardQueueDepth n => mkCollector acc rej bp ing (updateHWM shd (at_least_zero n)) bat cmds byts sub syn snp
  | ObserveIngressQueueDepth n => mkCollector acc rej bp (updateHWM ing (at_least_zero n)) shd bat cmds byts sub syn snp
  | ObserveWALBatch n m =>
      mkCollector acc rej bp ing shd (u64_add bat 1) (u64_add cmds (at_least_zero n)) (u64_add byts (at_least_zero m)) sub syn snp
  | ObserveWALSyncLatency d => mkCollector acc rej bp ing shd bat cmds byts sub (reservoir_add (durationToMicros d) syn) snp
  | ObserveSnapshotPause d => mkCollector acc rej bp ing shd bat cmds byts sub syn (reservoir_add (durationToMicros d) snp)
  end.

(** The three percentiles of a reservoir, in milliseconds. *)
Record Percentiles := mkPercentiles { pt_count : Z; pt_50 : spec_float; pt_95 : spec_float; pt_99 : spec_float }.

Definition percentiles (s : reservoirSnapshot) : outcome Percentiles :=
  let? p50 := percentileMicros (rs_values s) (f64_percent 50) in
  let? p95 := percentileMicros (rs_values s) (f64_percent 95) in
  let? p99 := percentileMicros (rs_values s) (f64_percent 99) in
  Ret (mkPercentiles (rs_count s) (microsToMillis p50) (microsToMillis p95) (microsToMillis p99)).

Record Stats := mkStats {
  ms_Accepted : Z;
  ms_Rejected : Z;
  ms_Backpressure : Z;
  ms_Submit : Percentiles;
  ms_IngressQueueHWM : Z;
  ms_ShardQueueHWM : Z;
  ms_WALBatches : Z;
  ms_WALBatchCommandsSum : Z;
  ms_WALBatchBytesSum : Z;
  ms_WALSync : Percentiles;
  ms_Snapshot : Percentiles
}.

Definition Collector_Snapshot (c : Collector) : outcome Stats :=
  let? submit := percentiles (reservoir_snapshot (cl_submits c)) in
  let? walSync := percentiles (reservoir_snapshot (cl_walSync c)) in
  let? snap := percentiles (reservoir_snapshot (cl_snapshots c)) in
  Ret (mkStats (cl_accepted c) (cl_rejected c) (cl_backpressure c) submit (cl_ingressHWM c) (cl_shardHWM c)
    (cl_walBatches c) (cl_walBatchCommandsSum c) (cl_walBatchBytesSum c) walSync snap).

(** ** Concurrent updates of a high-water mark

    Every goroutine that calls [updateHWM] loads the mark, returns when its value is
    not higher, and otherwise tries to swap the loaded mark for its value; it starts
    over when another goroutine was faster. *)
Module HwmRace.

Inductive thread :=
| Load (value : Z)
| Swap (value current : Z)
| Returned (value : Z).

Definition value_of (t : thread) : Z := match t with Load v => v | Swap v _ => v | Returned v => v end.

(** One atomic action of a goroutine on the mark [dst]. *)
Definition advance (dst : Z) (t : thread) : option (Z * thread) :=
  match t with
  | Load value => if value <=? dst then Some (dst, Returned value) else Some (dst, Swap value dst)
  | Swap value current => if dst =? current then Some (value, Returned value) else Some (dst, Load value)
  | Returned _ => None
  end.

Inductive step : Z * list thread -> Z * list thread -> Prop :=
| step_thread i t t' dst dst' ts :
    ts !! i = Some t -> advance dst t = Some (dst', t') -> step (dst, ts) (dst', <[i := t']> ts).

Inductive runs : nat -> Z * list thread -> Z * list thread -> Prop :=
| runs_none s : runs 0 s s
| runs_step n s s' s'' : runs n s s' -> step s' s'' -> runs (S n) s s''.
End HwmRace.
