(* ===== verification/MetricsProps.v ===== *)
(** * MetricsProps: what the collector reports

    The ring buffers hold the last 2048 values, the percentiles are the exact ranks
    although they are computed in floating point, and [updateHWM] keeps the maximum
    in every interleaving of its compare-and-swap loop. *)

From Stdlib Require Import SpecFloat.
From S2P Require Import Prelude Model Metrics.

(** ** Ring buffers *)

Definition window (vs : list Z) : list Z := drop (length vs - slotCount) vs.

(** [r] has received [vs]. *)
Record holds_values (r : reservoir) (vs : list Z) : Prop := {
  hv_count : rv_count r = Z.of_nat (length vs);
  hv_next : rv_next r = Z.of_nat (length vs);
  hv_slots : length (rv_slots r) = slotCount;
  hv_values : forall j v, vs !! j = Some v -> (length vs - slotCount <= j)%nat ->
                rv_slots r !! (j mod slotCount)%nat = Some v
}.

Lemma slot_of_nat (n : nat) : slot_of (Z.of_nat n) = (n mod slotCount)%nat.
Proof. unfold slot_of. by rewrite <-Nat2Z.inj_mod, Nat2Z.id. Qed.

Lemma slot_range n : (n mod slotCount < slotCount)%nat.
Proof. by apply Nat.mod_upper_bound. Qed.

(** Different values of a window are in different slots. *)
Lemma slots_differ (i j : nat) : (i < j)%nat -> (j - i < slotCount)%nat -> (i mod slotCount)%nat <> (j mod slotCount)%nat.
Proof.
  intros Hlt Hd E. pose proof (Nat.div_mod_eq i slotCount) as H1. pose proof (Nat.div_mod_eq j slotCount) as H2.
  rewrite E in H1. assert (i / slotCount = j / slotCount \/ (i / slotCount < j / slotCount))%nat as [Hq|Hq] by nia.
  - rewrite Hq in H1. lia.
  - nia.
Qed.

Lemma empty_holds : holds_values empty_reservoir [].
Proof. by split. Qed.

Lemma add_holds r vs v :
  holds_values r vs -> Z.of_nat (length vs) < 18446744073709551615 -> holds_values (reservoir_add v r) (vs ++ [v]).
Proof.
  intros [H1 H2 H3 H4] Hlen. split; cbn [reservoir_add rv_count rv_next rv_slots]; rewrite ?length_app; cbn [length].
  - rewrite H1. int_lia.
  - rewrite H2. int_lia.
  - by rewrite length_insert.
  - intros j u Hj Hge. rewrite H2, slot_of_nat.
    destruct (decide (j = length vs)) as [->|Hne].
    + rewrite lookup_app_r, Nat.sub_diag in Hj by done. injection Hj as <-.
      apply list_lookup_insert_eq. rewrite H3. apply slot_range.
    + assert (j < length vs)%nat as Hlt by (apply lookup_lt_Some in Hj; rewrite length_app in Hj; cbn in Hj; lia).
      rewrite list_lookup_insert_ne.
      * apply H4; [by rewrite lookup_app_l in Hj|lia].
      * intros E. symmetry in E. revert E. apply slots_differ; lia.
Qed.

Lemma snapshot_window r vs :
  holds_values r vs -> Z.of_nat (length vs) < 18446744073709551616 ->
  reservoir_snapshot r = mkReservoirSnapshot (Z.of_nat (length vs)) (window vs).
Proof.
  intros [H1 H2 H3 H4] Hlen. unfold reservoir_snapshot. rewrite H1, H2. f_equal.
  set (limit := if _ <? _ then _ else _).
  assert (Z.to_nat limit = length vs `min` slotCount)%nat as El.
  { unfold limit. destruct (Z.ltb_spec (Z.of_nat (length vs)) (Z.of_nat slotCount)); lia. }
  assert (0 <= limit <= Z.of_nat (length vs)) as Hl.
  { unfold limit. destruct (Z.ltb_spec (Z.of_nat (length vs)) (Z.of_nat slotCount)); lia. }
  apply list_eq. intros i. unfold window. rewrite list_lookup_fmap, lookup_drop.
  destruct (decide (i < Z.to_nat limit)%nat) as [Hi|Hi].
  - rewrite lookup_seq_lt by done. cbn [fmap option_fmap option_map].
    destruct (lookup_lt_is_Some_2 vs (length vs - slotCount + i)) as [v Hv]; [lia|]. rewrite Hv. f_equal.
    replace (u64_add _ _) with (Z.of_nat (length vs - slotCount + i)) by (change (Z.of_nat slotCount) with 2048 in *; int_lia).
    rewrite slot_of_nat. by rewrite (H4 _ _ Hv) by lia.
  - rewrite lookup_seq_ge by lia. cbn. symmetry. apply lookup_ge_None. lia.
Qed.

(** ** Percentiles *)

Definition reported : list Z := [50; 95; 99].

(** The floating point index is the rounded-down rank for every window size. *)
Lemma percentile_index_exact (n k : Z) :
  1 <= n <= 2048 -> k ∈ reported -> percentile_index n (f64_percent k) = (n - 1) * k / 100.
Proof.
  intros Hn Hk.
  assert (forallb (fun k => let q := f64_percent k in
    forallb (fun n => percentile_index (Z.of_nat n) q =? (Z.of_nat n - 1) * k / 100) (seq 1 2048)) reported = true) as H
    by (vm_compute; reflexivity).
  rewrite forallb_forall in H. specialize (H k (proj1 (list_elem_of_In _ _) Hk)).
  rewrite forallb_forall in H. specialize (H (Z.to_nat n)). rewrite Z2Nat.id in H by lia.
  apply Z.eqb_eq, H, in_seq. lia.
Qed.

(** The value at rank [(n-1)*k/100] of the sorted values. *)
Definition rank (k : Z) (vs : list Z) : Z :=
  default 0 (sorted_values vs !! Z.to_nat ((Z.of_nat (length vs) - 1) * k / 100)).

Lemma sorted_length vs : length (sorted_values vs) = length vs.
Proof. apply Permutation_length, merge_sort_Permutation. Qed.

Lemma percentile_rank vs k :
  (length vs <= slotCount)%nat -> k ∈ reported -> percentileMicros vs (f64_percent k) = Ret (rank k vs).
Proof.
  intros Hl Hk. assert (vs = [] \/ (0 < length vs)%nat) as [->|Hpos] by (destruct vs; cbn; [by left|right; lia]).
  { unfold rank. cbn [percentileMicros length]. repeat (apply elem_of_cons in Hk as [->|Hk]; [reflexivity|]).
    by apply elem_of_nil in Hk. }
  unfold percentileMicros, rank. destruct vs as [|v vs']; [cbn in Hpos; lia|]. set (vs := v :: vs') in *. clearbody vs.
  rewrite sorted_length, percentile_index_exact; [|unfold slotCount in Hl; lia|done].
  assert (0 <= (Z.of_nat (length vs) - 1) * k / 100 < Z.of_nat (length vs)) as Hr.
  { assert (0 <= k < 100) as H by (repeat (apply elem_of_cons in Hk as [->|Hk]; [lia|]); by apply elem_of_nil in Hk).
    split; [apply Z.div_pos; nia|]. apply Z.div_lt_upper_bound; nia. }
  destruct (lookup_lt_is_Some_2 (sorted_values vs) (Z.to_nat ((Z.of_nat (length vs) - 1) * k / 100))) as [u ->]; [|done].
  rewrite sorted_length. lia.
Qed.

(** ** All statistics *)

Definition percentiles_of (vs : list Z) : Percentiles :=
  let w := window vs in
  mkPercentiles (Z.of_nat (length vs)) (microsToMillis (rank 50 w)) (microsToMillis (rank 95 w)) (microsToMillis (rank 99 w)).

Lemma percentiles_window r vs :
  holds_values r vs -> Z.of_nat (length vs) < 18446744073709551616 ->
  percentiles (reservoir_snapshot r) = Ret (percentiles_of vs).
Proof.
  intros Hr Hl. rewrite (snapshot_window r vs Hr Hl). unfold percentiles. cbn [rs_values rs_count].
  assert (length (window vs) <= slotCount)%nat as Hw by (unfold window; rewrite length_drop; lia).
  rewrite !percentile_rank; [reflexivity|done|..]; try done; unfold reported; set_solver.
Qed.

(** What the observations say. *)
Definition total (f : observation -> Z) (obs : list observation) : Z := foldr (fun o n => f o + n) 0 obs.
Definition highest (f : observation -> option Z) (obs : list observation) : Z :=
  foldr (fun o n => match f o with Some v => Z.max v n | None => n end) 0 obs.

Definition is_accepted o := match o with IncAccepted => 1 | _ => 0 end.
Definition is_rejected o := match o with IncRejected => 1 | _ => 0 end.
Definition is_backpressure o := match o with IncBackpressure => 1 | _ => 0 end.
Definition is_batch o := match o with ObserveWALBatch _ _ => 1 | _ => 0 end.
Definition batch_commands o := match o with ObserveWALBatch n _ => Z.max 0 n | _ => 0 end.
Definition batch_bytes o := match o with ObserveWALBatch _ n => Z.max 0 n | _ => 0 end.
Definition shard_depth o := match o with ObserveShardQueueDepth n => Some n | _ => None end.
Definition ingress_depth o := match o with ObserveIngressQueueDepth n => Some n | _ => None end.
Definition submit_micros o := match o with ObserveSubmitLatency d => Some (Z.max 0 d / 1000) | _ => None end.
Definition sync_micros o := match o with ObserveWALSyncLatency d => Some (Z.max 0 d / 1000) | _ => None end.
Definition pause_micros o := match o with ObserveSnapshotPause d => Some (Z.max 0 d / 1000) | _ => None end.

Definition stats_of (obs : list observation) : Stats :=
  mkStats (total is_accepted obs) (total is_rejected obs) (total is_backpressure obs)
    (percentiles_of (omap submit_micros obs)) (highest ingress_depth obs) (highest shard_depth obs)
    (total is_batch obs) (wrap_u64 (total batch_commands obs)) (wrap_u64 (total batch_bytes obs))
    (percentiles_of (omap sync_micros obs)) (percentiles_of (omap pause_micros obs)).

Lemma total_snoc f obs o : total f (obs ++ [o]) = total f obs + f o.
Proof. unfold total. induction obs as [|x obs IH]; cbn [app foldr]; lia. Qed.

Lemma highest_snoc f obs o :
  highest f (obs ++ [o]) = match f o with Some v => Z.max (highest f obs) (Z.max 0 v) | None => highest f obs end.
Proof.
  induction obs as [|x obs IH]; cbn [app highest foldr]; [destruct (f o); lia|].
  fold (highest f (obs ++ [o])) (highest f obs). rewrite IH. destruct (f x), (f o); lia.
Qed.

Lemma total_bound f obs : (forall o, 0 <= f o <= 1) -> 0 <= total f obs <= Z.of_nat (length obs).
Proof. intros Hf. induction obs as [|o obs IH]; cbn [total foldr length]; [lia|]. specialize (Hf o). fold (total f obs). lia. Qed.

Record collected (c : Collector) (obs : list observation) : Prop := {
  cd_accepted : cl_accepted c = total is_accepted obs;
  cd_rejected : cl_rejected c = total is_rejected obs;
  cd_backpressure : cl_backpressure c = total is_backpressure obs;
  cd_ingress : cl_ingressHWM c = highest ingress_depth obs;
  cd_shard : cl_shardHWM c = highest shard_depth obs;
  cd_batches : cl_walBatches c = total is_batch obs;
  cd_commands : cl_walBatchCommandsSum c = wrap_u64 (total batch_commands obs);
  cd_bytes : cl_walBatchBytesSum c = wrap_u64 (total batch_bytes obs);
  cd_submits : holds_values (cl_submits c) (omap submit_micros obs);
  cd_sync : holds_values (cl_walSync c) (omap sync_micros obs);
  cd_pauses : holds_values (cl_snapshots c) (omap pause_micros obs)
}.

Lemma micros_ok d : durationToMicros d = Z.max 0 d / 1000.
Proof.
  unfold durationToMicros. destruct (Z.leb_spec d 0); [by rewrite Z.max_l by lia|].
  rewrite Z.max_r by lia. apply Z.quot_div_nonneg; lia.
Qed.

Lemma hwm_ok cur v : updateHWM cur (at_least_zero v) = Z.max cur (Z.max 0 v).
Proof. unfold updateHWM, at_least_zero. repeat case_match; lia. Qed.

Lemma wrap_add a b : u64_add (wrap_u64 a) b = wrap_u64 (a + b).
Proof. unfold u64_add, wrap_u64. by rewrite Zplus_mod_idemp_l. Qed.

Lemma omap_short {A B} (f : A -> option B) (l : list A) : (length (omap f l) <= length l)%nat.
Proof. induction l as [|x l IH]; cbn; [lia|]. destruct (f x); cbn; lia. Qed.

Lemma observe_collected c obs o :
  collected c obs -> Z.of_nat (length obs) < 18446744073709551615 -> collected (observe o c) (obs ++ [o]).
Proof.
  intros [H1 H2 H3 H4 H5 H6 H7 H8 H9 H10 H11] Hlen.
  pose proof (total_bound is_accepted obs ltac:(intros []; cbn; lia)).
  pose proof (total_bound is_rejected obs ltac:(intros []; cbn; lia)).
  pose proof (total_bound is_backpressure obs ltac:(intros []; cbn; lia)).
  pose proof (total_bound is_batch obs ltac:(intros []; cbn; lia)).
  pose proof (omap_short submit_micros obs). pose proof (omap_short sync_micros obs). pose proof (omap_short pause_micros obs).
  destruct c as [acc rej bp ing shd bat cmds byts sub syn snp]. cbn in *. subst.
  destruct o; split; cbn -[reservoir_add total highest omap]; rewrite ?total_snoc, ?highest_snoc, ?omap_app, ?app_nil_r; cbn -[reservoir_add total highest];
    rewrite ?hwm_ok, ?wrap_add, ?micros_ok, ?Z.add_0_r; try done; try (int_lia); try (apply add_holds; [done|lia]).
  all: unfold at_least_zero; f_equal; case_match; lia.
Qed.

Lemma collected_all obs : Z.of_nat (length obs) < 18446744073709551616 ->
  collected (foldl (fun c o => observe o c) NewCollector obs) obs.
Proof.
  induction obs as [|o obs IH] using rev_ind; intros Hl; [split; try done; apply empty_holds|].
  rewrite length_app in Hl. cbn in Hl. rewrite foldl_app. cbn [foldl]. apply observe_collected; [apply IH; lia|lia].
Qed.

(** C31. The collector reports what was observed: the counts of accepted, rejected and
    refused commands and of log batches, the highest queue depths, the sums of the batch
    sizes modulo 2^64, and for each kind of latency the number of observations and the
    50th, 95th and 99th percentile of the last 2048 of them: the value at rank
    (n-1)*k/100, rounded down, of the sorted window, although the code finds the rank
    with floating point numbers. *)
Theorem stats_report_observations obs :
  Z.of_nat (length obs) < 18446744073709551616 ->
  Collector_Snapshot (foldl (fun c o => observe o c) NewCollector obs) = Ret (stats_of obs).
Proof.
  intros Hl. destruct (collected_all obs Hl) as [H1 H2 H3 H4 H5 H6 H7 H8 H9 H10 H11].
  pose proof (omap_short submit_micros obs). pose proof (omap_short sync_micros obs). pose proof (omap_short pause_micros obs).
  unfold Collector_Snapshot. rewrite (percentiles_window _ _ H9), (percentiles_window _ _ H10), (percentiles_window _ _ H11) by lia.
  cbn [obind]. unfold stats_of. congruence.
Qed.

Definition demo_obs : list observation :=
  [ObserveSubmitLatency 5000; IncAccepted; ObserveShardQueueDepth 3; ObserveSubmitLatency 1000;
   ObserveShardQueueDepth (-1); ObserveWALBatch 2 300].

Lemma stats_report_observations_witness :
  Collector_Snapshot (foldl (fun c o => observe o c) NewCollector demo_obs) = Ret (stats_of demo_obs) /\
  ms_ShardQueueHWM (stats_of demo_obs) = 3 /\ rank 50 (window (omap submit_micros demo_obs)) = 1.
Proof.
  split; [apply (stats_report_observations demo_obs); vm_compute; reflexivity|]. split; vm_compute; reflexivity.
Defined.

(** ** The race for a high-water mark *)

Import HwmRace.

Definition returned (t : thread) : bool := match t with Returned _ => true | _ => false end.
Definition mark (dst0 : Z) (vs : list Z) : Z := foldr Z.max dst0 vs.

Lemma mark_ge dst0 vs : dst0 <= mark dst0 vs /\ Forall (fun v => v <= mark dst0 vs) vs.
Proof.
  induction vs as [|v vs [H1 H2]]; cbn [mark foldr]; [split; [lia|constructor]|]. fold (mark dst0 vs).
  split; [lia|]. constructor; [lia|]. eapply Forall_impl; [exact H2|]. cbn. lia.
Qed.

Lemma mark_bound dst0 vs m : dst0 <= m -> Forall (fun v => v <= m) vs -> mark dst0 vs <= m.
Proof. intros H0. induction 1; cbn [mark foldr]; [done|]. fold (mark dst0 l). lia. Qed.

Record race_inv (dst0 : Z) (vs : list Z) (s : Z * list thread) : Prop := {
  ri_values : map value_of s.2 = vs;
  ri_start : dst0 <= s.1;
  ri_bound : s.1 <= mark dst0 vs;
  ri_done : Forall (fun t => returned t = true -> value_of t <= s.1) s.2;
  ri_swap : Forall (fun t => match t with Swap v cur => cur < v | _ => True end) s.2
}.

Lemma advance_facts dst t dst' t' :
  advance dst t = Some (dst', t') -> match t with Swap v cur => cur < v | _ => True end ->
  value_of t' = value_of t /\ dst <= dst' /\ (dst' = dst \/ dst' = value_of t) /\
  (returned t' = true -> value_of t' <= dst') /\ match t' with Swap v cur => cur < v | _ => True end.
Proof.
  destruct t as [v|v cur|v]; cbn; intros H Hc; [| |done].
  - destruct (Z.leb_spec v dst); injection H as <- <-; cbn; lia.
  - destruct (Z.eqb_spec dst cur); injection H as <- <-; cbn; lia.
Qed.

Lemma map_insert_same {A B} (f : A -> B) (l : list A) i x y :
  l !! i = Some x -> f y = f x -> map f (<[i := y]> l) = map f l.
Proof.
  intros Hl Hf. apply list_eq. intros j. rewrite !list_lookup_fmap. destruct (decide (i = j)) as [<-|Hne].
  - rewrite list_lookup_insert_eq by by eapply lookup_lt_Some. rewrite Hl. cbn. by rewrite Hf.
  - by rewrite list_lookup_insert_ne.
Qed.

Lemma race_step dst0 vs s s' : race_inv dst0 vs s -> step s s' -> race_inv dst0 vs s'.
Proof.
  intros [H1 H2 H3 H4 H5] Hs. destruct Hs as [i t t' dst dst' ts Hi Ha]. cbn in *.
  pose proof (proj1 (Forall_lookup _ _) H5 _ _ Hi) as Ht. cbn in Ht.
  destruct (advance_facts _ _ _ _ Ha Ht) as (E1 & E2 & E3 & E4 & E5).
  assert (value_of t ∈ vs) as Hin by (rewrite <-H1; apply list_elem_of_fmap; exists t; split; [done|by eapply list_elem_of_lookup_2]).
  destruct (mark_ge dst0 vs) as [_ Hm]. rewrite Forall_forall in Hm. specialize (Hm _ Hin).
  split; cbn.
  - by rewrite (map_insert_same _ _ _ _ _ Hi E1).
  - lia.
  - destruct E3 as [->| ->]; [done|exact Hm].
  - apply Forall_insert; [|done]. eapply Forall_impl; [exact H4|]. cbn. intros u Hu Hr. specialize (Hu Hr). lia.
  - by apply Forall_insert.
Qed.

(** Each action makes this smaller: [k] is twice the number of goroutines. *)
Definition weight (k dst : Z) (t : thread) : Z :=
  match t with
  | Load _ => k + 2
  | Swap _ current => if current =? dst then k + 1 else k + 3
  | Returned _ => 0
  end.
Definition effort (k dst : Z) (ts : list thread) : Z := foldr (fun t n => weight k dst t + n) 0 ts.

Lemma effort_insert k dst ts i t t' :
  ts !! i = Some t -> effort k dst (<[i := t']> ts) = effort k dst ts - weight k dst t + weight k dst t'.
Proof.
  revert i. induction ts as [|u ts IH]; intros [|i] Hi; cbn in Hi; try done.
  - injection Hi as ->. cbn. lia.
  - change (weight k dst u + effort k dst (<[i := t']> ts) = weight k dst u + effort k dst ts - weight k dst t + weight k dst t').
    rewrite (IH i Hi). lia.
Qed.

Lemma effort_change k dst dst' ts : 0 <= k -> effort k dst' ts <= effort k dst ts + 2 * Z.of_nat (length ts).
Proof.
  intros Hk. induction ts as [|t ts IH]; cbn [effort foldr length]; [lia|]. fold (effort k dst ts) (effort k dst' ts).
  assert (weight k dst' t <= weight k dst t + 2) by (destruct t; cbn; repeat case_match; lia). lia.
Qed.

Lemma effort_nonneg k dst ts : 0 <= k -> 0 <= effort k dst ts.
Proof.
  intros Hk. induction ts as [|t ts IH]; cbn [effort foldr]; [lia|]. fold (effort k dst ts).
  assert (0 <= weight k dst t) by (destruct t; cbn; repeat case_match; lia). lia.
Qed.

Lemma effort_decreases dst0 vs s s' :
  race_inv dst0 vs s -> step s s' ->
  effort (2 * Z.of_nat (length s'.2)) s'.1 s'.2 < effort (2 * Z.of_nat (length s.2)) s.1 s.2.
Proof.
  intros [_ _ _ _ H5] Hs. destruct Hs as [i t t' dst dst' ts Hi Ha]. cbn [fst snd] in *. rewrite length_insert.
  pose proof (proj1 (Forall_lookup _ _) H5 _ _ Hi) as Ht. cbn in Ht.
  set (k := 2 * Z.of_nat (length ts)). rewrite (effort_insert _ _ _ _ _ _ Hi).
  pose proof (effort_change k dst dst' ts ltac:(lia)) as Hc.
  destruct t as [v|v cur|v]; cbn in Ha; [destruct (Z.leb_spec v dst)|destruct (Z.eqb_spec dst cur) as [->|Hne]|done];
    injection Ha as <- <-; cbn [weight].
  - lia.
  - rewrite Z.eqb_refl. lia.
  - destruct (Z.eqb_spec cur v); [lia|]. unfold k in *. lia.
  - destruct (Z.eqb_spec cur dst); lia.
Qed.

Lemma runs_effort dst0 vs n s s' :
  race_inv dst0 vs s -> runs n s s' ->
  race_inv dst0 vs s' /\
  effort (2 * Z.of_nat (length s'.2)) s'.1 s'.2 + Z.of_nat n <= effort (2 * Z.of_nat (length s.2)) s.1 s.2.
Proof.
  intros H0. induction 1 as [|n s s' s'' Hr IH Hs]; [split; [done|lia]|]. destruct (IH H0) as [Hi He].
  split; [by eapply race_step|]. pose proof (effort_decreases _ _ _ _ Hi Hs). lia.
Qed.

Lemma start_effort k dst vs : effort k dst (map Load vs) = Z.of_nat (length vs) * (k + 2).
Proof. induction vs as [|v vs IH]; cbn [map effort foldr length]; [done|]. fold (effort k dst (map Load vs)). rewrite IH. cbn. lia. Qed.

Lemma race_start dst vs : race_inv dst vs (dst, map Load vs).
Proof.
  split; cbn.
  - rewrite map_map. apply map_id.
  - done.
  - apply mark_ge.
  - apply Forall_map, Forall_forall. by intros v _.
  - apply Forall_map, Forall_forall. by intros v _.
Qed.

(** C32. Concurrent updates of a high-water mark end, and keep the maximum.  Let any number
    [n] of goroutines call [updateHWM] with the values [vs], interleaved in any way.
    They take at most 2n(n+1) atomic actions together, although each may have to retry;
    as long as one has not returned, some action is possible; and when all have returned
    the mark is the maximum of its old value and all values.  The mark never leaves
    that range. *)
Theorem hwm_updates_end_at_maximum dst vs n s :
  runs n (dst, map Load vs) s ->
  let k := Z.of_nat (length vs) in
  Z.of_nat n <= 2 * k * (k + 1) /\ dst <= s.1 <= mark dst vs /\
  (forallb returned s.2 = true -> s.1 = mark dst vs) /\ (forallb returned s.2 = false -> exists s', step s s').
Proof.
  intros Hr k. destruct (runs_effort dst vs n _ s (race_start dst vs) Hr) as [[H1 H2 H3 H4 H5] He].
  cbn [fst snd] in He. rewrite start_effort, length_map in He.
  pose proof (effort_nonneg (2 * Z.of_nat (length s.2)) s.1 s.2 ltac:(lia)). destruct s as [m ts]. cbn in *.
  split_and!; [unfold k; lia|done|done| |].
  - intros Hall. apply Z.le_antisymm; [done|]. apply mark_bound; [done|]. rewrite <-H1. apply Forall_map.
    apply Forall_forall. intros t Ht. rewrite Forall_forall in H4. apply H4; [done|].
    rewrite forallb_forall in Hall. by apply Hall, list_elem_of_In.
  - intros Hsome. assert (exists i t, ts !! i = Some t /\ returned t = false) as (i & t & Hi & Ht).
    { clear -Hsome. induction ts as [|t ts IH]; [done|]. cbn in Hsome. destruct (returned t) eqn:E.
      - destruct (IH Hsome) as (i & u & Hi & Hu). by exists (S i), u.
      - by exists 0%nat, t. }
    destruct (advance m t) as [[m' t']|] eqn:Ea; [by eexists; eapply step_thread|].
    destruct t; cbn in *; repeat case_match; done.
Qed.

Lemma hwm_updates_end_at_maximum_witness :
  exists s, runs 5 (1, map Load [3; 2]) s /\ s = (3, [Returned 3; Returned 2]) /\ s.1 = mark 1 [3; 2].
Proof.
  assert (runs 5 (1, map Load [3; 2]) (3, [Returned 3; Returned 2])) as H.
  { eapply runs_step; [|by eapply (step_thread 1 (Load 2) _ 3 3 [Returned 3; Load 2])].
    eapply runs_step; [|by eapply (step_thread 1 (Swap 2 1) _ 3 3 [Returned 3; Swap 2 1])].
    eapply runs_step; [|by eapply (step_thread 0 (Swap 3 1) _ 1 3 [Swap 3 1; Swap 2 1])].
    eapply runs_step; [|by eapply (step_thread 1 (Load 2) _ 1 1 [Swap 3 1; Load 2])].
    eapply runs_step; [apply runs_none|by eapply (step_thread 0 (Load 3) _ 1 1 [Load 3; Load 2])]. }
  eexists. split; [exact H|]. split; [reflexivity|].
  destruct (hwm_updates_end_at_maximum 1 [3; 2] 5 _ H) as (_ & _ & Hmax & _). apply Hmax. reflexivity.
Defined.
