(* ===== verification/Writer.v ===== *)
(** * Writer: the log writer (internal/journal/writer.go)

    A goroutine takes requests from a queue, encodes records into a batch, writes
    and syncs the batch when it is large or old enough, and then acknowledges its
    records.  Clients run concurrently: their operations are split where another
    goroutine can run in between; [run_step] and [client_step] are the steps, [reached]
    their interleavings. *)

From Stdlib Require Import Ascii.
From S2P Require Import Prelude Model Bytes Codec CodecFacts Fs Names Disk Reader Metrics.

(** ** Configuration *)

Record WriterConfig := mkWriterConfig {
  wc_Dir : string;
  wc_EngineID : string;
  wc_ShardID : Z;
  wc_ShardCount : Z;
  wc_QueueSize : Z;
  wc_MaxBatchCommands : Z;
  wc_MaxBatchBytes : Z;
  wc_MaxBatchDelay : Z;
  wc_SegmentMaxBytes : Z;
  wc_Metrics : bool                    (* [cfg.Metrics != nil] *)
}.

Definition validateWriterConfig (cfg : WriterConfig) : option error :=
  if String.eqb (wc_Dir cfg) "" then Some (Errorf "wal dir is required" [])
  else if String.eqb (wc_EngineID cfg) "" then Some (Errorf "engine id is required" [])
  else if (wc_ShardID cfg <? 0) || (wc_ShardID cfg >=? wc_ShardCount cfg)
  then Some (Errorf "invalid shard id" [])
  else if (wc_QueueSize cfg <=? 0) || (wc_MaxBatchCommands cfg <=? 0) || (wc_MaxBatchBytes cfg <=? 0)
  then Some (Errorf "invalid queue or batch config" [])
  else if (wc_MaxBatchDelay cfg <=? 0) || (wc_SegmentMaxBytes cfg <=? 0)
  then Some (Errorf "invalid delay or segment size" [])
  else None.

(** ** Segment files *)

(** [strings.Split(s, "-")]. *)
Fixpoint split_dash (s : string) : list string :=
  match s with
  | EmptyString => [""%string]
  | String c s' =>
      match split_dash s' with
      | p :: ps => if Ascii.eqb c "-"%char then ""%string :: p :: ps else String c p :: ps
      | [] => [String c ""]
      end
  end.

(** [strings.TrimSuffix]. *)
Definition TrimSuffix (s suffix : string) : string :=
  let n := (String.length s - String.length suffix)%nat in
  if (String.length suffix <=? String.length s)%nat
     && String.eqb (String.substring n (String.length suffix) s) suffix
  then String.substring 0 n s else s.

(** [strconv.Atoi]: an optional sign and at least one digit, in the range of int. *)
Definition digit_value (c : Ascii.ascii) : option Z :=
  let n := Z.of_N (Ascii.N_of_ascii c) in
  if (48 <=? n) && (n <=? 57) then Some (n - 48) else None.
Fixpoint digits_value (s : string) (acc : Z) : option Z :=
  match s with
  | EmptyString => Some acc
  | String c s' =>
      match digit_value c with
      | Some v => digits_value s' (10 * acc + v)
      | None => None
      end
  end.
Definition unsigned_value (s : string) : option Z :=
  if String.eqb s "" then None else digits_value s 0.
Definition Atoi (s : string) : option Z :=
  let v := match s with
           | String c s' =>
               if Ascii.eqb c "-"%char then Z.opp <$> unsigned_value s'
               else if Ascii.eqb c "+"%char then unsigned_value s'
               else unsigned_value s
           | EmptyString => None
           end in
  match v with
  | Some n => if (MinInt64 <=? n) && (n <=? MaxInt64) then Some n else None
  | None => None
  end.

(** [fmt.Sprintf("shard-%02d-%06d.wal", shardID, index)]. *)
Definition segment_name (shardID index : Z) : string := numbered (shard_prefix shardID) 6 index ".wal".

Definition nextSegmentIndex (d : dir) (shardID : Z) : error + Z :=
  let files := glob_sorted d (shard_prefix shardID) ".wal" in
  match last files with
  | None => inr 0
  | Some last =>
      match split_dash last with
      | [_; _; part] =>
          let idxPart := TrimSuffix part ".wal" in
          match Atoi idxPart with
          | None => inl (Errorf "invalid wal segment index: %s" [AStr last])
          | Some idx => inr (i64_add idx 1)
          end
      | _ => inl (Errorf "invalid wal segment name: %s" [AStr last])
      end
  end.

(** ** writerState *)

Record writerState := mkWriterState {
  st_segmentIndex : Z;
  st_currentFile : option nat;
  st_currentSize : Z
}.

Definition lift {A} (r : error + A) : IO A :=
  match r with inl e => io_err e | inr a => io_ret a end.
Definition io_view : IO dir := fun dk fs => Done (inr (view dk)) dk fs.
Definition syncDirectory (dir : string) : IO unit := SyncDir dir.

(** A failure ends the writer, so the state it leaves is not part of the result. *)
Definition openNextSegment (cfg : WriterConfig) (s : writerState) : IO writerState :=
  let@ segmentIndex :=
    (if st_segmentIndex s =? 0
     then let@ d := io_view in lift (nextSegmentIndex d (wc_ShardID cfg))
     else io_ret (st_segmentIndex s)) in
  do@ (match st_currentFile s with Some f => Close f | None => io_ret tt end) in
  let path := segment_name (wc_ShardID cfg) segmentIndex in
  let@ f := OpenExcl path in
  let@ header := io_cleanup (lift (EncodeSegmentHeader
                   (mkSegmentHeader (wc_EngineID cfg) (wrap_u16 (wc_ShardID cfg))
                      (wrap_u16 (wc_ShardCount cfg))))) (Close f) in
  let@ n := io_cleanup (Write f header) (Close f) in
  do@ (if (n =? length header)%nat then io_ret tt
       else io_cleanup (io_err (Errorf "short write on segment header" [])) (Close f)) in
  do@ io_cleanup (Sync f) (Close f) in
  do@ io_cleanup (syncDirectory (wc_Dir cfg)) (Close f) in
  io_ret (mkWriterState (i64_add segmentIndex 1) (Some f) (Z.of_nat (length header))).

Definition writeBatch (cfg : WriterConfig) (batch : list Z) (s : writerState) : IO writerState :=
  if (length batch =? 0)%nat then io_ret s
  else
    let@ s := (if i64_add (st_currentSize s) (Z.of_nat (length batch)) >? wc_SegmentMaxBytes cfg
               then openNextSegment cfg s else io_ret s) in
    match st_currentFile s with
    | None => io_err (ErrOS "write" "")
    | Some f =>
        let@ n := Write f batch in
        if negb (n =? length batch)%nat then io_err (Errorf "short write in wal batch" [])
        else
          do@ Sync f in
          io_ret (mkWriterState (st_segmentIndex s) (st_currentFile s)
                    (i64_add (st_currentSize s) (Z.of_nat n)))
    end.

(** ** The writer goroutine and its clients *)

Definition ErrWriterClosed : error := Errorf "wal writer is closed" [].

(** A channel is a number; an append's ack channel is made by its [AppendAsync]. *)
Inductive writerRequest :=
| ReqAppend (record : Record_) (ack : nat)
| ReqFlush (done : nat)
| ReqShutdown (done : nat).

(** What has been sent on an ack channel, and which done channels are closed. *)
Inductive signal :=
| Acked (ack : nat) (err : option error)
| Closed (done : nat).

Inductive phase := Starting | Running | Stopped.

Record Writer := mkWriter {
  w_phase : phase;                     (* of the goroutine [run] *)
  w_state : writerState;
  w_pendingBytes : slice;
  w_pendingAcks : list nat;
  w_timerArmed : bool;
  w_requests : list writerRequest;     (* the channel *)
  w_closed : bool;
  w_failedErr : option error;
  w_signals : list signal;
  w_made : list Record_;               (* the record of each ack channel *)
  w_sent : list nat;                   (* the channels of all appends queued so far *)
  w_inflight : list (Record_ * nat);   (* AppendAsync calls past their checks *)
  w_observed : list observation        (* told to the metrics sink *)
}.

(** A new writer; [mkdir] is the error of [os.MkdirAll].  The buffer of [run] starts
    without spare room: its first growth, to any capacity, stands for its allocation. *)
Definition NewWriter (cfg : WriterConfig) (mkdir : option error) : error + Writer :=
  match validateWriterConfig cfg with
  | Some err => inl err
  | None =>
      match mkdir with
      | Some err => inl err
      | None =>
          inr (mkWriter Starting (mkWriterState 0 None 0) (mkSlice [] []) [] false [] false None [] [] [] [] [])
      end
  end.

Definition set_phase (p : phase) (w : Writer) : Writer :=
  mkWriter p (w_state w) (w_pendingBytes w) (w_pendingAcks w) (w_timerArmed w) (w_requests w)
    (w_closed w) (w_failedErr w) (w_signals w) (w_made w) (w_sent w) (w_inflight w) (w_observed w).
Definition set_state (s : writerState) (w : Writer) : Writer :=
  mkWriter (w_phase w) s (w_pendingBytes w) (w_pendingAcks w) (w_timerArmed w) (w_requests w)
    (w_closed w) (w_failedErr w) (w_signals w) (w_made w) (w_sent w) (w_inflight w) (w_observed w).
Definition set_pending (b : slice) (acks : list nat) (timer : bool) (w : Writer) : Writer :=
  mkWriter (w_phase w) (w_state w) b acks timer (w_requests w)
    (w_closed w) (w_failedErr w) (w_signals w) (w_made w) (w_sent w) (w_inflight w) (w_observed w).
Definition set_requests (q : list writerRequest) (w : Writer) : Writer :=
  mkWriter (w_phase w) (w_state w) (w_pendingBytes w) (w_pendingAcks w) (w_timerArmed w) q
    (w_closed w) (w_failedErr w) (w_signals w) (w_made w) (w_sent w) (w_inflight w) (w_observed w).
Definition set_closed (c : bool) (w : Writer) : Writer :=
  mkWriter (w_phase w) (w_state w) (w_pendingBytes w) (w_pendingAcks w) (w_timerArmed w) (w_requests w)
    c (w_failedErr w) (w_signals w) (w_made w) (w_sent w) (w_inflight w) (w_observed w).
Definition set_calls (made : list Record_) (sent : list nat) (calls : list (Record_ * nat)) (w : Writer) : Writer :=
  mkWriter (w_phase w) (w_state w) (w_pendingBytes w) (w_pendingAcks w) (w_timerArmed w) (w_requests w)
    (w_closed w) (w_failedErr w) (w_signals w) made sent calls (w_observed w).
Definition send (s : list signal) (w : Writer) : Writer :=
  mkWriter (w_phase w) (w_state w) (w_pendingBytes w) (w_pendingAcks w) (w_timerArmed w) (w_requests w)
    (w_closed w) (w_failedErr w) (w_signals w ++ s) (w_made w) (w_sent w) (w_inflight w) (w_observed w).
Definition tells (o : list observation) (w : Writer) : Writer :=
  mkWriter (w_phase w) (w_state w) (w_pendingBytes w) (w_pendingAcks w) (w_timerArmed w) (w_requests w)
    (w_closed w) (w_failedErr w) (w_signals w) (w_made w) (w_sent w) (w_inflight w) (w_observed w ++ o).
Definition setTerminalError (err : error) (w : Writer) : Writer :=
  mkWriter (w_phase w) (w_state w) (w_pendingBytes w) (w_pendingAcks w) (w_timerArmed w) (w_requests w)
    (w_closed w) (match w_failedErr w with None => Some err | old => old end)
    (w_signals w) (w_made w) (w_sent w) (w_inflight w) (w_observed w).

(** *** The goroutine *)

Definition reject (err : error) (req : writerRequest) : signal :=
  match req with
  | ReqAppend _ ack => Acked ack (Some err)
  | ReqFlush done => Closed done
  | ReqShutdown done => Closed done
  end.
Definition rejectRemaining (err : error) (w : Writer) : Writer :=
  send (map (reject err) (w_requests w)) (set_requests [] w).

(** The result of [m], its error included. *)
Definition io_try {A} (m : IO A) : IO (error + A) :=
  fun dk fs => match m dk fs with
               | Done r dk' fs' => Done (inr r) dk' fs'
               | Crashed dk' => Crashed dk'
               end.

(** The closure [flush] of [run]; [elapsed] is the time its write takes. *)
Definition flush (cfg : WriterConfig) (elapsed : Z) (w : Writer) : IO (bool * Writer) :=
  if (length (w_pendingAcks w) =? 0)%nat then io_ret (true, w)
  else
    let@ r := io_try (writeBatch cfg (sl_bytes (w_pendingBytes w)) (w_state w)) in
    match r with
    | inl err =>
        let w := setTerminalError err w in
        let w := send (map (fun ack => Acked ack (Some err)) (w_pendingAcks w)) w in
        io_ret (false, rejectRemaining err w)
    | inr s =>
        let batchCommands := Z.of_nat (length (w_pendingAcks w)) in
        let batchBytes := Z.of_nat (length (sl_bytes (w_pendingBytes w))) in
        let w := send (map (fun ack => Acked ack None) (w_pendingAcks w)) (set_state s w) in
        let w := tells (if wc_Metrics cfg
                       then [ObserveWALBatch batchCommands batchBytes; ObserveWALSyncLatency elapsed] else []) w in
        let b := w_pendingBytes w in
        io_ret (true, set_pending (mkSlice [] (sl_bytes b ++ sl_spare b)) [] false w)
    end.

(** The start of [run]: opening the first segment. *)
Definition run_start (cfg : WriterConfig) (w : Writer) : IO Writer :=
  let@ r := io_try (openNextSegment cfg (w_state w)) in
  match r with
  | inl err => io_ret (set_phase Stopped (rejectRemaining err (setTerminalError err w)))
  | inr s => io_ret (set_phase Running (set_state s w))
  end.

Definition stop_unless (ok : bool) (w : Writer) : Writer := if ok then w else set_phase Stopped w.

(** One request; [grown] is what a reallocated buffer holds beyond its length. *)
Definition handle (cfg : WriterConfig) (grown : list Z) (elapsed : Z) (req : writerRequest) (w : Writer)
  : IO (outcome Writer) :=
  match req with
  | ReqAppend record ack =>
      match appendEncodedRecord grown (w_pendingBytes w) record with
      | Ret (b, Some err) =>
          io_ret (Ret (send [Acked ack (Some err)] (set_pending b (w_pendingAcks w) (w_timerArmed w) w)))
      | Ret (b, None) =>
          let w := set_pending b (w_pendingAcks w ++ [ack]) true w in
          if (Z.of_nat (length (w_pendingAcks w)) >=? wc_MaxBatchCommands cfg)
             || (Z.of_nat (length (sl_bytes (w_pendingBytes w))) >=? wc_MaxBatchBytes cfg)
          then let@ r := flush cfg elapsed w in io_ret (Ret (stop_unless r.1 r.2))
          else io_ret (Ret w)
      | Panic => io_ret Panic
      | OutOfFuel => io_ret OutOfFuel
      end
  | ReqFlush done =>
      let@ r := flush cfg elapsed w in
      io_ret (Ret (stop_unless r.1 (send [Closed done] r.2)))
  | ReqShutdown done =>
      let@ r := flush cfg elapsed w in
      io_ret (Ret (set_phase Stopped (send [Closed done] r.2)))
  end.

(** The [select] of [run]: a request, or the timer when it is armed. *)
Inductive run_event := OnRequest (grown : list Z) (elapsed : Z) | OnTimer (elapsed : Z).

Definition run_ready (ev : run_event) (w : Writer) : bool :=
  match ev with
  | OnRequest _ _ => match w_requests w with [] => false | _ => true end
  | OnTimer _ => w_timerArmed w
  end.

Definition run_iteration (cfg : WriterConfig) (ev : run_event) (w : Writer) : IO (outcome Writer) :=
  match ev with
  | OnRequest grown elapsed =>
      match w_requests w with
      | [] => io_ret (Ret w)
      | req :: q => handle cfg grown elapsed req (set_requests q w)
      end
  | OnTimer elapsed => let@ r := flush cfg elapsed w in io_ret (Ret (stop_unless r.1 r.2))
  end.

(** *** Clients *)

Definition getTerminalError (w : Writer) : option error := w_failedErr w.
Definition isClosed (w : Writer) : bool := w_closed w.

(** [AppendAsync] up to its [select]: the checks and the new ack channel. *)
Definition AppendAsync_check (rec : Record_) (w : Writer) : (error + nat) * Writer :=
  match w_failedErr w with
  | Some err => (inl err, w)
  | None =>
      if w_closed w then (inl ErrWriterClosed, w)
      else let ack := length (w_made w) in
           (inr ack, set_calls (w_made w ++ [rec]) (w_sent w) (w_inflight w ++ [(rec, ack)]) w)
  end.

Definition queue_has_room (cfg : WriterConfig) (w : Writer) : bool :=
  Z.of_nat (length (w_requests w)) <? wc_QueueSize cfg.

(** The cases of its [select], for the call in flight at position [i]. *)
Definition AppendAsync_send (i : nat) (w : Writer) : Writer :=
  match w_inflight w !! i with
  | Some (rec, ack) =>
      set_calls (w_made w) (w_sent w ++ [ack]) (delete i (w_inflight w))
        (set_requests (w_requests w ++ [ReqAppend rec ack]) w)
  | None => w
  end.
Definition AppendAsync_return (i : nat) (w : Writer) : Writer :=
  set_calls (w_made w) (w_sent w) (delete i (w_inflight w)) w.

(** How a wait on a channel or the context ends. *)
Inductive wait := Signalled | ContextDone.
Definition ErrContextDone : error := Errorf "context done" [].

(** The end of [Append]: [received] is what its ack channel delivers. *)
Definition Append_wait (s : wait) (received : option error) : option error :=
  match s with Signalled => received | ContextDone => Some ErrContextDone end.

(** [Flush]: its check, sending its request, and the wait for its channel. *)
Definition Flush_check (w : Writer) : option error := getTerminalError w.
Definition Flush_send (done : nat) (w : Writer) : Writer :=
  set_requests (w_requests w ++ [ReqFlush done]) w.

Definition Flush_wait (s : wait) (w : Writer) : option error :=
  match s with Signalled => getTerminalError w | ContextDone => Some ErrContextDone end.

(** [Shutdown] holds the lifecycle lock for writing: no AppendAsync is in flight. *)
Definition Shutdown_send (done : nat) (w : Writer) : Writer :=
  if w_closed w then w
  else set_requests (w_requests w ++ [ReqShutdown done]) (set_closed true w).

(** [Shutdown] when its context ends before the request is queued: [markClosed] and
    [reopen] under the lock. *)
Definition Shutdown_cancel (w : Writer) : Writer :=
  if w_closed w then w else set_closed false (set_closed true w).
(** [Shutdown] when the goroutine has ended. *)
Definition Shutdown_late (w : Writer) : Writer :=
  if w_closed w then w else set_closed true w.

(** Its wait for the request's channel, or for the goroutine when it is closed already. *)
Definition Shutdown_wait (s : wait) (w : Writer) : option error :=
  match s with Signalled => getTerminalError w | ContextDone => Some ErrContextDone end.

(** ** Interleavings

    A step of the goroutine or of a client, with the disk; [faults] decides how the
    file operations end.  [id] is the shard whose records the clients append. *)

(** A record a shard submits: well typed, its own, of a size memory can hold. *)
Record submittable (id : Z) (r : Record_) : Prop := {
  su_typed : record_typed r;
  su_shard : rec_ShardID r = id;
  su_events : Z.of_nat (length (res_Events (rec_Result r))) < 72057594037927936
}.

Section Steps.
Context (cfg : WriterConfig).

(** How a step of the goroutine ends from [w] on [dk]. *)
Inductive run_step : Writer -> disk -> list fault -> io_result (outcome Writer) -> Prop :=
| rs_start w dk fs :
    w_phase w = Starting ->
    run_step w dk fs ((let@ w' := run_start cfg w in io_ret (Ret w')) dk fs)
| rs_iteration ev w dk fs :
    w_phase w = Running -> run_ready ev w = true ->
    run_step w dk fs (run_iteration cfg ev w dk fs).

Inductive client_step : Writer -> Writer -> Prop :=
| cs_check rec w : submittable (wc_ShardID cfg) rec -> client_step w (AppendAsync_check rec w).2
| cs_send i w :
    is_Some (w_inflight w !! i) -> queue_has_room cfg w = true -> client_step w (AppendAsync_send i w)
| cs_return i w : client_step w (AppendAsync_return i w)
| cs_flush done w : queue_has_room cfg w = true -> client_step w (Flush_send done w)
| cs_shutdown done w :
    w_inflight w = [] -> queue_has_room cfg w = true -> client_step w (Shutdown_send done w)
| cs_shutdown_cancel w : w_inflight w = [] -> client_step w (Shutdown_cancel w)
| cs_shutdown_late w : w_inflight w = [] -> w_phase w = Stopped -> client_step w (Shutdown_late w).

(** States reached from a new writer on [dk0], with segment numbers of six digits. *)
Inductive reached (dk0 : disk) : Writer -> disk -> Prop :=
| re_new mkdir w : NewWriter cfg mkdir = inr w -> reached dk0 w dk0
| re_client w w' dk : reached dk0 w dk -> client_step w w' -> reached dk0 w' dk
| re_run w dk fs fs' w' dk' :
    reached dk0 w dk -> st_segmentIndex (w_state w) < 1000000 ->
    run_step w dk fs (Done (inr (Ret w')) dk' fs') -> reached dk0 w' dk'.

(** The machine crashes between two steps, or inside one of the goroutine's. *)
Inductive crashes (dk0 : disk) : Writer -> disk -> Prop :=
| cr_between w dk : reached dk0 w dk -> crashes dk0 w dk
| cr_inside w dk fs dk' :
    reached dk0 w dk -> st_segmentIndex (w_state w) < 1000000 ->
    run_step w dk fs (Crashed dk') -> crashes dk0 w dk'.
End Steps.
