(* ===== verification/WriterFacts.v ===== *)
(** * WriterFacts: segment names, and logs on disk *)

From stdpp Require Import pretty.
From Stdlib Require Import Ascii.
From S2P Require Import Prelude Model Bytes Codec CodecFacts Fs Names Disk Reader Writer.

(** ** Reading back the number of a segment *)

Fixpoint no_dash (s : string) : bool :=
  match s with
  | EmptyString => true
  | String c s' => negb (Ascii.eqb c "-"%char) && no_dash s'
  end.

Lemma no_dash_app a b : no_dash (a +:+ b) = no_dash a && no_dash b.
Proof.
  induction a as [|c a IH]; [done|]. change (String c a +:+ b) with (String c (a +:+ b)).
  cbn [no_dash]. by rewrite IH, andb_assoc.
Qed.

Lemma split_dash_cons c s :
  split_dash (String c s) =
  if Ascii.eqb c "-"%char then ""%string :: split_dash s
  else match split_dash s with p :: ps => String c p :: ps | [] => [String c ""] end.
Proof.
  cbn [split_dash]. assert (split_dash s <> []) as Hne.
  { destruct s as [|c' s']; [done|]. cbn [split_dash]. repeat case_match; done. }
  destruct (split_dash s); [done|]. by case_match.
Qed.

Lemma split_dash_none s : no_dash s = true -> split_dash s = [s].
Proof.
  induction s as [|c s IH]; [done|]. cbn [no_dash]. intros [H1 H2]%andb_true_iff. rewrite split_dash_cons.
  destruct (Ascii.eqb c "-"%char); [done|]. by rewrite IH.
Qed.

Lemma split_dash_app a b : no_dash a = true -> split_dash (a +:+ "-" +:+ b) = a :: split_dash b.
Proof.
  induction a as [|c a IH]; [intros _; apply (split_dash_cons "-"%char b)|].
  cbn [no_dash]. intros [H1 H2]%andb_true_iff.
  change (String c a +:+ "-" +:+ b) with (String c (a +:+ "-" +:+ b)). rewrite split_dash_cons.
  destruct (Ascii.eqb c "-"%char); [done|]. by rewrite IH.
Qed.

Lemma digit_char x : (x < 10)%N ->
  Ascii.eqb (pretty_N_char x) "-"%char = false /\ digit_value (pretty_N_char x) = Some (Z.of_N x).
Proof.
  intros Hx. assert (x = 0 \/ x = 1 \/ x = 2 \/ x = 3 \/ x = 4 \/ x = 5 \/ x = 6 \/ x = 7 \/ x = 8 \/ x = 9)%N
    as Hc by lia. destruct_or! Hc; by subst.
Qed.

Lemma mod_10_lt n : (n `mod` 10 < 10)%N.
Proof. by apply N.mod_lt. Qed.

Lemma digits_no_dash w n : no_dash (digits w n) = true.
Proof.
  revert n. induction w as [|w IH]; intros n; [done|]. cbn [digits]. rewrite no_dash_app, IH. cbn [no_dash].
  by rewrite (proj1 (digit_char _ (mod_10_lt n))).
Qed.

Lemma digits_value_app a b acc :
  digits_value (a +:+ b) acc = match digits_value a acc with Some v => digits_value b v | None => None end.
Proof.
  revert acc. induction a as [|c a IH]; intros acc; [done|].
  change (String c a +:+ b) with (String c (a +:+ b)). cbn [digits_value]. by destruct (digit_value c).
Qed.

Lemma digits_value_digits w n acc :
  (n < 10 ^ N.of_nat w)%N -> digits_value (digits w n) acc = Some (acc * 10 ^ Z.of_nat w + Z.of_N n).
Proof.
  revert n acc. induction w as [|w IH]; intros n acc Hn.
  { change (10 ^ N.of_nat 0)%N with 1%N in Hn. simpl. f_equal. lia. }
  rewrite Nat2N.inj_succ, N.pow_succ_r' in Hn. cbn [digits]. rewrite digits_value_app.
  rewrite IH by (apply N.Div0.div_lt_upper_bound; lia). cbn [digits_value].
  rewrite (proj2 (digit_char _ (mod_10_lt n))). f_equal.
  rewrite Nat2Z.inj_succ, Z.pow_succ_r by lia. rewrite N2Z.inj_mod, N2Z.inj_div.
  change (Z.of_N 10) with 10. pose proof (Z.div_mod (Z.of_N n) 10 ltac:(done)) as E.
  set (q := Z.of_N n / 10) in *. set (r := Z.of_N n mod 10) in *. clearbody q r.
  lia.
Qed.

Lemma digits_head w n : (0 < w)%nat -> exists c s, digits w n = String c s /\
  Ascii.eqb c "-"%char = false /\ Ascii.eqb c "+"%char = false.
Proof.
  intros Hw. destruct w as [|w]; [lia|]. revert n. clear Hw. induction w as [|w IH]; intros n.
  - exists (pretty_N_char (n `mod` 10)), ""%string. split; [done|].
    pose proof (mod_10_lt n) as Hx. set (x := (n `mod` 10)%N) in *. clearbody x.
    assert (x = 0 \/ x = 1 \/ x = 2 \/ x = 3 \/ x = 4 \/ x = 5 \/ x = 6 \/ x = 7 \/ x = 8 \/ x = 9)%N
      as Hc by lia. destruct_or! Hc; by subst.
  - destruct (IH (n `div` 10)%N) as (c & s & E & H1 & H2).
    change (digits (S (S w)) n) with (digits (S w) (n `div` 10) +:+ String (pretty_N_char (n `mod` 10)) "")%string.
    rewrite E. eexists c, _. split; [reflexivity|done].
Qed.

Lemma Atoi_pad n : 0 <= n < 1000000 -> Atoi (pad 6 n) = Some n.
Proof.
  intros Hn. assert (pad 6 n = digits 6 (Z.to_N n)) as -> by (apply pad_digits; [lia|done]).
  destruct (digits_head 6 (Z.to_N n)) as (c & s & E & H1 & H2); [lia|].
  assert (digits_value (digits 6 (Z.to_N n)) 0 = Some n) as Hv.
  { rewrite digits_value_digits; [f_equal; lia|]. change (10 ^ N.of_nat 6)%N with 1000000%N. lia. }
  unfold Atoi, unsigned_value. rewrite E, H1, H2. rewrite E in Hv. cbn [String.eqb]. rewrite Hv.
  unfold MinInt64, MaxInt64. case_match eqn:Er; [done|]. lia.
Qed.

Lemma pad_no_dash w n : 0 <= n -> no_dash (pad w n) = true.
Proof.
  intros Hn. unfold pad. rewrite no_dash_app, andb_true_iff. split.
  { induction (w - _)%nat as [|k IH]; [done|]. cbn [zeros]. by rewrite no_dash_app, IH. }
  destruct n as [|p|p]; [done| |lia]. change (pretty (Zpos p)) with (pretty_N_go (Npos p) "").
  destruct (zeros_digits (S (N.to_nat (N.size (Npos p)))) (Npos p)) as [E _].
  { rewrite Nat2N.inj_succ, N2Nat.id. eapply N.lt_le_trans; [apply N.size_gt|].
    transitivity (10 ^ N.size (N.pos p))%N; [apply N.pow_le_mono_l; lia|apply N.pow_le_mono_r; lia]. }
  pose proof (digits_no_dash (S (N.to_nat (N.size (Npos p)))) (Npos p)) as H. rewrite <-E, no_dash_app in H.
  by apply andb_true_iff in H as [_ H].
Qed.

Lemma substring_prefix a b : String.substring 0 (String.length a) (a +:+ b) = a.
Proof.
  induction a as [|c a IH]; [by destruct b|]. change (String c a +:+ b) with (String c (a +:+ b)).
  cbn [String.length String.substring]. by rewrite IH.
Qed.

Lemma TrimSuffix_app a b : TrimSuffix (a +:+ b) b = a.
Proof.
  unfold TrimSuffix. rewrite length_sapp. rewrite (proj2 (Nat.leb_le _ _)) by lia.
  replace (String.length a + String.length b - String.length b)%nat with (String.length a + 0)%nat by lia.
  rewrite substring_sapp, substring_all, String.eqb_refl. cbn [andb]. rewrite Nat.add_0_r. apply substring_prefix.
Qed.

Lemma nextSegmentIndex_last d id k :
  0 <= id -> 0 <= k < 1000000 ->
  last (glob_sorted d (shard_prefix id) ".wal") = Some (segment_name id k) ->
  nextSegmentIndex d id = inr (k + 1).
Proof.
  intros Hid Hk Hl. unfold nextSegmentIndex. rewrite Hl. unfold segment_name, numbered, shard_prefix.
  assert ((("shard-" +:+ pad 2 id +:+ "-") +:+ pad 6 k +:+ ".wal")%string
    = ("shard" +:+ "-" +:+ (pad 2 id +:+ "-" +:+ (pad 6 k +:+ ".wal")))%string) as ->
    by (by rewrite !sapp_assoc).
  rewrite split_dash_app by done. rewrite split_dash_app by (by apply pad_no_dash).
  rewrite split_dash_none by (rewrite no_dash_app, pad_no_dash by lia; done).
  rewrite TrimSuffix_app, Atoi_pad by done. f_equal. unfold i64_add. rewrite wrap_i64_id; [done|].
  unfold is_i64. lia.
Qed.

(** ** A shard's log on a disk *)

Section Log.
Context (h : SegmentHeader) (Hh : header_ok h).

Definition seg_path (i : Z) : string := segment_name (sh_ShardID h) i.
Definition is_seg (n : string) : Prop := glob_match (shard_prefix (sh_ShardID h)) ".wal" n = true.

(** The file [n] is inode [i], its entry and its bytes [data] are on disk. *)
Definition stored (dk : disk) (n : string) (i : nat) (data : list Z) : Prop :=
  dk_names dk !! n = Some i /\ dk_durable dk !! n = Some i /\
  dk_inodes dk !! i = Some (mkInode data (length data)).

(** The segments [segs] are complete and on disk, and no other segment exists, but for
    the one with the number [idx], which is greater than theirs. *)
Record log_at (dk : disk) (segs : list (Z * list Record_)) (idx : Z) : Prop := {
  la_segs : Forall (fun seg => exists i, stored dk (seg_path seg.1) i (segment_bytes h seg.2)) segs;
  la_only : forall n, is_seg n -> n <> seg_path idx -> n ∉ map (fun seg => seg_path seg.1) segs ->
              dk_names dk !! n = None /\ dk_durable dk !! n = None;
  la_private : forall f, dk_names dk !! seg_path idx = Some f ->
                 Forall (fun seg => dk_names dk !! seg_path seg.1 <> Some f) segs;
  la_order : StronglySorted Z.lt (map fst segs ++ [idx]);
  la_range : Forall (fun i => 0 <= i < 1000000) (map fst segs ++ [idx]);
  la_writable : Forall (fun seg => Forall (writable (sh_ShardID h)) seg.2) segs
}.

(** The last segment: absent, or a prefix of the segment of [all] in which the bytes
    of [safe] are on disk. *)
Definition last_at (dk : disk) (idx : Z) (safe all : list Record_) : Prop :=
  (safe = [] /\ dk_names dk !! seg_path idx = None /\ dk_durable dk !! seg_path idx = None) \/
  exists f data m synced,
    dk_inodes dk !! f = Some (mkInode data synced) /\ data = take m (segment_bytes h all) /\
    dk_names dk !! seg_path idx = Some f /\
    (safe = [] /\ dk_durable dk !! seg_path idx = None \/ dk_durable dk !! seg_path idx = Some f) /\
    (safe = [] \/ (length (segment_bytes h safe) <= synced <= length data)%nat).

Record torn (dk : disk) (segs : list (Z * list Record_)) (idx : Z) (safe all : list Record_) : Prop := {
  tn_log : log_at dk segs idx;
  tn_prefix : safe `prefix_of` all;
  tn_writable : Forall (writable (sh_ShardID h)) all;
  tn_last : last_at dk idx safe all
}.

Lemma seg_path_is_seg i : is_seg (seg_path i).
Proof. apply glob_match_numbered. Qed.

Lemma seg_path_inj i j : 0 <= i < 1000000 -> 0 <= j < 1000000 -> seg_path i = seg_path j -> i = j.
Proof. intros Hi Hj. apply numbered_inj; [lia|done|done]. Qed.

(** Names of increasing numbers are sorted and distinct. *)
Lemma seg_paths_sorted l :
  StronglySorted Z.lt l -> Forall (fun i => 0 <= i < 1000000) l ->
  StronglySorted string_le (map seg_path l) /\ NoDup (map seg_path l).
Proof.
  induction 1 as [|i l Hs IH Hlt]; intros Hr; [split; constructor|].
  apply Forall_cons in Hr as [Hi Hr]. destruct (IH Hr) as [IH1 IH2]. rewrite Forall_forall in Hlt, Hr.
  split; simpl.
  - constructor; [done|]. apply Forall_forall. intros n (j & -> & Hj)%list_elem_of_fmap.
    specialize (Hlt j Hj). specialize (Hr j Hj). apply numbered_le; [lia|lia|lia|].
    change (10 ^ Z.of_nat 6) with 1000000. lia.
  - constructor; [|done]. intros (j & E & Hj)%list_elem_of_fmap.
    apply seg_path_inj in E; [|done|by apply Hr]. specialize (Hlt j Hj). lia.
Qed.

Lemma complete_safe k safe rest :
  (length (frames safe) <= k)%nat ->
  complete k (safe ++ rest) = safe ++ complete (k - length (frames safe)) rest.
Proof.
  revert k. induction safe as [|r safe IH]; intros k Hk.
  { unfold frames. simpl. by rewrite Nat.sub_0_r. }
  rewrite frames_cons, length_app in *. cbn [complete app].
  rewrite (proj2 (Nat.leb_le _ _)) by lia. f_equal. rewrite IH by lia. do 2 f_equal. lia.
Qed.

Definition read_log (d : dir) : fallible (list Record_) :=
  ReadShardRecordsForEngine d (sh_EngineID h) (sh_ShardID h) (sh_ShardCount h).

(** What survives of the complete segments: all of them. *)
Lemma log_survives dk segs idx d :
  log_at dk segs idx -> survives dk d ->
  Forall (holds d h) (map (fun seg => (seg_path seg.1, seg.2)) segs) /\
  forall n, is_seg n -> n <> seg_path idx -> n ∉ map (fun seg => seg_path seg.1) segs -> d !! n = None.
Proof.
  intros [Hs Ho Hpr Hord Hran Hw] Hd. split.
  - apply Forall_map, Forall_forall. intros [i rs] Hin. rewrite Forall_forall in Hs, Hw.
    destruct (Hs _ Hin) as (f & H1 & H2 & H3). split; [|by apply (Hw _ Hin)]. simpl.
    destruct (Hd (seg_path i)) as (e & He & Hfile). simpl in *.
    assert (e = Some f) as -> by (destruct He as [->| ->]; done).
    destruct Hfile as (ino & k & E & Hk & ->). rewrite H3 in E. injection E as <-. simpl in *.
    by rewrite take_ge.
  - intros n Hn Hne Hnin. destruct (Ho n Hn Hne Hnin) as [H1 H2].
    destruct (Hd n) as (e & He & Hfile). assert (e = None) as -> by (destruct He as [->| ->]; done). done.
Qed.

(** The listing is the complete segments and, if it is there, the last one. *)
Lemma log_listing dk segs idx d :
  log_at dk segs idx -> survives dk d ->
  glob_sorted d (shard_prefix (sh_ShardID h)) ".wal" =
  map (fun seg => seg_path seg.1) segs ++ (match d !! seg_path idx with Some _ => [seg_path idx] | None => [] end).
Proof.
  intros Hlog Hd. destruct (log_survives _ _ _ _ Hlog Hd) as [Hh1 Hnone].
  assert (map seg_path (map fst segs ++ [idx]) = map (fun seg => seg_path seg.1) segs ++ [seg_path idx]) as Emap
    by (by rewrite map_app, map_map).
  destruct (seg_paths_sorted _ (la_order _ _ _ Hlog) (la_range _ _ _ Hlog)) as [Hss Hnd].
  rewrite Emap in Hss, Hnd.
  assert (forall n, n ∈ map (fun seg => seg_path seg.1) segs -> is_seg n /\ is_Some (d !! n)) as Hin.
  { intros n (seg & -> & Hseg)%list_elem_of_fmap. split; [apply seg_path_is_seg|].
    rewrite Forall_map, Forall_forall in Hh1. destruct (Hh1 _ Hseg) as [E _]. simpl in E. rewrite E. by eexists. }
  apply glob_sorted_unique.
  - destruct (d !! seg_path idx); [done|]. rewrite app_nil_r. by eapply StronglySorted_app_1_l.
  - destruct (d !! seg_path idx); [done|]. rewrite app_nil_r. by apply NoDup_app in Hnd as (? & _ & _).
  - intros n. rewrite elem_of_app. split.
    + intros [Hn|Hn]; [by apply Hin|]. destruct (d !! seg_path idx) eqn:E; [|by apply not_elem_of_nil in Hn].
      apply list_elem_of_singleton in Hn as ->. split; [apply seg_path_is_seg|by eexists].
    + intros [Hn Hsome]. destruct (decide (n = seg_path idx)) as [->|Hne].
      * right. destruct Hsome as [x ->]. left.
      * left. destruct (decide (n ∈ map (fun seg => seg_path seg.1) segs)) as [|Hnot]; [done|].
        rewrite (Hnone n Hn Hne Hnot) in Hsome. by destruct Hsome.
Qed.

(** Reading complete segments only. *)
Lemma read_complete d segs :
  Forall (holds d h) segs ->
  readFiles d (sh_EngineID h) (sh_ShardID h) (sh_ShardCount h) true (map fst segs) [] = Ret (inr (concat (map snd segs))).
Proof.
  intros Hs. destruct segs as [|seg segs] using rev_ind; [done|]. clear IHsegs.
  apply Forall_app in Hs as [Hs [Hseg _]%Forall_cons]. destruct seg as [n rs]. destruct Hseg as [Hn Hw]. simpl in *.
  rewrite !map_app, concat_app. simpl. rewrite app_nil_r.
  rewrite (readFiles_ok d h segs n rs (length (segment_bytes h rs)) []); [|done|done|done|by rewrite take_ge|done].
  unfold segment_bytes. rewrite length_app, Nat.add_comm, Nat.add_sub. by rewrite complete_all.
Qed.

(** After a crash the log reads back with all safe records and no foreign ones. *)
Lemma torn_read dk segs idx safe all d :
  torn dk segs idx safe all -> survives dk d ->
  exists rs, read_log d = Ret (inr (concat (map snd segs) ++ rs)) /\ safe `prefix_of` rs /\ rs `prefix_of` all.
Proof.
  intros [Hlog Hpre Hw Hlast] Hd. destruct (log_survives _ _ _ _ Hlog Hd) as [Hholds _].
  unfold read_log, ReadShardRecordsForEngine, readShardRecords. rewrite (log_listing _ _ _ _ Hlog Hd).
  assert (map (fun seg => seg_path seg.1) segs = map fst (map (fun seg => (seg_path seg.1, seg.2)) segs)) as ->
    by (by rewrite map_map).
  assert (map snd segs = map snd (map (fun seg => (seg_path seg.1, seg.2)) segs)) as -> by (by rewrite map_map).
  set (segs' := map (fun seg => (seg_path seg.1, seg.2)) segs) in *.
  assert (safe = [] -> d !! seg_path idx = None -> exists rs, readFiles d (sh_EngineID h) (sh_ShardID h)
    (sh_ShardCount h) true (map fst segs' ++ (match d !! seg_path idx with Some _ => [seg_path idx] | None => [] end)) []
    = Ret (inr (concat (map snd segs') ++ rs)) /\ safe `prefix_of` rs /\ rs `prefix_of` all) as Habsent.
  { intros -> ->. exists []. rewrite !app_nil_r, read_complete by done. split_and!; [done|done|apply prefix_nil]. }
  destruct (Hd (seg_path idx)) as (e & He & Hfile).
  destruct Hlast as [(Hsafe & Hn & Hdur)|(f & data & m & synced & Hino & -> & Hn & Hdur & Hsync)].
  { apply Habsent; [done|]. assert (e = None) as -> by (destruct He as [->| ->]; done). done. }
  destruct e as [i|]; [|apply Habsent; [|done]].
  2:{ destruct He as [He|He]; [congruence|]. destruct Hdur as [[? _]|Hdur]; [done|congruence]. }
  assert (i = f) as -> by (destruct He as [He|He]; [congruence|destruct Hdur as [[_ ?]|?]; congruence]).
  destruct Hfile as (ino & k & E & Hk & Hdata). rewrite Hino in E. injection E as <-.
  cbn [ino_data ino_synced] in *. rewrite take_take in Hdata. rewrite Hdata.
  set (k' := (Nat.min (Nat.min k m) (length (segment_bytes h all)))).
  rewrite (readFiles_ok d h segs' (seg_path idx) all k' []); [|done|done|done| |unfold k'; lia].
  2:{ rewrite Hdata. do 2 f_equal. unfold k'. destruct (le_lt_dec (Nat.min k m) (length (segment_bytes h all))).
      - by rewrite (Nat.min_l (Nat.min k m)) by lia.
      - rewrite (Nat.min_r (Nat.min k m)) by lia. by rewrite !take_ge by lia. }
  eexists. split; [done|]. split; [|apply complete_prefix].
  destruct Hsync as [->|Hsync]; [apply prefix_nil|]. destruct Hpre as [rest ->].
  rewrite length_take in Hsync. rewrite complete_safe; [by eexists|].
  subst k'. unfold segment_bytes in *. rewrite !length_app in *. lia.
Qed.

(** *** How the operations of the writer change it *)

Lemma log_at_set dk segs idx f ino :
  log_at dk segs idx -> dk_names dk !! seg_path idx = Some f -> log_at (set_inode f ino dk) segs idx.
Proof.
  intros [Hs Ho Hpr Hord Hran Hw] Hf. split; try done. specialize (Hpr f Hf). rewrite Forall_forall in *.
  intros seg Hin. destruct (Hs seg Hin) as (i & H1 & H2 & H3). exists i. split_and!; [done|done|]. simpl.
  rewrite list_lookup_insert_ne; [done|]. intros <-. by apply (Hpr seg Hin).
Qed.

Lemma path_notin dk segs idx seg : log_at dk segs idx -> seg ∈ segs -> seg_path seg.1 <> seg_path idx.
Proof.
  intros Hlog Hin. destruct (seg_paths_sorted _ (la_order _ _ _ Hlog) (la_range _ _ _ Hlog)) as [_ Hnd].
  rewrite map_app, map_map in Hnd. apply NoDup_app in Hnd as (_ & Hd & _). intros E.
  apply (Hd (seg_path seg.1)); [apply list_elem_of_fmap; by exists seg|]. rewrite E. by left.
Qed.

Lemma log_at_create dk segs idx :
  log_at dk segs idx -> dk_names dk !! seg_path idx = None -> log_at (create (seg_path idx) dk).2 segs idx.
Proof.
  intros Hlog Hnone. pose proof Hlog as [Hs Ho Hpr Hord Hran Hw].
  assert (forall seg, seg ∈ segs -> exists i, (i < length (dk_inodes dk))%nat /\
    dk_names (create (seg_path idx) dk).2 !! seg_path seg.1 = Some i /\
    stored (create (seg_path idx) dk).2 (seg_path seg.1) i (segment_bytes h seg.2)) as Hseg.
  { intros seg Hin. rewrite Forall_forall in Hs. destruct (Hs seg Hin) as (i & H1 & H2 & H3).
    pose proof (lookup_lt_Some _ _ _ H3) as Hlt. exists i. unfold create, stored. cbn [snd dk_names dk_durable dk_inodes].
    rewrite lookup_insert_ne by (intros E; by apply (path_notin _ _ _ _ Hlog Hin)).
    split_and!; [done|done|done|done|]. by rewrite lookup_app_l. }
  split; try done.
  - apply Forall_forall. intros seg Hin. destruct (Hseg seg Hin) as (i & _ & _ & Hi). by exists i.
  - intros n Hn Hne Hnin. destruct (Ho n Hn Hne Hnin) as [H1 H2]. simpl. by rewrite lookup_insert_ne.
  - intros f. cbn [create snd dk_names]. rewrite lookup_insert_eq. intros [= <-].
    apply Forall_forall. intros seg Hin. destruct (Hseg seg Hin) as (i & Hlt & Hi & _). cbn [create snd dk_names] in Hi. rewrite Hi. intros [= ->]. lia.
Qed.

Lemma log_at_sync_dir dk segs idx : log_at dk segs idx -> log_at (sync_dir dk) segs idx.
Proof.
  intros [Hs Ho Hpr Hord Hran Hw]. split; try done.
  - rewrite Forall_forall in *. intros seg Hin. destruct (Hs seg Hin) as (i & H1 & H2 & H3). by exists i.
  - intros n Hn Hne Hnin. destruct (Ho n Hn Hne Hnin) as [H1 _]. done.
Qed.

(** The last segment is full, and its successor becomes the last. *)
Lemma log_at_rotate dk segs idx f rs :
  log_at dk segs idx -> stored dk (seg_path idx) f (segment_bytes h rs) ->
  Forall (writable (sh_ShardID h)) rs -> idx + 1 < 1000000 ->
  log_at dk (segs ++ [(idx, rs)]) (idx + 1) /\
  dk_names dk !! seg_path (idx + 1) = None /\ dk_durable dk !! seg_path (idx + 1) = None.
Proof.
  intros Hlog Hst Hw Hidx. pose proof Hlog as [Hs Ho Hpr Hord Hran Hwr].
  pose proof Hran as [Hran1 [Hi _]%Forall_cons]%Forall_app.
  assert (forall seg, seg ∈ segs -> seg.1 < idx) as Hlt.
  { intros seg Hin. eapply StronglySorted_app_1_elem_of; [exact Hord| |by left].
    apply list_elem_of_fmap. by exists seg. }
  assert (dk_names dk !! seg_path (idx + 1) = None /\ dk_durable dk !! seg_path (idx + 1) = None) as Hnone.
  { apply Ho; [apply seg_path_is_seg|..].
    - intros E. apply seg_path_inj in E; lia.
    - intros (seg & E & Hin)%list_elem_of_fmap. apply seg_path_inj in E; [|lia|].
      + specialize (Hlt seg Hin). lia.
      + rewrite Forall_forall in Hran1. apply Hran1, list_elem_of_fmap. by exists seg. }
  split; [|done]. split.
  - apply Forall_app. split; [done|]. constructor; [by exists f|constructor].
  - intros n Hn Hne Hnin. rewrite map_app, elem_of_app in Hnin. apply Ho; [done| |tauto].
    intros ->. apply Hnin. right. by left.
  - intros f'. by rewrite (proj1 Hnone).
  - rewrite map_app. apply StronglySorted_app_2; [|done|repeat constructor].
    intros x y Hx ->%list_elem_of_singleton. simpl in Hx. apply elem_of_app in Hx as [Hx|Hx].
    + apply list_elem_of_fmap in Hx as (seg & -> & Hin). specialize (Hlt seg Hin). lia.
    + apply list_elem_of_singleton in Hx as ->. lia.
  - rewrite map_app. apply Forall_app. split; [done|]. constructor; [lia|constructor].
  - apply Forall_app. split; [done|]. by constructor.
Qed.
End Log.
