(* ===== verification/WriterSafe.v ===== *)
(** * WriterSafe: the file operations of the writer under faults and crashes *)

From S2P Require Import Prelude Model Bytes Codec CodecFacts Fs Names Disk Reader Writer WriterFacts.

Section Safe.
Context (cfg : WriterConfig).
Let h : SegmentHeader := mkSegmentHeader (wc_EngineID cfg) (wc_ShardID cfg) (wc_ShardCount cfg).
Context (Hh : header_ok h).

(** The last segment [idx] is open as [f]; it holds [rs], all of it on disk. *)
Record clean (dk : disk) (segs : list (Z * list Record_)) (idx : Z) (f : nat) (rs : list Record_) : Prop := {
  cl_log : log_at h dk segs idx;
  cl_stored : stored dk (seg_path h idx) f (segment_bytes h rs);
  cl_writable : Forall (writable (sh_ShardID h)) rs
}.

Lemma clean_torn dk segs idx f rs : clean dk segs idx f rs -> torn h dk segs idx rs rs.
Proof.
  intros [Hlog (H1 & H2 & H3) Hw]. split; [done|done|done|]. right.
  exists f, (segment_bytes h rs), (length (segment_bytes h rs)), (length (segment_bytes h rs)).
  split_and!; [done|by rewrite take_ge|done|by right|by right].
Qed.

(** ** Opening a segment *)

(** The new file is open as [f] with content [data]; its entry is not on disk yet. *)
Record opened (dk : disk) (segs : list (Z * list Record_)) (idx : Z) (f : nat) (data : list Z) (synced : nat) : Prop := {
  op_log : log_at h dk segs idx;
  op_name : dk_names dk !! seg_path h idx = Some f;
  op_durable : dk_durable dk !! seg_path h idx = None;
  op_inode : dk_inodes dk !! f = Some (mkInode data synced)
}.

Lemma opened_torn dk segs idx f m synced :
  opened dk segs idx f (take m (segment_header_bytes h)) synced -> torn h dk segs idx [] [].
Proof.
  intros [Hlog Hn Hd Hi]. split; [done|done|constructor|]. right.
  exists f, (take m (segment_header_bytes h)), m, synced. unfold segment_bytes, frames. cbn [map concat].
  rewrite app_nil_r. split_and!; [done|done|done|by left|by left].
Qed.

Lemma opened_set dk segs idx f data synced data' synced' :
  opened dk segs idx f data synced -> opened (set_inode f (mkInode data' synced') dk) segs idx f data' synced'.
Proof.
  intros [Hlog Hn Hd Hi]. split; [by apply log_at_set|done|done|]. simpl.
  apply list_lookup_insert_eq. by apply lookup_lt_Some in Hi.
Qed.

Lemma opened_append dk segs idx f data synced more :
  opened dk segs idx f data synced -> opened (append_bytes f more dk) segs idx f (data ++ more) synced.
Proof. intros Ho. unfold append_bytes. rewrite (op_inode _ _ _ _ _ _ Ho). by eapply opened_set. Qed.

Lemma opened_sync dk segs idx f data synced :
  opened dk segs idx f data synced -> opened (sync_file f dk) segs idx f data (length data).
Proof. intros Ho. unfold sync_file. rewrite (op_inode _ _ _ _ _ _ Ho). by eapply opened_set. Qed.

Lemma opened_publish dk segs idx f :
  opened dk segs idx f (segment_header_bytes h) (length (segment_header_bytes h)) ->
  clean (sync_dir dk) segs idx f [].
Proof.
  intros [Hlog Hn Hd Hi]. split; [by apply log_at_sync_dir| |constructor].
  unfold segment_bytes, frames. cbn [map concat]. rewrite app_nil_r. by split_and!.
Qed.

(** The segment before it is opened. *)
Record absent (dk : disk) (segs : list (Z * list Record_)) (idx : Z) : Prop := {
  ab_log : log_at h dk segs idx;
  ab_name : dk_names dk !! seg_path h idx = None;
  ab_durable : dk_durable dk !! seg_path h idx = None
}.

Lemma absent_torn dk segs idx : absent dk segs idx -> torn h dk segs idx [] [].
Proof. intros [Hlog Hn Hd]. split; [done|done|constructor|]. by left. Qed.

Lemma open_excl_opened dk segs idx :
  absent dk segs idx -> exists f dk', open_excl (seg_path h idx) dk = inr (f, dk') /\ opened dk' segs idx f [] 0.
Proof.
  intros [Hlog Hn Hd]. unfold open_excl. rewrite Hn. eexists _, _. split; [reflexivity|].
  split; [by apply (log_at_create h)|by cbn [create dk_names]; rewrite lookup_insert_eq|done|].
  cbn [create dk_inodes]. by rewrite lookup_app_r, Nat.sub_diag by lia.
Qed.

(** The number the next segment gets. *)
Definition next_index (dk : disk) (s : writerState) (idx : Z) : Prop :=
  (st_segmentIndex s = idx /\ idx <> 0) \/
  (st_segmentIndex s = 0 /\ nextSegmentIndex (view dk) (wc_ShardID cfg) = inr idx).

Abbreviation torn_empty segs idx := (fun dk => torn h dk segs idx [] []).

Lemma close_keeps (P : disk -> Prop) f dk : P dk -> io_safe P (fun _ => P) (Close f) dk.
Proof. intros HP. by apply io_safe_noop. Qed.

(** Writing the header of the file opened as [f], and what follows. *)
Lemma write_header_safe dk segs idx f :
  opened dk segs idx f [] 0 ->
  io_safe (torn_empty segs idx) (fun n dk' => n = length (segment_header_bytes h) /\
      opened dk' segs idx f (segment_header_bytes h) 0)
    (io_cleanup (Write f (segment_header_bytes h)) (Close f)) dk.
Proof.
  intros Ho. apply io_safe_cleanup; [|intros; by apply close_keeps]. apply io_safe_op.
  - intros n. eapply (opened_torn _ _ _ f n 0). by eapply (opened_append _ _ _ _ []).
  - split; [done|]. by eapply (opened_append _ _ _ _ []).
Qed.

Lemma sync_header_safe dk segs idx f :
  opened dk segs idx f (segment_header_bytes h) 0 ->
  io_safe (torn_empty segs idx) (fun _ dk' => clean dk' segs idx f [])
    (do@ io_cleanup (Sync f) (Close f) in io_cleanup (syncDirectory (wc_Dir cfg)) (Close f)) dk.
Proof.
  intros Ho. assert (forall dk synced, opened dk segs idx f (segment_header_bytes h) synced -> torn h dk segs idx [] [])
    as Ht.
  { intros dk' synced Ho'. eapply (opened_torn _ _ _ f (length (segment_header_bytes h)) synced). by rewrite take_ge. }
  eapply (io_safe_bind _ (fun _ dk' => opened dk' segs idx f (segment_header_bytes h) (length (segment_header_bytes h)))).
  { apply io_safe_cleanup; [|intros; by apply close_keeps]. apply io_safe_op; [intros n; by eapply Ht|].
    by eapply opened_sync. }
  intros _ dk2 Ho2. apply io_safe_cleanup; [|intros; by apply close_keeps].
  eapply (io_safe_bind _ (fun _ dk' => dk' = dk2)); [apply io_safe_noop; [by eapply Ht|done]|].
  intros _ ? ->. apply io_safe_op; [intros n; by eapply Ht|]. by apply opened_publish.
Qed.

Lemma encode_header :
  EncodeSegmentHeader (mkSegmentHeader (wc_EngineID cfg) (wrap_u16 (wc_ShardID cfg)) (wrap_u16 (wc_ShardCount cfg)))
  = inr (segment_header_bytes h).
Proof.
  destruct Hh as [H1 H2 H3]. simpl in *. rewrite !u16_id by done. by apply EncodeSegmentHeader_ok.
Qed.

Lemma openNextSegment_safe dk segs idx s :
  absent dk segs idx -> next_index dk s idx ->
  io_safe (torn_empty segs idx)
    (fun s' dk' => exists f, s' = mkWriterState (idx + 1) (Some f) (Z.of_nat (length (segment_header_bytes h))) /\
       clean dk' segs idx f [])
    (openNextSegment cfg s) dk.
Proof.
  intros Hab Hnext. pose proof (absent_torn _ _ _ Hab) as Ht0. unfold openNextSegment.
  eapply (io_safe_bind _ (fun i dk' => i = idx /\ dk' = dk)).
  { destruct Hnext as [[E Hne]|[E Hn]]; rewrite E.
    - rewrite (proj2 (Z.eqb_neq _ _) Hne). by apply io_safe_ret.
    - intros fs. rewrite Z.eqb_refl. unfold io_bind, io_view. rewrite Hn. done. }
  intros ? ? [-> ->]. eapply (io_safe_bind _ (fun _ dk' => dk' = dk)).
  { destruct (st_currentFile s); [by apply io_safe_noop|by apply io_safe_ret]. }
  intros _ ? ->. destruct (open_excl_opened _ _ _ Hab) as (f & dk1 & Hopen & Ho). cbv zeta.
  change (segment_name (wc_ShardID cfg) idx) with (seg_path h idx).
  eapply (io_safe_bind _ (fun x dk' => x = f /\ dk' = dk1)).
  { apply io_safe_op; [|by rewrite Hopen]. intros n. apply or_all_cases; [done|]. intros a dk' E.
    rewrite Hopen in E. injection E as <- <-. by apply (opened_torn _ _ _ f 0 0). }
  intros ? ? [-> ->]. rewrite encode_header. eapply (io_safe_bind _ (fun x dk' => x = segment_header_bytes h /\ dk' = dk1)).
  { apply io_safe_cleanup; [by apply io_safe_ret|intros; by apply close_keeps]. }
  intros ? ? [-> ->]. eapply io_safe_bind; [by apply write_header_safe|]. intros ? dk2 [-> Ho2].
  eapply (io_safe_bind _ (fun _ dk' => dk' = dk2)).
  { rewrite Nat.eqb_refl. by apply io_safe_ret. }
  intros _ ? ->. pose proof (sync_header_safe _ _ _ _ Ho2) as Hs.
  intros fs. specialize (Hs fs). unfold io_bind in *.
  destruct (io_cleanup (Sync f) (Close f) dk2 fs) as [[e|[]] dk3 fs3|dk3]; [done| |done].
  destruct (io_cleanup _ _ dk3 fs3) as [[e|[]] dk4 fs4|dk4]; [done| |done].
  exists f. split; [|done]. f_equal. pose proof (la_range _ _ _ _ (ab_log _ _ _ Hab)) as [_ [Hi _]%Forall_cons]%Forall_app.
  unfold i64_add. rewrite wrap_i64_id; [done|]. unfold is_i64. lia.
Qed.

(** ** Writing a batch *)

Lemma segment_bytes_app rs rest : segment_bytes h (rs ++ rest) = segment_bytes h rs ++ frames rest.
Proof. unfold segment_bytes. by rewrite frames_app, app_assoc. Qed.

Lemma take_more {A} m (l l' : list A) : take m l = take (Nat.min m (length l)) (l ++ l').
Proof.
  rewrite take_app_le by lia. destruct (le_lt_dec m (length l)); [by rewrite Nat.min_l by lia|].
  rewrite Nat.min_r by lia. by rewrite !take_ge by lia.
Qed.

Lemma torn_more dk segs idx safe all rest :
  torn h dk segs idx safe all -> Forall (writable (sh_ShardID h)) rest -> torn h dk segs idx safe (all ++ rest).
Proof.
  intros [Hlog Hp Hw Hl] Hr. split; [done|by apply prefix_app_r|by apply Forall_app|].
  destruct Hl as [Hl|(f & data & m & synced & Hi & -> & Hn & Hd & Hs)]; [by left|right].
  exists f, (take m (segment_bytes h all)), (Nat.min m (length (segment_bytes h all))), synced.
  split_and!; [done| |done|done|done]. rewrite segment_bytes_app. apply take_more.
Qed.

(** The file [f] holds [rs] on disk and some bytes of [rest] after it. *)
Lemma torn_appended dk segs idx f rs rest n synced :
  log_at h dk segs idx -> dk_names dk !! seg_path h idx = Some f -> dk_durable dk !! seg_path h idx = Some f ->
  dk_inodes dk !! f = Some (mkInode (segment_bytes h rs ++ take n (frames rest)) synced) ->
  (length (segment_bytes h rs) <= synced <= length (segment_bytes h rs ++ take n (frames rest)))%nat ->
  Forall (writable (sh_ShardID h)) (rs ++ rest) -> torn h dk segs idx rs (rs ++ rest).
Proof.
  intros Hlog Hn Hd Hi Hs Hw. split; [done|by apply prefix_app_r|done|]. right.
  exists f, (segment_bytes h rs ++ take n (frames rest)), (length (segment_bytes h rs) + n)%nat, synced.
  split_and!; [done| |done|by right|by right].
  rewrite segment_bytes_app, take_app_add. done.
Qed.

Lemma append_clean dk segs idx f rs more :
  clean dk segs idx f rs ->
  log_at h (append_bytes f more dk) segs idx /\
  dk_names (append_bytes f more dk) !! seg_path h idx = Some f /\
  dk_durable (append_bytes f more dk) !! seg_path h idx = Some f /\
  dk_inodes (append_bytes f more dk) !! f
    = Some (mkInode (segment_bytes h rs ++ more) (length (segment_bytes h rs))).
Proof.
  intros [Hlog (H1 & H2 & H3) Hw]. unfold append_bytes. rewrite H3.
  split_and!; [by apply log_at_set|done|done|]. simpl. apply list_lookup_insert_eq. by apply lookup_lt_Some in H3.
Qed.

Lemma sync_clean dk segs idx f rs more :
  clean dk segs idx f rs -> Forall (writable (sh_ShardID h)) more ->
  clean (sync_file f (append_bytes f (frames more) dk)) segs idx f (rs ++ more).
Proof.
  intros Hc Hw. destruct (append_clean _ _ _ _ _ (frames more) Hc) as (Hlog & H1 & H2 & H3).
  unfold sync_file. rewrite H3. cbn [ino_data]. split; [by apply log_at_set| |by apply Forall_app; split; [apply Hc|]].
  rewrite segment_bytes_app. split_and!; [done|done|]. simpl. apply list_lookup_insert_eq.
  by apply lookup_lt_Some in H3.
Qed.

(** Appending a batch to the open segment. *)
Lemma write_frames_safe dk segs idx f rs batch s :
  clean dk segs idx f rs -> Forall (writable (sh_ShardID h)) batch -> st_currentFile s = Some f ->
  io_safe (fun dk' => torn h dk' segs idx rs (rs ++ batch))
    (fun s' dk' => st_segmentIndex s' = st_segmentIndex s /\ st_currentFile s' = Some f /\
       clean dk' segs idx f (rs ++ batch))
    (let@ n := Write f (frames batch) in
     if negb (n =? length (frames batch))%nat then io_err (Errorf "short write in wal batch" [])
     else do@ Sync f in
       io_ret (mkWriterState (st_segmentIndex s) (st_currentFile s) (i64_add (st_currentSize s) (Z.of_nat n)))) dk.
Proof.
  intros Hc Hw Hf.
  assert (forall n, torn h (append_bytes f (take n (frames batch)) dk) segs idx rs (rs ++ batch)) as Ht.
  { intros n. destruct (append_clean _ _ _ _ _ (take n (frames batch)) Hc) as (Hlog & H1 & H2 & H3).
    eapply torn_appended; [done..| |by apply Forall_app; split; [apply Hc|]]. rewrite length_app. lia. }
  eapply (io_safe_bind _ (fun n dk' => n = length (frames batch) /\ dk' = append_bytes f (frames batch) dk)).
  { apply io_safe_op; [apply Ht|done]. }
  intros ? ? [-> ->]. rewrite Nat.eqb_refl. cbn [negb].
  assert (torn h (append_bytes f (frames batch) dk) segs idx rs (rs ++ batch)) as Hta.
  { specialize (Ht (length (frames batch))). by rewrite take_ge in Ht. }
  eapply (io_safe_bind _ (fun _ dk' => clean dk' segs idx f (rs ++ batch))).
  { apply io_safe_op; [by intros n|]. by apply sync_clean. }
  intros _ dk' Hc'. apply io_safe_ret. by rewrite Hf.
Qed.

(** ** The log as a whole *)

Definition recs_of (segs : list (Z * list Record_)) : list Record_ := concat (map snd segs).

(** The log can be read back with [safe] at least and [all] at most. *)
Definition recoverable (dk : disk) (safe all : list Record_) : Prop :=
  exists segs idx s a, torn h dk segs idx s a /\ safe = recs_of segs ++ s /\ all = recs_of segs ++ a.

(** The writer has a segment open and the log is exactly [log]. *)
Definition ready (dk : disk) (st : writerState) (log : list Record_) : Prop :=
  exists segs idx f rs, clean dk segs idx f rs /\ st_segmentIndex st = idx + 1 /\
    st_currentFile st = Some f /\ log = recs_of segs ++ rs.

Lemma recs_of_snoc segs idx rs : recs_of (segs ++ [(idx, rs)]) = recs_of segs ++ rs.
Proof. unfold recs_of. rewrite map_app, concat_app. simpl. by rewrite app_nil_r. Qed.

Lemma ready_recoverable dk st log more :
  ready dk st log -> Forall (writable (sh_ShardID h)) more -> recoverable dk log (log ++ more).
Proof.
  intros (segs & idx & f & rs & Hc & _ & _ & ->) Hw. exists segs, idx, rs, (rs ++ more).
  split_and!; [by apply torn_more; [eapply clean_torn|]|done|by rewrite app_assoc].
Qed.

Lemma open_recoverable dk segs idx batch :
  torn h dk segs idx [] [] -> Forall (writable (sh_ShardID h)) batch ->
  recoverable dk (recs_of segs) (recs_of segs ++ batch).
Proof.
  intros Ht Hw. exists segs, idx, [], batch. split_and!; [by apply (torn_more _ _ _ _ [])|by rewrite app_nil_r|done].
Qed.

(** Rotation: the next segment is absent. *)
Lemma clean_absent dk segs idx f rs :
  clean dk segs idx f rs -> idx + 1 < 1000000 -> absent dk (segs ++ [(idx, rs)]) (idx + 1).
Proof.
  intros [Hlog Hst Hw] Hi. destruct (log_at_rotate h dk segs idx f rs Hlog Hst Hw Hi) as (H1 & H2 & H3).
  by split.
Qed.

Lemma writeBatch_safe dk st log batch :
  ready dk st log -> Forall (writable (sh_ShardID h)) batch -> st_segmentIndex st < 1000000 ->
  io_safe (fun dk' => recoverable dk' log (log ++ batch)) (fun st' dk' => ready dk' st' (log ++ batch))
    (writeBatch cfg (frames batch) st) dk.
Proof.
  intros Hr Hw Hi. pose proof (ready_recoverable _ _ _ batch Hr Hw) as Hrec. unfold writeBatch.
  destruct (length (frames batch) =? 0)%nat eqn:E0.
  { apply io_safe_ret. destruct batch as [|r batch]; [by rewrite app_nil_r|].
    apply Nat.eqb_eq in E0. rewrite frames_cons, length_app in E0. pose proof (frame_bytes_pos r). lia. }
  eapply (io_safe_bind _ (fun st' dk' => ready dk' st' log)).
  { destruct (_ >? _); [|by apply io_safe_ret].
    destruct Hr as (segs & idx & f & rs & Hc & Hidx & Hf & ->). rewrite Hidx in Hi.
    pose proof (clean_absent _ _ _ _ _ Hc Hi) as Hab.
    assert (0 <= idx) as Hpos.
    { pose proof (la_range _ _ _ _ (cl_log _ _ _ _ _ Hc)) as [_ [Hx _]%Forall_cons]%Forall_app. lia. }
    assert (next_index dk st (idx + 1)) as Hnext by (left; split; [done|lia]).
    intros fs. pose proof (openNextSegment_safe _ _ _ _ Hab Hnext fs) as Hs.
    destruct (openNextSegment cfg st dk fs) as [[e|st'] dk' fs'|dk'].
    - rewrite <-(recs_of_snoc segs idx rs). by eapply open_recoverable.
    - destruct Hs as (f' & -> & Hc'). exists (segs ++ [(idx, rs)]), (idx + 1), f', [].
      split_and!; [done|done|done|by rewrite app_nil_r, recs_of_snoc].
    - rewrite <-(recs_of_snoc segs idx rs). by eapply open_recoverable. }
  intros st' dk' (segs & idx & f & rs & Hc & Hidx & Hf & ->). rewrite Hf.
  intros fs. pose proof (write_frames_safe _ _ _ _ _ batch st' Hc Hw Hf fs) as Hs. rewrite Hf in Hs.
  destruct (io_bind _ _ dk' fs) as [[e|st''] dk'' fs''|dk''].
  - exists segs, idx, rs, (rs ++ batch). split_and!; [done|done|by rewrite app_assoc].
  - destruct Hs as (H1 & H2 & H3). exists segs, idx, f, (rs ++ batch).
    split_and!; [done|congruence|done|by rewrite app_assoc].
  - exists segs, idx, rs, (rs ++ batch). split_and!; [done|done|by rewrite app_assoc].
Qed.

(** What reading gives after a crash. *)
Lemma recoverable_read dk safe all d :
  recoverable dk safe all -> survives dk d ->
  exists rs, read_log h d = Ret (inr rs) /\ safe `prefix_of` rs /\ rs `prefix_of` all.
Proof.
  intros (segs & idx & s & a & Ht & -> & ->) Hd. destruct (torn_read h Hh _ _ _ _ _ _ Ht Hd) as (rs & Hr & H1 & H2).
  exists (recs_of segs ++ rs). split_and!; [done|by apply prefix_app|by apply prefix_app].
Qed.
End Safe.
