(* ===== verification/WriterProps.v ===== *)
(** * WriterProps: what an acknowledgement of the log writer promises

    The invariant of all reachable states of the writer and its clients, and the
    properties that follow from it. *)

From S2P Require Import Prelude Model Bytes Codec CodecFacts Fs Names Disk Reader JournalProps.
From S2P Require Import Writer WriterFacts WriterSafe.

(** ** Ack channels *)

(** The channels that got an answer, and those that got [nil]. *)
Definition answered (sigs : list signal) : list nat :=
  omap (fun s => match s with Acked a _ => Some a | Closed _ => None end) sigs.
Definition acked (sigs : list signal) : list nat :=
  omap (fun s => match s with Acked a None => Some a | _ => None end) sigs.

(** The channels of the append requests in a queue. *)
Definition queued (q : list writerRequest) : list nat :=
  omap (fun r => match r with ReqAppend _ a => Some a | _ => None end) q.

(** The records of channels. *)
Definition recs (made : list Record_) (ids : list nat) : list Record_ := omap (fun a => made !! a) ids.

Lemma recs_app made a b : recs made (a ++ b) = recs made a ++ recs made b.
Proof. apply omap_app. Qed.

Lemma recs_more made l ids : Forall (fun a => a < length made)%nat ids -> recs (made ++ l) ids = recs made ids.
Proof.
  induction 1 as [|a ids Ha _ IH]; [done|]. unfold recs in *. cbn [omap list_omap]. rewrite lookup_app_l by done.
  by rewrite IH.
Qed.

Lemma recs_snoc made ids a r : made !! a = Some r -> recs made (ids ++ [a]) = recs made ids ++ [r].
Proof. intros H. rewrite recs_app. unfold recs at 2. cbn [omap list_omap]. by rewrite H. Qed.

#[export] Instance record_fits_dec r : Decision (record_fits r).
Proof. unfold record_fits. apply _. Defined.

Lemma answered_acks (err : option error) ids : answered (map (fun a => Acked a err) ids) = ids.
Proof. induction ids as [|a ids IH]; [done|]. unfold answered in *. cbn. by rewrite IH. Qed.

Lemma acked_nil ids : acked (map (fun a => Acked a None) ids) = ids.
Proof. induction ids as [|a ids IH]; [done|]. unfold acked in *. cbn. by rewrite IH. Qed.

Lemma acked_err e ids : acked (map (fun a => Acked a (Some e)) ids) = [].
Proof. induction ids as [|a ids IH]; [done|]. exact IH. Qed.

Lemma acked_reject e q : acked (map (reject e) q) = [].
Proof. induction q as [|[| |] q IH]; [done|..]; exact IH. Qed.

Lemma answered_reject e q : answered (map (reject e) q) = queued q.
Proof.
  induction q as [|[rec a|d|d] q IH]; [done|..]; unfold answered, queued in *; cbn; by rewrite IH.
Qed.

Lemma acked_answered sigs a : a ∈ acked sigs -> a ∈ answered sigs.
Proof. unfold acked, answered. rewrite !list_elem_of_omap. intros (s & Hs & E). exists s. by destruct s as [? []|]. Qed.

Lemma NoDup_sub {A} (l k : list A) : l ⊆+ k -> NoDup k -> NoDup l.
Proof. intros [k' Hp]%submseteq_Permutation. rewrite Hp. by intros [? _]%NoDup_app. Qed.

Section Inv.
Context (cfg : WriterConfig).
Let h : SegmentHeader := mkSegmentHeader (wc_EngineID cfg) (wc_ShardID cfg) (wc_ShardCount cfg).
Context (Hh : header_ok h).

(** The log before the start: complete segments, the next number free. *)
Definition settled_log (dk0 : disk) (old : list Record_) : Prop :=
  exists segs idx, absent cfg dk0 segs idx /\ old = recs_of segs /\
    idx = match last segs with Some seg => seg.1 + 1 | None => 0 end.

Lemma view_Some dk n : is_Some (view dk !! n) <-> is_Some (dk_names dk !! n).
Proof. unfold view. rewrite lookup_fmap. by rewrite fmap_is_Some. Qed.

(** The number [openNextSegment] finds. *)
Lemma settled_next dk segs idx :
  absent cfg dk segs idx -> idx = match last segs with Some seg => seg.1 + 1 | None => 0 end ->
  nextSegmentIndex (view dk) (wc_ShardID cfg) = inr idx.
Proof.
  intros [Hlog Hn Hd] Hidx. fold h in Hlog, Hn, Hd. destruct Hlog as [Hs Ho _ Hord Hran _].
  assert (forall n, is_seg h n -> is_Some (view dk !! n) -> n ∈ map (fun seg => seg_path h seg.1) segs) as Hin.
  { intros n Hseg Hsome%view_Some. destruct (decide (n ∈ map (fun seg => seg_path h seg.1) segs)) as [|Hnot]; [done|].
    destruct (decide (n = seg_path h idx)) as [->|Hne]; [rewrite Hn in Hsome; by destruct Hsome|].
    rewrite (proj1 (Ho n Hseg Hne Hnot)) in Hsome. by destruct Hsome. }
  destruct segs as [|seg segs _] using rev_ind.
  { unfold nextSegmentIndex. simpl in Hidx. subst idx.
    destruct (last _) as [n|] eqn:E; [|done]. apply glob_sorted_last in E as (H1 & H2 & _).
    by apply Hin, not_elem_of_nil in H2. }
  rewrite last_snoc in Hidx. subst idx.
  rewrite map_app in Hord, Hran. pose proof Hran as [[Hran1 [Hr _]%Forall_cons]%Forall_app _]%Forall_app.
  apply (nextSegmentIndex_last (view dk) (wc_ShardID cfg) seg.1); [apply Hh|done|].
  apply glob_sorted_last. split_and!; [apply (seg_path_is_seg h)|..].
  - apply view_Some. apply Forall_app in Hs as [_ [(i & Hi & _) _]%Forall_cons]. by exists i.
  - intros n Hn1 Hn2. specialize (Hin n Hn1 Hn2). rewrite map_app, elem_of_app in Hin.
    destruct Hin as [Hin|Hin%list_elem_of_singleton]; [|subst n; apply string_le_refl].
    apply list_elem_of_fmap in Hin as (seg' & -> & Hseg').
    assert (seg'.1 < seg.1) as Hlt.
    { eapply StronglySorted_app_1_elem_of; [eapply StronglySorted_app_1_l; exact Hord| |by left].
      apply list_elem_of_fmap. by exists seg'. }
    rewrite Forall_forall in Hran1. assert (0 <= seg'.1 < 1000000) as Hr'.
    { apply Hran1, list_elem_of_fmap. by exists seg'. }
    apply numbered_le; [lia|lia|lia|]. change (10 ^ Z.of_nat 6) with 1000000. lia.
Qed.

Context (dk0 : disk) (old : list Record_).
Context (Hold : settled_log dk0 old).

(** ** The invariant *)

(** Channels of the batch that still wait for an answer. *)
Definition owed (w : Writer) : list nat :=
  match w_phase w with Stopped => [] | _ => w_pendingAcks w end.

Record wf (w : Writer) : Prop := {
  wf_made : Forall (submittable (wc_ShardID cfg)) (w_made w);
  wf_queue : Forall (fun req => match req with ReqAppend rec a => w_made w !! a = Some rec | _ => True end)
               (w_requests w);
  wf_calls : Forall (fun c => w_made w !! c.2 = Some c.1) (w_inflight w);
  wf_pending : Forall (fun a => exists r, w_made w !! a = Some r /\ record_fits r) (w_pendingAcks w);
  wf_answered : Forall (fun a => a < length (w_made w))%nat (answered (w_signals w));
  wf_sent : Forall (fun a => a < length (w_made w))%nat (w_sent w);
  wf_unique : NoDup (answered (w_signals w) ++ owed w ++ queued (w_requests w) ++ map snd (w_inflight w))
}.

(** The records sent so far that can be encoded, and those of them in the queue. *)
Definition logged (w : Writer) : list Record_ := filter record_fits (recs (w_made w) (w_sent w)).
Definition backlog (w : Writer) : list Record_ := filter record_fits (recs (w_made w) (queued (w_requests w))).

(** The goroutine has handled all records but the batch and the queue, in order. *)
Definition ordered (w : Writer) : Prop :=
  logged w = recs (w_made w) (acked (w_signals w)) ++ recs (w_made w) (w_pendingAcks w) ++ backlog w.

(** The acknowledged records are safe, and the log continues as records were sent. *)
Definition crash_ok (w : Writer) (dk : disk) : Prop :=
  exists all, recoverable cfg dk (old ++ recs (w_made w) (acked (w_signals w))) (old ++ all) /\
    all `prefix_of` logged w.

Definition phase_inv (w : Writer) (dk : disk) : Prop :=
  match w_phase w with
  | Starting => w_state w = mkWriterState 0 None 0 /\ sl_bytes (w_pendingBytes w) = [] /\
                w_pendingAcks w = [] /\ acked (w_signals w) = [] /\ w_failedErr w = None /\
                ordered w /\ dk = dk0
  | Running => ready cfg dk (w_state w) (old ++ recs (w_made w) (acked (w_signals w))) /\
               sl_bytes (w_pendingBytes w) = frames (recs (w_made w) (w_pendingAcks w)) /\
               w_failedErr w = None /\ ordered w
  | Stopped => crash_ok w dk /\
               (w_failedErr w = None -> ready cfg dk (w_state w) (old ++ recs (w_made w) (acked (w_signals w))))
  end.

Definition inv (w : Writer) (dk : disk) : Prop := wf w /\ phase_inv w dk.

Lemma wf_acked_lt w : wf w -> Forall (fun a => a < length (w_made w))%nat (acked (w_signals w)).
Proof.
  intros Hwf. apply Forall_forall. intros a Ha%acked_answered.
  by eapply Forall_forall in Ha; [|apply (wf_answered w Hwf)].
Qed.

Lemma wf_pending_lt w : wf w -> Forall (fun a => a < length (w_made w))%nat (w_pendingAcks w).
Proof.
  intros Hwf. eapply Forall_impl; [apply (wf_pending w Hwf)|]. intros a (r & Hr & _). by apply lookup_lt_Some in Hr.
Qed.

Lemma wf_pending_writable w : wf w -> Forall (writable (wc_ShardID cfg)) (recs (w_made w) (w_pendingAcks w)).
Proof.
  intros Hwf. apply Forall_forall. intros r (a & Ha & Hr)%list_elem_of_omap.
  pose proof (wf_pending w Hwf) as Hp. rewrite Forall_forall in Hp. destruct (Hp a Ha) as (r' & Hr' & Hfit).
  rewrite Hr in Hr'. injection Hr' as <-. apply list_elem_of_lookup_2 in Hr.
  pose proof (wf_made w Hwf) as Hm. rewrite Forall_forall in Hm. destruct (Hm r Hr) as [H1 H2 H3]. by split.
Qed.

(** Closing a done channel changes nothing. *)
Lemma answered_closed sigs d : answered (sigs ++ [Closed d]) = answered sigs.
Proof. unfold answered. rewrite omap_app. cbn. by rewrite app_nil_r. Qed.
Lemma acked_closed sigs d : acked (sigs ++ [Closed d]) = acked sigs.
Proof. unfold acked. rewrite omap_app. cbn. by rewrite app_nil_r. Qed.

Lemma inv_closed w dk d : inv w dk -> inv (send [Closed d] w) dk.
Proof.
  intros [[H1 H2 H3 H4 H5 H6 H7] Hp]. split.
  - split; cbn [send w_made w_sent w_requests w_inflight w_pendingAcks w_signals]; rewrite ?answered_closed; done.
  - unfold phase_inv, crash_ok, ordered, logged, backlog in *.
    cbn [send w_phase w_made w_sent w_requests w_signals w_state w_pendingBytes w_pendingAcks w_failedErr].
    by rewrite acked_closed.
Qed.

(** ** Clients *)

Lemma wf_queued_lt w : wf w -> Forall (fun a => a < length (w_made w))%nat (queued (w_requests w)).
Proof.
  intros Hwf. apply Forall_forall. intros a ([r b|d|d] & Hin & [= ->])%list_elem_of_omap.
  pose proof (wf_queue w Hwf) as Hq. rewrite Forall_forall in Hq. specialize (Hq _ Hin).
  by apply lookup_lt_Some in Hq.
Qed.

Lemma inv_check rec w dk :
  submittable (wc_ShardID cfg) rec -> inv w dk -> inv (AppendAsync_check rec w).2 dk.
Proof.
  intros Hrec [Hwf Hp]. unfold AppendAsync_check. destruct (w_failedErr w) eqn:Ef; [done|]. destruct (w_closed w); [done|].
  pose proof Hwf as [H1 H2 H3 H4 H5 Hs H6].
  assert (forall a (r : Record_), w_made w !! a = Some r -> (w_made w ++ [rec]) !! a = Some r) as Hlk.
  { intros a r Hr. rewrite lookup_app_l; [done|]. by apply lookup_lt_Some in Hr. }
  split.
  - split; cbn [snd set_calls w_made w_requests w_inflight w_pendingAcks w_signals].
    + apply Forall_app. split; [done|]. by constructor.
    + eapply Forall_impl; [exact H2|]. intros [r a|d|d]; auto.
    + apply Forall_app. split; [eapply Forall_impl; [exact H3|]; auto|]. constructor; [|constructor]. simpl.
      by rewrite lookup_app_r, Nat.sub_diag by lia.
    + eapply Forall_impl; [exact H4|]. intros a (r & Hr & Hf). eauto.
    + eapply Forall_impl; [exact H5|]. intros a Ha. cbn beta in *. rewrite length_app. lia.
    + eapply Forall_impl; [exact Hs|]. intros a Ha. cbn beta in *. rewrite length_app. lia.
    + rewrite map_app. cbn [map snd]. rewrite !app_assoc. apply NoDup_app. rewrite <-!app_assoc. split_and!; [exact H6| |apply NoDup_singleton].
      intros a Ha ->%list_elem_of_singleton.
      assert (length (w_made w) < length (w_made w))%nat as Habs; [|lia].
      rewrite !elem_of_app in Ha. destruct Ha as [Ha|[Ha|[Ha|Ha]]].
      * rewrite Forall_forall in H5. by apply H5.
      * unfold owed in Ha. pose proof (wf_pending_lt w Hwf) as Hl. rewrite Forall_forall in Hl.
        apply Hl. simpl in Ha. destruct (w_phase w); [done|done|by apply not_elem_of_nil in Ha].
      * pose proof (wf_queued_lt w Hwf) as Hl. rewrite Forall_forall in Hl. by apply Hl.
      * apply list_elem_of_fmap in Ha as ([r a] & E & Hin). rewrite Forall_forall in H3.
        specialize (H3 _ Hin). cbn [fst snd] in E, H3. rewrite <-E in H3. by apply lookup_lt_Some in H3.
  - unfold phase_inv, crash_ok, ordered, logged, backlog in *.
    cbn [snd set_calls w_phase w_made w_sent w_requests w_signals w_state w_pendingBytes w_pendingAcks w_failedErr].
    rewrite !recs_more by auto using wf_pending_lt, wf_acked_lt, wf_queued_lt. exact Hp.
Qed.

Lemma queued_app q q' : queued (q ++ q') = queued q ++ queued q'.
Proof. apply omap_app. Qed.

(** Steps that do not touch the appends of the queue. *)
Lemma inv_queue w q calls c dk :
  inv w dk ->
  Forall (fun req => match req with ReqAppend rec a => w_made w !! a = Some rec | _ => True end) q ->
  queued q = queued (w_requests w) ->
  Forall (fun x => w_made w !! x.2 = Some x.1) calls -> calls ⊆+ w_inflight w ->
  inv (set_closed c (set_calls (w_made w) (w_sent w) calls (set_requests q w))) dk.
Proof.
  intros [[H1 H2 H3 H4 H5 Hs H6] Hp] Hq Eq Hc Hsub. split.
  - split; try done.
    change (NoDup (answered (w_signals w) ++ owed w ++ queued q ++ map snd calls)). rewrite Eq.
    eapply NoDup_sub; [|exact H6]. do 3 (apply submseteq_app; [done|]). by apply fmap_submseteq.
  - unfold phase_inv, crash_ok, ordered, logged, backlog in *.
    cbn [set_closed set_calls set_requests w_phase w_made w_sent w_requests w_signals w_state w_pendingBytes w_pendingAcks w_failedErr].
    by rewrite Eq.
Qed.

Lemma inv_send i w dk : is_Some (w_inflight w !! i) -> inv w dk -> inv (AppendAsync_send i w) dk.
Proof.
  intros [[rec a] Hi] [[H1 H2 H3 H4 H5 Hs H6] Hp]. unfold AppendAsync_send. rewrite Hi.
  assert (w_made w !! a = Some rec) as Ha.
  { rewrite Forall_forall in H3. apply (H3 (rec, a)). by eapply list_elem_of_lookup_2. }
  split.
  - split; try done; cbn [set_calls set_requests w_made w_sent w_requests w_inflight w_signals].
    + apply Forall_app. split; [done|]. by constructor.
    + rewrite Forall_forall in *. intros x Hx. apply H3. eapply elem_of_submseteq; [exact Hx|].
      apply sublist_submseteq, sublist_delete.
    + apply Forall_app. split; [done|]. constructor; [by apply lookup_lt_Some in Ha|constructor].
    + change (NoDup (answered (w_signals w) ++ owed w ++ queued (w_requests w ++ [ReqAppend rec a])
        ++ map snd (delete i (w_inflight w)))). eapply NoDup_sub; [|exact H6].
      do 2 (apply submseteq_app; [done|]). rewrite queued_app, <-app_assoc. apply submseteq_app; [done|].
      apply Permutation_submseteq. symmetry. apply (Permutation_map snd (delete_Permutation _ _ _ Hi)).
  - unfold phase_inv, crash_ok, ordered, logged, backlog in *.
    cbn [set_calls set_requests w_phase w_made w_sent w_requests w_signals w_state w_pendingBytes w_pendingAcks w_failedErr].
    rewrite queued_app. change (queued [ReqAppend rec a]) with [a]. rewrite !(recs_snoc _ _ a rec) by done.
    rewrite !filter_app. destruct (w_phase w).
    + destruct Hp as (? & ? & ? & ? & ? & Ho & ->). split_and!; [done..| |done]. rewrite Ho. by rewrite <-!app_assoc.
    + destruct Hp as (? & ? & ? & Ho). split_and!; [done..|]. rewrite Ho. by rewrite <-!app_assoc.
    + destruct Hp as [(all & Hr & Hpre) Hc]. split; [|done]. exists all. split; [done|]. by apply prefix_app_r.
Qed.

Lemma inv_return i w dk : inv w dk -> inv (AppendAsync_return i w) dk.
Proof.
  intros Hinv. pose proof Hinv as [[H1 H2 H3 _ _ _ _] _].
  assert (delete i (w_inflight w) ⊆+ w_inflight w) as Hd by apply sublist_submseteq, sublist_delete.
  apply (inv_queue w (w_requests w) (delete i (w_inflight w)) (w_closed w)); [done|done|done| |done].
  rewrite Forall_forall in *. intros x Hx. apply H3. by eapply elem_of_submseteq.
Qed.

Lemma inv_request req c w dk :
  match req with ReqAppend _ _ => False | _ => True end ->
  inv w dk -> inv (set_closed c (set_requests (w_requests w ++ [req]) w)) dk.
Proof.
  intros Hreq Hinv. pose proof Hinv as [[H1 H2 H3 _ _ _ _] _].
  apply (inv_queue w (w_requests w ++ [req]) (w_inflight w) c); [done| | |done|done].
  - apply Forall_app. split; [done|]. constructor; [by destruct req|constructor].
  - rewrite queued_app. destruct req; [done|by rewrite app_nil_r..].
Qed.

Lemma inv_set_closed c w dk : inv w dk -> inv (set_closed c w) dk.
Proof. intros Hinv. by apply (inv_queue w (w_requests w) (w_inflight w) c); [..|apply Hinv| |apply Hinv|]. Qed.

Lemma inv_client w w' dk : inv w dk -> client_step cfg w w' -> inv w' dk.
Proof.
  intros Hinv Hs. destruct Hs as [rec w Hrec|i w Hi _|i w|done w _|done w _ _|w _|w _ _].
  - by apply inv_check.
  - by apply inv_send.
  - by apply inv_return.
  - by apply (inv_request (ReqFlush done) (w_closed w)).
  - unfold Shutdown_send. destruct (w_closed w); [done|].
    exact (inv_request (ReqShutdown done) true w dk I Hinv).
  - unfold Shutdown_cancel. destruct (w_closed w); [done|]. by do 2 apply inv_set_closed.
  - unfold Shutdown_late. destruct (w_closed w); [done|]. by apply inv_set_closed.
Qed.

(** ** The goroutine *)

Lemma io_safe_try {A} (P : disk -> Prop) (Q : A -> disk -> Prop) m dk :
  io_safe P Q m dk ->
  io_safe P (fun r dk' => match r with inl _ => P dk' | inr a => Q a dk' end) (io_try m) dk.
Proof. intros Hm fs. specialize (Hm fs). unfold io_try. by destruct (m dk fs) as [[e|a] dk' fs'|dk']. Qed.

Lemma crash_ok_ready w dk :
  ready cfg dk (w_state w) (old ++ recs (w_made w) (acked (w_signals w))) -> ordered w -> crash_ok w dk.
Proof.
  intros Hr Ho. exists (recs (w_made w) (acked (w_signals w))). split; [|rewrite Ho; by eexists].
  rewrite <-(app_nil_r (old ++ _)) at 2. eapply ready_recoverable; [exact Hr|constructor].
Qed.

(** Stopping: the batch is forgotten. *)
Lemma inv_stop w dk : inv w dk -> w_phase w = Running -> inv (set_phase Stopped w) dk.
Proof.
  intros [[H1 H2 H3 H4 H5 Hs H6] Hp] Hph. unfold phase_inv in Hp. rewrite Hph in Hp. split.
  - split; try done. unfold owed in *. cbn [set_phase w_phase w_signals w_requests w_inflight] in *.
    eapply NoDup_sub; [|exact H6]. rewrite Hph. by apply submseteq_app; [|apply submseteq_inserts_l].
  - split; [apply (crash_ok_ready (set_phase Stopped w)); apply Hp|intros _; apply Hp].
Qed.

(** A failed batch: all waiting appends get the error. *)
Lemma inv_failed w dk err all :
  wf w -> w_phase w <> Stopped ->
  recoverable cfg dk (old ++ recs (w_made w) (acked (w_signals w))) (old ++ all) -> all `prefix_of` logged w ->
  inv (set_phase Stopped (rejectRemaining err
         (send (map (fun ack => Acked ack (Some err)) (w_pendingAcks w)) (setTerminalError err w)))) dk.
Proof.
  intros Hwf Hph Hrec Hall. pose proof Hwf as [H1 H2 H3 H4 H5 Hs H6].
  set (w' := set_phase _ _).
  assert (answered (w_signals w') = answered (w_signals w) ++ w_pendingAcks w ++ queued (w_requests w)) as Ea.
  { unfold w'. cbn [set_phase rejectRemaining set_requests send setTerminalError w_signals w_requests w_pendingAcks].
    unfold answered. rewrite !omap_app, <-app_assoc. f_equal. f_equal.
    - apply (answered_acks (Some err)).
    - apply answered_reject. }
  assert (acked (w_signals w') = acked (w_signals w)) as Ek.
  { unfold w'. cbn [set_phase rejectRemaining set_requests send setTerminalError w_signals w_requests w_pendingAcks].
    unfold acked. rewrite !omap_app. fold (acked (map (fun ack => Acked ack (Some err)) (w_pendingAcks w))).
    rewrite acked_err. fold (acked (map (reject err) (w_requests w))). by rewrite acked_reject, !app_nil_r. }
  split.
  - split; try done.
    + rewrite Ea, !Forall_app. split_and!; [exact H5|exact (wf_pending_lt w Hwf)|exact (wf_queued_lt w Hwf)].
    + rewrite Ea, <-!app_assoc. unfold owed in H6. cbn. by destruct (w_phase w).
  - split; [exists all; by rewrite Ek|]. unfold w'. cbn. by destruct (w_failedErr w).
Qed.

(** The result of [flush]: true and the invariant, or false and a stopped writer. *)
Definition flushed (r : bool * Writer) (dk : disk) : Prop :=
  if r.1 then inv r.2 dk /\ w_phase r.2 = Running else inv (set_phase Stopped r.2) dk.

Lemma flush_safe {elapsed} w dk :
  inv w dk -> w_phase w = Running -> st_segmentIndex (w_state w) < 1000000 ->
  io_safe (crash_ok w) flushed (flush cfg elapsed w) dk.
Proof.
  intros [Hwf Hp] Hph Hi. pose proof Hp as Hp'. unfold phase_inv in Hp'. rewrite Hph in Hp'.
  destruct Hp' as (Hready & Hbytes & Hfail & Hord). unfold flush.
  destruct (length (w_pendingAcks w) =? 0)%nat; [by apply io_safe_ret|].
  pose proof (wf_pending_writable w Hwf) as Hw.
  assert (forall dk', recoverable cfg dk' (old ++ recs (w_made w) (acked (w_signals w)))
    ((old ++ recs (w_made w) (acked (w_signals w))) ++ recs (w_made w) (w_pendingAcks w)) -> crash_ok w dk') as Hcr.
  { intros dk' Hr. exists (recs (w_made w) (acked (w_signals w)) ++ recs (w_made w) (w_pendingAcks w)).
    split; [by rewrite app_assoc|]. rewrite Hord. apply prefix_app. by eexists. }
  eapply io_safe_bind.
  { rewrite Hbytes. apply io_safe_try. eapply io_safe_mono; [|exact Hcr|intros st dk' Hx; exact Hx].
    by apply writeBatch_safe. }
  intros [err|st] dk' Hr; apply io_safe_ret; unfold flushed; cbn [fst snd].
  - destruct Hr as (all & Hr & Hall). exact (inv_failed w dk' err all Hwf ltac:(by rewrite Hph) Hr Hall).
  - split; [|done]. pose proof Hwf as [H1 H2 H3 H4 H5 Hs H6]. unfold owed in H6. rewrite Hph in H6.
    set (w' := set_pending _ _ _ _).
    assert (answered (w_signals w') = answered (w_signals w) ++ w_pendingAcks w) as Ea
      by (unfold answered; simpl; rewrite omap_app; fold (answered (map (fun ack => Acked ack None) (w_pendingAcks w)));
          by rewrite answered_acks).
    assert (acked (w_signals w') = acked (w_signals w) ++ w_pendingAcks w) as Ek
      by (unfold acked; simpl; rewrite omap_app; fold (acked (map (fun ack => Acked ack None) (w_pendingAcks w)));
          by rewrite acked_nil).
    split.
    + split; try done; [rewrite Ea; apply Forall_app; split; [exact H5|exact (wf_pending_lt w Hwf)]|].
      rewrite Ea, <-!app_assoc. unfold owed. change (w_phase w') with (w_phase w). by rewrite Hph.
    + unfold phase_inv. change (w_phase w') with (w_phase w). rewrite Hph, Ek, recs_app, app_assoc.
      split_and!; [exact Hr|done|done|]. unfold ordered. rewrite Ek, recs_app, <-app_assoc. exact Hord.
Qed.

(** A record is encoded at the end of the batch, or refused. *)
Lemma append_cases grown dst r :
  submittable (wc_ShardID cfg) r ->
  (record_fits r /\ exists spare,
     appendEncodedRecord grown dst r = Ret (mkSlice (sl_bytes dst ++ frame_bytes r) spare, None)) \/
  (~ record_fits r /\ exists e, appendEncodedRecord grown dst r = Ret (dst, Some e)).
Proof.
  intros [Ht Hs He]. destruct (decide (Z.of_nat (string_len (cmd_Symbol (rec_Command r))) <= 65535)) as [H1|H1];
    [destruct (decide (record_size r <= 4294967295)) as [H2|H2]|].
  - left. split; [done|]. by apply appendEncodedRecord_ok.
  - right. split; [by intros [_ ?]|].
    unfold appendEncodedRecord, payloadSize. rewrite Z.gtb_ltb, (proj2 (Z.ltb_ge _ _)) by lia. cbv zeta.
    unfold record_size, payloadFixedSize, eventEncodedSize in *.
    rewrite Z.gtb_ltb, (proj2 (Z.ltb_lt _ _)) by int_lia. by eexists.
  - right. split; [by intros [? _]|].
    unfold appendEncodedRecord, payloadSize. rewrite Z.gtb_ltb, (proj2 (Z.ltb_lt _ _)) by lia. by eexists.
Qed.

Definition stepped (r : outcome Writer) (dk : disk) : Prop := exists w', r = Ret w' /\ inv w' dk.

Lemma stop_unless_inv r dk : flushed r dk -> inv (stop_unless r.1 r.2) dk.
Proof. destruct r as [[] w]; unfold flushed; cbn [fst snd stop_unless]; [by intros [? _]|done]. Qed.

Lemma inv_dequeue req q w dk :
  inv w dk -> w_requests w = req :: q -> match req with ReqAppend _ _ => False | _ => True end ->
  inv (set_requests q w) dk.
Proof.
  intros Hinv Eq Hreq. pose proof Hinv as [[H1 H2 H3 _ _ _ _] _]. rewrite Eq in H2. apply Forall_cons in H2 as [_ H2].
  apply (inv_queue w q (w_inflight w) (w_closed w)); [done|done| |done|done]. rewrite Eq. by destruct req.
Qed.

Lemma backlog_cons w rec ack q :
  w_requests w = ReqAppend rec ack :: q -> w_made w !! ack = Some rec ->
  backlog w = filter record_fits (rec :: recs (w_made w) (queued q)).
Proof.
  intros Eq Ha. unfold backlog. rewrite Eq. change (queued (ReqAppend rec ack :: q)) with ([ack] ++ queued q).
  rewrite recs_app. unfold recs at 1. cbn [omap list_omap]. by rewrite Ha.
Qed.

(** A record joins the batch. *)
Lemma inv_batched rec ack q spare timer w dk :
  inv w dk -> w_phase w = Running -> w_requests w = ReqAppend rec ack :: q -> record_fits rec ->
  inv (set_pending (mkSlice (sl_bytes (w_pendingBytes w) ++ frame_bytes rec) spare)
         (w_pendingAcks w ++ [ack]) timer (set_requests q w)) dk.
Proof.
  intros [Hwf Hp] Hph Eq Hfit. pose proof Hwf as [H1 H2 H3 H4 H5 Hs H6]. rewrite Eq in H2.
  apply Forall_cons in H2 as [Hrec H2]. split.
  - split; try done.
    + apply Forall_app. split; [done|]. constructor; [by exists rec|constructor].
    + unfold owed in *. cbn [set_pending set_requests w_phase w_signals w_requests w_inflight w_pendingAcks].
      rewrite Hph, Eq in H6. rewrite Hph. by rewrite <-app_assoc.
  - unfold phase_inv in *. cbn [set_pending set_requests w_phase w_signals w_state w_made w_pendingBytes w_pendingAcks w_failedErr sl_bytes].
    rewrite Hph in *. destruct Hp as (Hr & Hb & Hf & Ho). split_and!; [done| |done|].
    + rewrite (recs_snoc _ _ _ rec) by done. rewrite frames_app, Hb. f_equal. unfold frames. cbn [map concat].
      by rewrite app_nil_r.
    + unfold ordered in *. rewrite (backlog_cons w rec ack q) in Ho by done.
      rewrite filter_cons_True in Ho by done. unfold logged, backlog in *.
      cbn [set_pending set_requests w_made w_sent w_requests w_signals w_pendingAcks].
      rewrite Ho, (recs_snoc _ (w_pendingAcks w) ack rec) by done. by rewrite <-!app_assoc.
Qed.

(** A record is refused. *)
Lemma inv_refused rec ack q e timer w dk :
  inv w dk -> w_phase w = Running -> w_requests w = ReqAppend rec ack :: q -> ~ record_fits rec ->
  inv (send [Acked ack (Some e)] (set_pending (w_pendingBytes w) (w_pendingAcks w) timer (set_requests q w))) dk.
Proof.
  intros [Hwf Hp] Hph Eq Hfit. pose proof Hwf as [H1 H2 H3 H4 H5 Hs H6]. rewrite Eq in H2.
  apply Forall_cons in H2 as [Hrec H2].
  assert (answered (w_signals w ++ [Acked ack (Some e)]) = answered (w_signals w) ++ [ack]) as Ea
    by (unfold answered; by rewrite omap_app).
  assert (acked (w_signals w ++ [Acked ack (Some e)]) = acked (w_signals w)) as Ek
    by (unfold acked; rewrite omap_app; apply app_nil_r).
  split.
  - split; try done; cbn [send set_pending set_requests w_signals w_made w_requests w_inflight]; rewrite Ea.
    + apply Forall_app. split; [done|]. constructor; [|constructor]. by apply lookup_lt_Some in Hrec.
    + unfold owed in *. cbn [send set_pending set_requests w_phase w_pendingAcks].
      rewrite Hph, Eq in H6. rewrite Hph. eapply NoDup_sub; [|exact H6].
      change (queued (ReqAppend rec ack :: q)) with (ack :: queued q). rewrite <-!app_assoc. solve_submseteq.
  - unfold phase_inv in *. cbn [send set_pending set_requests w_phase w_signals w_state w_made w_pendingBytes w_pendingAcks w_failedErr].
    rewrite Hph, Ek in *. destruct Hp as (Hr & Hb & Hf & Ho). split_and!; [done..|].
    unfold ordered in *. rewrite (backlog_cons w rec ack q) in Ho by done.
    rewrite filter_cons_False in Ho by done. unfold logged, backlog in *.
    cbn [send set_pending set_requests w_made w_sent w_requests w_signals w_pendingAcks]. by rewrite Ek.
Qed.

Lemma handle_safe grown {elapsed} req q w dk :
  inv w dk -> w_phase w = Running -> w_requests w = req :: q -> st_segmentIndex (w_state w) < 1000000 ->
  io_safe (crash_ok w) stepped (handle cfg grown elapsed req (set_requests q w)) dk.
Proof.
  intros Hinv Hph Eq Hi. pose proof (inv_dequeue _ _ _ _ Hinv Eq) as Hinv1. destruct req as [rec ack|d|d]; cbn [handle].
  - assert (submittable (wc_ShardID cfg) rec) as Hsub.
    { destruct Hinv as [[H1 H2 _ _ _ _ _] _]. rewrite Eq in H2. apply Forall_cons in H2 as [Hrec _].
      rewrite Forall_forall in H1. apply H1. by eapply list_elem_of_lookup_2. }
    cbn [set_requests w_pendingBytes w_pendingAcks w_timerArmed].
    destruct (append_cases grown (w_pendingBytes w) rec Hsub) as [[Hfit [spare ->]]|[Hfit [e ->]]].
    + pose proof (inv_batched rec ack q spare true w dk Hinv Hph Eq Hfit) as Hinv2.
      destruct (_ || _); [|apply io_safe_ret; by eexists].
      eapply io_safe_bind; [by apply (flush_safe _ dk Hinv2)|]. intros r dk' Hr. apply io_safe_ret.
      eexists. split; [done|]. by apply stop_unless_inv.
    + apply io_safe_ret. eexists. split; [done|]. by eapply inv_refused.
  - eapply io_safe_bind; [by apply (flush_safe _ dk (Hinv1 I))|]. intros [[] w'] dk' Hr; apply io_safe_ret; eexists;
      (split; [done|]); unfold flushed in Hr; cbn [fst snd stop_unless] in *.
    + apply inv_closed, Hr.
    + by apply (inv_closed (set_phase Stopped w')).
  - eapply io_safe_bind; [by apply (flush_safe _ dk (Hinv1 I))|]. intros [[] w'] dk' Hr; apply io_safe_ret; eexists;
      (split; [done|]); unfold flushed in Hr; cbn [fst snd] in *.
    + apply (inv_closed (set_phase Stopped w')). apply inv_stop; apply Hr.
    + by apply (inv_closed (set_phase Stopped w')).
Qed.

Lemma run_start_safe w dk :
  inv w dk -> w_phase w = Starting ->
  io_safe (crash_ok w) inv (run_start cfg w) dk.
Proof.
  intros [Hwf Hp] Hph. unfold phase_inv in Hp. rewrite Hph in Hp.
  destruct Hp as (Hst & Hb & Hpa & Hack & Hfail & Hord & ->). destruct Hold as (segs & idx & Hab & Eold & Hidx).
  assert (forall dk', torn h dk' segs idx [] [] ->
    recoverable cfg dk' (old ++ recs (w_made w) (acked (w_signals w))) (old ++ [])) as Hrec.
  { intros dk' Ht. rewrite Hack, Eold. cbn. rewrite !app_nil_r. rewrite <-(app_nil_r (recs_of segs)) at 2.
    apply (open_recoverable cfg dk' segs idx []); [done|constructor]. }
  unfold run_start. eapply io_safe_bind.
  { apply io_safe_try. eapply io_safe_mono; [apply (openNextSegment_safe cfg Hh _ segs idx); [done|]| |intros st dk' Hx; exact Hx].
    - right. rewrite Hst. split; [done|]. by eapply settled_next.
    - intros dk' Ht. exists []. split; [by apply Hrec|apply prefix_nil]. }
  intros [err|st] dk' Hr; apply io_safe_ret.
  - destruct Hr as (all & Hr & Hall). pose proof (inv_failed w dk' err all Hwf ltac:(by rewrite Hph) Hr Hall) as Hi.
    rewrite Hpa in Hi. unfold rejectRemaining, send in *. cbn [map] in Hi.
    cbn [set_phase setTerminalError set_requests w_phase w_state w_pendingBytes w_pendingAcks w_timerArmed w_requests w_closed w_failedErr w_signals w_made w_sent w_inflight] in *.
    by rewrite app_nil_r in Hi.
  - destruct Hr as (f & -> & Hc). pose proof Hwf as [H1 H2 H3 H4 H5 Hs H6]. split.
    + split; try done. unfold owed in *. cbn [set_phase set_state w_phase w_pendingAcks]. by rewrite Hph in H6.
    + unfold phase_inv. cbn [set_phase set_state w_phase w_state w_signals w_made w_pendingBytes w_pendingAcks w_failedErr].
      split_and!; [|by rewrite Hpa, Hb|done|exact Hord]. rewrite Hack. exists segs, idx, f, []. cbn. by rewrite Eold, !app_nil_r.
Qed.

Lemma run_step_safe w dk fs r :
  inv w dk -> st_segmentIndex (w_state w) < 1000000 -> run_step cfg w dk fs r ->
  match r with
  | Done (inr o) dk' _ => stepped o dk'
  | Done (inl _) dk' _ | Crashed dk' => crash_ok w dk'
  end.
Proof.
  intros Hinv Hi Hs. destruct Hs as [w dk fs Hph|ev w dk fs Hph Hready].
  - assert (io_safe (crash_ok w) stepped (let@ w' := run_start cfg w in io_ret (Ret w')) dk) as Hsafe.
    { eapply io_safe_bind; [by apply run_start_safe|]. intros w' dk' Hi'. apply io_safe_ret. by eexists. }
    exact (Hsafe fs).
  - assert (io_safe (crash_ok w) stepped (run_iteration cfg ev w) dk) as Hsafe; [|exact (Hsafe fs)].
    destruct ev as [grown|]; cbn [run_iteration].
    + destruct (w_requests w) as [|req q] eqn:Eq; [apply io_safe_ret; by eexists|]. by apply handle_safe.
    + eapply io_safe_bind; [by apply flush_safe|]. intros r dk' Hr. apply io_safe_ret. eexists. split; [done|].
      by apply stop_unless_inv.
Qed.

Lemma reached_inv w dk : reached cfg dk0 w dk -> inv w dk.
Proof.
  induction 1 as [mkdir w Hnew|w w' dk Hr IH Hs|w dk fs fs' w' dk' Hr IH Hi Hs].
  - unfold NewWriter in Hnew. destruct (validateWriterConfig cfg); [done|]. destruct mkdir; [done|]. injection Hnew as <-.
    split; [split; constructor|]. done.
  - by eapply inv_client.
  - pose proof (run_step_safe _ _ _ _ IH Hi Hs) as (w'' & [= <-] & Hinv). done.
Qed.

(** ** Crashes *)

Lemma inv_crash_ok w dk : inv w dk -> crash_ok w dk.
Proof.
  intros [Hwf Hp]. unfold phase_inv in Hp. destruct (w_phase w).
  - destruct Hp as (_ & _ & _ & Hack & _ & Hord & ->). destruct Hold as (segs & idx & Hab & Eold & Hidx).
    exists []. split; [|apply prefix_nil]. rewrite Hack, Eold. cbn. rewrite !app_nil_r. rewrite <-(app_nil_r (recs_of segs)) at 2.
    apply (open_recoverable cfg dk0 segs idx []); [by apply (absent_torn cfg)|constructor].
  - apply crash_ok_ready; apply Hp.
  - apply Hp.
Qed.

Lemma crashes_ok w dk : crashes cfg dk0 w dk -> crash_ok w dk /\ wf w.
Proof.
  intros [w' dk' Hr|w' dk' fs dk'' Hr Hi Hs].
  - pose proof (reached_inv _ _ Hr) as Hinv. split; [by apply inv_crash_ok|apply Hinv].
  - pose proof (reached_inv _ _ Hr) as Hinv. split; [|apply Hinv].
    exact (run_step_safe _ _ _ _ Hinv Hi Hs).
Qed.
(** Records are acknowledged in the order in which they were sent. *)
Lemma acked_in_order w dk : reached cfg dk0 w dk -> recs (w_made w) (acked (w_signals w)) `prefix_of` logged w.
Proof.
  intros Hr. destruct (inv_crash_ok _ _ (reached_inv _ _ Hr)) as (all & (segs & idx & s & a & [_ [more ->] _ _] & E1 & E2) & Hall).
  etrans; [|exact Hall]. rewrite app_assoc, <-E1, <-app_assoc in E2. apply app_inv_head in E2 as ->. by eexists.
Qed.

(** A writer that stopped without an error leaves complete segments with exactly the
    acknowledged records. *)
Lemma stopped_settled w dk :
  reached cfg dk0 w dk -> w_phase w = Stopped -> w_failedErr w = None -> st_segmentIndex (w_state w) < 1000000 ->
  settled_log dk (old ++ recs (w_made w) (acked (w_signals w))).
Proof.
  intros Hr Hph Hf Hi. destruct (reached_inv _ _ Hr) as [_ Hp]. unfold phase_inv in Hp. rewrite Hph in Hp.
  destruct Hp as [_ Hready]. destruct (Hready Hf) as (segs & idx & f & rs & Hc & Hidx & _ & ->).
  exists (segs ++ [(idx, rs)]), (idx + 1). split_and!.
  - apply (clean_absent cfg dk segs idx f rs Hc). lia.
  - symmetry. apply recs_of_snoc.
  - by rewrite last_snoc.
Qed.
End Inv.

(** What is read after a crash. *)
Lemma crash_reads_back cfg dk0 old w dk d :
  header_ok (mkSegmentHeader (wc_EngineID cfg) (wc_ShardID cfg) (wc_ShardCount cfg)) ->
  settled_log cfg dk0 old -> crashes cfg dk0 w dk -> survives dk d ->
  exists rs,
    ReadShardRecordsForEngine d (wc_EngineID cfg) (wc_ShardID cfg) (wc_ShardCount cfg) = Ret (inr (old ++ rs)) /\
    recs (w_made w) (acked (w_signals w)) `prefix_of` rs /\
    rs `prefix_of` filter record_fits (recs (w_made w) (w_sent w)) /\
    NoDup (answered (w_signals w)).
Proof.
  intros Hh Hold Hc Hd. destruct (crashes_ok cfg Hh dk0 old Hold w dk Hc) as [(all & Hrec & Hall) Hwf].
  destruct (recoverable_read cfg Hh _ _ _ _ Hrec Hd) as (rs & Hread & [more Hpre] & Hpost).
  subst rs. rewrite <-app_assoc in Hread, Hpost. apply prefix_app_inv in Hpost.
  exists (recs (w_made w) (acked (w_signals w)) ++ more). split_and!; [exact Hread|by eexists|by etrans|].
  pose proof (wf_unique _ _ Hwf) as Hu. by apply NoDup_app in Hu as [? _].
Qed.

(** ** Properties *)

(** C7. An acknowledged record survives every crash.  Let a writer start on complete
    segments that hold the records [old], run in any interleaving with its clients
    and with any failures of the file operations, and let the machine crash at any
    moment, also inside a file operation, keeping what was synced and any beginning of
    what was written after that.  Then the
    shard can be read: it gives [old], followed by all records whose append was
    acknowledged without error, in the order of the acknowledgements, and what is
    read continues exactly in the order in which the (encodable) records were sent
    to the writer.  No append is answered twice. *)
Theorem acknowledged_records_survive cfg dk0 old w dk d :
  header_ok (mkSegmentHeader (wc_EngineID cfg) (wc_ShardID cfg) (wc_ShardCount cfg)) ->
  settled_log cfg dk0 old -> crashes cfg dk0 w dk -> survives dk d ->
  exists rs,
    ReadShardRecordsForEngine d (wc_EngineID cfg) (wc_ShardID cfg) (wc_ShardCount cfg) = Ret (inr (old ++ rs)) /\
    recs (w_made w) (acked (w_signals w)) `prefix_of` rs /\
    rs `prefix_of` filter record_fits (recs (w_made w) (w_sent w)) /\
    NoDup (answered (w_signals w)).
Proof. apply crash_reads_back. Qed.

(** One acknowledged record, and a crash while the batch of the second is written. *)
Definition demo_wcfg : WriterConfig := mkWriterConfig "wal" "engine-1" 3 4 8 1 65536 100 100000 true.
Definition demo_new : Writer :=
  mkWriter Starting (mkWriterState 0 None 0) (mkSlice [] []) [] false [] false None [] [] [] [] [].
Definition no_disk : disk := mkDisk [] ∅ ∅.

(** The state after a step of the goroutine that returns. *)
Definition after (r : io_result (outcome Writer)) : Writer * disk :=
  match r with
  | Done (inr (Ret w)) dk _ => (w, dk)
  | Done _ dk _ | Crashed dk => (demo_new, dk)
  end.
Definition start_at (w : Writer) (dk : disk) (fs : list fault) : io_result (outcome Writer) :=
  (let@ w' := run_start demo_wcfg w in io_ret (Ret w')) dk fs.

Definition demo_submit (r : Record_) (w : Writer) : Writer := AppendAsync_send 0 (AppendAsync_check r w).2.
Definition demo_w1 : Writer := demo_submit (sample_record 1) demo_new.
Definition demo_s2 : Writer * disk := after (start_at demo_w1 no_disk []).
Definition demo_s3 : Writer * disk := after (run_iteration demo_wcfg (OnRequest [] 0) demo_s2.1 demo_s2.2 []).
Definition demo_w4 : Writer := demo_submit (sample_record 2) demo_s3.1.
Definition demo_crash : disk := (after (run_iteration demo_wcfg (OnRequest [] 0) demo_w4 demo_s3.2 [Crashes 50])).2.

Lemma demo_header_ok : header_ok (mkSegmentHeader "engine-1" 3 4).
Proof. exact sample_header_ok. Qed.

Lemma no_disk_settled : settled_log demo_wcfg no_disk [].
Proof.
  exists [], 0. split_and!; [|done|done]. split; [|done|done]. split; [constructor|done|done|..].
  - repeat constructor.
  - repeat constructor; lia.
  - constructor.
Qed.

Lemma sample_submittable seq : is_u64 seq -> submittable 3 (sample_record seq).
Proof. intros H. split; [by apply sample_typed|done|vm_compute; done]. Qed.

Lemma submit_reached dk0 w dk r :
  reached demo_wcfg dk0 w dk -> submittable 3 r -> w_inflight w = [] -> w_failedErr w = None -> w_closed w = false ->
  queue_has_room demo_wcfg w = true -> reached demo_wcfg dk0 (demo_submit r w) dk.
Proof.
  intros Hr Hs Hi Hf Hc Hq. eapply re_client; [eapply re_client; [exact Hr|by apply cs_check]|].
  apply cs_send; unfold AppendAsync_check; rewrite Hf, Hc; cbn [snd set_calls w_inflight].
  - rewrite Hi. by eexists.
  - exact Hq.
Qed.

Lemma demo_reached : reached demo_wcfg no_disk demo_w4 demo_s3.2.
Proof.
  apply submit_reached; [|by apply sample_submittable|vm_compute; reflexivity..].
  eapply (re_run _ _ demo_s2.1 demo_s2.2 [] []); [|vm_compute; reflexivity|].
  - eapply (re_run _ _ demo_w1 no_disk [] []); [|vm_compute; reflexivity|].
    + apply submit_reached; [by apply (re_new _ _ None)|by apply sample_submittable|vm_compute; reflexivity..].
    + replace (Done _ _ _) with (start_at demo_w1 no_disk []) by (vm_compute; reflexivity). by apply rs_start.
  - replace (Done _ _ _) with (run_iteration demo_wcfg (OnRequest [] 0) demo_s2.1 demo_s2.2 []) by (vm_compute; reflexivity).
    apply rs_iteration; vm_compute; reflexivity.
Qed.

Lemma demo_crashes : crashes demo_wcfg no_disk demo_w4 demo_crash.
Proof.
  eapply (cr_inside _ _ demo_w4 demo_s3.2 [Crashes 50]); [apply demo_reached|vm_compute; reflexivity|].
  replace (Crashed demo_crash) with (run_iteration demo_wcfg (OnRequest [] 0) demo_w4 demo_s3.2 [Crashes 50])
    by (vm_compute; reflexivity). apply rs_iteration; vm_compute; reflexivity.
Qed.

(** A disk that lost nothing but its power. *)
Lemma view_survives dk :
  map_Forall (fun _ i => exists ino, dk_inodes dk !! i = Some ino /\ (ino_synced ino <= length (ino_data ino))%nat)
    (dk_names dk) -> survives dk (view dk).
Proof.
  intros Hall n. exists (dk_names dk !! n). split; [by left|]. unfold view. rewrite lookup_fmap.
  destruct (dk_names dk !! n) as [i|] eqn:E; [|done]. destruct (Hall n i E) as (ino & Hi & Hs).
  exists ino, (length (ino_data ino)). cbn [fmap option_fmap option_map]. rewrite Hi. split_and!; [done|done|].
  by rewrite take_ge.
Qed.

Lemma demo_crash_survives : survives demo_crash (view demo_crash).
Proof.
  apply view_survives. assert (dk_names demo_crash = {[ segment_name 3 0 := 0%nat ]}) as -> by (vm_compute; reflexivity).
  intros n i [_ <-]%lookup_singleton_Some. eexists. split; [vm_compute; reflexivity|]. apply Nat.leb_le. vm_compute. reflexivity.
Qed.

Lemma acknowledged_records_survive_witness :
  exists rs, ReadShardRecordsForEngine (view demo_crash) "engine-1" 3 4 = Ret (inr ([] ++ rs)) /\
    recs (w_made demo_w4) (acked (w_signals demo_w4)) `prefix_of` rs /\
    rs `prefix_of` filter record_fits (recs (w_made demo_w4) (w_sent demo_w4)) /\
    NoDup (answered (w_signals demo_w4)).
Proof.
  apply (acknowledged_records_survive demo_wcfg no_disk [] demo_w4 demo_crash (view demo_crash)).
  - exact demo_header_ok.
  - exact no_disk_settled.
  - exact demo_crashes.
  - exact demo_crash_survives.
Defined.

(** It is the first record that is acknowledged there. *)
Lemma demo_acked : recs (w_made demo_w4) (acked (w_signals demo_w4)) = [sample_record 1].
Proof. vm_compute. reflexivity. Qed.

(** *** An answer that never comes *)

(** Once the goroutine has stopped, only clients run. *)
Inductive client_steps (cfg : WriterConfig) : Writer -> Writer -> Prop :=
| cls_refl w : client_steps cfg w w
| cls_step w w' w'' : client_step cfg w w' -> client_steps cfg w' w'' -> client_steps cfg w w''.

Lemma client_signals cfg w w' : client_step cfg w w' -> w_signals w' = w_signals w /\ w_phase w' = w_phase w.
Proof.
  intros Hs. destruct Hs as [rec w Hrec|i w Hi _|i w|d w _|d w _ _|w _|w _ _]; try done.
  - unfold AppendAsync_check. by repeat case_match.
  - unfold AppendAsync_send. by repeat case_match.
  - unfold Shutdown_send. by case_match.
  - unfold Shutdown_cancel. by case_match.
  - unfold Shutdown_late. by case_match.
Qed.

Lemma stopped_forever cfg w w' :
  client_steps cfg w w' -> w_phase w = Stopped ->
  w_signals w' = w_signals w /\ forall dk fs r, ~ run_step cfg w' dk fs r.
Proof.
  induction 1 as [w|w w1 w2 Hs _ IH]; intros Hph.
  - split; [done|]. intros dk fs r Hr. destruct Hr; congruence.
  - destruct (client_signals _ _ _ Hs) as [E1 E2]. destruct IH as [IH1 IH2]; [congruence|].
    split; [congruence|done].
Qed.

(** The goroutine ends because it cannot open its first segment. *)
Definition open_fails (cfg : WriterConfig) (w : Writer) (dk : disk) (fs : list fault) (err : error) (dk' : disk) (fs' : list fault) : Prop :=
  w_phase w = Starting /\ openNextSegment cfg (w_state w) dk fs = Done (inl err) dk' fs'.

Lemma open_fails_step cfg w dk fs err dk' fs' :
  open_fails cfg w dk fs err dk' fs' ->
  run_step cfg w dk fs (Done (inr (Ret (set_phase Stopped (rejectRemaining err (setTerminalError err w))))) dk' fs').
Proof.
  intros [Hph E]. replace (Done _ _ _) with ((let@ w' := run_start cfg w in io_ret (Ret w')) dk fs); [by apply rs_start|].
  unfold run_start, io_bind, io_try. by rewrite E.
Qed.

(** What the stopped goroutine has answered are its earlier answers and the queue. *)
Lemma answered_rejected err reqs : answered (map (reject err) reqs) = queued reqs.
Proof. unfold answered, queued. induction reqs as [|[rec ack|d|d] reqs IH]; cbn; [done|by f_equal|done|done]. Qed.

Lemma reached_valid cfg dk0 w dk : reached cfg dk0 w dk -> 0 < wc_QueueSize cfg.
Proof.
  induction 1 as [mkdir w Hnew| |]; [|done|done]. unfold NewWriter in Hnew.
  destruct (validateWriterConfig cfg) eqn:E; [done|]. unfold validateWriterConfig in E.
  destruct (wc_QueueSize cfg <=? 0) eqn:Eq; [repeat case_match; done|]. lia.
Qed.

(** C38. An append can wait forever.  Let the goroutine fail to open its first segment while
    an [AppendAsync] is between its checks and its [select].  The goroutine rejects what is
    queued and ends.  Then the queue has room, so the [select] can take its send (it can as
    well take [w.done] and return an error); if it does, [AppendAsync] has returned its
    channel without an error, its request stays in the queue, and in every continuation
    the goroutine takes no step and nothing is ever sent on the channel. *)
Theorem append_ack_can_be_lost cfg dk0 old w dk fs err dk' fs' i rec ack :
  header_ok (mkSegmentHeader (wc_EngineID cfg) (wc_ShardID cfg) (wc_ShardCount cfg)) ->
  settled_log cfg dk0 old -> reached cfg dk0 w dk -> open_fails cfg w dk fs err dk' fs' ->
  w_inflight w !! i = Some (rec, ack) ->
  exists w1, run_step cfg w dk fs (Done (inr (Ret w1)) dk' fs') /\ w_phase w1 = Stopped /\
    client_step cfg w1 (AppendAsync_send i w1) /\ client_step cfg w1 (AppendAsync_return i w1) /\
    ReqAppend rec ack ∈ w_requests (AppendAsync_send i w1) /\
    forall w2, client_steps cfg (AppendAsync_send i w1) w2 ->
      (forall dk fs r, ~ run_step cfg w2 dk fs r) /\ ack ∉ answered (w_signals w2).
Proof.
  intros Hh Hold Hr Hopen Hi. exists (set_phase Stopped (rejectRemaining err (setTerminalError err w))).
  set (w1 := set_phase _ _). assert (w_inflight w1 = w_inflight w) as Ei by done.
  split_and!; [by apply open_fails_step|done| |apply cs_return| |].
  - apply cs_send; [rewrite Ei, Hi; by eexists|]. apply Z.ltb_lt. cbn. by eapply reached_valid.
  - unfold AppendAsync_send. rewrite Ei, Hi. cbn. by left.
  - intros w2 Hw2. destruct (stopped_forever _ _ _ Hw2) as [-> Hstop].
    { unfold AppendAsync_send. by rewrite Ei, Hi. }
    split; [done|]. unfold AppendAsync_send. rewrite Ei, Hi. cbn. unfold answered. rewrite omap_app. fold (answered (w_signals w)).
    fold (answered (map (reject err) (w_requests w))). rewrite answered_rejected.
    destruct (reached_inv cfg Hh dk0 old Hold w dk Hr) as [[_ _ _ _ _ _ Hu] _].
    assert (ack ∈ map snd (w_inflight w)) as Hin by (apply list_elem_of_fmap; exists (rec, ack); split; [done|by eapply list_elem_of_lookup_2]).
    apply NoDup_app in Hu as (_ & Ha & (_ & _ & (_ & Hq & _)%NoDup_app)%NoDup_app).
    intros [Hx|Hx]%elem_of_app; [|by apply (Hq ack)]. apply (Ha ack Hx). rewrite !elem_of_app. auto.
Qed.

(** An append is under way when the open fails. *)
Definition lost_w : Writer := (AppendAsync_check (sample_record 1) demo_new).2.

Lemma append_ack_can_be_lost_witness :
  exists w1 dk', run_step demo_wcfg lost_w no_disk [Fails 0] (Done (inr (Ret w1)) dk' []) /\ w_phase w1 = Stopped /\
    client_step demo_wcfg w1 (AppendAsync_send 0 w1) /\ client_step demo_wcfg w1 (AppendAsync_return 0 w1) /\
    ReqAppend (sample_record 1) 0 ∈ w_requests (AppendAsync_send 0 w1) /\
    forall w2, client_steps demo_wcfg (AppendAsync_send 0 w1) w2 ->
      (forall dk fs r, ~ run_step demo_wcfg w2 dk fs r) /\ 0%nat ∉ answered (w_signals w2).
Proof.
  assert (reached demo_wcfg no_disk lost_w no_disk) as Hr.
  { eapply re_client; [by apply (re_new _ _ None)|]. apply cs_check. by apply sample_submittable. }
  assert (exists err dk', open_fails demo_wcfg lost_w no_disk [Fails 0] err dk' []) as (err & dk' & Ho).
  { eexists _, _. split; vm_compute; reflexivity. }
  destruct (append_ack_can_be_lost demo_wcfg no_disk [] lost_w no_disk [Fails 0] err dk' [] 0 (sample_record 1) 0
    demo_header_ok no_disk_settled Hr Ho eq_refl) as (w1 & H). by exists w1, dk'.
Defined.
