(* ===== verification/WriterLive.v ===== *)
(** * WriterLive: the log writer answers

    Left alone, the writer's goroutine takes a bounded number of steps, and then every
    append that was queued has its answer; without a crash of the machine each of these
    steps is possible, whatever the file operations return. *)

From S2P Require Import Prelude Model Bytes Codec CodecFacts Fs Names Disk Reader.
From S2P Require Import Writer WriterFacts WriterSafe WriterProps.

(** ** Operations end when the machine does not crash *)

Definition survivable (f : fault) : Prop := match f with Crashes _ => False | _ => True end.

Definition io_ends {A} (m : IO A) : Prop :=
  forall dk fs, Forall survivable fs -> exists r dk' fs', m dk fs = Done r dk' fs' /\ Forall survivable fs'.

Create HintDb ends.

Lemma ends_ret {A} (a : A) : io_ends (io_ret a).
Proof. intros dk fs Hf. by eexists _, _, _. Qed.
Lemma ends_err {A} (e : error) : io_ends (io_err (A := A) e).
Proof. intros dk fs Hf. by eexists _, _, _. Qed.
Lemma ends_bind {A B} (m : IO A) (k : A -> IO B) : io_ends m -> (forall a, io_ends (k a)) -> io_ends (io_bind m k).
Proof.
  intros Hm Hk dk fs Hf. unfold io_bind. destruct (Hm dk fs Hf) as ([e|a] & dk' & fs' & -> & Hf'); [by eexists _, _, _|].
  by apply Hk.
Qed.
Lemma ends_cleanup {A B} (m : IO A) (c : IO B) : io_ends m -> io_ends c -> io_ends (io_cleanup m c).
Proof.
  intros Hm Hc dk fs Hf. unfold io_cleanup. destruct (Hm dk fs Hf) as ([e|a] & dk' & fs' & -> & Hf'); [|by eexists _, _, _].
  destruct (Hc dk' fs' Hf') as (r & dk'' & fs'' & -> & Hf''). by eexists _, _, _.
Qed.
Lemma ends_op {A} name path (full : disk -> error + (A * disk)) part : io_ends (io_op name path full part).
Proof.
  intros dk fs Hf. unfold io_op. destruct fs as [|[|n|n] fs].
  - destruct (full dk) as [e|[a dk']]; by eexists _, _, _.
  - apply Forall_cons in Hf as [_ Hf]. destruct (full dk) as [e|[a dk']]; by eexists _, _, _.
  - apply Forall_cons in Hf as [_ Hf]. by eexists _, _, _.
  - by apply Forall_cons in Hf as [[] _].
Qed.
Lemma ends_lift {A} (r : error + A) : io_ends (Writer.lift r).
Proof. destruct r; [apply ends_err|apply ends_ret]. Qed.
Lemma ends_view : io_ends io_view.
Proof. intros dk fs Hf. by eexists _, _, _. Qed.
#[export] Hint Resolve ends_ret ends_err ends_bind ends_cleanup ends_op ends_lift ends_view : ends.

Lemma openNextSegment_ends cfg st : io_ends (openNextSegment cfg st).
Proof.
  unfold openNextSegment. repeat first [apply ends_bind; [|intros]|case_match|apply ends_cleanup];
    unfold OpenExcl, Write, Sync, Close, syncDirectory, SyncDir, OpenDir; auto 10 with ends.
Qed.

Lemma writeBatch_ends cfg batch st : io_ends (writeBatch cfg batch st).
Proof.
  unfold writeBatch. pose proof (openNextSegment_ends cfg st).
  repeat first [assumption|apply ends_bind; [|intros]|case_match]; unfold Write, Sync; auto 10 with ends.
Qed.

(** Without an error of its own. *)
Definition io_returns {A} (m : IO A) : Prop :=
  forall dk fs, Forall survivable fs -> exists a dk' fs', m dk fs = Done (inr a) dk' fs' /\ Forall survivable fs'.

Lemma returns_ret {A} (a : A) : io_returns (io_ret a).
Proof. intros dk fs Hf. by eexists _, _, _. Qed.
Lemma returns_bind {A B} (m : IO A) (k : A -> IO B) : io_returns m -> (forall a, io_returns (k a)) -> io_returns (io_bind m k).
Proof.
  intros Hm Hk dk fs Hf. unfold io_bind. destruct (Hm dk fs Hf) as (a & dk' & fs' & -> & Hf'). by apply Hk.
Qed.
Lemma returns_try {A} (m : IO A) : io_ends m -> io_returns (io_try m).
Proof. intros Hm dk fs Hf. unfold io_try. destruct (Hm dk fs Hf) as (r & dk' & fs' & -> & Hf'). by eexists _, _, _. Qed.
#[export] Hint Resolve returns_ret returns_bind returns_try : ends.

Lemma flush_returns cfg elapsed w : io_returns (flush cfg elapsed w).
Proof.
  unfold flush. destruct (_ =? 0)%nat; [auto with ends|].
  apply returns_bind; [apply returns_try, writeBatch_ends|]. intros [err|st]; auto with ends.
Qed.

Lemma run_iteration_returns cfg ev w : io_returns (run_iteration cfg ev w).
Proof.
  assert (forall elapsed w {B} (k : bool * Writer -> B), io_returns (let@ r := flush cfg elapsed w in io_ret (k r))) as Hk.
  { intros el w1 B k. apply returns_bind; [apply flush_returns|]. auto with ends. }
  destruct ev; cbn [run_iteration]; [|apply (Hk elapsed w)].
  destruct (w_requests w) as [|[rec ack|d|d] q]; [auto with ends|..]; cbn [handle]; [|apply Hk..].
  destruct (appendEncodedRecord _ _ _) as [[b [err|]]| |]; [auto with ends| |auto with ends..].
  destruct (_ || _); [apply Hk|auto with ends].
Qed.

(** ** What a flush does to the channels *)

Definition is_stop (r : writerRequest) : bool := match r with ReqShutdown _ => true | _ => false end.

Record flush_effect (w : Writer) (ok : bool) (w' : Writer) : Prop := {
  fe_phase : w_phase w' = w_phase w;
  fe_sent : w_sent w' = w_sent w;
  fe_closed : w_closed w' = w_closed w;
  fe_inflight : w_inflight w' = w_inflight w;
  fe_answered : answered (w_signals w') =
    answered (w_signals w) ++ w_pendingAcks w ++ (if ok then [] else queued (w_requests w));
  fe_requests : w_requests w' = if ok then w_requests w else [];
  fe_pending : ok = true -> w_pendingAcks w' = [] /\
    w_timerArmed w' = (if (length (w_pendingAcks w) =? 0)%nat then w_timerArmed w else false)
}.

Lemma answered_app s1 s2 : answered (s1 ++ s2) = answered s1 ++ answered s2.
Proof. apply omap_app. Qed.

Lemma flush_effects cfg elapsed w dk : io_safe (fun _ => True) (fun r _ => flush_effect w r.1 r.2) (flush cfg elapsed w) dk.
Proof.
  unfold flush. destruct (length (w_pendingAcks w) =? 0)%nat eqn:E.
  { apply io_safe_ret. apply Nat.eqb_eq in E. apply nil_length_inv in E. split; cbn [fst snd]; rewrite ?E; cbn; rewrite ?app_nil_r; done. }
  eapply io_safe_bind; [apply io_safe_any|]. intros [err|st] dk' _; apply io_safe_ret; cbn [fst snd].
  - split; try done. unfold rejectRemaining. cbn. by rewrite !answered_app, answered_acks, answered_reject, <-app_assoc.
  - split; try done; cbn.
    + by rewrite answered_app, answered_acks, app_nil_r.
    + by rewrite E.
Qed.

(** ** The invariant while the goroutine has not stopped *)

Section Live.
Context (cfg : WriterConfig).

Record live (w : Writer) : Prop := {
  lv_requests : Forall (fun r => match r with ReqAppend rec _ => submittable (wc_ShardID cfg) rec | _ => True end) (w_requests w);
  lv_calls : Forall (fun c => submittable (wc_ShardID cfg) c.1) (w_inflight w);
  lv_covers : forall a, a ∈ w_sent w -> a ∈ answered (w_signals w) ++ w_pendingAcks w ++ queued (w_requests w);
  lv_start : w_phase w = Starting -> w_pendingAcks w = [];
  lv_timer : w_timerArmed w = negb (length (w_pendingAcks w) =? 0)%nat;
  lv_stop : exists q1 q2, w_requests w = q1 ++ q2 /\ Forall (fun r => is_stop r = false) q1 /\
    (q2 = [] \/ exists d q3, q2 = ReqShutdown d :: q3 /\ queued q3 = [] /\ Forall (fun r => is_stop r = false) q3 /\
       w_closed w = true /\ w_inflight w = [])
}.

(** Every append that was queued is answered. *)
Definition all_answered (w : Writer) : Prop := forall a, a ∈ w_sent w -> a ∈ answered (w_signals w).

(** Twice the queue, and the timer. *)
Definition backlog_steps (w : Writer) : nat := (2 * length (w_requests w) + (if w_timerArmed w then 1 else 0))%nat.

(** After a flush. *)
Lemma flush_live w ok w' :
  flush_effect w ok w' -> live w -> if ok then live w' else all_answered w'.
Proof.
  intros [E1 E2 E3 E4 E5 E6 E7] [L1 L2 L3 Lp L4 L5]. destruct ok.
  - destruct (E7 eq_refl) as [E8 E9]. split; rewrite ?E6, ?E4, ?E3, ?E8; try done.
    + intros a Ha. rewrite E2 in Ha. specialize (L3 a Ha). rewrite E5, app_nil_r. by rewrite <-app_assoc.
    + rewrite E9, L4. by destruct (length (w_pendingAcks w) =? 0)%nat.
  - intros a Ha. rewrite E2 in Ha. specialize (L3 a Ha). by rewrite E5.
Qed.

Lemma flush_steps w w' :
  flush_effect w true w' -> live w -> (backlog_steps w' <= backlog_steps w)%nat /\
    (w_timerArmed w = true -> (backlog_steps w' < backlog_steps w)%nat).
Proof.
  intros [_ _ _ _ _ E6 E7] [_ _ _ _ L4 _]. destruct (E7 eq_refl) as [_ E9]. unfold backlog_steps. rewrite E6, E9.
  destruct (length (w_pendingAcks w) =? 0)%nat; rewrite L4; cbn; split; try done; lia.
Qed.

(** Taking the first request. *)
Lemma dequeue_stop w req q :
  live w -> w_requests w = req :: q ->
  exists q1 q2, q = q1 ++ q2 /\ Forall (fun r => is_stop r = false) q1 /\
    (q2 = [] \/ exists d q3, q2 = ReqShutdown d :: q3 /\ queued q3 = [] /\ Forall (fun r => is_stop r = false) q3 /\
       w_closed w = true /\ w_inflight w = []).
Proof.
  intros [_ _ _ _ _ (q1 & q2 & E & H1 & H2)] Eq. rewrite Eq in E. destruct q1 as [|r q1]; cbn in E.
  - destruct H2 as [->|(d & q3 & -> & H3 & H4 & _)]; [done|]. injection E as -> ->. exists q3, []. rewrite app_nil_r. split_and!; [done|done|by left].
  - injection E as -> ->. apply Forall_cons in H1 as [_ H1]. by exists q1, q2.
Qed.

Lemma dequeue_live w req q :
  live w -> w_requests w = req :: q -> match req with ReqAppend _ _ => False | _ => True end -> live (set_requests q w).
Proof.
  intros Hl Eq Hreq. pose proof (dequeue_stop _ _ _ Hl Eq) as Hstop. destruct Hl as [L1 L2 L3 Lp L4 L5].
  rewrite Eq in L1. apply Forall_cons in L1 as [_ L1]. split; cbn; try done.
  intros a Ha. specialize (L3 a Ha). rewrite Eq in L3. by destruct req.
Qed.

Lemma queue_last w d q : live w -> w_requests w = ReqShutdown d :: q -> queued q = [].
Proof.
  intros [_ _ _ _ _ (q1 & q2 & E & H1 & H2)] Eq. rewrite Eq in E. destruct q1 as [|r q1]; cbn in E.
  - destruct H2 as [->|(d' & q3 & -> & H3 & _)]; [done|]. by injection E as -> ->.
  - injection E as <- _. by apply Forall_cons in H1 as [? _].
Qed.

(** One step: the backlog shrinks, or the goroutine stops with everything answered. *)
Definition moves_on (w : Writer) (n : nat) (o : outcome Writer) : Prop :=
  exists w', o = Ret w' /\ w_sent w' = w_sent w /\
    match w_phase w' with
    | Running => live w' /\ (backlog_steps w' < n)%nat
    | Stopped => all_answered w'
    | Starting => False
    end.

Lemma stop_unless_moves w ok w' n :
  flush_effect w ok w' -> live w -> w_phase w = Running -> (backlog_steps w < n)%nat \/ (w_timerArmed w = true /\ (backlog_steps w <= n)%nat) ->
  moves_on w n (Ret (stop_unless ok w')).
Proof.
  intros He Hl Hp Hn. pose proof (flush_live _ _ _ He Hl) as Hl'. eexists. split; [reflexivity|].
  destruct ok; cbn [stop_unless]; [|split; [apply He|done]]. split; [apply He|]. rewrite (fe_phase _ _ _ He), Hp. split; [done|].
  destruct (flush_steps _ _ He Hl) as [H1 H2]. destruct Hn as [Hn|[Ht Hn]]; [lia|]. specialize (H2 Ht). lia.
Qed.

Lemma handle_append_moves grown elapsed w rec ack q dk :
  live w -> w_phase w = Running -> w_requests w = ReqAppend rec ack :: q ->
  io_safe (fun _ => True) (fun o _ => moves_on w (backlog_steps w) o) (handle cfg grown elapsed (ReqAppend rec ack) (set_requests q w)) dk.
Proof.
  intros Hl Hp Eq. pose proof (dequeue_stop _ _ _ Hl Eq) as Hstop. pose proof Hl as [L1 L2 L3 Lp L4 _].
  rewrite Eq in L1, L3. apply Forall_cons in L1 as [Hsub L1].
  cbn [handle]. change (w_pendingBytes (set_requests q w)) with (w_pendingBytes w).
  destruct (append_cases cfg grown (w_pendingBytes w) rec Hsub) as [[_ [spare ->]]|[_ [e ->]]].
  - set (w1 := set_pending _ _ _ _).
    assert (live w1) as Hl1.
    { split; unfold w1; cbn; try done.
      - intros a Ha. specialize (L3 a Ha). cbn in L3. rewrite !elem_of_app, elem_of_cons in L3. rewrite !elem_of_app, list_elem_of_singleton. tauto.
      - by rewrite Hp.
      - rewrite length_app. cbn. by rewrite Nat.add_1_r. }
    assert (backlog_steps w1 < backlog_steps w)%nat as Hlt by (unfold backlog_steps, w1; rewrite Eq; cbn; destruct (w_timerArmed w); lia).
    destruct (_ || _).
    + eapply io_safe_bind; [apply flush_effects|]. intros [ok w2] dk' He. apply io_safe_ret. cbn [fst snd] in *.
      destruct (stop_unless_moves w1 ok w2 (backlog_steps w) He Hl1 Hp (or_introl Hlt)) as (w3 & E3 & Es & Hm). by exists w3.
    + apply io_safe_ret. exists w1. split; [done|]. split; [done|]. change (w_phase w1) with (w_phase w). by rewrite Hp.
  - apply io_safe_ret. eexists. split; [reflexivity|]. split; [done|]. cbn. rewrite Hp. split.
    + split; cbn; try done. intros a Ha. specialize (L3 a Ha). rewrite answered_app. cbn in *.
      rewrite !elem_of_app, elem_of_cons in L3. rewrite !elem_of_app, list_elem_of_singleton. tauto.
    + unfold backlog_steps. rewrite Eq. cbn. destruct (w_timerArmed w); lia.
Qed.

Lemma handle_flush_moves grown elapsed w d q dk :
  live w -> w_phase w = Running -> w_requests w = ReqFlush d :: q ->
  io_safe (fun _ => True) (fun o _ => moves_on w (backlog_steps w) o) (handle cfg grown elapsed (ReqFlush d) (set_requests q w)) dk.
Proof.
  intros Hl Hp Eq. pose proof (dequeue_live w _ q Hl Eq I) as Hl1. cbn [handle].
  assert (backlog_steps (set_requests q w) < backlog_steps w)%nat as Hlt by (unfold backlog_steps; rewrite Eq; cbn; destruct (w_timerArmed w); lia).
  eapply io_safe_bind; [apply flush_effects|]. intros [ok w2] dk' He. apply io_safe_ret. cbn [fst snd] in *.
  destruct (stop_unless_moves (set_requests q w) ok (send [Closed d] w2) (backlog_steps w)) as (w3 & E3 & Es & Hm).
  - destruct He as [E1 E2 E3 E4 E5 E6 E7]. split; try done. rewrite <-E5. cbn. rewrite answered_app. cbn. by rewrite app_nil_r.
  - done.
  - done.
  - by left.
  - by exists w3.
Qed.

Lemma handle_shutdown_moves grown elapsed w d q dk :
  live w -> w_phase w = Running -> w_requests w = ReqShutdown d :: q ->
  io_safe (fun _ => True) (fun o _ => moves_on w (backlog_steps w) o) (handle cfg grown elapsed (ReqShutdown d) (set_requests q w)) dk.
Proof.
  intros Hl Hp Eq. pose proof (dequeue_live w _ q Hl Eq I) as Hl1. pose proof (queue_last w d q Hl Eq) as Hq. cbn [handle].
  eapply io_safe_bind; [apply flush_effects|]. intros [ok w2] dk' He. apply io_safe_ret. cbn [fst snd] in *.
  eexists. split; [reflexivity|]. split; [apply He|]. intros a Ha. change (a ∈ w_sent w2) in Ha. rewrite (fe_sent _ _ _ He) in Ha.
  pose proof (lv_covers _ Hl1 a Ha) as Hc. cbn. rewrite answered_app. apply elem_of_app. left. rewrite (fe_answered _ _ _ He).
  cbn [set_requests w_requests w_pendingAcks w_signals] in Hc |- *. rewrite Hq in Hc |- *. by destruct ok.
Qed.

Lemma run_iteration_moves ev w dk :
  live w -> w_phase w = Running -> run_ready ev w = true ->
  io_safe (fun _ => True) (fun o _ => moves_on w (backlog_steps w) o) (run_iteration cfg ev w) dk.
Proof.
  intros Hl Hp Hr. destruct ev as [grown|]; cbn [run_iteration run_ready] in *.
  - destruct (w_requests w) as [|[rec ack|d|d] q] eqn:Eq; [done|..].
    + by apply handle_append_moves.
    + by apply handle_flush_moves.
    + by apply handle_shutdown_moves.
  - eapply io_safe_bind; [apply flush_effects|]. intros [ok w2] dk' He. apply io_safe_ret. cbn [fst snd] in *.
    apply stop_unless_moves; [done|done|done|]. right. split; [done|lia].
Qed.

(** ** Reachable states are live *)

Lemma client_live w w' : live w -> client_step cfg w w' -> live w'.
Proof.
  intros Hl Hc. pose proof Hl as [L1 L2 L3 Lp L4 (q1 & q2 & L5a & L5b & L5c)].
  destruct Hc as [rec w Hsub|i w [[rec ack] Hi] Hroom|i w|d w Hroom|d w Hi Hroom|w Hi|w Hi Hph].
  - unfold AppendAsync_check. destruct (w_failedErr w); [done|]. destruct (w_closed w) eqn:Ec; [done|].
    split; cbn; try done; [by apply Forall_app_2; [|apply Forall_singleton]|].
    exists q1, q2. split_and!; [done|done|]. destruct L5c as [?|(d & q3 & _ & _ & _ & Hcl & _)]; [by left|congruence].
  - unfold AppendAsync_send. rewrite Hi. rewrite Forall_lookup in L2. pose proof (L2 i _ Hi) as Hsub. cbn in Hsub.
    split; cbn; try done.
    + apply Forall_app_2; [done|by apply Forall_singleton].
    + rewrite <-Forall_lookup in L2. by apply Forall_delete.
    + intros a [Ha|Ha%list_elem_of_singleton]%elem_of_app; rewrite queued_app.
      * specialize (L3 a Ha). rewrite !elem_of_app in L3. rewrite !elem_of_app. tauto.
      * subst a. rewrite !elem_of_app. do 3 right. by left.
    + exists (q1 ++ q2 ++ [ReqAppend rec ack]), []. rewrite app_nil_r, app_assoc, <-L5a. split_and!; [done| |by left].
      destruct L5c as [->|(d & q3 & _ & _ & _ & _ & Hin)]; [|rewrite Hin in Hi; by rewrite lookup_nil in Hi].
      rewrite app_nil_r in L5a. rewrite L5a. apply Forall_app_2; [done|by apply Forall_singleton].
  - unfold AppendAsync_return. split; cbn; try done; [by apply Forall_delete|].
    exists q1, q2. split_and!; [done|done|]. destruct L5c as [?|(d & q3 & ? & ? & ? & ? & Hin)]; [by left|right].
    exists d, q3. by rewrite Hin.
  - split; cbn; try done.
    + apply Forall_app_2; [done|by apply Forall_singleton].
    + intros a Ha. rewrite queued_app. cbn [queued omap list_omap]. rewrite app_nil_r. by apply L3.
    + destruct L5c as [->|(d' & q3 & -> & Hq & Hs & Hcl & Hin)].
      * exists (q1 ++ [ReqFlush d]), []. rewrite app_nil_r in *. rewrite L5a. split_and!; [done| |by left].
        apply Forall_app_2; [done|by apply Forall_singleton].
      * exists q1, (ReqShutdown d' :: q3 ++ [ReqFlush d]). rewrite L5a, <-app_assoc. split_and!; [done|done|right].
        exists d', (q3 ++ [ReqFlush d]). split_and!; [done| | |done|done].
        -- by rewrite queued_app, Hq.
        -- apply Forall_app_2; [done|by apply Forall_singleton].
  - unfold Shutdown_send. destruct (w_closed w) eqn:Ec; [done|]. split; cbn; try done.
    + apply Forall_app_2; [done|by apply Forall_singleton].
    + intros a Ha. rewrite queued_app. cbn [queued omap list_omap]. rewrite app_nil_r. by apply L3.
    + destruct L5c as [->|(d' & q3 & _ & _ & _ & Hcl & _)]; [|congruence].
      exists q1, [ReqShutdown d]. rewrite app_nil_r in L5a. rewrite L5a. split_and!; [done|done|right].
      exists d, []. by rewrite Hi.
  - unfold Shutdown_cancel. destruct (w_closed w) eqn:Ec; [done|]. split; cbn; try done.
    exists q1, q2. split_and!; [done|done|]. destruct L5c as [?|(d & q3 & _ & _ & _ & Hcl & _)]; [by left|congruence].
  - unfold Shutdown_late. destruct (w_closed w) eqn:Ec; [done|]. split; cbn; try done.
    exists q1, q2. split_and!; [done|done|]. destruct L5c as [?|(d & q3 & _ & _ & _ & Hcl & _)]; [by left|congruence].
Qed.
End Live.

Section Reached.
Context (cfg : WriterConfig).

Lemma run_step_moves w dk fs w' dk' fs' :
  live cfg w -> run_step cfg w dk fs (Done (inr (Ret w')) dk' fs') ->
  moves_on cfg w (match w_phase w with Starting => S (backlog_steps w) | _ => backlog_steps w end) (Ret w').
Proof.
  intros Hl Hs. remember (Done (inr (Ret w')) dk' fs') as r eqn:Er. destruct Hs as [w dk fs Hph|ev w dk fs Hph Hready]; rewrite Hph.
  - assert (io_safe (fun _ => True) (fun o _ => moves_on cfg w (S (backlog_steps w)) o)
      (let@ w1 := run_start cfg w in io_ret (Ret w1)) dk) as Hsafe.
    { unfold run_start. eapply (io_safe_bind _ (fun w1 _ => moves_on cfg w (S (backlog_steps w)) (Ret w1)));
        [|intros w1 dk1 Hm; by apply io_safe_ret].
      eapply io_safe_bind; [apply io_safe_any|]. intros [err|st] dk1 _; apply io_safe_ret; eexists; (split; [reflexivity|]);
        (split; [done|]).
      - cbn. intros a Ha. pose proof (lv_covers _ _ Hl a Ha) as Hc. cbn. rewrite answered_app, answered_reject.
        rewrite (lv_start _ _ Hl Hph) in Hc. exact Hc.
      - cbn. split; [by destruct Hl; split|]. unfold backlog_steps. cbn. lia. }
    specialize (Hsafe fs). by rewrite Er in Hsafe.
  - pose proof (run_iteration_moves cfg ev w dk Hl Hph Hready fs) as Hm. by rewrite Er in Hm.
Qed.

Lemma reached_live dk0 w dk : reached cfg dk0 w dk -> w_phase w <> Stopped -> live cfg w.
Proof.
  induction 1 as [mkdir w Hnew|w w' dk Hr IH Hs|w dk fs fs' w' dk' Hr IH Hi Hs]; intros Hp.
  - unfold NewWriter in Hnew. destruct (validateWriterConfig cfg); [done|]. destruct mkdir; [done|]. injection Hnew as <-.
    split; cbn; try done. exists [], []. split_and!; [done|constructor|by left].
  - assert (w_phase w' = w_phase w) as Ep.
    { destruct Hs; unfold AppendAsync_check, AppendAsync_send, Shutdown_send, Shutdown_cancel, Shutdown_late; by repeat case_match. }
    eapply client_live; [|exact Hs]. apply IH. by rewrite <-Ep.
  - assert (w_phase w <> Stopped) as Hpw by (inversion Hs; congruence).
    destruct (run_step_moves _ _ _ _ _ _ (IH Hpw) Hs) as (w1 & [= <-] & _ & Hm). destruct (w_phase w'); [done|apply Hm|done].
Qed.

(** The goroutine alone: [n] of its steps. *)
Inductive alone : nat -> Writer -> disk -> Writer -> disk -> Prop :=
| alone_none w dk : alone 0 w dk w dk
| alone_step n w dk w1 dk1 w2 dk2 fs fs' :
    run_step cfg w dk fs (Done (inr (Ret w1)) dk1 fs') -> alone n w1 dk1 w2 dk2 -> alone (S n) w dk w2 dk2.

Definition steps_left (w : Writer) : nat :=
  match w_phase w with Starting => S (backlog_steps w) | Running => backlog_steps w | Stopped => 0 end.

Lemma alone_ends n w dk w' dk' :
  alone n w dk w' dk' -> (w_phase w = Stopped -> all_answered w) -> (w_phase w <> Stopped -> live cfg w) ->
  (n <= steps_left w)%nat /\ w_sent w' = w_sent w /\
  (w_phase w' = Stopped -> all_answered w') /\ (w_phase w' <> Stopped -> live cfg w').
Proof.
  induction 1 as [w dk|n w dk w1 dk1 w2 dk2 fs fs' Hs Ha IH]; intros Hst Hlv; [split_and!; [lia|done..]|].
  assert (w_phase w <> Stopped) as Hpw by (inversion Hs; congruence).
  destruct (run_step_moves _ _ _ _ _ _ (Hlv Hpw) Hs) as (w3 & [= <-] & Esent & Hm).
  destruct IH as (Hn & Es & H1 & H2); [intros E; by rewrite E in Hm|intros Hp; destruct (w_phase w1); [done|apply Hm|done]|].
  split_and!; [|congruence|done|done]. clear H1 H2.
  assert (1 <= steps_left w)%nat as Hpos.
  { inversion Hs as [? ? ? Hph|ev ? ? ? Hph Hr]; subst; unfold steps_left, backlog_steps; rewrite Hph; [lia|].
    destruct ev; cbn in Hr; [destruct (w_requests w); [done|cbn; lia]|rewrite Hr; lia]. }
  unfold steps_left in *. destruct (w_phase w1); [done| |lia]. destruct Hm as [_ Hm]. destruct (w_phase w); [lia|lia|done].
Qed.

(** Nothing to do: everything is answered. *)
Lemma idle_answered w :
  live cfg w -> (forall ev, run_ready ev w = false) -> all_answered w.
Proof.
  intros Hl Hidle a Ha. pose proof (lv_covers _ _ Hl a Ha) as Hc. pose proof (Hidle (OnRequest [] 0)) as H1. pose proof (Hidle (OnTimer 0)) as H2.
  cbn in H1, H2. destruct (w_requests w); [|done]. rewrite (lv_timer _ _ Hl) in H2. apply negb_false_iff, Nat.eqb_eq, nil_length_inv in H2.
  rewrite H2, !app_nil_r in Hc. done.
Qed.

Lemma step_possible w dk fs ev :
  live cfg w -> w_phase w = Running -> run_ready ev w = true -> Forall survivable fs ->
  exists w' dk' fs', run_step cfg w dk fs (Done (inr (Ret w')) dk' fs').
Proof.
  intros Hl Hp Hr Hf. destruct (run_iteration_returns cfg ev w dk fs Hf) as (o & dk' & fs' & E & _).
  pose proof (run_iteration_moves cfg ev w dk Hl Hp Hr fs) as Hm. rewrite E in Hm.
  destruct Hm as (w' & -> & _). exists w', dk', fs'. rewrite <-E. by apply rs_iteration.
Qed.
End Reached.

Lemma start_possible cfg w dk fs :
  w_phase w = Starting -> Forall survivable fs -> exists w' dk' fs', run_step cfg w dk fs (Done (inr (Ret w')) dk' fs').
Proof.
  intros Hp Hf. assert (io_returns (let@ w1 := run_start cfg w in io_ret (Ret w1))) as Hr.
  { apply returns_bind; [|auto with ends]. unfold run_start. apply returns_bind; [apply returns_try, openNextSegment_ends|].
    intros [err|st]; auto with ends. }
  pose proof (rs_start cfg w dk fs Hp) as Hs. destruct (Hr dk fs Hf) as (o & dk' & fs' & E & _). rewrite E in Hs.
  unfold io_bind in E. destruct (run_start cfg w dk fs) as [[e|w1] dk1 fs1|dk1]; try done. injection E as <- <- <-. by eauto.
Qed.

(** ** Properties *)

(** C15. The writer answers every append.  In any reachable state in which the goroutine has
    not stopped, let it run alone: it takes at most twice as many steps as there are
    requests, plus two, before it stops or waits with nothing to do; as long as it is
    neither, the next step is possible whatever the file operations return, unless the
    machine crashes; and when it has stopped or waits, every append queued before has
    been answered, with success or an error. *)
Theorem writer_answers_every_append cfg dk0 w dk n w' dk' :
  reached cfg dk0 w dk -> w_phase w <> Stopped -> alone cfg n w dk w' dk' ->
  (n <= 2 * length (w_requests w) + 2)%nat /\
  (w_phase w' = Stopped \/ (w_phase w' = Running /\ forall ev, run_ready ev w' = false) ->
     forall a, a ∈ w_sent w -> a ∈ answered (w_signals w')) /\
  (forall fs, Forall survivable fs ->
     w_phase w' = Starting \/ (w_phase w' = Running /\ exists ev, run_ready ev w' = true) ->
     exists w'' dk'' fs'', run_step cfg w' dk' fs (Done (inr (Ret w'')) dk'' fs'')).
Proof.
  intros Hr Hp Ha. pose proof (reached_live cfg dk0 w dk Hr Hp) as Hl.
  destruct (alone_ends cfg n w dk w' dk' Ha ltac:(done) ltac:(done)) as (Hn & Es & H1 & H2). split_and!.
  - unfold steps_left, backlog_steps in Hn. destruct (w_phase w), (w_timerArmed w); lia.
  - intros Hend a Ha'. rewrite <-Es in Ha'. destruct Hend as [Hst|[Hrun Hidle]]; [by apply H1|].
    apply (idle_answered cfg); [apply H2; by rewrite Hrun|done|done].
  - intros fs Hf [Hst|[Hrun [ev Hev]]]; [by apply start_possible|].
    eapply step_possible; [apply H2; by rewrite Hrun|done|exact Hev|done].
Qed.

(** The batch of one record is flushed by its size: one step, and the record is answered. *)
Lemma writer_answers_every_append_witness :
  exists n w' dk', alone demo_wcfg n demo_w4 demo_s3.2 w' dk' /\ (forall ev, run_ready ev w' = false) /\
    (n <= 2 * length (w_requests demo_w4) + 2)%nat /\ forall a, a ∈ w_sent demo_w4 -> a ∈ answered (w_signals w').
Proof.
  set (s := after (run_iteration demo_wcfg (OnRequest [] 0) demo_w4 demo_s3.2 [])).
  assert (alone demo_wcfg 1 demo_w4 demo_s3.2 s.1 s.2) as Ha.
  { eapply alone_step; [|apply alone_none].
    replace (Done _ _ _) with (run_iteration demo_wcfg (OnRequest [] 0) demo_w4 demo_s3.2 []) by (vm_compute; reflexivity).
    apply rs_iteration; vm_compute; reflexivity. }
  assert (forall ev, run_ready ev s.1 = false) as Hidle by (intros [grown|]; vm_compute; reflexivity).
  assert (w_phase demo_w4 <> Stopped) as Hp by (vm_compute; congruence).
  destruct (writer_answers_every_append demo_wcfg no_disk demo_w4 demo_s3.2 1 s.1 s.2 demo_reached Hp Ha) as (H1 & H2 & _).
  exists 1%nat, s.1, s.2. split; [exact Ha|]. split; [exact Hidle|]. split; [exact H1|].
  apply H2. right. split; [vm_compute; reflexivity|exact Hidle].
Defined.
