(* ===== verification/Sequencer.v ===== *)
(** * Sequencer: numbering and routing commands (internal/ingress/sequencer.go)

    One goroutine takes requests from the ingress queue; commands get the next
    sequence number and go to the inbox of their shard, barriers and drains go to
    every inbox, one after the other, each when the one before has answered; shutdown
    closes the inboxes.  Clients put requests into the queue under a lock that
    [Shutdown] uses to close it. *)

From S2P Require Import Prelude Model Registry Metrics.

Definition ErrBackpressure : error := Errorf "backpressure: ingress queue is full" [].
Definition ErrSequencerClosed : error := Errorf "sequencer is closed" [].
Definition ErrSequenceExhausted : error := Errorf "command sequence exhausted" [].
Definition ErrContext : error := Errorf "context done" [].

(** The result or the error a reply channel delivers (type of internal/model). *)
Record Outcome := mkOutcome { oc_Result : Result; oc_Err : option error }.
Definition zero_result : Result := mkResult 0 [].
Definition outcome_err (err : error) : Outcome := mkOutcome zero_result (Some err).
Definition outcome_ok (r : Result) : Outcome := mkOutcome r None.

(** Channels are numbers. *)
Inductive Routed :=
| RoutedCommand (command : Command) (reply : nat)
| RoutedBarrier (barrierDone : nat)
| RoutedDrain (drainAck drainWait : nat).

(** The interface of the registry the sequencer uses. *)
Class Router (R : Type) := router_ShardFor : R -> string -> option Z.
#[export] Instance registry_router : Router SymbolRegistry := ShardFor.

Inductive request :=
| requestCommand (command : Command) (reply : nat)
| requestBarrier (result : nat)
| requestDrain (result release : nat)
| requestShutdown (done : nat).

(** What the goroutine does to channels, in order. *)
Inductive action :=
| Sent (inbox : nat) (msg : Routed)
| Replied (reply : nat) (o : Outcome)
| Resulted (result : nat) (err : option error)
| ClosedInbox (inbox : nat)
| ClosedDone (done : nat).

(** A barrier or a drain (with its release channel) on its way through the inboxes: the
    goroutine waits for the answer of [rd_inbox] on the channel [rd_chan]. *)
Record round := mkRound {
  rd_release : option nat;
  rd_result : nat;
  rd_inbox : nat;
  rd_chan : nat;
  rd_firstErr : option error
}.

(** The message it sends. *)
Definition round_msg (release : option nat) (chan : nat) : Routed :=
  match release with
  | None => RoutedBarrier chan
  | Some rel => RoutedDrain chan rel
  end.

(** What the goroutine waits for while it handles a request. *)
Inductive awaiting := AwaitAnswer (rd : round) | AwaitRelease (c : nat).

Section Sequencer.
Context {R : Type} `{Router R}.

Record Sequencer := mkSequencer {
  sq_router : R;
  sq_shards : nat;                  (* the number of inboxes *)
  sq_capacity : nat;                (* of the ingress queue *)
  sq_ingressQ : list request;
  sq_nextSeq : Z;
  sq_closed : bool;
  sq_done : bool;                   (* the goroutine has ended *)
  sq_wait : option awaiting;        (* what the goroutine waits for *)
  sq_chans : nat;                   (* answer channels it has made *)
  sq_released : list nat;           (* closed release channels *)
  sq_actions : list action;
  sq_observed : list observation    (* told to the metrics sink *)
}.

Definition NewSequencer (queueSize : nat) (initialSequence : Z) (shards : nat) (router : R) : Sequencer :=
  mkSequencer router shards queueSize [] (if initialSequence =? 0 then 1 else initialSequence)
    false false None 0 [] [] [].

Definition set_queue (q : list request) (s : Sequencer) : Sequencer :=
  mkSequencer (sq_router s) (sq_shards s) (sq_capacity s) q (sq_nextSeq s) (sq_closed s)
    (sq_done s) (sq_wait s) (sq_chans s) (sq_released s) (sq_actions s) (sq_observed s).
Definition set_nextSeq (n : Z) (s : Sequencer) : Sequencer :=
  mkSequencer (sq_router s) (sq_shards s) (sq_capacity s) (sq_ingressQ s) n (sq_closed s)
    (sq_done s) (sq_wait s) (sq_chans s) (sq_released s) (sq_actions s) (sq_observed s).
Definition close_ingress (s : Sequencer) : Sequencer :=
  mkSequencer (sq_router s) (sq_shards s) (sq_capacity s) (sq_ingressQ s) (sq_nextSeq s) true
    (sq_done s) (sq_wait s) (sq_chans s) (sq_released s) (sq_actions s) (sq_observed s).
Definition finish (s : Sequencer) : Sequencer :=
  mkSequencer (sq_router s) (sq_shards s) (sq_capacity s) (sq_ingressQ s) (sq_nextSeq s) (sq_closed s)
    true (sq_wait s) (sq_chans s) (sq_released s) (sq_actions s) (sq_observed s).
Definition set_wait (a : option awaiting) (s : Sequencer) : Sequencer :=
  mkSequencer (sq_router s) (sq_shards s) (sq_capacity s) (sq_ingressQ s) (sq_nextSeq s) (sq_closed s)
    (sq_done s) a (sq_chans s) (sq_released s) (sq_actions s) (sq_observed s).
Definition set_chans (n : nat) (s : Sequencer) : Sequencer :=
  mkSequencer (sq_router s) (sq_shards s) (sq_capacity s) (sq_ingressQ s) (sq_nextSeq s) (sq_closed s)
    (sq_done s) (sq_wait s) n (sq_released s) (sq_actions s) (sq_observed s).
Definition release (c : nat) (s : Sequencer) : Sequencer :=
  mkSequencer (sq_router s) (sq_shards s) (sq_capacity s) (sq_ingressQ s) (sq_nextSeq s) (sq_closed s)
    (sq_done s) (sq_wait s) (sq_chans s) (c :: sq_released s) (sq_actions s) (sq_observed s).
Definition act (a : list action) (s : Sequencer) : Sequencer :=
  mkSequencer (sq_router s) (sq_shards s) (sq_capacity s) (sq_ingressQ s) (sq_nextSeq s) (sq_closed s)
    (sq_done s) (sq_wait s) (sq_chans s) (sq_released s) (sq_actions s ++ a) (sq_observed s).
Definition sees (o : observation) (s : Sequencer) : Sequencer :=
  mkSequencer (sq_router s) (sq_shards s) (sq_capacity s) (sq_ingressQ s) (sq_nextSeq s) (sq_closed s)
    (sq_done s) (sq_wait s) (sq_chans s) (sq_released s) (sq_actions s) (sq_observed s ++ [o]).

(** ** The goroutine *)

Definition with_Seq (seq : Z) (c : Command) : Command :=
  mkCommand seq (cmd_Symbol c) (cmd_Type c) (cmd_OrderID c) (cmd_Side c) (cmd_OrderType c)
    (cmd_TimeInForce c) (cmd_Price c) (cmd_Quantity c) (cmd_NewPrice c) (cmd_NewLeavesQty c).

Definition invalid_symbol (seq : Z) (cmd : Command) : Result :=
  mkResult seq [ev_rejected RejectInvalidSymbol (cmd_OrderID cmd)].

(** [depth] is the number of messages in the inbox of the command's shard. *)
Definition handleCommand (cmd : Command) (reply : nat) (depth : Z) (s : Sequencer) : outcome Sequencer :=
  match router_ShardFor (sq_router s) (cmd_Symbol cmd) with
  | None => Ret (act [Replied reply (outcome_ok (invalid_symbol 0 cmd))] (sees IncRejected s))
  | Some shardID =>
      if sq_nextSeq s =? 0 then Ret (act [Replied reply (outcome_err ErrSequenceExhausted)] s)
      else
        let cmd := with_Seq (sq_nextSeq s) cmd in
        let s := set_nextSeq (u64_add (sq_nextSeq s) 1) s in
        if (0 <=? shardID) && (shardID <? Z.of_nat (sq_shards s))
        then Ret (act [Sent (Z.to_nat shardID) (RoutedCommand cmd reply)] (sees (ObserveShardQueueDepth depth) s))
        else Panic
  end.

(** The loop over the inboxes for a barrier or a drain, from [inbox] on: the message is
    sent with a new channel and the goroutine waits for its answer; after the last inbox
    the first error is the result, and a drain waits for its release. *)
Definition fan_out (release : option nat) (result inbox : nat) (firstErr : option error) (s : Sequencer) : Sequencer :=
  if (inbox <? sq_shards s)%nat then
    let chan := sq_chans s in
    let s := act [Sent inbox (round_msg release chan)] (set_chans (S chan) s) in
    set_wait (Some (AwaitAnswer (mkRound release result inbox chan firstErr))) s
  else set_wait (AwaitRelease <$> release) (act [Resulted result firstErr] s).

(** The answer [err] arrives. *)
Definition first_of (firstErr err : option error) : option error :=
  match err, firstErr with Some e, None => Some e | _, _ => firstErr end.
Definition fan_answer (rd : round) (err : option error) (s : Sequencer) : Sequencer :=
  fan_out (rd_release rd) (rd_result rd) (S (rd_inbox rd)) (first_of (rd_firstErr rd) err) s.

(** One request of [run], up to the first wait. *)
Definition handle_request (req : request) (depth : Z) (s : Sequencer) : outcome Sequencer :=
  match req with
  | requestCommand cmd reply => handleCommand cmd reply depth s
  | requestBarrier result => Ret (fan_out None result 0 None s)
  | requestDrain result release => Ret (fan_out (Some release) result 0 None s)
  | requestShutdown done =>
      Ret (finish (act (map ClosedInbox (seq 0 (sq_shards s)) ++ [ClosedDone done]) s))
  end.

(** ** Clients *)

(** How a [select] with a send and [ctx.Done()] or a default case ends. *)
Inductive choice := ChooseSend | ChooseOther.

Definition has_room (s : Sequencer) : bool := (length (sq_ingressQ s) <? sq_capacity s)%nat.
Definition enqueue (req : request) (s : Sequencer) : Sequencer := set_queue (sq_ingressQ s ++ [req]) s.
(** A command is counted with the queue it was put in. *)
Definition submit (cmd : Command) (reply : nat) (s : Sequencer) : Sequencer :=
  let s := enqueue (requestCommand cmd reply) s in
  sees (ObserveIngressQueueDepth (Z.of_nat (length (sq_ingressQ s)))) s.

Definition SubmitBlocking (c : choice) (cmd : Command) (reply : nat) (s : Sequencer)
  : option error * Sequencer :=
  if sq_closed s then (Some ErrSequencerClosed, s)
  else match c with
       | ChooseSend => (None, submit cmd reply s)
       | ChooseOther => (Some ErrContext, s)
       end.

Definition SubmitNonBlocking (cmd : Command) (reply : nat) (s : Sequencer) : option error * Sequencer :=
  if sq_closed s then (Some ErrSequencerClosed, s)
  else if has_room s then (None, submit cmd reply s)
  else (Some ErrBackpressure, sees IncBackpressure s).

(** [Barrier] and [AcquireDrain] up to the wait for the result. *)
Definition Barrier (c : choice) (result : nat) (s : Sequencer) : option error * Sequencer :=
  if sq_closed s then (Some ErrSequencerClosed, s)
  else match c with
       | ChooseSend => (None, enqueue (requestBarrier result) s)
       | ChooseOther => (Some ErrContext, s)
       end.
Definition AcquireDrain (c : choice) (result release : nat) (s : Sequencer) : option error * Sequencer :=
  if sq_closed s then (Some ErrSequencerClosed, s)
  else match c with
       | ChooseSend => (None, enqueue (requestDrain result release) s)
       | ChooseOther => (Some ErrContext, s)
       end.

(** Their waits: the result of the goroutine ([None] while there is none), or the end
    of the context.  A drain that is not handed to the caller is released; one that is,
    the caller releases. *)
Definition Barrier_wait (c : choice) (received : option error) : option error :=
  match c with
  | ChooseSend => received
  | ChooseOther => Some ErrContext
  end.
Definition AcquireDrain_wait (c : choice) (received : option error) (rel : nat) (s : Sequencer)
  : option error * Sequencer :=
  match c with
  | ChooseSend =>
      match received with
      | Some err => (Some err, release rel s)
      | None => (None, s)
      end
  | ChooseOther => (Some ErrContext, release rel s)
  end.

(** [Shutdown] up to its wait: for its own request to be handled, or, when the sequencer
    is closed already, for the goroutine to end. *)
Inductive shutdown_wait := WaitRequest (done : nat) | WaitGoroutine.
Definition markClosed (s : Sequencer) : bool * Sequencer :=
  if sq_closed s then (false, s) else (true, close_ingress s).
Definition Shutdown (c : choice) (done : nat) (s : Sequencer) : (error + shutdown_wait) * Sequencer :=
  let '(first, s) := markClosed s in
  if first then
    match c with
    | ChooseSend => (inr (WaitRequest done), enqueue (requestShutdown done) s)
    | ChooseOther => (inl ErrContext, s)
    end
  else (inr WaitGoroutine, s).

(** The channel [Shutdown] waits for is closed. *)
Definition shutdown_over (on : shutdown_wait) (s : Sequencer) : bool :=
  match on with
  | WaitRequest done => existsb (fun a => match a with ClosedDone d => (d =? done)%nat | _ => false end) (sq_actions s)
  | WaitGoroutine => sq_done s
  end.
(** The end of the wait: what [Shutdown] returns, [None] while it has to wait on. *)
Definition Shutdown_end (on : shutdown_wait) (c : choice) (s : Sequencer) : option (option error) :=
  match c with
  | ChooseSend => if shutdown_over on s then Some None else None
  | ChooseOther => Some (Some ErrContext)
  end.

(** ** Interleavings *)

(** The goroutine can take the next request. *)
Definition sq_free (s : Sequencer) : bool :=
  negb (sq_done s) && match sq_wait s with None => true | Some _ => false end.

(** [answers inbox chan err]: the shard of [inbox] has sent [err] on [chan]. *)
Context (answers : nat -> nat -> option error -> Prop).

Inductive sq_step : Sequencer -> Sequencer -> Prop :=
| ss_run req q depth s s' :
    sq_free s = true -> sq_ingressQ s = req :: q ->
    handle_request req depth (set_queue q s) = Ret s' -> sq_step s s'
| ss_answer rd err s :
    sq_wait s = Some (AwaitAnswer rd) -> answers (rd_inbox rd) (rd_chan rd) err -> sq_step s (fan_answer rd err s)
| ss_resume c s : sq_wait s = Some (AwaitRelease c) -> c ∈ sq_released s -> sq_step s (set_wait None s)
| ss_submit c cmd reply s : (c = ChooseSend -> has_room s = true) -> sq_step s (SubmitBlocking c cmd reply s).2
| ss_try cmd reply s : sq_step s (SubmitNonBlocking cmd reply s).2
| ss_barrier c result s : (c = ChooseSend -> has_room s = true) -> sq_step s (Barrier c result s).2
| ss_drain c result rel s :
    (c = ChooseSend -> has_room s = true) -> sq_step s (AcquireDrain c result rel s).2
| ss_drain_wait c received rel s : sq_step s (AcquireDrain_wait c received rel s).2
| ss_release rel s : sq_step s (release rel s)
| ss_shutdown c done s : (sq_closed s = false -> c = ChooseSend -> has_room s = true) -> sq_step s (Shutdown c done s).2.

Inductive sq_steps : Sequencer -> Sequencer -> Prop :=
| sqs_refl s : sq_steps s s
| sqs_step s s' s'' : sq_steps s s' -> sq_step s' s'' -> sq_steps s s''.
End Sequencer.
Arguments Sequencer R : clear implicits.
