(* ===== verification/SequencerProps.v ===== *)
(** * SequencerProps: numbers, routes, order and the end of the sequencer

    Proved for any router that keeps within the number of shards; the registry is one. *)

From S2P Require Import Prelude Model Registry Metrics Sequencer.

(** What the sequencer relies on: shards are in range. *)
Class RouterInRange {R : Type} `{Router R} (router : R) (shards : nat) : Prop :=
  router_in_range : forall symbol id, router_ShardFor router symbol = Some id -> 0 <= id < Z.of_nat shards.

(** The commands sent to inboxes. *)
Definition sent_commands (acts : list action) : list (nat * Command) :=
  omap (fun a => match a with Sent i (RoutedCommand cmd _) => Some (i, cmd) | _ => None end) acts.

(** A request, by the channel it is answered on: the reply of a command, the result of a
    barrier or a drain. *)
Inductive ticket := Reply (reply : nat) | Report (result : nat).

(** The requests that were handled, the one being handled, and those that wait. *)
Definition handled (acts : list action) : list ticket :=
  omap (fun a => match a with
                 | Sent _ (RoutedCommand _ r) => Some (Reply r)
                 | Replied r _ => Some (Reply r)
                 | Resulted r _ => Some (Report r)
                 | _ => None
                 end) acts.
Definition in_round (w : option awaiting) : list ticket :=
  match w with Some (AwaitAnswer rd) => [Report (rd_result rd)] | _ => [] end.
Definition waiting (q : list request) : list ticket :=
  omap (fun r => match r with
                 | requestCommand _ r => Some (Reply r)
                 | requestBarrier r | requestDrain r _ => Some (Report r)
                 | requestShutdown _ => None
                 end) q.

Definition is_close (a : action) : bool := match a with ClosedInbox _ | ClosedDone _ => true | _ => false end.
Definition is_shutdown (r : request) : bool := match r with requestShutdown _ => true | _ => false end.

(** [n] consecutive numbers from [k]. *)
Definition numbers (k : Z) (n : nat) : list Z := map (fun i => k + Z.of_nat i) (seq 0 n).

Lemma numbers_snoc k n : numbers k (S n) = numbers k n ++ [k + Z.of_nat n].
Proof. unfold numbers. by rewrite seq_S, map_app. Qed.

Section Props.
Context {R : Type} `{Router R} (router : R) (shards : nat) (init : Z).
Context `{!RouterInRange router shards}.
Context (Hinit : 0 < init < 18446744073709551616).

Record sq_inv (s : Sequencer R) : Prop := {
  sv_router : sq_router s = router;
  sv_shards : sq_shards s = shards;
  sv_numbers : exists n, map (cmd_Seq ∘ snd) (sent_commands (sq_actions s)) = numbers init n /\
                 sq_nextSeq s = wrap_u64 (init + Z.of_nat n) /\ init + Z.of_nat n <= 18446744073709551616;
  sv_routes : Forall (fun p => router_ShardFor router (cmd_Symbol p.2) = Some (Z.of_nat p.1))
                (sent_commands (sq_actions s));
  sv_open : sq_closed s = false -> Forall (fun r => is_shutdown r = false) (sq_ingressQ s) /\ sq_done s = false;
  sv_queue : exists q rest, sq_ingressQ s = q ++ rest /\ Forall (fun r => is_shutdown r = false) q /\
               (rest = [] \/ exists d, rest = [requestShutdown d]);
  sv_wait : sq_wait s <> None -> sq_done s = false;
  sv_running : sq_done s = false -> Forall (fun a => is_close a = false) (sq_actions s);
  sv_done : sq_done s = true -> sq_closed s = true /\ sq_ingressQ s = [] /\
              exists pre d, sq_actions s = pre ++ map ClosedInbox (seq 0 shards) ++ [ClosedDone d] /\
                Forall (fun a => is_close a = false) pre
}.

Lemma new_inv capacity : sq_inv (NewSequencer capacity init shards router).
Proof.
  unfold NewSequencer. destruct (Z.eqb_spec init 0); [lia|]. split; cbn; try done.
  - exists 0%nat. split_and!; [done| |lia]. int_lia.
  - exists [], []. split_and!; [done|constructor|by left].
Qed.

(** ** Messages to every inbox *)

Definition quiet (a : action) : Prop :=
  is_close a = false /\ sent_commands [a] = [].

(** Everything but the actions and what is waited for. *)
Record same_but_actions (s s' : Sequencer R) (acts : list action) : Prop := {
  sb_router : sq_router s' = sq_router s;
  sb_shards : sq_shards s' = sq_shards s;
  sb_queue : sq_ingressQ s' = sq_ingressQ s;
  sb_next : sq_nextSeq s' = sq_nextSeq s;
  sb_closed : sq_closed s' = sq_closed s;
  sb_done : sq_done s' = sq_done s;
  sb_released : sq_released s' = sq_released s;
  sb_actions : sq_actions s' = sq_actions s ++ acts
}.

Lemma quiet_message release chan inbox : quiet (Sent inbox (round_msg release chan)) /\ handled [Sent inbox (round_msg release chan)] = [].
Proof. by destruct release. Qed.

(** Either the next inbox gets the message, or the round is over. *)
Lemma fan_out_ok release result inbox ferr s :
  exists a, same_but_actions s (fan_out release result inbox ferr s) [a] /\ quiet a /\
    handled [a] ++ in_round (sq_wait (fan_out release result inbox ferr s)) = [Report result].
Proof.
  unfold fan_out. destruct (inbox <? sq_shards s)%nat.
  - destruct (quiet_message release (sq_chans s) inbox) as [Hq Hh]. eexists. split; [by split|]. split; [done|]. by rewrite Hh.
  - eexists. split; [by split|]. split; [done|]. by destruct release.
Qed.

(** ** Steps *)

Lemma quiet_sent acts : Forall quiet acts -> sent_commands acts = [].
Proof.
  induction 1 as [|a acts [_ H1] _ IH]; [done|].
  change (a :: acts) with ([a] ++ acts). unfold sent_commands in *. by rewrite omap_app, H1, IH.
Qed.

Lemma quiet_open acts : Forall quiet acts -> Forall (fun a => is_close a = false) acts.
Proof. intros Hq. eapply Forall_impl; [exact Hq|]. by intros a [? _]. Qed.

(** Taking a request that is not the shutdown leaves a queue of the right form. *)
Lemma queue_rest (q rest : list request) req q' :
  q ++ rest = req :: q' -> Forall (fun r => is_shutdown r = false) q -> (rest = [] \/ exists d, rest = [requestShutdown d]) ->
  (is_shutdown req = true -> q' = []) /\
  exists q1 rest1, q' = q1 ++ rest1 /\ Forall (fun r => is_shutdown r = false) q1 /\
    (rest1 = [] \/ exists d, rest1 = [requestShutdown d]).
Proof.
  intros E Hq Hr. destruct q as [|r q]; cbn in E.
  - destruct Hr as [->|[d ->]]; [done|]. injection E as <- <-. split; [done|]. exists [], []. split_and!; [done|constructor|by left].
  - injection E as -> <-. apply Forall_cons in Hq as [Hr1 Hq]. split; [by rewrite Hr1|]. exists q, rest. done.
Qed.

(** Quiet actions keep the invariant. *)
Lemma quiet_inv s s' acts q :
  sq_inv s -> sq_done s = false -> sq_ingressQ s = q ++ sq_ingressQ s' -> (length q <= 1)%nat ->
  Forall quiet acts -> sq_router s' = sq_router s -> sq_shards s' = sq_shards s -> sq_nextSeq s' = sq_nextSeq s ->
  sq_closed s' = sq_closed s -> sq_done s' = sq_done s -> sq_actions s' = sq_actions s ++ acts -> sq_inv s'.
Proof.
  intros [V1 V2 V3 V4 V5 V6 V9 V7 V8] Hd Hq Hql Hacts E1 E2 E3 E4 E5 E6.
  pose proof (quiet_sent _ Hacts) as Es.
  split; rewrite ?E1, ?E2, ?E3, ?E4, ?E5, ?E6; try done.
  - unfold sent_commands in *. by rewrite omap_app, Es, app_nil_r.
  - unfold sent_commands in *. by rewrite omap_app, Es, app_nil_r.
  - intros Hc. destruct (V5 Hc) as [V5a V5b]. split; [|done]. rewrite Hq in V5a. by apply Forall_app in V5a as [_ ?].
  - destruct V6 as (q1 & rest & Eq & H1 & H2). destruct q as [|r [|]]; cbn in Hql; [|  |lia].
    + exists q1, rest. by rewrite <-Eq, Hq.
    + cbn in Hq. rewrite Eq in Hq. by destruct (queue_rest _ _ _ _ Hq H1 H2) as [_ ?].
  - intros _. apply Forall_app. split; [by apply V7|]. by apply quiet_open.
  - by rewrite Hd.
Qed.

Lemma free_running (s : Sequencer R) : sq_free s = true -> sq_done s = false /\ sq_wait s = None.
Proof. unfold sq_free. destruct (sq_done s), (sq_wait s); done. Qed.

(** A command that is numbered and sent keeps the invariant. *)
Lemma send_inv s cmd reply q id depth :
  sq_inv s -> sq_free s = true -> sq_ingressQ s = requestCommand cmd reply :: q ->
  router_ShardFor router (cmd_Symbol cmd) = Some id -> sq_nextSeq s <> 0 ->
  sq_inv (act [Sent (Z.to_nat id) (RoutedCommand (with_Seq (sq_nextSeq s) cmd) reply)]
    (sees (ObserveShardQueueDepth depth) (set_nextSeq (u64_add (sq_nextSeq s) 1) (set_queue q s)))).
Proof.
  intros [V1 V2 (n & V3a & V3b & V3c) V4 V5 V6 V9 V7 V8] Hfree Eq Hid Hn. destruct (free_running s Hfree) as [Hd Hw].
  pose proof (router_in_range _ _ Hid) as Hr.
  assert (init + Z.of_nat n < 18446744073709551616) as Hlt.
  { destruct (Z.eq_dec (init + Z.of_nat n) 18446744073709551616) as [E|]; [|lia]. rewrite E in V3b. by rewrite V3b in Hn. }
  split; cbn -[numbers]; try done.
  - exists (S n). unfold sent_commands in *. rewrite omap_app, map_app, V3a, numbers_snoc. cbn.
    rewrite V3b. split_and!; [f_equal; f_equal; int_lia|int_lia|lia].
  - unfold sent_commands in *. rewrite omap_app. apply Forall_app. split; [done|]. apply Forall_singleton. cbn.
    by rewrite Z2Nat.id by lia.
  - intros Hc. destruct (V5 Hc) as [V5a _]. rewrite Eq in V5a. by apply Forall_cons in V5a as [_ ?].
  - destruct V6 as (q1 & rest & E & H1 & H2). rewrite Eq in E. by destruct (queue_rest _ _ _ _ (eq_sym E) H1 H2) as [_ ?].
  - intros _. apply Forall_app. split; [by apply V7|]. by apply Forall_singleton.
  - by rewrite Hd.
Qed.

(** All accepted requests, in the order in which they are handled. *)
Definition in_order (s : Sequencer R) : list ticket :=
  handled (sq_actions s) ++ in_round (sq_wait s) ++ waiting (sq_ingressQ s).

Lemma handled_app acts acts' : handled (acts ++ acts') = handled acts ++ handled acts'.
Proof. apply omap_app. Qed.

Lemma closes_handled l : handled (map ClosedInbox l) = [] /\ sent_commands (map ClosedInbox l) = [].
Proof. by induction l. Qed.

Lemma shutdown_inv s d q :
  sq_inv s -> sq_free s = true -> sq_ingressQ s = requestShutdown d :: q ->
  sq_inv (finish (act (map ClosedInbox (seq 0 (sq_shards (set_queue q s))) ++ [ClosedDone d]) (set_queue q s))).
Proof.
  intros [V1 V2 V3 V4 V5 V6 V9 V7 V8] Hfree Eq. destruct (free_running s Hfree) as [Hd Hw].
  assert (sq_closed s = true) as Hc.
  { destruct (sq_closed s) eqn:E; [done|]. destruct (V5 eq_refl) as [V5a _]. rewrite Eq in V5a.
    by apply Forall_cons in V5a as [? _]. }
  destruct V6 as (q1 & rest & E & H1 & H2). rewrite Eq in E.
  destruct (queue_rest _ _ _ _ (eq_sym E) H1 H2) as [Hlast _]. specialize (Hlast eq_refl). subst q.
  assert (sent_commands (sq_actions s ++ map ClosedInbox (seq 0 (sq_shards s)) ++ [ClosedDone d]) = sent_commands (sq_actions s)) as Es.
  { unfold sent_commands. rewrite !omap_app. change (omap _ (map ClosedInbox _)) with (sent_commands (map ClosedInbox (seq 0 (sq_shards s)))).
    rewrite (proj2 (closes_handled _)). cbn. by rewrite app_nil_r. }
  split; cbn [finish act set_queue sq_router sq_shards sq_ingressQ sq_nextSeq sq_closed sq_done sq_wait sq_actions]; rewrite ?Es; try done.
  - by rewrite Hc.
  - exists [], []. split_and!; [done|constructor|by left].
  - intros _. split_and!; [done|done|]. exists (sq_actions s), d. rewrite V2. split; [done|]. by apply V7.
Qed.

(** A step of a barrier or a drain. *)
Lemma round_inv s s1 release result inbox ferr q :
  sq_inv s -> sq_done s = false -> s1 = set_queue q s -> sq_ingressQ s = q \/ (exists req, sq_ingressQ s = req :: q) ->
  sq_inv (fan_out release result inbox ferr s1) /\
  in_order (fan_out release result inbox ferr s1) = handled (sq_actions s) ++ Report result :: waiting q.
Proof.
  intros Hinv Hd -> Hq. destruct (fan_out_ok release result inbox ferr (set_queue q s)) as (a & [S1 S2 S3 S4 S5 S6 _ S7] & Ha & Hh).
  cbn in S1, S2, S3, S4, S5, S6, S7. split.
  - destruct Hq as [Hq|[req Hq]].
    + eapply (quiet_inv s _ [a] []); rewrite ?S3; try done; [cbn; lia|by apply Forall_singleton].
    + eapply (quiet_inv s _ [a] [req]); rewrite ?S3; try done. by apply Forall_singleton.
  - unfold in_order. rewrite S3, S7. unfold handled in *. rewrite omap_app, <-app_assoc, (app_assoc (omap _ [a])), Hh. done.
Qed.

(** Every request is handled, without a panic. *)
Lemma handle_request_ok s req q depth :
  sq_inv s -> sq_free s = true -> sq_ingressQ s = req :: q ->
  exists s', handle_request req depth (set_queue q s) = Ret s' /\ sq_inv s' /\ in_order s' = in_order s.
Proof.
  intros Hinv Hfree Eq. pose proof Hinv as [V1 V2 V3 V4 V5 V6 V9 V7 V8]. destruct (free_running s Hfree) as [Hd Hw].
  unfold in_order at 2. rewrite Eq, Hw. destruct req as [cmd reply|result|result rel|d]; cbn [handle_request].
  - unfold handleCommand. cbn [set_queue sq_router sq_nextSeq]. rewrite V1.
    destruct (router_ShardFor router (cmd_Symbol cmd)) as [id|] eqn:Er.
    2:{ eexists. split; [reflexivity|]. split; [|unfold in_order; cbn; rewrite handled_app, Hw; cbn; by rewrite <-app_assoc].
        eapply (quiet_inv s _ _ [_]); try reflexivity; try done. by apply Forall_singleton. }
    destruct (Z.eqb_spec (sq_nextSeq s) 0) as [E0|Hn].
    { eexists. split; [reflexivity|]. split; [|unfold in_order; cbn; rewrite handled_app, Hw; cbn; by rewrite <-app_assoc].
      eapply (quiet_inv s _ _ [_]); try reflexivity; try done. by apply Forall_singleton. }
    pose proof (router_in_range _ _ Er) as Hr. cbn [set_nextSeq set_queue sq_shards]. rewrite V2.
    destruct (Z.leb_spec 0 id); [|lia]. destruct (Z.ltb_spec id (Z.of_nat shards)); [|lia]. cbn [andb].
    eexists. split; [reflexivity|]. split; [by apply send_inv|]. unfold in_order. cbn. rewrite handled_app, Hw. cbn.
    by rewrite <-app_assoc.
  - eexists. split; [reflexivity|]. apply (round_inv s _ None result 0 None q); [done|done|done|right; by eexists].
  - eexists. split; [reflexivity|]. apply (round_inv s _ (Some rel) result 0 None q); [done|done|done|right; by eexists].
  - eexists. split; [reflexivity|]. split; [by apply shutdown_inv|]. unfold in_order.
    cbn [set_queue sq_shards sq_actions finish act sq_ingressQ sq_wait].
    rewrite !handled_app, (proj1 (closes_handled _)), Hw. cbn. by rewrite app_nil_r.
Qed.

(** So is every answer. *)
Lemma fan_answer_ok s rd err :
  sq_inv s -> sq_wait s = Some (AwaitAnswer rd) -> sq_inv (fan_answer rd err s) /\ in_order (fan_answer rd err s) = in_order s.
Proof.
  intros Hinv Hw. assert (sq_done s = false) as Hd by (apply (sv_wait _ Hinv); by rewrite Hw).
  assert (s = set_queue (sq_ingressQ s) s) as Es by by destruct s.
  unfold fan_answer. destruct (round_inv s s (rd_release rd) (rd_result rd) (S (rd_inbox rd)) (first_of (rd_firstErr rd) err)
    (sq_ingressQ s) Hinv Hd Es (or_introl eq_refl)) as [Hi Ho]. split; [done|].
  rewrite Ho. unfold in_order. rewrite Hw. done.
Qed.

(** ** Clients *)

Lemma enqueue_inv s req : sq_inv s -> sq_closed s = false -> is_shutdown req = false -> sq_inv (enqueue req s).
Proof.
  intros [V1 V2 V3 V4 V5 V6 V9 V7 V8] Hc Hr. destruct (V5 Hc) as [Hq Hd].
  assert (Forall (fun r => is_shutdown r = false) (sq_ingressQ s ++ [req])) as Hall
    by (apply Forall_app; split; [done|by apply Forall_singleton]).
  split; cbn; try done; [|by rewrite Hd]. exists (sq_ingressQ s ++ [req]), []. rewrite app_nil_r. split_and!; [done|done|by left].
Qed.

Lemma shutdown_enqueue_inv s d : sq_inv s -> sq_closed s = false -> sq_inv (enqueue (requestShutdown d) (close_ingress s)).
Proof.
  intros [V1 V2 V3 V4 V5 V6 V9 V7 V8] Hc. destruct (V5 Hc) as [Hq Hd]. split; cbn; try done; [|by rewrite Hd].
  exists (sq_ingressQ s), [requestShutdown d]. split_and!; [done|done|right; by eexists].
Qed.

Lemma close_inv s : sq_inv s -> sq_closed s = false -> sq_inv (close_ingress s).
Proof.
  intros [V1 V2 V3 V4 V5 V6 V9 V7 V8] Hc. destruct (V5 Hc) as [Hq Hd]. split; cbn; try done. by rewrite Hd.
Qed.

Lemma sees_inv o s : sq_inv s -> sq_inv (sees o s).
Proof. intros Hi. by destruct Hi; split. Qed.
Lemma release_inv c s : sq_inv s -> sq_inv (release c s).
Proof. intros Hi. by destruct Hi; split. Qed.
Lemma resume_inv s : sq_inv s -> sq_inv (set_wait None s).
Proof. intros Hi. by destruct Hi; split. Qed.

Lemma in_order_enqueue s req : in_order s `prefix_of` in_order (enqueue req s).
Proof. unfold in_order. cbn. unfold waiting. rewrite omap_app, !app_assoc. by eexists. Qed.

Context (answers : nat -> nat -> option error -> Prop).

Lemma sq_step_inv s s' : sq_inv s -> sq_step answers s s' -> sq_inv s' /\ in_order s `prefix_of` in_order s'.
Proof.
  intros Hinv Hs. destruct Hs as [req q depth s s' Hfree Eq Hh|rd err s Hw Ha|c s Hd Hr|c cmd reply s Hroom|cmd reply s
    |c result s Hroom|c result rel s Hroom|c received rel s|rel s|c d s Hroom].
  - destruct (handle_request_ok s req q depth Hinv Hfree Eq) as (s1 & E & Hi & Ho).
    assert (s1 = s') as -> by congruence. split; [done|]. by rewrite Ho.
  - destruct (fan_answer_ok s rd err Hinv Hw) as [Hi Ho]. split; [done|]. by rewrite Ho.
  - split; [by apply resume_inv|]. unfold in_order. cbn. by rewrite Hd.
  - unfold SubmitBlocking. destruct (sq_closed s) eqn:Hc; [done|]. destruct c; [|done].
    split; [by apply sees_inv, enqueue_inv|apply (in_order_enqueue s)].
  - unfold SubmitNonBlocking. destruct (sq_closed s) eqn:Hc; [done|]. destruct (has_room s); [|split; [by apply sees_inv|done]].
    split; [by apply sees_inv, enqueue_inv|apply (in_order_enqueue s)].
  - unfold Barrier. destruct (sq_closed s) eqn:Hc; [done|]. destruct c; [|done].
    split; [by apply enqueue_inv|apply in_order_enqueue].
  - unfold AcquireDrain. destruct (sq_closed s) eqn:Hc; [done|]. destruct c; [|done].
    split; [by apply enqueue_inv|apply in_order_enqueue].
  - unfold AcquireDrain_wait. destruct c as [|]; [destruct received|]; (split; [by try apply release_inv|done]).
  - split; [by apply release_inv|done].
  - unfold Shutdown, markClosed. destruct (sq_closed s) eqn:Hc; [by destruct (sq_done s)|]. destruct c; cbn [snd].
    + split; [by apply shutdown_enqueue_inv|apply (in_order_enqueue (close_ingress s))].
    + split; [by apply close_inv|done].
Qed.

(** After an inbox was closed the goroutine does nothing. *)
Lemma closed_quiet s s' i :
  sq_inv s -> ClosedInbox i ∈ sq_actions s -> sq_step answers s s' -> sq_actions s' = sq_actions s.
Proof.
  intros Hinv Hin Hs. assert (sq_done s = true) as Hd.
  { destruct (sq_done s) eqn:Hd; [done|]. pose proof (sv_running _ Hinv Hd) as Hall. rewrite Forall_forall in Hall.
    by specialize (Hall _ Hin). }
  destruct Hs as [req q depth s s' Hfree Eq Hh|rd err s Hw Ha|c s Hw Hr|c cmd reply s Hroom|cmd reply s
    |c result s Hroom|c result rel s Hroom|c received rel s|rel s|c d s Hroom];
    try (unfold SubmitBlocking, SubmitNonBlocking, Barrier, AcquireDrain, AcquireDrain_wait, Shutdown, markClosed;
      by repeat (case_match; simplify_eq/=)).
  - destruct (free_running s Hfree). congruence.
  - pose proof (sv_wait _ Hinv). rewrite Hw in *. naive_solver congruence.
Qed.

Lemma sq_steps_inv s s' : sq_inv s -> sq_steps answers s s' -> sq_inv s' /\ in_order s `prefix_of` in_order s'.
Proof.
  intros H0. induction 1 as [|s s' s'' _ IH Hs]; [done|]. destruct (IH H0) as [Hi Ho].
  destruct (sq_step_inv _ _ Hi Hs) as [Hi' Ho']. split; [done|by etrans].
Qed.
End Props.

#[export] Instance registry_in_range count symbols r :
  small_count count -> registry_ok count symbols r -> RouterInRange r (Z.to_nat count).
Proof.
  intros Hc [_ Hf _] symbol id. unfold router_ShardFor, registry_router. rewrite Hf. case_bool_decide; [|done].
  intros [= <-]. pose proof (shard_of_range count symbol Hc). lia.
Qed.

(** ** Properties *)

(** C10. What the sequencer guarantees, for any router that stays within the shards and in
    every interleaving of its goroutine with clients that submit, drain, wait for
    barriers and shut down.  The commands it sends to the shards carry consecutive
    sequence numbers from the initial one and never wrap around; each goes to the shard
    its symbol is routed to.  Requests are handled in the order in which they were
    accepted, none is lost or handled twice.  The goroutine handles every request without
    a panic (the router's shard is in range); it closes each inbox exactly once, as its
    last actions, so it never sends on a closed channel; and when it has ended no
    accepted request is left behind. *)
Theorem sequencer_correct {R : Type} `{Router R} (router : R) shards capacity init answers s :
  RouterInRange router shards -> 0 < init < 18446744073709551616 ->
  sq_steps answers (NewSequencer capacity init shards router) s ->
  (exists n, map (cmd_Seq ∘ snd) (sent_commands (sq_actions s)) = numbers init n /\
     init + Z.of_nat n <= 18446744073709551616) /\
  Forall (fun p => router_ShardFor router (cmd_Symbol p.2) = Some (Z.of_nat p.1)) (sent_commands (sq_actions s)) /\
  (forall s', sq_steps answers s s' -> in_order s `prefix_of` in_order s') /\
  (forall req q depth, sq_free s = true -> sq_ingressQ s = req :: q ->
     exists s', handle_request req depth (set_queue q s) = Ret s' /\ in_order s' = in_order s) /\
  (if sq_done s
   then sq_ingressQ s = [] /\ exists pre d,
     sq_actions s = pre ++ map ClosedInbox (seq 0 shards) ++ [ClosedDone d] /\ Forall (fun a => is_close a = false) pre
   else Forall (fun a => is_close a = false) (sq_actions s)).
Proof.
  intros Hr Hi Hs. pose proof (sq_steps_inv router shards init Hi answers _ _ (new_inv router shards init Hi capacity) Hs) as [Hinv _].
  pose proof Hinv as [V1 V2 (n & V3a & _ & V3c) V4 V5 V6 V9 V7 V8]. split_and!.
  - by exists n.
  - done.
  - intros s' Hs'. by apply (sq_steps_inv router shards init Hi answers s s').
  - intros req q depth Hf Eq.
    destruct (handle_request_ok router shards init Hi s req q depth Hinv Hf Eq) as (s' & E & _ & Ho). by exists s'.
  - destruct (sq_done s); [|by apply V7]. by destruct (V8 eq_refl) as (_ & ? & ?).
Qed.

(** Two commands and an orderly shutdown. *)
Definition any_answer (inbox chan : nat) (err : option error) : Prop := True.
Definition demo_registry : SymbolRegistry :=
  match NewSymbolRegistry ["AAPL"; "BTCUSD"]%string 2 with Ret (inr r) => r | _ => mkSymbolRegistry 2 ∅ ∅ end.
Definition demo_order (symbol : string) : Command := mkCommand 0 symbol CommandNew 7 SideBuy OrderTypeLimit TIFGTC 100 5 0 0.
Definition sq0 : Sequencer SymbolRegistry := NewSequencer 4 5 2 demo_registry.
Definition sq1 : Sequencer SymbolRegistry := (SubmitBlocking ChooseSend (demo_order "AAPL") 1 sq0).2.
Definition sq2 : Sequencer SymbolRegistry := (SubmitNonBlocking (demo_order "BTCUSD") 2 sq1).2.
Definition handled_next (s : Sequencer SymbolRegistry) : Sequencer SymbolRegistry :=
  match sq_ingressQ s with
  | req :: q => match handle_request req 0 (set_queue q s) with Ret s' => s' | _ => s end
  | [] => s
  end.
Definition sq3 : Sequencer SymbolRegistry := (Shutdown ChooseSend 8 sq2).2.
Definition sq4 : Sequencer SymbolRegistry := handled_next (handled_next (handled_next sq3)).

Lemma demo_in_range : RouterInRange demo_registry 2.
Proof.
  apply (registry_in_range 2 ["AAPL"; "BTCUSD"]%string); [done|]. apply NewSymbolRegistry_built; [done|vm_compute; reflexivity].
Qed.

Lemma handled_step s req q :
  sq_free s = true -> sq_ingressQ s = req :: q -> sq_shards s = 2%nat ->
  (exists s', handle_request req 0 (set_queue q s) = Ret s') -> sq_step any_answer s (handled_next s).
Proof.
  intros Hf Eq Hn [s' E]. unfold handled_next. rewrite Eq, E. by eapply (ss_run _ req q 0).
Qed.

Lemma demo_sequencer_steps : sq_steps any_answer sq0 sq4.
Proof.
  apply (sqs_step _ _ (handled_next (handled_next sq3))); [apply (sqs_step _ _ (handled_next sq3)); [apply (sqs_step _ _ sq3)|]|].
  2-4: eapply handled_step; [vm_compute; reflexivity|vm_compute; reflexivity|reflexivity|eexists; vm_compute; reflexivity].
  apply (sqs_step _ _ sq2); [apply (sqs_step _ _ sq1); [apply (sqs_step _ _ sq0); [apply sqs_refl|]|]|].
  - apply (ss_submit _ ChooseSend). by vm_compute.
  - apply ss_try.
  - apply (ss_shutdown _ ChooseSend). by vm_compute.
Qed.

Lemma sequencer_correct_witness :
  sq_done sq4 = true /\ length (sent_commands (sq_actions sq4)) = 2%nat /\
  exists n, map (cmd_Seq ∘ snd) (sent_commands (sq_actions sq4)) = numbers 5 n /\ 5 + Z.of_nat n <= 18446744073709551616.
Proof.
  split; [vm_compute; reflexivity|]. split; [vm_compute; reflexivity|].
  assert (0 < 5 < 18446744073709551616) as Hi by lia.
  exact (proj1 (sequencer_correct demo_registry 2 4 5 any_answer sq4 demo_in_range Hi demo_sequencer_steps)).
Defined.

(** ** A shutdown that is cancelled *)

Section Stuck.
Context {R : Type} `{Router R} (router : R) (shards : nat) (init : Z).
Context `{!RouterInRange router shards}.

(** Closed, without a shutdown request. *)
Record stuck (s : Sequencer R) : Prop := {
  sk_closed : sq_closed s = true;
  sk_done : sq_done s = false;
  sk_queue : Forall (fun r => is_shutdown r = false) (sq_ingressQ s)
}.

Lemma fan_out_stuck release result inbox ferr (s : Sequencer R) :
  stuck s -> stuck (fan_out release result inbox ferr s).
Proof. intros Hs. unfold fan_out. destruct (inbox <? sq_shards s)%nat; by destruct Hs; split. Qed.

Context (answers : nat -> nat -> option error -> Prop).

Lemma stuck_step s s' : stuck s -> sq_step answers s s' -> stuck s'.
Proof.
  intros Hk Hs. pose proof Hk as [K1 K2 K3].
  destruct Hs as [req q depth s s' Hfree Eq Hh|rd err s Hw Ha|c s Hd Hr|c cmd reply s Hroom|cmd reply s
    |c result s Hroom|c result rel s Hroom|c received rel s|rel s|c d s Hroom].
  - rewrite Eq in K3. apply Forall_cons in K3 as [Hreq Hq].
    assert (stuck (set_queue q s)) as Hk' by by split.
    destruct req as [cmd reply|result|result rel|d]; cbn [handle_request] in Hh; [| | |done].
    + unfold handleCommand in Hh. repeat case_match; simplify_eq; by destruct Hk'; split.
    + injection Hh as <-. by apply fan_out_stuck.
    + injection Hh as <-. by apply fan_out_stuck.
  - by apply fan_out_stuck.
  - by split.
  - unfold SubmitBlocking. by rewrite K1.
  - unfold SubmitNonBlocking. by rewrite K1.
  - unfold Barrier. by rewrite K1.
  - unfold AcquireDrain. by rewrite K1.
  - unfold AcquireDrain_wait. destruct c; [destruct received|]; by split.
  - by split.
  - unfold Shutdown, markClosed. by rewrite K1.
Qed.

Lemma stuck_steps s s' : stuck s -> sq_steps answers s s' -> stuck s'.
Proof. intros Hk. induction 1 as [|s s' s'' _ IH Hs]; [done|]. eapply stuck_step; [by apply IH|exact Hs]. Qed.
End Stuck.

(** C39. A shutdown whose context ends before its request is queued can never be repeated.
    It returns the context's error and leaves the sequencer closed without a shutdown
    request: from then on, in every continuation, every further [Shutdown] waits for the
    goroutine and can only return the context's error, every submission is refused, and
    the goroutine never ends, so no inbox is ever closed.  ([Writer.Shutdown] reopens in this case.) *)
Theorem cancelled_shutdown_is_final {R : Type} `{Router R} (router : R) shards capacity init answers s d s' :
  RouterInRange router shards -> 0 < init < 18446744073709551616 ->
  sq_steps answers (NewSequencer capacity init shards router) s -> sq_closed s = false ->
  sq_steps answers (Shutdown ChooseOther d s).2 s' ->
  (Shutdown ChooseOther d s).1 = inl ErrContext /\ sq_done s' = false /\
  (forall a, a ∈ sq_actions s' -> is_close a = false) /\
  (forall c d', Shutdown c d' s' = (inr WaitGoroutine, s')) /\
  Shutdown_end WaitGoroutine ChooseSend s' = None /\ Shutdown_end WaitGoroutine ChooseOther s' = Some (Some ErrContext) /\
  (forall c cmd r, (SubmitBlocking c cmd r s').1 = Some ErrSequencerClosed /\
     (SubmitNonBlocking cmd r s').1 = Some ErrSequencerClosed).
Proof.
  intros Hr Hi Hs Hc Hs'. pose proof (sq_steps_inv router shards init Hi answers _ _ (new_inv router shards init Hi capacity) Hs) as [Hinv _].
  destruct (sv_open _ _ _ _ Hinv Hc) as [Hq Hd].
  unfold Shutdown, markClosed in Hs' |- *. rewrite Hc in Hs' |- *. cbn [fst snd] in Hs' |- *.
  assert (stuck (close_ingress s)) as Hk by by split.
  destruct (stuck_steps answers _ _ Hk Hs') as [K1 K2 K3].
  pose proof (close_inv router shards init s Hinv Hc) as Hinv1.
  destruct (sq_steps_inv router shards init Hi answers _ _ Hinv1 Hs') as [Hinv' _].
  split_and!; [done|done| | |by cbn; rewrite K2|done|].
  - pose proof (sv_running _ _ _ _ Hinv' K2) as Hall. by rewrite Forall_forall in Hall.
  - intros c d'. by rewrite K1.
  - intros c cmd r. unfold SubmitBlocking, SubmitNonBlocking. by rewrite K1.
Qed.

Lemma cancelled_shutdown_is_final_witness :
  (Shutdown ChooseOther 8 sq2).1 = inl ErrContext /\
  sq_done (handled_next (Shutdown ChooseOther 8 sq2).2) = false /\
  (forall c d', (Shutdown c d' (handled_next (Shutdown ChooseOther 8 sq2).2)).1 = inr WaitGoroutine) /\
  Shutdown_end WaitGoroutine ChooseSend (handled_next (Shutdown ChooseOther 8 sq2).2) = None.
Proof.
  assert (0 < 5 < 18446744073709551616) as Hi by lia.
  assert (sq_steps any_answer sq0 sq2) as Hs.
  { apply (sqs_step _ _ sq1); [apply (sqs_step _ _ sq0); [apply sqs_refl|]|].
    - apply (ss_submit _ ChooseSend). by vm_compute.
    - apply ss_try. }
  assert (sq_steps any_answer (Shutdown ChooseOther 8 sq2).2 (handled_next (Shutdown ChooseOther 8 sq2).2)) as Hn.
  { eapply sqs_step; [apply sqs_refl|].
    eapply handled_step; [vm_compute; reflexivity|vm_compute; reflexivity|reflexivity|eexists; vm_compute; reflexivity]. }
  destruct (cancelled_shutdown_is_final demo_registry 2 4 5 any_answer sq2 8 _ demo_in_range Hi Hs eq_refl Hn) as (H1 & H2 & _ & H3 & H4 & _).
  split; [exact H1|]. split; [exact H2|]. split; [|exact H4]. intros c d'. by rewrite H3.
Defined.
