(* ===== verification/Rounds.v ===== *)
(** * Rounds: barriers and drains pass every inbox, one after the other

    What the sequencer's loops over the inboxes establish, for any router and whatever
    the shards answer: a barrier or a drain that ends without an error was the last message
    of every inbox, and every shard has answered it without an error. *)

From S2P Require Import Prelude Model Registry Metrics Sequencer SequencerProps.

(** The messages sent to an inbox. *)
Definition inbox_messages (i : nat) (acts : list action) : list Routed :=
  omap (fun a => match a with Sent j msg => if decide (j = i) then Some msg else None | _ => None end) acts.

Lemma inbox_messages_app i a b : inbox_messages i (a ++ b) = inbox_messages i a ++ inbox_messages i b.
Proof. apply omap_app. Qed.

(** The channel a message is answered on. *)
Definition msg_chan (msg : Routed) : option nat :=
  match msg with RoutedCommand _ _ => None | RoutedBarrier c => Some c | RoutedDrain c _ => Some c end.
Definition act_chan (a : action) : option nat := match a with Sent _ msg => msg_chan msg | _ => None end.

Lemma round_msg_chan release c : msg_chan (round_msg release c) = Some c.
Proof. by destruct release. Qed.

Lemma inbox_chans i acts : omap msg_chan (inbox_messages i acts) `sublist_of` omap act_chan acts.
Proof.
  unfold inbox_messages. induction acts as [|[j msg|? ?|? ?|?|?] acts IH]; cbn; [done| |done..].
  destruct (decide (j = i)); cbn; destruct (msg_chan msg); try done; [by apply sublist_skip|by apply sublist_cons].
Qed.

(** A channel is used for one message. *)
Lemma one_message (msgs : list Routed) a m b a' m' b' c :
  NoDup (omap msg_chan msgs) -> msgs = a ++ m :: b -> msgs = a' ++ m' :: b' ->
  msg_chan m = Some c -> msg_chan m' = Some c -> a = a' /\ m = m' /\ b = b'.
Proof.
  intros Hnd -> E Hm Hm'. revert a' Hnd E. induction a as [|x a IH]; intros [|y a'] Hnd E; cbn in E.
  - by injection E as -> ->.
  - injection E as -> ->. cbn in Hnd. rewrite Hm, omap_app in Hnd. apply NoDup_cons in Hnd as [Hnot _]. destruct Hnot.
    apply elem_of_app. right. cbn. rewrite Hm'. by left.
  - injection E as -> <-. cbn in Hnd. rewrite Hm', omap_app in Hnd. apply NoDup_cons in Hnd as [Hnot _]. destruct Hnot.
    apply elem_of_app. right. cbn. rewrite Hm. by left.
  - injection E as -> E. destruct (IH a') as (-> & -> & ->); [|done|done]. cbn in Hnd.
    destruct (msg_chan y); [by apply NoDup_cons in Hnd as [_ ?]|done].
Qed.

Section Rounds.
Context {R : Type} `{Router R}.

(** The barrier or drain with [release] was the last message of inbox [j], and its shard
    has answered; when no error was found so far, without one. *)
Definition passed (answers : nat -> nat -> option error -> Prop) (release : option nat) (ferr : option error)
  (acts : list action) (j : nat) : Prop :=
  exists before c err, inbox_messages j acts = before ++ [round_msg release c] /\ answers j c err /\ (ferr = None -> err = None).

Record rounds (answers : nat -> nat -> option error -> Prop) (s : Sequencer R) : Prop := {
  rn_distinct : NoDup (omap act_chan (sq_actions s));
  rn_below : Forall (fun c => (c < sq_chans s)%nat) (omap act_chan (sq_actions s));
  rn_round : forall rd, sq_wait s = Some (AwaitAnswer rd) ->
    (exists pre, sq_actions s = pre ++ [Sent (rd_inbox rd) (round_msg (rd_release rd) (rd_chan rd))]) /\
    forall j, (j < rd_inbox rd)%nat -> passed answers (rd_release rd) (rd_firstErr rd) (sq_actions s) j;
  rn_release : forall rel, sq_wait s = Some (AwaitRelease rel) ->
    exists pre result ferr, sq_actions s = pre ++ [Resulted result ferr] /\
      forall j, (j < sq_shards s)%nat -> passed answers (Some rel) ferr pre j;
  rn_results : forall pre result post, sq_actions s = pre ++ Resulted result None :: post ->
    exists release, forall j, (j < sq_shards s)%nat -> passed answers release None pre j
}.

Lemma passed_more (answers answers' : nat -> nat -> option error -> Prop) release ferr acts j :
  (forall i c err, answers i c err -> answers' i c err) -> passed answers release ferr acts j -> passed answers' release ferr acts j.
Proof. intros Hm (before & c & err & H1 & H2 & H3). exists before, c, err. auto. Qed.

(** Answers are never taken back. *)
Lemma rounds_more (answers answers' : nat -> nat -> option error -> Prop) s :
  (forall i c err, answers i c err -> answers' i c err) -> rounds answers s -> rounds answers' s.
Proof.
  intros Hm [H1 H2 H3 H4 H5]. split; [done|done| | |].
  - intros rd Hw. destruct (H3 rd Hw) as [Hp Hall]. split; [done|]. intros j Hj. eapply passed_more; eauto.
  - intros rel Hw. destruct (H4 rel Hw) as (pre & result & ferr & E & Hall). exists pre, result, ferr. split; [done|].
    intros j Hj. eapply passed_more; eauto.
  - intros pre result post E. destruct (H5 pre result post E) as [release Hall]. exists release. intros j Hj. eapply passed_more; eauto.
Qed.

Lemma rounds_start answers capacity init shards router : rounds answers (NewSequencer capacity init shards router).
Proof.
  split; [constructor|constructor|done|done|]. intros pre result post E. cbn in E. symmetry in E. by apply app_nil in E as [_ ?].
Qed.

Context (answers : nat -> nat -> option error -> Prop).

(** Where a result is, in a list that grew. *)
Lemma result_split (acts more pre post : list action) x :
  acts ++ more = pre ++ x :: post -> (exists post', acts = pre ++ x :: post') \/ (exists mid, pre = acts ++ mid /\ more = mid ++ x :: post).
Proof.
  intros [(k & E1 & E2)|(k & E1 & E2)]%app_eq_inv.
  - destruct k as [|y k]; cbn in E2.
    + right. exists []. rewrite app_nil_r in E1. by rewrite app_nil_r.
    + injection E2 as <- ->. left. by exists k.
  - right. by exists k.
Qed.

(** States that agree on what the rounds are about. *)
Lemma rounds_same s s' :
  sq_actions s' = sq_actions s -> sq_chans s' = sq_chans s -> sq_wait s' = sq_wait s -> sq_shards s' = sq_shards s ->
  rounds answers s -> rounds answers s'.
Proof. intros E1 E2 E3 E4 [H1 H2 H3 H4 H5]. by split; rewrite ?E1, ?E2, ?E3, ?E4. Qed.

Lemma rounds_resume s : rounds answers s -> rounds answers (set_wait None s).
Proof. intros [H1 H2 H3 H4 H5]. by split. Qed.

(** Actions that are no part of a round, while none is under way. *)
Lemma rounds_act s acts :
  sq_wait s = None -> Forall (fun a => act_chan a = None) acts -> (forall result, Resulted result None ∉ acts) ->
  rounds answers s -> rounds answers (act acts s).
Proof.
  intros Hw Hacts Hres [H1 H2 H3 H4 H5].
  assert (omap act_chan acts = []) as Ec by (induction Hacts as [|a acts Ha _ IH]; [done|cbn; rewrite Ha; apply IH; set_solver]).
  split; cbn; rewrite ?Hw; try done; rewrite ?omap_app, ?Ec, ?app_nil_r; try done.
  intros pre result post [[post' E]|(mid & _ & E)]%result_split; [by eapply H5|].
  destruct (Hres result). rewrite E. apply elem_of_app. right. by left.
Qed.

(** The next inbox gets the message, or the round ends. *)
Lemma rounds_fan_out s release result inbox ferr :
  rounds answers s -> (forall j, (j < inbox)%nat -> passed answers release ferr (sq_actions s) j) ->
  rounds answers (fan_out release result inbox ferr s).
Proof.
  intros [H1 H2 H3 H4 H5] Hall. unfold fan_out. destruct (Nat.ltb_spec inbox (sq_shards s)) as [Hlt|Hge].
  - split; cbn; rewrite ?omap_app; cbn; rewrite ?round_msg_chan.
    + apply NoDup_app. split_and!; [done| |apply NoDup_singleton]. intros c Hc ->%list_elem_of_singleton.
      rewrite Forall_forall in H2. specialize (H2 _ Hc). lia.
    + apply Forall_app. split; [|apply Forall_singleton; lia]. eapply Forall_impl; [exact H2|]. cbn. lia.
    + intros rd [= <-]. cbn. split; [by eexists|]. intros j Hj. destruct (Hall j Hj) as (before & c & err & E & Ha).
      exists before, c, err. split; [|done]. rewrite inbox_messages_app, E. cbn. rewrite decide_False by lia. by rewrite app_nil_r.
    + done.
    + intros pre res post [[post' E]|(mid & _ & E)]%result_split; [by eapply H5|]. destruct mid as [|? [|]]; done.
  - split; cbn; rewrite ?omap_app; cbn; rewrite ?app_nil_r; try done.
    + intros rd Hw. by destruct release.
    + intros rel Hw. destruct release as [rel'|]; [|done]. injection Hw as ->. exists (sq_actions s), result, ferr. split; [done|].
      intros j Hj. apply Hall. lia.
    + intros pre res post [[post' E]|(mid & -> & E)]%result_split; [by eapply H5|]. destruct mid as [|? [|]]; try done.
      injection E as <- -> <-. rewrite app_nil_r. exists release. intros j Hj. apply Hall. lia.
Qed.

Lemma rounds_answer s rd err :
  rounds answers s -> sq_wait s = Some (AwaitAnswer rd) -> answers (rd_inbox rd) (rd_chan rd) err ->
  rounds answers (fan_answer rd err s).
Proof.
  intros Hr Hw Ha. unfold fan_answer. apply rounds_fan_out; [done|]. destruct (rn_round _ _ Hr rd Hw) as [[pre E] Hall].
  intros j Hj. assert (first_of (rd_firstErr rd) err = None -> rd_firstErr rd = None /\ err = None) as Hf
    by (unfold first_of; destruct err, (rd_firstErr rd); done).
  destruct (decide (j = rd_inbox rd)) as [->|Hne].
  - eexists _, (rd_chan rd), err. split; [|split; [done|by intros [_ ?]%Hf]]. rewrite E, inbox_messages_app. cbn.
    by rewrite decide_True by done.
  - destruct (Hall j ltac:(lia)) as (before & c & e & H1 & H2 & H3). exists before, c, e. split_and!; [done|done|]. intros [? _]%Hf. auto.
Qed.

Lemma rounds_handle s req depth s' :
  rounds answers s -> sq_wait s = None -> handle_request req depth s = Ret s' -> rounds answers s'.
Proof.
  intros Hr Hw. destruct req as [cmd reply|result|result rel|d]; cbn [handle_request].
  - unfold handleCommand. destruct (router_ShardFor _ _) as [id|].
    2:{ intros [= <-]. apply (rounds_act (sees IncRejected s)); [done|by repeat constructor|by intros ? ?%list_elem_of_singleton|]. by apply (rounds_same s). }
    destruct (_ =? 0); [intros [= <-]; apply rounds_act; [done|by repeat constructor|by intros ? ?%list_elem_of_singleton|done]|].
    destruct (_ && _); [|done]. intros [= <-].
    apply (rounds_act (sees (ObserveShardQueueDepth depth) (set_nextSeq (u64_add (sq_nextSeq s) 1) s)));
      [done|by repeat constructor|by intros ? ?%list_elem_of_singleton|]. by apply (rounds_same s).
  - intros [= <-]. apply rounds_fan_out; [done|lia].
  - intros [= <-]. apply rounds_fan_out; [done|lia].
  - intros [= <-]. set (closes := map ClosedInbox (seq 0 (sq_shards s)) ++ [ClosedDone d]).
    apply (rounds_same (act closes s)); [done..|]. apply rounds_act; [done| | |done]; unfold closes.
    + apply Forall_app. split; [|by repeat constructor]. by apply Forall_map, Forall_forall.
    + intros result [(i & ? & _)%list_elem_of_fmap|?%list_elem_of_singleton]%elem_of_app; done.
Qed.

Lemma rounds_step s s' : rounds answers s -> sq_step answers s s' -> rounds answers s'.
Proof.
  intros Hr Hs. destruct Hs as [req q depth s s' Hfree Eq Hh|rd err s Hw Ha|c s Hd Hrel|c cmd reply s Hroom|cmd reply s
    |c result s Hroom|c result rel s Hroom|c received rel s|rel s|c d s Hroom];
    try (apply (rounds_same s); unfold SubmitBlocking, SubmitNonBlocking, Barrier, AcquireDrain, AcquireDrain_wait, Shutdown, markClosed;
      by repeat (case_match; simplify_eq/=)).
  - eapply (rounds_handle (set_queue q s)); [|by destruct (free_running s Hfree)|exact Hh]. by apply (rounds_same s).
  - by apply rounds_answer.
  - by apply rounds_resume.
Qed.

(** The release channels that are closed stay closed. *)
Lemma released_step s s' : sq_step answers s s' -> sq_released s ⊆ sq_released s'.
Proof.
  intros Hs. destruct Hs as [req q depth s s' Hfree Eq Hh|rd err s Hw Ha|c s Hd Hrel|c cmd reply s Hroom|cmd reply s
    |c result s Hroom|c result rel s Hroom|c received rel s|rel s|c d s Hroom];
    try (unfold SubmitBlocking, SubmitNonBlocking, Barrier, AcquireDrain, AcquireDrain_wait, Shutdown, markClosed;
      repeat (case_match; simplify_eq/=); set_solver).
  - destruct req as [cmd reply|result|result rel|d]; cbn [handle_request] in Hh.
    + unfold handleCommand in Hh. by repeat (case_match; simplify_eq/=).
    + injection Hh as <-. by destruct (fan_out_ok None result 0 None (set_queue q s)) as (a & [_ _ _ _ _ _ -> _] & _).
    + injection Hh as <-. by destruct (fan_out_ok (Some rel) result 0 None (set_queue q s)) as (a & [_ _ _ _ _ _ -> _] & _).
    + by injection Hh as <-.
  - unfold fan_answer. by destruct (fan_out_ok (rd_release rd) (rd_result rd) (S (rd_inbox rd)) (first_of (rd_firstErr rd) err) s)
      as (a & [_ _ _ _ _ _ -> _] & _).
Qed.
End Rounds.
