(* ===== verification/Loop.v ===== *)
(** * Loop: the goroutine of a shard (internal/shard/loop.go)

    The loop applies commands to its books, hands each with its result to the log
    writer, and replies when the writer has acknowledged it.  What the writer
    answers (the result of [AppendAsync] and [Flush], the value of an ack channel)
    is an argument of the operations; LoopProps connects it with the writer. *)

From S2P Require Import Prelude Model Book Codec Fs Recovery Metrics Sequencer.

Record pendingCommand := mkPendingCommand {
  pc_sequence : Z;
  pc_result : Result;
  pc_reply : nat;
  pc_ack : nat
}.

(** The fields of [Loop], the local variables of [run], and what was sent: replies on
    reply channels, and the error of each barrier and drain. *)
Record Loop := mkLoop {
  lp_id : Z;
  lp_books : gmap string Book;
  lp_wal : bool;                              (* [l.wal != nil] *)
  lp_lastAppliedSeq : Z;
  lp_failedErr : option error;
  lp_observed : list observation;             (* told to the metrics sink *)
  lp_inbox : bool;                            (* [inbox != nil] in [run] *)
  lp_drain : option nat;                      (* the [DrainWait] channel [run] waits for *)
  lp_pending : list pendingCommand;
  lp_replies : list (nat * Outcome);
  lp_flushes : list (nat * option error)
}.

Definition set_books (b : gmap string Book) (l : Loop) : Loop :=
  mkLoop (lp_id l) b (lp_wal l) (lp_lastAppliedSeq l) (lp_failedErr l) (lp_observed l) (lp_inbox l) (lp_drain l)
    (lp_pending l) (lp_replies l) (lp_flushes l).
Definition set_lastApplied (s : Z) (l : Loop) : Loop :=
  mkLoop (lp_id l) (lp_books l) (lp_wal l) s (lp_failedErr l) (lp_observed l) (lp_inbox l) (lp_drain l)
    (lp_pending l) (lp_replies l) (lp_flushes l).
Definition set_failed (e : option error) (l : Loop) : Loop :=
  mkLoop (lp_id l) (lp_books l) (lp_wal l) (lp_lastAppliedSeq l) e (lp_observed l) (lp_inbox l) (lp_drain l)
    (lp_pending l) (lp_replies l) (lp_flushes l).
Definition observed (o : observation) (l : Loop) : Loop :=
  mkLoop (lp_id l) (lp_books l) (lp_wal l) (lp_lastAppliedSeq l) (lp_failedErr l)
    (lp_observed l ++ [o]) (lp_inbox l) (lp_drain l) (lp_pending l) (lp_replies l) (lp_flushes l).
Definition close_inbox (l : Loop) : Loop :=
  mkLoop (lp_id l) (lp_books l) (lp_wal l) (lp_lastAppliedSeq l) (lp_failedErr l) (lp_observed l) false (lp_drain l)
    (lp_pending l) (lp_replies l) (lp_flushes l).
Definition set_drain (w : option nat) (l : Loop) : Loop :=
  mkLoop (lp_id l) (lp_books l) (lp_wal l) (lp_lastAppliedSeq l) (lp_failedErr l) (lp_observed l) (lp_inbox l) w
    (lp_pending l) (lp_replies l) (lp_flushes l).
Definition set_pending (p : list pendingCommand) (l : Loop) : Loop :=
  mkLoop (lp_id l) (lp_books l) (lp_wal l) (lp_lastAppliedSeq l) (lp_failedErr l) (lp_observed l) (lp_inbox l) (lp_drain l)
    p (lp_replies l) (lp_flushes l).
Definition reply (r : list (nat * Outcome)) (l : Loop) : Loop :=
  mkLoop (lp_id l) (lp_books l) (lp_wal l) (lp_lastAppliedSeq l) (lp_failedErr l) (lp_observed l) (lp_inbox l) (lp_drain l)
    (lp_pending l) (lp_replies l ++ r) (lp_flushes l).
Definition flush_reply (r : nat * option error) (l : Loop) : Loop :=
  mkLoop (lp_id l) (lp_books l) (lp_wal l) (lp_lastAppliedSeq l) (lp_failedErr l) (lp_observed l) (lp_inbox l) (lp_drain l)
    (lp_pending l) (lp_replies l) (lp_flushes l ++ [r]).

(** [newLoop]: the books come from the snapshots where there is one. *)
Definition newLoop (id : Z) (symbols : list string) (wal : bool) (snapshots : gmap string Snapshot)
  : outcome Loop :=
  let? books := openBooks snapshots symbols ∅ in
  Ret (mkLoop id books wal 0 None [] true None [] [] []).

(** [snapshots]: the books in the order of their symbols. *)
Fixpoint snapshots_of (books : gmap string Book) (syms : list string) : outcome (list Snapshot) :=
  match syms with
  | [] => Ret []
  | sym :: syms' =>
      match books !! sym with
      | None => Panic
      | Some b =>
          let? r := Book_Snapshot b in
          let? out := snapshots_of books syms' in
          Ret (r.1 :: out)
      end
  end.
Definition sorted_keys (books : gmap string Book) : list string :=
  merge_sort string_le (map fst (map_to_list books)).
Definition snapshots (l : Loop) : outcome (list Snapshot) := snapshots_of (lp_books l) (sorted_keys (lp_books l)).
Definition lastApplied (l : Loop) : Z := lp_lastAppliedSeq l.

(** ** Replying *)

Definition hasRejected (result : Result) : bool :=
  existsb (fun event => ev_Type event =? EventRejected) (res_Events result).

Definition completeCommand (sequence : Z) (result : Result) (r : nat) (l : Loop) : Loop :=
  let l := set_lastApplied sequence l in
  let l := if hasRejected result then observed IncRejected l else observed IncAccepted l in
  reply [(r, outcome_ok result)] l.

Definition failPending (err : error) (l : Loop) : Loop :=
  let l := set_failed (Some err) l in
  let l := reply (map (fun c => (pc_reply c, outcome_err err)) (lp_pending l)) l in
  set_pending [] l.

Definition append_failed (l : Loop) (err : error) : error :=
  Wrapf "wal append failed on shard %d: %w" [ANum (lp_id l)] err.

Definition completeNext (err : option error) (l : Loop) : outcome Loop :=
  match lp_pending l with
  | [] => Panic
  | command :: rest =>
      let l := set_pending rest l in
      match err with
      | Some e =>
          let failed := append_failed l e in
          let l := set_failed (Some failed) l in
          let l := reply [(pc_reply command, outcome_err failed)] l in
          Ret (failPending failed l)
      | None => Ret (completeCommand (pc_sequence command) (pc_result command) (pc_reply command) l)
      end
  end.

(** [recv ack] is the value the ack channel delivers. *)
Fixpoint completeAll_loop (fuel : nat) (recv : nat -> option error) (l : Loop) : outcome Loop :=
  match lp_pending l with
  | [] => Ret l
  | command :: _ =>
      match fuel with
      | O => OutOfFuel
      | S fuel' =>
          let? l := completeNext (recv (pc_ack command)) l in
          completeAll_loop fuel' recv l
      end
  end.
Definition completeAll (recv : nat -> option error) (l : Loop) : outcome Loop :=
  completeAll_loop (length (lp_pending l)) recv l.

(** [flushed] is what the writer's [Flush] returns. *)
Definition flushWAL (flushed : option error) (l : Loop) : option error * Loop :=
  match lp_failedErr l with
  | Some err => (Some err, l)
  | None =>
      if negb (lp_wal l) then (None, l)
      else match flushed with
           | None => (None, l)
           | Some err =>
               let e := Wrapf "wal flush failed on shard %d: %w" [ANum (lp_id l)] err in
               (Some e, set_failed (Some e) l)
           end
  end.

Definition flushPending (flushed : option error) (recv : nat -> option error) (l : Loop)
  : outcome (option error * Loop) :=
  match flushWAL flushed l with
  | (Some err, l) => Ret (Some err, failPending err l)
  | (None, l) =>
      let? l := completeAll recv l in
      Ret (lp_failedErr l, l)
  end.

(** ** Commands *)

(** The record of a command and its result. *)
Definition record_of (l : Loop) (cmd : Command) (result : Result) : Record_ :=
  mkRecord (wrap_u16 (lp_id l)) (cmd_Seq cmd) cmd result.

(** [appended] is what [AppendAsync] returns for the record. *)
Definition enqueueCommand (cmd : Command) (r : nat) (appended : error + nat) (l : Loop) : outcome Loop :=
  match lp_failedErr l with
  | Some err => Ret (reply [(r, outcome_err err)] l)
  | None =>
      match lp_books l !! cmd_Symbol cmd with
      | None => Ret (reply [(r, outcome_ok (invalid_symbol (cmd_Seq cmd) cmd))] (observed IncRejected l))
      | Some bookForSymbol =>
          let? applied := Apply cmd bookForSymbol in
          let '(result, b') := applied in
          let l := set_books (<[cmd_Symbol cmd := b']> (lp_books l)) l in
          if negb (lp_wal l) then Ret (completeCommand (cmd_Seq cmd) result r l)
          else match appended with
               | inl err =>
                   let failed := append_failed l err in
                   let l := failPending failed l in
                   Ret (reply [(r, outcome_err failed)] l)
               | inr ack =>
                   Ret (set_pending (lp_pending l ++ [mkPendingCommand (cmd_Seq cmd) result r ack]) l)
               end
      end
  end.

(** ** The loop *)

Definition maxPendingCommands : nat := 1024.

(** What the [select] of [run] receives, with what the writer answers meanwhile, and
    the end of the wait that follows a drain. *)
Inductive loop_event :=
| OnCommand (cmd : Command) (r : nat) (appended : error + nat)
| OnBarrier (done : nat) (flushed : option error) (recv : nat -> option error)
| OnDrain (ack wait : nat) (flushed : option error) (recv : nat -> option error)
| OnReleased
| OnClosed
| OnAck (err : option error).

Definition drained (l : Loop) : bool := match lp_drain l with Some _ => true | None => false end.
Definition has_pending (l : Loop) : bool := match lp_pending l with [] => false | _ => true end.

Definition loop_ready (ev : loop_event) (l : Loop) : bool :=
  match ev with
  | OnReleased => drained l
  | OnAck _ => negb (drained l) && has_pending l
  | _ => negb (drained l) && lp_inbox l && (length (lp_pending l) <? maxPendingCommands)%nat
  end.

Definition loop_iteration (ev : loop_event) (l : Loop) : outcome Loop :=
  match ev with
  | OnCommand cmd r appended => enqueueCommand cmd r appended l
  | OnBarrier done flushed recv =>
      let? p := flushPending flushed recv l in Ret (flush_reply (done, p.1) p.2)
  | OnDrain ack wait flushed recv =>
      let? p := flushPending flushed recv l in Ret (set_drain (Some wait) (flush_reply (ack, p.1) p.2))
  | OnReleased => Ret (set_drain None l)
  | OnClosed => Ret (close_inbox l)
  | OnAck err => completeNext err l
  end.

(** [for inbox != nil || len(pending) > 0]. *)
Definition loop_running (l : Loop) : bool :=
  lp_inbox l || has_pending l.

(** The channel [Done] gives is closed when [run] has returned. *)
Definition loop_done (l : Loop) : bool := negb (loop_running l).

(** The deferred shutdown of the writer, which returns [closed]. *)
Definition loop_end (closed : option error) (l : Loop) : Loop :=
  if negb (lp_wal l) then l
  else match closed, lp_failedErr l with
       | Some err, None => set_failed (Some (Wrapf "wal shutdown failed on shard %d: %w" [ANum (lp_id l)] err)) l
       | _, _ => l
       end.
