(* ===== verification/LoopProps.v ===== *)
(** * LoopProps: what the replies of a shard mean

    The invariant of the shard loop: its books are the result of the records it has
    handed to the log, and it has replied with the results of an acknowledged prefix
    of them. *)

From S2P Require Import Prelude Model Book BookSpec BookRep BookApply BookWalk BookTrace.
From S2P Require Import Codec Recovery RecoveryProps Metrics Sequencer Loop.

(** ** Histories of concatenated logs *)

Lemma history_app P last A recs1 l1 A1 recs2 l2 A2 :
  history P last A recs1 l1 A1 -> history P l1 A1 recs2 l2 A2 -> history P last A (recs1 ++ recs2) l2 A2.
Proof. induction 1; intros Hrest; [done|by apply hist_old; auto|by eapply hist_new; eauto]. Qed.

Lemma history_app_inv P last A recs1 recs2 l2 A2 :
  history P last A (recs1 ++ recs2) l2 A2 ->
  exists l1 A1, history P last A recs1 l1 A1 /\ history P l1 A1 recs2 l2 A2.
Proof.
  revert last A. induction recs1 as [|rec recs1 IH]; intros last A H.
  { exists last, A. split; [constructor|done]. }
  simpl in H. inversion H; subst.
  - destruct (IH _ _ ltac:(eassumption)) as (l1 & A1 & Ha & Hb). exists l1, A1. split; [by apply hist_old|done].
  - destruct (IH _ _ ltac:(eassumption)) as (l1 & A1 & Ha & Hb). exists l1, A1. split; [by eapply hist_new|done].
Qed.

Lemma history_prefix P last A recs1 recs l2 A2 :
  recs1 `prefix_of` recs -> history P last A recs l2 A2 -> exists l1 A1, history P last A recs1 l1 A1.
Proof. intros [rest ->] H. destruct (history_app_inv _ _ _ _ _ _ _ H) as (l1 & A1 & H1 & _). eauto. Qed.

Lemma history_snoc P last A recs l1 A1 rec s :
  history P last A recs l1 A1 -> l1 < rec_CommandSeq rec -> P (cmd_Symbol (rec_Command rec)) ->
  A1 !! cmd_Symbol (rec_Command rec) = Some s -> rec_Result rec = (spec_Apply (rec_Command rec) s).1 ->
  history P last A (recs ++ [rec]) (rec_CommandSeq rec)
    (<[cmd_Symbol (rec_Command rec) := (spec_Apply (rec_Command rec) s).2]> A1).
Proof. intros H ????. eapply history_app; [exact H|]. eapply hist_new; try done. constructor. Qed.

Lemma history_bounds P last A recs last' A' :
  history P last A recs last' A' -> last <= last' /\ Forall (fun r => rec_CommandSeq r <= last') recs.
Proof. induction 1; destruct_and?; split; try lia; try constructor; try done; lia. Qed.

(** ** The log of a loop *)

(** A record handed to the writer, its ack channel and its reply channel. *)
Record entry := mkEntry { en_rec : Record_; en_ack : nat; en_reply : nat }.

(** The entries whose result was sent, those that wait for their ack, and those given
    up when the shard failed; together the log. *)
Record ledger := mkLedger { gh_done : list entry; gh_wait : list entry; gh_lost : list entry }.
Definition gh_log (g : ledger) : list entry := gh_done g ++ gh_wait g ++ gh_lost g.
Definition gh_recs (g : ledger) : list Record_ := map en_rec (gh_log g).

Definition pending_of (e : entry) : pendingCommand :=
  mkPendingCommand (rec_CommandSeq (en_rec e)) (rec_Result (en_rec e)) (en_reply e) (en_ack e).

(** The number of the last record. *)
Definition log_last (last0 : Z) (recs : list Record_) : Z := default last0 (rec_CommandSeq <$> last recs).

Lemma log_last_snoc last0 recs rec : log_last last0 (recs ++ [rec]) = rec_CommandSeq rec.
Proof. unfold log_last. by rewrite last_snoc. Qed.

Section Inv.
Context (P : string -> Prop) (last0 : Z) (A0 : state) (U : Command -> Prop).
Context (HP : forall sym, is_Some (A0 !! sym) -> P sym).

(** A reply without an error is the result of an entry that is done, or rejects a
    symbol the shard does not have; commands for such symbols are in [U]. *)
Definition explained (g : ledger) (p : nat * Outcome) : Prop :=
  match oc_Err p.2 with
  | Some _ => True
  | None => (exists e, e ∈ gh_done g /\ p = (en_reply e, outcome_ok (rec_Result (en_rec e)))) \/
            (exists cmd, U cmd /\ A0 !! cmd_Symbol cmd = None /\ oc_Result p.2 = invalid_symbol (cmd_Seq cmd) cmd)
  end.

(** The result of an entry that is done was sent. *)
Definition sent_in (replies : list (nat * Outcome)) (e : entry) : Prop :=
  (en_reply e, outcome_ok (rec_Result (en_rec e))) ∈ replies.

Lemma sent_more replies more es : Forall (sent_in replies) es -> Forall (sent_in (replies ++ more)) es.
Proof. intros H. eapply Forall_impl; [exact H|]. intros e He. apply elem_of_app. by left. Qed.

(** [A] are the books after all records of the log, [top] bounds their numbers. *)
Record loop_inv (l : Loop) (g : ledger) (A : state) (top : Z) : Prop := {
  li_wal : lp_wal l = true;
  li_hist : history P last0 A0 (gh_recs g) (log_last last0 (gh_recs g)) A;
  li_top : log_last last0 (gh_recs g) <= top;
  li_books : lp_failedErr l = None -> books_rep (lp_books l) A;
  li_dom : forall sym, is_Some (A !! sym) <-> is_Some (A0 !! sym);
  li_pending : lp_pending l = map pending_of (gh_wait g);
  li_lost : lp_failedErr l = None -> gh_lost g = [];
  li_failed : lp_failedErr l <> None -> gh_wait g = [];
  li_last : lp_lastAppliedSeq l = default last0 (rec_CommandSeq ∘ en_rec <$> last (gh_done g));
  li_replies : Forall (explained g) (lp_replies l);
  li_done : Forall (sent_in (lp_replies l)) (gh_done g)
}.

(** What one event did: the log grew by [new], and [moved] was completed. *)
Record advanced (g g' : ledger) (new moved : list entry) : Prop := {
  ad_log : gh_log g' = gh_log g ++ new;
  ad_done : gh_done g' = gh_done g ++ moved;
  ad_wait : moved `prefix_of` gh_wait g
}.

Lemma advanced_refl g : advanced g g [] [].
Proof. split; [by rewrite app_nil_r|by rewrite app_nil_r|apply prefix_nil]. Qed.

Lemma explained_more g g' new moved p : advanced g g' new moved -> explained g p -> explained g' p.
Proof.
  intros Ha. unfold explained. destruct (oc_Err p.2); [done|]. intros [(e & He & Hp)|?]; [left|by right].
  exists e. split; [|done]. rewrite (ad_done _ _ _ _ Ha). apply elem_of_app. by left.
Qed.

(** Giving up what waits. *)
Definition fail_all (g : ledger) : ledger := mkLedger (gh_done g) [] (gh_wait g ++ gh_lost g).

Lemma fail_all_log g : gh_log (fail_all g) = gh_log g.
Proof. done. Qed.

Lemma fail_all_advanced g : advanced g (fail_all g) [] [].
Proof. split; [by rewrite app_nil_r|simpl; by rewrite app_nil_r|apply prefix_nil]. Qed.

Lemma failPending_inv l g A top err : loop_inv l g A top -> loop_inv (failPending err l) (fail_all g) A top.
Proof.
  intros [H1 H2 Htop H3 H4 H5 H6 H7 H8 H9 H10]. split; simpl; try done; [|by apply sent_more].
  apply Forall_app. split.
  - eapply Forall_impl; [exact H9|]. intros p. by eapply explained_more; [apply fail_all_advanced].
  - apply Forall_map, Forall_forall. by intros c _.
Qed.

Lemma reply_error_inv l g A top r err :
  loop_inv l g A top -> loop_inv (reply [(r, outcome_err err)] l) g A top.
Proof.
  intros [H1 H2 Htop H3 H4 H5 H6 H7 H8 H9 H10]. split; simpl; try done; [|by apply sent_more].
  apply Forall_app. split; [done|]. by constructor.
Qed.

(** The first waiting entry is acknowledged. *)
Lemma complete_inv l g A top e rest :
  loop_inv l g A top -> gh_wait g = e :: rest ->
  loop_inv (completeCommand (rec_CommandSeq (en_rec e)) (rec_Result (en_rec e)) (en_reply e)
              (set_pending (map pending_of rest) l))
    (mkLedger (gh_done g ++ [e]) rest (gh_lost g)) A top /\
  advanced g (mkLedger (gh_done g ++ [e]) rest (gh_lost g)) [] [e].
Proof.
  intros [H1 H2 Htop H3 H4 H5 H6 H7 H8 H9 H10] Ew.
  assert (advanced g (mkLedger (gh_done g ++ [e]) rest (gh_lost g)) [] [e]) as Ha.
  { split; [|done|rewrite Ew; by exists rest]. unfold gh_log. simpl. rewrite Ew, app_nil_r. by rewrite <-app_assoc. }
  split; [|done]. unfold completeCommand. split.
  - by destruct (hasRejected _).
  - unfold gh_recs. rewrite (ad_log _ _ _ _ Ha), app_nil_r. exact H2.
  - unfold gh_recs. rewrite (ad_log _ _ _ _ Ha), app_nil_r. exact Htop.
  - by destruct (hasRejected _).
  - done.
  - by destruct (hasRejected _).
  - by destruct (hasRejected _).
  - destruct (hasRejected _); simpl; intros Hf; specialize (H7 Hf); congruence.
  - simpl. rewrite last_snoc. by destruct (hasRejected _).
  - assert (forall l', lp_replies l' = lp_replies l -> Forall (explained (mkLedger (gh_done g ++ [e]) rest (gh_lost g)))
      (lp_replies (reply [(en_reply e, outcome_ok (rec_Result (en_rec e)))] l'))) as Hrep.
    { intros l' E. simpl. rewrite E. apply Forall_app. split.
      - eapply Forall_impl; [exact H9|]. intros p. by eapply explained_more.
      - constructor; [|constructor]. left. exists e. split; [|done]. simpl. apply elem_of_app. right. by left. }
    destruct (hasRejected _); by apply Hrep.
  - assert (Forall (sent_in (lp_replies l ++ [(en_reply e, outcome_ok (rec_Result (en_rec e)))])) (gh_done g ++ [e])) as Hsent.
    { apply Forall_app. split; [by apply sent_more|]. apply Forall_singleton. apply elem_of_app. right. by left. }
    by destruct (hasRejected _).
Qed.

(** An acknowledgement completes the first waiting entry or fails the shard. *)
Lemma completeNext_inv l g A top e rest err :
  loop_inv l g A top -> gh_wait g = e :: rest ->
  exists l' g' moved, completeNext err l = Ret l' /\ loop_inv l' g' A top /\ advanced g g' [] moved /\
    lp_id l' = lp_id l /\
    match err with
    | None => moved = [e] /\ gh_wait g' = rest /\ lp_failedErr l' = lp_failedErr l
    | Some _ => moved = [] /\ gh_wait g' = []
    end.
Proof.
  intros Hinv Ew. unfold completeNext. rewrite (li_pending _ _ _ _ Hinv), Ew. cbn [map].
  destruct err as [err|].
  - eexists _, (fail_all g), []. split; [reflexivity|]. split_and!; try done; [|apply fail_all_advanced].
    destruct Hinv as [H1 H2 Htop H3 H4 H5 H6 H7 H8 H9 H10]. split; simpl; try done; rewrite <-app_assoc; [|by apply sent_more].
    apply Forall_app. split.
    + eapply Forall_impl; [exact H9|]. intros p. by eapply explained_more; [apply fail_all_advanced].
    + constructor; [done|]. apply Forall_map, Forall_forall. by intros c _.
  - destruct (complete_inv _ _ _ _ _ _ Hinv Ew) as [H1 H2].
    eexists _, _, [e]. split; [reflexivity|]. split_and!; [exact H1|exact H2| |done|done|];
      unfold completeCommand; by destruct (hasRejected _).
Qed.

Lemma advanced_trans g1 g2 g3 m1 m2 :
  advanced g1 g2 [] m1 -> gh_wait g1 = m1 ++ gh_wait g2 -> advanced g2 g3 [] m2 -> advanced g1 g3 [] (m1 ++ m2).
Proof.
  intros [H1 H2 H3] Hw [H4 H5 H6]. split.
  - by rewrite H4, H1, !app_nil_r.
  - by rewrite H5, H2, app_assoc.
  - rewrite Hw. by apply prefix_app.
Qed.

(** [completeAll] ends: every turn shortens the pending list. *)
Lemma completeAll_inv recv n l g A top :
  loop_inv l g A top -> (length (gh_wait g) <= n)%nat ->
  exists l' g' moved, completeAll_loop n recv l = Ret l' /\ loop_inv l' g' A top /\
    advanced g g' [] moved /\ gh_wait g' = [] /\ Forall (fun e => recv (en_ack e) = None) moved.
Proof.
  revert l g. induction n as [|n IH]; intros l g Hinv Hn;
    destruct (gh_wait g) as [|e rest] eqn:Ew; simpl in Hn; try lia.
  1,2: exists l, g, []; unfold completeAll_loop; rewrite (li_pending _ _ _ _ Hinv), Ew; simpl;
       split_and!; [done|done|apply advanced_refl|done|constructor].
  simpl. rewrite (li_pending _ _ _ _ Hinv), Ew. cbn [map].
  destruct (completeNext_inv _ _ _ _ e rest (recv (en_ack e)) Hinv Ew)
    as (l1 & g1 & m1 & E1 & Hinv1 & Had1 & _ & Herr).
  change (pc_ack (pending_of e)) with (en_ack e). rewrite E1. cbn [obind].
  destruct (IH l1 g1 Hinv1) as (l2 & g2 & m2 & E2 & Hinv2 & Had2 & Hw2 & Hm2).
  { destruct (recv (en_ack e)); [destruct Herr as [_ ->]|destruct Herr as (_ & -> & _)]; simpl; lia. }
  destruct (recv (en_ack e)) as [err|] eqn:Er.
  - destruct Herr as [-> Hw1]. exists l2, g2, []. split_and!; try done.
    destruct (ad_wait _ _ _ _ Had2) as [k Hk]. rewrite Hw1 in Hk. symmetry in Hk. apply app_nil in Hk as [-> _].
    destruct Had1 as [A1 A2 A3], Had2 as [B1 B2 B3]. split.
    + by rewrite B1, A1, !app_nil_r.
    + by rewrite B2, A2, !app_nil_r.
    + apply prefix_nil.
  - destruct Herr as (-> & Hw1 & _). exists l2, g2, (e :: m2). split_and!; try done.
    + change (e :: m2) with ([e] ++ m2). eapply advanced_trans; [exact Had1| |exact Had2]. by rewrite Hw1, Ew.
    + by constructor.
Qed.

Lemma flushPending_inv flushed recv l g A top :
  loop_inv l g A top ->
  exists err l' g' moved, flushPending flushed recv l = Ret (err, l') /\ loop_inv l' g' A top /\
    advanced g g' [] moved /\ gh_wait g' = [] /\ Forall (fun e => recv (en_ack e) = None) moved /\
    err = lp_failedErr l'.
Proof.
  intros Hinv. unfold flushPending, flushWAL. rewrite (li_wal _ _ _ _ Hinv). cbn [negb].
  destruct (lp_failedErr l) as [err|] eqn:Ef.
  { eexists _, _, (fail_all g), []. split; [reflexivity|].
    split_and!; [by apply failPending_inv|apply fail_all_advanced|done|constructor|done]. }
  destruct flushed as [err|].
  { eexists _, _, (fail_all g), []. split; [reflexivity|].
    split_and!; [|apply fail_all_advanced|done|constructor|done].
    pose proof (failPending_inv l g A top (Wrapf "wal flush failed on shard %d: %w" [ANum (lp_id l)] err) Hinv) as H.
    exact H. }
  assert (length (gh_wait g) <= length (lp_pending l))%nat as Hlen.
  { rewrite (li_pending _ _ _ _ Hinv). by rewrite length_map. }
  destruct (completeAll_inv recv _ l g A top Hinv Hlen) as (l' & g' & moved & E & H1 & H2 & H3 & H4).
  unfold completeAll. rewrite E. cbn [obind]. by exists (lp_failedErr l'), l', g', moved.
Qed.

(** ** One event *)

(** The record an event hands to the writer. *)
Definition append_of (ev : loop_event) (l : Loop) : option Record_ :=
  match ev with
  | OnCommand cmd r _ =>
      match lp_failedErr l, lp_books l !! cmd_Symbol cmd with
      | None, Some b => match Apply cmd b with Ret p => Some (record_of l cmd p.1) | _ => None end
      | _, _ => None
      end
  | _ => None
  end.

(** The entries it adds to the log. *)
Definition new_of (ev : loop_event) (l : Loop) : list entry :=
  match ev, append_of ev l with
  | OnCommand _ r (inr ack), Some rec => [mkEntry rec ack r]
  | _, _ => []
  end.

(** Which entries an event can complete, by the acks it receives. *)
Definition completed_by (ev : loop_event) (moved : list entry) : Prop :=
  match ev with
  | OnAck err => moved = [] \/ err = None /\ length moved = 1%nat
  | OnBarrier _ _ recv | OnDrain _ _ _ recv => Forall (fun e => recv (en_ack e) = None) moved
  | _ => moved = []
  end.

(** Commands arrive with increasing numbers. *)
Definition admissible (ev : loop_event) (top top' : Z) : Prop :=
  match ev with
  | OnCommand cmd _ _ => command_typed cmd /\ top < cmd_Seq cmd /\ top' = cmd_Seq cmd
  | _ => top' = top
  end.

Lemma loop_inv_top l g A top top' : loop_inv l g A top -> top <= top' -> loop_inv l g A top'.
Proof.
  intros [H1 H2 Hle H3 H4 H5 H6 H7 H8 H9 H10] ?. split; try done. lia.
Qed.

Lemma invalid_inv l g A top cmd r :
  loop_inv l g A top -> A0 !! cmd_Symbol cmd = None -> U cmd ->
  loop_inv (reply [(r, outcome_ok (invalid_symbol (cmd_Seq cmd) cmd))] (observed IncRejected l)) g A top.
Proof.
  intros [H1 H2 Htop H3 H4 H5 H6 H7 H8 H9 H10] E HU. split; simpl; try done; [|by apply sent_more].
  apply Forall_app. split; [done|]. constructor; [|constructor]. right. by exists cmd.
Qed.

(** A command that reaches its book and the log. *)
Lemma append_inv l g A top cmd r ack s b' :
  loop_inv l g A top -> lp_failedErr l = None -> command_typed cmd -> top < cmd_Seq cmd ->
  A !! cmd_Symbol cmd = Some s -> book_ok s -> repr b' (spec_Apply cmd s).2 ->
  let rec := record_of l cmd (spec_Apply cmd s).1 in
  loop_inv (Loop.set_pending (lp_pending l ++ [mkPendingCommand (cmd_Seq cmd) (spec_Apply cmd s).1 r ack])
              (set_books (<[cmd_Symbol cmd := b']> (lp_books l)) l))
    (mkLedger (gh_done g) (gh_wait g ++ [mkEntry rec ack r]) (gh_lost g))
    (<[cmd_Symbol cmd := (spec_Apply cmd s).2]> A) (cmd_Seq cmd).
Proof.
  intros [H1 H2 Hle H3 H4 H5 H6 H7 H8 H9 H10] Hf Ht Hlt Es Hok Hrep rec.
  assert (gh_recs (mkLedger (gh_done g) (gh_wait g ++ [mkEntry rec ack r]) (gh_lost g)) = gh_recs g ++ [rec]) as Erecs.
  { unfold gh_recs, gh_log. simpl. rewrite (H6 Hf), !app_nil_r, !map_app. simpl. by rewrite <-app_assoc. }
  split; simpl; try done.
  - rewrite Erecs, log_last_snoc. apply (history_snoc P last0 A0 (gh_recs g) _ A rec s H2); simpl; try done; [lia|].
    apply HP, H4. by eexists.
  - by rewrite Erecs, log_last_snoc.
  - intros _. apply books_rep_insert; [by apply H3|]. split; [done|]. by apply spec_Apply_ok.
  - intros sym. destruct (decide (sym = cmd_Symbol cmd)) as [->|Hne].
    + rewrite lookup_insert_eq, <-H4. split; intros _; eauto.
    + rewrite lookup_insert_ne by done. apply H4.
  - rewrite map_app. by rewrite H5.
Qed.

(** A command for a symbol without a book is in [U]. *)
Definition known (ev : loop_event) : Prop :=
  match ev with
  | OnCommand cmd _ _ => A0 !! cmd_Symbol cmd = None -> U cmd
  | _ => True
  end.

(** Every event the loop can take is handled, and keeps the invariant. *)
Lemma loop_step ev l g A top top' :
  loop_inv l g A top -> admissible ev top top' -> known ev -> loop_ready ev l = true ->
  exists l' g' A' moved, loop_iteration ev l = Ret l' /\ loop_inv l' g' A' top' /\
    advanced g g' (new_of ev l) moved /\ completed_by ev moved.
Proof.
  intros Hinv Hadm Hknown Hready. destruct ev as [cmd r appended|done flushed recv|ack wait flushed recv| | |err]; simpl in Hadm, Hknown.
  - destruct Hadm as (Ht & Hlt & ->). cbn [loop_iteration]. unfold new_of, append_of, enqueueCommand.
    destruct (lp_failedErr l) as [err|] eqn:Ef.
    { eexists _, g, A, []. split; [reflexivity|]. split_and!; [|destruct appended; apply advanced_refl|done].
      apply reply_error_inv. eapply loop_inv_top; [done|lia]. }
    pose proof (li_books _ _ _ _ Hinv Ef (cmd_Symbol cmd)) as Hsym.
    destruct (lp_books l !! cmd_Symbol cmd) as [b|]; inversion Hsym as [? s [Hrep Hok] E1 E2|E1 E2]; subst.
    2:{ eexists _, g, A, []. split; [reflexivity|]. split_and!; [|destruct appended; apply advanced_refl|done].
        assert (A0 !! cmd_Symbol cmd = None) as Hnone.
        { apply eq_None_not_Some. intros H. apply (li_dom _ _ _ _ Hinv) in H. rewrite <-E2 in H. by destruct H. }
        apply invalid_inv; [eapply loop_inv_top; [done|lia]|done|auto]. }
    destruct (Apply_repr cmd b s Ht Hrep Hok) as (b' & -> & Hrep'). cbn [obind fst].
    cbn [set_books lp_wal]. rewrite (li_wal _ _ _ _ Hinv). cbn [negb].
    destruct appended as [err|ack].
    + eexists _, (fail_all g), A, []. split; [reflexivity|]. split_and!; [|apply fail_all_advanced|done].
      apply reply_error_inv. eapply loop_inv_top; [|apply Z.lt_le_incl; exact Hlt].
      destruct (failPending_inv l g A top (append_failed l err) Hinv) as [H1 H2 Htop H3 H4 H5 H6 H7 H8 H9 H10]. by split.
    + eexists _, _, _, []. split; [reflexivity|]. split_and!;
        [exact (append_inv l g A top cmd r ack s b' Hinv Ef Ht Hlt (eq_sym E2) Hok Hrep')| |done].
      split; simpl; [|by rewrite app_nil_r|apply prefix_nil]. unfold gh_log. simpl.
      by rewrite (li_lost _ _ _ _ Hinv Ef), !app_nil_r, app_assoc.
  - subst. cbn [loop_iteration]. destruct (flushPending_inv flushed recv l g A top Hinv)
      as (e & l' & g' & moved & -> & H1 & H2 & H3 & H4 & _). cbn [obind].
    eexists _, g', A, moved. split; [reflexivity|]. split_and!; [|done|done]. by destruct H1; split.
  - subst. cbn [loop_iteration]. destruct (flushPending_inv flushed recv l g A top Hinv)
      as (e & l' & g' & moved & -> & H1 & H2 & H3 & H4 & _). cbn [obind].
    eexists _, g', A, moved. split; [reflexivity|]. split_and!; [|done|done]. by destruct H1; split.
  - subst. eexists _, g, A, []. split; [reflexivity|]. split_and!; [|apply advanced_refl|done].
    by destruct Hinv; split.
  - subst. eexists _, g, A, []. split; [reflexivity|]. split_and!; [|apply advanced_refl|done].
    by destruct Hinv; split.
  - subst. simpl in Hready. apply andb_true_iff in Hready as [_ Hready]. unfold has_pending in Hready.
    rewrite (li_pending _ _ _ _ Hinv) in Hready. destruct (gh_wait g) as [|e rest] eqn:Ew; [done|].
    destruct (completeNext_inv l g A top e rest err Hinv Ew) as (l' & g' & moved & E & H1 & H2 & _ & H3).
    exists l', g', A, moved. split_and!; [done|done|done|].
    destruct err; destruct H3 as [-> _]; [by left|by right].
Qed.
End Inv.

(** ** Barriers and drains *)

(** What handling commands and acknowledgements leaves alone, or only adds to. *)
Record calm (l l' : Loop) : Prop := {
  cm_flushes : lp_flushes l' = lp_flushes l;
  cm_drain : lp_drain l' = lp_drain l;
  cm_inbox : lp_inbox l' = lp_inbox l;
  cm_failed : lp_failedErr l' = None -> lp_failedErr l = None;
  cm_replies : lp_replies l `prefix_of` lp_replies l'
}.

#[export] Instance calm_preorder : PreOrder calm.
Proof.
  split; [by intros l; split|]. intros l1 l2 l3 [H1 H2 H0 H3 H4] [H5 H6 H9 H7 H8].
  split; [congruence|congruence|congruence|auto|by etrans].
Qed.

Lemma reply_calm r l : calm l (reply r l).
Proof. split; [done|done|done|done|]. by eexists. Qed.
Lemma failPending_calm err l : calm l (failPending err l).
Proof. split; [done|done|done|done|]. by eexists. Qed.
Lemma completeCommand_calm sequence result r l : calm l (completeCommand sequence result r l).
Proof. unfold completeCommand. destruct (hasRejected result); (split; [done|done|done|done|by eexists]). Qed.

Lemma completeNext_calm err l l' : completeNext err l = Ret l' -> calm l l'.
Proof.
  unfold completeNext. destruct (lp_pending l) as [|c rest]; [done|]. destruct err as [e|]; intros [= <-].
  - etrans; [|apply failPending_calm]. split; [done|done|done|done|]. by eexists.
  - etrans; [|apply completeCommand_calm]. by split.
Qed.

Lemma completeAll_calm n recv l l' : completeAll_loop n recv l = Ret l' -> calm l l' /\ lp_pending l' = [].
Proof.
  revert l. induction n as [|n IH]; intros l; cbn [completeAll_loop]; destruct (lp_pending l) as [|c rest] eqn:Ep;
    try (by intros [= <-]).
  destruct (completeNext _ _) as [l1| |] eqn:E; cbn [obind]; [|done|done]. intros H. destruct (IH _ H) as [Hc Hp].
  split; [|done]. etrans; [by eapply completeNext_calm|done].
Qed.

(** A flush answers with the state of the shard, and nothing waits any more. *)
Lemma flushPending_calm flushed recv l err l' :
  flushPending flushed recv l = Ret (err, l') -> calm l l' /\ lp_pending l' = [] /\ err = lp_failedErr l'.
Proof.
  unfold flushPending, flushWAL. destruct (lp_failedErr l) as [e|] eqn:Ef.
  { intros [= <- <-]. split; [apply failPending_calm|done]. }
  assert (forall p, (let? l1 := completeAll recv l in Ret (lp_failedErr l1, l1)) = Ret p ->
    calm l p.2 /\ lp_pending p.2 = [] /\ p.1 = lp_failedErr p.2) as Hall.
  { unfold completeAll. destruct (completeAll_loop _ _ _) as [l1| |] eqn:E; cbn [obind]; [|done|done]. intros p [= <-].
    destruct (completeAll_calm _ _ _ _ E). done. }
  destruct (lp_wal l); cbn [negb].
  - destruct flushed as [e|]; [|apply (Hall (err, l'))]. intros [= <- <-]. split; [|done].
    etrans; [|apply failPending_calm]. by split.
  - apply (Hall (err, l')).
Qed.

Lemma enqueueCommand_calm cmd r appended l l' : enqueueCommand cmd r appended l = Ret l' -> calm l l'.
Proof.
  unfold enqueueCommand. destruct (lp_failedErr l) as [e|] eqn:Ef; [intros [= <-]; apply reply_calm|].
  destruct (lp_books l !! _) as [b|]; [|intros [= <-]; split; [done|done|done|done|by eexists]].
  destruct (Apply cmd b) as [[res b']| |]; cbn [obind]; [|done|done].
  assert (forall books, calm l (set_books books l)) as Hb by by split.
  destruct (negb _); [intros [= <-]; etrans; [apply Hb|apply completeCommand_calm]|].
  destruct appended as [err|ack]; intros [= <-].
  - etrans; [apply Hb|]. etrans; [apply failPending_calm|apply reply_calm].
  - by split.
Qed.

(** The answer an event gives to a barrier or a drain. *)
Definition flush_of (ev : loop_event) : list nat :=
  match ev with OnBarrier c _ _ | OnDrain c _ _ _ => [c] | _ => [] end.

Lemma iteration_effects ev l l' :
  loop_iteration ev l = Ret l' ->
  (lp_failedErr l' = None -> lp_failedErr l = None) /\
  lp_replies l `prefix_of` lp_replies l' /\
  lp_flushes l' = lp_flushes l ++ map (fun c => (c, lp_failedErr l')) (flush_of ev) /\
  lp_drain l' = match ev with OnDrain _ wait _ _ => Some wait | OnReleased => None | _ => lp_drain l end /\
  lp_inbox l' = match ev with OnClosed => false | _ => lp_inbox l end /\
  (flush_of ev <> [] -> lp_pending l' = []).
Proof.
  destruct ev as [cmd r appended|c flushed recv|c wait flushed recv| | |err]; cbn [loop_iteration flush_of map];
    rewrite ?app_nil_r; intros Hi.
  - destruct (enqueueCommand_calm _ _ _ _ _ Hi). done.
  - destruct (flushPending _ _ _) as [[e l1]| |] eqn:E; cbn [obind] in Hi; [|done|done]. injection Hi as <-.
    destruct (flushPending_calm _ _ _ _ _ E) as ([H1 H2 H0 H3 H4] & Hp & ->). cbn. by rewrite H1.
  - destruct (flushPending _ _ _) as [[e l1]| |] eqn:E; cbn [obind] in Hi; [|done|done]. injection Hi as <-.
    destruct (flushPending_calm _ _ _ _ _ E) as ([H1 H2 H0 H3 H4] & Hp & ->). cbn. by rewrite H1.
  - by injection Hi as <-.
  - by injection Hi as <-.
  - destruct (completeNext_calm _ _ _ Hi). done.
Qed.

(** ** Answers *)

(** The reply channels of an event and of a state: answered, or waiting. *)
Definition reply_of (ev : loop_event) : list nat := match ev with OnCommand _ r _ => [r] | _ => [] end.
Definition held (l : Loop) : list nat := map fst (lp_replies l) ++ map pc_reply (lp_pending l).

Lemma held_fail err l : held (failPending err l) = held l.
Proof. unfold held. simpl. rewrite map_app, map_map, app_nil_r. simpl. done. Qed.

Lemma held_completeNext err l l' : completeNext err l = Ret l' -> held l' = held l.
Proof.
  unfold completeNext, held. destruct (lp_pending l) as [|c rest] eqn:Ep; [done|]. destruct err as [e|].
  - intros [= <-]. simpl. rewrite !map_app, map_map, app_nil_r. simpl. by rewrite <-app_assoc.
  - intros [= <-]. unfold completeCommand. destruct (hasRejected _); simpl; rewrite map_app; simpl; by rewrite <-app_assoc.
Qed.

Lemma held_completeAll n recv l l' : completeAll_loop n recv l = Ret l' -> held l' = held l.
Proof.
  revert l. induction n as [|n IH]; intros l; simpl; destruct (lp_pending l) as [|c rest]; try (by intros [= <-]).
  destruct (completeNext _ _) as [l1| |] eqn:E; simpl; [|done|done]. intros H. rewrite (IH _ H). by eapply held_completeNext.
Qed.

Lemma held_flushPending flushed recv l err l' : flushPending flushed recv l = Ret (err, l') -> held l' = held l.
Proof.
  unfold flushPending, flushWAL.
  destruct (lp_failedErr l); [intros [= _ <-]; apply held_fail|]. destruct (lp_wal l); simpl.
  - destruct flushed as [e|]; [intros [= _ <-]; by rewrite held_fail|].
    unfold completeAll. destruct (completeAll_loop _ _ _) as [l1| |] eqn:E; simpl; [|done|done].
    intros [= _ <-]. by eapply held_completeAll.
  - unfold completeAll. destruct (completeAll_loop _ _ _) as [l1| |] eqn:E; simpl; [|done|done].
    intros [= _ <-]. by eapply held_completeAll.
Qed.

(** The replies and the waiting commands are the commands received, each once. *)
Lemma held_step ev l l' : loop_iteration ev l = Ret l' -> held l' ≡ₚ held l ++ reply_of ev.
Proof.
  destruct ev as [cmd r appended|done flushed recv|ack wait flushed recv| | |err]; simpl;
    try rewrite app_nil_r.
  - unfold enqueueCommand. destruct (lp_failedErr l).
    { intros [= <-]. unfold held. simpl. rewrite map_app. simpl. solve_Permutation. }
    destruct (lp_books l !! _) as [b|].
    2:{ intros [= <-]. unfold held. simpl. rewrite map_app. simpl. solve_Permutation. }
    destruct (Apply cmd b) as [[res b']| |]; simpl; [|done|done]. destruct (lp_wal l); simpl.
    + destruct appended; intros [= <-].
      * unfold held. simpl. rewrite !map_app, map_map, app_nil_r. simpl. solve_Permutation.
      * unfold held. simpl. rewrite map_app. simpl. solve_Permutation.
    + intros [= <-]. unfold completeCommand. destruct (hasRejected res); unfold held; simpl;
        rewrite map_app; simpl; solve_Permutation.
  - destruct (flushPending _ _ _) as [[e l1]| |] eqn:E; simpl; [|done|done]. intros [= <-].
    by rewrite <-(held_flushPending _ _ _ _ _ E).
  - destruct (flushPending _ _ _) as [[e l1]| |] eqn:E; simpl; [|done|done]. intros [= <-].
    by rewrite <-(held_flushPending _ _ _ _ _ E).
  - by intros [= <-].
  - by intros [= <-].
  - intros H. by rewrite (held_completeNext _ _ _ H).
Qed.

(** ** Runs *)

(** [served top0 l0 evs log top l]: after the events [evs] the loop is in [l], has
    handed the entries [log] to the writer, and the numbers up to [top] are used. *)
Inductive served (top0 : Z) (l0 : Loop) : list loop_event -> list entry -> Z -> Loop -> Prop :=
| served_start : served top0 l0 [] [] top0 l0
| served_event evs log top l ev top' l' :
    served top0 l0 evs log top l -> loop_ready ev l = true -> admissible ev top top' ->
    loop_iteration ev l = Ret l' -> served top0 l0 (evs ++ [ev]) (log ++ new_of ev l) top' l'.

Definition no_entries : ledger := mkLedger [] [] [].

(** A loop that starts from a snapshot or recovered books. *)
Lemma newLoop_inv id symbols restored last0 U :
  map_Forall (fun _ s => book_ok s) restored ->
  exists l, newLoop id symbols true restored = Ret l /\
    loop_inv (fun sym => sym ∈ symbols) last0 (initial restored symbols) U (set_lastApplied last0 l) no_entries
      (initial restored symbols) last0 /\ held l = [] /\ lp_id l = id /\ lp_drain l = None /\
    lp_failedErr l = None /\ lp_pending l = [].
Proof.
  intros Hok. destruct (openBooks_ok restored symbols ∅ ∅ Hok books_rep_empty) as (books & E & Hb).
  unfold newLoop. rewrite E. cbn [obind]. eexists. split; [reflexivity|]. split; [|done].
  split; simpl; try done. constructor.
Qed.

(** Nothing is known of the commands. *)
Definition any_command (_ : Command) : Prop := True.

Lemma known_any A0 ev : known A0 any_command ev.
Proof. by destruct ev. Qed.

Section Runs.
Context (P : string -> Prop) (last0 : Z) (A0 : state).
Context (HP : forall sym, is_Some (A0 !! sym) -> P sym).

Lemma served_inv top0 l0 evs log top l :
  loop_inv P last0 A0 any_command l0 no_entries A0 top0 -> held l0 = [] -> served top0 l0 evs log top l ->
  exists g A, loop_inv P last0 A0 any_command l g A top /\ gh_log g = log /\ held l ≡ₚ concat (map reply_of evs).
Proof.
  intros H0 Hh0. induction 1 as [|evs log top l ev top' l' Hs IH Hr Ha Hi].
  { exists no_entries, A0. by rewrite Hh0. }
  destruct IH as (g & A & Hinv & Hlog & Hheld).
  destruct (loop_step P last0 A0 any_command HP ev l g A top top' Hinv Ha (known_any _ _) Hr) as (l1 & g' & A' & moved & E & Hinv' & Had & _).
  assert (l1 = l') as -> by congruence. exists g', A'. split_and!; [done|by rewrite (ad_log _ _ _ _ Had), Hlog|].
  rewrite (held_step _ _ _ Hi), map_app, concat_app, Hheld. simpl. by rewrite app_nil_r.
Qed.
End Runs.

Lemma initial_symbols restored symbols sym : is_Some (initial restored symbols !! sym) -> sym ∈ symbols.
Proof.
  unfold initial. assert (forall A : state, is_Some (fold_left (fun A sym =>
    <[sym := default (empty_snapshot sym 1) (restored !! sym)]> A) symbols A !! sym) ->
    is_Some (A !! sym) \/ sym ∈ symbols) as H.
  { induction symbols as [|s symbols IH]; intros A; simpl; [by left|]. intros [H|H]%IH; [|right; by right].
    destruct (decide (sym = s)) as [->|Hne]; [right; by left|]. rewrite lookup_insert_ne in H by done. by left. }
  intros [H1|H1]%H; [|done]. rewrite lookup_empty in H1. by destruct H1.
Qed.

(** A failed shard touches no book and hands nothing to the writer. *)
Lemma failed_stops ev l l' :
  lp_failedErr l <> None -> loop_iteration ev l = Ret l' -> lp_pending l = [] -> lp_wal l = true ->
  lp_books l' = lp_books l /\ append_of ev l = None /\ lp_failedErr l' = lp_failedErr l /\
  lp_lastAppliedSeq l' = lp_lastAppliedSeq l.
Proof.
  intros Hf Hi Hp Hw. destruct (lp_failedErr l) as [err|] eqn:Ef; [|done].
  destruct ev as [cmd r appended|done flushed recv|ack wait flushed recv| | |e];
    simpl in *; unfold enqueueCommand, flushPending, flushWAL, completeNext in Hi; rewrite ?Ef, ?Hp in *; simpl in Hi;
    simplify_eq/=; by rewrite ?Ef.
Qed.

(** ** Properties *)

(** C9. What a shard loop does, whatever its writer answers.  From recovered books, after
    any events with increasing command numbers: the records it handed to the writer are
    a history of its symbols, that is, each carries the result the reference semantics
    gives after the ones before it, and while the shard has not failed its books are the
    outcome of that history.  Its replies without an error are results of a prefix of
    these records (or reject a symbol the shard does not have), the last of that prefix
    is the shard's watermark, and the records after it are the ones that wait.  Each
    command is answered once or waits.  The next event is handled without a panic, and
    after a failure no event touches a book, the watermark or the log. *)
Theorem shard_loop_correct id symbols restored last0 l0 evs log top l :
  map_Forall (fun _ s => book_ok s) restored -> newLoop id symbols true restored = Ret l0 ->
  served last0 (set_lastApplied last0 l0) evs log top l ->
  let A0 := initial restored symbols in
  exists A lastL n,
    history (fun sym => sym ∈ symbols) last0 A0 (map en_rec log) lastL A /\
    (lp_failedErr l = None -> books_rep (lp_books l) A /\ lp_pending l = map pending_of (drop n log)) /\
    Forall (fun p => oc_Err p.2 = None ->
      (exists e, e ∈ take n log /\ p = (en_reply e, outcome_ok (rec_Result (en_rec e)))) \/
      (exists cmd, A0 !! cmd_Symbol cmd = None /\ oc_Result p.2 = invalid_symbol (cmd_Seq cmd) cmd))
      (lp_replies l) /\
    lastApplied l = default last0 (rec_CommandSeq ∘ en_rec <$> last (take n log)) /\
    map fst (lp_replies l) ++ map pc_reply (lp_pending l) ≡ₚ concat (map reply_of evs) /\
    forall ev top', loop_ready ev l = true -> admissible ev top top' ->
      exists l', loop_iteration ev l = Ret l' /\
        (lp_failedErr l <> None -> lp_books l' = lp_books l /\ append_of ev l = None /\
           lp_failedErr l' = lp_failedErr l /\ lastApplied l' = lastApplied l).
Proof.
  intros Hok E0 Hs A0. destruct (newLoop_inv id symbols restored last0 any_command Hok) as (l1 & E1 & Hinv0 & Hh & _).
  assert (l1 = l0) as -> by congruence.
  pose proof (initial_symbols restored symbols) as HP. fold A0 in Hinv0, HP.
  destruct (served_inv _ last0 A0 HP _ _ _ _ _ _ Hinv0 Hh Hs) as (g & A & Hinv & <- & Hheld).
  pose proof (li_hist _ _ _ _ _ _ _ _ Hinv) as Hhist.
  eexists A, _, (length (gh_done g)).
  assert (take (length (gh_done g)) (gh_log g) = gh_done g) as -> by (unfold gh_log; apply take_app_length).
  split_and!; [done| | |apply Hinv|done|].
  - intros Hf. split; [by apply (li_books _ _ _ _ _ _ _ _ Hinv)|]. unfold gh_log. rewrite drop_app_length.
    rewrite (li_lost _ _ _ _ _ _ _ _ Hinv Hf), app_nil_r. apply Hinv.
  - eapply Forall_impl; [apply (li_replies _ _ _ _ _ _ _ _ Hinv)|]. intros p Hp Ee. unfold explained in Hp.
    rewrite Ee in Hp. destruct Hp as [?|(cmd & _ & ?)]; [by left|right; by exists cmd].
  - intros ev top' Hr Ha. destruct (loop_step _ last0 A0 any_command HP ev l g A top top' Hinv Ha (known_any _ _) Hr) as (l' & _ & _ & _ & E & _).
    exists l'. split; [done|]. intros Hf. apply failed_stops; [done|done| |apply Hinv].
    by rewrite (li_pending _ _ _ _ _ _ _ _ Hinv), (li_failed _ _ _ _ _ _ _ _ Hinv Hf).
Qed.

(** A shard with one symbol: one command acknowledged, one that waits. *)
Definition fallback_loop : Loop := mkLoop 0 ∅ true 0 None [] true None [] [] [].
Definition ran (o : outcome Loop) : Loop := match o with Ret l => l | _ => fallback_loop end.
Definition shard0 : Loop := ran (newLoop 0 ["AAPL"]%string true ∅).
Definition shard1 : Loop := ran (loop_iteration (OnCommand c1 10 (inr 20%nat)) (set_lastApplied 0 shard0)).
Definition shard2 : Loop := ran (loop_iteration (OnCommand c3 11 (inr 21%nat)) shard1).
Definition shard3 : Loop := ran (loop_iteration (OnAck None) shard2).
Definition shard_log : list entry :=
  new_of (OnCommand c1 10 (inr 20%nat)) (set_lastApplied 0 shard0) ++ new_of (OnCommand c3 11 (inr 21%nat)) shard1 ++
  new_of (OnAck None) shard2.

Lemma shard_served :
  served 0 (set_lastApplied 0 shard0) [OnCommand c1 10 (inr 20%nat); OnCommand c3 11 (inr 21%nat); OnAck None] shard_log 3 shard3.
Proof.
  change [OnCommand c1 10 (inr 20%nat); OnCommand c3 11 (inr 21%nat); OnAck None] with
    ((([] ++ [OnCommand c1 10 (inr 20%nat)]) ++ [OnCommand c3 11 (inr 21%nat)]) ++ [OnAck None]).
  replace shard_log with ((([] ++ new_of (OnCommand c1 10 (inr 20%nat)) (set_lastApplied 0 shard0)) ++
    new_of (OnCommand c3 11 (inr 21%nat)) shard1) ++ new_of (OnAck None) shard2) by by rewrite <-!app_assoc.
  repeat (eapply served_event; [| | |vm_compute; reflexivity]).
  - apply served_start.
  - by vm_compute.
  - split_and!; [by repeat split|by vm_compute|done].
  - by vm_compute.
  - split_and!; [by repeat split|by vm_compute|done].
  - by vm_compute.
  - done.
Qed.

Lemma shard_loop_correct_witness :
  newLoop 0 ["AAPL"]%string true ∅ = Ret shard0 /\ length shard_log = 2%nat /\ length (lp_replies shard3) = 1%nat /\
  exists A lastL n, history (fun sym => sym ∈ ["AAPL"]%string) 0 (initial ∅ ["AAPL"]%string) (map en_rec shard_log) lastL A /\
    (lp_failedErr shard3 = None -> books_rep (lp_books shard3) A /\ lp_pending shard3 = map pending_of (drop n shard_log)) /\
    lastApplied shard3 = default 0 (rec_CommandSeq ∘ en_rec <$> last (take n shard_log)).
Proof.
  assert (newLoop 0 ["AAPL"]%string true ∅ = Ret shard0) as E0 by by vm_compute.
  split; [exact E0|]. split; [by vm_compute|]. split; [by vm_compute|].
  pose proof (shard_loop_correct 0 ["AAPL"]%string ∅ 0 shard0 _ shard_log 3 shard3 (map_Forall_empty _) E0 shard_served) as H.
  cbv zeta in H. destruct H as (A & lastL & n & H1 & H2 & _ & H4 & _).
  exists A, lastL, n. split; [exact H1|]. split; [exact H2|exact H4].
Defined.
