(* ===== verification/Typed.v ===== *)
(** * Typed: what a book reports can be logged

    The events of a command fit the machine types of their fields, so the record the
    shard builds from them is one the codec can store and give back. *)

From S2P Require Import Prelude Model Book BookSpec BookRep BookApply BookWalk BookTrace.
From S2P Require Import Bytes Codec CodecFacts Metrics Sequencer Loop.

(** Small constants are typed by computation. *)
Ltac field_typed := first [assumption | vm_compute; split; congruence | int_lia].

Lemma ev_rejected_typed reason id : is_u16 reason -> is_u64 id -> event_typed (ev_rejected reason id).
Proof. intros. split; simpl; field_typed. Qed.
Lemma ev_accepted_typed id : is_u64 id -> event_typed (ev_accepted id).
Proof. intros. split; simpl; field_typed. Qed.
Lemma ev_trade_typed tid maker taker price qty :
  is_u64 tid -> is_u64 maker -> is_u64 taker -> is_i64 price -> is_i64 qty ->
  event_typed (ev_trade tid maker taker price qty).
Proof. intros. split; simpl; field_typed. Qed.
Lemma ev_reduced_typed id leaves : is_u64 id -> is_i64 leaves -> event_typed (ev_reduced id leaves).
Proof. intros. split; simpl; field_typed. Qed.
Lemma ev_rested_typed id price leaves :
  is_u64 id -> is_i64 price -> is_i64 leaves -> event_typed (ev_rested id price leaves).
Proof. intros. split; simpl; field_typed. Qed.
Lemma ev_canceled_typed id qty reason :
  is_u64 id -> is_i64 qty -> is_u8 reason -> event_typed (ev_canceled id qty reason).
Proof. intros. split; simpl; field_typed. Qed.
Lemma ev_replaced_typed id price leaves retained :
  is_u64 id -> is_i64 price -> is_i64 leaves -> event_typed (ev_replaced id price leaves retained).
Proof. intros. split; simpl; field_typed. Qed.

Create HintDb typed.
#[export] Hint Resolve ev_rejected_typed ev_accepted_typed ev_trade_typed ev_reduced_typed : typed.
#[export] Hint Resolve ev_rested_typed ev_canceled_typed ev_replaced_typed : typed.

Lemma reject_reason_typed c : is_u16 (ValidationRejectReason c).
Proof. unfold ValidationRejectReason. repeat case_match; vm_compute; split; congruence. Qed.

Lemma log2_small a n : 0 < n -> 0 <= a < 2 ^ n -> Z.log2 a < n.
Proof.
  intros Hn Ha. destruct (Z.eq_dec a 0) as [->|Hne]; [done|]. apply Z.log2_lt_pow2; lia.
Qed.

Lemma lor_small a b n : 0 < n -> 0 <= a < 2 ^ n -> 0 <= b < 2 ^ n -> 0 <= Z.lor a b < 2 ^ n.
Proof.
  intros Hn Ha Hb. assert (0 <= Z.lor a b) as H0 by (apply Z.lor_nonneg; lia). split; [done|].
  destruct (Z.eq_dec (Z.lor a b) 0) as [->|Hne]; [lia|]. apply Z.log2_lt_pow2; [lia|].
  rewrite Z.log2_lor by lia. apply Z.max_lub_lt; by apply log2_small.
Qed.

Lemma trade_id_typed seq nts : is_u64 seq -> is_u64 nts -> is_u64 (trade_id seq nts).
Proof.
  intros Hs Hn. unfold trade_id, is_u64, u64_shl. change 18446744073709551616 with (2 ^ 64). apply lor_small.
  - done.
  - exact (wrap_u64_range (seq ≪ 20)).
  - change (Z.shiftl 1 20 - 1) with (Z.ones 20). rewrite Z.land_ones by lia.
    pose proof (Z.mod_pos_bound nts (2 ^ 20)). lia.
Qed.

(** ** Matching *)

Lemma fill_events_typed isBid seq taker nts fs :
  is_u64 seq -> is_u64 taker -> is_u64 nts -> Forall fill_ok fs -> Forall (order_ok isBid) (map fst fs) ->
  Forall event_typed (fill_events seq taker nts fs).
Proof.
  intros Hs Ht Hn Hf. revert nts Hn. induction Hf as [|[o q] fs Hq Hf IH]; intros nts Hn Ho; [constructor|].
  cbn [map] in Ho. apply Forall_cons in Ho as [[_ H2 H3 H4 _] Ho]. unfold fill_ok in Hq. cbn [fst snd] in *.
  cbn [fill_events]. constructor; [apply ev_trade_typed; [apply trade_id_typed; assumption|exact H4|exact Ht|int_lia|int_lia]|].
  apply Forall_app. split; [|apply IH; [apply wrap_u64_range|exact Ho]].
  destruct (_ =? 0); [constructor|]. apply Forall_singleton, ev_reduced_typed; [exact H4|int_lia].
Qed.

Lemma fill_events_length seq taker nts fs :
  (length (fill_events seq taker nts fs) <= 2 * length fs)%nat.
Proof.
  revert nts. induction fs as [|[o q] fs IH]; intros nts; cbn [fill_events length]; [lia|].
  rewrite length_app. specialize (IH (u64_add nts 1)). destruct (_ =? 0); cbn [length]; lia.
Qed.

Lemma taken_orders isBid qty os fs q r : Forall (order_ok isBid) os -> taken isBid qty os fs q r ->
  Forall (order_ok isBid) (map fst fs) /\ (length fs <= length os)%nat.
Proof.
  intros Ho Ht. destruct (tk_prefix _ _ _ _ _ _ Ht) as [k Hk]. rewrite Hk in Ho |- *.
  apply Forall_app in Ho as [Ho _]. split; [done|]. rewrite length_app, length_map. lia.
Qed.

(** The events of a match are typed, and at most two per order of the book. *)
Lemma spec_match_typed seq id side limit qty s :
  core_ok s -> 0 <= qty -> is_u64 seq -> is_u64 id ->
  let '(evs, rem, s') := spec_match seq id side limit qty s in
  Forall event_typed evs /\ (length evs <= 2 * length (book_orders s))%nat.
Proof.
  intros [Hb Ha _ Hn] Hq Hs Hid. unfold spec_match, book_orders.
  destruct (side =? SideBuy).
  - pose proof (take_levels_taken false (price_ok side limit) qty _ Ha Hq) as HT.
    destruct (take_levels _ _ _) as [[fs q] r]. destruct HT as [HT _].
    destruct (taken_orders _ _ _ _ _ _ (side_ok_orders _ _ Ha) HT) as [Ho Hl].
    split; [eapply fill_events_typed; eauto; apply HT|]. etrans; [apply fill_events_length|]. rewrite length_app. lia.
  - pose proof (take_levels_taken true (price_ok side limit) qty _ Hb Hq) as HT.
    destruct (take_levels _ _ _) as [[fs q] r]. destruct HT as [HT _].
    destruct (taken_orders _ _ _ _ _ _ (side_ok_orders _ _ Hb) HT) as [Ho Hl].
    split; [eapply fill_events_typed; eauto; apply HT|]. etrans; [apply fill_events_length|]. rewrite length_app. lia.
Qed.

(** ** Commands *)

(** What the events of a command satisfy. *)
Definition loggable (s : Snapshot) (evs : list Event) : Prop :=
  Forall event_typed evs /\ (length evs <= 2 * length (book_orders s) + 3)%nat.

Lemma rejected_loggable s reason id : is_u16 reason -> is_u64 id -> loggable s [ev_rejected reason id].
Proof. intros. split; [by apply Forall_singleton, ev_rejected_typed|cbn [length]; lia]. Qed.

Lemma accepted_loggable s id evs rest :
  is_u64 id -> Forall event_typed evs -> (length evs <= 2 * length (book_orders s))%nat ->
  Forall event_typed rest -> (length rest <= 2)%nat -> loggable s (ev_accepted id :: evs ++ rest).
Proof.
  intros. split.
  - constructor; [by apply ev_accepted_typed|]. by apply Forall_app.
  - cbn [length]. rewrite length_app. lia.
Qed.

Lemma spec_New_loggable cmd s :
  command_typed cmd -> Command_Validate cmd = None -> cmd_Type cmd = CommandNew -> book_ok s ->
  loggable s (spec_New cmd s).1.
Proof.
  intros Ht Hv Hty Hok. destruct (Validate_New _ Hv Hty) as (_ & _ & _ & Hq & _). destruct Ht.
  unfold spec_New. destruct (find_order _ _); [apply rejected_loggable; [vm_compute; split; congruence|done]|].
  destruct (_ && _); [apply rejected_loggable; [vm_compute; split; congruence|done]|].
  pose proof (spec_match_typed (cmd_Seq cmd) (cmd_OrderID cmd) (cmd_Side cmd) (cmd_Price cmd) (cmd_Quantity cmd) s
    (bo_core _ Hok) ltac:(lia) ct_Seq ct_OrderID) as HM.
  pose proof (spec_match_post (cmd_Seq cmd) (cmd_OrderID cmd) (cmd_Side cmd) (cmd_Price cmd) (cmd_Quantity cmd) s
    (bo_core _ Hok) ltac:(lia)) as HP.
  destruct (spec_match _ _ _ _ _ _) as [[evs rem] s']. destruct HM as [He Hl], HP as [_ Hrem _ _ _ _].
  destruct (rem =? 0); [|destruct (_ || _)]; cbn [fst].
  - rewrite <-(app_nil_r evs). apply accepted_loggable; [exact ct_OrderID|done|done|constructor|cbn; lia].
  - apply accepted_loggable; [exact ct_OrderID|done|done| |cbn; lia].
    apply Forall_singleton, ev_canceled_typed; [exact ct_OrderID|int_lia|vm_compute; split; congruence].
  - apply accepted_loggable; [exact ct_OrderID|done|done| |cbn; lia].
    apply Forall_singleton, ev_rested_typed; [exact ct_OrderID|exact ct_Price|int_lia].
Qed.

Lemma spec_Cancel_loggable cmd s : command_typed cmd -> book_ok s -> loggable s (spec_Cancel cmd s).1.
Proof.
  intros [] Hok. unfold spec_Cancel. destruct (find_order _ _) as [o|] eqn:Ef;
    [|apply rejected_loggable; [vm_compute; split; congruence|done]].
  destruct (find_order_ok _ _ _ (bo_core _ Hok) Ef) as (isBid & [_ _ Hl _ _] & _). cbn [fst].
  apply (accepted_loggable s _ []); [exact ct_OrderID|constructor|cbn; lia| |cbn; lia].
  apply Forall_singleton, ev_canceled_typed; [exact ct_OrderID|int_lia|vm_compute; split; congruence].
Qed.

Lemma spec_Replace_loggable cmd s :
  command_typed cmd -> Command_Validate cmd = None -> cmd_Type cmd = CommandReplace -> book_ok s ->
  loggable s (spec_Replace cmd s).1.
Proof.
  intros Ht Hv Hty Hok. destruct (Validate_Replace _ Hv Hty) as [Hq Hp]. destruct Ht.
  unfold spec_Replace. destruct (find_order _ _) as [o|] eqn:Ef;
    [|apply rejected_loggable; [vm_compute; split; congruence|done]].
  destruct (find_order_ok _ _ _ (bo_core _ Hok) Ef) as (isBid & [_ Hpr Hlv _ _] & _).
  set (price := if cmd_NewPrice cmd >? 0 then cmd_NewPrice cmd else os_Price o).
  assert (is_i64 price) as Hprice by (unfold price; destruct (cmd_NewPrice cmd >? 0); int_lia).
  destruct (_ && _); cbn [fst].
  { destruct (os_LeavesQty o - _ >? 0); cbn [app].
    - apply (accepted_loggable s _ []); [exact ct_OrderID|constructor|cbn; lia| |cbn; lia].
      apply Forall_cons. split; [apply ev_reduced_typed; [exact ct_OrderID|exact ct_NewLeavesQty]|].
      apply Forall_singleton, ev_replaced_typed; [exact ct_OrderID|exact Hprice|exact ct_NewLeavesQty].
    - apply (accepted_loggable s _ []); [exact ct_OrderID|constructor|cbn; lia| |cbn; lia].
      apply Forall_singleton, ev_replaced_typed; [exact ct_OrderID|exact Hprice|exact ct_NewLeavesQty]. }
  pose proof (spec_remove_ok (cmd_OrderID cmd) s Hok) as Hok'.
  pose proof (spec_match_typed (cmd_Seq cmd) (cmd_OrderID cmd) (os_Side o) price (cmd_NewLeavesQty cmd) _
    (bo_core _ Hok') ltac:(lia) ct_Seq ct_OrderID) as HM.
  pose proof (spec_match_post (cmd_Seq cmd) (cmd_OrderID cmd) (os_Side o) price (cmd_NewLeavesQty cmd) _
    (bo_core _ Hok') ltac:(lia)) as HP.
  assert (length (book_orders (spec_remove (cmd_OrderID cmd) s)) <= length (book_orders s))%nat as Hless.
  { rewrite spec_remove_orders. apply sublist_length, drop_order_sublist. }
  destruct (spec_match _ _ _ _ _ _) as [[evs rem] s']. destruct HM as [He Hl], HP as [_ Hrem _ _ _ _].
  assert (is_i64 rem) as Hr by int_lia.
  destruct (0 <? rem); cbn [fst]; (apply accepted_loggable; [exact ct_OrderID|done|lia| |cbn; lia]).
  - apply Forall_cons. split; [by apply ev_rested_typed|]. by apply Forall_singleton, ev_replaced_typed.
  - by apply Forall_singleton, ev_replaced_typed.
Qed.

Lemma spec_Apply_loggable cmd s :
  command_typed cmd -> book_ok s -> loggable s (res_Events (spec_Apply cmd s).1).
Proof.
  intros Ht Hok. unfold spec_Apply, spec_events. pose proof (ct_OrderID _ Ht) as Hid.
  destruct (negb _); [apply rejected_loggable; [vm_compute; split; congruence|done]|].
  destruct (Command_Validate cmd) eqn:Hv; [apply rejected_loggable; [apply reject_reason_typed|done]|].
  destruct (cmd_Type cmd =? CommandNew) eqn:E1; [|destruct (cmd_Type cmd =? CommandCancel) eqn:E2].
  - pose proof (spec_New_loggable cmd s Ht Hv ltac:(lia) Hok). by destruct (spec_New cmd s).
  - pose proof (spec_Cancel_loggable cmd s Ht Hok). by destruct (spec_Cancel cmd s).
  - assert (cmd_Type cmd = CommandReplace) by (destruct (Validate_Type _ Hv) as [?|[?|?]]; lia).
    pose proof (spec_Replace_loggable cmd s Ht Hv ltac:(done) Hok). by destruct (spec_Replace cmd s).
Qed.

Lemma record_of_typed l cmd s :
  command_typed cmd -> book_ok s -> record_typed (record_of l cmd (spec_Apply cmd s).1).
Proof.
  intros Ht Hok. pose proof (spec_Apply_loggable cmd s Ht Hok) as [He _].
  assert (res_CommandSeq (spec_Apply cmd s).1 = cmd_Seq cmd) as Es by (unfold spec_Apply; by destruct (spec_events cmd s)).
  split; cbn [record_of rec_ShardID rec_CommandSeq rec_Command rec_Result].
  - unfold is_u16, wrap_u16. by apply Z.mod_pos_bound.
  - apply Ht.
  - exact Ht.
  - reflexivity.
  - rewrite Es. apply Ht.
  - exact He.
Qed.

Lemma record_of_fits l cmd s :
  command_typed cmd -> book_ok s -> Z.of_nat (string_len (cmd_Symbol cmd)) <= 65535 ->
  Z.of_nat (length (book_orders s)) <= 31000000 -> record_fits (record_of l cmd (spec_Apply cmd s).1).
Proof.
  intros Ht Hok Hs Hn. pose proof (spec_Apply_loggable cmd s Ht Hok) as [_ Hl].
  unfold record_fits, record_size, payloadFixedSize, eventEncodedSize.
  cbn [record_of rec_Command rec_Result]. lia.
Qed.

(** ** Properties *)

(** C21. What a book answers can be logged.  Every field of every event a reachable book
    reports for a typed command fits the width the codec stores it with (order and trade
    IDs 64 bits, prices and quantities signed 64 bits, types and reasons 8 and 16 bits),
    so the record the shard builds is well typed; and unless the symbol is longer than
    65535 bytes or the book holds more than 31 million orders it fits the length fields
    of the log. *)
Theorem applied_commands_can_be_logged l b b0 s cmd res b' :
  reachable b -> command_typed cmd -> Book_Snapshot b = Ret (s, b0) -> Apply cmd b = Ret (res, b') ->
  record_typed (record_of l cmd res) /\
  (Z.of_nat (string_len (cmd_Symbol cmd)) <= 65535 -> Z.of_nat (length (book_orders s)) <= 31000000 ->
   record_fits (record_of l cmd res)).
Proof.
  intros Hreach Ht Hs Ha. destruct (reachable_snapshot b s b0 Hreach Hs) as (_ & Hr & Hok).
  destruct (Apply_repr cmd b s Ht Hr Hok) as (b2 & E & _). rewrite E in Ha. simplify_eq.
  split; [by apply record_of_typed|]. by apply record_of_fits.
Qed.

Definition typed_loop : Loop := mkLoop 0 ∅ true 0 None [] true None [] [] [].
Definition typed_cmd : Command := mkCommand 1 "X" CommandNew 7 SideBuy OrderTypeLimit TIFGTC 100 5 0 0.
Definition typed_run : Result * Book :=
  match Apply typed_cmd (Book_New "X") with Ret p => p | _ => (mkResult 0 [], Book_New "X") end.

Lemma applied_commands_can_be_logged_witness :
  length (res_Events typed_run.1) = 2%nat /\
  record_typed (record_of typed_loop typed_cmd typed_run.1) /\
  (Z.of_nat (string_len (cmd_Symbol typed_cmd)) <= 65535 ->
   Z.of_nat (length (book_orders (empty_snapshot "X" 1))) <= 31000000 ->
   record_fits (record_of typed_loop typed_cmd typed_run.1)).
Proof.
  split; [vm_compute; reflexivity|].
  apply (applied_commands_can_be_logged typed_loop (Book_New "X") (Book_New "X") (empty_snapshot "X" 1) typed_cmd
    typed_run.1 typed_run.2).
  - apply reach_new.
  - split; vm_compute; split; congruence.
  - vm_compute; reflexivity.
  - vm_compute; reflexivity.
Defined.
