(* ===== verification/Shard.v ===== *)
(** * Shard: a shard loop with its log writer and its disk

    [NewEngine] (internal/shard/engine.go) gives every shard a loop and a writer.  Here
    they run together: the writer's goroutine takes its steps, the loop takes events,
    its appends are the writer's, and the acknowledgements it receives are those the
    writer sent.  Calls of the loop that do not queue an append (checks, flushes, the
    final shutdown) are steps of the writer's clients. *)

From S2P Require Import Prelude Model Book BookSpec BookRep BookApply BookWalk BookTrace.
From S2P Require Import Bytes Codec CodecFacts Fs Names Disk Reader Recovery RecoveryProps.
From S2P Require Import Writer WriterFacts WriterSafe WriterProps Sequencer Loop LoopProps Typed.

Record shard := mkShard { sh_loop : Loop; sh_writer : Writer; sh_disk : disk; sh_top : Z }.

(** The acks an event receives without error were sent by the writer. *)
Definition acks_sent (ev : loop_event) (l : Loop) (w : Writer) : Prop :=
  match ev with
  | OnAck err => forall c rest, lp_pending l = c :: rest -> Acked (pc_ack c) err ∈ w_signals w
  | OnBarrier _ _ recv | OnDrain _ _ _ recv =>
      forall c, c ∈ lp_pending l -> recv (pc_ack c) = None -> Acked (pc_ack c) None ∈ w_signals w
  | _ => True
  end.

(** What [AppendAsync] did for an event: nothing was queued, or the record of the
    command was, by the call in flight at [i]. *)
Inductive appends (cfg : WriterConfig) (ev : loop_event) (l : Loop) (w : Writer) : Writer -> Prop :=
| ap_none : new_of ev l = [] -> appends cfg ev l w w
| ap_send i rec ack cmd r :
    ev = OnCommand cmd r (inr ack) -> append_of ev l = Some rec ->
    w_inflight w !! i = Some (rec, ack) -> queue_has_room cfg w = true ->
    appends cfg ev l w (AppendAsync_send i w).

Section Steps.
Context (cfg : WriterConfig).

Inductive shard_step : shard -> shard -> Prop :=
| sh_client l w w' dk top :
    client_step cfg w w' -> w_sent w' = w_sent w -> shard_step (mkShard l w dk top) (mkShard l w' dk top)
| sh_run l w w' dk dk' top fs fs' :
    st_segmentIndex (w_state w) < 1000000 -> run_step cfg w dk fs (Done (inr (Ret w')) dk' fs') ->
    shard_step (mkShard l w dk top) (mkShard l w' dk' top)
| sh_event ev l l' w w' dk top top' :
    loop_ready ev l = true -> admissible ev top top' -> loop_iteration ev l = Ret l' ->
    appends cfg ev l w w' -> acks_sent ev l w -> shard_step (mkShard l w dk top) (mkShard l' w' dk top').

Inductive shard_steps : shard -> shard -> Prop :=
| shs_refl s : shard_steps s s
| shs_step s s' s'' : shard_steps s s' -> shard_step s' s'' -> shard_steps s s''.

(** The disk after a crash between two steps or inside one of the writer's. *)
Inductive shard_crash : shard -> disk -> Prop :=
| shc_between s : shard_crash s (sh_disk s)
| shc_inside l w dk top fs dk' :
    st_segmentIndex (w_state w) < 1000000 -> run_step cfg w dk fs (Crashed dk') ->
    shard_crash (mkShard l w dk top) dk'.
End Steps.

(** ** What the writer never takes back *)

Record keeps (w w' : Writer) : Prop := {
  kp_made : w_made w' = w_made w;
  kp_sent : w_sent w' = w_sent w;
  kp_signals : w_signals w `prefix_of` w_signals w'
}.

Lemma keeps_refl w : keeps w w.
Proof. by split. Qed.
Lemma keeps_trans w1 w2 w3 : keeps w1 w2 -> keeps w2 w3 -> keeps w1 w3.
Proof. intros [H1 H2 H3] [H4 H5 H6]. split; [congruence|congruence|by etrans]. Qed.
Lemma keeps_send w sigs : keeps w (send sigs w).
Proof. split; [done|done|]. by exists sigs. Qed.
Lemma keeps_phase w ph : keeps w (set_phase ph w).
Proof. by split. Qed.
Lemma keeps_reject w err : keeps w (rejectRemaining err w).
Proof. split; [done|done|]. by eexists. Qed.
Lemma keeps_stop w w' ok : keeps w w' -> keeps w (stop_unless ok w').
Proof. intros H. destruct ok; [done|]. eapply keeps_trans; [exact H|apply keeps_phase]. Qed.

Lemma flush_keeps cfg elapsed w dk : io_safe (fun _ => True) (fun r _ => keeps w r.2) (flush cfg elapsed w) dk.
Proof.
  unfold flush. destruct (_ =? 0)%nat; [by apply io_safe_ret|].
  eapply io_safe_bind; [apply io_safe_any|]. intros [err|st] dk' _; apply io_safe_ret; cbn [snd].
  - eapply keeps_trans; [|apply keeps_reject]. split; [done|done|]. by eexists.
  - split; [done|done|]. by eexists.
Qed.

Lemma handle_keeps cfg grown elapsed req w dk :
  io_safe (fun _ => True) (fun o _ => forall w', o = Ret w' -> keeps w w') (handle cfg grown elapsed req w) dk.
Proof.
  destruct req as [rec ack|done|done]; cbn [handle].
  - destruct (appendEncodedRecord _ _ _) as [[b [err|]]| |]; try by apply io_safe_ret.
    + apply io_safe_ret. intros w' [= <-]. split; [done|done|]. by eexists.
    + destruct (_ || _).
      * eapply io_safe_bind; [apply flush_keeps|]. intros r dk' [H1 H2 H3]. apply io_safe_ret. intros w' [= <-].
        apply keeps_stop. by split.
      * apply io_safe_ret. intros w' [= <-]. by split.
  - eapply io_safe_bind; [apply flush_keeps|]. intros r dk' Hk. apply io_safe_ret. intros w' [= <-].
    apply keeps_stop. eapply keeps_trans; [exact Hk|apply keeps_send].
  - eapply io_safe_bind; [apply flush_keeps|]. intros r dk' Hk. apply io_safe_ret. intros w' [= <-].
    eapply keeps_trans; [exact Hk|]. eapply keeps_trans; [apply keeps_send|apply keeps_phase].
Qed.

Lemma run_step_keeps cfg w dk fs w' dk' fs' :
  run_step cfg w dk fs (Done (inr (Ret w')) dk' fs') -> keeps w w'.
Proof.
  intros H. remember (Done (inr (Ret w')) dk' fs') as r eqn:Er. destruct H as [w dk fs Hph|ev w dk fs Hph Hr].
  - assert (io_safe (fun _ => True) (fun o _ => forall w1, o = Ret w1 -> keeps w w1)
      (let@ w1 := run_start cfg w in io_ret (Ret w1)) dk) as Hs.
    { unfold run_start. eapply (io_safe_bind _ (fun w1 _ => keeps w w1)).
      - eapply io_safe_bind; [apply io_safe_any|]. intros [err|st] dk1 _; apply io_safe_ret; [|by split].
        split; [done|done|]. by eexists.
      - intros w1 dk1 Hk. apply io_safe_ret. by intros w2 [= <-]. }
    specialize (Hs fs). rewrite Er in Hs. by apply Hs.
  - assert (io_safe (fun _ => True) (fun o _ => forall w1, o = Ret w1 -> keeps w w1) (run_iteration cfg ev w) dk) as Hs.
    { destruct ev as [grown|]; cbn [run_iteration].
      - destruct (w_requests w) as [|req q]; [apply io_safe_ret; by intros w1 [= <-]|].
        eapply io_safe_mono; [apply handle_keeps|done|]. intros o dk1 Hk w1 E. specialize (Hk w1 E).
        destruct Hk as [H1 H2 H3]. by split.
      - eapply io_safe_bind; [apply flush_keeps|]. intros r dk1 Hk. apply io_safe_ret. intros w1 [= <-].
        by apply keeps_stop. }
    specialize (Hs fs). rewrite Er in Hs. by apply Hs.
Qed.

Lemma client_step_more cfg w w' :
  client_step cfg w w' -> w_made w `prefix_of` w_made w' /\ w_signals w' = w_signals w.
Proof.
  destruct 1; unfold AppendAsync_check, AppendAsync_send, Shutdown_send, Shutdown_cancel, Shutdown_late; repeat case_match;
    cbn; split; try done; by eexists.
Qed.

Lemma filter_keeps {A} (Q : A -> Prop) `{forall x, Decision (Q x)} (l : list A) : Forall Q l -> filter Q l = l.
Proof. induction 1 as [|x l Hx _ IH]; [done|]. by rewrite filter_cons_True, IH. Qed.

(** ** The invariant *)

Section Inv.
Context (cfg : WriterConfig) (dk0 : disk) (old : list Record_).
Context (Hh : header_ok (mkSegmentHeader (wc_EngineID cfg) (wc_ShardID cfg) (wc_ShardCount cfg))).
Context (Hold : settled_log cfg dk0 old).
Context (P : string -> Prop) (last0 : Z) (A0 : state) (U : Command -> Prop).
Context (HP : forall sym, is_Some (A0 !! sym) -> P sym).

Record shard_inv (s : shard) (g : ledger) (A : state) : Prop := {
  si_loop : loop_inv P last0 A0 U (sh_loop s) g A (sh_top s);
  si_writer : reached cfg dk0 (sh_writer s) (sh_disk s);
  si_sent : w_sent (sh_writer s) = map en_ack (gh_log g);
  si_made : Forall (fun e => w_made (sh_writer s) !! en_ack e = Some (en_rec e)) (gh_log g);
  si_acked : Forall (fun e => Acked (en_ack e) None ∈ w_signals (sh_writer s)) (gh_done g)
}.

(** The writer only learns. *)
Lemma si_more s g A l w dk top :
  shard_inv s g A -> w_made (sh_writer s) `prefix_of` w_made w -> w_signals (sh_writer s) `prefix_of` w_signals w ->
  w_sent w = w_sent (sh_writer s) -> reached cfg dk0 w dk -> l = sh_loop s -> top = sh_top s ->
  shard_inv (mkShard l w dk top) g A.
Proof.
  intros [H1 H2 H3 H4 H5] Hm Hs He Hr -> ->. split; cbn; [done|done|by rewrite He| |].
  - eapply Forall_impl; [exact H4|]. intros e Hl. cbn in Hl. by eapply prefix_lookup_Some.
  - eapply Forall_impl; [exact H5|]. intros e Hl. destruct Hs as [k ->]. apply elem_of_app. by left.
Qed.

(** Entries completed by an event were acknowledged. *)
Lemma moved_acked ev l g w moved :
  lp_pending l = map pending_of (gh_wait g) -> acks_sent ev l w -> moved `prefix_of` gh_wait g ->
  completed_by ev moved -> Forall (fun e => Acked (en_ack e) None ∈ w_signals w) moved.
Proof.
  intros Hp Ha [rest Hw] Hm. apply Forall_forall. intros e He. rewrite Hw, map_app in Hp.
  assert (pending_of e ∈ lp_pending l) as Hin.
  { rewrite Hp. apply elem_of_app. left. apply list_elem_of_fmap. by exists e. }
  destruct ev as [cmd r appended|d f recv|a wt f recv| | |err]; cbn in Hm, Ha; try (subst moved; by apply elem_of_nil in He).
  - rewrite Forall_forall in Hm. exact (Ha (pending_of e) Hin (Hm e He)).
  - rewrite Forall_forall in Hm. exact (Ha (pending_of e) Hin (Hm e He)).
  - destruct Hm as [->|[-> Hone]]; [by apply elem_of_nil in He|]. destruct moved as [|e' [|]]; try done.
    apply list_elem_of_singleton in He as ->. exact (Ha (pending_of e') _ Hp).
Qed.

(** An event of the loop. *)
Lemma shard_event_inv ev l l' w w' dk top top' g A :
  shard_inv (mkShard l w dk top) g A -> loop_ready ev l = true -> admissible ev top top' -> known A0 U ev ->
  loop_iteration ev l = Ret l' -> appends cfg ev l w w' -> acks_sent ev l w ->
  exists g' A', shard_inv (mkShard l' w' dk top') g' A' /\ gh_log g' = gh_log g ++ new_of ev l /\ gh_done g `prefix_of` gh_done g'.
Proof.
  intros Hinv Hr Ha Hk Hi Hap Hack.
  destruct (loop_step P last0 A0 U HP ev l g A top top' (si_loop _ _ _ Hinv) Ha Hk Hr)
    as (l1 & g' & A' & moved & E & Hloop & [Hlog Hdone Hwait] & Hmoved). assert (l1 = l') as -> by congruence.
  destruct Hinv as [Hl Hw Hsent Hmade Hacked]. cbn in *. exists g', A'. split; [|split; [done|rewrite Hdone; by exists moved]].
  assert (Forall (fun e => Acked (en_ack e) None ∈ w_signals w) (gh_done g')) as Hall.
  { rewrite Hdone. apply Forall_app. split; [done|].
    eapply moved_acked; [apply (li_pending _ _ _ _ _ _ _ _ Hl)|exact Hack|exact Hwait|exact Hmoved]. }
  destruct Hap as [Hnew|i rec ack cmd r -> Eap Ei Hroom].
  - rewrite Hnew, app_nil_r in Hlog. by split; cbn; rewrite ?Hlog.
  - unfold new_of in Hlog. rewrite Eap in Hlog. split; cbn; rewrite ?Hlog; unfold AppendAsync_send; rewrite ?Ei; cbn.
    + done.
    + eapply re_client; [exact Hw|]. pose proof (cs_send cfg i w ltac:(by rewrite Ei) Hroom) as Hcs.
      unfold AppendAsync_send in Hcs. by rewrite Ei in Hcs.
    + rewrite map_app. by rewrite Hsent.
    + apply Forall_app. split; [done|]. apply Forall_singleton. cbn.
      pose proof (wf_calls _ _ (proj1 (reached_inv cfg Hh dk0 old Hold w dk Hw))) as Hcalls.
      rewrite Forall_lookup in Hcalls. exact (Hcalls i _ Ei).
    + done.
Qed.

(** Steps of the writer and its clients keep the ledger. *)
Lemma shard_client_inv l w w' dk top g A :
  shard_inv (mkShard l w dk top) g A -> client_step cfg w w' -> w_sent w' = w_sent w ->
  shard_inv (mkShard l w' dk top) g A.
Proof.
  intros Hinv Hc He. destruct (client_step_more _ _ _ Hc) as [Hm Hsg].
  eapply si_more; [exact Hinv|done|by rewrite Hsg|done| |done|done]. eapply re_client; [apply Hinv|done].
Qed.

Lemma shard_run_inv l w w' dk dk' top fs fs' g A :
  shard_inv (mkShard l w dk top) g A -> st_segmentIndex (w_state w) < 1000000 ->
  run_step cfg w dk fs (Done (inr (Ret w')) dk' fs') -> shard_inv (mkShard l w' dk' top) g A.
Proof.
  intros Hinv Hi Hr. destruct (run_step_keeps _ _ _ _ _ _ _ Hr) as [Hm Hse Hsg].
  eapply si_more; [exact Hinv|by rewrite Hm|done|done| |done|done]. eapply re_run; [apply Hinv|done|exact Hr].
Qed.

(** A new shard. *)
Lemma shard_inv_start l w :
  NewWriter cfg None = inr w -> loop_inv P last0 A0 U l no_entries A0 last0 ->
  shard_inv (mkShard l w dk0 last0) no_entries A0.
Proof.
  intros Hw Hl. pose proof (re_new cfg dk0 None w Hw) as Hr. unfold NewWriter in Hw. destruct (validateWriterConfig cfg); [done|].
  injection Hw as <-. by split.
Qed.

(** The log of the loop is what was sent to the writer. *)
Lemma sent_log s g A :
  shard_inv s g A -> recs (w_made (sh_writer s)) (w_sent (sh_writer s)) = gh_recs g.
Proof.
  intros [_ _ -> Hm _]. unfold gh_recs. induction Hm as [|e log He _ IH]; [done|].
  unfold recs in *. cbn [map omap list_omap]. by rewrite He, IH.
Qed.

Lemma log_fits s g A :
  shard_inv s g A -> Forall record_fits (w_made (sh_writer s)) -> Forall record_fits (gh_recs g).
Proof.
  intros [_ _ _ Hm _] Hf. unfold gh_recs. apply Forall_map. eapply Forall_impl; [exact Hm|]. intros e He.
  rewrite Forall_lookup in Hf. exact (Hf _ _ He).
Qed.

Lemma log_typed s g A : shard_inv s g A -> Forall record_typed (gh_recs g).
Proof.
  intros [_ Hr _ Hm _]. unfold gh_recs. apply Forall_map. eapply Forall_impl; [exact Hm|]. intros e He.
  pose proof (wf_made _ _ (proj1 (reached_inv cfg Hh dk0 old Hold _ _ Hr))) as Hs.
  rewrite Forall_lookup in Hs. apply (Hs _ _ He).
Qed.

Lemma done_acked s g A e :
  shard_inv s g A -> e ∈ gh_done g -> en_rec e ∈ recs (w_made (sh_writer s)) (acked (w_signals (sh_writer s))).
Proof.
  intros [_ _ _ Hm Ha] He. rewrite Forall_forall in Hm, Ha. unfold recs. apply list_elem_of_omap.
  exists (en_ack e). split; [|apply Hm; unfold gh_log; apply elem_of_app; by left].
  unfold acked. apply list_elem_of_omap. exists (Acked (en_ack e) None). split; [by apply Ha|done].
Qed.

(** What a crash leaves of the log. *)
Lemma shard_crash_log s g A dk d :
  shard_inv s g A -> Forall record_fits (w_made (sh_writer s)) -> shard_crash cfg s dk -> survives dk d ->
  exists rs lastR AR,
    ReadShardRecordsForEngine d (wc_EngineID cfg) (wc_ShardID cfg) (wc_ShardCount cfg) = Ret (inr (old ++ rs)) /\
    rs `prefix_of` gh_recs g /\ history P last0 A0 rs lastR AR /\ lastApplied (sh_loop s) <= lastR /\
    forall e, e ∈ gh_done g -> en_rec e ∈ rs.
Proof.
  intros Hinv Hfits Hcrash Hd.
  assert (crashes cfg dk0 (sh_writer s) dk) as Hc.
  { pose proof (si_writer _ _ _ Hinv) as Hr. destruct Hcrash as [s|l w dk1 top fs dk' Hi Hrun]; [by apply cr_between|].
    by eapply cr_inside. }
  destruct (crash_reads_back cfg dk0 old _ dk d Hh Hold Hc Hd) as (rs & Hread & Hacked & Hrs & _).
  rewrite (sent_log _ _ _ Hinv), filter_keeps in Hrs by by eapply log_fits.
  pose proof (li_hist _ _ _ _ _ _ _ _ (si_loop _ _ _ Hinv)) as Hhist.
  destruct (history_prefix _ _ _ _ _ _ _ Hrs Hhist) as (lastR & AR & HR).
  destruct (history_bounds _ _ _ _ _ _ HR) as [Hge Hall].
  assert (forall e, e ∈ gh_done g -> en_rec e ∈ rs) as Hin.
  { intros e He. eapply elem_of_prefix; [|exact Hacked]. by eapply done_acked. }
  exists rs, lastR, AR. split_and!; [done|done|done| |done].
  unfold lastApplied. rewrite (li_last _ _ _ _ _ _ _ _ (si_loop _ _ _ Hinv)).
  destruct (last (gh_done g)) as [e|] eqn:Elast; [|done]. cbn. rewrite Forall_forall in Hall.
  apply Hall, Hin. by eapply last_Some_elem_of.
Qed.
End Inv.

(** Runs in which nothing is known of the commands. *)
Section Runs.
Context (cfg : WriterConfig) (dk0 : disk) (old : list Record_).
Context (Hh : header_ok (mkSegmentHeader (wc_EngineID cfg) (wc_ShardID cfg) (wc_ShardCount cfg))).
Context (Hold : settled_log cfg dk0 old).
Context (P : string -> Prop) (last0 : Z) (A0 : state).
Context (HP : forall sym, is_Some (A0 !! sym) -> P sym).

Lemma shard_steps_inv s s' :
  (exists g A, shard_inv cfg dk0 P last0 A0 any_command s g A) -> shard_steps cfg s s' ->
  exists g A, shard_inv cfg dk0 P last0 A0 any_command s' g A.
Proof.
  intros H0. induction 1 as [|s s' s'' _ IH Hs]; [done|]. destruct (IH H0) as (g & A & Hinv).
  destruct Hs as [l w w' dk top Hc He|l w w' dk dk' top fs fs' Hi Hr|ev l l' w w' dk top top' Hr Ha Hi Hap Hack].
  - exists g, A. by eapply shard_client_inv.
  - exists g, A. by eapply shard_run_inv.
  - destruct (shard_event_inv cfg dk0 old Hh Hold P last0 A0 any_command HP _ _ _ _ _ _ _ _ _ _ Hinv Hr Ha
      (known_any _ _) Hi Hap Hack) as (g' & A' & Hinv' & _). by exists g', A'.
Qed.
End Runs.

Lemma settled_writable cfg dk old : settled_log cfg dk old -> Forall (writable (wc_ShardID cfg)) old.
Proof.
  intros (segs & idx & [[_ _ _ _ _ Hw] _ _] & -> & _). unfold recs_of. apply Forall_concat, Forall_map. exact Hw.
Qed.

Lemma Forall_prefix {A} (Q : A -> Prop) (l k : list A) : l `prefix_of` k -> Forall Q k -> Forall Q l.
Proof. intros [r ->]. by intros [? _]%Forall_app. Qed.

(** Recovery follows a history. *)
Lemma recover_history P id recs last A last' A' books :
  history P last A recs last' A' -> Forall record_typed recs -> books_rep books A ->
  exists books', recoverRecords id recs last last books = Ret (inr (last', books')) /\ books_rep books' A'.
Proof.
  intros Hhist Ht Hb. apply history_any in Hhist.
  destruct (recoverRecords_spec id recs last books A Hb Ht)
    as [(l2 & A2 & books' & Hh2 & Hrun & Hb2)|(e & _ & _ & Hno)]; [|by destruct (Hno last' A')].
  destruct (history_det _ _ _ _ _ _ _ _ Hh2 Hhist) as [-> ->]. by exists books'.
Qed.

(** ** Properties *)

(** No answered command is lost.  Let a shard start from recovered books on a log of
    complete segments, run in any interleaving of its loop, its writer and the callers,
    with any failures of file operations, and let the machine crash at any moment,
    keeping what was synced and any beginning of the rest.  Then the log can be read, and it is a log recovery
    accepts: after the old records it holds a history of the shard's symbols.  Every
    command that was answered without an error is in it with exactly the result that was
    sent (or was refused because the shard does not have its symbol), and its last
    sequence number is at least the shard's watermark.  Replaying the whole log from the
    state before the old records succeeds and ends in the state of that history. *)
Theorem answered_commands_survive cfg dk0 old symbols restored last0 l0 w0 s dk d :
  header_ok (mkSegmentHeader (wc_EngineID cfg) (wc_ShardID cfg) (wc_ShardCount cfg)) ->
  settled_log cfg dk0 old -> map_Forall (fun _ b => book_ok b) restored ->
  newLoop (wc_ShardID cfg) symbols true restored = Ret l0 -> NewWriter cfg None = inr w0 ->
  shard_steps cfg (mkShard (set_lastApplied last0 l0) w0 dk0 last0) s ->
  Forall record_fits (w_made (sh_writer s)) -> shard_crash cfg s dk -> survives dk d ->
  let A0 := initial restored symbols in
  exists rs lastR AR,
    ReadShardRecordsForEngine d (wc_EngineID cfg) (wc_ShardID cfg) (wc_ShardCount cfg) = Ret (inr (old ++ rs)) /\
    history (fun sym => sym ∈ symbols) last0 A0 rs lastR AR /\ lastApplied (sh_loop s) <= lastR /\
    Forall (fun p => oc_Err p.2 = None ->
      (exists rec, rec ∈ rs /\ p.2 = outcome_ok (rec_Result rec)) \/
      (exists cmd, A0 !! cmd_Symbol cmd = None /\ oc_Result p.2 = invalid_symbol (cmd_Seq cmd) cmd))
      (lp_replies (sh_loop s)) /\
    forall lastS AS books,
      history (fun sym => sym ∈ symbols) lastS AS old last0 A0 -> books_rep books AS ->
      exists books', recoverRecords (wc_ShardID cfg) (old ++ rs) lastS lastS books = Ret (inr (lastR, books')) /\
        books_rep books' AR.
Proof.
  intros Hh Hold Hok El Ew Hsteps Hfits Hcrash Hd A0.
  destruct (newLoop_inv (wc_ShardID cfg) symbols restored last0 any_command Hok) as (l1 & El1 & Hl0 & _).
  assert (l1 = l0) as -> by congruence. pose proof (initial_symbols restored symbols) as HP. fold A0 in HP, Hl0.
  destruct (shard_steps_inv cfg dk0 old Hh Hold _ last0 A0 HP _ s (ex_intro _ _ (ex_intro _ _
    (shard_inv_start cfg dk0 _ last0 A0 any_command _ _ Ew Hl0))) Hsteps) as (g & A & Hinv).
  destruct (shard_crash_log cfg dk0 old Hh Hold _ last0 A0 any_command s g A dk d Hinv Hfits Hcrash Hd)
    as (rs & lastR & AR & Hread & Hrs & HR & Hlast & Hin).
  exists rs, lastR, AR. split_and!; [done|done|done| |].
  - eapply Forall_impl; [apply (li_replies _ _ _ _ _ _ _ _ (si_loop _ _ _ _ _ _ _ _ _ Hinv))|]. intros p Hp He.
    unfold explained in Hp. rewrite He in Hp. destruct Hp as [(e & Hed & ->)|(cmd & _ & Hcmd)]; [left|right; by exists cmd].
    exists (en_rec e). auto.
  - intros lastS AS books Hs Hb. eapply recover_history; [by eapply history_app| |exact Hb].
    apply Forall_app. split; [eapply Forall_impl; [by apply (settled_writable cfg dk0)|intros r Hr; apply Hr]|].
    eapply Forall_prefix; [exact Hrs|]. by eapply (log_typed cfg dk0 old).
Qed.

(** A shard that answers one command, and then loses power. *)
Definition try_cmd : loop_event := OnCommand c1 10 (inr 0%nat).
Definition try_l0 : Loop := ran (newLoop 3 ["AAPL"]%string true ∅).
Definition try_l1 : Loop := set_lastApplied 0 try_l0.
Definition try_rec : Record_ := mkRecord 3 1 c1 (spec_Apply c1 aapl0).1.
Definition try_s1 : Writer * disk := after (start_at demo_new no_disk []).
Definition try_w2 : Writer := (AppendAsync_check try_rec try_s1.1).2.
Definition try_w3 : Writer := AppendAsync_send 0 try_w2.
Definition try_l3 : Loop := ran (loop_iteration try_cmd try_l1).
Definition try_s4 : Writer * disk := after (run_iteration demo_wcfg (OnRequest [] 0) try_w3 try_s1.2 []).
Definition try_l5 : Loop := ran (loop_iteration (OnAck None) try_l3).

Lemma try_submittable : submittable 3 try_rec.
Proof.
  split; [|reflexivity|vm_compute; reflexivity].
  pose proof (record_of_typed try_l1 c1 aapl0) as H. apply H; [split; vm_compute; split; congruence|].
  by apply empty_book_ok.
Qed.

Lemma try_steps :
  shard_steps demo_wcfg (mkShard try_l1 demo_new no_disk 0) (mkShard try_l5 try_s4.1 try_s4.2 1).
Proof.
  eapply (shs_step _ _ (mkShard try_l3 try_s4.1 try_s4.2 1)).
  2:{ eapply (sh_event _ (OnAck None)); [vm_compute; reflexivity|reflexivity|vm_compute; reflexivity|by apply ap_none|].
      intros c rest E. vm_compute in E. injection E as <- _. vm_compute. by left. }
  eapply (shs_step _ _ (mkShard try_l3 try_w3 try_s1.2 1)).
  2:{ eapply (sh_run _ _ _ _ _ _ _ [] []); [vm_compute; reflexivity|].
      replace (Done _ _ _) with (run_iteration demo_wcfg (OnRequest [] 0) try_w3 try_s1.2 []) by (vm_compute; reflexivity).
      apply rs_iteration; vm_compute; reflexivity. }
  eapply (shs_step _ _ (mkShard try_l1 try_w2 try_s1.2 0)).
  2:{ eapply (sh_event _ try_cmd); [vm_compute; reflexivity| |vm_compute; reflexivity| |done].
      - split; [split; vm_compute; split; congruence|done].
      - eapply (ap_send _ _ _ _ 0 try_rec 0); vm_compute; reflexivity. }
  eapply (shs_step _ _ (mkShard try_l1 try_s1.1 try_s1.2 0)).
  2:{ apply sh_client; [|vm_compute; reflexivity]. apply cs_check. exact try_submittable. }
  eapply shs_step; [apply shs_refl|]. eapply (sh_run _ _ _ _ _ _ _ [] []); [vm_compute; reflexivity|].
  replace (Done _ _ _) with (start_at demo_new no_disk []) by (vm_compute; reflexivity). by apply rs_start.
Qed.

Lemma try_survives : survives try_s4.2 (view try_s4.2).
Proof.
  apply view_survives. assert (dk_names try_s4.2 = {[ segment_name 3 0 := 0%nat ]}) as -> by (vm_compute; reflexivity).
  intros n i [_ <-]%lookup_singleton_Some. eexists. split; [vm_compute; reflexivity|]. apply Nat.leb_le. vm_compute. reflexivity.
Qed.

Lemma answered_commands_survive_witness :
  map fst (lp_replies try_l5) = [10%nat] /\
  exists rs lastR AR,
    ReadShardRecordsForEngine (view try_s4.2) "engine-1" 3 4 = Ret (inr ([] ++ rs)) /\
    history (fun sym => sym ∈ ["AAPL"]%string) 0 (initial ∅ ["AAPL"]%string) rs lastR AR /\
    lastApplied try_l5 <= lastR.
Proof.
  split; [vm_compute; reflexivity|].
  assert (newLoop 3 ["AAPL"]%string true ∅ = Ret try_l0) as El by (vm_compute; reflexivity).
  assert (Forall record_fits (w_made try_s4.1)) as Hf.
  { assert (w_made try_s4.1 = [try_rec]) as -> by (vm_compute; reflexivity). apply Forall_singleton. split; vm_compute; congruence. }
  pose proof (answered_commands_survive demo_wcfg no_disk [] ["AAPL"]%string ∅ 0 try_l0 demo_new _ _ _
    demo_header_ok no_disk_settled (map_Forall_empty _) El eq_refl try_steps Hf (shc_between _ _) try_survives) as H.
  cbv zeta in H. destruct H as (rs & lastR & AR & H1 & H2 & H3 & _).
  exists rs, lastR, AR. split; [exact H1|]. split; [exact H2|exact H3].
Defined.
