(* ===== verification/Engine.v ===== *)
(** * Engine: putting the parts together (internal/shard/engine.go)

    Starting an engine recovers the books, gives every shard a loop and a writer and
    creates the sequencer with the next free sequence number.  The operations of the
    engine are those of its parts; where they wait for another goroutine, what they
    receive is an argument. *)

From S2P Require Import Prelude Model Book Bytes Codec Fs Names Disk Registry Recovery SnapStore.
From S2P Require Import Metrics Writer Sequencer Loop.

(** Recovery without starting an engine. *)
Definition VerifyReplay (cfg : Config) (latest : error + (EngineSnapshot * string)) (wal : dir)
  : outcome (option error) :=
  let? r := NewSymbolRegistry (cfg_Symbols cfg) (cfg_ShardCount cfg) in
  match r with
  | inl err => Ret (Some err)
  | inr registry =>
      let? r := recoverBooks cfg registry latest wal in
      match r with
      | inl err => Ret (Some err)
      | inr _ => Ret None
      end
  end.

Record Engine := mkEngine {
  eg_registry : SymbolRegistry;
  eg_sequencer : Sequencer SymbolRegistry;
  eg_shards : list (Loop * Writer);
  eg_engineID : string;
  eg_snapshotDir : string;
  eg_collector : option Collector
}.

Definition writer_config (cfg : Config) (shardID : Z) : WriterConfig :=
  mkWriterConfig (cfg_WALDir cfg) (cfg_EngineID cfg) shardID (cfg_ShardCount cfg) (cfg_ShardQueueSize cfg)
    (cfg_MaxBatchCommands cfg) (cfg_MaxBatchBytes cfg) (wrap_i64 (cfg_MaxBatchDelayMicros cfg * 1000))
    (Z.shiftl 64 20) true.

(** The loop of [NewEngine] over the shards; [mkdir] is what [os.MkdirAll] returns to the
    writer of each. *)
Fixpoint startShards (cfg : Config) (registry : SymbolRegistry) (books : gmap string Snapshot) (lasts : list Z)
  (mkdir : Z -> option error) (n : nat) (shardID : Z) : fallible (list (Loop * Writer)) :=
  match n with
  | O => Ret (inr [])
  | S n' =>
      match NewWriter (writer_config cfg shardID) (mkdir shardID) with
      | inl err => Ret (inl err)
      | inr walWriter =>
          let? loop := newLoop shardID (SymbolsForShard registry shardID) true books in
          match lasts !! Z.to_nat shardID with
          | None => Panic
          | Some last =>
              let? rest := startShards cfg registry books lasts mkdir n' (shardID + 1) in
              match rest with
              | inl err => Ret (inl err)
              | inr shards => Ret (inr ((set_lastApplied last loop, walWriter) :: shards))
              end
          end
      end
  end.

Definition NewEngine (cfg : Config) (latest : error + (EngineSnapshot * string)) (wal : dir)
  (mkdir : Z -> option error) : fallible Engine :=
  let? r := NewSymbolRegistry (cfg_Symbols cfg) (cfg_ShardCount cfg) in
  match r with
  | inl err => Ret (inl err)
  | inr registry =>
      let? r := recoverBooks cfg registry latest wal in
      match r with
      | inl err => Ret (inl err)
      | inr (recoveredBooks, recoveredSeqByShard) =>
          let initialSequence := nextSequence recoveredSeqByShard in
          if initialSequence =? 0 then Ret (inl ErrSequenceExhausted)
          else
            let? r := startShards cfg registry recoveredBooks recoveredSeqByShard mkdir
                        (Z.to_nat (cfg_ShardCount cfg)) 0 in
            match r with
            | inl err => Ret (inl err)
            | inr shards =>
                let sequencer := NewSequencer (Z.to_nat (cfg_IngressQueueSize cfg)) initialSequence
                                   (Z.to_nat (cfg_ShardCount cfg)) registry in
                Ret (inr (mkEngine registry sequencer shards (cfg_EngineID cfg) (cfg_SnapshotDir cfg)
                            (if cfg_EnableMetrics cfg then Some NewCollector else None)))
            end
      end
  end.

Definition set_sequencer (s : Sequencer SymbolRegistry) (e : Engine) : Engine :=
  mkEngine (eg_registry e) s (eg_shards e) (eg_engineID e) (eg_snapshotDir e) (eg_collector e).
Definition measure (o : observation) (e : Engine) : Engine :=
  mkEngine (eg_registry e) (eg_sequencer e) (eg_shards e) (eg_engineID e) (eg_snapshotDir e)
    (observe o <$> eg_collector e).

(** ** Submitting *)

(** [Submit] puts the command into the ingress queue, then waits for the outcome or the
    end of its context; [elapsed] is the time since its start. *)
Definition Submit_enqueue (c : choice) (cmd : Command) (reply : nat) (e : Engine) : option error * Engine :=
  let '(err, s) := SubmitBlocking c cmd reply (eg_sequencer e) in (err, set_sequencer s e).
Definition Submit_wait (c : choice) (received : Outcome) (elapsed : Z) (e : Engine) : (Result * option error) * Engine :=
  match c with
  | ChooseSend =>
      match oc_Err received with
      | Some err => ((zero_result, Some err), e)
      | None => ((oc_Result received, None), measure (ObserveSubmitLatency elapsed) e)
      end
  | ChooseOther => ((zero_result, Some ErrContext), e)
  end.

Definition TrySubmit_enqueue (cmd : Command) (reply : nat) (e : Engine) : option error * Engine :=
  let '(err, s) := SubmitNonBlocking cmd reply (eg_sequencer e) in (err, set_sequencer s e).
Definition TrySubmit_wait (received : Outcome) (elapsed : Z) (e : Engine) : (Result * option error) * Engine :=
  match oc_Err received with
  | Some err => ((zero_result, Some err), e)
  | None => ((oc_Result received, None), measure (ObserveSubmitLatency elapsed) e)
  end.

Definition Engine_Barrier (c : choice) (result : nat) (e : Engine) : option error * Engine :=
  let '(err, s) := Barrier c result (eg_sequencer e) in (err, set_sequencer s e).

Definition ValidateSymbolRouting (symbol : string) (e : Engine) : option error :=
  match ShardFor (eg_registry e) symbol with
  | None => Some (Errorf "symbol is not registered: %s" [AStr symbol])
  | Some _ => None
  end.

(** ** Shutdown *)

(** The wait for the loops: [ended] says for each whether its [Done] channel was closed
    before the context ended. *)
Fixpoint waitLoops (ended : list choice) (shards : list (Loop * Writer)) (firstErr : option error) : option error :=
  match shards, ended with
  | [], _ => firstErr
  | _ :: _, ChooseOther :: _ => Some ErrContext
  | _ :: _, [] => Some ErrContext
  | (loop, _) :: shards', ChooseSend :: ended' =>
      let firstErr := match lp_failedErr loop, firstErr with
                      | Some err, None => Some err
                      | _, _ => firstErr
                      end in
      waitLoops ended' shards' firstErr
  end.

(** [Shutdown] first stops the sequencer, then waits for the loops; [sequencerErr] is what
    the sequencer's [Shutdown] returned, at once or from [Shutdown_end]. *)
Definition Engine_Shutdown_request (c : choice) (done : nat) (e : Engine) : (error + shutdown_wait) * Engine :=
  let '(err, s) := Shutdown c done (eg_sequencer e) in (err, set_sequencer s e).
Definition Engine_Shutdown (sequencerErr : option error) (ended : list choice) (e : Engine) : option error :=
  match sequencerErr with
  | Some err => Some err
  | None => waitLoops ended (eg_shards e) None
  end.

(** ** Snapshots *)

Fixpoint collectShards (loops : list Loop) : outcome (list Snapshot * list Z) :=
  match loops with
  | [] => Ret ([], [])
  | loop :: loops' =>
      let? books := snapshots loop in
      let? rest := collectShards loops' in
      Ret (books ++ rest.1, lastApplied loop :: rest.2)
  end.

(** [sort.Slice] by symbol; the symbols differ, so the result is unique. *)
Definition symbol_le (a b : Snapshot) : Prop := string_le (sn_Symbol a) (sn_Symbol b).
#[export] Instance symbol_le_dec a b : Decision (symbol_le a b).
Proof. unfold symbol_le. apply _. Defined.

(** The snapshot [CreateSnapshot] builds while all shards are drained. *)
Definition engineSnapshot (e : Engine) : outcome EngineSnapshot :=
  let? p := collectShards (map fst (eg_shards e)) in
  Ret (mkEngineSnapshot (eg_engineID e) (Z.of_nat (length (eg_shards e))) p.2 (merge_sort symbol_le p.1)).

(** [CreateSnapshot] first asks the sequencer to drain the shards. *)
Definition CreateSnapshot_drain (c : choice) (result rel : nat) (e : Engine) : option error * Engine :=
  let '(err, s) := AcquireDrain c result rel (eg_sequencer e) in (err, set_sequencer s e).

(** The rest of it: [received] is the answer to the drain, [elapsed] the time since the
    start; the drain is released when it returns. *)
Definition CreateSnapshot `{GobCodec} (c : choice) (received : option error) (rel : nat) (elapsed : Z) (e : Engine)
  : IO (outcome ((error + string) * Engine)) :=
  let '(err, s) := AcquireDrain_wait c received rel (eg_sequencer e) in
  let e := set_sequencer s e in
  match err with
  | Some err => io_ret (Ret (inl err, e))
  | None =>
      match engineSnapshot e with
      | Ret snap =>
          let@ r := io_try (SaveAtomically (eg_snapshotDir e) snap) in
          let released := set_sequencer (release rel (eg_sequencer e)) e in
          match r with
          | inl err => io_ret (Ret (inl err, released))
          | inr path => io_ret (Ret (inr path, measure (ObserveSnapshotPause elapsed) released))
          end
      | Panic => io_ret Panic
      | OutOfFuel => io_ret OutOfFuel
      end
  end.

Definition MetricsSnapshot (e : Engine) : outcome (option Stats) :=
  match eg_collector e with
  | None => Ret None
  | Some c => let? s := Collector_Snapshot c in Ret (Some s)
  end.

(** However [CreateSnapshot] returns, also when saving fails, the shards are released: the
    channel they wait for is closed. *)
Lemma CreateSnapshot_releases `{GobCodec} c received rel elapsed e dk fs res dk' fs' e' :
  CreateSnapshot c received rel elapsed e dk fs = Done (inr (Ret (res, e'))) dk' fs' ->
  rel ∈ sq_released (eg_sequencer e').
Proof.
  unfold CreateSnapshot. destruct (AcquireDrain_wait c received rel (eg_sequencer e)) as [[err|] s] eqn:Ew.
  - intros [= _ <- _ _]. cbn. unfold AcquireDrain_wait in Ew.
    destruct c; [destruct received|]; simplify_eq; cbn; set_solver.
  - destruct (engineSnapshot _) as [snap| |]; [|done|done]. unfold io_bind at 1, io_try.
    destruct (SaveAtomically _ _ dk fs) as [[err|path] dk1 fs1|dk1]; [| |done]; intros [= _ <- _ _]; cbn; set_solver.
Qed.
