(* ===== verification/EngineProps.v ===== *)
(** * EngineProps: an engine continues where recovery ended, and its snapshots are cuts *)

From S2P Require Import Prelude Model Book BookSpec BookRep BookApply BookWalk BookTrace Bytes Codec CodecFacts.
From S2P Require Import Fs Names Disk Reader Registry Recovery RecoveryProps SnapStore Metrics Writer.
From S2P Require Import Sequencer SequencerProps Loop LoopProps Engine.

(** ** Books keep their symbol *)

Lemma spec_match_symbol seq id side limit qty s :
  let '(evs, rem, s') := spec_match seq id side limit qty s in sn_Symbol s' = sn_Symbol s.
Proof. unfold spec_match. destruct (side =? SideBuy); by destruct (take_levels _ _ _) as [[? ?] ?]. Qed.

Lemma spec_rest_symbol o s : sn_Symbol (spec_rest o s) = sn_Symbol s.
Proof. unfold spec_rest. by destruct (_ =? _). Qed.

Lemma spec_Apply_symbol cmd s : sn_Symbol (spec_Apply cmd s).2 = sn_Symbol s.
Proof.
  unfold spec_Apply, spec_events, spec_New, spec_Cancel, spec_Replace.
  repeat case_match; simplify_eq/=; rewrite ?spec_rest_symbol; try done;
    match goal with H : spec_match ?a ?b ?c ?d ?e ?f = _ |- _ =>
      pose proof (spec_match_symbol a b c d e f) as Hm; rewrite H in Hm; cbn in Hm; by rewrite Hm end.
Qed.

Definition keyed (A : state) : Prop := forall sym s, A !! sym = Some s -> sn_Symbol s = sym.

Lemma history_keyed P last A recs last' A' : history P last A recs last' A' -> keyed A -> keyed A'.
Proof.
  induction 1 as [| |last A rec recs last' A' s _ _ Hs _ _ IH]; [done|done|]. intros Hk. apply IH.
  intros sym t. destruct (decide (sym = cmd_Symbol (rec_Command rec))) as [->|Hne].
  - rewrite lookup_insert_eq. intros [= <-]. rewrite spec_Apply_symbol. by apply Hk.
  - rewrite lookup_insert_ne by done. apply Hk.
Qed.

Lemma initial_keyed restored symbols : keyed restored -> keyed (initial restored symbols).
Proof.
  intros Hk. unfold initial. assert (keyed ∅) as H0 by (intros sym s; by rewrite lookup_empty).
  revert H0. generalize (∅ : state). induction symbols as [|x symbols IH]; intros A HA; [done|]. cbn [fold_left].
  apply IH. intros sym s. destruct (decide (sym = x)) as [->|Hne].
  - rewrite lookup_insert_eq. intros [= <-]. destruct (restored !! x) as [t|] eqn:E; [by apply Hk|done].
  - rewrite lookup_insert_ne by done. apply HA.
Qed.

(** ** Cutting histories *)

Lemma history_skip P last A old recs last' A' :
  Forall (fun r => rec_CommandSeq r <= last) old -> history P last A recs last' A' ->
  history P last A (old ++ recs) last' A'.
Proof. induction 1; [done|]. intros Hh. cbn. by apply hist_old; auto. Qed.

(** A later start, with the books of that moment, leads to the same end. *)
Lemma history_cut P last0 A0 old recs lastL A more last' A' :
  Forall (fun r => rec_CommandSeq r <= last0) old -> history P last0 A0 recs lastL A ->
  history P last0 A0 (recs ++ more) last' A' -> history P lastL A (old ++ recs ++ more) last' A'.
Proof.
  intros Hold Hr Hm. destruct (history_app_inv _ _ _ _ _ _ _ Hm) as (l1 & A1 & H1 & H2).
  destruct (history_det _ _ _ _ _ _ _ _ H1 Hr) as [-> ->].
  pose proof (history_bounds _ _ _ _ _ _ Hr) as [Hle Hall].
  rewrite app_assoc. apply history_skip; [|done]. apply Forall_app. split; [|done].
  eapply Forall_impl; [exact Hold|]. cbn. lia.
Qed.

(** ** What a drained shard contributes to a snapshot *)

(** The snapshots of the books [A] of one shard. *)
Record shard_books (A : state) (l : list Snapshot) : Prop := {
  sbk_from : Forall (fun s => A !! sn_Symbol s = Some s) l;
  sbk_all : forall sym s, A !! sym = Some s -> s ∈ l
}.

Lemma sorted_keys_elem books sym : sym ∈ sorted_keys books <-> is_Some (books !! sym).
Proof.
  unfold sorted_keys. rewrite merge_sort_Permutation, list_elem_of_fmap. split.
  - intros ([k b] & -> & Hin). apply elem_of_map_to_list in Hin. by exists b.
  - intros [b Hb]. exists (sym, b). split; [done|]. by apply elem_of_map_to_list.
Qed.

Lemma snapshots_of_ok books A syms :
  books_rep books A -> Forall (fun sym => is_Some (books !! sym)) syms ->
  exists l, snapshots_of books syms = Ret l /\ Forall2 (fun sym s => A !! sym = Some s) syms l.
Proof.
  intros Hb. induction 1 as [|sym syms [b Eb] _ IH]; [by exists []|]. destruct IH as (l & El & Hl).
  cbn [snapshots_of]. rewrite Eb. pose proof (Hb sym) as Hs. rewrite Eb in Hs.
  inversion Hs as [? s [Hr Hok] E1 E2|]; subst. rewrite (Book_Snapshot_repr b s Hr). cbn [obind].
  rewrite El. cbn [obind fst]. exists (s :: l). split; [done|]. by constructor.
Qed.

Lemma snapshots_ok l A :
  books_rep (lp_books l) A -> keyed A -> exists ss, snapshots l = Ret ss /\ shard_books A ss.
Proof.
  intros Hb Hk. destruct (snapshots_of_ok (lp_books l) A (sorted_keys (lp_books l)) Hb) as (ss & E & Hss).
  { apply Forall_forall. intros sym. by rewrite sorted_keys_elem. }
  exists ss. split; [done|]. split.
  - apply Forall_forall. intros s Hs. apply list_elem_of_lookup in Hs as [i Hi].
    destruct (Forall2_lookup_r _ _ _ _ _ Hss Hi) as (sym & _ & Ha). by rewrite (Hk _ _ Ha).
  - intros sym s Ha. assert (sym ∈ sorted_keys (lp_books l)) as Hin.
    { apply sorted_keys_elem. pose proof (Hb sym) as Hs. rewrite Ha in Hs. inversion Hs. by eexists. }
    apply list_elem_of_lookup in Hin as [i Hi]. destruct (Forall2_lookup_l _ _ _ _ _ Hss Hi) as (s' & Hs' & Ha').
    assert (s' = s) as -> by congruence. by eapply list_elem_of_lookup_2.
Qed.

(** All shards: [states] are their books. *)
Lemma collectShards_ok loops (states : list state) :
  Forall2 (fun l A => books_rep (lp_books l) A /\ keyed A) loops states ->
  exists ss, collectShards loops = Ret (ss, map lastApplied loops) /\
    (forall s, s ∈ ss <-> exists i A, states !! i = Some A /\ A !! sn_Symbol s = Some s).
Proof.
  induction 1 as [|l A loops states [Hb Hk] _ IH].
  { exists []. split; [done|]. intros s. split; [by intros ?%elem_of_nil|]. intros (i & A & Hi & _). by rewrite lookup_nil in Hi. }
  destruct IH as (ss & E & Hss), (snapshots_ok l A Hb Hk) as (s1 & E1 & [Hfrom Hall]).
  cbn [collectShards]. rewrite E1, E. cbn [obind fst snd]. exists (s1 ++ ss). split; [done|].
  intros s. rewrite elem_of_app, Hss. split.
  - intros [Hin|(i & A' & Hi & Hs)]; [|by exists (S i), A']. exists 0%nat, A. split; [done|].
    rewrite Forall_forall in Hfrom. by apply Hfrom.
  - intros ([|i] & A' & Hi & Hs); cbn in Hi; [injection Hi as ->; left; by eapply Hall|right; by exists i, A'].
Qed.

(** ** What loading it gives *)

Lemma restoredBooks_all r ss (acc : state) :
  Forall (fun s => is_Some (ShardFor r (sn_Symbol s))) ss ->
  (forall s s', s ∈ ss -> s' ∈ ss -> sn_Symbol s = sn_Symbol s' -> s = s') ->
  exists restored, restoredBooks r ss acc = inr restored /\
    (forall s, s ∈ ss -> restored !! sn_Symbol s = Some s) /\
    (forall sym, sym ∉ map sn_Symbol ss -> restored !! sym = acc !! sym).
Proof.
  intros Hr. revert acc. induction Hr as [|s ss [id Hid] _ IH]; intros acc Huniq.
  { exists acc. split_and!; [done|by intros s ?%elem_of_nil|done]. }
  cbn [restoredBooks]. rewrite Hid.
  destruct (IH (<[sn_Symbol s := s]> acc)) as (restored & E & H1 & H2).
  { intros s1 s2 Hs1 Hs2. apply Huniq; by right. }
  exists restored. split_and!; [done| |].
  - intros s' [->|Hin]%elem_of_cons; [|by apply H1].
    destruct (decide (sn_Symbol s ∈ map sn_Symbol ss)) as [Hin|Hnot].
    + apply list_elem_of_fmap in Hin as (s2 & Es & Hs2). assert (s = s2) as -> by (apply Huniq; [by left|by right|done]).
      by apply H1.
    + rewrite H2 by done. by rewrite lookup_insert_eq.
  - intros sym Hnot. cbn in Hnot. apply not_elem_of_cons in Hnot as [Hne Hnot].
    rewrite H2 by done. by rewrite lookup_insert_ne.
Qed.

Lemma initial_lookup_in (restored : state) symbols sym s :
  sym ∈ symbols -> restored !! sym = Some s -> initial restored symbols !! sym = Some s.
Proof.
  intros Hin Hs. unfold initial. assert (forall A : state, (A !! sym = Some s \/ sym ∈ symbols) ->
    fold_left (fun A sym => <[sym := default (empty_snapshot sym 1) (restored !! sym)]> A) symbols A !! sym = Some s) as H.
  { clear Hin. induction symbols as [|x symbols IH]; intros A HA; cbn [fold_left].
    - destruct HA as [?|HA]; [done|]. by apply elem_of_nil in HA.
    - apply IH. destruct (decide (sym = x)) as [->|Hne]; [left; by rewrite lookup_insert_eq, Hs|].
      rewrite lookup_insert_ne by done. destruct HA as [?|[?|?]%elem_of_cons]; [by left|done|by right]. }
  apply H. by right.
Qed.

(** ** Drained shards *)

(** A shard that started from recovered books and the watermark [last0], has handed
    [recs] to its log and has nothing pending. *)
Definition drained_shard (r : SymbolRegistry) (restored : state) (id last0 : Z) (loop : Loop) (recs : list Record_) : Prop :=
  exists l0 evs log top, newLoop id (SymbolsForShard r id) true restored = Ret l0 /\
    served last0 (set_lastApplied last0 l0) evs log top loop /\ recs = map en_rec log /\
    lp_failedErr loop = None /\ lp_pending loop = [].

(** A loop with nothing pending that has not failed: its books and its watermark are those
    at the end of its log. *)
Lemma idle_state P last0 restored symbols U l g A top :
  loop_inv P last0 (initial restored symbols) U l g A top -> keyed (initial restored symbols) ->
  lp_failedErr l = None -> lp_pending l = [] ->
  gh_log g = gh_done g /\ history P last0 (initial restored symbols) (gh_recs g) (lastApplied l) A /\
  books_rep (lp_books l) A /\ keyed A /\ forall sym, is_Some (A !! sym) <-> is_Some (initial restored symbols !! sym).
Proof.
  intros Hinv Hk Hf Hp. assert (gh_log g = gh_done g) as El.
  { unfold gh_log. rewrite (li_lost _ _ _ _ _ _ _ _ Hinv Hf), app_nil_r. pose proof (li_pending _ _ _ _ _ _ _ _ Hinv) as Hw.
    rewrite Hp in Hw. destruct (gh_wait g); [by rewrite app_nil_r|done]. }
  assert (lastApplied l = log_last last0 (gh_recs g)) as Elast.
  { unfold lastApplied, log_last, gh_recs. rewrite (li_last _ _ _ _ _ _ _ _ Hinv), El.
    change (map en_rec (gh_done g)) with (en_rec <$> gh_done g). rewrite fmap_last. by destruct (last (gh_done g)). }
  split_and!; [done|rewrite Elast; apply Hinv|by apply Hinv| |apply Hinv]. eapply history_keyed; [apply Hinv|done].
Qed.

Lemma drained_shard_state r restored id last0 loop recs :
  map_Forall (fun _ s => book_ok s) restored -> keyed restored -> drained_shard r restored id last0 loop recs ->
  exists A, history (fun sym => sym ∈ SymbolsForShard r id) last0 (initial restored (SymbolsForShard r id)) recs
      (lastApplied loop) A /\
    books_rep (lp_books loop) A /\ keyed A /\ forall sym, is_Some (A !! sym) <-> is_Some (initial restored (SymbolsForShard r id) !! sym).
Proof.
  intros Hok Hk (l0 & evs & log & top & E0 & Hs & -> & Hf & Hp).
  destruct (newLoop_inv id (SymbolsForShard r id) restored last0 any_command Hok) as (l1 & E1 & Hinv0 & Hh & _).
  assert (l1 = l0) as -> by congruence.
  destruct (served_inv _ last0 _ (initial_symbols restored _) _ _ _ _ _ _ Hinv0 Hh Hs) as (g & A & Hinv & <- & _).
  destruct (idle_state _ _ _ _ _ _ _ _ _ Hinv (initial_keyed _ _ Hk) Hf Hp) as (_ & Hrest). by exists A.
Qed.

Lemma history_mono (P Q : string -> Prop) last A recs last' A' :
  (forall sym, P sym -> Q sym) -> history P last A recs last' A' -> history Q last A recs last' A'.
Proof. intros HPQ. induction 1; [constructor|by apply hist_old|eapply hist_new; eauto]. Qed.

Lemma registry_symbols cfg r sym id :
  small_count (cfg_ShardCount cfg) -> NewSymbolRegistry (cfg_Symbols cfg) (cfg_ShardCount cfg) = Ret (inr r) ->
  sym ∈ SymbolsForShard r id <-> ShardFor r sym = Some id.
Proof.
  intros Hc Hr. destruct (NewSymbolRegistry_built _ _ _ Hc Hr) as [_ Hf Hs].
  rewrite Hs, Hf, list_elem_of_filter. case_bool_decide; naive_solver.
Qed.

Lemma initial_dom restored symbols sym : sym ∈ symbols -> is_Some (initial restored symbols !! sym).
Proof.
  intros Hin. unfold initial. assert (forall A : state, (is_Some (A !! sym) \/ sym ∈ symbols) ->
    is_Some (fold_left (fun A sym => <[sym := default (empty_snapshot sym 1) (restored !! sym)]> A) symbols A !! sym)) as H.
  { clear Hin. induction symbols as [|x symbols IH]; intros A HA; cbn [fold_left].
    - destruct HA as [?|HA]; [done|]. by apply elem_of_nil in HA.
    - apply IH. destruct (decide (sym = x)) as [->|Hne]; [left; by rewrite lookup_insert_eq|].
      rewrite lookup_insert_ne by done. destruct HA as [?|[?|?]%elem_of_cons]; [by left|done|by right]. }
  apply H. by right.
Qed.

Lemma list_choice {A B} (R : nat -> A -> B -> Prop) (l : list A) :
  (forall i x, l !! i = Some x -> exists y, R i x y) ->
  exists ys, length ys = length l /\ forall i x y, l !! i = Some x -> ys !! i = Some y -> R i x y.
Proof.
  revert R. induction l as [|x l IH]; intros R H; [by exists []|].
  destruct (H 0%nat x eq_refl) as [y Hy], (IH (fun i => R (S i)) (fun i z Hz => H (S i) z Hz)) as (ys & Hl & Hys).
  exists (y :: ys). split; [cbn; by rewrite Hl|]. intros [|i] a b; cbn; [by intros [= <-] [= <-]|apply Hys].
Qed.

(** ** The cut *)

(** The books [A] of a shard that has logged [recs] since it started from [restored]. *)
Record cut_shard (r : SymbolRegistry) (restored : state) (i : nat) (last0 : Z) (recs : list Record_) (loop : Loop) (A : state) : Prop := {
  cs_books : books_rep (lp_books loop) A;
  cs_keyed : keyed A;
  cs_history : history (fun sym => ShardFor r sym = Some (Z.of_nat i)) last0
      (initial restored (SymbolsForShard r (Z.of_nat i))) recs (lastApplied loop) A;
  cs_dom : forall sym, is_Some (A !! sym) <-> ShardFor r sym = Some (Z.of_nat i)
}.

(** An idle shard. *)
Lemma cut_shard_of cfg r restored i last0 recs loop A :
  small_count (cfg_ShardCount cfg) -> NewSymbolRegistry (cfg_Symbols cfg) (cfg_ShardCount cfg) = Ret (inr r) ->
  history (fun sym => sym ∈ SymbolsForShard r (Z.of_nat i)) last0 (initial restored (SymbolsForShard r (Z.of_nat i)))
    recs (lastApplied loop) A ->
  books_rep (lp_books loop) A -> keyed A ->
  (forall sym, is_Some (A !! sym) <-> is_Some (initial restored (SymbolsForShard r (Z.of_nat i)) !! sym)) ->
  cut_shard r restored i last0 recs loop A.
Proof.
  intros Hc Hreg H1 H2 H3 H4. split; [done|done| |].
  - eapply history_mono; [|exact H1]. intros sym. by rewrite (registry_symbols _ _ _ _ Hc Hreg).
  - intros sym. rewrite H4, <-(registry_symbols _ _ _ _ Hc Hreg). split; [apply initial_symbols|apply initial_dom].
Qed.

Section Cut.
Context (cfg : Config) (r : SymbolRegistry) (restored : state) (e : Engine).
Context (Hc : small_count (cfg_ShardCount cfg)).
Context (Hreg : NewSymbolRegistry (cfg_Symbols cfg) (cfg_ShardCount cfg) = Ret (inr r)).
Context (He : eg_engineID e = cfg_EngineID cfg) (Hn : Z.of_nat (length (eg_shards e)) = cfg_ShardCount cfg).
Context (lasts0 : nat -> Z) (recs : nat -> list Record_).
Let cut (i : nat) (p : Loop * Writer) (A : state) : Prop := cut_shard r restored i (lasts0 i) (recs i) p.1 A.
Context (Hcut : forall i p, eg_shards e !! i = Some p -> exists A, cut i p A).

(** The snapshot of the cut: loading it gives the books of every shard. *)
Lemma cut_snapshot path :
  exists snap states restored1, engineSnapshot e = Ret snap /\
    length states = length (eg_shards e) /\
    (forall i p A, eg_shards e !! i = Some p -> states !! i = Some A -> cut i p A) /\
    snapshot_ok (inr (snap, path)) /\
    loadSnapshot cfg r (inr (snap, path)) = inr (restored1, map (fun p => lastApplied p.1) (eg_shards e)) /\
    forall i A sym s, states !! i = Some A -> A !! sym = Some s -> initial restored1 (cfg_Symbols cfg) !! sym = Some s.
Proof.
  destruct (list_choice cut (eg_shards e) Hcut) as (states & Hlen & Hst).
  assert (Forall2 (fun l A => books_rep (lp_books l) A /\ keyed A) (map fst (eg_shards e)) states) as H2.
  { apply Forall2_same_length_lookup. split; [by rewrite length_map|]. intros i l A Hl HA.
    rewrite list_lookup_fmap in Hl. destruct (eg_shards e !! i) as [p|] eqn:Ei; [|done]. injection Hl as <-.
    destruct (Hst i p A Ei HA). done. }
  destruct (collectShards_ok _ _ H2) as (ss & Ess & Hss).
  assert (forall i A sym s, states !! i = Some A -> A !! sym = Some s ->
    sn_Symbol s = sym /\ ShardFor r sym = Some (Z.of_nat i) /\ s ∈ ss /\ book_ok s) as Hin.
  { intros i A sym s HA Hs. destruct (lookup_lt_is_Some_2 (eg_shards e) i) as [p Hp]; [rewrite <-Hlen; by eapply lookup_lt_Some|].
    destruct (Hst i p A Hp HA) as [C1 C2 C3 C4]. assert (sn_Symbol s = sym) as Esym by by apply C2.
    split_and!; [done|apply C4; by eexists|apply Hss; exists i, A; by rewrite Esym|].
    pose proof (C1 sym) as Hb. rewrite Hs in Hb. inversion Hb as [? ? [_ Hbok] E1 E2|]; by subst. }
  assert (forall s, s ∈ ss -> exists i A, states !! i = Some A /\ A !! sn_Symbol s = Some s) as Hfrom by (intros s; by rewrite Hss).
  destruct (restoredBooks_all r (merge_sort symbol_le ss) ∅) as (restored1 & Er & Hr1 & _).
  { rewrite merge_sort_Permutation. apply Forall_forall. intros s (i & A & HA & Hs)%Hfrom.
    destruct (Hin _ _ _ _ HA Hs) as (_ & -> & _). by eexists. }
  { intros s s'. rewrite !merge_sort_Permutation. intros (i & A & HA & Hs)%Hfrom (j & B & HB & Hs')%Hfrom Esym.
    rewrite <-Esym in Hs'. destruct (Hin _ _ _ _ HA Hs) as (_ & E1 & _), (Hin _ _ _ _ HB Hs') as (_ & E2 & _).
    assert (i = j) as <- by (rewrite E1 in E2; injection E2; lia). congruence. }
  eexists _, states, restored1. unfold engineSnapshot. rewrite Ess. cbn [obind fst snd]. split_and!; [reflexivity|done|done| | |].
  - cbn. rewrite merge_sort_Permutation. apply Forall_forall. intros s (i & A & HA & Hs)%Hfrom. by eapply Hin.
  - unfold loadSnapshot. cbn [es_EngineID es_ShardCount es_LastAppliedByShard es_Books].
    rewrite He, String.eqb_refl, Hn, Z.eqb_refl, !length_map, Hn, Z.eqb_refl. cbn [negb]. by rewrite Er, map_map.
  - intros i A sym s HA Hs. destruct (Hin _ _ _ _ HA Hs) as (<- & Hf & Hss' & _).
    apply initial_lookup_in; [by eapply registry_shards|]. apply Hr1. by rewrite merge_sort_Permutation.
Qed.

(** From the snapshot on, every shard's log leads to the books [F]. *)
Lemma cut_histories (old more : nat -> list Record_) (L : nat -> Z) (F : nat -> state) path :
  (forall i p, eg_shards e !! i = Some p ->
     Forall (fun rec => rec_CommandSeq rec <= lasts0 i) (old i) /\
     history (fun sym => ShardFor r sym = Some (Z.of_nat i)) (lasts0 i)
       (initial restored (SymbolsForShard r (Z.of_nat i))) (recs i ++ more i) (L i) (F i)) ->
  exists snap restored1 Fs, engineSnapshot e = Ret snap /\ snapshot_ok (inr (snap, path)) /\
    loadSnapshot cfg r (inr (snap, path)) = inr (restored1, map (fun p => lastApplied p.1) (eg_shards e)) /\
    length Fs = length (eg_shards e) /\
    forall i p F1, eg_shards e !! i = Some p -> Fs !! i = Some F1 ->
      (forall sym, ShardFor r sym = Some (Z.of_nat i) -> F1 !! sym = F i !! sym) /\
      history (fun sym => ShardFor r sym = Some (Z.of_nat i)) (lastApplied p.1) (initial restored1 (cfg_Symbols cfg))
        (old i ++ recs i ++ more i) (L i) F1.
Proof.
  intros Hall. destruct (cut_snapshot path) as (snap & states & restored1 & Esnap & Hlen & Hst & Hsok & Hload & Hinit).
  destruct (list_choice (fun i (p : Loop * Writer) F1 =>
    (forall sym, ShardFor r sym = Some (Z.of_nat i) -> F1 !! sym = F i !! sym) /\
    history (fun sym => ShardFor r sym = Some (Z.of_nat i)) (lastApplied p.1) (initial restored1 (cfg_Symbols cfg))
      (old i ++ recs i ++ more i) (L i) F1) (eg_shards e)) as (Fs & HFl & HFs); [|by exists snap, restored1, Fs].
  intros i p Hp. destruct (lookup_lt_is_Some_2 states i) as [A HA]; [rewrite Hlen; by eapply lookup_lt_Some|].
  destruct (Hall _ _ Hp) as [Hold Hmore], (Hst _ _ _ Hp HA) as [_ _ Hhist Hdom].
  pose proof (history_cut _ _ _ _ _ _ _ _ _ _ Hold Hhist Hmore) as Hlate.
  destruct (history_local _ _ _ _ _ _ (initial restored1 (cfg_Symbols cfg)) Hlate) as (F1 & HF1 & Hag & _); [|by exists F1].
  intros sym Hsym. destruct (proj2 (Hdom sym) Hsym) as [s Hs]. rewrite Hs. by eapply Hinit.
Qed.

(** Recovery from the snapshot and the complete logs ends at the end of the logs. *)
Lemma cut_recovers old more wal (L : nat -> Z) (F : nat -> state) path :
  dir_ok wal ->
  (forall i p, eg_shards e !! i = Some p ->
     Forall (fun rec => rec_CommandSeq rec <= lasts0 i) (old i) /\
     history (fun sym => ShardFor r sym = Some (Z.of_nat i)) (lasts0 i)
       (initial restored (SymbolsForShard r (Z.of_nat i))) (recs i ++ more i) (L i) (F i) /\
     ReadShardRecordsForEngine wal (cfg_EngineID cfg) (Z.of_nat i) (cfg_ShardCount cfg) =
       Ret (inr (old i ++ recs i ++ more i))) ->
  exists snap out lasts', engineSnapshot e = Ret snap /\ snapshot_ok (inr (snap, path)) /\
    recoverBooks cfg r (inr (snap, path)) wal = Ret (inr (out, lasts')) /\
    (forall sym id, ShardFor r sym = Some id -> out !! sym = F (Z.to_nat id) !! sym) /\
    (forall id, 0 <= id < cfg_ShardCount cfg -> lasts' !! Z.to_nat id = Some (L (Z.to_nat id))).
Proof.
  intros Hd Hall. destruct (cut_histories old more L F path) as (snap & restored1 & Fs & Esnap & Hsok & Hload & HFl & HFs).
  { intros i p Hp. by destruct (Hall _ _ Hp) as (? & ? & _). }
  assert (forall id, 0 <= id < cfg_ShardCount cfg -> exists p F1, eg_shards e !! Z.to_nat id = Some p /\
    Fs !! Z.to_nat id = Some F1) as Hshard.
  { intros id Hid. destruct (lookup_lt_is_Some_2 (eg_shards e) (Z.to_nat id)) as [p Hp]; [lia|].
    destruct (lookup_lt_is_Some_2 Fs (Z.to_nat id)) as [F1 HF]; [lia|]. by exists p, F1. }
  destruct (recoverBooks_complete cfg r (inr (snap, path)) wal restored1 (map (fun p => lastApplied p.1) (eg_shards e))
    (fun id => old (Z.to_nat id) ++ recs (Z.to_nat id) ++ more (Z.to_nat id)) (fun id => L (Z.to_nat id))
    (fun id => default ∅ (Fs !! Z.to_nat id)) Hc Hreg Hsok Hd Hload) as (out & lasts' & Erec & Hout & Hlasts).
  - intros id Hid. destruct (Hshard id Hid) as (p & _ & Hp & _). destruct (Hall _ _ Hp) as (_ & _ & Hread).
    by rewrite Z2Nat.id in Hread by lia.
  - intros id Hid. destruct (Hshard id Hid) as (p & F1 & Hp & HF). exists (lastApplied p.1). rewrite list_lookup_fmap, Hp.
    split; [done|]. rewrite HF. destruct (HFs _ _ _ Hp HF) as [_ Hh]. by rewrite Z2Nat.id in Hh by lia.
  - exists snap, out, lasts'. split_and!; [done|done|done| |done]. intros sym id Hsym. rewrite (Hout sym id Hsym).
    destruct (registry_shards _ _ _ _ Hc Hreg Hsym) as [Hid _]. destruct (Hshard id Hid) as (p & F1 & Hp & HF).
    rewrite HF. destruct (HFs _ _ _ Hp HF) as [Hag _]. apply Hag. by rewrite Z2Nat.id by lia.
Qed.
End Cut.

(** ** Properties *)

(** A snapshot is a consistent cut.  Take an engine whose shards started from the
    recovered books [restored], have handed the records [recs] to their logs and are
    drained: nothing pends, none has failed.  Then [CreateSnapshot] builds a snapshot,
    and whatever the shards log afterwards ([more], continuing their histories to the
    books [F] and watermarks [L]), recovery from this snapshot and the complete logs -
    the records from before the start, those before the snapshot and those after it -
    succeeds, with every symbol's book and every shard's watermark exactly those of the
    end of the logs. *)
Theorem snapshot_is_consistent_cut cfg r restored e lasts0 recs old more wal (L : nat -> Z) (F : nat -> state) path :
  0 < cfg_ShardCount cfg < 4294967296 ->
  NewSymbolRegistry (cfg_Symbols cfg) (cfg_ShardCount cfg) = Ret (inr r) ->
  map_Forall (fun _ s => book_ok s) restored -> keyed restored -> dir_ok wal ->
  eg_engineID e = cfg_EngineID cfg -> Z.of_nat (length (eg_shards e)) = cfg_ShardCount cfg ->
  (forall i loop w, eg_shards e !! i = Some (loop, w) ->
     drained_shard r restored (Z.of_nat i) (lasts0 i) loop (recs i) /\
     Forall (fun rec => rec_CommandSeq rec <= lasts0 i) (old i) /\
     history (fun sym => ShardFor r sym = Some (Z.of_nat i)) (lasts0 i)
       (initial restored (SymbolsForShard r (Z.of_nat i))) (recs i ++ more i) (L i) (F i) /\
     ReadShardRecordsForEngine wal (cfg_EngineID cfg) (Z.of_nat i) (cfg_ShardCount cfg) =
       Ret (inr (old i ++ recs i ++ more i))) ->
  exists snap out lasts', engineSnapshot e = Ret snap /\
    recoverBooks cfg r (inr (snap, path)) wal = Ret (inr (out, lasts')) /\
    (forall sym id, ShardFor r sym = Some id -> out !! sym = F (Z.to_nat id) !! sym) /\
    (forall id, 0 <= id < cfg_ShardCount cfg -> lasts' !! Z.to_nat id = Some (L (Z.to_nat id))).
Proof.
  intros Hc Hreg Hok Hk Hd He Hn Hall. destruct (cut_recovers cfg r restored e Hc Hreg He Hn lasts0 recs) with (old := old) (more := more)
    (wal := wal) (L := L) (F := F) (path := path) as (snap & out & lasts' & H1 & _ & H2); [|done| |by exists snap, out, lasts'].
  - intros i [loop w] Hp. destruct (Hall _ _ _ Hp) as (Hdr & _).
    destruct (drained_shard_state _ _ _ _ _ _ Hok Hk Hdr) as (A & H1 & H2 & H3 & H4). exists A. by apply (cut_shard_of cfg).
  - intros i [loop w] Hp. by destruct (Hall _ _ _ Hp) as (_ & ? & ? & ?).
Qed.

(** An engine with two shards, of which one has answered a command; both go on after the
    snapshot. *)
Definition cut_registry : SymbolRegistry :=
  match NewSymbolRegistry ["AAPL"; "BTCUSD"]%string 2 with Ret (inr r) => r | _ => mkSymbolRegistry 2 ∅ ∅ end.
Definition cut_l0 (id : Z) : Loop := ran (newLoop id (SymbolsForShard cut_registry id) true ∅).
Definition cut_l1 : Loop := ran (loop_iteration (OnCommand c1 10 (inr 0%nat)) (set_lastApplied 0 (cut_l0 1))).
Definition cut_l2 : Loop := ran (loop_iteration (OnAck None) cut_l1).
Definition cut_writer : Writer := mkWriter Starting (mkWriterState 0 None 0) (mkSlice [] []) [] false [] false None [] [] [] [] [].
Definition cut_engine : Engine :=
  mkEngine cut_registry (NewSequencer 4 1 2 cut_registry)
    [(set_lastApplied 0 (cut_l0 0), cut_writer); (cut_l2, cut_writer)] "engine-1" "snap" None.
Definition cut_recs (i : nat) : list Record_ := match i with 1%nat => [live_record 1 c1 aapl0] | _ => [] end.
Definition cut_more (i : nat) : list Record_ :=
  match i with 0%nat => [live_record 0 c2 btc0] | 1%nat => [live_record 1 c3 aapl1] | _ => [] end.
Definition cut_F (i : nat) : state :=
  match i with 0%nat => {[ "BTCUSD"%string := btc2 ]} | _ => {[ "AAPL"%string := aapl3 ]} end.

Lemma cut_drained_0 : drained_shard cut_registry ∅ 0 0 (set_lastApplied 0 (cut_l0 0)) [].
Proof. exists (cut_l0 0), [], [], 0. split_and!; [vm_compute; reflexivity|constructor|done|vm_compute; reflexivity..]. Qed.

Lemma cut_drained_1 : drained_shard cut_registry ∅ 1 0 cut_l2 (cut_recs 1).
Proof.
  eexists (cut_l0 1), (([] ++ [OnCommand c1 10 (inr 0%nat)]) ++ [OnAck None]),
    (([] ++ new_of (OnCommand c1 10 (inr 0%nat)) (set_lastApplied 0 (cut_l0 1))) ++ new_of (OnAck None) cut_l1), 1.
  split_and!; [vm_compute; reflexivity| |vm_compute; reflexivity..].
  eapply served_event; [eapply served_event; [apply served_start| | |]| | |].
  - by vm_compute.
  - split_and!; [split; vm_compute; split; congruence|by vm_compute|done].
  - vm_compute; reflexivity.
  - by vm_compute.
  - done.
  - vm_compute; reflexivity.
Qed.

Lemma cut_history i : i = 0%nat \/ i = 1%nat ->
  history (fun sym => ShardFor cut_registry sym = Some (Z.of_nat i)) 0
    (initial ∅ (SymbolsForShard cut_registry (Z.of_nat i))) (cut_recs i ++ cut_more i) (if (i =? 0)%nat then 2 else 3) (cut_F i).
Proof.
  intros [->| ->].
  - eapply hist_new; [done|vm_compute; reflexivity..|]. vm_compute. apply hist_done.
  - eapply hist_new; [done|vm_compute; reflexivity..|].
    eapply hist_new; [done|vm_compute; reflexivity..|]. vm_compute. apply hist_done.
Qed.

Lemma snapshot_is_consistent_cut_witness :
  exists snap out lasts', engineSnapshot cut_engine = Ret snap /\
    recoverBooks demo_cfg cut_registry (inr (snap, ""%string)) demo_wal = Ret (inr (out, lasts')) /\
    out !! "AAPL"%string = Some aapl3 /\ lasts' !! 1%nat = Some 3.
Proof.
  assert (0 < cfg_ShardCount demo_cfg < 4294967296) as Hc by (vm_compute; split; reflexivity).
  assert (keyed ∅) as Hk by (intros sym s E; by rewrite lookup_empty in E).
  destruct (snapshot_is_consistent_cut demo_cfg cut_registry ∅ cut_engine (fun _ => 0) cut_recs (fun _ => []) cut_more
    demo_wal (fun i => if (i =? 0)%nat then 2 else 3) cut_F ""%string Hc eq_refl (map_Forall_empty _) Hk demo_wal_ok eq_refl eq_refl)
    as (snap & out & lasts' & E1 & E2 & H1 & H2).
  - intros i loop w Hi. destruct i as [|[|i]]; [injection Hi as <- _|injection Hi as <- _|done].
    + split; [exact cut_drained_0|]. split; [constructor|]. split; [by apply cut_history; left|vm_compute; reflexivity].
    + split; [exact cut_drained_1|]. split; [constructor|]. split; [by apply cut_history; right|vm_compute; reflexivity].
  - exists snap, out, lasts'. split; [exact E1|]. split; [exact E2|]. split.
    + rewrite (H1 "AAPL"%string 1); vm_compute; reflexivity.
    + apply (H2 1). vm_compute; split; congruence.
Defined.
