(* ===== verification/EngineStart.v ===== *)
(** * EngineStart: a new engine continues where recovery ended

    What [NewEngine] gives every shard, and that the commands its sequencer sends to a
    shard are exactly of the kind the shard loop relies on. *)

From S2P Require Import Prelude Model Book BookSpec BookRep BookApply BookWalk BookTrace Bytes Codec CodecFacts.
From S2P Require Import Fs Names Disk Reader Registry Recovery RecoveryProps SnapStore Metrics Writer.
From S2P Require Import Sequencer SequencerProps Loop LoopProps Engine EngineProps.

(** ** What replay keeps *)

(** Well-formed books of the same symbols, and 64-bit watermarks. *)
Record sound (A A' : state) (last last' : Z) : Prop := {
  sd_books : map_Forall (fun _ s => book_ok s) A -> map_Forall (fun _ s => book_ok s) A';
  sd_dom : forall sym, is_Some (A' !! sym) <-> is_Some (A !! sym);
  sd_last : is_u64 last -> is_u64 last'
}.

Lemma history_sound P last A recs last' A' :
  history P last A recs last' A' -> Forall record_typed recs -> sound A A' last last'.
Proof.
  induction 1 as [|last A rec recs last' A' Hle H IH|last A rec recs last' A' s Hlt HP Hs Hr H IH]; intros Ht.
  - by split.
  - apply IH. by apply Forall_cons in Ht as [_ ?].
  - apply Forall_cons in Ht as [Hrec Ht]. destruct (IH Ht) as [H1 H2 H3]. split.
    + intros Hb. apply H1, map_Forall_insert_2; [|done]. apply spec_Apply_ok; [apply Hrec|]. by eapply (Hb _ _ Hs).
    + intros sym. rewrite H2. destruct (decide (sym = cmd_Symbol (rec_Command rec))) as [->|Hne].
      * rewrite lookup_insert_eq, Hs. by split; eexists.
      * by rewrite lookup_insert_ne.
    + intros _. apply H3. apply Hrec.
Qed.

Lemma replays_sound cfg wal n id lasts A lasts' A' :
  dir_ok wal -> replays cfg wal n id lasts A lasts' A' ->
  (map_Forall (fun _ s => book_ok s) A -> map_Forall (fun _ s => book_ok s) A') /\
  (forall sym, is_Some (A' !! sym) <-> is_Some (A !! sym)) /\
  (Forall is_u64 lasts -> Forall is_u64 lasts') /\ length lasts' = length lasts.
Proof.
  intros Hd. induction 1 as [|n id lasts A recs last last' A1 lasts' A' Hr Hl Hh _ IH]; [done|].
  destruct (ReadShardRecordsForEngine_total wal (cfg_EngineID cfg) id (cfg_ShardCount cfg) Hd) as (x & Ex & Hx).
  destruct (history_sound _ _ _ _ _ _ Hh (Hx recs ltac:(congruence))) as [H1 H2 H3].
  destruct IH as (I1 & I2 & I3 & I4). split_and!; [auto| | |by rewrite I4, length_insert].
  - intros sym. by rewrite I2, H2.
  - intros Hu. apply I3, Forall_insert; [done|]. apply H3. rewrite Forall_lookup in Hu. by apply (Hu _ _ Hl).
Qed.

(** The watermarks of the snapshot are 64-bit numbers. *)
Definition snapshot_typed (latest : error + (EngineSnapshot * string)) : Prop :=
  match latest with
  | inl _ => True
  | inr (snap, _) => Forall is_u64 (es_LastAppliedByShard snap)
  end.

Lemma loadSnapshot_typed cfg r latest restored lasts :
  snapshot_typed latest -> loadSnapshot cfg r latest = inr (restored, lasts) -> Forall is_u64 lasts.
Proof.
  unfold loadSnapshot, snapshot_typed. intros Hs H. repeat case_match; simplify_eq; [|done].
  apply Forall_replicate. vm_compute. split; congruence.
Qed.

Lemma recoverBooks_sound cfg r latest wal out lasts :
  0 < cfg_ShardCount cfg -> snapshot_ok latest -> snapshot_typed latest -> dir_ok wal ->
  recoverBooks cfg r latest wal = Ret (inr (out, lasts)) ->
  map_Forall (fun _ s => book_ok s) out /\ (forall sym, is_Some (out !! sym) <-> sym ∈ cfg_Symbols cfg) /\
  Forall is_u64 lasts /\ length lasts = Z.to_nat (cfg_ShardCount cfg).
Proof.
  intros Hc Hs Ht Hd Hr. destruct (recoverBooks_inv _ _ _ _ _ _ Hc Hs Hd Hr) as (restored & lasts0 & Hl & Hrp).
  destruct (replays_sound _ _ _ _ _ _ _ _ Hd Hrp) as (H1 & H2 & H3 & H4). split_and!.
  - apply H1. destruct (openBooks_ok restored (cfg_Symbols cfg) ∅ ∅ (loadSnapshot_ok _ _ _ _ _ Hs Hl) books_rep_empty)
      as (books & _ & Hb). fold (initial restored (cfg_Symbols cfg)) in Hb. intros sym s Es. specialize (Hb sym).
    rewrite Es in Hb. inversion Hb as [? ? [_ Hok] E1 E2|]. by subst.
  - intros sym. rewrite H2. split; [apply initial_symbols|apply initial_dom].
  - apply H3. by eapply loadSnapshot_typed.
  - rewrite H4. apply (loadSnapshot_length _ _ _ _ _ (Z.lt_le_incl _ _ Hc) Hl).
Qed.

(** ** The next sequence number *)

Lemma running_max (l : list Z) m :
  let f := fun maxSequence sequence => if sequence >? maxSequence then sequence else maxSequence in
  m <= fold_left f l m /\ Forall (fun s => s <= fold_left f l m) l /\ (fold_left f l m = m \/ fold_left f l m ∈ l).
Proof.
  cbv zeta. revert m. induction l as [|x l IH]; intros m; cbn [fold_left]; [split_and!; [lia|constructor|by left]|].
  destruct (IH (if x >? m then x else m)) as (H1 & H2 & H3). split_and!.
  - destruct (x >? m) eqn:E; lia.
  - constructor; [|done]. destruct (x >? m) eqn:E; lia.
  - destruct H3 as [->|H3]; [|right; by right]. destruct (x >? m); [right; by left|by left].
Qed.

Lemma nextSequence_above lasts :
  Forall is_u64 lasts -> nextSequence lasts <> 0 ->
  Forall (fun s => s < nextSequence lasts) lasts /\ 0 < nextSequence lasts < 18446744073709551616.
Proof.
  intros Hu Hn. unfold nextSequence in *. destruct (running_max lasts 0) as (H1 & H2 & H3).
  set (m := fold_left _ lasts 0) in *. assert (is_u64 m) as Hm.
  { destruct H3 as [->|H3]; [vm_compute; split; congruence|]. rewrite Forall_forall in Hu. by apply Hu. }
  assert (u64_add m 1 = m + 1) as E by int_lia. rewrite E. split; [|int_lia].
  eapply Forall_impl; [exact H2|]. cbn. lia.
Qed.

(** ** The shards of a new engine *)

Lemma startShards_lookup cfg registry books lasts mkdir n id shards :
  0 <= id -> startShards cfg registry books lasts mkdir n id = Ret (inr shards) ->
  length shards = n /\ forall i loop w, shards !! i = Some (loop, w) ->
    exists l0 last, newLoop (id + Z.of_nat i) (SymbolsForShard registry (id + Z.of_nat i)) true books = Ret l0 /\
      lasts !! Z.to_nat (id + Z.of_nat i) = Some last /\ loop = set_lastApplied last l0 /\
      NewWriter (writer_config cfg (id + Z.of_nat i)) (mkdir (id + Z.of_nat i)) = inr w.
Proof.
  revert id shards. induction n as [|n IH]; intros id shards Hid; cbn [startShards].
  { intros [= <-]. split; [done|]. intros i loop w Hi. by rewrite lookup_nil in Hi. }
  destruct (NewWriter _) as [err|w0] eqn:Ew; [done|].
  destruct (newLoop _ _ _ _) as [l0| |] eqn:El; cbn [obind]; [|done|done].
  destruct (lasts !! Z.to_nat id) as [last|] eqn:Ea; [|done].
  destruct (startShards _ _ _ _ _ n _) as [[err|rest]| |] eqn:Er; cbn [obind]; [done| |done|done]. intros [= <-].
  destruct (IH (id + 1) rest ltac:(lia) Er) as [Hlen Hrest]. split; [cbn; by rewrite Hlen|].
  intros [|i] loop w; cbn [lookup list_lookup]; intros Hi.
  - injection Hi as <- <-. rewrite Z.add_0_r. by exists l0, last.
  - replace (id + Z.of_nat (S i)) with (id + 1 + Z.of_nat i) by lia. by apply Hrest.
Qed.

(** The commands sent to an inbox. *)
Definition inbox_commands (i : nat) (acts : list action) : list Command :=
  omap (fun p => if decide (p.1 = i) then Some p.2 else None) (sent_commands acts).

Lemma numbers_sorted k n : StronglySorted Z.lt (numbers k n) /\ Forall (fun x => k <= x) (numbers k n).
Proof.
  unfold numbers. generalize 0%nat. induction n as [|n IH]; intros j; cbn [seq map]; [split; constructor|].
  destruct (IH (S j)) as [H1 H2]. split.
  - constructor; [done|]. apply Forall_map, Forall_forall. intros x Hx%elem_of_seq. lia.
  - constructor; [lia|]. eapply Forall_impl; [exact H2|]. cbn. lia.
Qed.

Lemma Forall_sub {A} (Q : A -> Prop) (l k : list A) : l `sublist_of` k -> Forall Q k -> Forall Q l.
Proof. induction 1; intros Hk; [done| |]; apply Forall_cons in Hk as [? ?]; [constructor|]; auto. Qed.

Lemma StronglySorted_sublist {A} (R : A -> A -> Prop) (l k : list A) :
  l `sublist_of` k -> StronglySorted R k -> StronglySorted R l.
Proof.
  induction 1 as [|x l k Hs IH|x l k Hs IH]; intros Hk; [done| |]; inversion Hk as [|? ? Hk' Hx]; subst; [|by apply IH].
  constructor; [by apply IH|]. by eapply Forall_sub.
Qed.

Lemma inbox_sublist i acts : map cmd_Seq (inbox_commands i acts) `sublist_of` map (cmd_Seq ∘ snd) (sent_commands acts).
Proof.
  unfold inbox_commands. induction (sent_commands acts) as [|p l IH]; [done|]. cbn. destruct (decide (p.1 = i)); cbn.
  - by apply sublist_skip.
  - by apply sublist_cons.
Qed.

(** What every run of the sequencer sends to the inbox of a shard. *)
Lemma inbox_increasing (r : SymbolRegistry) shards init i last s :
  last < init -> sq_inv r shards init s -> StronglySorted Z.lt (last :: map cmd_Seq (inbox_commands i (sq_actions s))).
Proof.
  intros Hlt Hinv. destruct (sv_numbers _ _ _ _ Hinv) as (n & En & _).
  destruct (numbers_sorted init n) as [Hsort Hge]. rewrite <-En in Hsort, Hge.
  constructor; [by eapply StronglySorted_sublist; [apply inbox_sublist|]|].
  eapply Forall_sub; [apply inbox_sublist|]. eapply Forall_impl; [exact Hge|]. cbn. lia.
Qed.

Lemma inbox_known cfg r init i s cmd :
  small_count (cfg_ShardCount cfg) -> NewSymbolRegistry (cfg_Symbols cfg) (cfg_ShardCount cfg) = Ret (inr r) ->
  sq_inv r (Z.to_nat (cfg_ShardCount cfg)) init s -> cmd ∈ inbox_commands i (sq_actions s) ->
  cmd_Symbol cmd ∈ SymbolsForShard r (Z.of_nat i).
Proof.
  intros Hc Hreg Hinv (p & Hp & E)%list_elem_of_omap. destruct (decide (p.1 = i)) as [<-|]; [|done]. injection E as <-.
  pose proof (sv_routes _ _ _ _ Hinv) as Hroutes. rewrite Forall_forall in Hroutes. specialize (Hroutes p Hp). cbn in Hroutes.
  by apply (registry_symbols cfg).
Qed.

(** C14. A new engine continues where recovery ended.  When [NewEngine] succeeds it has
    recovered the books and watermarks; shard [i] has the watermark of its log, exactly
    the recovered books of the symbols routed to it, and a writer for its log.  In every
    run of the engine's sequencer, the commands sent to the inbox of shard [i] have
    strictly increasing sequence numbers above that watermark, and each is for a symbol
    the shard has a book for: what the shard loop and the replay of its log rely on. *)
Theorem new_engine_continues cfg latest wal mkdir e answers s :
  0 < cfg_ShardCount cfg < 4294967296 -> snapshot_ok latest -> snapshot_typed latest -> dir_ok wal ->
  NewEngine cfg latest wal mkdir = Ret (inr e) -> sq_steps answers (eg_sequencer e) s ->
  exists out lasts, recoverBooks cfg (eg_registry e) latest wal = Ret (inr (out, lasts)) /\
    Z.of_nat (length (eg_shards e)) = cfg_ShardCount cfg /\
    forall i loop w, eg_shards e !! i = Some (loop, w) ->
      lp_id loop = Z.of_nat i /\ lasts !! i = Some (lastApplied loop) /\
      NewWriter (writer_config cfg (Z.of_nat i)) (mkdir (Z.of_nat i)) = inr w /\
      books_rep (lp_books loop) (initial out (SymbolsForShard (eg_registry e) (Z.of_nat i))) /\
      StronglySorted Z.lt (lastApplied loop :: map cmd_Seq (inbox_commands i (sq_actions s))) /\
      Forall (fun cmd => is_Some (lp_books loop !! cmd_Symbol cmd)) (inbox_commands i (sq_actions s)).
Proof.
  intros Hc Hs Ht Hd Hnew Hsteps. unfold NewEngine in Hnew.
  destruct (NewSymbolRegistry _ _) as [[err|r]| |] eqn:Ereg; cbn [obind] in Hnew; try done.
  destruct (recoverBooks _ _ _ _) as [[err|[out lasts]]| |] eqn:Erec; cbn [obind] in Hnew; try done.
  destruct (Z.eqb_spec (nextSequence lasts) 0) as [|Hnz]; [done|].
  destruct (startShards _ _ _ _ _ _ _) as [[err|shards]| |] eqn:Est; cbn [obind] in Hnew; try done.
  injection Hnew as <-. cbn [eg_registry eg_sequencer eg_shards] in *. exists out, lasts. split; [done|].
  destruct (recoverBooks_sound _ _ _ _ _ _ (proj1 Hc) Hs Ht Hd Erec) as (Hok & Hdom & Hu & _).
  destruct (nextSequence_above lasts Hu Hnz) as [Habove Hinit].
  destruct (startShards_lookup _ _ _ _ _ _ _ _ (Z.le_refl 0) Est) as [Hlen Hshards]. split; [lia|].
  pose proof (NewSymbolRegistry_built _ _ _ Hc Ereg) as Hrok.
  pose proof (registry_in_range _ _ _ Hc Hrok) as Hrange.
  destruct (sq_steps_inv r _ _ Hinit answers _ _ (new_inv r _ _ Hinit (Z.to_nat (cfg_IngressQueueSize cfg))) Hsteps) as [Hinv _].
  intros i loop w Hi. destruct (Hshards i loop w Hi) as (l0 & last & El & Ea & -> & Ew). rewrite Z.add_0_l, ?Nat2Z.id in *.
  destruct (newLoop_inv (Z.of_nat i) (SymbolsForShard r (Z.of_nat i)) out last any_command Hok) as (l1 & El1 & Hl & _ & Hid & _ & Hf & _).
  assert (l1 = l0) as -> by congruence. pose proof (li_books _ _ _ _ _ _ _ _ Hl Hf) as Hb. cbn [lp_books set_lastApplied] in *.
  split_and!; [done|done|done|done| |].
  - apply (inbox_increasing r (Z.to_nat (cfg_ShardCount cfg)) (nextSequence lasts)); [|done].
    rewrite Forall_lookup in Habove. exact (Habove _ _ Ea).
  - apply Forall_forall. intros cmd Hcmd. specialize (Hb (cmd_Symbol cmd)).
    destruct (initial_dom out (SymbolsForShard r (Z.of_nat i)) (cmd_Symbol cmd)) as [sn Hsn]; [by eapply inbox_known|].
    rewrite Hsn in Hb. inversion Hb. by eexists.
Qed.

(** The engine of the crashed demo, restarted, with one command routed. *)
Definition fallback_engine : Engine :=
  mkEngine demo_registry (NewSequencer 1 1 2 demo_registry) [] "" "" None.
Definition restarted : Engine :=
  match NewEngine demo_cfg demo_snapshot demo_wal (fun _ => None) with Ret (inr e) => e | _ => fallback_engine end.
Definition restarted_sq : Sequencer SymbolRegistry :=
  handled_next (SubmitBlocking ChooseSend (demo_order "AAPL") 1 (eg_sequencer restarted)).2.

Lemma restarted_steps : sq_steps any_answer (eg_sequencer restarted) restarted_sq.
Proof.
  apply (sqs_step _ _ (SubmitBlocking ChooseSend (demo_order "AAPL") 1 (eg_sequencer restarted)).2);
    [apply (sqs_step _ _ (eg_sequencer restarted)); [apply sqs_refl|]|].
  - apply (ss_submit _ ChooseSend). by vm_compute.
  - eapply handled_step; [vm_compute; reflexivity|vm_compute; reflexivity|vm_compute; reflexivity|eexists; vm_compute; reflexivity].
Qed.

Lemma new_engine_continues_witness :
  map cmd_Seq (inbox_commands 1 (sq_actions restarted_sq)) = [4] /\
  exists out lasts, recoverBooks demo_cfg (eg_registry restarted) demo_snapshot demo_wal = Ret (inr (out, lasts)) /\
    Z.of_nat (length (eg_shards restarted)) = 2.
Proof.
  split; [vm_compute; reflexivity|].
  assert (NewEngine demo_cfg demo_snapshot demo_wal (fun _ => None) = Ret (inr restarted)) as En by (vm_compute; reflexivity).
  assert (0 < cfg_ShardCount demo_cfg < 4294967296) as Hc by (vm_compute; split; reflexivity).
  assert (snapshot_typed demo_snapshot) as Ht by (repeat constructor; vm_compute; congruence).
  destruct (new_engine_continues demo_cfg demo_snapshot demo_wal (fun _ => None) restarted any_answer restarted_sq Hc demo_snapshot_ok Ht demo_wal_ok En restarted_steps)
    as (out & lasts & H1 & H2 & _).
  exists out, lasts. split; [exact H1|exact H2].
Defined.
