(* ===== verification/System.v ===== *)
(** * System: the whole engine, running

    The sequencer and the shards of an engine interleaved: the sequencer's goroutine
    and its clients take their steps, every shard takes from its inbox what the
    sequencer has sent to it, in order, and runs against its own writer and disk.  An
    inbox is the list of the messages sent to it, with the number already taken.  The
    answers to a barrier or a drain the sequencer waits for are those the loops have sent.
    The segment files of a shard are its own, so each shard has a disk. *)

From S2P Require Import Prelude Model Book BookSpec BookRep BookApply BookWalk BookTrace Bytes Codec CodecFacts.
From S2P Require Import Fs Names Disk Reader Registry Recovery RecoveryProps SnapStore Metrics Writer WriterFacts WriterSafe WriterProps.
From S2P Require Import Sequencer SequencerProps Rounds Loop LoopProps Typed Shard Engine EngineProps EngineStart.

(** ** Inboxes *)

(** The commands among messages, with their reply channels. *)
Definition routed_commands (msgs : list Routed) : list (Command * nat) :=
  omap (fun msg => match msg with RoutedCommand cmd reply => Some (cmd, reply) | _ => None end) msgs.

(** The event by which the loop handles a message. *)
Definition receives (msg : Routed) (ev : loop_event) : Prop :=
  match msg, ev with
  | RoutedCommand cmd reply, OnCommand cmd' reply' _ => cmd' = cmd /\ reply' = reply
  | RoutedBarrier barrierDone, OnBarrier done' _ _ => done' = barrierDone
  | RoutedDrain drainAck drainWait, OnDrain ack' wait' _ _ => ack' = drainAck /\ wait' = drainWait
  | _, _ => False
  end.

(** Where the events of shard [i] come from, when it has taken [n] messages. *)
Inductive comes_from (i : nat) (s : Sequencer SymbolRegistry) (l : Loop) (n : nat) : loop_event -> nat -> Prop :=
| cf_message msg ev : inbox_messages i (sq_actions s) !! n = Some msg -> receives msg ev -> comes_from i s l n ev (S n)
| cf_closed : ClosedInbox i ∈ sq_actions s -> n = length (inbox_messages i (sq_actions s)) -> comes_from i s l n OnClosed n
| cf_ack err : comes_from i s l n (OnAck err) n
| cf_released c : lp_drain l = Some c -> c ∈ sq_released s -> comes_from i s l n OnReleased n.

(** ** Steps *)

Record part := mkPart { pt_shard : shard; pt_taken : nat }.
Record system := mkSystem { sy_sequencer : Sequencer SymbolRegistry; sy_parts : list part }.

(** The highest number a shard has seen. *)
Definition top_after (ev : loop_event) (top : Z) : Z := match ev with OnCommand cmd _ _ => cmd_Seq cmd | _ => top end.

Inductive part_step (cfg : WriterConfig) (i : nat) (s : Sequencer SymbolRegistry) : part -> part -> Prop :=
| ps_client l w w' dk top n :
    client_step cfg w w' -> w_sent w' = w_sent w ->
    part_step cfg i s (mkPart (mkShard l w dk top) n) (mkPart (mkShard l w' dk top) n)
| ps_run l w w' dk dk' top fs fs' n :
    st_segmentIndex (w_state w) < 1000000 -> run_step cfg w dk fs (Done (inr (Ret w')) dk' fs') ->
    part_step cfg i s (mkPart (mkShard l w dk top) n) (mkPart (mkShard l w' dk' top) n)
| ps_event ev l l' w w' dk top n n' :
    comes_from i s l n ev n' -> loop_ready ev l = true -> loop_iteration ev l = Ret l' ->
    appends cfg ev l w w' -> acks_sent ev l w ->
    part_step cfg i s (mkPart (mkShard l w dk top) n) (mkPart (mkShard l' w' dk (top_after ev top)) n').

(** The commands of clients have the types of the program. *)
Definition request_typed (req : request) : Prop := match req with requestCommand cmd _ => command_typed cmd | _ => True end.

(** What the shards have answered to barriers and drains. *)
Definition answered (parts : list part) (i chan : nat) (err : option error) : Prop :=
  exists p, parts !! i = Some p /\ (chan, err) ∈ lp_flushes (sh_loop (pt_shard p)).

Inductive system_step (cfg : Config) : system -> system -> Prop :=
| sy_sequence s s' parts :
    sq_step (answered parts) s s' -> Forall request_typed (sq_ingressQ s') -> system_step cfg (mkSystem s parts) (mkSystem s' parts)
| sy_shard s parts i p p' :
    parts !! i = Some p -> part_step (writer_config cfg (Z.of_nat i)) i s p p' ->
    system_step cfg (mkSystem s parts) (mkSystem s (<[i := p']> parts)).

Inductive system_steps (cfg : Config) : system -> system -> Prop :=
| sys_refl sy : system_steps cfg sy sy
| sys_step sy sy' sy'' : system_steps cfg sy sy' -> system_step cfg sy' sy'' -> system_steps cfg sy sy''.

(** An engine that starts on the disks [dks]. *)
Definition start (e : Engine) (dks : nat -> disk) : system :=
  mkSystem (eg_sequencer e)
    (imap (fun i p => mkPart (mkShard p.1 p.2 (dks i) (lastApplied p.1)) 0) (eg_shards e)).

(** The machine stops: what is left of the directory [wal] are, for every shard, the
    files a crash leaves of its disk. *)
Definition leaves (cfg : Config) (sy : system) (wal : dir) : Prop :=
  dir_ok wal /\
  forall i p, sy_parts sy !! i = Some p ->
    exists dk d, shard_crash (writer_config cfg (Z.of_nat i)) (pt_shard p) dk /\ survives dk d /\
      forall name, glob_match (shard_prefix (Z.of_nat i)) ".wal" name = true -> wal !! name = d !! name.
