(* ===== verification/Inbox.v ===== *)
(** * Inbox: what a shard has taken from its inbox

    The messages a shard has received so far, and how they show in its state: the log has
    their commands, every barrier and drain was answered, and a drained shard has stopped
    at its drain. *)

From S2P Require Import Prelude Model Book BookSpec BookRep BookApply BookWalk BookTrace Codec.
From S2P Require Import Registry Recovery RecoveryProps Metrics Sequencer SequencerProps Rounds Loop LoopProps EngineStart System.

(** ** Inboxes *)

Lemma routed_commands_snoc msgs msg :
  routed_commands (msgs ++ [msg]) =
  routed_commands msgs ++ match msg with RoutedCommand cmd reply => [(cmd, reply)] | _ => [] end.
Proof. unfold routed_commands. rewrite omap_app. by destruct msg. Qed.

Lemma routed_inbox i acts : map fst (routed_commands (inbox_messages i acts)) = inbox_commands i acts.
Proof.
  unfold routed_commands, inbox_messages, inbox_commands, sent_commands.
  induction acts as [|[j msg|? ?|? ?|?|?] acts IH]; cbn; [done| |done..].
  destruct (decide (j = i)) as [->|Hne]; destruct msg as [cmd reply|?|? ?]; cbn; rewrite ?IH; try done.
  - rewrite decide_True by done. done.
  - rewrite decide_False by done. done.
Qed.

(** The command at a position of an inbox, after those before it. *)
Lemma routed_split i acts n cmd reply :
  inbox_messages i acts !! n = Some (RoutedCommand cmd reply) ->
  exists after, map fst (routed_commands (take n (inbox_messages i acts))) ++ cmd :: after = inbox_commands i acts.
Proof.
  intros Hn. rewrite <-routed_inbox. set (msgs := inbox_messages i acts) in *.
  exists (map fst (routed_commands (drop (S n) msgs))).
  transitivity (map fst (routed_commands (take n msgs ++ RoutedCommand cmd reply :: drop (S n) msgs)));
    [|by rewrite take_drop_middle].
  unfold routed_commands. by rewrite omap_app, map_app.
Qed.

(** Every command of an inbox is for a symbol the shard has. *)
Definition no_command (_ : Command) : Prop := False.

(** The command and the reply channel of an entry of the log. *)
Definition routed_of (e : entry) : Command * nat := (rec_Command (en_rec e), en_reply e).

Lemma new_of_routed ev l :
  map routed_of (new_of ev l) `sublist_of` match ev with OnCommand cmd r _ => [(cmd, r)] | _ => [] end.
Proof.
  unfold new_of. destruct ev as [cmd r [err|ack]| | | | |]; try done.
  - apply sublist_nil_l.
  - destruct (append_of _ _) as [rec|] eqn:E; [|apply sublist_nil_l]. cbn in E.
    destruct (lp_failedErr l); [done|]. destruct (lp_books l !! _); [|done]. destruct (Apply _ _) as [p| |]; [|done|done].
    injection E as <-. done.
Qed.


(** ** Messages and events *)

(** The message an event handles. *)
Definition message_of (ev : loop_event) : list Routed :=
  match ev with
  | OnCommand cmd r _ => [RoutedCommand cmd r]
  | OnBarrier c _ _ => [RoutedBarrier c]
  | OnDrain c wait _ _ => [RoutedDrain c wait]
  | _ => []
  end.

Lemma comes_from_take i s l n ev n' :
  comes_from i s l n ev n' -> (n <= length (inbox_messages i (sq_actions s)))%nat ->
  (n' <= length (inbox_messages i (sq_actions s)))%nat /\
  take n' (inbox_messages i (sq_actions s)) = take n (inbox_messages i (sq_actions s)) ++ message_of ev.
Proof.
  intros [msg ev' Hmsg Hrc|Hcl Hlen|err|c Hd Hrel] Hn; cbn [message_of]; rewrite ?app_nil_r; try done.
  split; [by apply lookup_lt_Some in Hmsg|]. rewrite (take_S_r _ _ _ Hmsg). f_equal.
  destruct msg as [cmd reply|d|a w], ev' as [cmd' q ap|d' f rv|a' w' f rv| | |err]; try done; cbn in Hrc; by destruct_and?; subst.
Qed.

Lemma released_from i s l n ev n' c :
  comes_from i s l n ev n' -> ev = OnReleased -> lp_drain l = Some c -> c ∈ sq_released s.
Proof.
  intros [msg ev' Hmsg Hrc|Hcl Hlen|err|c' Hd Hrel] E Hc; [|done|done|].
  - subst. by destruct msg.
  - assert (c' = c) as -> by congruence. done.
Qed.

(** A loop whose inbox is closed has taken everything. *)
Lemma comes_from_closed i s l l' n ev n' :
  comes_from i s l n ev n' -> loop_ready ev l = true -> loop_iteration ev l = Ret l' ->
  (lp_inbox l = false -> ClosedInbox i ∈ sq_actions s /\ n = length (inbox_messages i (sq_actions s))) ->
  lp_inbox l' = false -> ClosedInbox i ∈ sq_actions s /\ n' = length (inbox_messages i (sq_actions s)).
Proof.
  intros Hcf Hr Hi Hcl. destruct (iteration_effects _ _ _ Hi) as (_ & _ & _ & _ & -> & _).
  destruct Hcf as [msg ev Hmsg Hrc|Hin Hlen|err|c Hd Hrel]; [|done|done|done].
  destruct msg, ev; try done; cbn in Hr; intros Hl; rewrite Hl, andb_false_r in Hr; done.
Qed.

Lemma message_chan ev : omap msg_chan (message_of ev) = flush_of ev.
Proof. by destruct ev. Qed.

Lemma routed_message M ev :
  routed_commands (M ++ message_of ev) = routed_commands M ++ match ev with OnCommand cmd r _ => [(cmd, r)] | _ => [] end.
Proof. unfold routed_commands. rewrite omap_app. by destruct ev. Qed.

(** A command that does not fail the shard is in the log. *)
Lemma new_of_all P last0 A0 ev l l' g A top :
  loop_inv P last0 A0 no_command l g A top -> known A0 no_command ev -> loop_iteration ev l = Ret l' -> lp_failedErr l' = None ->
  map routed_of (new_of ev l) = match ev with OnCommand cmd r _ => [(cmd, r)] | _ => [] end.
Proof.
  intros Hinv Hk Hi Hf. destruct ev as [cmd r appended| | | | |]; try done.
  destruct (iteration_effects _ _ _ Hi) as (Hmono & _). specialize (Hmono Hf). cbn [loop_iteration] in Hi.
  unfold enqueueCommand in Hi. unfold new_of, append_of. rewrite Hmono in Hi |- *.
  pose proof (li_books _ _ _ _ _ _ _ _ Hinv Hmono (cmd_Symbol cmd)) as Hsym. cbn in Hk.
  assert (is_Some (A !! cmd_Symbol cmd)) as [s Es].
  { apply (li_dom _ _ _ _ _ _ _ _ Hinv). destruct (A0 !! cmd_Symbol cmd); [by eexists|by destruct (Hk eq_refl)]. }
  rewrite Es in Hsym. inversion Hsym as [b ? _ Eb|]; subst. rewrite <-Eb in Hi.
  destruct (Apply cmd b) as [[res b']| |]; cbn [obind] in Hi; [|done|done]. cbn [set_books lp_wal] in Hi.
  rewrite (li_wal _ _ _ _ _ _ _ _ Hinv) in Hi. cbn [negb] in Hi. destruct appended as [err|ack]; injection Hi as <-; done.
Qed.

(** ** The invariant *)

(** After the messages [M], when [released] are the closed release channels. *)
Record taken_inv (M : list Routed) (released : list nat) (l : Loop) (g : ledger) : Prop := {
  tk_log : map routed_of (gh_log g) `sublist_of` routed_commands M;
  tk_all : lp_failedErr l = None -> map routed_of (gh_log g) = routed_commands M;
  tk_flushes : map fst (lp_flushes l) = omap msg_chan M;
  tk_barriers : forall c, (c, None) ∈ lp_flushes l -> exists before msg after,
    M = before ++ msg :: after /\ msg_chan msg = Some c /\ routed_commands before `prefix_of` map routed_of (gh_done g);
  tk_blocked : forall rel, lp_drain l = Some rel -> lp_pending l = [] /\
    exists before c, M = before ++ [RoutedDrain c rel] /\ (c, lp_failedErr l) ∈ lp_flushes l;
  tk_drains : forall before c rel, M = before ++ [RoutedDrain c rel] -> rel ∉ released -> lp_drain l = Some rel
}.

Lemma taken_start released l g :
  gh_log g = [] -> lp_flushes l = [] -> lp_drain l = None -> taken_inv [] released l g.
Proof.
  intros Hg Hf Hd. split; rewrite ?Hg, ?Hf, ?Hd; try done.
  - by intros c ?%elem_of_nil.
  - intros before c rel E. symmetry in E. by apply app_nil in E as [_ ?].
Qed.

Lemma newLoop_quiet id symbols wal snaps l : newLoop id symbols wal snaps = Ret l -> lp_flushes l = [] /\ lp_drain l = None /\ lp_inbox l = true.
Proof. unfold newLoop. destruct (openBooks _ _ _); [|done|done]. by intros [= <-]. Qed.

Lemma taken_more M released released' l g : released ⊆ released' -> taken_inv M released l g -> taken_inv M released' l g.
Proof. intros Hr [H1 H2 H3 H4 H5 H6]. split; try done. intros before c rel E Hnot. eapply H6; [exact E|]. intros Hin. by apply Hnot, Hr. Qed.

Section Step.
Context (P : string -> Prop) (last0 : Z) (A0 : state) (M : list Routed) (released : list nat).
Context (ev : loop_event) (l l' : Loop) (g g' : ledger) (A A' : state) (top top' : Z).
Context (Hinv : loop_inv P last0 A0 no_command l g A top) (Hinv' : loop_inv P last0 A0 no_command l' g' A' top').
Context (Hready : loop_ready ev l = true) (Hi : loop_iteration ev l = Ret l') (Hk : known A0 no_command ev).
Context (Hlog : gh_log g' = gh_log g ++ new_of ev l) (Hdone : gh_done g `prefix_of` gh_done g').
Context (Hrel : ev = OnReleased -> forall c, lp_drain l = Some c -> c ∈ released).
Context (Ht : taken_inv M released l g).

Lemma taken_all : lp_failedErr l' = None -> map routed_of (gh_log g') = routed_commands (M ++ message_of ev).
Proof.
  intros Hf. destruct (iteration_effects _ _ _ Hi) as (Hmono & _). rewrite Hlog, map_app, routed_message.
  by rewrite (tk_all _ _ _ _ Ht (Hmono Hf)), (new_of_all P last0 A0 ev l l' g A top).
Qed.

(** A barrier or drain that is answered without an error has everything done. *)
Lemma taken_flushed : flush_of ev <> [] -> lp_failedErr l' = None -> routed_commands M `prefix_of` map routed_of (gh_done g').
Proof.
  intros Hfl Hf. destruct (iteration_effects _ _ _ Hi) as (_ & _ & _ & _ & _ & Hp). specialize (Hp Hfl).
  pose proof (taken_all Hf) as E. unfold gh_log in E. rewrite (li_lost _ _ _ _ _ _ _ _ Hinv' Hf) in E.
  pose proof (li_pending _ _ _ _ _ _ _ _ Hinv') as Hw. rewrite Hp in Hw. destruct (gh_wait g'); [|done].
  rewrite !app_nil_r, routed_message in E. rewrite E. by eexists.
Qed.

Lemma taken_barriers c : (c, None) ∈ lp_flushes l' -> exists before msg after,
  M ++ message_of ev = before ++ msg :: after /\ msg_chan msg = Some c /\ routed_commands before `prefix_of` map routed_of (gh_done g').
Proof.
  destruct (iteration_effects _ _ _ Hi) as (_ & _ & -> & _). rewrite elem_of_app, list_elem_of_fmap. intros [Hc|(c' & E & Hc)].
  - destruct (tk_barriers _ _ _ _ Ht c Hc) as (before & msg & after & E & Hm & Hp). exists before, msg, (after ++ message_of ev).
    split_and!; [by rewrite E, <-app_assoc|done|]. etrans; [exact Hp|]. destruct Hdone as [more ->]. rewrite map_app. by eexists.
  - injection E as <- Hf. exists M, (match message_of ev with m :: _ => m | [] => RoutedBarrier 0 end), [].
    assert (flush_of ev <> []) as Hne by (intros E; rewrite E in Hc; by apply elem_of_nil in Hc).
    pose proof (taken_flushed Hne (eq_sym Hf)) as Hall. clear Hne.
    destruct ev; cbn in Hc |- *; try (by apply elem_of_nil in Hc); apply list_elem_of_singleton in Hc as ->; done.
Qed.

Lemma taken_step : taken_inv (M ++ message_of ev) released l' g'.
Proof.
  destruct (iteration_effects _ _ _ Hi) as (Hmono & _ & Hfl & Hdr & _ & Hp). destruct Ht as [H1 H2 H3 H4 H5 H6]. split.
  - rewrite Hlog, map_app, routed_message. apply sublist_app; [done|apply new_of_routed].
  - apply taken_all.
  - rewrite Hfl, map_app, H3, omap_app, message_chan, map_map. cbn. by rewrite map_id.
  - apply taken_barriers.
  - intros rel. rewrite Hdr, Hfl. destruct ev as [cmd r ap|c f rv|c w f rv| | |err]; cbn in Hready; try done;
      try (intros E; unfold drained in Hready; by rewrite E in Hready).
    intros [= ->]. split; [by apply Hp|]. exists M, c. split; [done|]. apply elem_of_app. right. by left.
  - intros before c rel E Hnot. rewrite Hdr.
    destruct ev as [cmd r ap|c' f rv|c' w f rv| | |err]; cbn in E; rewrite ?app_nil_r in E;
      try (by apply app_inj_tail in E as [_ ?]).
    + apply app_inj_tail in E as [_ E]. by injection E as -> ->.
    + exfalso. apply Hnot, (Hrel eq_refl). by eapply H6.
    + pose proof (H6 _ _ _ E Hnot) as Hd. cbn in Hready. unfold drained in Hready. by rewrite Hd in Hready.
    + pose proof (H6 _ _ _ E Hnot) as Hd. cbn in Hready. unfold drained in Hready. by rewrite Hd in Hready.
Qed.
End Step.
