(* ===== verification/SystemProps.v ===== *)
(** * SystemProps: a running engine, and what a crash leaves of it *)

From S2P Require Import Prelude Model Book BookSpec BookRep BookApply BookWalk BookTrace Bytes Codec CodecFacts.
From S2P Require Import Fs Names Disk Reader Registry Recovery RecoveryProps SnapStore Metrics Writer WriterFacts WriterSafe WriterProps.
From S2P Require Import Sequencer SequencerProps Rounds Loop LoopProps Typed Shard Engine EngineProps EngineStart System Inbox.

(** ** Reading a shard only looks at its own files *)

Lemma readSegment_agree d d' path e id count v t :
  d !! path = d' !! path -> readSegment d path e id count v t = readSegment d' path e id count v t.
Proof. unfold readSegment, ReadFile. by intros ->. Qed.

Lemma readFiles_agree d d' e id count v files out :
  Forall (fun n => d !! n = d' !! n) files -> readFiles d e id count v files out = readFiles d' e id count v files out.
Proof.
  intros H. revert out. induction H as [|n files Hn _ IH]; intros out; [done|]. cbn [readFiles].
  rewrite (readSegment_agree d d') by done. destruct (readSegment _ _ _ _ _ _ _) as [[err|recs]| |]; cbn [obind]; auto.
Qed.

Lemma read_agree d d' e id count :
  (forall n, glob_match (shard_prefix id) ".wal" n = true -> d !! n = d' !! n) ->
  ReadShardRecordsForEngine d e id count = ReadShardRecordsForEngine d' e id count.
Proof.
  intros H. unfold ReadShardRecordsForEngine, readShardRecords.
  assert (glob_sorted d (shard_prefix id) ".wal" = glob_sorted d' (shard_prefix id) ".wal") as E.
  { apply glob_sorted_ext. intros n Hn. by rewrite H. }
  rewrite E. apply readFiles_agree, Forall_forall. intros n [Hn _]%glob_sorted_elem. by apply H.
Qed.

(** ** What the sequencer sends *)

(** A step adds at most one command, which was in the queue. *)
Section Sent.
Context (answers : nat -> nat -> option error -> Prop).

Lemma sq_step_sent (s s' : Sequencer SymbolRegistry) :
  sq_step answers s s' ->
  exists acts, sq_actions s' = sq_actions s ++ acts /\
    (sent_commands acts = [] \/
     exists i cmd reply q, sq_ingressQ s = requestCommand cmd reply :: q /\
       sent_commands acts = [(i, with_Seq (sq_nextSeq s) cmd)]).
Proof.
  intros Hs. assert (forall s1 : Sequencer SymbolRegistry, sq_actions s1 = sq_actions s ->
    exists acts, sq_actions s1 = sq_actions s ++ acts /\
    (sent_commands acts = [] \/ exists i cmd reply q, sq_ingressQ s = requestCommand cmd reply :: q /\
       sent_commands acts = [(i, with_Seq (sq_nextSeq s) cmd)])) as Hsame.
  { intros s1 ->. exists []. rewrite app_nil_r. auto. }
  assert (forall release result inbox ferr (s1 : Sequencer SymbolRegistry), sq_actions s1 = sq_actions s ->
    exists acts, sq_actions (fan_out release result inbox ferr s1) = sq_actions s ++ acts /\ sent_commands acts = []) as Hfan.
  { intros release result inbox ferr s1 E. destruct (fan_out_ok release result inbox ferr s1) as (a & [] & [_ Hq] & _).
    exists [a]. by rewrite <-E. }
  destruct Hs as [req q depth s s' Hfree Eq Hh|rd err s Hw Ha|c s Hd Hr|c cmd reply s Hroom|cmd reply s
    |c result s Hroom|c result rel s Hroom|c received rel s|rel s|c d s Hroom]; try (apply Hsame;
      unfold SubmitBlocking, SubmitNonBlocking, Barrier, AcquireDrain, AcquireDrain_wait, Shutdown, markClosed;
      by repeat (case_match; simplify_eq/=)).
  2:{ destruct (Hfan (rd_release rd) (rd_result rd) (S (rd_inbox rd)) (first_of (rd_firstErr rd) err) s eq_refl) as (acts & E & Hq).
      exists acts. auto. }
  clear Hsame. destruct req as [cmd reply|result|result rel|d]; cbn [handle_request] in Hh.
  - unfold handleCommand in Hh. cbn [set_queue sq_router sq_nextSeq] in Hh. destruct (router_ShardFor _ _) as [id|].
    2:{ injection Hh as <-. eexists. split; [reflexivity|]. by left. }
    destruct (_ =? 0); [injection Hh as <-; eexists; split; [reflexivity|]; by left|].
    destruct (_ && _); [|done]. injection Hh as <-. eexists. split; [reflexivity|]. right. by eexists _, cmd, reply, q.
  - injection Hh as <-. destruct (Hfan None result 0%nat None (set_queue q s) eq_refl) as (acts & E & Hq). exists acts. auto.
  - injection Hh as <-. destruct (Hfan (Some rel) result 0%nat None (set_queue q s) eq_refl) as (acts & E & Hq). exists acts. auto.
  - injection Hh as <-. eexists. split; [reflexivity|]. left. unfold sent_commands. rewrite omap_app.
    change (omap _ (map ClosedInbox _)) with (sent_commands (map ClosedInbox (seq 0 (sq_shards (set_queue q s))))).
    by rewrite (proj2 (closes_handled _)).
Qed.
End Sent.

(** ** Typed commands *)

Definition sent_typed (s : Sequencer SymbolRegistry) : Prop :=
  Forall (fun p => command_typed p.2) (sent_commands (sq_actions s)).

Lemma with_Seq_typed seq cmd : is_u64 seq -> command_typed cmd -> command_typed (with_Seq seq cmd).
Proof. intros Hs []. by split. Qed.

Lemma next_u64 (r : SymbolRegistry) shards init s : sq_inv r shards init s -> is_u64 (sq_nextSeq s).
Proof. intros Hinv. destruct (sv_numbers _ _ _ _ Hinv) as (n & _ & -> & _). int_lia. Qed.

Lemma sent_typed_step (r : SymbolRegistry) shards init answers s s' :
  sq_inv r shards init s -> Forall request_typed (sq_ingressQ s) -> sent_typed s -> sq_step answers s s' -> sent_typed s'.
Proof.
  intros Hinv Hq Hs Hstep. destruct (sq_step_sent _ _ _ Hstep) as (acts & E & Hacts). unfold sent_typed, sent_commands in *.
  rewrite E, omap_app. apply Forall_app. split; [done|]. destruct Hacts as [->|(i & cmd & reply & q & Eq & ->)]; [done|].
  apply Forall_singleton. rewrite Eq in Hq. apply Forall_cons in Hq as [Hc _].
  apply with_Seq_typed; [by eapply next_u64|done].
Qed.

Lemma inbox_typed i s cmd : sent_typed s -> cmd ∈ inbox_commands i (sq_actions s) -> command_typed cmd.
Proof.
  unfold sent_typed. rewrite Forall_forall. intros Ht (p & Hp & E)%list_elem_of_omap.
  destruct (decide _); [|done]. injection E as <-. by apply Ht.
Qed.

(** ** The invariant of a running engine *)

Section Running.
Context (cfg : Config) (r : SymbolRegistry) (out : state) (lasts : nat -> Z) (init : Z).
Context (dks : nat -> disk) (old : nat -> list Record_).
Context (Hc : small_count (cfg_ShardCount cfg)).
Context (Hreg : NewSymbolRegistry (cfg_Symbols cfg) (cfg_ShardCount cfg) = Ret (inr r)).
Context (Hinit : 0 < init < 18446744073709551616).
Let shards : nat := Z.to_nat (cfg_ShardCount cfg).
Let wcfg (i : nat) : WriterConfig := writer_config cfg (Z.of_nat i).
Let own (i : nat) (sym : string) : Prop := sym ∈ SymbolsForShard r (Z.of_nat i).
Let books0 (i : nat) : state := initial out (SymbolsForShard r (Z.of_nat i)).
Context (Hbelow : forall i, (i < shards)%nat -> lasts i < init).
Context (Hh : forall i, (i < shards)%nat -> header_ok (mkSegmentHeader (cfg_EngineID cfg) (Z.of_nat i) (cfg_ShardCount cfg))).
Context (Hold : forall i, (i < shards)%nat -> settled_log (wcfg i) (dks i) (old i)).

(** Shard [i], with [g] its ledger, when the sequencer is in [s]. *)
Record part_inv (s : Sequencer SymbolRegistry) (i : nat) (p : part) (g : ledger) (A : state) : Prop := {
  pi_shard : shard_inv (wcfg i) (dks i) (own i) (lasts i) (books0 i) no_command (pt_shard p) g A;
  pi_taken : (pt_taken p <= length (inbox_messages i (sq_actions s)))%nat;
  pi_top : sh_top (pt_shard p) =
    default (lasts i) (cmd_Seq ∘ fst <$> last (routed_commands (take (pt_taken p) (inbox_messages i (sq_actions s)))));
  pi_inbox : taken_inv (take (pt_taken p) (inbox_messages i (sq_actions s))) (sq_released s) (sh_loop (pt_shard p)) g;
  pi_closed : lp_inbox (sh_loop (pt_shard p)) = false ->
    ClosedInbox i ∈ sq_actions s /\ pt_taken p = length (inbox_messages i (sq_actions s))
}.

Record system_inv (sy : system) : Prop := {
  yi_sequencer : sq_inv r shards init (sy_sequencer sy);
  yi_rounds : rounds (answered (sy_parts sy)) (sy_sequencer sy);
  yi_queue : Forall request_typed (sq_ingressQ (sy_sequencer sy));
  yi_typed : sent_typed (sy_sequencer sy);
  yi_count : length (sy_parts sy) = shards;
  yi_parts : forall i p, sy_parts sy !! i = Some p -> exists g A, part_inv (sy_sequencer sy) i p g A
}.

(** More messages do not concern a shard before it takes them. *)
Lemma part_inv_more s s' acts i p g A :
  sq_actions s' = sq_actions s ++ acts -> sq_released s ⊆ sq_released s' ->
  (ClosedInbox i ∈ sq_actions s -> sq_actions s' = sq_actions s) -> part_inv s i p g A -> part_inv s' i p g A.
Proof.
  intros E Hr Hcl [H1 H2 H3 H4 H5]. split; [done|..]; try (rewrite E, ?inbox_messages_app, ?take_app_le by done).
  - rewrite length_app. lia.
  - done.
  - by eapply taken_more.
  - intros Hin. destruct (H5 Hin) as [H6 H7]. specialize (Hcl H6). rewrite E in Hcl.
    rewrite <-(app_nil_r (sq_actions s)) in Hcl at 2. apply app_inv_head in Hcl as ->. by rewrite !app_nil_r.
Qed.

(** What a message or another event does to the shard's view of its inbox. *)
Lemma comes_from_inv s l n ev n' top i :
  (i < shards)%nat -> sq_inv r shards init s -> sent_typed s ->
  (n <= length (inbox_messages i (sq_actions s)))%nat ->
  top = default (lasts i) (cmd_Seq ∘ fst <$> last (routed_commands (take n (inbox_messages i (sq_actions s))))) ->
  comes_from i s l n ev n' ->
  admissible ev top (top_after ev top) /\ known (books0 i) no_command ev /\
  top_after ev top =
    default (lasts i) (cmd_Seq ∘ fst <$> last (routed_commands (take n' (inbox_messages i (sq_actions s))))).
Proof.
  intros Hi Hinv Htyped Hn Etop Hcf. destruct Hcf as [msg ev Hmsg Hrc|Hcl Hlen|err|c Hd Hrel]; try done.
  rewrite (take_S_r _ _ _ Hmsg), routed_commands_snoc.
  destruct msg as [cmd reply|d|a w], ev as [cmd' q ap|d' f rv|a' w' f rv| | |err]; try done; cbn in Hrc.
  2,3: cbn [top_after admissible known]; by rewrite app_nil_r.
  destruct Hrc as [-> ->]. rewrite last_snoc. cbn [top_after fmap option_fmap option_map default].
  destruct (routed_split _ _ _ _ _ Hmsg) as [after Hsplit].
  assert (cmd ∈ inbox_commands i (sq_actions s)) as Hin.
  { rewrite <-Hsplit. apply elem_of_app. right. by left. }
  split_and!; [split_and!| |done].
  - by eapply inbox_typed.
  - pose proof (inbox_increasing r shards init i (lasts i) s (Hbelow i Hi) Hinv) as Hs.
    rewrite <-Hsplit, map_app in Hs. rewrite Etop. cbn [map] in Hs.
    destruct (last (routed_commands _)) as [[c q']|] eqn:El; cbn.
    + apply last_Some in El as [l' El]. rewrite El, map_app in Hs. cbn in Hs. rewrite map_app, <-app_assoc, app_comm_cons in Hs.
      apply StronglySorted_app_1_r in Hs. cbn in Hs. inversion Hs as [|? ? _ Hall]. by inversion Hall.
    + apply last_None in El. rewrite El in Hs. cbn in Hs. inversion Hs as [|? ? _ Hall]. by inversion Hall.
  - done.
  - cbn. intros Hnone. destruct (initial_dom out (SymbolsForShard r (Z.of_nat i)) (cmd_Symbol cmd)) as [b Hb];
      [by eapply inbox_known|]. unfold books0 in Hnone. congruence.
Qed.

Lemma own_books i sym : is_Some (books0 i !! sym) -> own i sym.
Proof. apply initial_symbols. Qed.

Lemma part_step_inv s i p p' g A :
  (i < shards)%nat -> sq_inv r shards init s -> sent_typed s -> part_inv s i p g A -> part_step (wcfg i) i s p p' ->
  exists g' A', part_inv s i p' g' A' /\ gh_log g `prefix_of` gh_log g' /\ gh_done g `prefix_of` gh_done g'.
Proof.
  intros Hi Hinv Htyped [H1 H2 H3 H4 H5] Hs.
  destruct Hs as [l w w' dk top n Hcl He|l w w' dk dk' top fs fs' n Hidx Hrun|ev l l' w w' dk top n n' Hcf Hr Hit Hap Hack];
    cbn [pt_shard pt_taken sh_top sh_loop] in *.
  - exists g, A. split; [|done]. split; cbn; [by eapply shard_client_inv|done|done|done|done].
  - exists g, A. split; [|done]. split; cbn; [by eapply shard_run_inv|done|done|done|done].
  - destruct (comes_from_inv s l n ev n' top i Hi Hinv Htyped H2 H3 Hcf) as (Hadm & Hk & Htop).
    destruct (comes_from_take _ _ _ _ _ _ Hcf H2) as [Hn Hmsgs].
    destruct (shard_event_inv (wcfg i) (dks i) (old i) (Hh i Hi) (Hold i Hi) (own i) (lasts i) (books0 i) no_command
      (own_books i) ev l l' w w' dk top (top_after ev top) g A H1 Hr Hadm Hk Hit Hap Hack) as (g' & A' & Hinv' & Hlog & Hdone).
    exists g', A'. split; [|split; [rewrite Hlog; by eexists|done]]. split; cbn [pt_shard pt_taken sh_top sh_loop]; [done|done|done| |by eapply comes_from_closed].
    rewrite Hmsgs. eapply (taken_step (own i) (lasts i) (books0 i)); [apply H1|apply Hinv'|done|done|done|done|done| |done].
    intros E c1 Hc1. by eapply released_from.
Qed.

(** What a shard has answered stays answered. *)
Lemma part_step_answers s i p p' :
  part_step (wcfg i) i s p p' -> lp_flushes (sh_loop (pt_shard p)) ⊆ lp_flushes (sh_loop (pt_shard p')).
Proof.
  intros Hs. destruct Hs as [| |ev l l' w w' dk top n n' Hcf Hr Hit Hap Hack]; cbn; try done.
  destruct (iteration_effects _ _ _ Hit) as (_ & _ & -> & _). intros x Hx. apply elem_of_app. by left.
Qed.

Lemma answered_more parts i p p' j c err :
  parts !! i = Some p -> lp_flushes (sh_loop (pt_shard p)) ⊆ lp_flushes (sh_loop (pt_shard p')) ->
  answered parts j c err -> answered (<[i := p']> parts) j c err.
Proof.
  intros Hp Hsub (q & Hq & Hin). destruct (decide (i = j)) as [<-|Hne].
  - exists p'. rewrite list_lookup_insert_eq by by eapply lookup_lt_Some. split; [done|]. assert (q = p) as -> by congruence. by apply Hsub.
  - exists q. by rewrite list_lookup_insert_ne.
Qed.

(** A shard keeps its place and its log through every step. *)
Lemma system_step_part sy sy' i p g A :
  system_inv sy -> system_step cfg sy sy' -> sy_parts sy !! i = Some p -> part_inv (sy_sequencer sy) i p g A ->
  exists p' g' A', sy_parts sy' !! i = Some p' /\ part_inv (sy_sequencer sy') i p' g' A' /\
    gh_log g `prefix_of` gh_log g' /\ gh_done g `prefix_of` gh_done g'.
Proof.
  intros [Y1 Y6 Y2 Y3 Y4 Y5] Hs Hp Hi. destruct Hs as [s s' parts Hsq Hq|s parts j q q' Hq Hs]; cbn [sy_sequencer sy_parts] in *.
  - destruct (sq_step_sent _ _ _ Hsq) as (acts & E & _). exists p, g, A. split_and!; [done| |done|done].
    eapply part_inv_more; [done|by eapply released_step| |done]. intros Hin. by eapply closed_quiet.
  - destruct (decide (j = i)) as [->|Hne]; [|exists p, g, A; by rewrite list_lookup_insert_ne].
    assert (q = p) as -> by congruence. assert (i < shards)%nat as Hlt by (rewrite <-Y4; by eapply lookup_lt_Some).
    destruct (part_step_inv s i p q' g A Hlt Y1 Y3 Hi Hs) as (g' & A' & Hpi & Hg). exists q', g', A'.
    split; [apply list_lookup_insert_eq; lia|done].
Qed.

Lemma system_step_inv sy sy' : system_inv sy -> system_step cfg sy sy' -> system_inv sy'.
Proof.
  intros Hinv Hs. pose proof Hinv as [Y1 Y6 Y2 Y3 Y4 Y5].
  pose proof (registry_in_range _ _ _ Hc (NewSymbolRegistry_built _ _ _ Hc Hreg)) as Hrange.
  assert (length (sy_parts sy') = length (sy_parts sy)) as Hlen by (destruct Hs; cbn; [done|apply length_insert]).
  assert (forall i p', sy_parts sy' !! i = Some p' -> exists g A, part_inv (sy_sequencer sy') i p' g A) as Hparts.
  { intros i p' Hp'. destruct (lookup_lt_is_Some_2 (sy_parts sy) i) as [p Hp]; [rewrite <-Hlen; by eapply lookup_lt_Some|].
    destruct (Y5 i p Hp) as (g & A & Hpi), (system_step_part _ _ _ _ _ _ Hinv Hs Hp Hpi) as (q & g' & A' & Hq & Hqi & _).
    assert (q = p') as -> by congruence. by exists g', A'. }
  split; [..|exact Hparts]; try (by rewrite Hlen);
    destruct Hs as [s s' parts Hsq Hq|s parts i p p' Hp Hs]; cbn [sy_sequencer sy_parts] in *; try done.
  - by destruct (sq_step_inv r shards init Hinit (answered parts) s s' Y1 Hsq).
  - by eapply rounds_step.
  - eapply rounds_more; [|exact Y6]. intros j c err. eapply answered_more; [done|by eapply part_step_answers].
  - exact (sent_typed_step r shards init _ s s' Y1 Y2 Y3 Hsq).
Qed.

Lemma system_steps_inv sy sy' : system_inv sy -> system_steps cfg sy sy' -> system_inv sy'.
Proof. intros H0. induction 1 as [|sy sy' sy'' _ IH Hs]; [done|]. eapply system_step_inv; [by apply IH|done]. Qed.

Lemma system_steps_part sy sy' i p g A :
  system_inv sy -> system_steps cfg sy sy' -> sy_parts sy !! i = Some p -> part_inv (sy_sequencer sy) i p g A ->
  exists p' g' A', sy_parts sy' !! i = Some p' /\ part_inv (sy_sequencer sy') i p' g' A' /\
    gh_log g `prefix_of` gh_log g' /\ gh_done g `prefix_of` gh_done g'.
Proof.
  intros H0 Hsteps Hp Hi. induction Hsteps as [|sy sy' sy'' Hsteps IH Hs]; [by exists p, g, A|].
  destruct (IH H0 Hp Hi) as (p1 & g1 & A1 & Hp1 & Hi1 & Hl1 & Hd1).
  destruct (system_step_part _ _ _ _ _ _ (system_steps_inv _ _ H0 Hsteps) Hs Hp1 Hi1) as (p2 & g2 & A2 & Hp2 & Hi2 & Hl2 & Hd2).
  exists p2, g2, A2. split_and!; [done|done|by etrans|by etrans].
Qed.

(** ** Barriers and drains *)

(** The message of a barrier or drain that was answered is among those taken. *)
Lemma passed_taken sy i p g A pre post release ferr :
  system_inv sy -> sy_parts sy !! i = Some p -> part_inv (sy_sequencer sy) i p g A ->
  sq_actions (sy_sequencer sy) = pre ++ post -> passed (answered (sy_parts sy)) release ferr pre i ->
  exists before c err after, inbox_messages i pre = before ++ [round_msg release c] /\
    (c, err) ∈ lp_flushes (sh_loop (pt_shard p)) /\ (ferr = None -> err = None) /\
    take (pt_taken p) (inbox_messages i (sq_actions (sy_sequencer sy))) = before ++ round_msg release c :: after /\
    NoDup (omap msg_chan (before ++ round_msg release c :: after)) /\ (inbox_messages i post = [] -> after = []).
Proof.
  intros Hinv Hp [_ _ _ Ht _] E (before & c & err & Em & (q & Hq & Hfl) & He). assert (q = p) as -> by congruence.
  set (msgs := inbox_messages i (sq_actions (sy_sequencer sy))) in *.
  assert (NoDup (omap msg_chan msgs)) as Hnd.
  { eapply sublist_NoDup; [apply (rn_distinct _ _ (yi_rounds _ Hinv))|apply inbox_chans]. }
  assert (c ∈ omap msg_chan (take (pt_taken p) msgs)) as Hc'.
  { rewrite <-(tk_flushes _ _ _ _ Ht). apply list_elem_of_fmap. by exists (c, err). }
  apply list_elem_of_omap in Hc' as (msg & Hmsg & Hchan). apply list_elem_of_split in Hmsg as (b1 & b2 & Eb).
  assert (msgs = b1 ++ msg :: (b2 ++ drop (pt_taken p) msgs)) as E1.
  { rewrite <-(take_drop (pt_taken p) msgs) at 1. rewrite Eb. by rewrite <-app_assoc. }
  assert (msgs = before ++ round_msg release c :: inbox_messages i post) as E2.
  { unfold msgs. rewrite E, inbox_messages_app, Em. by rewrite <-app_assoc. }
  destruct (one_message _ _ _ _ _ _ _ c Hnd E1 E2 Hchan (round_msg_chan _ _)) as (-> & -> & Eafter).
  exists before, c, err, b2. split_and!; [done|done|done|done| |].
  - rewrite <-Eb. eapply sublist_NoDup; [exact Hnd|]. rewrite <-(take_drop (pt_taken p) msgs) at 2. rewrite omap_app. by apply sublist_inserts_r.
  - intros Hpost. rewrite Hpost in Eafter. by apply app_nil in Eafter as [-> _].
Qed.

(** Everything sequenced before a barrier or drain that ended without an error is done. *)
Lemma barrier_done sy i p g A pre result post :
  system_inv sy -> sy_parts sy !! i = Some p -> part_inv (sy_sequencer sy) i p g A ->
  sq_actions (sy_sequencer sy) = pre ++ Resulted result None :: post ->
  routed_commands (inbox_messages i pre) `prefix_of` map routed_of (gh_done g).
Proof.
  intros Hinv Hp Hi E. destruct (rn_results _ _ (yi_rounds _ Hinv) _ _ _ E) as [release Hall].
  assert (i < sq_shards (sy_sequencer sy))%nat as Hlt.
  { rewrite (sv_shards _ _ _ _ (yi_sequencer _ Hinv)), <-(yi_count _ Hinv). by eapply lookup_lt_Some. }
  destruct (passed_taken sy i p g A pre _ release None Hinv Hp Hi E (Hall i Hlt)) as (before & c & err & after & Em & Hfl & He & Et & Hnd & _).
  rewrite (He eq_refl) in Hfl. destruct (tk_barriers _ _ _ _ (pi_inbox _ _ _ _ _ Hi) c Hfl) as (b' & msg & a' & Et' & Hchan & Hpre).
  rewrite Et in Et'. destruct (one_message _ _ _ _ _ _ _ c Hnd eq_refl Et' (round_msg_chan _ _) Hchan) as (<- & _ & _).
  rewrite Em, routed_commands_snoc. destruct release; by rewrite app_nil_r.
Qed.

(** While the drain is held, the shards are idle. *)
Lemma drained_idle sy i p g A pre result rel :
  system_inv sy -> sy_parts sy !! i = Some p -> part_inv (sy_sequencer sy) i p g A ->
  sq_wait (sy_sequencer sy) = Some (AwaitRelease rel) -> rel ∉ sq_released (sy_sequencer sy) ->
  sq_actions (sy_sequencer sy) = pre ++ [Resulted result None] ->
  lp_failedErr (sh_loop (pt_shard p)) = None /\ lp_pending (sh_loop (pt_shard p)) = [].
Proof.
  intros Hinv Hp Hi Hw Hrel E. destruct (rn_release _ _ (yi_rounds _ Hinv) _ Hw) as (pre' & result' & ferr & E' & Hall).
  rewrite E in E'. apply app_inj_tail in E' as [<- [= <- <-]].
  assert (i < sq_shards (sy_sequencer sy))%nat as Hlt.
  { rewrite (sv_shards _ _ _ _ (yi_sequencer _ Hinv)), <-(yi_count _ Hinv). by eapply lookup_lt_Some. }
  destruct (passed_taken sy i p g A pre _ (Some rel) None Hinv Hp Hi E (Hall i Hlt)) as (before & c & err & after & Em & Hfl & He & Et & Hnd & Haf).
  rewrite (He eq_refl) in Hfl. rewrite (Haf eq_refl) in Et, Hnd. destruct Hi as [_ _ _ Ht _].
  pose proof (tk_drains _ _ _ _ Ht _ _ _ Et Hrel) as Hd. destruct (tk_blocked _ _ _ _ Ht _ Hd) as (Hpend & b' & c' & Et' & Hfl').
  split; [|done]. rewrite Et in Et'. apply app_inj_tail in Et' as [_ [= <-]].
  pose proof (tk_flushes _ _ _ _ Ht) as Efl. rewrite Et in Efl. rewrite <-Efl in Hnd.
  apply list_elem_of_lookup in Hfl as [j Hj], Hfl' as [k Hk]. assert (j = k) as ->.
  { eapply NoDup_lookup; [exact Hnd|rewrite list_lookup_fmap, Hj; done|rewrite list_lookup_fmap, Hk; done]. }
  congruence.
Qed.

(** What a crash leaves of shard [i]: the old log and a prefix of the records of its
    ledger, which holds every record whose result was sent. *)
Lemma part_crash_log s i p g A d dk :
  (i < shards)%nat -> part_inv s i p g A -> Forall record_fits (w_made (sh_writer (pt_shard p))) ->
  shard_crash (wcfg i) (pt_shard p) dk -> survives dk d ->
  exists rs lastR AR,
    ReadShardRecordsForEngine d (cfg_EngineID cfg) (Z.of_nat i) (cfg_ShardCount cfg) = Ret (inr (old i ++ rs)) /\
    rs `prefix_of` gh_recs g /\ history (own i) (lasts i) (books0 i) rs lastR AR /\
    lastApplied (sh_loop (pt_shard p)) <= lastR /\ forall e, e ∈ gh_done g -> en_rec e ∈ rs.
Proof.
  intros Hi [H1 _ _ _ _] Hfits Hcr Hsv.
  exact (shard_crash_log (wcfg i) (dks i) (old i) (Hh i Hi) (Hold i Hi) (own i) (lasts i) (books0 i) no_command
    (pt_shard p) g A dk d H1 Hfits Hcr Hsv).
Qed.

(** The log has the commands of the inbox, in their order. *)
Lemma part_log_order s i p g A :
  part_inv s i p g A -> map routed_of (gh_log g) `sublist_of` routed_commands (inbox_messages i (sq_actions s)).
Proof.
  intros [_ _ _ [H4 _ _ _ _ _] _]. etrans; [exact H4|].
  rewrite <-(take_drop (pt_taken p) (inbox_messages i _)) at 2. unfold routed_commands. rewrite omap_app. by apply sublist_inserts_r.
Qed.

Lemma part_commands s i p g A :
  part_inv s i p g A -> map rec_Command (gh_recs g) `sublist_of` inbox_commands i (sq_actions s).
Proof.
  intros Hi. rewrite <-routed_inbox. etrans; [|apply (fmap_sublist fst), (part_log_order _ _ _ _ _ Hi)].
  unfold gh_recs. change (fst <$> map routed_of (gh_log g)) with (map fst (map routed_of (gh_log g))). by rewrite !map_map.
Qed.

(** Its records have increasing numbers. *)
Lemma part_distinct s i p g A :
  (i < shards)%nat -> sq_inv r shards init s -> part_inv s i p g A -> NoDup (gh_recs g).
Proof.
  intros Hi Hinv Hpi. apply (NoDup_fmap_1 (cmd_Seq ∘ rec_Command)).
  pose proof (inbox_increasing r shards init i (lasts i) s (Hbelow i Hi) Hinv) as Hs. inversion Hs as [|? ? Hsort _]; subst.
  assert (NoDup (map cmd_Seq (inbox_commands i (sq_actions s)))) as Hnd.
  { clear -Hsort. induction Hsort as [|x l _ IH Hx]; [constructor|]. apply NoDup_cons. split; [|done]. intros Hin.
    rewrite Forall_forall in Hx. specialize (Hx _ Hin). lia. }
  eapply sublist_NoDup; [exact Hnd|]. change (map cmd_Seq ?l) with (cmd_Seq <$> l). rewrite list_fmap_compose.
  apply fmap_sublist, (part_commands _ _ _ _ _ Hpi).
Qed.

(** Every result that was sent is that of a record, for the command with the channel. *)
Lemma part_replies s i p g A c o :
  part_inv s i p g A -> (c, o) ∈ lp_replies (sh_loop (pt_shard p)) -> oc_Err o = None ->
  exists e, e ∈ gh_done g /\ o = outcome_ok (rec_Result (en_rec e)) /\
    RoutedCommand (rec_Command (en_rec e)) c ∈ inbox_messages i (sq_actions s).
Proof.
  intros Hpi Hco Ho. pose proof (li_replies _ _ _ _ _ _ _ _ (si_loop _ _ _ _ _ _ _ _ _ (pi_shard _ _ _ _ _ Hpi))) as Hall.
  rewrite Forall_forall in Hall. specialize (Hall _ Hco). unfold explained in Hall. cbn [snd] in Hall. rewrite Ho in Hall.
  destruct Hall as [(e & He & [= -> ->])|(cmd & [] & _)]. exists e. split_and!; [done|done|].
  assert (routed_of e ∈ routed_commands (inbox_messages i (sq_actions s))) as Hr.
  { eapply elem_of_submseteq; [|apply sublist_submseteq, (part_log_order _ _ _ _ _ Hpi)].
    apply list_elem_of_fmap. exists e. split; [done|]. unfold gh_log. apply elem_of_app. by left. }
  apply list_elem_of_omap in Hr as (msg & Hmsg & E). destruct msg; [|done|done]. by injection E as -> ->.
Qed.
End Running.

(** ** The start *)

Lemma NewWriter_mkdir cfg mkdir w : NewWriter cfg mkdir = inr w -> NewWriter cfg None = inr w.
Proof. unfold NewWriter. destruct (validateWriterConfig cfg); [done|]. by destruct mkdir. Qed.

(** A new engine satisfies the invariant, with the recovered books and watermarks. *)
Lemma start_inv cfg latest wal mkdir e dks :
  small_count (cfg_ShardCount cfg) -> snapshot_ok latest -> snapshot_typed latest -> dir_ok wal ->
  NewEngine cfg latest wal mkdir = Ret (inr e) ->
  exists out lasts, recoverBooks cfg (eg_registry e) latest wal = Ret (inr (out, lasts)) /\
    NewSymbolRegistry (cfg_Symbols cfg) (cfg_ShardCount cfg) = Ret (inr (eg_registry e)) /\
    0 < nextSequence lasts < 18446744073709551616 /\
    (forall i, (i < Z.to_nat (cfg_ShardCount cfg))%nat -> default 0 (lasts !! i) < nextSequence lasts) /\
    system_inv cfg (eg_registry e) out (fun i => default 0 (lasts !! i)) (nextSequence lasts) dks (start e dks).
Proof.
  intros Hc Hs Ht Hd Hnew. unfold NewEngine in Hnew.
  destruct (NewSymbolRegistry _ _) as [[err|r]| |] eqn:Ereg; cbn [obind] in Hnew; try done.
  destruct (recoverBooks _ _ _ _) as [[err|[out lasts]]| |] eqn:Erec; cbn [obind] in Hnew; try done.
  destruct (Z.eqb_spec (nextSequence lasts) 0) as [|Hnz]; [done|].
  destruct (startShards _ _ _ _ _ _ _) as [[err|parts]| |] eqn:Est; cbn [obind] in Hnew; try done.
  injection Hnew as <-. cbn [eg_registry eg_sequencer eg_shards]. exists out, lasts.
  destruct (recoverBooks_sound _ _ _ _ _ _ (proj1 Hc) Hs Ht Hd Erec) as (Hok & _ & Hu & Hlen0).
  destruct (nextSequence_above lasts Hu Hnz) as [Habove Hinit].
  destruct (startShards_lookup _ _ _ _ _ _ _ _ (Z.le_refl 0) Est) as [Hlen Hparts].
  split_and!; [done|done|lia|lia| |].
  { intros i Hi. destruct (lookup_lt_is_Some_2 lasts i) as [last El]; [lia|]. rewrite El. rewrite Forall_lookup in Habove.
    exact (Habove _ _ El). }
  split; cbn [start sy_sequencer sy_parts eg_sequencer eg_shards].
  - by apply new_inv.
  - apply rounds_start.
  - constructor.
  - constructor.
  - by rewrite length_imap.
  - intros i p Hp. rewrite list_lookup_imap in Hp. destruct (parts !! i) as [[loop w]|] eqn:Ei; [|done]. injection Hp as <-.
    destruct (Hparts i loop w Ei) as (l0 & last & El & Ea & -> & Ew). rewrite Z.add_0_l in *. rewrite Nat2Z.id in Ea.
    destruct (newLoop_inv (Z.of_nat i) (SymbolsForShard r (Z.of_nat i)) out last no_command Hok) as (l1 & El1 & Hl & _).
    assert (l1 = l0) as -> by congruence. exists no_entries, (initial out (SymbolsForShard r (Z.of_nat i))).
    split; cbn [pt_shard pt_taken fst snd].
    + rewrite Ea. cbn [default]. apply shard_inv_start; [by eapply NewWriter_mkdir|done].
    + lia.
    + cbn. by rewrite Ea.
    + destruct (newLoop_quiet _ _ _ _ _ El) as (? & ? & _). by apply taken_start.
    + destruct (newLoop_quiet _ _ _ _ _ El) as (_ & _ & Hin). cbn. by rewrite Hin.
Qed.

(** ** Recovery after the crash *)

(** The logs [old] before the start: complete segments that the first recovery read, each
    the history of its shard's symbols from the snapshot to [L] and [F]. *)
Record logs_before (cfg : Config) (r : SymbolRegistry) (wal : dir) (restored : state) (lasts0 : list Z)
  (dks : nat -> disk) (old : nat -> list Record_) (L : nat -> Z) (F : nat -> state) : Prop := {
  lb_disk : forall i, (i < Z.to_nat (cfg_ShardCount cfg))%nat ->
    settled_log (writer_config cfg (Z.of_nat i)) (dks i) (old i);
  lb_read : forall i, (i < Z.to_nat (cfg_ShardCount cfg))%nat ->
    ReadShardRecordsForEngine wal (cfg_EngineID cfg) (Z.of_nat i) (cfg_ShardCount cfg) = Ret (inr (old i));
  lb_history : forall i, (i < Z.to_nat (cfg_ShardCount cfg))%nat -> exists last, lasts0 !! i = Some last /\
    history (fun sym => ShardFor r sym = Some (Z.of_nat i)) last (initial restored (cfg_Symbols cfg)) (old i) (L i) (F i)
}.

(** What the first recovery gave the shards. *)
Lemma started_from cfg r latest wal restored lasts0 dks old L F out lasts :
  0 < cfg_ShardCount cfg < 4294967296 -> NewSymbolRegistry (cfg_Symbols cfg) (cfg_ShardCount cfg) = Ret (inr r) ->
  snapshot_ok latest -> dir_ok wal -> loadSnapshot cfg r latest = inr (restored, lasts0) ->
  logs_before cfg r wal restored lasts0 dks old L F -> recoverBooks cfg r latest wal = Ret (inr (out, lasts)) ->
  forall i, (i < Z.to_nat (cfg_ShardCount cfg))%nat -> lasts !! i = Some (L i) /\
    forall sym, ShardFor r sym = Some (Z.of_nat i) -> out !! sym = F i !! sym.
Proof.
  intros Hc Hreg Hs Hd Hl [H1 H2 H3] Hrec i Hi.
  destruct (recoverBooks_complete cfg r latest wal restored lasts0 (fun id => old (Z.to_nat id)) (fun id => L (Z.to_nat id))
    (fun id => F (Z.to_nat id)) Hc Hreg Hs Hd Hl) as (out1 & lasts1 & E & Hout & Hlasts).
  - intros id Hid. specialize (H2 (Z.to_nat id) ltac:(lia)). by rewrite Z2Nat.id in H2 by lia.
  - intros id Hid. specialize (H3 (Z.to_nat id) ltac:(lia)). by rewrite Z2Nat.id in H3 by lia.
  - assert (out1 = out /\ lasts1 = lasts) as [-> ->] by (split; congruence). split.
    + specialize (Hlasts (Z.of_nat i) ltac:(lia)). by rewrite Nat2Z.id in Hlasts.
    + intros sym Hsym. specialize (Hout sym _ Hsym). by rewrite Nat2Z.id in Hout.
Qed.

(** The new records of a shard continue the history of its old ones. *)
Lemma shard_continues cfg r out i last' AR rs (F : state) lastL :
  small_count (cfg_ShardCount cfg) -> NewSymbolRegistry (cfg_Symbols cfg) (cfg_ShardCount cfg) = Ret (inr r) ->
  (forall sym, is_Some (out !! sym) <-> sym ∈ cfg_Symbols cfg) ->
  (forall sym, ShardFor r sym = Some (Z.of_nat i) -> out !! sym = F !! sym) ->
  history (fun sym => sym ∈ SymbolsForShard r (Z.of_nat i)) lastL (initial out (SymbolsForShard r (Z.of_nat i))) rs last' AR ->
  exists A, history (fun sym => ShardFor r sym = Some (Z.of_nat i)) lastL F rs last' A /\
    forall sym, ShardFor r sym = Some (Z.of_nat i) -> A !! sym = AR !! sym.
Proof.
  intros Hc Hreg Hdom Hag Hh.
  apply (history_mono _ (fun sym => ShardFor r sym = Some (Z.of_nat i))) in Hh;
    [|intros sym; by rewrite (registry_symbols cfg)].
  destruct (history_local _ _ _ _ _ _ F Hh) as (A & HA & HAR & _); [|by exists A].
  intros sym Hsym. rewrite <-(Hag sym Hsym). destruct (registry_shards _ _ _ _ Hc Hreg Hsym) as [_ Hin].
  destruct (proj2 (Hdom sym) Hin) as [b Hb]. rewrite Hb. symmetry. apply initial_lookup_in; [|done].
  by apply (registry_symbols cfg).
Qed.

(** What recovery finds of shard [i]: the records [rs] after the old ones. *)
Record found (cfg : Config) (r : SymbolRegistry) (wal : dir) (sy : system) (old : list Record_) (lastL : Z) (F : state)
  (i : nat) (p : part) (rs : list Record_) (last' : Z) (A : state) : Prop := {
  fd_read : ReadShardRecordsForEngine wal (cfg_EngineID cfg) (Z.of_nat i) (cfg_ShardCount cfg) = Ret (inr (old ++ rs));
  fd_history : history (fun sym => ShardFor r sym = Some (Z.of_nat i)) lastL F rs last' A;
  fd_watermark : lastApplied (sh_loop (pt_shard p)) <= last';
  fd_order : map rec_Command rs `sublist_of` inbox_commands i (sq_actions (sy_sequencer sy));
  fd_replies : forall c o, (c, o) ∈ lp_replies (sh_loop (pt_shard p)) -> oc_Err o = None ->
    exists rec, rec ∈ rs /\ o = outcome_ok (rec_Result rec) /\
      RoutedCommand (rec_Command rec) c ∈ inbox_messages i (sq_actions (sy_sequencer sy))
}.

Lemma header_fits cfg i :
  0 < cfg_ShardCount cfg < 65536 -> Z.of_nat (string_len (cfg_EngineID cfg)) <= 65535 ->
  (i < Z.to_nat (cfg_ShardCount cfg))%nat -> header_ok (mkSegmentHeader (cfg_EngineID cfg) (Z.of_nat i) (cfg_ShardCount cfg)).
Proof. intros Hc He Hi. split; cbn; [done|int_lia|int_lia]. Qed.

(** An engine started by [NewEngine] from the snapshot [latest] and complete logs. *)
Record started (cfg : Config) (latest : error + (EngineSnapshot * string)) (wal0 : dir) (mkdir : Z -> option error) (e : Engine)
  (restored : state) (lasts0 : list Z) (dks : nat -> disk) (old : nat -> list Record_) (L : nat -> Z) (F : nat -> state) : Prop := {
  sd_count : 0 < cfg_ShardCount cfg < 65536;
  sd_engine_id : Z.of_nat (string_len (cfg_EngineID cfg)) <= 65535;
  sd_snapshot : snapshot_ok latest;
  sd_typed : snapshot_typed latest;
  sd_dir : dir_ok wal0;
  sd_new : NewEngine cfg latest wal0 mkdir = Ret (inr e);
  sd_load : loadSnapshot cfg (eg_registry e) latest = inr (restored, lasts0);
  sd_logs : logs_before cfg (eg_registry e) wal0 restored lasts0 dks old L F
}.

Section Crash.
Context (cfg : Config) (latest : error + (EngineSnapshot * string)) (wal0 : dir) (mkdir : Z -> option error) (e : Engine).
Context (restored : state) (lasts0 : list Z) (dks : nat -> disk) (old : nat -> list Record_) (L : nat -> Z) (F : nat -> state).
Context (Hst : started cfg latest wal0 mkdir e restored lasts0 dks old L F).
Let r : SymbolRegistry := eg_registry e.
Let Hsc : small_count (cfg_ShardCount cfg).
Proof. pose proof (sd_count _ _ _ _ _ _ _ _ _ _ _ Hst). split; lia. Qed.

(** What the shards started from: books [out] that agree with [F], and the watermarks. *)
Record origin (out : state) (lasts : nat -> Z) (init : Z) : Prop := {
  og_registry : NewSymbolRegistry (cfg_Symbols cfg) (cfg_ShardCount cfg) = Ret (inr r);
  og_init : 0 < init < 18446744073709551616;
  og_below : forall i, (i < Z.to_nat (cfg_ShardCount cfg))%nat -> lasts i < init;
  og_lasts : forall i, (i < Z.to_nat (cfg_ShardCount cfg))%nat -> lasts i = L i;
  og_dom : forall sym, is_Some (out !! sym) <-> sym ∈ cfg_Symbols cfg;
  og_books : forall i sym, ShardFor r sym = Some (Z.of_nat i) -> out !! sym = F i !! sym
}.

Lemma run_inv : exists out lasts init, origin out lasts init /\
  forall sy, system_steps cfg (start e dks) sy -> system_inv cfg r out lasts init dks sy.
Proof.
  destruct Hst as [Hc He Hs Ht Hd Hnew Hl Hlogs].
  destruct (start_inv cfg latest wal0 mkdir e dks Hsc Hs Ht Hd Hnew) as (out & lasts & Hrec & Hreg & Hinit & Hbelow & H0).
  destruct (recoverBooks_sound _ _ _ _ _ _ (proj1 Hsc) Hs Ht Hd Hrec) as (_ & Hdom & _).
  exists out, (fun i => default 0 (lasts !! i)), (nextSequence lasts). split.
  - split; [done|done|done| |done|].
    + intros i Hi. by destruct (started_from _ _ _ _ _ _ _ _ _ _ _ _ Hsc Hreg Hs Hd Hl Hlogs Hrec i Hi) as [-> _].
    + intros i sym Hsym. destruct (registry_shards _ _ _ _ Hsc Hreg Hsym) as [Hid _].
      destruct (started_from _ _ _ _ _ _ _ _ _ _ _ _ Hsc Hreg Hs Hd Hl Hlogs Hrec i ltac:(lia)) as [_ Hout]. by apply Hout.
  - intros sy Hsteps. by apply (system_steps_inv cfg _ out _ _ dks old Hsc Hreg Hinit Hbelow (fun i => header_fits cfg i Hc He)
      (lb_disk _ _ _ _ _ _ _ _ _ Hlogs) _ _ H0 Hsteps).
Qed.

Context (out : state) (lasts : nat -> Z) (init : Z) (Hog : origin out lasts init).
Context (sy : system) (wal : dir) (Hinv : system_inv cfg r out lasts init dks sy).
Context (Hfits : forall p, p ∈ sy_parts sy -> Forall record_fits (w_made (sh_writer (pt_shard p)))) (Hleaves : leaves cfg sy wal).

Lemma shard_index i p : sy_parts sy !! i = Some p -> (i < Z.to_nat (cfg_ShardCount cfg))%nat.
Proof. intros Hp. rewrite <-(yi_count _ _ _ _ _ _ _ Hinv). by eapply lookup_lt_Some. Qed.

(** The records recovery reads for a shard, and the state they lead to from the books the
    shard started with and from those of its old log. *)
Lemma crash_records i p g A :
  sy_parts sy !! i = Some p -> part_inv cfg r out lasts dks (sy_sequencer sy) i p g A ->
  exists rs last' AR A',
    ReadShardRecordsForEngine wal (cfg_EngineID cfg) (Z.of_nat i) (cfg_ShardCount cfg) = Ret (inr (old i ++ rs)) /\
    rs `prefix_of` gh_recs g /\ lastApplied (sh_loop (pt_shard p)) <= last' /\ (forall e, e ∈ gh_done g -> en_rec e ∈ rs) /\
    history (fun sym => ShardFor r sym = Some (Z.of_nat i)) (L i) (initial out (SymbolsForShard r (Z.of_nat i))) rs last' AR /\
    history (fun sym => ShardFor r sym = Some (Z.of_nat i)) (L i) (F i) rs last' A' /\
    forall sym, ShardFor r sym = Some (Z.of_nat i) -> A' !! sym = AR !! sym.
Proof.
  intros Hp Hpi. pose proof (shard_index i p Hp) as Hi. destruct Hst as [Hc He Hs Ht Hd Hnew Hl Hlogs], Hleaves as [Hdir Hcrash].
  destruct (Hcrash i p Hp) as (dk & d & Hcr & Hsv & Hag).
  destruct (part_crash_log cfg r out lasts dks old (fun i => header_fits cfg i Hc He) (lb_disk _ _ _ _ _ _ _ _ _ Hlogs)
    _ i p g A d dk Hi Hpi (Hfits p (list_elem_of_lookup_2 _ _ _ Hp)) Hcr Hsv) as (rs & last' & AR & Hread & Hrs & HR & Hlast & Hin).
  rewrite (og_lasts _ _ _ Hog i Hi) in HR.
  destruct (shard_continues cfg r out i last' AR rs (F i) (L i) Hsc (og_registry _ _ _ Hog) (og_dom _ _ _ Hog)
    (og_books _ _ _ Hog i) HR) as (A' & HA' & Hag').
  exists rs, last', AR, A'. split_and!; [by rewrite (read_agree wal d)|done|done|done| |done|done].
  eapply history_mono; [|exact HR]. intros sym. by rewrite (registry_symbols _ _ _ _ Hsc (og_registry _ _ _ Hog)).
Qed.

Lemma shards_found i p :
  sy_parts sy !! i = Some p -> exists rs last' A, found cfg r wal sy (old i) (L i) (F i) i p rs last' A.
Proof.
  intros Hp. destruct (yi_parts _ _ _ _ _ _ _ Hinv i p Hp) as (g & A & Hpi).
  destruct (crash_records i p g A Hp Hpi) as (rs & last' & AR & A' & Hread & Hrs & Hlast & Hin & _ & HA & _).
  exists rs, last', A'. split; [done|done|done| |].
  - etrans; [|by eapply part_commands]. destruct Hrs as [more ->]. rewrite map_app. by apply sublist_inserts_r.
  - intros c o Hco Ho. destruct (part_replies _ _ _ _ _ _ _ _ _ _ _ _ Hpi Hco Ho) as (e1 & H1 & H2 & H3). exists (en_rec e1). auto.
Qed.

(** Recovery from the snapshot of the start. *)
Lemma crash_recovers :
  exists out' lasts', recoverBooks cfg r latest wal = Ret (inr (out', lasts')) /\
    forall i p, sy_parts sy !! i = Some p ->
      exists rs last' A, found cfg r wal sy (old i) (L i) (F i) i p rs last' A /\
        lasts' !! i = Some last' /\ forall sym, ShardFor r sym = Some (Z.of_nat i) -> out' !! sym = A !! sym.
Proof.
  pose proof (yi_count _ _ _ _ _ _ _ Hinv) as Hn.
  destruct (list_choice (fun i p (y : list Record_ * Z * state) =>
    found cfg r wal sy (old i) (L i) (F i) i p y.1.1 y.1.2 y.2) (sy_parts sy)) as (ys & Hlen & Hys).
  { intros i p Hp. destruct (shards_found i p Hp) as (rs & last' & A & Hf). by exists (rs, last', A). }
  set (at_ := fun id => default ([], 0, ∅) (ys !! Z.to_nat id)).
  assert (forall id, 0 <= id < cfg_ShardCount cfg -> exists p, sy_parts sy !! Z.to_nat id = Some p /\
    found cfg r wal sy (old (Z.to_nat id)) (L (Z.to_nat id)) (F (Z.to_nat id)) (Z.to_nat id) p
      (at_ id).1.1 (at_ id).1.2 (at_ id).2) as Hat.
  { intros id Hid. destruct (lookup_lt_is_Some_2 (sy_parts sy) (Z.to_nat id)) as [p Hp]; [lia|].
    destruct (lookup_lt_is_Some_2 ys (Z.to_nat id)) as [y Hy]; [lia|]. exists p. unfold at_. rewrite Hy. eauto. }
  destruct Hst as [Hc He Hs Ht Hd Hnew Hl Hlogs].
  destruct (recoverBooks_complete cfg r latest wal restored lasts0 (fun id => old (Z.to_nat id) ++ (at_ id).1.1)
    (fun id => (at_ id).1.2) (fun id => (at_ id).2) Hsc (og_registry _ _ _ Hog) Hs (proj1 Hleaves) Hl) as (out' & lasts' & E & Hout & Hlasts).
  - intros id Hid. destruct (Hat id Hid) as (p & _ & [Hread _ _ _ _]). by rewrite Z2Nat.id in Hread by lia.
  - intros id Hid. destruct (Hat id Hid) as (p & _ & [_ Hh _ _ _]). rewrite Z2Nat.id in Hh by lia.
    destruct (lb_history _ _ _ _ _ _ _ _ _ Hlogs (Z.to_nat id) ltac:(lia)) as (last & El & Ho). exists last. split; [done|].
    rewrite Z2Nat.id in Ho by lia. by eapply history_app.
  - exists out', lasts'. split; [done|]. intros i p Hp. pose proof (shard_index i p Hp) as Hi.
    destruct (Hat (Z.of_nat i) ltac:(lia)) as (p' & Hp' & Hf). rewrite Nat2Z.id in Hp', Hf. assert (p' = p) as -> by congruence.
    exists (at_ (Z.of_nat i)).1.1, (at_ (Z.of_nat i)).1.2, (at_ (Z.of_nat i)).2. split_and!; [done| |].
    + specialize (Hlasts (Z.of_nat i) ltac:(lia)). by rewrite Nat2Z.id in Hlasts.
    + intros sym Hsym. by rewrite (Hout sym _ Hsym).
Qed.
End Crash.

(** ** Properties *)

(** C2. No answered command is lost by the engine.  An engine is started by [NewEngine]
    from a snapshot and complete logs, and runs in any interleaving of its clients, its
    sequencer, and the loop and the log writer of every shard, with any failures of file
    operations and with records that fit their length fields (C21); then the machine stops
    at any moment, also inside file operations, and keeps what was synced and any beginning
    of what was not.  Recovery from the same snapshot and what is left of the logs succeeds.  For every shard it finds, after the old records, records [rs] that are
    a sequential history of the shard's symbols: each command with exactly the result the
    reference semantics gives after the commands before it, in the order in which the
    sequencer numbered them.  Every result a client of the shard was sent is the result of
    one of these records, whose command is the one that carried the client's reply channel;
    and the recovered books and watermarks are exactly those at the end of that history. *)
Theorem engine_survives_crash cfg latest wal0 mkdir e restored lasts0 dks old L F sy wal :
  started cfg latest wal0 mkdir e restored lasts0 dks old L F -> system_steps cfg (start e dks) sy ->
  (forall p, p ∈ sy_parts sy -> Forall record_fits (w_made (sh_writer (pt_shard p)))) -> leaves cfg sy wal ->
  exists out lasts, recoverBooks cfg (eg_registry e) latest wal = Ret (inr (out, lasts)) /\
    forall i p, sy_parts sy !! i = Some p ->
      exists rs last' A, found cfg (eg_registry e) wal sy (old i) (L i) (F i) i p rs last' A /\
        lasts !! i = Some last' /\ forall sym, ShardFor (eg_registry e) sym = Some (Z.of_nat i) -> out !! sym = A !! sym.
Proof.
  intros Hst Hsteps Hfits Hleaves. destruct (run_inv _ _ _ _ _ _ _ _ _ _ _ Hst) as (out & lasts & init & Hog & Hinv).
  exact (crash_recovers _ _ _ _ _ _ _ _ _ _ _ Hst _ _ _ Hog _ _ (Hinv _ Hsteps) Hfits Hleaves).
Qed.

(** An engine with one shard on an empty disk: a client submits an order, it is numbered,
    applied, logged and answered; then the power fails. *)
Definition run_cfg : Config := mkConfig "engine-1" ["AAPL"]%string 1 8 8 "wal" "snap" 1 65536 100 true 0.
Definition run_engine : Engine :=
  match NewEngine run_cfg (inl ErrNotExist) ∅ (fun _ => None) with Ret (inr e) => e | _ => fallback_engine end.
Definition run_wcfg : WriterConfig := writer_config run_cfg 0.
Definition run_l0 : Loop := match eg_shards run_engine with p :: _ => p.1 | [] => fallback_loop end.
Definition run_s1 : Sequencer SymbolRegistry := (SubmitBlocking ChooseSend c1 10 (eg_sequencer run_engine)).2.
Definition run_s2 : Sequencer SymbolRegistry :=
  match handle_request (requestCommand c1 10) 0 (set_queue [] run_s1) with Ret s => s | _ => run_s1 end.
Definition run_w1 : Writer * disk := after ((let@ w := run_start run_wcfg demo_new in io_ret (Ret w)) no_disk []).
Definition run_rec : Record_ := mkRecord 0 1 c1 (spec_Apply c1 aapl0).1.
Definition run_w2 : Writer := (AppendAsync_check run_rec run_w1.1).2.
Definition run_w3 : Writer := AppendAsync_send 0 run_w2.
Definition run_l3 : Loop := ran (loop_iteration try_cmd run_l0).
Definition run_w4 : Writer * disk := after (run_iteration run_wcfg (OnRequest [] 0) run_w3 run_w1.2 []).
Definition run_l5 : Loop := ran (loop_iteration (OnAck None) run_l3).
Definition run_part (l : Loop) (w : Writer) (dk : disk) (top : Z) (n : nat) : part := mkPart (mkShard l w dk top) n.
Definition run_end : system := mkSystem run_s2 [run_part run_l5 run_w4.1 run_w4.2 1 1].

Lemma one_step s p p' : part_step run_wcfg 0 s p p' -> system_step run_cfg (mkSystem s [p]) (mkSystem s [p']).
Proof. intros H. exact (sy_shard run_cfg s [p] 0 p p' eq_refl H). Qed.

Lemma c1_typed : command_typed c1.
Proof. split; vm_compute; split; congruence. Qed.

Lemma run_submittable : submittable 0 run_rec.
Proof.
  split; [|reflexivity|vm_compute; reflexivity]. pose proof (record_of_typed run_l0 c1 aapl0) as H.
  apply H; [exact c1_typed|]. by apply empty_book_ok.
Qed.

Lemma run_steps : system_steps run_cfg (start run_engine (fun _ => no_disk)) run_end.
Proof.
  assert (start run_engine (fun _ => no_disk) = mkSystem (eg_sequencer run_engine) [run_part run_l0 demo_new no_disk 0 0]) as ->
    by (vm_compute; reflexivity).
  eapply (sys_step _ _ (mkSystem run_s2 [run_part run_l3 run_w4.1 run_w4.2 1 1])).
  2:{ apply one_step. apply (ps_event _ _ _ (OnAck None));
        [apply cf_ack|vm_compute; reflexivity|vm_compute; reflexivity|by apply ap_none|].
      intros c rest E. vm_compute in E. injection E as <- _. vm_compute. by left. }
  eapply (sys_step _ _ (mkSystem run_s2 [run_part run_l3 run_w3 run_w1.2 1 1])).
  2:{ apply one_step. eapply (ps_run _ _ _ _ _ _ _ _ _ [] []); [vm_compute; reflexivity|].
      replace (Done _ _ _) with (run_iteration run_wcfg (OnRequest [] 0) run_w3 run_w1.2 []) by (vm_compute; reflexivity).
      apply rs_iteration; vm_compute; reflexivity. }
  eapply (sys_step _ _ (mkSystem run_s2 [run_part run_l0 run_w2 run_w1.2 0 0])).
  2:{ apply one_step. apply (ps_event _ _ _ try_cmd); [|vm_compute; reflexivity|vm_compute; reflexivity| |done].
      - eapply (cf_message _ _ _ _ (RoutedCommand c1 10)); [vm_compute; reflexivity|done].
      - eapply (ap_send _ _ _ _ 0 run_rec 0); vm_compute; reflexivity. }
  eapply (sys_step _ _ (mkSystem run_s2 [run_part run_l0 run_w1.1 run_w1.2 0 0])).
  2:{ apply one_step. apply ps_client; [|vm_compute; reflexivity]. apply cs_check. exact run_submittable. }
  eapply (sys_step _ _ (mkSystem run_s1 [run_part run_l0 run_w1.1 run_w1.2 0 0])).
  2:{ apply sy_sequence; [|assert (sq_ingressQ run_s2 = []) as -> by (vm_compute; reflexivity); constructor].
      eapply (ss_run _ (requestCommand c1 10) [] 0); vm_compute; reflexivity. }
  eapply (sys_step _ _ (mkSystem (eg_sequencer run_engine) [run_part run_l0 run_w1.1 run_w1.2 0 0])).
  2:{ apply sy_sequence; [by apply (ss_submit _ ChooseSend); vm_compute|].
      assert (sq_ingressQ run_s1 = [requestCommand c1 10]) as -> by (vm_compute; reflexivity).
      apply Forall_singleton. exact c1_typed. }
  eapply sys_step; [apply sys_refl|]. apply one_step. eapply (ps_run _ _ _ _ _ _ _ _ _ [] []); [vm_compute; reflexivity|].
  replace (Done _ _ _) with ((let@ w := run_start run_wcfg demo_new in io_ret (Ret w)) no_disk []) by (vm_compute; reflexivity).
  by apply rs_start.
Qed.

Lemma run_leaves s l w top n : leaves run_cfg (mkSystem s [run_part l w run_w4.2 top n]) (view run_w4.2).
Proof.
  assert (dk_names run_w4.2 = {[ segment_name 0 0 := 0%nat ]}) as En by (vm_compute; reflexivity). split.
  - intros name data. unfold view. rewrite lookup_fmap, En. destruct (decide (name = segment_name 0 0)) as [->|Hne].
    + rewrite lookup_singleton_eq. intros E. vm_compute in E. injection E as <-.
      repeat (constructor; [split; vm_compute; congruence|]). constructor.
    + by rewrite lookup_singleton_ne.
  - intros [|i] p Hp; [|done]. injection Hp as <-. exists run_w4.2, (view run_w4.2).
    split_and!; [apply (shc_between _ (mkShard l w run_w4.2 top))| |done].
    apply view_survives. rewrite En. intros m j [_ <-]%lookup_singleton_Some.
    eexists. split; [vm_compute; reflexivity|]. apply Nat.leb_le. vm_compute. reflexivity.
Qed.

Lemma run_before :
  logs_before run_cfg (eg_registry run_engine) ∅ ∅ [0] (fun _ => no_disk) (fun _ => []) (fun _ => 0)
    (fun _ => initial ∅ ["AAPL"]%string).
Proof.
  split; intros i Hi; assert (i = 0)%nat as -> by (change (i < 1)%nat in Hi; lia).
  - exists [], 0. split_and!; [|done|done]. split; [|done|done]. split; [constructor|done|done|..].
    + repeat constructor.
    + repeat constructor; lia.
    + constructor.
  - vm_compute. reflexivity.
  - exists 0. split; [done|]. constructor.
Qed.

Lemma run_started :
  started run_cfg (inl ErrNotExist) ∅ (fun _ => None) run_engine ∅ [0] (fun _ => no_disk) (fun _ => [])
    (fun _ => 0) (fun _ => initial ∅ ["AAPL"]%string).
Proof.
  split; [vm_compute; split; reflexivity|vm_compute; congruence|exact I|exact I| |vm_compute; reflexivity|vm_compute; reflexivity|
    exact run_before]. intros n data. by rewrite lookup_empty.
Qed.

Lemma run_made : w_made run_w4.1 = [run_rec].
Proof. vm_compute. reflexivity. Qed.

Lemma run_fits s l w dk top n p :
  w_made w = [run_rec] -> p ∈ sy_parts (mkSystem s [run_part l w dk top n]) -> Forall record_fits (w_made (sh_writer (pt_shard p))).
Proof.
  intros Hw ->%list_elem_of_singleton. cbn. rewrite Hw.
  apply Forall_singleton. split; vm_compute; congruence.
Qed.

Lemma engine_survives_crash_witness :
  map fst (lp_replies run_l5) = [10%nat] /\
  exists out lasts rs last' A,
    recoverBooks run_cfg (eg_registry run_engine) (inl ErrNotExist) (view run_w4.2) = Ret (inr (out, lasts)) /\
    found run_cfg (eg_registry run_engine) (view run_w4.2) run_end [] 0 (initial ∅ ["AAPL"]%string) 0
      (run_part run_l5 run_w4.1 run_w4.2 1 1) rs last' A.
Proof.
  split; [vm_compute; reflexivity|].
  destruct (engine_survives_crash run_cfg (inl ErrNotExist) ∅ (fun _ => None) run_engine ∅ [0] (fun _ => no_disk) (fun _ => [])
    (fun _ => 0) (fun _ => initial ∅ ["AAPL"]%string) run_end (view run_w4.2) run_started run_steps (fun p => run_fits _ _ _ _ _ _ p run_made) (run_leaves _ _ _ _ _))
    as (out & lasts & Hr & Hall).
  destruct (Hall 0%nat _ eq_refl) as (rs & last' & A & Hfound & _). exists out, lasts, rs, last', A. split; [exact Hr|exact Hfound].
Defined.
