(* ===== verification/SystemCut.v ===== *)
(** * SystemCut: what barriers and snapshots of a running engine mean

    A barrier that returns without an error covers everything sequenced before it, and a
    snapshot taken while the shards are drained can stand for the one the engine started
    from. *)

From S2P Require Import Prelude Model Book BookSpec BookRep BookApply BookWalk BookTrace Bytes Codec CodecFacts.
From S2P Require Import Fs Names Disk Reader Registry Recovery RecoveryProps SnapStore Metrics Writer WriterFacts WriterSafe WriterProps.
From S2P Require Import Sequencer SequencerProps Rounds Loop LoopProps Typed Shard Engine EngineProps EngineStart System Inbox SystemProps.

(** Of two prefixes of a list without repetitions, one that has all elements of the other
    extends it. *)
Lemma prefix_of_elems {A} (l a b : list A) :
  NoDup l -> a `prefix_of` l -> b `prefix_of` l -> (forall x, x ∈ a -> x ∈ b) -> a `prefix_of` b.
Proof.
  intros Hnd Ha Hb Hin. destruct (prefix_weak_total a b l Ha Hb) as [?|[k ->]]; [done|].
  destruct k as [|x k]; [by rewrite app_nil_r|]. destruct Ha as [rest ->].
  rewrite <-app_assoc in Hnd. apply NoDup_app in Hnd as (_ & Hdis & _). destruct (Hdis x); [|by left].
  apply Hin, elem_of_app. right. by left.
Qed.

(** ** Recoveries that agree *)

Lemma recoverBooks_dom cfg r latest wal out lasts :
  0 < cfg_ShardCount cfg -> snapshot_ok latest -> dir_ok wal -> recoverBooks cfg r latest wal = Ret (inr (out, lasts)) ->
  (forall sym, is_Some (out !! sym) <-> sym ∈ cfg_Symbols cfg) /\ length lasts = Z.to_nat (cfg_ShardCount cfg).
Proof.
  intros Hc Hs Hd Hr. destruct (recoverBooks_inv _ _ _ _ _ _ Hc Hs Hd Hr) as (restored & lasts0 & Hl & Hrp).
  destruct (replays_sound _ _ _ _ _ _ _ _ Hd Hrp) as (_ & H2 & _ & H4). split.
  - intros sym. rewrite H2. split; [apply initial_symbols|apply initial_dom].
  - rewrite H4. apply (loadSnapshot_length _ _ _ _ _ (Z.lt_le_incl _ _ Hc) Hl).
Qed.

(** Two recoveries with the same books of every shard and the same watermarks. *)
Lemma recoverBooks_same cfg r latest1 latest2 wal out1 out2 lasts1 lasts2 :
  small_count (cfg_ShardCount cfg) -> NewSymbolRegistry (cfg_Symbols cfg) (cfg_ShardCount cfg) = Ret (inr r) ->
  snapshot_ok latest1 -> snapshot_ok latest2 -> dir_ok wal ->
  recoverBooks cfg r latest1 wal = Ret (inr (out1, lasts1)) -> recoverBooks cfg r latest2 wal = Ret (inr (out2, lasts2)) ->
  (forall i, (i < Z.to_nat (cfg_ShardCount cfg))%nat -> lasts1 !! i = lasts2 !! i) ->
  (forall sym id, ShardFor r sym = Some id -> out1 !! sym = out2 !! sym) -> out1 = out2 /\ lasts1 = lasts2.
Proof.
  intros Hc Hreg Hs1 Hs2 Hd Hr1 Hr2 Hlasts Hout.
  destruct (recoverBooks_dom _ _ _ _ _ _ (proj1 Hc) Hs1 Hd Hr1) as [Hd1 Hl1], (recoverBooks_dom _ _ _ _ _ _ (proj1 Hc) Hs2 Hd Hr2) as [Hd2 Hl2].
  destruct (NewSymbolRegistry_built _ _ _ Hc Hreg) as [_ Hf _]. split.
  - apply map_eq. intros sym. destruct (ShardFor r sym) as [id|] eqn:Es; [by eapply Hout|]. rewrite Hf in Es.
    case_bool_decide as Hin; [done|]. rewrite <-Hd1 in Hin. assert (out1 !! sym = None) as -> by by apply eq_None_not_Some.
    symmetry. apply eq_None_not_Some. by rewrite Hd2, <-Hd1.
  - apply list_eq. intros i. destruct (decide (i < Z.to_nat (cfg_ShardCount cfg))%nat); [by apply Hlasts|].
    by rewrite !lookup_ge_None_2 by lia.
Qed.

(** ** Snapshots of a running engine *)

Lemma NewEngine_id cfg latest wal mkdir e : NewEngine cfg latest wal mkdir = Ret (inr e) -> eg_engineID e = cfg_EngineID cfg.
Proof.
  unfold NewEngine. destruct (NewSymbolRegistry _ _) as [[err|r]| |]; cbn [obind]; try done.
  destruct (recoverBooks _ _ _ _) as [[err|[out lasts]]| |]; cbn [obind]; try done. destruct (_ =? 0); [done|].
  destruct (startShards _ _ _ _ _ _ _) as [[err|parts]| |]; cbn [obind]; try done. by intros [= <-].
Qed.

(** The engine that [CreateSnapshot] sees. *)
Definition engine_at (e : Engine) (sy : system) : Engine :=
  mkEngine (eg_registry e) (sy_sequencer sy) (map (fun p => (sh_loop (pt_shard p), sh_writer (pt_shard p))) (sy_parts sy))
    (eg_engineID e) (eg_snapshotDir e) (eg_collector e).

(** The drain [rel] was granted without an error and is still held. *)
Record drain_held (s : Sequencer SymbolRegistry) (rel : nat) : Prop := {
  dh_wait : sq_wait s = Some (AwaitRelease rel);
  dh_held : rel ∉ sq_released s;
  dh_granted : exists pre result, sq_actions s = pre ++ [Resulted result None]
}.

Lemma restored_keyed r ss (acc restored : state) : restoredBooks r ss acc = inr restored -> keyed acc -> keyed restored.
Proof.
  revert acc. induction ss as [|s ss IH]; intros acc; cbn [restoredBooks]; [by intros [= <-]|].
  destruct (ShardFor r (sn_Symbol s)); [|done]. intros H Hk. apply (IH _ H). intros sym t.
  destruct (decide (sym = sn_Symbol s)) as [->|Hne]; [rewrite lookup_insert_eq; by intros [= <-]|].
  rewrite lookup_insert_ne by done. apply Hk.
Qed.

Lemma loadSnapshot_keyed cfg r latest restored lasts : loadSnapshot cfg r latest = inr (restored, lasts) -> keyed restored.
Proof.
  assert (keyed ∅) as H0 by (intros sym s; by rewrite lookup_empty).
  unfold loadSnapshot. intros H. repeat case_match; simplify_eq; try done; by eapply restored_keyed.
Qed.

Section Cut.
Context (cfg : Config) (latest : error + (EngineSnapshot * string)) (wal0 : dir) (mkdir : Z -> option error) (e : Engine).
Context (restored : state) (lasts0 : list Z) (dks : nat -> disk) (old : nat -> list Record_) (L : nat -> Z) (F : nat -> state).
Context (Hst : started cfg latest wal0 mkdir e restored lasts0 dks old L F).
Let r : SymbolRegistry := eg_registry e.
Let Hsc : small_count (cfg_ShardCount cfg).
Proof. pose proof (sd_count _ _ _ _ _ _ _ _ _ _ _ Hst). split; lia. Qed.
Context (out : state) (lasts : nat -> Z) (init : Z) (Hog : origin cfg e L F out lasts init).

(** The recovered books are filed under their symbols. *)
Lemma origin_keyed i : (i < Z.to_nat (cfg_ShardCount cfg))%nat -> keyed (initial out (SymbolsForShard r (Z.of_nat i))).
Proof.
  intros Hi. apply initial_keyed. intros sym s Es.
  assert (sym ∈ cfg_Symbols cfg) as Hin by (apply (og_dom _ _ _ _ _ _ _ Hog); by eexists).
  destruct (NewSymbolRegistry_built _ _ _ Hsc (og_registry _ _ _ _ _ _ _ Hog)) as [_ Hf _].
  assert (exists id, ShardFor r sym = Some id) as [id Hid] by (unfold r; rewrite Hf; rewrite bool_decide_true by done; eauto).
  destruct (registry_shards _ _ _ _ Hsc (og_registry _ _ _ _ _ _ _ Hog) Hid) as [Hr _].
  destruct (lb_history _ _ _ _ _ _ _ _ _ (sd_logs _ _ _ _ _ _ _ _ _ _ _ Hst) (Z.to_nat id) ltac:(lia)) as (last & _ & Hh).
  rewrite (og_books _ _ _ _ _ _ _ Hog (Z.to_nat id)) in Es by (rewrite Z2Nat.id by lia; done).
  eapply (history_keyed _ _ _ _ _ _ Hh); [|exact Es]. apply initial_keyed. eapply loadSnapshot_keyed, (sd_load _ _ _ _ _ _ _ _ _ _ _ Hst).
Qed.

Context (sy1 sy2 : system) (rel : nat).
Context (H1 : system_inv cfg r out lasts init dks sy1) (H2 : system_inv cfg r out lasts init dks sy2).
Context (Hsteps : system_steps cfg sy1 sy2) (Hheld : drain_held (sy_sequencer sy1) rel).

(** A drained shard: its books, and the records it has logged, which are all done. *)
Lemma drained_cut i p g A :
  sy_parts sy1 !! i = Some p -> part_inv cfg r out lasts dks (sy_sequencer sy1) i p g A ->
  gh_log g = gh_done g /\ cut_shard r out i (L i) (gh_recs g) (sh_loop (pt_shard p)) A.
Proof.
  intros Hp Hpi. pose proof (shard_index cfg e dks out lasts init sy1 H1 i p Hp) as Hi. destruct Hheld as [Hw Hrel (pre & result & Ea)].
  destruct (drained_idle _ _ _ _ _ _ _ _ _ _ _ _ _ _ H1 Hp Hpi Hw Hrel Ea) as [Hf Hpend].
  destruct (idle_state _ _ _ _ _ _ _ _ _ (si_loop _ _ _ _ _ _ _ _ _ (pi_shard _ _ _ _ _ _ _ _ _ _ Hpi)) (origin_keyed i Hi) Hf Hpend)
    as (El & Hh & Hb & Hk & Hdom). rewrite (og_lasts _ _ _ _ _ _ _ Hog i Hi) in Hh.
  split; [done|]. by apply (cut_shard_of cfg); [|apply Hog|..].
Qed.

Context (wal : dir) (Hfits : forall p, p ∈ sy_parts sy2 -> Forall record_fits (w_made (sh_writer (pt_shard p)))).
Context (Hleaves : leaves cfg sy2 wal).

(** What a shard had logged at the snapshot ([recs]) and what recovery finds after it
    ([more]): from the books of the start to [AR], from those of the old log to [A']. *)
Record cut_log (i : nat) (p1 : part) (recs more : list Record_) (last' : Z) (AR A' : state) : Prop := {
  cl_cut : exists A, cut_shard r out i (L i) recs (sh_loop (pt_shard p1)) A;
  cl_read : ReadShardRecordsForEngine wal (cfg_EngineID cfg) (Z.of_nat i) (cfg_ShardCount cfg) = Ret (inr (old i ++ recs ++ more));
  cl_start : history (fun sym => ShardFor r sym = Some (Z.of_nat i)) (L i) (initial out (SymbolsForShard r (Z.of_nat i)))
    (recs ++ more) last' AR;
  cl_old : history (fun sym => ShardFor r sym = Some (Z.of_nat i)) (L i) (F i) (recs ++ more) last' A';
  cl_agree : forall sym, ShardFor r sym = Some (Z.of_nat i) -> A' !! sym = AR !! sym
}.

Lemma cut_log_exists i p1 : sy_parts sy1 !! i = Some p1 -> exists recs more last' AR A', cut_log i p1 recs more last' AR A'.
Proof.
  intros Hp1. pose proof (shard_index cfg e dks out lasts init sy1 H1 i p1 Hp1) as Hi.
  destruct (yi_parts _ _ _ _ _ _ _ H1 i p1 Hp1) as (g1 & A1 & Hi1), (drained_cut i p1 g1 A1 Hp1 Hi1) as [Hall Hcut].
  destruct Hst as [Hc He Hs Ht Hd Hnew Hl Hlogs].
  destruct (system_steps_part cfg r out lasts init dks old Hsc (og_registry _ _ _ _ _ _ _ Hog) (og_init _ _ _ _ _ _ _ Hog)
    (og_below _ _ _ _ _ _ _ Hog) (fun i => header_fits cfg i Hc He) (lb_disk _ _ _ _ _ _ _ _ _ Hlogs) sy1 sy2 i p1 g1 A1 H1 Hsteps Hp1 Hi1)
    as (p2 & g2 & A2 & Hp2 & Hi2 & Hlog & Hdone).
  destruct (crash_records cfg latest wal0 mkdir e restored lasts0 dks old L F Hst out lasts init Hog sy2 wal H2 Hfits Hleaves i p2 g2 A2 Hp2 Hi2)
    as (rs & last' & AR & A' & Hread & Hrs & _ & Hin & HR & HA & Hag).
  assert (gh_recs g1 `prefix_of` rs) as [more ->].
  { apply (prefix_of_elems (gh_recs g2)); [|by destruct Hlog as [k Hk]; exists (map en_rec k); unfold gh_recs; rewrite Hk, map_app|done|].
    - apply (part_distinct cfg r out lasts init dks (og_below _ _ _ _ _ _ _ Hog) (sy_sequencer sy2) i p2 g2 A2 Hi); [apply H2|done].
    - intros x (en & -> & Hen)%list_elem_of_fmap. apply Hin. rewrite Hall in Hen. destruct Hdone as [k ->]. apply elem_of_app. by left. }
  exists (gh_recs g1), more, last', AR, A'. split; [by exists A1|done..].
Qed.

(** Recovery from the snapshot of the start ends in the same state. *)
Lemma cut_log_found i p1 recs more last' AR A' p2 rs last2 A2 :
  cut_log i p1 recs more last' AR A' -> found cfg r wal sy2 (old i) (L i) (F i) i p2 rs last2 A2 ->
  last2 = last' /\ forall sym, ShardFor r sym = Some (Z.of_nat i) -> A2 !! sym = AR !! sym.
Proof.
  intros [_ Hr1 _ Hh1 Hag] [Hr2 Hh2 _ _ _]. rewrite Hr1 in Hr2. injection Hr2 as Ers. apply app_inv_head in Ers as <-.
  destruct (history_det _ _ _ _ _ _ _ _ Hh1 Hh2) as [<- <-]. done.
Qed.

(** All shards. *)
Lemma cut_logs : exists (recs more : nat -> list Record_) (last' : nat -> Z) (AR A' : nat -> state),
  forall i, (i < Z.to_nat (cfg_ShardCount cfg))%nat ->
    exists p, sy_parts sy1 !! i = Some p /\ cut_log i p (recs i) (more i) (last' i) (AR i) (A' i).
Proof.
  pose proof (yi_count _ _ _ _ _ _ _ H1) as Hn1.
  destruct (list_choice (fun i p (y : list Record_ * list Record_ * Z * state * state) =>
    cut_log i p y.1.1.1.1 y.1.1.1.2 y.1.1.2 y.1.2 y.2) (sy_parts sy1)) as (ys & Hlen & Hys).
  { intros i p Hp. destruct (cut_log_exists i p Hp) as (recs & more & last' & AR & A' & Hy). by exists (recs, more, last', AR, A'). }
  set (at_ := fun i => default ([], [], 0, ∅, ∅) (ys !! i)).
  exists (fun i => (at_ i).1.1.1.1), (fun i => (at_ i).1.1.1.2), (fun i => (at_ i).1.1.2), (fun i => (at_ i).1.2), (fun i => (at_ i).2).
  intros i Hi. destruct (lookup_lt_is_Some_2 (sy_parts sy1) i) as [p Hp]; [lia|].
  destruct (lookup_lt_is_Some_2 ys i) as [y Hy]; [lia|]. exists p. unfold at_. rewrite Hy. eauto.
Qed.

(** The snapshot can stand for the one of the start. *)
Lemma cut_transparent path :
  exists snap out' lasts', engineSnapshot (engine_at e sy1) = Ret snap /\
    recoverBooks cfg r latest wal = Ret (inr (out', lasts')) /\ recoverBooks cfg r (inr (snap, path)) wal = Ret (inr (out', lasts')).
Proof.
  pose proof (yi_count _ _ _ _ _ _ _ H1) as Hn1. pose proof (yi_count _ _ _ _ _ _ _ H2) as Hn2.
  destruct cut_logs as (recs & more & last' & AR & A' & Hat).
  assert (forall i q, eg_shards (engine_at e sy1) !! i = Some q -> exists p, (i < Z.to_nat (cfg_ShardCount cfg))%nat /\
    q.1 = sh_loop (pt_shard p) /\ cut_log i p (recs i) (more i) (last' i) (AR i) (A' i)) as Heng.
  { intros i q Hq. cbn in Hq. rewrite list_lookup_fmap in Hq. destruct (sy_parts sy1 !! i) as [p|] eqn:Hp; [|done]. injection Hq as <-.
    pose proof (shard_index cfg e dks out lasts init sy1 H1 i p Hp) as Hi. destruct (Hat i Hi) as (p' & Hp' & Hy).
    assert (p' = p) as -> by congruence. by exists p. }
  destruct (crash_recovers cfg latest wal0 mkdir e restored lasts0 dks old L F Hst out lasts init Hog sy2 wal H2 Hfits Hleaves)
    as (out' & lasts' & Erec & Hfound).
  assert (forall i, (i < Z.to_nat (cfg_ShardCount cfg))%nat -> lasts' !! i = Some (last' i) /\
    forall sym, ShardFor r sym = Some (Z.of_nat i) -> out' !! sym = AR i !! sym) as Hstart.
  { intros i Hi. destruct (Hat i Hi) as (p1 & _ & Hcl), (lookup_lt_is_Some_2 (sy_parts sy2) i) as [p2 Hp2]; [lia|].
    destruct (Hfound i p2 Hp2) as (rs & last2 & A2 & Hf & El & Ho), (cut_log_found _ _ _ _ _ _ _ _ _ _ _ Hcl Hf) as [<- Hag].
    split; [done|]. intros sym Hsym. by rewrite (Ho sym Hsym), (Hag sym Hsym). }
  destruct (cut_recovers cfg r out (engine_at e sy1) Hsc (og_registry _ _ _ _ _ _ _ Hog)) with (lasts0 := L)
    (recs := recs) (old := old) (more := more) (wal := wal) (L := last') (F := AR) (path := path)
    as (snap & out2 & lasts2 & Esnap & Hsok & Erec2 & Hout2 & Hlasts2).
  - exact (NewEngine_id cfg latest wal0 mkdir e (sd_new _ _ _ _ _ _ _ _ _ _ _ Hst)).
  - cbn. rewrite length_map, Hn1. pose proof (proj1 Hsc). lia.
  - intros i q Hq. destruct (Heng i q Hq) as (p & Hi & Eq & [Hcut _ _ _ _]). by rewrite Eq.
  - apply Hleaves.
  - intros i q Hq. destruct (Heng i q Hq) as (p & Hi & _ & [_ Hread Hs _ _]). split_and!; [|done|done].
    destruct (lb_history _ _ _ _ _ _ _ _ _ (sd_logs _ _ _ _ _ _ _ _ _ _ _ Hst) i Hi) as (last & _ & Hh). apply (history_bounds _ _ _ _ _ _ Hh).
  - exists snap, out', lasts'. split_and!; [done|done|].
    destruct (recoverBooks_same cfg r latest (inr (snap, path)) wal out' out2 lasts' lasts2) as [-> ->]; try done.
    + apply Hog.
    + apply (sd_snapshot _ _ _ _ _ _ _ _ _ _ _ Hst).
    + apply Hleaves.
    + intros i Hi. rewrite (proj1 (Hstart i Hi)). specialize (Hlasts2 (Z.of_nat i) ltac:(lia)). by rewrite Nat2Z.id in Hlasts2.
    + intros sym id Hsym. destruct (registry_shards _ _ _ _ Hsc (og_registry _ _ _ _ _ _ _ Hog) Hsym) as [Hid _].
      rewrite (Hout2 sym id Hsym). apply Hstart; [lia|]. by rewrite Z2Nat.id by lia.
Qed.
End Cut.

Lemma system_steps_trans cfg sy1 sy2 sy3 : system_steps cfg sy1 sy2 -> system_steps cfg sy2 sy3 -> system_steps cfg sy1 sy3.
Proof. intros H12 H23. induction H23 as [|sy2 sy3 sy4 _ IH Hs]; [done|]. eapply sys_step; [by apply IH|done]. Qed.

(** ** Properties *)

(** C4. A barrier covers everything before it.  When the sequencer of a running engine has
    reported the end of a barrier or a drain without an error, every command that was
    sequenced before that report was answered with a result, and the record of exactly this
    command and this result is among those that recovery finds in the shard's log after a
    crash at any later moment, whatever the shards and writers did in between. *)
Theorem barrier_means_durable cfg latest wal0 mkdir e restored lasts0 dks old L F sy wal pre result post i cmd c :
  started cfg latest wal0 mkdir e restored lasts0 dks old L F -> system_steps cfg (start e dks) sy ->
  (forall p, p ∈ sy_parts sy -> Forall record_fits (w_made (sh_writer (pt_shard p)))) -> leaves cfg sy wal ->
  sq_actions (sy_sequencer sy) = pre ++ Resulted result None :: post -> Sent i (RoutedCommand cmd c) ∈ pre ->
  exists p rs rec, sy_parts sy !! i = Some p /\
    ReadShardRecordsForEngine wal (cfg_EngineID cfg) (Z.of_nat i) (cfg_ShardCount cfg) = Ret (inr (old i ++ rs)) /\
    rec ∈ rs /\ rec_Command rec = cmd /\ (c, outcome_ok (rec_Result rec)) ∈ lp_replies (sh_loop (pt_shard p)).
Proof.
  intros Hst Hsteps Hfits Hleaves Ea Hsent. destruct (run_inv _ _ _ _ _ _ _ _ _ _ _ Hst) as (out & lasts & init & Hog & Hrun).
  pose proof (Hrun sy Hsteps) as Hinv. assert (small_count (cfg_ShardCount cfg)) as Hsc by (pose proof (sd_count _ _ _ _ _ _ _ _ _ _ _ Hst); split; lia).
  destruct (lookup_lt_is_Some_2 (sy_parts sy) i) as [p Hp].
  { rewrite (yi_count _ _ _ _ _ _ _ Hinv). pose proof (sv_routes _ _ _ _ (yi_sequencer _ _ _ _ _ _ _ Hinv)) as Hroutes.
    rewrite Forall_forall in Hroutes. specialize (Hroutes (i, cmd)). cbn in Hroutes.
    destruct (registry_shards cfg (eg_registry e) (cmd_Symbol cmd) (Z.of_nat i) Hsc (og_registry _ _ _ _ _ _ _ Hog)) as [Hi _]; [|lia].
    apply Hroutes. unfold sent_commands. apply list_elem_of_omap. exists (Sent i (RoutedCommand cmd c)). split; [|done].
    rewrite Ea. apply elem_of_app. by left. }
  destruct (yi_parts _ _ _ _ _ _ _ Hinv i p Hp) as (g & A & Hpi).
  destruct (crash_records _ _ _ _ _ _ _ _ _ _ _ Hst _ _ _ Hog _ _ Hinv Hfits Hleaves i p g A Hp Hpi)
    as (rs & last' & AR & A' & Hread & _ & _ & Hin & _).
  pose proof (barrier_done _ _ _ _ _ _ _ _ _ _ _ _ _ _ Hinv Hp Hpi Ea) as Hdone.
  assert ((cmd, c) ∈ map routed_of (gh_done g)) as (en & [= -> ->] & Hen)%list_elem_of_fmap.
  { eapply elem_of_prefix; [|exact Hdone]. apply list_elem_of_omap. exists (RoutedCommand cmd c). split; [|done].
    apply list_elem_of_omap. exists (Sent i (RoutedCommand cmd c)). split; [done|]. by rewrite decide_True. }
  exists p, rs, (en_rec en). split_and!; [done|done|auto|done|].
  pose proof (li_done _ _ _ _ _ _ _ _ (si_loop _ _ _ _ _ _ _ _ _ (pi_shard _ _ _ _ _ _ _ _ _ _ Hpi))) as Hall.
  rewrite Forall_forall in Hall. by apply Hall.
Qed.

(** The engine of the last section, with a barrier after the answered order. *)
Definition bar_s1 : Sequencer SymbolRegistry := (Barrier ChooseSend 20 run_s2).2.
Definition bar_s2 : Sequencer SymbolRegistry := fan_out None 20 0 None (set_queue [] bar_s1).
Definition bar_l : Loop := ran (loop_iteration (OnBarrier 0 None (fun _ => None)) run_l5).
Definition bar_s3 : Sequencer SymbolRegistry := fan_answer (mkRound None 20 0 0 None) None bar_s2.
Definition run_sys (s : Sequencer SymbolRegistry) (l : Loop) (n : nat) : system := mkSystem s [run_part l run_w4.1 run_w4.2 1 n].

Lemma bar_steps : system_steps run_cfg (start run_engine (fun _ => no_disk)) (run_sys bar_s3 bar_l 2).
Proof.
  eapply (sys_step _ _ (run_sys bar_s2 bar_l 2)).
  2:{ apply sy_sequence; [|vm_compute; constructor]. apply ss_answer; [vm_compute; reflexivity|].
      eexists. split; [reflexivity|]. vm_compute. by left. }
  eapply (sys_step _ _ (run_sys bar_s2 run_l5 1)).
  2:{ apply one_step. apply (ps_event _ _ _ (OnBarrier 0 None (fun _ => None)));
        [|vm_compute; reflexivity|vm_compute; reflexivity|by apply ap_none|].
      - eapply (cf_message _ _ _ _ (RoutedBarrier 0)); [vm_compute; reflexivity|done].
      - intros c Hc. vm_compute in Hc. by apply elem_of_nil in Hc. }
  eapply (sys_step _ _ (run_sys bar_s1 run_l5 1)).
  2:{ apply sy_sequence; [|vm_compute; constructor]. eapply (ss_run _ (requestBarrier 20) [] 0); vm_compute; reflexivity. }
  eapply (sys_step _ _ run_end); [exact run_steps|]. apply sy_sequence; [by apply (ss_barrier _ ChooseSend); vm_compute|].
  assert (sq_ingressQ bar_s1 = [requestBarrier 20]) as -> by (vm_compute; reflexivity). by apply Forall_singleton.
Qed.

Lemma barrier_means_durable_witness :
  exists p rs rec, sy_parts (run_sys bar_s3 bar_l 2) !! 0%nat = Some p /\
    ReadShardRecordsForEngine (view run_w4.2) "engine-1" 0 1 = Ret (inr ([] ++ rs)) /\ rec ∈ rs /\
    rec_Command rec = with_Seq 1 c1 /\ (10%nat, outcome_ok (rec_Result rec)) ∈ lp_replies (sh_loop (pt_shard p)).
Proof.
  apply (barrier_means_durable run_cfg (inl ErrNotExist) ∅ (fun _ => None) run_engine ∅ [0] (fun _ => no_disk) (fun _ => [])
    (fun _ => 0) (fun _ => initial ∅ ["AAPL"]%string) (run_sys bar_s3 bar_l 2) (view run_w4.2)
    [Sent 0 (RoutedCommand (with_Seq 1 c1) 10); Sent 0 (RoutedBarrier 0)] 20 []);
    [exact run_started|exact bar_steps|intros p; apply run_fits; exact run_made|apply run_leaves|vm_compute; reflexivity|by left].
Defined.

(** C3. Snapshots are transparent to recovery.  Let a running engine reach a moment [sy1]
    at which a drain was granted without an error and is still held: this is when
    [CreateSnapshot] looks at the shards.  It succeeds; and after any further steps and a
    crash, recovery from this snapshot and what is left of the logs gives exactly the
    books and watermarks that recovery from the snapshot of the start gives, so the old
    snapshot is not needed any more. *)
Theorem snapshot_is_transparent cfg latest wal0 mkdir e restored lasts0 dks old L F sy1 rel sy2 wal path :
  started cfg latest wal0 mkdir e restored lasts0 dks old L F -> system_steps cfg (start e dks) sy1 ->
  drain_held (sy_sequencer sy1) rel -> system_steps cfg sy1 sy2 ->
  (forall p, p ∈ sy_parts sy2 -> Forall record_fits (w_made (sh_writer (pt_shard p)))) -> leaves cfg sy2 wal ->
  exists snap out lasts, engineSnapshot (engine_at e sy1) = Ret snap /\
    recoverBooks cfg (eg_registry e) latest wal = Ret (inr (out, lasts)) /\
    recoverBooks cfg (eg_registry e) (inr (snap, path)) wal = Ret (inr (out, lasts)).
Proof.
  intros Hst Hs1 Hheld Hs2 Hfits Hleaves. destruct (run_inv _ _ _ _ _ _ _ _ _ _ _ Hst) as (out & lasts & init & Hog & Hrun).
  assert (system_steps cfg (start e dks) sy2) as Hs by by eapply system_steps_trans.
  exact (cut_transparent _ _ _ _ _ _ _ _ _ _ _ Hst _ _ _ Hog sy1 sy2 rel (Hrun _ Hs1) (Hrun _ Hs) Hs2 Hheld wal Hfits Hleaves path).
Qed.

(** A drain instead of the barrier, and its release. *)
Definition dr_s1 : Sequencer SymbolRegistry := (AcquireDrain ChooseSend 21 30 run_s2).2.
Definition dr_s2 : Sequencer SymbolRegistry := fan_out (Some 30%nat) 21 0 None (set_queue [] dr_s1).
Definition dr_l : Loop := ran (loop_iteration (OnDrain 0 30 None (fun _ => None)) run_l5).
Definition dr_s3 : Sequencer SymbolRegistry := fan_answer (mkRound (Some 30%nat) 21 0 0 None) None dr_s2.

Lemma dr_steps : system_steps run_cfg (start run_engine (fun _ => no_disk)) (run_sys dr_s3 dr_l 2).
Proof.
  eapply (sys_step _ _ (run_sys dr_s2 dr_l 2)).
  2:{ apply sy_sequence; [|vm_compute; constructor]. apply ss_answer; [vm_compute; reflexivity|].
      eexists. split; [reflexivity|]. vm_compute. by left. }
  eapply (sys_step _ _ (run_sys dr_s2 run_l5 1)).
  2:{ apply one_step. apply (ps_event _ _ _ (OnDrain 0 30 None (fun _ => None)));
        [|vm_compute; reflexivity|vm_compute; reflexivity|by apply ap_none|].
      - eapply (cf_message _ _ _ _ (RoutedDrain 0 30)); [vm_compute; reflexivity|done].
      - intros c Hc. vm_compute in Hc. by apply elem_of_nil in Hc. }
  eapply (sys_step _ _ (run_sys dr_s1 run_l5 1)).
  2:{ apply sy_sequence; [|vm_compute; constructor]. eapply (ss_run _ (requestDrain 21 30) [] 0); vm_compute; reflexivity. }
  eapply (sys_step _ _ run_end); [exact run_steps|]. apply sy_sequence; [by apply (ss_drain _ ChooseSend); vm_compute|].
  assert (sq_ingressQ dr_s1 = [requestDrain 21 30]) as -> by (vm_compute; reflexivity). by apply Forall_singleton.
Qed.

Lemma dr_held : drain_held dr_s3 30.
Proof.
  split; [vm_compute; reflexivity|vm_compute; by intros ?%elem_of_nil|].
  eexists [Sent 0 (RoutedCommand (with_Seq 1 c1) 10); Sent 0 (RoutedDrain 0 30)], 21%nat. vm_compute. reflexivity.
Qed.

Lemma snapshot_is_transparent_witness :
  exists snap out lasts, engineSnapshot (engine_at run_engine (run_sys dr_s3 dr_l 2)) = Ret snap /\
    recoverBooks run_cfg (eg_registry run_engine) (inl ErrNotExist) (view run_w4.2) = Ret (inr (out, lasts)) /\
    recoverBooks run_cfg (eg_registry run_engine) (inr (snap, ""%string)) (view run_w4.2) = Ret (inr (out, lasts)).
Proof.
  apply (snapshot_is_transparent run_cfg (inl ErrNotExist) ∅ (fun _ => None) run_engine ∅ [0] (fun _ => no_disk) (fun _ => [])
    (fun _ => 0) (fun _ => initial ∅ ["AAPL"]%string) (run_sys dr_s3 dr_l 2) 30 (run_sys (release 30 dr_s3) dr_l 2));
    [exact run_started|exact dr_steps|exact dr_held| |intros p; apply run_fits; exact run_made|apply run_leaves].
  eapply sys_step; [apply sys_refl|]. apply sy_sequence; [apply ss_release|vm_compute; constructor].
Defined.
