(* ===== verification/Restart.v ===== *)
(** * Restart: an engine that was shut down without an error can be started again

    The end of a run: the loops have ended and have shut their writers down.  Complete
    segments are left that hold every command that was sequenced, and the next engine
    starts on them under the conditions all theorems about runs ask for. *)

From S2P Require Import Prelude Model Book BookSpec BookRep BookApply BookWalk BookTrace Bytes Codec CodecFacts.
From S2P Require Import Fs Names Disk Reader Registry Recovery RecoveryProps SnapStore Metrics Writer WriterFacts WriterSafe WriterProps.
From S2P Require Import Sequencer SequencerProps Rounds Loop LoopProps Typed Shard Engine EngineProps EngineStart System Inbox SystemProps SystemCut.

(** ** Disks after a restart *)

(** The disk of a machine that is up again: it has the files of shard [id] found in [wal],
    and all of them are on disk. *)
Record mounted (id : Z) (wal : dir) (dk : disk) : Prop := {
  mt_files : forall n, glob_match (shard_prefix id) ".wal" n = true ->
    match wal !! n with
    | Some (Some data) => exists i, stored dk n i data
    | Some None => True
    | None => dk_names dk !! n = None /\ dk_durable dk !! n = None
    end;
  mt_private : forall n n' i, dk_names dk !! n = Some i -> dk_names dk !! n' = Some i -> n = n'
}.

(** Complete segments stay complete. *)
Lemma settled_remount cfg dk old d wal dk' :
  settled_log cfg dk old -> survives dk d ->
  (forall n, glob_match (shard_prefix (wc_ShardID cfg)) ".wal" n = true -> wal !! n = d !! n) ->
  mounted (wc_ShardID cfg) wal dk' -> settled_log cfg dk' old.
Proof.
  intros (segs & idx & [Hlog Hn Hd] & -> & Hidx) Hsv Hag [Hf Hp]. set (h := mkSegmentHeader _ _ _) in *.
  destruct (log_survives h _ _ _ _ Hlog Hsv) as [Hholds Hnone].
  assert (d !! seg_path h idx = None) as Hdn.
  { destruct (Hsv (seg_path h idx)) as (x & Hx & Hfile). rewrite Hn, Hd in Hx. by destruct Hx as [->| ->]. }
  pose proof (Hf _ (seg_path_is_seg h idx)) as Hi. rewrite Hag, Hdn in Hi by apply (seg_path_is_seg h). destruct Hi as [Hi1 Hi2].
  exists segs, idx. split_and!; [|done|done]. split; [|done|done]. destruct Hlog as [L1 L2 L3 L4 L5 L6]. split; try done.
  - apply Forall_forall. intros seg Hseg. rewrite Forall_map, Forall_forall in Hholds. destruct (Hholds _ Hseg) as [E _]. cbn in E.
    pose proof (Hf _ (seg_path_is_seg h seg.1)) as Hs. rewrite Hag, E in Hs by apply (seg_path_is_seg h). exact Hs.
  - intros n Hseg Hne Hnin. pose proof (Hf n Hseg) as Hs. by rewrite Hag, (Hnone n Hseg Hne Hnin) in Hs by done.
  - intros f Hfn. assert (Some f = None) as Hno by (rewrite <-Hi1; symmetry; exact Hfn). done.
Qed.

(** ** The end of a run *)

(** The loop has ended, and so has the goroutine of its writer. *)
Record ended (p : part) : Prop := {
  ed_loop : loop_done (sh_loop (pt_shard p)) = true;
  ed_writer : w_phase (sh_writer (pt_shard p)) = Stopped;
  ed_index : st_segmentIndex (w_state (sh_writer (pt_shard p))) < 1000000
}.

(** The engine then: every loop has kept the result of its writer's shutdown. *)
Definition engine_end (e : Engine) (sy : system) : Engine :=
  mkEngine (eg_registry e) (sy_sequencer sy)
    (map (fun p => (loop_end (Shutdown_wait Signalled (sh_writer (pt_shard p))) (sh_loop (pt_shard p)), sh_writer (pt_shard p)))
      (sy_parts sy)) (eg_engineID e) (eg_snapshotDir e) (eg_collector e).

Lemma waitLoops_none shards ferr :
  waitLoops (map (fun _ => ChooseSend) shards) shards ferr = None -> ferr = None /\ Forall (fun p => lp_failedErr p.1 = None) shards.
Proof.
  revert ferr. induction shards as [|[l w] shards IH]; intros ferr; cbn; [done|]. intros [H1 H2]%IH.
  destruct (lp_failedErr l) eqn:E, ferr; try done. split; [done|]. by constructor.
Qed.

Lemma loop_end_none closed l :
  lp_wal l = true -> lp_failedErr (loop_end closed l) = None -> closed = None /\ lp_failedErr l = None.
Proof. intros Hw. unfold loop_end. rewrite Hw. cbn [negb]. destruct closed, (lp_failedErr l) eqn:E; cbn; rewrite ?E; done. Qed.

(** ** Starting again *)

Lemma startShards_again cfg registry books1 books2 lasts1 lasts2 mkdir n id shards :
  map_Forall (fun _ s => book_ok s) books2 -> 0 <= id -> (Z.to_nat id + n <= length lasts2)%nat ->
  startShards cfg registry books1 lasts1 mkdir n id = Ret (inr shards) ->
  exists shards', startShards cfg registry books2 lasts2 (fun _ => None) n id = Ret (inr shards').
Proof.
  intros Hok. revert id shards. induction n as [|n IH]; intros id shards Hid Hlen; cbn [startShards]; [by exists []|].
  destruct (NewWriter _ _) as [err|w] eqn:Ew; [done|]. rewrite (NewWriter_mkdir _ _ _ Ew).
  destruct (newLoop_inv id (SymbolsForShard registry id) books2 0 no_command Hok) as (l & -> & _). cbn [obind].
  destruct (lookup_lt_is_Some_2 lasts2 (Z.to_nat id)) as [last ->]; [lia|].
  destruct (newLoop _ _ _ books1) as [l1| |]; cbn [obind]; [|done|done]. destruct (lasts1 !! _); [|done].
  destruct (startShards _ _ books1 _ _ n _) as [[err|rest]| |] eqn:Er; cbn [obind]; [done| |done|done]. intros _.
  destruct (IH (id + 1) rest ltac:(lia) ltac:(lia) Er) as [rest' ->]. cbn [obind]. by eexists.
Qed.

(** Only running out of sequence numbers prevents a second start. *)
Lemma NewEngine_again cfg latest wal0 wal mkdir e out lasts :
  small_count (cfg_ShardCount cfg) -> snapshot_ok latest -> snapshot_typed latest -> dir_ok wal ->
  NewEngine cfg latest wal0 mkdir = Ret (inr e) -> recoverBooks cfg (eg_registry e) latest wal = Ret (inr (out, lasts)) ->
  NewEngine cfg latest wal (fun _ => None) = Ret (inl ErrSequenceExhausted) \/
  exists e', NewEngine cfg latest wal (fun _ => None) = Ret (inr e') /\ eg_registry e' = eg_registry e.
Proof.
  intros Hc Hs Ht Hd Hnew Hrec. unfold NewEngine in *.
  destruct (NewSymbolRegistry _ _) as [[err|r]| |] eqn:Ereg; cbn [obind] in *; try done.
  destruct (recoverBooks _ _ _ wal0) as [[err|[out0 lasts0]]| |]; cbn [obind] in Hnew; try done. destruct (_ =? 0); [done|].
  destruct (startShards _ _ out0 _ _ _ _) as [[err|parts]| |] eqn:Est; cbn [obind] in Hnew; try done.
  injection Hnew as <-. cbn [eg_registry] in *. rewrite Hrec. cbn [obind].
  destruct (nextSequence lasts =? 0); [by left|]. right.
  destruct (recoverBooks_sound _ _ _ _ _ _ (proj1 Hc) Hs Ht Hd Hrec) as (Hok & _ & _ & Hlen).
  destruct (fun Hl => startShards_again _ _ _ out _ lasts _ _ _ _ Hok (Z.le_refl 0) Hl Est) as [parts' ->]; [lia|].
  cbn [obind]. by eexists.
Qed.

Section End.
Context (cfg : Config) (latest : error + (EngineSnapshot * string)) (wal0 : dir) (mkdir : Z -> option error) (e : Engine).
Context (restored : state) (lasts0 : list Z) (dks : nat -> disk) (old : nat -> list Record_) (L : nat -> Z) (F : nat -> state).
Context (Hst : started cfg latest wal0 mkdir e restored lasts0 dks old L F).
Let r : SymbolRegistry := eg_registry e.
Context (out : state) (lasts : nat -> Z) (init : Z) (Hog : origin cfg e L F out lasts init).
Context (sy : system) (wal : dir) (Hinv : system_inv cfg r out lasts init dks sy).
Context (Hfits : forall p, p ∈ sy_parts sy -> Forall record_fits (w_made (sh_writer (pt_shard p)))) (Hleaves : leaves cfg sy wal).
Context (Hended : forall p, p ∈ sy_parts sy -> ended p).
Context (Hshut : Engine_Shutdown None (map (fun _ => ChooseSend) (sy_parts sy)) (engine_end e sy) = None).

(** Neither a loop nor a writer has failed. *)
Lemma end_fine i p g A :
  sy_parts sy !! i = Some p -> part_inv cfg r out lasts dks (sy_sequencer sy) i p g A ->
  lp_failedErr (sh_loop (pt_shard p)) = None /\ w_failedErr (sh_writer (pt_shard p)) = None.
Proof.
  intros Hp Hpi. cbn in Hshut. assert (Forall (fun q => lp_failedErr q.1 = None) (eg_shards (engine_end e sy))) as Hall.
  { apply (waitLoops_none _ None). cbn. rewrite map_map. exact Hshut. }
  cbn in Hall. rewrite Forall_map, Forall_lookup in Hall. specialize (Hall i p Hp). cbn in Hall.
  apply loop_end_none in Hall as [H1 H2]; [done|]. apply Hpi.
Qed.

(** Everything that was sequenced for the shard is done. *)
Lemma end_done i p g A :
  sy_parts sy !! i = Some p -> part_inv cfg r out lasts dks (sy_sequencer sy) i p g A ->
  gh_log g = gh_done g /\ map routed_of (gh_log g) = routed_commands (inbox_messages i (sq_actions (sy_sequencer sy))).
Proof.
  intros Hp Hpi. destruct (end_fine i p g A Hp Hpi) as [Hf _].
  pose proof (ed_loop _ (Hended p (list_elem_of_lookup_2 _ _ _ Hp))) as Hl. unfold loop_done in Hl.
  apply negb_true_iff in Hl. unfold loop_running in Hl.
  apply orb_false_iff in Hl as [Hin Hpend]. destruct Hpi as [Hsh _ _ Ht Hcl]. destruct (Hcl Hin) as [_ Htaken].
  pose proof (si_loop _ _ _ _ _ _ _ _ _ Hsh) as Hloop. split.
  - unfold gh_log. rewrite (li_lost _ _ _ _ _ _ _ _ Hloop Hf), app_nil_r. pose proof (li_pending _ _ _ _ _ _ _ _ Hloop) as Hw.
    unfold has_pending in Hpend. rewrite Hw in Hpend. destruct (gh_wait g); [by rewrite app_nil_r|done].
  - rewrite (tk_all _ _ _ _ Ht Hf), Htaken, take_ge; done.
Qed.

Lemma prefix_both {A} (a b : list A) : a `prefix_of` b -> b `prefix_of` a -> a = b.
Proof. intros H1 H2. apply prefix_length_eq; [done|]. by apply prefix_length. Qed.

(** A stopped writer has no step to crash in. *)
Lemma ended_crash wcfg p dk : ended p -> shard_crash wcfg (pt_shard p) dk -> dk = sh_disk (pt_shard p).
Proof.
  intros [_ Hw _] Hc. destruct Hc as [s|l w dk top fs dk' _ Hrun]; [done|]. cbn in Hw.
  inversion Hrun as [? ? ? Hph|? ? ? ? Hph]; congruence.
Qed.

(** The log at the end: the records of all commands of the inbox, in complete segments. *)
Record end_log (i : nat) (p : part) (rs : list Record_) (last' : Z) (A' : state) : Prop := {
  el_read : ReadShardRecordsForEngine wal (cfg_EngineID cfg) (Z.of_nat i) (cfg_ShardCount cfg) = Ret (inr (old i ++ rs));
  el_settled : settled_log (writer_config cfg (Z.of_nat i)) (sh_disk (pt_shard p)) (old i ++ rs);
  el_history : history (fun sym => ShardFor r sym = Some (Z.of_nat i)) (L i) (F i) rs last' A';
  el_commands : map rec_Command rs = inbox_commands i (sq_actions (sy_sequencer sy));
  el_replies : forall cmd c, RoutedCommand cmd c ∈ inbox_messages i (sq_actions (sy_sequencer sy)) ->
    exists rec, rec ∈ rs /\ rec_Command rec = cmd /\ (c, outcome_ok (rec_Result rec)) ∈ lp_replies (sh_loop (pt_shard p))
}.

Lemma end_log_exists i p : sy_parts sy !! i = Some p -> exists rs last' A', end_log i p rs last' A'.
Proof.
  intros Hp. destruct (yi_parts _ _ _ _ _ _ _ Hinv i p Hp) as (g & A & Hpi), (end_fine i p g A Hp Hpi) as [Hf Hwf], (end_done i p g A Hp Hpi) as [Hlog Hall].
  pose proof (shard_index cfg e dks out lasts init sy Hinv i p Hp) as Hi.
  pose proof (part_distinct cfg r out lasts init dks (og_below _ _ _ _ _ _ _ Hog) _ i p g A Hi (yi_sequencer _ _ _ _ _ _ _ Hinv) Hpi) as Hnd.
  destruct (crash_records cfg latest wal0 mkdir e restored lasts0 dks old L F Hst out lasts init Hog sy wal Hinv Hfits Hleaves i p g A Hp Hpi)
    as (rs & last' & AR & A' & Hread & Hrs & _ & Hin & _ & HA & _).
  assert (rs = gh_recs g) as ->.
  { apply prefix_both; [done|]. apply (prefix_of_elems (gh_recs g)); [done|done|done|].
    intros x (en & -> & Hen)%list_elem_of_fmap. apply Hin. by rewrite <-Hlog. }
  destruct Hst as [Hc He _ _ _ _ _ Hlogs], Hpi as [Hsh _ _ _ _]. pose proof (Hended p (list_elem_of_lookup_2 _ _ _ Hp)) as [_ Hph Hidx].
  pose proof (header_fits cfg i Hc He Hi) as Hh. pose proof (lb_disk _ _ _ _ _ _ _ _ _ Hlogs i Hi) as Hold.
  assert (recs (w_made (sh_writer (pt_shard p))) (acked (w_signals (sh_writer (pt_shard p)))) = gh_recs g) as Eack.
  { pose proof (acked_in_order (writer_config cfg (Z.of_nat i)) Hh (dks i) (old i) Hold _ _ (si_writer _ _ _ _ _ _ _ _ _ Hsh)) as Hpre.
    unfold logged in Hpre. rewrite (sent_log _ _ _ _ _ _ _ _ _ Hsh), filter_keeps in Hpre
      by (eapply log_fits; [exact Hsh|apply Hfits; by eapply list_elem_of_lookup_2]).
    apply prefix_both; [done|]. apply (prefix_of_elems (gh_recs g)); [done|done|done|].
    intros x (en & -> & Hen)%list_elem_of_fmap. rewrite Hlog in Hen. by eapply done_acked. }
  exists (gh_recs g), last', A'. split; [done| |done| |].
  - rewrite <-Eack. by eapply (stopped_settled (writer_config cfg (Z.of_nat i)) Hh (dks i)); [exact Hold|apply Hsh|..].
  - rewrite <-routed_inbox, <-Hall. unfold gh_recs. by rewrite !map_map.
  - intros cmd c Hcmd. assert ((cmd, c) ∈ map routed_of (gh_log g)) as (en & [= -> ->] & Hen)%list_elem_of_fmap.
    { rewrite Hall. apply list_elem_of_omap. by exists (RoutedCommand cmd c). }
    exists (en_rec en). split_and!; [by apply list_elem_of_fmap; exists en|done|].
    pose proof (li_done _ _ _ _ _ _ _ _ (si_loop _ _ _ _ _ _ _ _ _ Hsh)) as Hd. rewrite Forall_forall in Hd. apply Hd. by rewrite <-Hlog.
Qed.

(** All shards. *)
Lemma end_logs : exists (rs : nat -> list Record_) (last' : nat -> Z) (A' : nat -> state),
  forall i, (i < Z.to_nat (cfg_ShardCount cfg))%nat ->
    exists p, sy_parts sy !! i = Some p /\ end_log i p (rs i) (last' i) (A' i).
Proof.
  pose proof (yi_count _ _ _ _ _ _ _ Hinv) as Hn.
  destruct (list_choice (fun i p (y : list Record_ * Z * state) => end_log i p y.1.1 y.1.2 y.2) (sy_parts sy)) as (ys & Hlen & Hys).
  { intros i p Hp. destruct (end_log_exists i p Hp) as (rs & last' & A' & Hy). by exists (rs, last', A'). }
  set (at_ := fun i => default ([], 0, ∅) (ys !! i)).
  exists (fun i => (at_ i).1.1), (fun i => (at_ i).1.2), (fun i => (at_ i).2). intros i Hi.
  destruct (lookup_lt_is_Some_2 (sy_parts sy) i) as [p Hp]; [lia|].
  destruct (lookup_lt_is_Some_2 ys i) as [y Hy]; [lia|]. exists p. unfold at_. rewrite Hy. eauto.
Qed.

Context (dks' : nat -> disk) (Hmount : forall i, (i < Z.to_nat (cfg_ShardCount cfg))%nat -> mounted (Z.of_nat i) wal (dks' i)).

(** The logs are what the next start asks for. *)
Lemma end_logs_before rs last' A' :
  (forall i, (i < Z.to_nat (cfg_ShardCount cfg))%nat -> exists p, sy_parts sy !! i = Some p /\ end_log i p (rs i) (last' i) (A' i)) ->
  logs_before cfg r wal restored lasts0 dks' (fun i => old i ++ rs i) last' A'.
Proof.
  intros Hall. split; intros i Hi; destruct (Hall i Hi) as (p & Hp & [Hread Hset Hh _ _]).
  - destruct Hleaves as [_ Hcr]. destruct (Hcr i p Hp) as (dk & d & Hc & Hsv & Hag).
    rewrite (ended_crash _ p dk (Hended p (list_elem_of_lookup_2 _ _ _ Hp)) Hc) in Hsv.
    eapply settled_remount; [exact Hset|exact Hsv|exact Hag|by apply Hmount].
  - done.
  - destruct (lb_history _ _ _ _ _ _ _ _ _ (sd_logs _ _ _ _ _ _ _ _ _ _ _ Hst) i Hi) as (last & El & Ho).
    exists last. split; [done|]. by eapply history_app.
Qed.
End End.

(** ** Properties *)

(** C5. A clean shutdown loses nothing, and the engine can be started again.  A running
    engine is shut down: its loops and writers have ended and [Engine.Shutdown] returns no
    error.  Then every command that was ever sequenced was answered with a result, and the
    log of its shard holds, after the old records, exactly these commands in their order,
    each with the result that was sent.  When the machine is up again, with or without a
    loss of power in between, [NewEngine] on the same configuration succeeds - unless the
    sequence numbers are used up - and the new engine starts from complete logs in the
    sense of [started], so everything proved of a run holds of the next one too. *)
Theorem clean_stop_restarts cfg latest wal0 mkdir e restored lasts0 dks old L F sy wal dks' :
  started cfg latest wal0 mkdir e restored lasts0 dks old L F -> system_steps cfg (start e dks) sy ->
  (forall p, p ∈ sy_parts sy -> Forall record_fits (w_made (sh_writer (pt_shard p)))) ->
  (forall p, p ∈ sy_parts sy -> ended p) ->
  Engine_Shutdown None (map (fun _ => ChooseSend) (sy_parts sy)) (engine_end e sy) = None ->
  leaves cfg sy wal -> (forall i, (i < Z.to_nat (cfg_ShardCount cfg))%nat -> mounted (Z.of_nat i) wal (dks' i)) ->
  exists rs L' F',
    (forall i p, sy_parts sy !! i = Some p ->
       map rec_Command (rs i) = inbox_commands i (sq_actions (sy_sequencer sy)) /\
       forall cmd c, RoutedCommand cmd c ∈ inbox_messages i (sq_actions (sy_sequencer sy)) ->
         exists rec, rec ∈ rs i /\ rec_Command rec = cmd /\ (c, outcome_ok (rec_Result rec)) ∈ lp_replies (sh_loop (pt_shard p))) /\
    (NewEngine cfg latest wal (fun _ => None) = Ret (inl ErrSequenceExhausted) \/
     exists e', started cfg latest wal (fun _ => None) e' restored lasts0 dks' (fun i => old i ++ rs i) L' F').
Proof.
  intros Hst Hsteps Hfits Hended Hshut Hleaves Hmount.
  destruct (run_inv _ _ _ _ _ _ _ _ _ _ _ Hst) as (out & lasts & init & Hog & Hrun). pose proof (Hrun sy Hsteps) as Hinv.
  destruct (end_logs _ _ _ _ _ _ _ _ _ _ _ Hst _ _ _ Hog sy wal Hinv Hfits Hleaves Hended Hshut) as (rs & last' & A' & Hall).
  exists rs, last', A'. split.
  - intros i p Hp. pose proof (shard_index cfg e dks out lasts init sy Hinv i p Hp) as Hi.
    destruct (Hall i Hi) as (p' & Hp' & [_ _ _ H1 H2]). assert (p' = p) as -> by congruence. done.
  - pose proof (end_logs_before _ _ _ _ _ _ _ _ _ _ _ Hst sy wal Hleaves Hended dks' Hmount rs last' A' Hall) as Hbefore.
    destruct (crash_recovers _ _ _ _ _ _ _ _ _ _ _ Hst _ _ _ Hog _ _ Hinv Hfits Hleaves) as (out' & lasts' & Hrec & _).
    destruct Hst as [Hc He Hs Ht Hd Hnew Hl Hlogs]. assert (small_count (cfg_ShardCount cfg)) as Hsc by (split; lia).
    destruct (NewEngine_again _ _ _ _ _ _ _ _ Hsc Hs Ht (proj1 Hleaves) Hnew Hrec) as [?|(e' & He' & Er)]; [by left|].
    right. exists e'. split; rewrite ?Er; try done. apply Hleaves.
Qed.

(** The engine with one shard again: after the answered order it is shut down. *)
Definition stop_s1 : Sequencer SymbolRegistry := (Shutdown ChooseSend 40 run_s2).2.
Definition stop_s2 : Sequencer SymbolRegistry :=
  match handle_request (requestShutdown 40) 0 (set_queue [] stop_s1) with Ret s => s | _ => stop_s1 end.
Definition stop_l : Loop := ran (loop_iteration OnClosed run_l5).
Definition stop_w1 : Writer := Shutdown_send 7 run_w4.1.
Definition stop_w2 : Writer * disk := after (run_iteration run_wcfg (OnRequest [] 0) stop_w1 run_w4.2 []).
Definition stop_end : system := mkSystem stop_s2 [run_part stop_l stop_w2.1 run_w4.2 1 1].

Lemma stop_steps : system_steps run_cfg (start run_engine (fun _ => no_disk)) stop_end.
Proof.
  eapply (sys_step _ _ (mkSystem stop_s2 [run_part stop_l stop_w1 run_w4.2 1 1])).
  2:{ apply one_step. eapply (ps_run _ _ _ _ _ _ _ _ _ [] []); [vm_compute; reflexivity|].
      replace (Done _ _ _) with (run_iteration run_wcfg (OnRequest [] 0) stop_w1 run_w4.2 []) by (vm_compute; reflexivity).
      apply rs_iteration; vm_compute; reflexivity. }
  eapply (sys_step _ _ (mkSystem stop_s2 [run_part stop_l run_w4.1 run_w4.2 1 1])).
  2:{ apply one_step. apply ps_client; [|vm_compute; reflexivity]. apply cs_shutdown; vm_compute; reflexivity. }
  eapply (sys_step _ _ (mkSystem stop_s2 [run_part run_l5 run_w4.1 run_w4.2 1 1])).
  2:{ apply one_step. apply (ps_event _ _ _ OnClosed); [|vm_compute; reflexivity|vm_compute; reflexivity|by apply ap_none|done].
      apply cf_closed; [|vm_compute; reflexivity]. vm_compute. right. by left. }
  eapply (sys_step _ _ (mkSystem stop_s1 [run_part run_l5 run_w4.1 run_w4.2 1 1])).
  2:{ apply sy_sequence; [|vm_compute; constructor]. eapply (ss_run _ (requestShutdown 40) [] 0); vm_compute; reflexivity. }
  eapply (sys_step _ _ run_end); [exact run_steps|]. apply sy_sequence; [by apply (ss_shutdown _ ChooseSend); vm_compute|].
  assert (sq_ingressQ stop_s1 = [requestShutdown 40]) as -> by (vm_compute; reflexivity). by apply Forall_singleton.
Qed.

Lemma stop_mounted : mounted 0 (view run_w4.2) run_w4.2.
Proof.
  assert (dk_names run_w4.2 = {[ segment_name 0 0 := 0%nat ]}) as En by (vm_compute; reflexivity).
  assert (dk_durable run_w4.2 = {[ segment_name 0 0 := 0%nat ]}) as Ed by (vm_compute; reflexivity). split.
  - intros n _. unfold view, stored. rewrite lookup_fmap, En, Ed. destruct (decide (n = segment_name 0 0)) as [->|Hne].
    + rewrite lookup_singleton_eq. vm_compute. eexists. split; [reflexivity|]. split; reflexivity.
    + assert (({[ segment_name 0 0 := 0%nat ]} : gmap string nat) !! n = None) as E by (apply lookup_singleton_ne; congruence).
      rewrite E. split; reflexivity.
  - intros n n' i. rewrite En. by intros [<- _]%lookup_singleton_Some [<- _]%lookup_singleton_Some.
Qed.

Lemma clean_stop_restarts_witness :
  exists (rs : nat -> list Record_) L' F',
    map rec_Command (rs 0%nat) = [with_Seq 1 c1] /\
    (NewEngine run_cfg (inl ErrNotExist) (view run_w4.2) (fun _ => None) = Ret (inl ErrSequenceExhausted) \/
     exists e', started run_cfg (inl ErrNotExist) (view run_w4.2) (fun _ => None) e' ∅ [0] (fun _ => run_w4.2) (fun i => [] ++ rs i) L' F').
Proof.
  destruct (clean_stop_restarts run_cfg (inl ErrNotExist) ∅ (fun _ => None) run_engine ∅ [0] (fun _ => no_disk) (fun _ => [])
    (fun _ => 0) (fun _ => initial ∅ ["AAPL"]%string) stop_end (view run_w4.2) (fun _ => run_w4.2))
    as (rs & L' & F' & H1 & H2).
  - exact run_started.
  - exact stop_steps.
  - intros p. apply run_fits. vm_compute. reflexivity.
  - intros p ->%list_elem_of_singleton. split; vm_compute; reflexivity.
  - vm_compute. reflexivity.
  - apply run_leaves.
  - intros i Hi. change (i < 1)%nat in Hi. assert (i = 0)%nat as -> by lia. exact stop_mounted.
  - exists rs, L', F'. split; [|exact H2]. destruct (H1 0%nat _ eq_refl) as [E _]. rewrite E. vm_compute. reflexivity.
Defined.
