(* ===== verification/Loadgen.v ===== *)
(** * Loadgen: the load generator (cmd/loadgen)

    Its command generator and its report (Producers has the goroutines that use them).
    The random number generator of the standard library is a parameter. *)

From Stdlib Require Import SpecFloat.
From S2P Require Import Prelude Model Fs Metrics.

(** [rng.Intn(n)]: a number below [n]; it panics when [n] is not positive. *)
Class Rand (G : Type) := rand_Intn : Z -> G -> Z * G.
Class RandLaws (G : Type) `{Rand G} : Prop :=
  rand_range : forall n g, 0 < n -> 0 <= (rand_Intn n g).1 < n.

Record orderRef := mkOrderRef { or_symbol : string; or_orderID : Z }.

(** The counter shared by the producers and the orders of one producer. *)
Record genState (G : Type) := mkGenState { gs_rng : G; gs_nextOrderID : Z; gs_active : list orderRef }.
Arguments mkGenState {G}.
Arguments gs_rng {G}.
Arguments gs_nextOrderID {G}.
Arguments gs_active {G}.

Section Generator.
Context {G : Type} `{Rand G}.

Definition Intn (n : Z) (s : genState G) : outcome (Z * genState G) :=
  if n <=? 0 then Panic
  else let '(v, g) := rand_Intn n (gs_rng s) in
       Ret (v, mkGenState g (gs_nextOrderID s) (gs_active s)).
(** [nextOrderID.Add(1)]. *)
Definition newOrderID (s : genState G) : Z * genState G :=
  let id := u64_add (gs_nextOrderID s) 1 in (id, mkGenState (gs_rng s) id (gs_active s)).
Definition set_active (l : list orderRef) (s : genState G) : genState G :=
  mkGenState (gs_rng s) (gs_nextOrderID s) l.

Definition pickSymbol (symbols : list string) (s : genState G) : outcome (string * genState G) :=
  let? p := Intn (Z.of_nat (length symbols)) s in
  match symbols !! Z.to_nat p.1 with
  | Some symbol => Ret (symbol, p.2)
  | None => Panic
  end.
Definition pickSide (s : genState G) : outcome (Z * genState G) :=
  let? p := Intn 2 s in Ret (if p.1 =? 0 then SideSell else SideBuy, p.2).

(** The three kinds of commands. *)
Definition limitOrder (symbols : list string) (price qty : Z) (s : genState G) : outcome (Command * genState G) :=
  let? p := pickSymbol symbols s in
  let '(symbol, s) := p in
  let? p := pickSide s in
  let '(side, s) := p in
  let '(orderID, s) := newOrderID s in
  Ret (mkCommand 0 symbol CommandNew orderID side OrderTypeLimit TIFGTC price qty 0 0,
       set_active (gs_active s ++ [mkOrderRef symbol orderID]) s).
Definition marketOrder (symbols : list string) (qty : Z) (s : genState G) : outcome (Command * genState G) :=
  let? p := pickSide s in
  let '(side, s) := p in
  let? p := pickSymbol symbols s in
  let '(symbol, s) := p in
  let '(orderID, s) := newOrderID s in
  Ret (mkCommand 0 symbol CommandNew orderID side OrderTypeMarket TIFIOC 0 qty 0 0, s).
(** Take an active order out: the last one moves to its place. *)
Definition dropActive (idx : nat) (l : list orderRef) : list orderRef :=
  match last l with
  | Some r => take (length l - 1) (<[idx := r]> l)
  | None => l
  end.
Definition cancelOrReplace (roll price qty : Z) (s : genState G) : outcome (Command * genState G) :=
  let? p := Intn (Z.of_nat (length (gs_active s))) s in
  let '(idx, s) := p in
  match gs_active s !! Z.to_nat idx with
  | None => Panic
  | Some active =>
      if roll <? 90
      then Ret (mkCommand 0 (or_symbol active) CommandCancel (or_orderID active) 0 0 0 0 0 0 0,
                set_active (dropActive (Z.to_nat idx) (gs_active s)) s)
      else Ret (mkCommand 0 (or_symbol active) CommandReplace (or_orderID active) 0 0 0 0 0 price qty, s)
  end.

Definition nextCommand (symbols : list string) (s : genState G) : outcome (Command * genState G) :=
  let? p := Intn 100 s in
  let '(roll, s) := p in
  let? p := Intn 20 s in
  let price := 100 + p.1 in
  let? p := Intn 5 p.2 in
  let '(q, s) := p in
  let qty := 1 + q in
  if (roll <? 65) || (length (gs_active s) =? 0)%nat then limitOrder symbols price qty s
  else if roll <? 80 then marketOrder symbols qty s
  else cancelOrReplace roll price qty s.
End Generator.

(** ** Accounting and reporting *)

Definition resultRejected (result : Result) : bool :=
  existsb (fun event => ev_Type event =? EventRejected) (res_Events result).

(** The counters shared by the producers. *)
Record tally := mkTally { tl_attempted : Z; tl_processed : Z; tl_accepted : Z; tl_rejected : Z; tl_failed : Z }.

Definition maxInt (a b : Z) : Z := if a >? b then a else b.
Definition perProducerRate (rate producers : Z) : Z :=
  let r := Z.quot rate (maxInt producers 1) in if r <=? 0 then 1 else r.

Definition percentileMillis (sorted : list Z) (q : spec_float) : outcome spec_float :=
  match sorted with
  | [] => Ret (f64_of_int 0)
  | _ =>
      match sorted !! Z.to_nat (percentile_index (Z.of_nat (length sorted)) q) with
      | Some v => Ret (f64_div (f64_of_int v) (f64_of_int 1000))
      | None => Panic
      end
  end.

Definition durationToSeconds (d : Z) : spec_float := f64_div (f64_of_int d) (f64_of_int 1000000000).

(** What the end of [main] prints; [stats] are the collector's, zero without one. *)
Record report := mkReport {
  rp_counts : tally;
  rp_throughput : spec_float;
  rp_samples : nat;
  rp_percentiles : list spec_float;      (* 50, 95, 99 and 99.9 percent *)
  rp_wal_avg_batch : spec_float;
  rp_wal_avg_bytes : spec_float
}.

Fixpoint percentilesMillis (sorted : list Z) (qs : list spec_float) : outcome (list spec_float) :=
  match qs with
  | [] => Ret []
  | q :: qs' =>
      let? p := percentileMillis sorted q in
      let? ps := percentilesMillis sorted qs' in
      Ret (p :: ps)
  end.

(** [batches] are the latencies of the producers, [elapsed] is the time of the run. *)
Definition loadgen_report (t : tally) (batches : list (list Z)) (elapsed : Z) (stats : Stats) : outcome report :=
  let latencies := sorted_values (concat batches) in
  let average sum := if ms_WALBatches stats >? 0
                     then f64_div (f64_of_int sum) (f64_of_int (ms_WALBatches stats)) else f64_of_int 0 in
  let? ps := percentilesMillis latencies
               [f64_percent 50; f64_percent 95; f64_percent 99; f64_div (f64_of_int 999) (f64_of_int 1000)] in
  Ret (mkReport t (f64_div (f64_of_int (tl_processed t)) (durationToSeconds elapsed)) (length latencies) ps
         (average (ms_WALBatchCommandsSum stats)) (average (ms_WALBatchBytesSum stats))).

(** [read] is [os.ReadDir]: the names in a directory. *)
Fixpoint verifyEmptyState (read : string -> error + list string) (dirs : list string) : option error :=
  match dirs with
  | [] => None
  | dir :: dirs' =>
      match read dir with
      | inl err => if bool_decide (err = ErrNotExist) then verifyEmptyState read dirs' else Some err
      | inr entries =>
          if negb (length entries =? 0)%nat then Some (Errorf "%s is not empty" [AStr dir])
          else verifyEmptyState read dirs'
      end
  end.

(** ** The report *)

Lemma percentile_index_range n q : 1 <= n -> 0 <= percentile_index n q < n.
Proof.
  intros Hn. unfold percentile_index. set (i := int_of_f64 _). destruct (Z.ltb_spec i 0).
  - destruct (Z.geb_spec 0 n); lia.
  - destruct (Z.geb_spec i n); lia.
Qed.

Lemma percentilesMillis_returns sorted qs : exists ps, percentilesMillis sorted qs = Ret ps /\ length ps = length qs.
Proof.
  induction qs as [|q qs (ps & IH & Hl)]; [by exists []|]. cbn [percentilesMillis].
  assert (exists p, percentileMillis sorted q = Ret p) as [p ->].
  { unfold percentileMillis. destruct sorted as [|v vs]; [by eexists|].
    destruct (percentile_index_range (Z.of_nat (length (v :: vs))) q) as [H1 H2]; [cbn; lia|].
    destruct (lookup_lt_is_Some_2 (v :: vs) (Z.to_nat (percentile_index (Z.of_nat (length (v :: vs))) q))) as [x ->]; [lia|].
    by eexists. }
  rewrite IH. cbn [obind]. exists (p :: ps). split; [done|]. cbn. by rewrite Hl.
Qed.

(** The report is printed whatever was measured, with all samples. *)
Lemma loadgen_report_returns t batches elapsed stats :
  exists r, loadgen_report t batches elapsed stats = Ret r /\ rp_counts r = t /\ rp_samples r = length (concat batches).
Proof.
  unfold loadgen_report.
  destruct (percentilesMillis_returns (sorted_values (concat batches))
    [f64_percent 50; f64_percent 95; f64_percent 99; f64_div (f64_of_int 999) (f64_of_int 1000)]) as (ps & -> & _).
  cbn [obind]. eexists. split; [reflexivity|]. split; [done|]. cbn [rp_samples]. unfold sorted_values.
  by rewrite (Permutation_length (merge_sort_Permutation _ _)).
Qed.

(** ** What is generated *)

Section Facts.
Context {G : Type} `{RandLaws G} (symbols : list string).

(** Active orders are orders that were generated. *)
Record gen_ok (s : genState G) : Prop := {
  go_id : 0 <= gs_nextOrderID s < 18446744073709551615;
  go_active : Forall (fun r => or_symbol r ∈ symbols /\ 0 < or_orderID r <= gs_nextOrderID s) (gs_active s)
}.

Definition same_orders (s s' : genState G) : Prop :=
  gs_nextOrderID s' = gs_nextOrderID s /\ gs_active s' = gs_active s.

Lemma Intn_ok n s : 0 < n -> exists v s', Intn n s = Ret (v, s') /\ 0 <= v < n /\ same_orders s s'.
Proof.
  intros Hn. unfold Intn. destruct (Z.leb_spec n 0); [lia|]. pose proof (rand_range n (gs_rng s) Hn) as Hr.
  destruct (rand_Intn n (gs_rng s)) as [v g]. by eexists v, _.
Qed.

Lemma pickSymbol_ok s : symbols <> [] ->
  exists symbol s', pickSymbol symbols s = Ret (symbol, s') /\ symbol ∈ symbols /\ same_orders s s'.
Proof.
  intros Hne. unfold pickSymbol. destruct (Intn_ok (Z.of_nat (length symbols)) s) as (v & s' & -> & Hv & Hs);
    [destruct symbols; [done|cbn; lia]|]. cbn [obind fst snd].
  destruct (lookup_lt_is_Some_2 symbols (Z.to_nat v)) as [x Hx]; [lia|]. rewrite Hx. exists x, s'.
  split; [done|]. split; [by eapply list_elem_of_lookup_2|exact Hs].
Qed.

Lemma pickSide_ok s : exists side s', pickSide s = Ret (side, s') /\ (side = SideBuy \/ side = SideSell) /\ same_orders s s'.
Proof.
  unfold pickSide. destruct (Intn_ok 2 s) as (v & s' & -> & _ & Hs); [lia|]. cbn [obind fst snd].
  eexists _, s'. split; [reflexivity|]. split; [destruct (v =? 0); auto|done].
Qed.

(** A generated command: valid, typed, for a configured symbol; it opens an order with
    the next ID, or refers to an active order. *)
Record generated (s : genState G) (cmd : Command) (s' : genState G) : Prop := {
  gn_valid : Command_Validate cmd = None;
  gn_typed : command_typed cmd;
  gn_symbol : cmd_Symbol cmd ∈ symbols;
  gn_order : (cmd_Type cmd = CommandNew /\ cmd_OrderID cmd = gs_nextOrderID s + 1 /\ gs_nextOrderID s' = gs_nextOrderID s + 1) \/
             (cmd_Type cmd <> CommandNew /\ gs_nextOrderID s' = gs_nextOrderID s /\
                mkOrderRef (cmd_Symbol cmd) (cmd_OrderID cmd) ∈ gs_active s);
  gn_active : Forall (fun r => or_symbol r ∈ symbols /\ 0 < or_orderID r <= gs_nextOrderID s') (gs_active s');
  gn_from : forall r, r ∈ gs_active s' -> r ∈ gs_active s \/
              (cmd_Type cmd = CommandNew /\ r = mkOrderRef (cmd_Symbol cmd) (cmd_OrderID cmd))
}.

Ltac small :=
  split; cbn; unfold is_u64, is_u8, is_i64, CommandNew, CommandCancel, CommandReplace, SideBuy, SideSell,
    OrderTypeLimit, OrderTypeMarket, TIFGTC, TIFIOC in *; lia.

Lemma valid_new symbol id side ot tif price qty :
  0 < id < 18446744073709551616 -> side = SideBuy \/ side = SideSell -> 0 <= price < 1000 -> 0 < qty < 1000 ->
  (ot = OrderTypeLimit /\ tif = TIFGTC /\ 0 < price) \/ (ot = OrderTypeMarket /\ tif = TIFIOC) -> symbol <> ""%string ->
  let cmd := mkCommand 0 symbol CommandNew id side ot tif price qty 0 0 in
  Command_Validate cmd = None /\ command_typed cmd.
Proof.
  intros Hid Hside Hp Hq Ho Hsym cmd. split.
  - unfold Command_Validate, cmd. cbn. rewrite (proj2 (String.eqb_neq symbol "") Hsym). destruct Hside as [->| ->], Ho as [(-> & -> & Hpos)|(-> & ->)]; cbn;
      repeat case_match; try done; lia.
  - destruct Hside as [->| ->], Ho as [(-> & -> & Hpos)|(-> & ->)]; small.
Qed.

Lemma valid_cancel symbol id : 0 < id < 18446744073709551616 -> symbol <> ""%string ->
  let cmd := mkCommand 0 symbol CommandCancel id 0 0 0 0 0 0 0 in Command_Validate cmd = None /\ command_typed cmd.
Proof.
  intros Hid Hsym cmd. split; [|small]. unfold Command_Validate, cmd. cbn.
  rewrite (proj2 (String.eqb_neq symbol "") Hsym). repeat case_match; try done; lia.
Qed.

Lemma valid_replace symbol id price qty : 0 < id < 18446744073709551616 -> symbol <> ""%string -> 0 <= price < 1000 -> 0 < qty < 1000 ->
  let cmd := mkCommand 0 symbol CommandReplace id 0 0 0 0 0 price qty in Command_Validate cmd = None /\ command_typed cmd.
Proof.
  intros Hid Hsym Hp Hq cmd. split; [|small]. unfold Command_Validate, cmd. cbn.
  rewrite (proj2 (String.eqb_neq symbol "") Hsym). repeat case_match; try done; lia.
Qed.

Context (Hne : symbols <> []) (Hnames : ""%string ∉ symbols).

Lemma named symbol : symbol ∈ symbols -> symbol <> ""%string.
Proof. by intros Hin ->. Qed.

Lemma active_more n n' (l : list orderRef) : n <= n' ->
  Forall (fun r => or_symbol r ∈ symbols /\ 0 < or_orderID r <= n) l ->
  Forall (fun r => or_symbol r ∈ symbols /\ 0 < or_orderID r <= n') l.
Proof. intros Hle Hl. eapply Forall_impl; [exact Hl|]. intros r [? ?]. split; [done|lia]. Qed.

Lemma limitOrder_ok price qty s : gen_ok s -> 0 < price < 1000 -> 0 < qty < 1000 ->
  exists cmd s', limitOrder symbols price qty s = Ret (cmd, s') /\ generated s cmd s'.
Proof.
  intros [Hid Hact] Hp Hq. unfold limitOrder. destruct (pickSymbol_ok s Hne) as (symbol & s1 & -> & Hin & E1 & E2). cbn [obind].
  destruct (pickSide_ok s1) as (side & s2 & -> & Hside & E3 & E4). cbn [obind newOrderID]. rewrite E3, E1.
  assert (u64_add (gs_nextOrderID s) 1 = gs_nextOrderID s + 1) as Eid by int_lia. rewrite Eid.
  eexists _, _. split; [reflexivity|]. destruct (valid_new symbol (gs_nextOrderID s + 1) side OrderTypeLimit TIFGTC price qty) as [Hv Ht];
    [lia|done|lia|lia|left; lia|by apply named|].
  split; [done|done|done|by left|..]; cbn; rewrite E4, E2.
  - apply Forall_app. split; [eapply active_more; [|exact Hact]; lia|]. apply Forall_singleton. cbn. split; [done|lia].
  - intros r [Hr|Hr%list_elem_of_singleton]%elem_of_app; [by left|by right].
Qed.

Lemma marketOrder_ok qty s : gen_ok s -> 0 < qty < 1000 ->
  exists cmd s', marketOrder symbols qty s = Ret (cmd, s') /\ generated s cmd s'.
Proof.
  intros [Hid Hact] Hq. unfold marketOrder. destruct (pickSide_ok s) as (side & s1 & -> & Hside & E1 & E2). cbn [obind].
  destruct (pickSymbol_ok s1 Hne) as (symbol & s2 & -> & Hin & E3 & E4). cbn [obind newOrderID]. rewrite E3, E1.
  assert (u64_add (gs_nextOrderID s) 1 = gs_nextOrderID s + 1) as Eid by int_lia. rewrite Eid.
  eexists _, _. split; [reflexivity|]. destruct (valid_new symbol (gs_nextOrderID s + 1) side OrderTypeMarket TIFIOC 0 qty) as [Hv Ht];
    [lia|done|lia|lia|by right|by apply named|].
  split; [done|done|done|by left|..]; cbn; rewrite E4, E2; [|by left]. eapply active_more; [|exact Hact]. lia.
Qed.

Lemma dropActive_sub idx (Q : orderRef -> Prop) l : Forall Q l -> Forall Q (dropActive idx l).
Proof.
  intros Hl. unfold dropActive. destruct (last l) as [r|] eqn:E; [|done]. apply Forall_take, Forall_insert; [done|].
  rewrite Forall_forall in Hl. apply Hl. by apply last_Some_elem_of.
Qed.

Lemma cancelOrReplace_ok roll price qty s : gen_ok s -> gs_active s <> [] -> 0 <= price < 1000 -> 0 < qty < 1000 ->
  exists cmd s', cancelOrReplace roll price qty s = Ret (cmd, s') /\ generated s cmd s'.
Proof.
  intros [Hid Hact] Hsome Hp Hq. unfold cancelOrReplace.
  destruct (Intn_ok (Z.of_nat (length (gs_active s))) s) as (v & s1 & -> & Hv & E1 & E2);
    [destruct (gs_active s); [done|cbn; lia]|]. cbn [obind]. rewrite E2.
  destruct (lookup_lt_is_Some_2 (gs_active s) (Z.to_nat v)) as [r Hr]; [lia|]. rewrite Hr.
  assert (or_symbol r ∈ symbols /\ 0 < or_orderID r <= gs_nextOrderID s) as [Hsym Hrid] by (rewrite Forall_lookup in Hact; by apply (Hact _ _ Hr)).
  assert (mkOrderRef (or_symbol r) (or_orderID r) ∈ gs_active s) as Hin by (destruct r; by eapply list_elem_of_lookup_2).
  destruct (roll <? 90); (eexists _, _; split; [reflexivity|]).
  - destruct (valid_cancel (or_symbol r) (or_orderID r)) as [Hval Ht]; [lia|by apply named|].
    split; [done|done|done|by right|..]; cbn; rewrite ?E1, ?E2; [by apply dropActive_sub|].
    intros r' Hr'. left. pose proof (dropActive_sub (Z.to_nat v) (fun x => x ∈ gs_active s) (gs_active s)) as Hsub.
    rewrite !Forall_forall in Hsub. by apply Hsub.
  - destruct (valid_replace (or_symbol r) (or_orderID r) price qty) as [Hval Ht]; [lia|by apply named|done|done|].
    split; [done|done|done|by right|..]; rewrite E2; [by rewrite E1|by left].
Qed.

Lemma same_gen_ok s s' : same_orders s s' -> gen_ok s -> gen_ok s'.
Proof. intros [E1 E2] [H1 H2]. split; by rewrite ?E1, ?E2. Qed.

Lemma nextCommand_ok s : gen_ok s -> exists cmd s', nextCommand symbols s = Ret (cmd, s') /\ generated s cmd s'.
Proof.
  intros Hs. unfold nextCommand. destruct (Intn_ok 100 s) as (roll & s1 & -> & Hroll & S1); [lia|]. cbn [obind].
  destruct (Intn_ok 20 s1) as (p & s2 & -> & Hp & S2); [lia|]. cbn [obind fst snd].
  destruct (Intn_ok 5 s2) as (q & s3 & -> & Hq & S3); [lia|]. cbn [obind].
  assert (same_orders s s3) as S by (destruct S1, S2, S3; split; congruence). pose proof (same_gen_ok _ _ S Hs) as Hs3.
  assert (forall cmd s', generated s3 cmd s' -> generated s cmd s') as Hback.
  { intros cmd s' [H1 H2 H3 H4 H5 H6]. destruct S as [E1 E2]. rewrite E1, E2 in H4. rewrite E2 in H6. by split. }
  destruct ((roll <? 65) || (length (gs_active s3) =? 0)%nat) eqn:Eb;
    [|destruct (roll <? 80)].
  - destruct (limitOrder_ok (100 + p) (1 + q) s3 Hs3) as (cmd & s' & -> & Hg); [lia|lia|]. exists cmd, s'. auto.
  - destruct (marketOrder_ok (1 + q) s3 Hs3) as (cmd & s' & -> & Hg); [lia|]. exists cmd, s'. auto.
  - apply orb_false_iff in Eb as [_ Eb]. apply Nat.eqb_neq in Eb.
    destruct (cancelOrReplace_ok roll (100 + p) (1 + q) s3 Hs3) as (cmd & s' & -> & Hg);
      [by destruct (gs_active s3)|lia|lia|]. exists cmd, s'. auto.
Qed.

End Facts.
