(* ===== verification/Producers.v ===== *)
(** * Producers: the goroutines of the load generator (cmd/loadgen)

    Several producers share the counters and the next order ID; each has its own random
    numbers, active orders and latencies.  At a tick a producer generates a command and
    submits it; when [Submit] returns it counts the result; when the run is over it hands
    its latencies over and ends. *)

From S2P Require Import Prelude Model Fs Metrics Loadgen.

Inductive producer_phase := Waiting | Submitting (cmd : Command) | Returned.

Record producer (G : Type) := mkProducer {
  pd_rng : G;
  pd_active : list orderRef;
  pd_latencies : list Z;
  pd_phase : producer_phase
}.
Arguments mkProducer {G}.
Arguments pd_rng {G}.
Arguments pd_active {G}.
Arguments pd_latencies {G}.
Arguments pd_phase {G}.

(** The shared state, which the producers change by atomic additions only; [ld_issued] are
    the commands generated so far, with their producer. *)
Record load (G : Type) := mkLoad {
  ld_nextOrderID : Z;
  ld_counts : tally;
  ld_producers : list (producer G);
  ld_batches : list (list Z);
  ld_issued : list (nat * Command)
}.
Arguments mkLoad {G}.
Arguments ld_nextOrderID {G}.
Arguments ld_counts {G}.
Arguments ld_producers {G}.
Arguments ld_batches {G}.
Arguments ld_issued {G}.

Section Load.
Context {G : Type} `{Rand G}.

(** Producer [i] has its own source of random numbers and makes a ticker. *)
Definition start_producer (newRand : Z -> G) (seed interval : Z) (i : nat) : outcome (producer G) :=
  let rng := newRand (i64_add seed (wrap_i64 (Z.of_nat i * 7919))) in
  let? _ := NewTicker interval in
  Ret (mkProducer rng [] [] Waiting).
Fixpoint start_producers (newRand : Z -> G) (seed interval : Z) (ids : list nat) : outcome (list (producer G)) :=
  match ids with
  | [] => Ret []
  | i :: ids' =>
      let? p := start_producer newRand seed interval i in
      let? ps := start_producers newRand seed interval ids' in
      Ret (p :: ps)
  end.

(** The start.  No producer does anything before its ticker is made, and a panic of one
    ends the program, so their order does not matter. *)
Definition load_start (newRand : Z -> G) (seed rate : Z) (producers : nat) : outcome (load G) :=
  let interval := Z.quot 1000000000 (perProducerRate rate (Z.of_nat producers)) in
  let? ps := start_producers newRand seed interval (seq 0 producers) in
  Ret (mkLoad 0 (mkTally 0 0 0 0 0) ps [] []).

Definition attempt (t : tally) : tally :=
  mkTally (u64_add (tl_attempted t) 1) (tl_processed t) (tl_accepted t) (tl_rejected t) (tl_failed t).
(** What [Submit] returned, counted. *)
Definition count_result (submitted : Result * option error) (t : tally) : tally :=
  match submitted with
  | (_, Some _) => mkTally (tl_attempted t) (tl_processed t) (tl_accepted t) (tl_rejected t) (u64_add (tl_failed t) 1)
  | (result, None) =>
      if resultRejected result
      then mkTally (tl_attempted t) (u64_add (tl_processed t) 1) (tl_accepted t) (u64_add (tl_rejected t) 1) (tl_failed t)
      else mkTally (tl_attempted t) (u64_add (tl_processed t) 1) (u64_add (tl_accepted t) 1) (tl_rejected t) (tl_failed t)
  end.

(** A tick of producer [i]: the command goes to [Submit]. *)
Definition on_tick (symbols : list string) (i : nat) (p : producer G) (l : load G) : outcome (load G) :=
  let? r := nextCommand symbols (mkGenState (pd_rng p) (ld_nextOrderID l) (pd_active p)) in
  let '(cmd, s) := r in
  Ret (mkLoad (gs_nextOrderID s) (attempt (ld_counts l))
         (<[i := mkProducer (gs_rng s) (gs_active s) (pd_latencies p) (Submitting cmd)]> (ld_producers l))
         (ld_batches l) (ld_issued l ++ [(i, cmd)])).

(** [Submit] returns after [micros]. *)
Definition on_result (i : nat) (p : producer G) (submitted : Result * option error) (micros : Z) (l : load G) : load G :=
  let latencies := match submitted.2 with Some _ => pd_latencies p | None => pd_latencies p ++ [micros] end in
  mkLoad (ld_nextOrderID l) (count_result submitted (ld_counts l))
    (<[i := mkProducer (pd_rng p) (pd_active p) latencies Waiting]> (ld_producers l)) (ld_batches l) (ld_issued l).

(** The run is over. *)
Definition on_over (i : nat) (p : producer G) (l : load G) : load G :=
  mkLoad (ld_nextOrderID l) (ld_counts l)
    (<[i := mkProducer (pd_rng p) (pd_active p) (pd_latencies p) Returned]> (ld_producers l))
    (ld_batches l ++ [pd_latencies p]) (ld_issued l).

Inductive load_step (symbols : list string) : load G -> load G -> Prop :=
| ls_tick i p l l' :
    ld_producers l !! i = Some p -> pd_phase p = Waiting -> on_tick symbols i p l = Ret l' -> load_step symbols l l'
| ls_result i p cmd submitted micros l :
    ld_producers l !! i = Some p -> pd_phase p = Submitting cmd -> load_step symbols l (on_result i p submitted micros l)
| ls_over i p l :
    ld_producers l !! i = Some p -> pd_phase p = Waiting -> load_step symbols l (on_over i p l).

Inductive load_steps (symbols : list string) : load G -> load G -> Prop :=
| lds_refl l : load_steps symbols l l
| lds_step l l' l'' : load_steps symbols l l' -> load_step symbols l' l'' -> load_steps symbols l l''.
End Load.

(** ** The invariant *)

Definition ref_of (c : Command) : orderRef := mkOrderRef (cmd_Symbol c) (cmd_OrderID c).
Definition is_new (c : Command) : bool := cmd_Type c =? CommandNew.

(** The commands of producer [i], the orders commands open, and the IDs of those. *)
Definition issued_by (i : nat) (issued : list (nat * Command)) : list Command :=
  omap (fun p => if decide (p.1 = i) then Some p.2 else None) issued.
Definition opens (cmds : list Command) : list orderRef := omap (fun c => if is_new c then Some (ref_of c) else None) cmds.
Definition new_ids (cmds : list Command) : list Z := omap (fun c => if is_new c then Some (cmd_OrderID c) else None) cmds.

(** Each cancel or replace is for an order that was opened before. *)
Definition refers_back (cmds : list Command) : Prop :=
  forall pre c post, cmds = pre ++ c :: post -> is_new c = true \/ ref_of c ∈ opens pre.

Lemma refers_back_snoc cmds c : refers_back cmds -> is_new c = true \/ ref_of c ∈ opens cmds -> refers_back (cmds ++ [c]).
Proof.
  intros Hb Hc pre x post E. destruct post as [|y post] using rev_ind.
  - apply app_inj_tail in E as [-> ->]. done.
  - rewrite app_comm_cons, app_assoc in E. apply app_inj_tail in E as [-> _]. by eapply Hb.
Qed.

Lemma sum_update {A} (f : A -> nat) (l : list A) i x y :
  l !! i = Some x -> (sum_list_with f (<[i := y]> l) + f x = sum_list_with f l + f y)%nat.
Proof.
  revert i. induction l as [|a l IH]; intros [|i]; cbn; try done.
  - intros [= ->]. lia.
  - intros Hi. rewrite <-!Nat.add_assoc. f_equal. exact (IH i Hi).
Qed.

Lemma issued_snoc i issued j cmd :
  issued_by i (issued ++ [(j, cmd)]) = issued_by i issued ++ (if decide (j = i) then [cmd] else []).
Proof. unfold issued_by. rewrite omap_app. cbn. by destruct (decide (j = i)). Qed.

Lemma opens_snoc cmds c : opens (cmds ++ [c]) = opens cmds ++ (if is_new c then [ref_of c] else []).
Proof. unfold opens. rewrite omap_app. cbn. by destruct (is_new c). Qed.

Lemma new_ids_snoc cmds c : new_ids (cmds ++ [c]) = new_ids cmds ++ (if is_new c then [cmd_OrderID c] else []).
Proof. unfold new_ids. rewrite omap_app. cbn. by destruct (is_new c). Qed.

Lemma new_ids_length cmds : (length (new_ids cmds) <= length cmds)%nat.
Proof. unfold new_ids. induction cmds as [|c cmds IH]; cbn; [lia|]. destruct (is_new c); cbn; lia. Qed.

Section Facts.
Context {G : Type} `{RandLaws G} (symbols : list string) (Hne : symbols <> []) (Hnames : ""%string ∉ symbols).

(** The latencies of a producer until it hands them over. *)
Definition held_latencies (p : producer G) : nat := match pd_phase p with Returned => 0 | _ => length (pd_latencies p) end.
Definition in_flight (p : producer G) : nat := match pd_phase p with Submitting _ => 1 | _ => 0 end.

(** What is issued, and what each producer knows of it. *)
Record issues_ok (issued : list (nat * Command)) (next : Z) (producers : list (producer G)) : Prop := {
  io_next : next = Z.of_nat (length (new_ids (map snd issued)));
  io_ids : new_ids (map snd issued) = map (fun k => 1 + Z.of_nat k) (seq 0 (length (new_ids (map snd issued))));
  io_valid : Forall (fun c => Command_Validate c = None /\ command_typed c /\ cmd_Symbol c ∈ symbols) (map snd issued);
  io_back : forall i, refers_back (issued_by i issued);
  io_active : forall i p, producers !! i = Some p ->
    Forall (fun r => or_symbol r ∈ symbols /\ 0 < or_orderID r <= next) (pd_active p) /\
    forall r, r ∈ pd_active p -> r ∈ opens (issued_by i issued)
}.

(** The counters: what is in flight is not counted yet, and every command that was
    processed has a latency. *)
Record counts_ok (t : tally) (issued : nat) (producers : list (producer G)) (batches : list (list Z)) : Prop := {
  ct_attempted : tl_attempted t = Z.of_nat issued;
  ct_processed : tl_attempted t = tl_processed t + tl_failed t + Z.of_nat (sum_list_with in_flight producers);
  ct_split : tl_processed t = tl_accepted t + tl_rejected t;
  ct_samples : tl_processed t = Z.of_nat (length (concat batches) + sum_list_with held_latencies producers);
  ct_positive : 0 <= tl_accepted t /\ 0 <= tl_rejected t /\ 0 <= tl_failed t
}.

Definition load_inv (l : load G) : Prop :=
  issues_ok (ld_issued l) (ld_nextOrderID l) (ld_producers l) /\
  counts_ok (ld_counts l) (length (ld_issued l)) (ld_producers l) (ld_batches l).

(** A producer that has done nothing yet. *)
Definition fresh (p : producer G) : Prop := pd_active p = [] /\ pd_latencies p = [] /\ pd_phase p = Waiting.

Lemma load_inv_start ps :
  Forall fresh ps ->
  load_inv (mkLoad 0 (mkTally 0 0 0 0 0) ps [] []).
Proof.
  intros Hps. assert (sum_list_with in_flight ps = 0 /\ sum_list_with held_latencies ps = 0)%nat as [E1 E2].
  { induction Hps as [|p ps (_ & El & Ep) _ [IH1 IH2]]; [done|]. cbn. unfold in_flight at 1, held_latencies at 1. by rewrite Ep, El, IH1, IH2. }
  split; split; cbn; rewrite ?E1, ?E2; try done.
  - intros i pre c post E. cbn in E. symmetry in E. by apply app_nil in E as [_ ?].
  - intros i p Hp. rewrite Forall_lookup in Hps. destruct (Hps i p Hp) as (-> & _).
    split; [constructor|]. by intros r ?%elem_of_nil.
Qed.

(** With a positive interval the producers start, without one the first ticker panics. *)
Lemma start_producers_ok newRand seed interval ids :
  0 < interval -> exists ps, start_producers newRand seed interval ids = Ret ps /\ length ps = length ids /\
    Forall fresh ps.
Proof.
  intros Hi. induction ids as [|i ids (ps & IH1 & IH2 & IH3)]; [by exists []|].
  cbn [start_producers]. unfold start_producer, NewTicker. rewrite (proj2 (Z.leb_gt _ _) Hi). cbn [obind]. rewrite IH1. cbn [obind].
  eexists. split; [reflexivity|]. cbn. split; [by rewrite IH2|]. by constructor.
Qed.

Lemma load_start_cases newRand seed rate n :
  (0 < n)%nat ->
  (perProducerRate rate (Z.of_nat n) <= 1000000000 ->
     exists l, load_start newRand seed rate n = Ret l /\ load_inv l /\ length (ld_producers l) = n) /\
  (1000000000 < perProducerRate rate (Z.of_nat n) -> load_start newRand seed rate n = Panic).
Proof.
  intros Hn. assert (0 < perProducerRate rate (Z.of_nat n)) as Hpos.
  { unfold perProducerRate. destruct (_ <=? 0) eqn:E; lia. }
  unfold load_start. set (k := perProducerRate rate (Z.of_nat n)) in *. split; intros Hk.
  - destruct (start_producers_ok newRand seed (Z.quot 1000000000 k) (seq 0 n)) as (ps & -> & Hlen & Hps).
    { rewrite Z.quot_div_nonneg by lia. apply Z.div_str_pos. lia. }
    cbn [obind]. eexists. split; [reflexivity|]. split; [by apply load_inv_start|]. cbn. by rewrite Hlen, length_seq.
  - rewrite Z.quot_small by lia. destruct n; [lia|]. reflexivity.
Qed.

(** Changing a producer's phase and latencies does not concern what was issued. *)
Lemma issues_same issued next producers i p p' :
  producers !! i = Some p -> pd_active p' = pd_active p -> issues_ok issued next producers -> issues_ok issued next (<[i := p']> producers).
Proof.
  intros Hp Ea [H1 H2 H3 H4 H5]. split; try done. intros j q Hq. destruct (decide (i = j)) as [<-|Hij].
  - rewrite list_lookup_insert_eq in Hq by by eapply lookup_lt_Some. injection Hq as <-. rewrite Ea. by apply H5.
  - rewrite list_lookup_insert_ne in Hq by done. by apply H5.
Qed.

(** A generated command is issued. *)
Lemma issues_more issued next producers i p cmd s :
  producers !! i = Some p -> issues_ok issued next producers ->
  generated symbols (mkGenState (pd_rng p) next (pd_active p)) cmd s -> forall lats ph,
  issues_ok (issued ++ [(i, cmd)]) (gs_nextOrderID s) (<[i := mkProducer (gs_rng s) (gs_active s) lats ph]> producers).
Proof.
  intros Hp [H1 H2 H3 H4 H5] [G1 G2 G3 G4 G5 G6] lats ph. cbn in G4, G6. destruct (H5 i p Hp) as [Ha Hopen].
  assert (is_new cmd = true \/ ref_of cmd ∈ opens (issued_by i issued)) as Hback.
  { destruct G4 as [(Ht & _)|(_ & _ & Hin)]; [left; unfold is_new; rewrite Ht; apply Z.eqb_refl|right; by apply Hopen]. }
  assert (next <= gs_nextOrderID s) as Hle by (destruct G4 as [(_ & _ & ->)|(_ & -> & _)]; lia). split.
  - rewrite map_app. cbn [map snd]. rewrite new_ids_snoc, length_app. destruct G4 as [(Ht & _ & ->)|(Ht & -> & _)]; unfold is_new.
    + rewrite Ht, Z.eqb_refl. cbn [length]. lia.
    + rewrite (proj2 (Z.eqb_neq _ _) Ht). cbn [length]. lia.
  - rewrite map_app. cbn [map snd]. rewrite new_ids_snoc. unfold is_new. destruct G4 as [(Ht & Ei & _)|(Ht & _ & _)].
    + rewrite Ht, Z.eqb_refl, length_app, seq_app, map_app, <-H2. cbn [length seq map]. do 2 f_equal. lia.
    + rewrite (proj2 (Z.eqb_neq _ _) Ht), app_nil_r. exact H2.
  - rewrite map_app. apply Forall_app. split; [done|]. by apply Forall_singleton.
  - intros j. rewrite issued_snoc. destruct (decide (i = j)) as [<-|]; [|by rewrite app_nil_r]. by apply refers_back_snoc.
  - intros j q Hq. rewrite issued_snoc. destruct (decide (i = j)) as [<-|Hij].
    + rewrite list_lookup_insert_eq in Hq by by eapply lookup_lt_Some. injection Hq as <-. cbn. split; [done|].
      intros x Hx. rewrite opens_snoc. apply elem_of_app. destruct (G6 x Hx) as [Hold|[Ht ->]]; [left; by apply Hopen|right].
      unfold is_new. rewrite Ht, Z.eqb_refl. by left.
    + rewrite list_lookup_insert_ne in Hq by done. rewrite app_nil_r. destruct (H5 j q Hq) as [Hj1 Hj2]. split; [|done].
      by eapply active_more.
Qed.

Lemma counts_tick t n producers batches i p p' :
  producers !! i = Some p -> pd_phase p = Waiting -> pd_latencies p' = pd_latencies p -> (exists cmd, pd_phase p' = Submitting cmd) ->
  Z.of_nat n < 18446744073709551615 -> counts_ok t n producers batches ->
  counts_ok (attempt t) (S n) (<[i := p']> producers) batches.
Proof.
  intros Hp Hw El [cmd Hs] Hn [H1 H2 H3 H4 H5]. pose proof (sum_update in_flight _ _ _ p' Hp) as S1. pose proof (sum_update held_latencies _ _ _ p' Hp) as S2.
  unfold in_flight, held_latencies in S1, S2. rewrite Hw, Hs in S1, S2. rewrite El in S2. fold in_flight in S1. fold held_latencies in S2.
  split; cbn; try lia; int_lia.
Qed.

Lemma counts_result t n producers batches i p p' submitted micros cmd :
  producers !! i = Some p -> pd_phase p = Submitting cmd -> pd_phase p' = Waiting ->
  pd_latencies p' = match submitted.2 with Some _ => pd_latencies p | None => pd_latencies p ++ [micros] end ->
  Z.of_nat n < 18446744073709551616 -> counts_ok t n producers batches ->
  counts_ok (count_result submitted t) n (<[i := p']> producers) batches.
Proof.
  intros Hp Hs Hw El Hn [H1 H2 H3 H4 H5]. pose proof (sum_update in_flight _ _ _ p' Hp) as S1. pose proof (sum_update held_latencies _ _ _ p' Hp) as S2.
  unfold in_flight, held_latencies in S1, S2. rewrite Hs, Hw in S1, S2. rewrite El in S2. fold in_flight in S1. fold held_latencies in S2.
  destruct submitted as [result [err|]]; cbn in *; [|destruct (resultRejected result)]; rewrite ?length_app in S2; cbn in S2;
    split; cbn; try lia; int_lia.
Qed.

Lemma counts_over t n producers batches i p p' :
  producers !! i = Some p -> pd_phase p = Waiting -> pd_phase p' = Returned -> counts_ok t n producers batches ->
  counts_ok t n (<[i := p']> producers) (batches ++ [pd_latencies p]).
Proof.
  intros Hp Hw Hr [H1 H2 H3 H4 H5]. pose proof (sum_update in_flight _ _ _ p' Hp) as S1. pose proof (sum_update held_latencies _ _ _ p' Hp) as S2.
  unfold in_flight, held_latencies in S1, S2. rewrite Hr, Hw in S1, S2. fold in_flight in S1. fold held_latencies in S2.
  split; [done|lia|done| |done]. rewrite concat_app, length_app. cbn. rewrite app_nil_r. lia.
Qed.

(** A tick never fails while order IDs are left. *)
Lemma on_tick_ok i p l :
  load_inv l -> Z.of_nat (length (ld_issued l)) < 18446744073709551615 -> ld_producers l !! i = Some p -> pd_phase p = Waiting ->
  exists l', on_tick symbols i p l = Ret l' /\ load_inv l' /\ length (ld_issued l') = S (length (ld_issued l)).
Proof.
  intros [Hi Hc] Hn Hp Hw. unfold on_tick.
  destruct (nextCommand_ok symbols Hne Hnames (mkGenState (pd_rng p) (ld_nextOrderID l) (pd_active p))) as (cmd & s & -> & Hg).
  { split; cbn; [|by destruct (io_active _ _ _ Hi i p Hp)]. rewrite (io_next _ _ _ Hi).
    pose proof (new_ids_length (map snd (ld_issued l))) as Hl. rewrite length_map in Hl. lia. }
  cbn [obind]. eexists. split; [reflexivity|]. cbn. rewrite length_app, Nat.add_comm. split; [|done]. split; cbn.
  - by apply (issues_more _ (ld_nextOrderID l) _ i p).
  - rewrite length_app, Nat.add_comm. eapply counts_tick; [exact Hp|done|done|by eexists|done|done].
Qed.

Lemma on_tick_issues i p l l' : on_tick symbols i p l = Ret l' -> length (ld_issued l') = S (length (ld_issued l)).
Proof.
  unfold on_tick. destruct (nextCommand _ _) as [[c s]| |]; cbn; [|done|done]. intros [= <-]. cbn. rewrite length_app. cbn. lia.
Qed.

Lemma load_step_grows l l' : load_step symbols l l' -> (length (ld_issued l) <= length (ld_issued l'))%nat.
Proof. intros [i p l1 l2 _ _ Ht|i p cmd submitted micros l1 _ _|i p l1 _ _]; [|done|done]. apply on_tick_issues in Ht. lia. Qed.

Lemma load_step_inv l l' :
  load_inv l -> load_step symbols l l' -> Z.of_nat (length (ld_issued l')) < 18446744073709551616 -> load_inv l'.
Proof.
  intros Hinv Hs Hn. destruct Hs as [i p l l' Hp Hw Ht|i p cmd submitted micros l Hp Hph|i p l Hp Hw].
  - pose proof (on_tick_issues _ _ _ _ Ht) as El. destruct (on_tick_ok i p l Hinv ltac:(lia) Hp Hw) as (l1 & E & Hi).
    assert (l1 = l') as -> by congruence. apply Hi.
  - destruct Hinv as [Hi Hc]. split; cbn in *; [by eapply issues_same|].
    eapply counts_result; [exact Hp|exact Hph|done|done|done|done].
  - destruct Hinv as [Hi Hc]. split; cbn in *; [by eapply issues_same|by eapply counts_over].
Qed.

Lemma load_steps_inv l l' :
  load_inv l -> load_steps symbols l l' -> Z.of_nat (length (ld_issued l')) < 18446744073709551616 -> load_inv l'.
Proof.
  intros Hstart. induction 1 as [|l l' l'' _ IH Hs]; intros Hn; [done|]. pose proof (load_step_grows _ _ Hs).
  eapply load_step_inv; [apply IH; [done|lia]|done|done].
Qed.

Lemma all_returned (producers : list (producer G)) :
  Forall (fun p => pd_phase p = Returned) producers ->
  sum_list_with in_flight producers = 0%nat /\ sum_list_with held_latencies producers = 0%nat.
Proof.
  induction 1 as [|p l Hp _ [IH1 IH2]]; [done|]. cbn. rewrite IH1, IH2. unfold in_flight, held_latencies. by rewrite Hp.
Qed.
End Facts.

(** ** Properties *)

(** C35. The load generator does what it reports.  Take any random number generator that
    stays in range, any non-empty list of non-empty symbols and a positive number of
    producers.  When each producer has to send more than 10^9 commands per second, its
    ticker cannot be made and the program panics at the start.  Otherwise the producers
    start, and whatever [Submit] returns, in every interleaving: a producer that gets a
    tick does not panic; every command submitted passes [Validate], fits the machine types
    and is for a configured symbol; the new orders of all producers together get the IDs 1,
    2, 3, ... as they are generated, so no ID is used twice; and a cancel or replace
    is for an order the same producer opened before.  When all producers have ended the
    report is printed, its counters add up to the commands submitted, and it has one sample
    for each command that was processed. *)
Theorem load_generator_correct {G : Type} `{Rand G} (symbols : list string) newRand seed rate n :
  RandLaws G -> symbols <> [] -> ""%string ∉ symbols -> (0 < n)%nat ->
  (1000000000 < perProducerRate rate (Z.of_nat n) -> load_start newRand seed rate n = Panic) /\
  (perProducerRate rate (Z.of_nat n) <= 1000000000 ->
   exists l0, load_start newRand seed rate n = Ret l0 /\ length (ld_producers l0) = n /\
   forall l, load_steps symbols l0 l -> Z.of_nat (length (ld_issued l)) < 18446744073709551615 ->
     (forall i p, ld_producers l !! i = Some p -> pd_phase p = Waiting -> exists l', on_tick symbols i p l = Ret l') /\
     Forall (fun c => Command_Validate c = None /\ command_typed c /\ cmd_Symbol c ∈ symbols) (map snd (ld_issued l)) /\
     new_ids (map snd (ld_issued l)) = map (fun k => 1 + Z.of_nat k) (seq 0 (length (new_ids (map snd (ld_issued l))))) /\
     (forall i, refers_back (issued_by i (ld_issued l))) /\
     (Forall (fun p => pd_phase p = Returned) (ld_producers l) -> forall elapsed stats,
        exists r, loadgen_report (ld_counts l) (ld_batches l) elapsed stats = Ret r /\
          tl_attempted (rp_counts r) = Z.of_nat (length (ld_issued l)) /\
          tl_attempted (rp_counts r) = tl_processed (rp_counts r) + tl_failed (rp_counts r) /\
          tl_processed (rp_counts r) = tl_accepted (rp_counts r) + tl_rejected (rp_counts r) /\
          tl_processed (rp_counts r) = Z.of_nat (rp_samples r))).
Proof.
  intros Hl Hne Hnames Hpos. destruct (load_start_cases symbols newRand seed rate n Hpos) as [Hok Hbad].
  split; [exact Hbad|]. intros Hk. destruct (Hok Hk) as (l0 & E0 & Hinv0 & Hlen). exists l0. split; [done|]. split; [done|].
  intros l Hs Hn. pose proof (load_steps_inv symbols Hne Hnames _ _ Hinv0 Hs ltac:(lia)) as Hinv.
  split_and!; [|apply Hinv|apply Hinv|apply Hinv|].
  - intros i p Hp Hw. destruct (on_tick_ok symbols Hne Hnames i p l Hinv Hn Hp Hw) as (l' & E & _). by exists l'.
  - intros Hret elapsed stats. destruct (loadgen_report_returns (ld_counts l) (ld_batches l) elapsed stats) as (r & E & Ec & Es).
    destruct Hinv as [_ [H1 H2 H3 H4 _]], (all_returned _ Hret) as [E1 E2]. exists r. rewrite Ec, Es.
    split_and!; [done|done|lia|done|lia].
Qed.

(** A generator that counts, and two producers: one command each, one of which fails. *)
#[local] Instance counting : Rand Z := fun n g => (g mod n, g + 37).
#[local] Instance counting_laws : RandLaws Z.
Proof. intros n g Hn. by apply Z.mod_pos_bound. Qed.

Definition ld_syms : list string := ["AAPL"; "BTCUSD"]%string.
Definition ld0 : load Z :=
  match load_start (fun s => s) 3 4000 2 with Ret l => l | _ => mkLoad 0 (mkTally 0 0 0 0 0) [] [] [] end.
Definition at_producer (i : nat) (f : producer Z -> load Z -> load Z) (l : load Z) : load Z :=
  match ld_producers l !! i with Some p => f p l | None => l end.
Definition do_tick (i : nat) : load Z -> load Z :=
  at_producer i (fun p l => match on_tick ld_syms i p l with Ret l' => l' | _ => l end).
Definition do_result (i : nat) (r : Result * option error) : load Z -> load Z := at_producer i (fun p l => on_result i p r 250 l).
Definition do_over (i : nat) : load Z -> load Z := at_producer i (fun p l => on_over i p l).
Definition ld1 : load Z := do_tick 0 ld0.
Definition ld2 : load Z := do_tick 1 ld1.
Definition ld3 : load Z := do_result 0 (mkResult 1 [], None) ld2.
Definition ld4 : load Z := do_result 1 (mkResult 0 [], Some ErrNotExist) ld3.
Definition ld5 : load Z := do_over 0 ld4.
Definition ld6 : load Z := do_over 1 ld5.

Lemma do_tick_step i l p l' :
  ld_producers l !! i = Some p -> pd_phase p = Waiting -> on_tick ld_syms i p l = Ret l' -> load_step ld_syms l (do_tick i l).
Proof. intros Hp Hw Ht. unfold do_tick, at_producer. rewrite Hp, Ht. by eapply ls_tick. Qed.
Lemma do_result_step i r l p cmd :
  ld_producers l !! i = Some p -> pd_phase p = Submitting cmd -> load_step ld_syms l (do_result i r l).
Proof. intros Hp Hw. unfold do_result, at_producer. rewrite Hp. by eapply ls_result. Qed.
Lemma do_over_step i l p :
  ld_producers l !! i = Some p -> pd_phase p = Waiting -> load_step ld_syms l (do_over i l).
Proof. intros Hp Hw. unfold do_over, at_producer. rewrite Hp. by eapply ls_over. Qed.

Lemma ld_steps : load_steps ld_syms ld0 ld6.
Proof.
  apply (lds_step _ _ ld5 ld6); [apply (lds_step _ _ ld4 ld5); [apply (lds_step _ _ ld3 ld4); [apply (lds_step _ _ ld2 ld3);
    [apply (lds_step _ _ ld1 ld2); [apply (lds_step _ _ ld0 ld1); [apply lds_refl|]|]|]|]|]|].
  - eapply (do_tick_step 0 ld0); [vm_compute; reflexivity..].
  - eapply (do_tick_step 1 ld1); [vm_compute; reflexivity..].
  - eapply (do_result_step 0 _ ld2); [vm_compute; reflexivity..].
  - eapply (do_result_step 1 _ ld3); [vm_compute; reflexivity..].
  - eapply (do_over_step 0 ld4); [vm_compute; reflexivity..].
  - eapply (do_over_step 1 ld5); [vm_compute; reflexivity..].
Qed.

(** Two producers at 4000 commands per second run and end; one at 2*10^9 panics. *)
Lemma load_generator_correct_witness :
  load_start (G := Z) (fun s => s) 3 2000000000 1 = Panic /\
  load_start (fun s => s) 3 4000 2 = Ret ld0 /\
  tl_attempted (ld_counts ld6) = 2 /\ tl_failed (ld_counts ld6) = 1 /\
  (forall i, refers_back (issued_by i (ld_issued ld6))) /\
  forall elapsed stats, exists r, loadgen_report (ld_counts ld6) (ld_batches ld6) elapsed stats = Ret r /\
    tl_processed (rp_counts r) = Z.of_nat (rp_samples r).
Proof.
  assert (ld_syms <> []) as Hne by done. assert (""%string ∉ ld_syms) as Hnames.
  { intros Hin. apply elem_of_cons in Hin as [Hin|Hin]; [done|]. by apply list_elem_of_singleton in Hin. }
  split; [apply (load_generator_correct ld_syms (fun s => s) 3 2000000000 1 counting_laws Hne Hnames); [lia|vm_compute; reflexivity]|].
  destruct (proj2 (load_generator_correct ld_syms (fun s => s) 3 4000 2 counting_laws Hne Hnames ltac:(lia)))
    as (l0 & E0 & _ & Hall); [vm_compute; congruence|].
  assert (l0 = ld0) as -> by (unfold ld0; by rewrite E0).
  destruct (Hall ld6 ld_steps) as (_ & _ & _ & Hback & Hrep); [vm_compute; reflexivity|].
  split; [exact E0|]. split; [vm_compute; reflexivity|]. split; [vm_compute; reflexivity|]. split; [exact Hback|].
  intros elapsed stats. destruct (Hrep ltac:(vm_compute; repeat constructor) elapsed stats) as (r & E & _ & _ & _ & Es).
  exists r. split; [exact E|exact Es].
Defined.
