(* ===== verification/Commands.v ===== *)
(** * Commands: the programs cmd/engine, cmd/replay and cmd/loadgen

    The order of their steps and how they end.  What the operating system returns (the
    configuration file, the directories, the signal) is an argument. *)

From Stdlib Require Import SpecFloat.
From S2P Require Import Prelude Model Book Bytes Codec Fs Names Disk Registry Recovery RecoveryProps SnapStore.
From S2P Require Import Reader Metrics Writer Sequencer Loop Engine Loadgen.

(** A program ends after its last line, or with [log.Fatalf]. *)
Inductive exit := ExitOK (message : string) | ExitFatal (message : string) (err : error).

(** ** cmd/replay *)

Definition replay_main (loaded : error + Config) (latest : error + (EngineSnapshot * string)) (wal : dir)
  : outcome exit :=
  match loaded with
  | inl err => Ret (ExitFatal "load config" err)
  | inr cfg =>
      let? r := VerifyReplay cfg latest wal in
      match r with
      | Some err => Ret (ExitFatal "replay verification failed" err)
      | None => Ret (ExitOK "replay verification passed")
      end
  end.

(** ** cmd/engine *)

(** The interval of the metrics report: [time.Duration(millis) * time.Millisecond]. *)
Definition reportEvery (cfg : Config) : Z :=
  if cfg_MetricsReportMillis cfg >? 0 then wrap_i64 (cfg_MetricsReportMillis cfg * 1000000) else 1000000000.

(** Until the signal: the engine, with its report when metrics are enabled. *)
Definition engine_start (loaded : error + Config) (mkWAL mkSnap : option error)
  (latest : error + (EngineSnapshot * string)) (wal : dir)
  (mkdir : Z -> option error) : outcome (exit + Engine) :=
  match loaded with
  | inl err => Ret (inl (ExitFatal "load config" err))
  | inr cfg =>
      match mkWAL with
      | Some err => Ret (inl (ExitFatal "create wal dir" err))
      | None =>
          match mkSnap with
          | Some err => Ret (inl (ExitFatal "create snapshot dir" err))
          | None =>
              let? r := NewEngine cfg latest wal mkdir in
              match r with
              | inl err => Ret (inl (ExitFatal "init engine" err))
              | inr engine =>
                  if cfg_EnableMetrics cfg
                  then let? _ := NewTicker (reportEvery cfg) in Ret (inr engine)
                  else Ret (inr engine)
              end
          end
      end
  end.

(** What the reporting goroutine prints at a tick, when there are statistics. *)
Record metrics_line := mkMetricsLine {
  ml_accepted : Z; ml_rejected : Z; ml_backpressure : Z; ml_ingress_hwm : Z; ml_shard_hwm : Z;
  ml_wal_batches : Z; ml_wal_cmds : Z; ml_wal_bytes : Z;
  ml_submit_p99_ms : spec_float; ml_wal_sync_p99_ms : spec_float; ml_snapshot_p99_ms : spec_float
}.
Definition report_tick (engine : Engine) : outcome (option metrics_line) :=
  let? stats := MetricsSnapshot engine in
  Ret (match stats with
       | None => None
       | Some s => Some (mkMetricsLine (ms_Accepted s) (ms_Rejected s) (ms_Backpressure s) (ms_IngressQueueHWM s)
                           (ms_ShardQueueHWM s) (ms_WALBatches s) (ms_WALBatchCommandsSum s) (ms_WALBatchBytesSum s)
                           (pt_99 (ms_Submit s)) (pt_99 (ms_WALSync s)) (pt_99 (ms_Snapshot s)))
       end).

(** After the signal: [shutdown] is what [Shutdown] returned; the statistics are printed
    when there are any. *)
Definition engine_stop (shutdown : option error) (engine : Engine) : outcome (exit * option Stats) :=
  match shutdown with
  | Some err => Ret (ExitFatal "shutdown engine" err, None)
  | None =>
      let? stats := MetricsSnapshot engine in
      Ret (ExitOK "shutdown complete", stats)
  end.

(** ** cmd/loadgen *)

(** Until the producers are started (Producers): the engine. *)
Definition loadgen_start (duration producers rate : Z) (loaded : error + Config) (requireEmpty : bool)
  (read : string -> error + list string) (mkWAL mkSnap : option error)
  (latest : error + (EngineSnapshot * string)) (wal : dir)
  (mkdir : Z -> option error) : outcome (exit + Engine) :=
  if (duration <=? 0) || (producers <=? 0) || (rate <=? 0)
  then Ret (inl (ExitFatal "duration, producers, and rate must be positive" (Errorf "" [])))
  else
    match loaded with
    | inl err => Ret (inl (ExitFatal "load config" err))
    | inr cfg =>
        match (if requireEmpty then verifyEmptyState read [cfg_WALDir cfg; cfg_SnapshotDir cfg] else None) with
        | Some err => Ret (inl (ExitFatal "verify empty state" err))
        | None =>
            match mkWAL with
            | Some err => Ret (inl (ExitFatal "create wal dir" err))
            | None =>
                match mkSnap with
                | Some err => Ret (inl (ExitFatal "create snapshot dir" err))
                | None =>
                    let? r := NewEngine cfg latest wal mkdir in
                    match r with
                    | inl err => Ret (inl (ExitFatal "init engine" err))
                    | inr engine => Ret (inr engine)
                    end
                end
            end
        end
    end.

Lemma NewSymbolRegistry_total symbols count :
  small_count count -> exists res, NewSymbolRegistry symbols count = Ret res.
Proof.
  intros Hc. destruct (decide (symbols = [])) as [->|Hne].
  { destruct (NewSymbolRegistry_error [] count Hc) as [e He]; [by left|by eexists]. }
  destruct (decide (symbols_ok symbols)) as [Hok|Hbad].
  - destruct (NewSymbolRegistry_ok _ _ Hc Hne Hok) as (r & Hr & _). by eexists.
  - destruct (NewSymbolRegistry_error symbols count Hc) as [e He]; [by right|by eexists].
Qed.

(** ** Properties *)

(** The verdict of a replay is recovery's: it passes exactly when an engine with this
    configuration would recover. *)
Lemma replay_verdict cfg latest wal :
  small_count (cfg_ShardCount cfg) -> snapshot_ok latest -> dir_ok wal ->
  exists e, replay_main (inr cfg) latest wal = Ret e /\
    ((exists message, e = ExitOK message) <->
     exists r out lasts, NewSymbolRegistry (cfg_Symbols cfg) (cfg_ShardCount cfg) = Ret (inr r) /\
       recoverBooks cfg r latest wal = Ret (inr (out, lasts))).
Proof.
  intros Hc Hs Hd. unfold replay_main, VerifyReplay.
  destruct (NewSymbolRegistry_total (cfg_Symbols cfg) (cfg_ShardCount cfg) Hc) as [res ->]. cbn [obind].
  destruct res as [err|r].
  { eexists. split; [reflexivity|]. split; [by intros [? ?]|]. by intros (? & ? & ? & ? & _). }
  destruct (recoverBooks_spec cfg r latest wal (proj1 Hc) Hs Hd) as (res & Eres & _). rewrite Eres. cbn [obind].
  destruct res as [err|[out lasts]]; (eexists; split; [reflexivity|]); split.
  - by intros [? ?].
  - intros (r1 & out & lasts & [= <-] & H). congruence.
  - intros _. by exists r, out, lasts.
  - intros _. by eexists.
Qed.

(** A configuration that passes validation with a report interval of 2^44 milliseconds: the
    interval overflows to a negative number of nanoseconds, and the ticker panics. *)
Definition slow_report : Config :=
  mkConfig "e" ["A"]%string 1 1 1 "wal" "snap" 1 1 1 true 17592186044416.

Theorem huge_report_interval_panics :
  Config_Validate slow_report = None /\ reportEvery slow_report < 0 /\
  engine_start (inr slow_report) None None (inl ErrNotExist) ∅ (fun _ => None) = Panic.
Proof. split; [vm_compute; reflexivity|]. split; vm_compute; reflexivity. Qed.
